(* ===== verification/_CoqProject ===== *)
-Q . S2P
Prelude.v
TileKey.v
TileTree.v
LruCache.v
InMemoryCache.v
Hrn.v
ProtectedKeyList.v
Json.v
ReadModels.v
DiskCache.v
DefaultCache.v
DefaultCacheInvariant.v
DefaultCacheOperations.v
Crypto.v
QuadTreeIndex.v
QuadTreeJson.v
TaskContext.v
Scheduler.v
Http.v
PendingUrlRequests.v
OlpClient.v
OlpClientAsync.v
NamedMutex.v
KeyValueCache.v
KeyGenerator.v
CacheRepositories.v
LayerClient.v
World.v
RecordedCache.v
ApiLookup.v
ReadApis.v
Repositories.v
RepositoryProperties.v
ReadIntegrity.v
PartitionsSaxHandler.v
PartitionStream.v
PrefetchTiles.v
PrefetchJobs.v
LayerTasks.v
StreamLayer.v
