(* ===== verification/Prelude.v ===== *)
(** * The HERE Data SDK for C++

    A development about the core logic of the libraries of this repository: the tile
    keys and the quadtree, the caches from memory to disk, the tasks and their
    cancellation, the HTTP client with its retries, and the index that the reading
    library searches.  Paths below are relative to the library they belong to
    (olp-cpp-sdk-core unless said otherwise).

    ** Parts of the program and how they interact

    A layer client of the reading library runs a task ([TaskContext]).  The task asks a
    repository; the repository takes a [NamedMutex] of the resource so that only one
    thread downloads it, looks into the key-value cache ([DefaultCacheImpl]) and, if the
    cache has nothing, calls [OlpClient].  The client builds a request, sends it to the
    network, retries, and shares the call of a URL among callers that ask at the same
    time ([PendingUrlRequests]).  What is downloaded for a tile is found in a quad tree
    index ([QuadTreeIndex]) by [TileKey].  What is downloaded is a text that the generated
    parsers turn into a model; the cache repositories keep models, data and indexes in the
    cache under keys that [KeyGenerator] makes of names.  The cache is an [InMemoryCache] (over
    [LruCache]) in front of two LevelDB databases ([DiskCache]); keys that the user
    protects ([ProtectedKeyList]) are neither evicted nor expired.

    ** Files

    - Prelude.v: machine integers, characters, decimal numerals, lists; the hint
      database [code].
    - TileKey.v (include/olp/core/geo/tiling/TileKey.h, src/geo/tiling/TileKey.cpp): the
      record [TileKey]; a method is the function of the same name.
    - TileTree.v (SubTiles.h, the subdivision schemes, TileTreeTraverse): a tree node
      enumerated by an iterator whose state is an index.
    - LruCache.v (include/olp/core/utils/LruCache.h): the map of buckets whose links are
      keys; [spec], a list of pairs, is what the cache promises.
    - InMemoryCache.v (src/cache/InMemoryCache.cpp): [LruCache] next to the map of expiry
      times.
    - Hrn.v (src/client/HRN.cpp, Tokenizer.h): names; [FromString] and [ToString].
    - ProtectedKeyList.v (src/cache/ProtectedKeyList.cpp): the sorted set of prefixes.
    - Json.v, ReadModels.v (olp-cpp-sdk-dataservice-read, src/generated,
      include/olp/dataservice/read/model): JSON values, the wrappers of the parsers and
      serializers as classes, and the models as records with instances of them.
    - DiskCache.v (src/cache/DiskCache.cpp): the adapter to LevelDB, which is the class
      [LevelDB] with the laws of its documentation; a concrete database is an instance.
    - DefaultCache.v, DefaultCacheInvariant.v, DefaultCacheOperations.v
      (src/cache/DefaultCacheImpl.cpp): every operation as a computation on the record of
      the members in a state and error monad; then its invariant; then what the operations do.
    - Crypto.v (olp-cpp-sdk-authentication, src/Crypto.cpp): SHA-256, HMAC.
    - QuadTreeIndex.v (olp-cpp-sdk-dataservice-read, src/repositories/QuadTreeIndex.cpp,
      src/BlobDataReader.h, src/BlobDataWriter.h).
    - TaskContext.v (include/olp/core/client: CancellationContext, Condition, TaskContext;
      src/client/PendingRequests.cpp): threads as program counters; a step relation.
    - Scheduler.v (src/thread/PriorityQueueExtended.h, src/thread/ThreadPoolTaskScheduler.cpp,
      include/olp/core/thread/SyncQueue.inl): the queue of tasks that keeps the order of equal
      priorities, and the pool of threads that wait for it.
    - Http.v (src/utils/Url.cpp, include/olp/core/http): [Url], [Network], [Response].
    - PendingUrlRequests.v (src/client/PendingUrlRequests.cpp): a store of shared requests.
    - OlpClient.v, OlpClientAsync.v (src/client/OlpClient.cpp, RetrySettings): building
      requests and the blocking call; the asynchronous call as a state machine over the
      store of PendingUrlRequests.v, and the order in which threads take mutexes.
    - NamedMutex.v (olp-cpp-sdk-dataservice-read, src/repositories/NamedMutex.cpp).
    - KeyValueCache.v (include/olp/core/cache/KeyValueCache.h): the interface of a cache as
      a class of operations with laws; the default cache is an instance.
    - KeyGenerator.v (src/cache/KeyGenerator.cpp): the keys, and when they are different.
    - CacheRepositories.v (olp-cpp-sdk-dataservice-read, src/repositories/*CacheRepository.cpp):
      the repositories over the interface of the cache.
    - LayerClient.v (olp-cpp-sdk-dataservice-read, src/VersionedLayerClientImpl.cpp,
      src/ProtectDependencyResolver.cpp, src/ReleaseDependencyResolver.cpp): what the
      versioned layer client does with the cache.
    - QuadTreeJson.v (olp-cpp-sdk-dataservice-read, src/repositories/QuadTreeIndex.cpp): the
      index that is made of the text of a response.
    - World.v: what the repositories run in, the cache and what is outside of the process;
      the class [Online] has the calls, the clocks and the named mutexes.
    - ApiLookup.v (src/client/ApiLookupClientImpl.cpp, src/client/api): the lookup of the
      URL of a service, with the clients it keeps.
    - ReadApis.v (olp-cpp-sdk-dataservice-read, src/generated/api): the requests.
    - Repositories.v (olp-cpp-sdk-dataservice-read, src/repositories: CatalogRepository,
      PartitionsRepository, DataRepository): the operations that look into the cache, ask
      a service and keep the answer, as the fetch option says.
    - PartitionsSaxHandler.v, PartitionStream.v (src/repositories/PartitionsSaxHandler.cpp,
      AsyncJsonStream.cpp, PartitionsRepository.cpp): the partitions of a response that is
      parsed while it is downloaded; the handler of the events of the parser, then the thread
      that parses and the one that downloads, in every interleaving.
    - PrefetchTiles.v (src/repositories/PrefetchTilesRepository.cpp): the trees that cover
      the tiles of a prefetch, their data, and the filters of the request.
    - PrefetchJobs.v (src/QueryMetadataJob.h, DownloadItemsJob.h, TaskSink.cpp): the two
      jobs of a prefetch as a state machine of the completions of their tasks.
    - RecordedCache.v: any cache of KeyValueCache.v with a record of its answers, for what
      the state of a cache in the end does not tell, such as that a tile was cached when a
      prefetch asked for it.
    - LayerTasks.v (src/VersionedLayerClientImpl.cpp): what the task of each operation of
      the versioned layer client does, and both prefetches from the request to the callback.
    - StreamLayer.v (src/StreamLayerClientImpl.cpp, src/generated/api/StreamApi.cpp): the
      subscription of a stream layer client and its tasks.
    - RepositoryProperties.v, ReadIntegrity.v: what these promise; the second one for
      services that are honest and for a cache and threads that do what they want within
      the laws.

    ** How code is represented

    A [std::uintN_t] is an integer in range, wrapped where the code's arithmetic can
    leave the range.  A string is a list of characters, a [std::map] or a hash map a
    finite map, a [std::set] the sorted list of its elements, an iterator a key or
    [None] for the end.  [option] shows undefined behaviour, an exception or an empty
    [boost::optional], as each file says.  A method takes its object and gives the new
    one; callbacks that are called are part of the result, in the order of the calls.
    Code that runs under one lock is one step; what runs concurrently is a list of steps
    chosen by a schedule.  The clock, the network and LevelDB are arguments.

    ** What the theorems show

    - Representation: 64-bit quad keys, strings of decimal, percent-encoded URLs, names and lists
      of keys survive a round trip; navigation keeps a key valid; a model is parsed as it
      was serialized.
    - Refinement and equivalence: the LRU cache is the list of its items in the order of
      their use, SHA-256 is that of FIPS 180-4, [Url::Construct] is injective.
    - Caches: no operation reads through an invalid iterator; the invariant of the
      default cache is established by [Open] and kept by every operation, entries that
      [Protect] has taken out of the eviction list or that were guarded before survive, a
      written value is read, and evictions take the oldest keys.
    - Repositories: whatever is called on whatever repositories of one cache, no value is
      taken for one of another type; the partitions that are read are those put last; what
      is protected with its index stays, and releasing tiles keeps what others need.
    - Requests: data of a partition or a tile is data that the catalog has for it in this
      version, whatever is cached and whatever other threads do; an aggregated request
      ends with the nearest ancestor; with the option to use the cache only nothing
      depends on the services, tiles with required fields excepted
      ([CacheOnly_goes_online]); long lists of partitions are queried in batches.
    - Prefetch: the trees that are asked for have all the tiles of the request; however the
      completions of queries and downloads interleave, the callback is called once, in the
      end, with a result for each tile that was found; and where the client has a catalog
      and services that are honest, each tile that a prefetch without a scheduler reports
      without an error was found in the cache, or its data was downloaded and given to the
      cache ([PrefetchTiles_reports]).
    - Tasks: a callback is called once, a cancelled task has no result but Cancelled, and
      threads that are scheduled come to an end.
      The scheduler starts tasks in the order of their priorities, equal ones in the order
      in which they were added, loses none, and comes to rest.
    - Stream layers: a poll commits the offset of the last message of each partition that
      it hands over, and nothing when there is no message.
    - Calls: the number of attempts is bounded, the last response is returned, a callback
      is called at most once, and once when none of the executions happened that lose it;
      a call ends, or one of the events that lose its response has happened.  Of threads
      with one named mutex that were not cancelled one at most is inside.
    - Errors: theorems whose names say what is lost ([responses_lost], [callbacks_lost],
      [Write_keeps_old_expiry], [send_failure_deadlock]) are executions of the code that
      end in a state its documentation excludes.
    - Streams: the partitions that are handed over are those of the whole text, in whatever
      pieces it arrives, and the thread that parses comes to an end ([streamed_partitions],
      [parsing_ends]); which errors are lost and which attributes leak is shown by
      [parse_error_lost] and [attributes_leak].

    ** Fuel and bounds

    A loop without a structural argument has fuel, and a theorem says that it is
    enough: loops over a linked list have the number of its elements
    ([evict_loop_spec], [remove_loop_spec], [remove_prefix_loop_spec],
    [evict_data_loop_spec]), the retry loop the maximum of attempts ([retry_loop_end]), a
    sleep its duration ([sleep_loop_spec]), decimal numerals the number of bits
    ([dec_go_spec]), and the search of a quad key 32 levels.  The
    loop that splits a tree has its depth ([split_loop_spec]), the one over the trees above a
    root eight rounds, since a key has 32 levels and a round goes up five
    ([gives_load_loop]), and the walk to the aggregated parent 33 ([climb_spec]).  Only the loop of
    [QuadKey64Helper::AddedSubkey] has no bound, and for a sub key of 31 levels no fuel
    is enough.  Strings given to [Url::Decode] are shorter than 2^32, and fewer than 2^32
    threads use a named mutex at a time.

    ** Not modelled

    HTTP back ends and the environments of LevelDB (adapters to libraries and the
    operating system), the models of the other libraries, floating point geometry,
    logging, porting shims.  Of modelled parts: compaction, formatting for streams, the
    download in the background of iOS, the text of JSON, which Boost.JSON reads and writes (for
    strings that are UTF-8, [is_utf8], which the law of the round trip asks for),
    the lookup of a service with a callback, which does what the blocking one does. *)

From Stdlib Require Export ZArith Lia Bool Ascii.
From Stdlib Require String.
From stdpp Require Export base tactics list numbers list_numbers option gmap strings.

#[global] Open Scope Z_scope.

(** ** Automation

    [blia] decides a boolean comparison of integers. *)

Ltac blia :=
  match goal with
  | |- true = _ => symmetry
  | |- false = _ => symmetry
  | _ => idtac
  end;
  rewrite ?Z.gtb_ltb, ?Z.geb_leb;
  first
    [ apply Z.ltb_lt; lia | apply Z.ltb_ge; lia | apply Z.leb_le; lia | apply Z.leb_gt; lia
    | apply Z.eqb_eq; lia | apply Z.eqb_neq; lia
    | apply eq_true_iff_eq; rewrite ?Z.eqb_eq, ?Z.ltb_lt, ?Z.leb_le; lia | lia ].

(** Replaces a comparison by its value. *)
Tactic Notation "btrue" uconstr(b) := replace b with true by blia.
Tactic Notation "bfalse" uconstr(b) := replace b with false by blia.

(** ** Machine integers

    A [uintN_t] is a [Z] in [0, 2^N); every arithmetic operation whose result
    can leave the range is wrapped where the code wraps it. *)

Definition u8 (z : Z) : Z := z mod 2 ^ 8.
Definition u16 (z : Z) : Z := z mod 2 ^ 16.
Definition u32 (z : Z) : Z := z mod 2 ^ 32.
Definition u64 (z : Z) : Z := z mod 2 ^ 64.

(** Conversion to a 32-bit two's complement [int]. *)
Definition s32 (z : Z) : Z :=
  let w := u32 z in if w <? 2 ^ 31 then w else w - 2 ^ 32.

(** Conversion to a 64-bit two's complement integer. *)
Definition s64 (z : Z) : Z := let w := u64 z in if w <? 2 ^ 63 then w else w - 2 ^ 64.

Definition is_u32 (z : Z) : Prop := 0 <= z < 2 ^ 32.
Definition is_u64 (z : Z) : Prop := 0 <= z < 2 ^ 64.

Lemma u32_small z : is_u32 z -> u32 z = z.
Proof. intros H. apply Z.mod_small, H. Qed.

Lemma u64_small z : is_u64 z -> u64 z = z.
Proof. intros H. apply Z.mod_small, H. Qed.

Lemma u32_range z : is_u32 (u32 z).
Proof. apply Z.mod_pos_bound. lia. Qed.

Lemma u64_range z : is_u64 (u64 z).
Proof. apply Z.mod_pos_bound. lia. Qed.

(** Arithmetic of [uint64_t]. *)
Declare Scope word_scope.
Delimit Scope word_scope with word.
Notation "a + b" := (u64 (a + b)%Z) : word_scope.
Notation "a - b" := (u64 (a - b)%Z) : word_scope.

(** The facts on machine integers and characters that need no thought: [code] resolves
    ranges, and rewrites conversions whose arguments are in range. *)
Create HintDb code.
#[export] Hint Resolve u32_range u64_range : code.
#[export] Hint Rewrite u32_small u64_small using (first [assumption | unfold is_u32, is_u64; lia]) : code.

Lemma s32_small z : - 2 ^ 31 <= z < 2 ^ 31 -> s32 z = z.
Proof.
  intros H. unfold s32, u32.
  destruct (decide (0 <= z)).
  - rewrite Z.mod_small by lia.
    destruct (Z.ltb_spec z (2 ^ 31)); lia.
  - rewrite <- (Z.mod_unique z (2 ^ 32) (-1) (z + 2 ^ 32)) by lia.
    destruct (Z.ltb_spec (z + 2 ^ 32) (2 ^ 31)); lia.
Qed.

(** The usual congruence: an inner wrap to 32 bits disappears under an outer one. *)
Lemma s32_u32 z : s32 (u32 z) = s32 z.
Proof. unfold s32, u32. rewrite Z.mod_mod by lia. reflexivity. Qed.

(** ** Bits *)

Lemma testbit_small x n i : 0 <= x < 2 ^ n -> n <= i -> Z.testbit x i = false.
Proof.
  intros Hx Hi.
  destruct (decide (0 <= n)).
  - rewrite <- (Z.mod_small x (2 ^ n)) by lia. apply Z.mod_pow2_bits_high. lia.
  - rewrite Z.pow_neg_r in Hx by lia. lia.
Qed.

Lemma u64_testbit x i : 0 <= i < 64 -> Z.testbit (u64 x) i = Z.testbit x i.
Proof. intros. apply Z.mod_pow2_bits_low. lia. Qed.

Lemma lor_disjoint_add x n : 0 <= n -> 0 <= x < 2 ^ n -> Z.lor x (2 ^ n) = x + 2 ^ n.
Proof.
  intros Hn Hx. symmetry. apply Z.add_nocarry_lor.
  apply Z.bits_inj'. intros i Hi. rewrite Z.land_spec, Z.bits_0.
  destruct (decide (i = n)) as [->|].
  - rewrite (testbit_small x n) by lia. reflexivity.
  - rewrite Z.pow2_bits_false by lia. apply andb_false_r.
Qed.

(** ** Characters and strings

    A [std::string] is a list of characters; a literal is written
    [chars "..."].  Characters are converted to and from their codes by
    [ord] and [chr]. *)

Abbreviation chars := String.list_ascii_of_string.

Definition ord (a : ascii) : Z := Z.of_N (N_of_ascii a).
Definition chr (z : Z) : ascii := ascii_of_N (Z.to_N z).

Lemma ord_chr z : 0 <= z < 256 -> ord (chr z) = z.
Proof.
  intros H. unfold ord, chr. rewrite N_ascii_embedding by lia. lia.
Qed.

Lemma chr_ord a : chr (ord a) = a.
Proof. unfold ord, chr. rewrite N2Z.id. apply ascii_N_embedding. Qed.

Lemma ord_range a : 0 <= ord a < 256.
Proof. unfold ord. pose proof (N_ascii_bounded a). lia. Qed.

Lemma ord_inj a b : ord a = ord b -> a = b.
Proof. intros H. by rewrite <- (chr_ord a), <- (chr_ord b), H. Qed.

#[export] Hint Resolve ord_range : code.
#[export] Hint Rewrite chr_ord : code.
#[export] Hint Rewrite ord_chr using lia : code.

(** ** State and failure

    The operations of a large class are computations on its state; [None] is
    undefined behaviour, or an exception that leaves the operation. *)

Definition state (S A : Type) : Type := S -> option (S * A).

#[export] Instance state_ret S : MRet (state S) := fun A a s => Some (s, a).
#[export] Instance state_bind S : MBind (state S) := fun A B k m s => '(s, a) ← m s; k a s.

Definition gets {S A} (f : S -> A) : state S A := fun s => Some (s, f s).
Definition modify {S} (f : S -> S) : state S unit := fun s => Some (f s, tt).
Definition fails {S A} : state S A := fun _ => None.
Definition lift {S A} (o : option A) : state S A := fun s => a ← o; Some (s, a).

(** From a state with [P] the computation has an end, with [Q]. *)
Definition runs {S A} (m : state S A) (s : S) (Q : S -> A -> Prop) : Prop :=
  exists s' a, m s = Some (s', a) /\ Q s' a.

Lemma runs_ret {S A} (a : A) (s : S) Q : Q s a -> runs (mret a) s Q.
Proof. intros H. by exists s, a. Qed.

Lemma runs_bind {S A B} (m : state S A) (k : A -> state S B) s Q :
  runs m s (fun s' a => runs (k a) s' Q) -> runs (m ≫= k) s Q.
Proof. intros (s1 & a & E & s2 & b & E2 & HQ). exists s2, b. split; [|done]. unfold mbind, state_bind. by rewrite E. Qed.

Lemma runs_gets {S A} (f : S -> A) s Q : Q s (f s) -> runs (gets f) s Q.
Proof. intros H. by exists s, (f s). Qed.

Lemma runs_modify {S} (f : S -> S) s (Q : S -> unit -> Prop) : Q (f s) tt -> runs (modify f) s Q.
Proof. intros H. by exists (f s), tt. Qed.

Lemma runs_lift {S A} (o : option A) (a : A) (s : S) Q : o = Some a -> Q s a -> runs (lift o) s Q.
Proof. intros -> H. by exists s, a. Qed.

Lemma runs_mono {S A} (m : state S A) s (Q Q' : S -> A -> Prop) :
  runs m s Q -> (forall s' a, Q s' a -> Q' s' a) -> runs m s Q'.
Proof. intros (s' & a & E & H) H'. exists s', a. auto. Qed.

(** Two computations that do the same from every state. *)
Definition same {S A} (m m' : state S A) : Prop := forall s, m s = m' s.

#[export] Instance same_equivalence {S A} : Equivalence (same (S := S) (A := A)).
Proof. split; [by intros m s|by intros m m' E s|intros m1 m2 m3 E E' s; by rewrite E]. Qed.

#[export] Instance same_bind {S A B} : Proper (pointwise_relation A same ==> same ==> same) (mbind (M := state S) (A := A) (B := B)).
Proof. intros k k' Ek m m' Em s. unfold mbind, state_bind, mbind, option_bind. rewrite (Em s). destruct (m' s) as [[s' a]|]; [apply Ek|done]. Qed.

Lemma same_bind_l {S A B} (m m' : state S A) (k k' : A -> state S B) : same m m' -> (forall a, same (k a) (k' a)) -> same (m ≫= k) (m' ≫= k').
Proof. intros Em Ek. by apply same_bind. Qed.

(** Runs the first step of a computation. *)
Ltac rstep :=
  intros; cbv beta iota;
  lazymatch goal with
  | |- runs (mbind _ _) _ _ => apply runs_bind
  | |- runs (mret _) _ _ => apply runs_ret
  | |- runs (gets _) _ _ => apply runs_gets
  | |- runs (modify _) _ _ => apply runs_modify
  end.

(** ** Lists *)

Section lists.
Context {A : Type}.
Implicit Types (P : A -> bool) (l : list A).

Fixpoint take_while P l : list A :=
  match l with
  | [] => []
  | x :: l => if P x then x :: take_while P l else []
  end.

Fixpoint drop_while P l : list A :=
  match l with
  | [] => []
  | x :: l' => if P x then drop_while P l' else l
  end.

Lemma take_drop_while P l : take_while P l ++ drop_while P l = l.
Proof. induction l as [|x l IH]; simpl; [done|]. destruct (P x); simpl; congruence. Qed.

Lemma drop_while_length P l : (length (drop_while P l) <= length l)%nat.
Proof. rewrite <- (take_drop_while P l) at 2. rewrite length_app. lia. Qed.

Lemma take_while_sublist P l : take_while P l `sublist_of` l.
Proof. rewrite <- (take_drop_while P l) at 2. apply sublist_inserts_r. done. Qed.

Lemma take_while_all P l : Forall (fun x => P x = true) l -> take_while P l = l.
Proof. induction 1 as [|x l Hx _ IH]; simpl; [done|]. rewrite Hx. congruence. Qed.

Lemma take_while_app P l k :
  Forall (fun x => P x = true) l ->
  match k with [] => True | x :: _ => P x = false end ->
  take_while P (l ++ k) = l.
Proof.
  induction 1 as [|x l Hx _ IH]; simpl; intros Hk.
  - destruct k; simpl; [done|]. by rewrite Hk.
  - rewrite Hx, IH; done.
Qed.

Lemma sublist_full (l k : list A) : l `sublist_of` k -> length l = length k -> l = k.
Proof.
  induction 1 as [|x l k Hs IH|x l k Hs IH]; cbn [length]; [done|intros; f_equal; apply IH; lia|].
  apply sublist_length in Hs. lia.
Qed.
End lists.

Lemma filter_none {A} (P : A -> bool) l : (forall j, j ∈ l -> P j = false) -> List.filter P l = [].
Proof.
  induction l as [|x l IH]; intros H; simpl; [done|]. rewrite H by set_solver. apply IH. set_solver.
Qed.

Lemma list_filter_none {A} (P : A -> Prop) `{forall x, Decision (P x)} (l : list A) :
  (forall x, x ∈ l -> ~ P x) -> filter P l = [].
Proof.
  induction l as [|x l IH]; intros H'; [done|]. rewrite filter_cons, decide_False by (apply H'; left).
  apply IH. intros y Hy. apply H'. by right.
Qed.

Lemma list_filter_all {A} (P : A -> Prop) `{forall x, Decision (P x)} (l : list A) :
  (forall x, x ∈ l -> P x) -> filter P l = l.
Proof.
  induction l as [|x l IH]; intros H'; [done|]. rewrite filter_cons, decide_True by (apply H'; left).
  f_equal. apply IH. intros y Hy. apply H'. by right.
Qed.

(** ** Decimal numbers *)

Definition is_digit (c : ascii) : bool := (48 <=? ord c) && (ord c <=? 57).

Fixpoint dec_go (fuel : nat) (n : Z) (acc : list ascii) : list ascii :=
  match fuel with
  | O => acc
  | S fuel =>
      let acc := chr (48 + n mod 10) :: acc in
      if n <? 10 then acc else dec_go fuel (n / 10) acc
  end.

(** [std::to_string] of an unsigned number; one more step than the number of
    bits is enough. *)
Definition to_string (n : Z) : list ascii := dec_go (S (Z.to_nat (Z.log2 n))) n [].

Definition dec_value (s : list ascii) : Z := foldl (fun a c => 10 * a + (ord c - 48)) 0 s.

Lemma dec_value_snoc s c : dec_value (s ++ [c]) = 10 * dec_value s + (ord c - 48).
Proof. unfold dec_value. by rewrite foldl_snoc. Qed.

Lemma is_digit_chr d : 0 <= d < 10 -> is_digit (chr (48 + d)) = true.
Proof. intros. unfold is_digit. autorewrite with code. lia. Qed.

Lemma dec_go_spec fuel n acc :
  0 <= n < 2 ^ Z.of_nat fuel -> (0 < fuel)%nat ->
  exists ds, dec_go fuel n acc = ds ++ acc /\ ds <> [] /\
    Forall (fun c => is_digit c = true) ds /\ dec_value ds = n.
Proof.
  revert n acc. induction fuel as [|fuel IH]; intros n acc Hn Hf; [lia|]. simpl.
  pose proof (Z.mod_pos_bound n 10 ltac:(lia)) as Hm.
  destruct (Z.ltb_spec n 10).
  - exists [chr (48 + n mod 10)]. split_and!; try done.
    + constructor; [by apply is_digit_chr | done].
    + unfold dec_value. simpl. rewrite ord_chr, Z.mod_small by lia. lia.
  - rewrite Nat2Z.inj_succ, Z.pow_succ_r in Hn by lia.
    assert (n / 10 < 2 ^ Z.of_nat fuel) by (apply Z.div_lt_upper_bound; lia).
    destruct fuel as [|fuel]; [simpl in *; lia|].
    destruct (IH (n / 10) (chr (48 + n mod 10) :: acc)) as (ds & -> & Hne & Hd & Hv);
      [split; [apply Z.div_pos|]; lia | lia |].
    exists (ds ++ [chr (48 + n mod 10)]). rewrite <- app_assoc. split_and!.
    + done.
    + by destruct ds.
    + apply Forall_app. split; [done|]. constructor; [by apply is_digit_chr | done].
    + rewrite dec_value_snoc, Hv, ord_chr by lia. pose proof (Z.div_mod n 10). lia.
Qed.

Lemma to_string_spec n :
  0 <= n ->
  to_string n <> [] /\ Forall (fun c => is_digit c = true) (to_string n) /\
  dec_value (to_string n) = n.
Proof.
  intros Hn. unfold to_string.
  destruct (dec_go_spec (S (Z.to_nat (Z.log2 n))) n []) as (ds & -> & H).
  - split; [done|]. destruct (decide (n = 0)) as [->|]; [done|].
    pose proof (Z.log2_spec n ltac:(lia)). pose proof (Z.log2_nonneg n).
    rewrite Nat2Z.inj_succ, Z2Nat.id by lia. lia.
  - lia.
  - by rewrite app_nil_r.
Qed.

(** [strtoull(s, _, 10)]: leading white space, an optional sign, then digits;
    a value that does not fit is [ULLONG_MAX], and a minus sign negates the
    value as an unsigned number. *)
Definition is_space (c : ascii) : bool := (ord c =? 32) || ((9 <=? ord c) && (ord c <=? 13)).

Definition strtoull_digits (s : list ascii) : Z :=
  Z.min (dec_value (take_while is_digit s)) (2 ^ 64 - 1).

Definition strtoull (s : list ascii) : Z :=
  match drop_while is_space s with
  | c :: r =>
      if ord c =? 45 then
        (let v := dec_value (take_while is_digit r) in
         if v <? 2 ^ 64 then u64 (- v) else 2 ^ 64 - 1)
      else if ord c =? 43 then strtoull_digits r
      else strtoull_digits (c :: r)
  | [] => 0
  end.

Lemma strtoull_to_string n : is_u64 n -> strtoull (to_string n) = n.
Proof.
  intros Hn. destruct (to_string_spec n) as (Hne & Hd & Hv); [unfold is_u64 in Hn; lia|].
  unfold strtoull. destruct (to_string n) as [|c r] eqn:E; [done|].
  assert (Hc : is_digit c = true) by by inversion Hd.
  unfold is_digit in Hc. simpl. unfold is_space.
  replace ((ord c =? 32) || _) with false by lia.
  replace (ord c =? 45) with false by lia. replace (ord c =? 43) with false by lia.
  unfold strtoull_digits. rewrite take_while_all by done. rewrite Hv.
  unfold is_u64 in Hn. lia.
Qed.

(** ** Loops that fill an array *)

Section fill.
Context {A : Type}.

(** [for (i = 0; i < n; ++i) a[n - i - 1] = f(i)] *)
Lemma foldl_fill_backwards (f : Z -> A) (x : A) (n : Z) :
  0 <= n ->
  foldl (fun a i => <[Z.to_nat (n - i - 1) := f i]> a) (replicate (Z.to_nat n) x) (seqZ 0 n)
  = reverse (f <$> seqZ 0 n).
Proof.
  intros Hn.
  enough (H : forall m : nat, Z.of_nat m <= n ->
    foldl (fun a i => <[Z.to_nat (n - i - 1) := f i]> a) (replicate (Z.to_nat n) x)
      (seqZ 0 (Z.of_nat m))
    = replicate (Z.to_nat n - m) x ++ reverse (f <$> seqZ 0 (Z.of_nat m))).
  { specialize (H (Z.to_nat n)). rewrite Z2Nat.id in H by lia. rewrite H by lia.
    by rewrite Nat.sub_diag. }
  induction m as [|m IH]; intros Hm.
  { simpl. by rewrite Nat.sub_0_r, app_nil_r. }
  replace (Z.of_nat (S m)) with (Z.of_nat m + 1) by lia.
  rewrite seqZ_app, foldl_app, IH, fmap_app, reverse_app by lia.
  change (seqZ (0 + Z.of_nat m) 1) with [Z.of_nat m]. cbn [foldl fmap list_fmap app].
  replace (Z.to_nat n - m)%nat with (S (Z.to_nat n - S m)) by lia.
  rewrite replicate_S_end, <- app_assoc, insert_app_r_alt by (rewrite length_replicate; lia).
  rewrite length_replicate. f_equal.
  replace (Z.to_nat (n - Z.of_nat m - 1) - (Z.to_nat n - S m))%nat with 0%nat by lia.
  reflexivity.
Qed.
End fill.
