(* ===== verification/TileKey.v ===== *)
(** * Quadtree tile keys

    Model of [olp::geo::TileKey] and [olp::geo::QuadKey64Helper]
    (include/olp/core/geo/tiling/TileKey.h, src/geo/tiling/TileKey.cpp): the
    conversions between a (row, column, level) triple and its three external
    forms (64-bit Morton code, base-4 string, decimal HERE tile string), the
    navigation in the quadtree and the queries on sets of levels.  Rows,
    columns and levels are [std::uint32_t], quad keys [std::uint64_t]. *)

From S2P Require Import Prelude.

(** ** Data *)

Definition LevelCount : Z := 32.
Definition MaxLevel : Z := LevelCount - 1.

Record TileKey := mkTileKey { row_ : Z; column_ : Z; level_ : Z }.

#[export] Instance TileKey_eq_dec : EqDecision TileKey.
Proof. solve_decision. Defined.

(** The default constructor: an invalid key. *)
Definition TileKey_default : TileKey := mkTileKey 0 0 LevelCount.

Definition FromRowColumnLevel (row column level : Z) : TileKey := mkTileKey row column level.

(** [1u << n] is only evaluated for [n < 32]. *)
Definition shl_1u (n : Z) : Z := u32 (Z.shiftl 1 n).

Definition IsValid (t : TileKey) : bool :=
  (level_ t <? LevelCount) && (row_ t <? shl_1u (level_ t)) && (column_ t <? shl_1u (level_ t)).

(** [operator<]: level, then row, then column. *)
Definition TileKey_ltb (a b : TileKey) : bool :=
  if negb (level_ a =? level_ b) then level_ a <? level_ b
  else if negb (row_ a =? row_ b) then row_ a <? row_ b
  else column_ a <? column_ b.

Definition RowCount (t : TileKey) : Z := shl_1u (level_ t).
Definition ColumnCount (t : TileKey) : Z := shl_1u (level_ t).

(** ** Morton codes *)

(** The table interleaves the bits of a byte with zeros, e.g. 11 -> 0101. *)
Definition kMortonTable256 : list Z :=
  [0x0000; 0x0001; 0x0004; 0x0005; 0x0010; 0x0011; 0x0014; 0x0015; 0x0040;
   0x0041; 0x0044; 0x0045; 0x0050; 0x0051; 0x0054; 0x0055; 0x0100; 0x0101;
   0x0104; 0x0105; 0x0110; 0x0111; 0x0114; 0x0115; 0x0140; 0x0141; 0x0144;
   0x0145; 0x0150; 0x0151; 0x0154; 0x0155; 0x0400; 0x0401; 0x0404; 0x0405;
   0x0410; 0x0411; 0x0414; 0x0415; 0x0440; 0x0441; 0x0444; 0x0445; 0x0450;
   0x0451; 0x0454; 0x0455; 0x0500; 0x0501; 0x0504; 0x0505; 0x0510; 0x0511;
   0x0514; 0x0515; 0x0540; 0x0541; 0x0544; 0x0545; 0x0550; 0x0551; 0x0554;
   0x0555; 0x1000; 0x1001; 0x1004; 0x1005; 0x1010; 0x1011; 0x1014; 0x1015;
   0x1040; 0x1041; 0x1044; 0x1045; 0x1050; 0x1051; 0x1054; 0x1055; 0x1100;
   0x1101; 0x1104; 0x1105; 0x1110; 0x1111; 0x1114; 0x1115; 0x1140; 0x1141;
   0x1144; 0x1145; 0x1150; 0x1151; 0x1154; 0x1155; 0x1400; 0x1401; 0x1404;
   0x1405; 0x1410; 0x1411; 0x1414; 0x1415; 0x1440; 0x1441; 0x1444; 0x1445;
   0x1450; 0x1451; 0x1454; 0x1455; 0x1500; 0x1501; 0x1504; 0x1505; 0x1510;
   0x1511; 0x1514; 0x1515; 0x1540; 0x1541; 0x1544; 0x1545; 0x1550; 0x1551;
   0x1554; 0x1555; 0x4000; 0x4001; 0x4004; 0x4005; 0x4010; 0x4011; 0x4014;
   0x4015; 0x4040; 0x4041; 0x4044; 0x4045; 0x4050; 0x4051; 0x4054; 0x4055;
   0x4100; 0x4101; 0x4104; 0x4105; 0x4110; 0x4111; 0x4114; 0x4115; 0x4140;
   0x4141; 0x4144; 0x4145; 0x4150; 0x4151; 0x4154; 0x4155; 0x4400; 0x4401;
   0x4404; 0x4405; 0x4410; 0x4411; 0x4414; 0x4415; 0x4440; 0x4441; 0x4444;
   0x4445; 0x4450; 0x4451; 0x4454; 0x4455; 0x4500; 0x4501; 0x4504; 0x4505;
   0x4510; 0x4511; 0x4514; 0x4515; 0x4540; 0x4541; 0x4544; 0x4545; 0x4550;
   0x4551; 0x4554; 0x4555; 0x5000; 0x5001; 0x5004; 0x5005; 0x5010; 0x5011;
   0x5014; 0x5015; 0x5040; 0x5041; 0x5044; 0x5045; 0x5050; 0x5051; 0x5054;
   0x5055; 0x5100; 0x5101; 0x5104; 0x5105; 0x5110; 0x5111; 0x5114; 0x5115;
   0x5140; 0x5141; 0x5144; 0x5145; 0x5150; 0x5151; 0x5154; 0x5155; 0x5400;
   0x5401; 0x5404; 0x5405; 0x5410; 0x5411; 0x5414; 0x5415; 0x5440; 0x5441;
   0x5444; 0x5445; 0x5450; 0x5451; 0x5454; 0x5455; 0x5500; 0x5501; 0x5504;
   0x5505; 0x5510; 0x5511; 0x5514; 0x5515; 0x5540; 0x5541; 0x5544; 0x5545;
   0x5550; 0x5551; 0x5554; 0x5555].

Definition morton_byte (b : Z) : Z := default 0 (kMortonTable256 !! Z.to_nat b).

Definition byte_at (x s : Z) : Z := Z.land (Z.shiftr x s) 0xFF.

Definition ToQuadKey64 (t : TileKey) : Z :=
  let row := row_ t in
  let column := column_ t in
  let part b s := u64 (Z.shiftl (morton_byte b) s) in
  Z.lor (Z.lor (Z.lor (Z.lor (Z.lor (Z.lor (Z.lor (Z.lor
    (u64 (Z.shiftl 1 (2 * level_ t)))
    (part (byte_at row 24) 49))
    (part (byte_at row 16) 33))
    (part (byte_at row 8) 17))
    (part (byte_at row 0) 1))
    (part (byte_at column 24) 48))
    (part (byte_at column 16) 32))
    (part (byte_at column 8) 16))
    (part (byte_at column 0) 0).

(** The loop of [FromQuadKey64]: [while (quad_key > 1)].  The key loses two
    bits in each round, so 32 rounds empty a 64-bit key. *)
Fixpoint FromQuadKey64_loop (fuel : nat) (quad_key : Z) (result : TileKey) : TileKey :=
  match fuel with
  | O => result
  | S fuel =>
      if quad_key >? 1 then
        let mask := shl_1u (level_ result) in
        let column :=
          if negb (Z.land quad_key 0x1 =? 0) then Z.lor (column_ result) mask else column_ result in
        let row :=
          if negb (Z.land quad_key 0x2 =? 0) then Z.lor (row_ result) mask else row_ result in
        FromQuadKey64_loop fuel (Z.shiftr quad_key 2) (mkTileKey row column (u32 (level_ result + 1)))
      else result
  end.

Definition FromQuadKey64 (quad_key : Z) : TileKey :=
  FromQuadKey64_loop 32 quad_key (FromRowColumnLevel 0 0 0).

(** ** Strings *)

Definition ToQuadKey (t : TileKey) : list ascii :=
  if negb (IsValid t) then []
  else if level_ t =? 0 then chars "-"
  else
    let morton_key := ToQuadKey64 t in
    foldl (fun key index =>
             <[Z.to_nat (level_ t - index - 1) :=
                 chr (morton_key / u64 (Z.shiftl 1 (Z.shiftl index 1)) mod 4 + 48)]> key)
      (replicate (Z.to_nat (level_ t)) (chr 0))
      (seqZ 0 (level_ t)).

(** The digit's two low bits are all the loop looks at, so that the
    signedness of [char] does not matter. *)
Definition FromQuadKey (quad_key : list ascii) : TileKey :=
  if decide (quad_key = []) then TileKey_default
  else if decide (quad_key = chars "-") then FromRowColumnLevel 0 0 0
  else
    let size := Z.of_nat (length quad_key) in
    foldl (fun result index =>
             let mask := shl_1u index in
             let d := ord (default (chr 0) (quad_key !! Z.to_nat (level_ result - index - 1))) - 48 in
             let column :=
               if negb (Z.land d 0x1 =? 0) then Z.lor (column_ result) mask else column_ result in
             let row :=
               if negb (Z.land d 0x2 =? 0) then Z.lor (row_ result) mask else row_ result in
             mkTileKey row column (level_ result))
      (mkTileKey 0 0 (u32 size)) (seqZ 0 size).

Definition ToHereTile (t : TileKey) : list ascii := to_string (ToQuadKey64 t).

Definition FromHereTile (key : list ascii) : TileKey :=
  if decide (key = []) then TileKey_default else FromQuadKey64 (strtoull key).

(** ** Navigation *)

Definition Parent (t : TileKey) : TileKey :=
  if level_ t >? 0 then
    FromRowColumnLevel (Z.shiftr (row_ t) 1) (Z.shiftr (column_ t) 1) (u32 (level_ t - 1))
  else TileKey_default.

(** [level_ + delta] is computed in [uint32_t] and converted to [int]. *)
Definition ChangedLevelBy (t : TileKey) (delta : Z) : TileKey :=
  if delta =? 0 then t
  else
    let level := s32 (level_ t + delta) in
    let level := if level <? 0 then 0 else level in
    if delta >=? 0 then
      mkTileKey (u32 (Z.shiftl (row_ t) delta)) (u32 (Z.shiftl (column_ t) delta)) (u32 level)
    else
      mkTileKey (Z.shiftr (row_ t) (- delta)) (Z.shiftr (column_ t) (- delta)) (u32 level).

(** [static_cast<int>(level) - level_] is a [uint32_t], passed as an [int]. *)
Definition ChangedLevelTo (t : TileKey) (level : Z) : TileKey :=
  ChangedLevelBy t (s32 (s32 level - level_ t)).

Definition IsChildOf (t tile_key : TileKey) : bool :=
  if level_ t <=? level_ tile_key then false
  else bool_decide (ChangedLevelTo t (level_ tile_key) = tile_key).

Definition IsParentOf (t tile_key : TileKey) : bool := IsChildOf tile_key t.

Definition HasNextRow (t : TileKey) : bool := row_ t <? u32 (shl_1u (level_ t) - 1).
Definition HasNextColumn (t : TileKey) : bool := column_ t <? u32 (shl_1u (level_ t) - 1).
Definition HasPreviousRow (t : TileKey) : bool := row_ t >? 0.
Definition HasPreviousColumn (t : TileKey) : bool := column_ t >? 0.

Definition NextRow (t : TileKey) : TileKey :=
  FromRowColumnLevel (u32 (row_ t + 1)) (column_ t) (level_ t).
Definition NextColumn (t : TileKey) : TileKey :=
  FromRowColumnLevel (row_ t) (u32 (column_ t + 1)) (level_ t).
Definition PreviousRow (t : TileKey) : TileKey :=
  FromRowColumnLevel (u32 (row_ t - 1)) (column_ t) (level_ t).
Definition PreviousColumn (t : TileKey) : TileKey :=
  FromRowColumnLevel (row_ t) (u32 (column_ t - 1)) (level_ t).

Inductive TileKeyQuadrant := SW | SE | NW | NE | Invalid.

Definition quadrant_index (q : TileKeyQuadrant) : Z :=
  match q with SW => 0 | SE => 1 | NW => 2 | NE => 3 | Invalid => 4 end.

(** [static_cast] from an integer; the enumeration has no other values. *)
Definition quadrant_of (i : Z) : TileKeyQuadrant :=
  match i with 0 => SW | 1 => SE | 2 => NW | 3 => NE | _ => Invalid end.

Definition GetChild (t : TileKey) (index : Z) : TileKey :=
  let result := ChangedLevelBy t 1 in
  mkTileKey (Z.lor (row_ result) (Z.shiftr index 1)) (Z.lor (column_ result) (Z.land index 1))
    (level_ result).

Definition GetChild_direction (t : TileKey) (direction : TileKeyQuadrant) : TileKey :=
  GetChild t (quadrant_index direction).

Definition RelationshipToParent (t : TileKey) : TileKeyQuadrant :=
  if level_ t =? 0 then Invalid
  else
    let sw_tile := GetChild (Parent t) 0 in
    quadrant_of (u32 ((row_ t - row_ sw_tile) * 2 + column_ t - column_ sw_tile)).

(** ** Sub keys *)

Definition QuadKey64Helper_Parent (key : Z) : Z := Z.shiftr key 2.
Definition QuadKey64Helper_Child (key : Z) : Z := u64 (Z.shiftl key 2).

Definition QuadKey64Helper_GetSubkey (key delta : Z) : Z :=
  let msb := u64 (Z.shiftl 1 (delta * 2)) in
  let mask := u64 (msb - 1) in
  Z.lor (Z.land key mask) msb.

Definition RowsAtLevel (level : Z) : Z := shl_1u level.
Definition ChildrenAtLevel (level : Z) : Z := shl_1u (Z.shiftl level 1).

(** The loop [while (sub_key.key >= (mask << 2))] of [AddedSubkey]: the state is
    the result key and the mask; [None] when the fuel runs out. *)
Fixpoint AddedSubkey_loop (fuel : nat) (sub_key result mask : Z) : option (Z * Z) :=
  match fuel with
  | O => None
  | S fuel =>
      if sub_key >=? u64 (Z.shiftl mask 2) then
        AddedSubkey_loop fuel sub_key (u64 (Z.shiftl result 2)) (u64 (Z.shiftl mask 2))
      else Some (result, mask)
  end.

Definition QuadKey64Helper_AddedSubkey (fuel : nat) (key sub_key : Z) : option Z :=
  '(result, mask) ← AddedSubkey_loop fuel sub_key key 0x1;
  Some (Z.lor result (Z.land sub_key (u64 (mask - 1)))).

Definition GetSubkey64 (t : TileKey) (delta : Z) : Z :=
  QuadKey64Helper_GetSubkey (ToQuadKey64 t) delta.

(** The mask grows by two bits in each round, so that the loop ends within 32
    rounds or not at all. *)
Definition AddedSubkey64 (t : TileKey) (sub_quad_key : Z) : option TileKey :=
  FromQuadKey64 <$> QuadKey64Helper_AddedSubkey 32 (ToQuadKey64 t) sub_quad_key.

(** Both string variants shift the key down by the level of the sub key and
    add the coordinates. *)
Definition AddedSubkey (t : TileKey) (sub_quad_key : list ascii) : TileKey :=
  let sub_quad := FromQuadKey (if decide (sub_quad_key = []) then chars "-" else sub_quad_key) in
  let child := ChangedLevelBy t (s32 (level_ sub_quad)) in
  FromRowColumnLevel (u32 (row_ child + row_ sub_quad)) (u32 (column_ child + column_ sub_quad))
    (level_ child).

Definition AddedSubHereTile (t : TileKey) (sub_here_tile : list ascii) : TileKey :=
  let sub_quad := FromHereTile sub_here_tile in
  let child := ChangedLevelBy t (s32 (level_ sub_quad)) in
  FromRowColumnLevel (u32 (row_ child + row_ sub_quad)) (u32 (column_ child + column_ sub_quad))
    (level_ child).

(** ** Sets of levels

    [TileKeyLevels] is a [std::bitset<32>]: a number below 2^32. *)

Definition kLookupTable : list Z :=
  [0; 1; 28; 2; 29; 14; 24; 3; 30; 22; 20; 15; 25; 17; 4; 8;
   31; 27; 13; 23; 21; 19; 16; 7; 26; 12; 18; 6; 11; 5; 10; 9].

(** [unsigned long] has 64 bits. *)
Definition GetMinTileKeyLevel (levels : Z) : option Z :=
  if levels =? 0 then None
  else
    let lowest := Z.land levels (u64 (- levels)) in
    kLookupTable !! Z.to_nat (Z.shiftr (u32 (u64 (lowest * 0x077CB531))) 27).

(** [std::log2] of a number below 2^32, truncated. *)
Definition GetMaxTileKeyLevel (levels : Z) : option Z :=
  if levels =? 0 then None else Some (Z.log2 levels).

(** The loop over the distance; a level is [None] while the loop goes on. *)
Fixpoint nearest_loop (n : nat) (levels level distance : Z) : Z :=
  match n with
  | O => level
  | S n =>
      if (level + distance <? LevelCount) && Z.testbit levels (level + distance) then
        level + distance
      else if (level >=? distance) && Z.testbit levels (level - distance) then
        level - distance
      else nearest_loop n levels level (distance + 1)
  end.

Definition GetNearestAvailableTileKeyLevel (levels reference_level : Z) : option Z :=
  match GetMinTileKeyLevel levels, GetMaxTileKeyLevel levels with
  | Some min_level, Some max_level =>
      let level := Z.max (Z.min reference_level max_level) min_level in
      let max_distance := Z.max (Z.abs (level - min_level)) (Z.abs (level - max_level)) in
      Some (nearest_loop (Z.to_nat (max_distance + 1)) levels level 0)
  | _, _ => None
  end.

(** ** The reference encoding

    [morton n row column] is the number written in base 4 as a leading 1
    followed by [n] digits, digit [i] being [2 * row_i + column_i]. *)

Fixpoint morton (n : nat) (row column : Z) : Z :=
  match n with
  | O => 1
  | S n => 4 * morton n (row / 2) (column / 2) + 2 * (row mod 2) + column mod 2
  end.

(** A tile key inside the tree. *)
Definition valid (t : TileKey) : Prop :=
  0 <= level_ t < LevelCount /\ 0 <= row_ t < 2 ^ level_ t /\ 0 <= column_ t < 2 ^ level_ t.

(** The representation of every [TileKey] object: three [uint32_t]. *)
Definition well_typed (t : TileKey) : Prop :=
  is_u32 (row_ t) /\ is_u32 (column_ t) /\ is_u32 (level_ t).

Lemma shl_1u_pow n : 0 <= n < 32 -> shl_1u n = 2 ^ n.
Proof.
  intros H. unfold shl_1u. rewrite Z.shiftl_1_l. apply u32_small.
  unfold is_u32. pose proof (Z.pow_pos_nonneg 2 n). pose proof (Z.pow_lt_mono_r 2 n 32). lia.
Qed.

Lemma pow2_mono n m : n <= m -> 2 ^ n <= 2 ^ m.
Proof. intros. apply Z.pow_le_mono_r; lia. Qed.

Lemma pow2_pos n : 0 <= n -> 0 < 2 ^ n.
Proof. intros. apply Z.pow_pos_nonneg; lia. Qed.

Lemma IsValid_valid t : well_typed t -> IsValid t = true <-> valid t.
Proof.
  intros (Hr & Hc & Hl). unfold IsValid, valid, is_u32, LevelCount in *.
  rewrite !andb_true_iff, !Z.ltb_lt. split.
  - intros [[? Hr'] Hc']. rewrite shl_1u_pow in Hr', Hc' by lia. lia.
  - intros (? & ? & ?). rewrite shl_1u_pow by lia. lia.
Qed.

Lemma valid_well_typed t : valid t -> well_typed t.
Proof.
  unfold valid, well_typed, is_u32, LevelCount. intros (? & ? & ?).
  pose proof (pow2_mono (level_ t) 32). lia.
Qed.

Lemma valid_IsValid t : valid t -> IsValid t = true.
Proof. intros H. apply IsValid_valid; [by apply valid_well_typed | done]. Qed.

Lemma mkTileKey_eta t : mkTileKey (row_ t) (column_ t) (level_ t) = t.
Proof. by destruct t. Qed.

(** ** Bits of the table and of the interleaving *)

Lemma spread_table_check :
  forallb (fun b => forallb (fun j =>
      Bool.eqb (Z.testbit (morton_byte (Z.of_nat b)) (Z.of_nat j))
               (Nat.even j && Z.testbit (Z.of_nat b) (Z.of_nat (Nat.div2 j)))) (seq 0 16)) (seq 0 256)
  = true.
Proof. vm_compute. reflexivity. Qed.

Lemma morton_byte_range_check :
  forallb (fun b => (0 <=? morton_byte (Z.of_nat b)) && (morton_byte (Z.of_nat b) <? 2 ^ 15))
    (seq 0 256) = true.
Proof. vm_compute. reflexivity. Qed.

Lemma morton_byte_range b : 0 <= b < 256 -> 0 <= morton_byte b < 2 ^ 15.
Proof.
  intros Hb. pose proof morton_byte_range_check as H.
  rewrite forallb_forall in H. specialize (H (Z.to_nat b)).
  rewrite in_seq, Z2Nat.id in H by lia. specialize (H ltac:(lia)). lia.
Qed.

Lemma morton_byte_testbit b i (odd : bool) :
  0 <= b < 256 -> 0 <= i ->
  Z.testbit (morton_byte b) (2 * i + Z.b2z odd) = negb odd && Z.testbit b i.
Proof.
  intros Hb Hi. destruct (decide (i < 8)) as [Hlt|Hge].
  - pose proof spread_table_check as H.
    rewrite forallb_forall in H. specialize (H (Z.to_nat b)).
    rewrite in_seq in H. specialize (H ltac:(lia)).
    rewrite forallb_forall in H. specialize (H (2 * Z.to_nat i + Nat.b2n odd)%nat).
    rewrite in_seq in H. specialize (H ltac:(destruct odd; simpl; lia)).
    apply Bool.eqb_prop in H.
    replace (Z.of_nat (2 * Z.to_nat i + Nat.b2n odd)) with (2 * i + Z.b2z odd) in H
      by (destruct odd; simpl; lia).
    rewrite Z2Nat.id in H by lia. rewrite H. f_equal.
    + rewrite Nat.even_add, Nat.even_mul. destruct odd; reflexivity.
    + f_equal. destruct odd; simpl Nat.b2n.
      * rewrite Nat.add_1_r, Nat.div2_succ_double. lia.
      * rewrite Nat.add_0_r, Nat.div2_double. lia.
  - pose proof (morton_byte_range b Hb).
    rewrite (testbit_small b 8 i), andb_false_r by lia.
    apply (testbit_small _ 15); [done|]. destruct odd; simpl; lia.
Qed.

Lemma byte_at_range x s : 0 <= byte_at x s < 256.
Proof.
  unfold byte_at. change 0xFF with (Z.ones 8). rewrite Z.land_ones by lia.
  apply Z.mod_pos_bound. lia.
Qed.

Lemma byte_at_testbit x s i :
  0 <= s -> 0 <= i -> Z.testbit (byte_at x s) i = (i <? 8) && Z.testbit x (i + s).
Proof.
  intros. unfold byte_at. change 0xFF with (Z.ones 8).
  rewrite Z.land_spec, Z.shiftr_spec by lia. rewrite andb_comm. f_equal.
  destruct (Z.ltb_spec i 8).
  - apply Z.ones_spec_low. lia.
  - apply Z.ones_spec_high. lia.
Qed.

(** One of the eight terms of [ToQuadKey64]: the byte at bit [s] of [x] lands at
    the bits of parity [e] from [2 * s] on. *)
Lemma morton_part_testbit x s k (e odd : bool) i :
  k = 2 * s + Z.b2z e -> 0 <= s -> s <= 24 -> 0 <= i < 32 ->
  Z.testbit (u64 (Z.shiftl (morton_byte (byte_at x s)) k)) (2 * i + Z.b2z odd)
  = Bool.eqb e odd && ((s <=? i) && (i <? s + 8)) && Z.testbit x i.
Proof.
  intros -> Hs Hs' Hi. rewrite u64_testbit by (destruct odd; simpl; lia).
  rewrite Z.shiftl_spec by (destruct odd; simpl; lia).
  destruct (Z.leb_spec s i) as [Hle|Hgt].
  - destruct (Bool.eqb_spec e odd) as [->|Hne].
    + replace (2 * i + Z.b2z odd - (2 * s + Z.b2z odd)) with (2 * (i - s) + Z.b2z false)
        by (simpl; lia).
      rewrite morton_byte_testbit, byte_at_testbit by (try apply byte_at_range; lia).
      replace (i - s + s) with i by lia.
      replace (i - s <? 8) with (i <? s + 8) by lia. done.
    + destruct e, odd; try done.
      * destruct (decide (i = s)) as [->|].
        -- apply Z.testbit_neg_r. simpl. lia.
        -- replace (2 * i + Z.b2z false - (2 * s + Z.b2z true))
             with (2 * (i - s - 1) + Z.b2z true) by (simpl; lia).
           by rewrite morton_byte_testbit by (try apply byte_at_range; lia).
      * replace (2 * i + Z.b2z true - (2 * s + Z.b2z false))
          with (2 * (i - s) + Z.b2z true) by (simpl; lia).
        by rewrite morton_byte_testbit by (try apply byte_at_range; lia).
  - rewrite andb_false_r. apply Z.testbit_neg_r. destruct e, odd; simpl; lia.
Qed.

Lemma orb_byte_select (b : bool) i :
  0 <= i < 32 ->
  (((24 <=? i) && (i <? 24 + 8)) && b) || (((16 <=? i) && (i <? 16 + 8)) && b) ||
  (((8 <=? i) && (i <? 8 + 8)) && b) || (((0 <=? i) && (i <? 0 + 8)) && b) = b.
Proof. intros. destruct b; lia. Qed.

Lemma pow2_even_testbit n i (odd : bool) :
  0 <= n -> 0 <= i -> Z.testbit (2 ^ (2 * n)) (2 * i + Z.b2z odd) = negb odd && (n =? i).
Proof.
  intros. destruct (Z.eqb_spec n i) as [->|], odd; simpl Z.b2z;
    try (rewrite Z.pow2_bits_false by lia; done).
  rewrite Z.add_0_r. apply Z.pow2_bits_true. lia.
Qed.

Lemma ToQuadKey64_testbit t i (odd : bool) :
  0 <= level_ t < 32 -> 0 <= i < 32 ->
  Z.testbit (ToQuadKey64 t) (2 * i + Z.b2z odd)
  = negb odd && (level_ t =? i) || Z.testbit (if odd then row_ t else column_ t) i.
Proof.
  intros Hl Hi. unfold ToQuadKey64. rewrite !Z.lor_spec.
  rewrite u64_testbit, Z.shiftl_1_l, pow2_even_testbit by (destruct odd; simpl; lia).
  pose proof (fun x s k e H H1 H2 => morton_part_testbit x s k e odd i H H1 H2 Hi) as P.
  rewrite (P (row_ t) 24 49 true), (P (row_ t) 16 33 true), (P (row_ t) 8 17 true),
    (P (row_ t) 0 1 true), (P (column_ t) 24 48 false), (P (column_ t) 16 32 false),
    (P (column_ t) 8 16 false), (P (column_ t) 0 0 false) by (reflexivity || lia).
  rewrite <- (orb_byte_select (Z.testbit (if odd then row_ t else column_ t) i) i Hi) at 1.
  destruct odd; cbn [Bool.eqb negb andb orb];
    rewrite ?orb_false_r, ?orb_assoc, ?andb_false_l, ?orb_false_l; done.
Qed.

Lemma digit_split m r c :
  0 <= r < 2 -> 0 <= c < 2 -> 4 * m + 2 * r + c = 2 * (2 * m + r) + c.
Proof. lia. Qed.

Lemma testbit_double_0 x b : 0 <= b < 2 -> Z.testbit (2 * x + b) 0 = (b =? 1).
Proof.
  intros. assert (b = 0 \/ b = 1) as [-> | ->] by lia.
  - rewrite Z.add_0_r. apply Z.testbit_even_0.
  - apply Z.testbit_odd_0.
Qed.

Lemma testbit_double_succ x b i : 0 <= b < 2 -> 0 <= i -> Z.testbit (2 * x + b) (i + 1) = Z.testbit x i.
Proof.
  intros. rewrite Z.add_1_r. assert (b = 0 \/ b = 1) as [-> | ->] by lia.
  - rewrite Z.add_0_r. by apply Z.testbit_even_succ.
  - by apply Z.testbit_odd_succ.
Qed.

Lemma mod2_testbit x : (x mod 2 =? 1) = Z.testbit x 0.
Proof. rewrite <- Z.bit0_mod. destruct (Z.testbit x 0); simpl; lia. Qed.

Lemma div2_testbit x i : 0 <= i -> Z.testbit (x / 2) i = Z.testbit x (i + 1).
Proof. intros. replace (x / 2) with (Z.shiftr x 1) by (by rewrite Z.shiftr_div_pow2). by apply Z.shiftr_spec. Qed.

Lemma mod2_range x : 0 <= x mod 2 < 2.
Proof. apply Z.mod_pos_bound. lia. Qed.

Lemma morton_pos n r c : 1 <= morton n r c.
Proof.
  revert r c. induction n as [|n IH]; intros; simpl; [lia|].
  specialize (IH (r / 2) (c / 2)). pose proof (mod2_range r). pose proof (mod2_range c). lia.
Qed.

Lemma morton_range n r c : 2 ^ (2 * Z.of_nat n) <= morton n r c < 2 ^ (2 * Z.of_nat n + 1).
Proof.
  revert r c. induction n as [|n IH]; intros; simpl morton; [simpl; lia|].
  specialize (IH (r / 2) (c / 2)). pose proof (mod2_range r). pose proof (mod2_range c).
  replace (2 * Z.of_nat (S n)) with (2 + 2 * Z.of_nat n) by lia.
  replace (2 + 2 * Z.of_nat n + 1) with (2 + (2 * Z.of_nat n + 1)) by lia.
  rewrite !(Z.pow_add_r 2 2) by lia. lia.
Qed.

Lemma morton_testbit n r c i (odd : bool) :
  0 <= i ->
  Z.testbit (morton n r c) (2 * i + Z.b2z odd)
  = negb odd && (Z.of_nat n =? i) || (i <? Z.of_nat n) && Z.testbit (if odd then r else c) i.
Proof.
  revert r c i. induction n as [|n IH]; intros r c i Hi; cbn [morton].
  - change (Z.of_nat 0) with 0. bfalse (i <? 0). rewrite andb_false_l, orb_false_r.
    replace (2 * i) with (0 + 2 * i) by lia. change 1 with (2 ^ (2 * 0)).
    rewrite Z.add_0_l. apply pow2_even_testbit; lia.
  - pose proof (mod2_range r). pose proof (mod2_range c).
    rewrite digit_split by lia. destruct (decide (i = 0)) as [->|Hne].
    + bfalse (Z.of_nat (S n) =? 0).
      btrue (0 <? Z.of_nat (S n)). rewrite andb_false_r, orb_false_l, andb_true_l.
      destruct odd; simpl Z.b2z.
      * change (2 * 0 + 1) with (0 + 1). rewrite testbit_double_succ, testbit_double_0 by lia.
        apply mod2_testbit.
      * change (2 * 0 + 0) with 0. rewrite testbit_double_0 by lia. apply mod2_testbit.
    + replace (2 * i + Z.b2z odd) with (2 * (i - 1) + Z.b2z odd + 1 + 1) by lia.
      assert (0 <= Z.b2z odd < 2) by (destruct odd; simpl; lia).
      rewrite !testbit_double_succ, IH by lia.
      replace (Z.of_nat n =? i - 1) with (Z.of_nat (S n) =? i) by blia.
      replace (i - 1 <? Z.of_nat n) with (i <? Z.of_nat (S n)) by blia.
      destruct odd; rewrite div2_testbit by lia; replace (i - 1 + 1) with i by lia; done.
Qed.

Lemma even_odd_index j : 0 <= j -> exists i (odd : bool), j = 2 * i + Z.b2z odd /\ 0 <= i.
Proof.
  intros. exists (j / 2), (Z.odd j). pose proof (Zmod_odd j). unfold Z.b2z. pose proof (Z.div_mod j 2).
  pose proof (Z.div_pos j 2). lia.
Qed.

Lemma ToQuadKey64_range t : is_u64 (ToQuadKey64 t).
Proof.
  unfold ToQuadKey64. cbv zeta.
  assert (Hlor : forall a b, is_u64 a -> is_u64 b -> is_u64 (Z.lor a b)).
  { intros a b Ha Hb. unfold is_u64 in *.
    assert (0 <= Z.lor a b) by (apply Z.lor_nonneg; lia).
    split; [done|]. destruct (decide (Z.lor a b = 0)) as [->|]; [lia|].
    apply Z.log2_lt_pow2; [lia|]. rewrite Z.log2_lor by lia.
    destruct (decide (a = 0)) as [->|]; destruct (decide (b = 0)) as [->|];
      try (apply Z.max_lub_lt; (apply Z.log2_lt_pow2; lia) || (simpl; lia)). }
  repeat apply Hlor; apply u64_range.
Qed.

(** The table-driven interleaving computes the reference encoding. *)
Lemma ToQuadKey64_morton t :
  valid t -> ToQuadKey64 t = morton (Z.to_nat (level_ t)) (row_ t) (column_ t).
Proof.
  intros (Hl & Hr & Hc). unfold LevelCount in Hl.
  apply Z.bits_inj'. intros j Hj. destruct (even_odd_index j Hj) as (i & odd & -> & Hi).
  rewrite morton_testbit, Z2Nat.id by lia. destruct (decide (i < 32)) as [Hlt|Hge].
  - rewrite ToQuadKey64_testbit by lia. f_equal.
    destruct (Z.ltb_spec i (level_ t)); [done|].
    rewrite andb_false_l. destruct odd; apply (testbit_small _ (level_ t)); lia.
  - rewrite (testbit_small _ 64) by (try apply ToQuadKey64_range; destruct odd; simpl; lia).
    bfalse (level_ t =? i). bfalse (i <? level_ t).
    by rewrite andb_false_r.
Qed.

(** ** Decoding a quad key *)

Lemma land_1 x : Z.land x 0x1 = x mod 2.
Proof. change 0x1 with (Z.ones 1). by rewrite Z.land_ones. Qed.

Lemma testbit_mod2 x i : 0 <= i -> Z.testbit (x mod 2) i = (i =? 0) && Z.testbit x 0.
Proof.
  intros. destruct (Z.eqb_spec i 0) as [->|]; cbn [andb].
  - apply (Z.mod_pow2_bits_low x 1). lia.
  - apply (testbit_small _ 1); [apply mod2_range | lia].
Qed.

Lemma land_2 x : Z.land x 0x2 = 2 * ((x / 2) mod 2).
Proof.
  apply Z.bits_inj'. intros i Hi. rewrite Z.land_spec, <- (Z.add_0_r (2 * _)).
  destruct (decide (i = 0)) as [->|].
  - rewrite testbit_double_0 by lia. apply andb_false_r.
  - replace i with ((i - 1) + 1) by lia.
    rewrite testbit_double_succ, testbit_mod2, div2_testbit by lia.
    change (0x2) with (2 * 1 + 0). rewrite testbit_double_succ by lia.
    destruct (Z.eqb_spec (i - 1) 0) as [->|]; [apply andb_true_r|].
    rewrite (testbit_small 1 1) by lia. apply andb_false_r.
Qed.

Lemma land_digit m r c :
  0 <= r < 2 -> 0 <= c < 2 ->
  Z.land (4 * m + 2 * r + c) 0x1 = c /\ Z.land (4 * m + 2 * r + c) 0x2 = 2 * r /\
  Z.shiftr (4 * m + 2 * r + c) 2 = m.
Proof.
  intros. rewrite land_1, land_2, Z.shiftr_div_pow2 by lia. change (2 ^ 2) with 4.
  split_and!.
  - symmetry. apply (Z.mod_unique _ _ (2 * m + r)); lia.
  - f_equal. rewrite <- (Z.div_unique _ 2 (2 * m + r) c) by lia.
    symmetry. apply (Z.mod_unique _ _ m); lia.
  - symmetry. apply (Z.div_unique _ _ _ (2 * r + c)); lia.
Qed.

(** Setting bit [l] of a number below [2^l]. *)
Lemma set_bit_if x l b :
  0 <= l < 32 -> 0 <= x < 2 ^ l -> 0 <= b < 2 ->
  (if negb (b =? 0) then Z.lor x (shl_1u l) else x) = x + b * 2 ^ l.
Proof.
  intros Hl Hx Hb. rewrite shl_1u_pow by lia. assert (b = 0 \/ b = 1) as [-> | ->] by lia; simpl.
  - lia.
  - rewrite lor_disjoint_add by lia. lia.
Qed.

Lemma low_bits_step x l : 0 <= l -> x mod 2 ^ (l + 1) = x mod 2 ^ l + (x / 2 ^ l) mod 2 * 2 ^ l.
Proof.
  intros. pose proof (pow2_pos l). rewrite Z.pow_add_r, Z.rem_mul_r by lia. change (2 ^ 1) with 2. ring.
Qed.

Lemma FromQuadKey64_loop_morton fuel n r c row column l :
  (n <= fuel)%nat -> 0 <= l -> l + Z.of_nat n < 32 ->
  0 <= row < 2 ^ l -> 0 <= column < 2 ^ l ->
  0 <= r < 2 ^ Z.of_nat n -> 0 <= c < 2 ^ Z.of_nat n ->
  FromQuadKey64_loop fuel (morton n r c) (mkTileKey row column l)
  = mkTileKey (row + r * 2 ^ l) (column + c * 2 ^ l) (l + Z.of_nat n).
Proof.
  revert fuel r c row column l. induction n as [|n IH]; intros [|fuel] r c row column l;
    intros Hf Hl Hn Hrow Hcol Hr Hc; try lia; cbn [FromQuadKey64_loop morton].
  1,2: change (2 ^ Z.of_nat 0) with 1 in Hr, Hc; change (Z.of_nat 0) with 0;
    assert (r = 0) as -> by lia; assert (c = 0) as -> by lia; change (1 >? 1) with false;
    f_equal; lia.
  - pose proof (mod2_range r) as Mr. pose proof (mod2_range c) as Mc.
    pose proof (morton_pos n (r / 2) (c / 2)).
    btrue (_ >? 1). simpl row_. simpl column_. simpl level_.
    destruct (land_digit (morton n (r / 2) (c / 2)) (r mod 2) (c mod 2)) as (-> & -> & ->); try lia.
    replace (2 * (r mod 2) =? 0) with (r mod 2 =? 0) by blia.
    rewrite !set_bit_if, (u32_small (l + 1)) by (unfold is_u32; lia).
    rewrite Nat2Z.inj_succ, Z.pow_succ_r in Hr, Hc by lia.
    assert (2 ^ (l + 1) = 2 * 2 ^ l) as Hpow by (rewrite Z.pow_add_r by lia; lia).
    pose proof (Z.div_mod r 2). pose proof (Z.div_mod c 2).
    rewrite IH; try lia; rewrite ?Hpow; try nia. f_equal; nia.
Qed.

Lemma FromQuadKey64_morton n r c :
  (n < 32)%nat -> 0 <= r < 2 ^ Z.of_nat n -> 0 <= c < 2 ^ Z.of_nat n ->
  FromQuadKey64 (morton n r c) = mkTileKey r c (Z.of_nat n).
Proof.
  intros. unfold FromQuadKey64, FromRowColumnLevel.
  rewrite FromQuadKey64_loop_morton by (simpl; lia). f_equal; simpl; lia.
Qed.

Lemma FromQuadKey64_ToQuadKey64 t : valid t -> FromQuadKey64 (ToQuadKey64 t) = t.
Proof.
  intros Hv. rewrite ToQuadKey64_morton by done. destruct Hv as (Hl & Hr & Hc).
  unfold LevelCount in Hl. rewrite FromQuadKey64_morton by (rewrite ?Z2Nat.id; lia).
  rewrite Z2Nat.id by lia. apply mkTileKey_eta.
Qed.

Lemma quadkey_inj a b : valid a -> valid b -> ToQuadKey64 a = ToQuadKey64 b -> a = b.
Proof. intros Ha Hb E. rewrite <- (FromQuadKey64_ToQuadKey64 a), <- (FromQuadKey64_ToQuadKey64 b) by done. by rewrite E. Qed.

(** Every Morton code is the code of exactly one tile. *)
Lemma morton_surjective n k :
  2 ^ (2 * Z.of_nat n) <= k < 2 ^ (2 * Z.of_nat n + 1) ->
  exists r c, 0 <= r < 2 ^ Z.of_nat n /\ 0 <= c < 2 ^ Z.of_nat n /\ k = morton n r c.
Proof.
  revert k. induction n as [|n IH]; intros k Hk.
  - exists 0, 0. simpl in *. lia.
  - replace (2 * Z.of_nat (S n)) with (2 + 2 * Z.of_nat n) in Hk by lia.
    replace (2 + 2 * Z.of_nat n + 1) with (2 + (2 * Z.of_nat n + 1)) in Hk by lia.
    rewrite !(Z.pow_add_r 2 2) in Hk by lia. change (2 ^ 2) with 4 in Hk.
    destruct (IH (k / 4)) as (r & c & Hr & Hc & E).
    { split; [apply Z.div_le_lower_bound|apply Z.div_lt_upper_bound]; lia. }
    exists (2 * r + (k / 2) mod 2), (2 * c + k mod 2).
    pose proof (mod2_range (k / 2)). pose proof (mod2_range k).
    rewrite Nat2Z.inj_succ, Z.pow_succ_r by lia. split_and!; try lia. cbn [morton].
    rewrite <- !(Z.div_unique (2 * _ + _) 2 _ _ ltac:(left; apply mod2_range) eq_refl).
    rewrite <- !(Z.mod_unique (2 * _ + _) 2 _ _ ltac:(left; apply mod2_range) eq_refl).
    rewrite <- E. change 4 with (2 * 2). rewrite <- Z.div_div by lia.
    pose proof (Z.div_mod k 2). pose proof (Z.div_mod (k / 2) 2). lia.
Qed.

(** Splitting a code: the [d] low digits are the code of the sub tile. *)
Lemma morton_split d n R C r c :
  0 <= r < 2 ^ Z.of_nat d -> 0 <= c < 2 ^ Z.of_nat d ->
  morton (d + n) (R * 2 ^ Z.of_nat d + r) (C * 2 ^ Z.of_nat d + c)
  = morton n R C * 4 ^ Z.of_nat d + (morton d r c - 4 ^ Z.of_nat d).
Proof.
  revert r c. induction d as [|d IH]; intros r c Hr Hc.
  - change (2 ^ Z.of_nat 0) with 1 in *. change (4 ^ Z.of_nat 0) with 1.
    assert (r = 0) as -> by lia. assert (c = 0) as -> by lia.
    cbn [Nat.add morton]. rewrite !Z.mul_1_r, !Z.add_0_r. lia.
  - rewrite Nat2Z.inj_succ in *. rewrite !Z.pow_succ_r in * by lia. cbn [Nat.add morton].
    pose proof (mod2_range r). pose proof (mod2_range c).
    pose proof (Z.div_mod r 2 ltac:(lia)). pose proof (Z.div_mod c 2 ltac:(lia)).
    rewrite <- (Z.div_unique (R * _ + r) 2 (R * 2 ^ Z.of_nat d + r / 2) (r mod 2)) by lia.
    rewrite <- (Z.div_unique (C * _ + c) 2 (C * 2 ^ Z.of_nat d + c / 2) (c mod 2)) by lia.
    rewrite <- (Z.mod_unique (R * _ + r) 2 (R * 2 ^ Z.of_nat d + r / 2) (r mod 2)) by lia.
    rewrite <- (Z.mod_unique (C * _ + c) 2 (C * 2 ^ Z.of_nat d + c / 2) (c mod 2)) by lia.
    rewrite IH by lia. lia.
Qed.

Lemma pow4 n : 0 <= n -> 4 ^ n = 2 ^ (2 * n).
Proof. intros. rewrite Z.pow_mul_r by lia. reflexivity. Qed.

Lemma split_pow2 x d : 0 <= d -> x = x / 2 ^ d * 2 ^ d + x mod 2 ^ d.
Proof. intros. pose proof (pow2_pos d). pose proof (Z.div_mod x (2 ^ d)). lia. Qed.

Lemma mod_pow2_range x d : 0 <= d -> 0 <= x mod 2 ^ d < 2 ^ d.
Proof. intros. apply Z.mod_pos_bound, pow2_pos. lia. Qed.

Lemma div_pow2_range x d n : 0 <= d <= n -> 0 <= x < 2 ^ n -> 0 <= x / 2 ^ d < 2 ^ (n - d).
Proof.
  intros. pose proof (pow2_pos d). split; [apply Z.div_pos; lia|].
  apply Z.div_lt_upper_bound; [lia|]. rewrite <- Z.pow_add_r by lia.
  replace (d + (n - d)) with n by lia. lia.
Qed.

(** The low [d] digits and the rest of a code. *)
Lemma morton_low d n r c :
  morton (d + n) r c
  = morton n (r / 2 ^ Z.of_nat d) (c / 2 ^ Z.of_nat d) * 4 ^ Z.of_nat d
    + (morton d (r mod 2 ^ Z.of_nat d) (c mod 2 ^ Z.of_nat d) - 4 ^ Z.of_nat d).
Proof.
  rewrite (split_pow2 r (Z.of_nat d)) at 1 by lia.
  rewrite (split_pow2 c (Z.of_nat d)) at 1 by lia.
  apply morton_split; apply mod_pow2_range; lia.
Qed.

Lemma morton_low_range d r c : 0 <= morton d r c - 4 ^ Z.of_nat d < 4 ^ Z.of_nat d.
Proof.
  pose proof (morton_range d r c) as H. rewrite Z.pow_add_r in H by lia.
  rewrite pow4 by lia. change (2 ^ 1) with 2 in H. lia.
Qed.

(** ** Digits of the quad string *)

Definition digit (row column i : Z) : Z := 2 * (row / 2 ^ i mod 2) + column / 2 ^ i mod 2.

Definition digits (row column n : Z) : list ascii :=
  reverse ((fun i => chr (digit row column i + 48)) <$> seqZ 0 n).

Lemma digit_range row column i : 0 <= digit row column i < 4.
Proof.
  unfold digit. pose proof (mod2_range (row / 2 ^ i)). pose proof (mod2_range (column / 2 ^ i)). lia.
Qed.

Lemma morton_digit n r c i :
  0 <= i < Z.of_nat n -> morton n r c / 4 ^ i mod 4 = digit r c i.
Proof.
  intros Hi. replace n with (Z.to_nat i + (n - Z.to_nat i))%nat at 1 by lia.
  rewrite morton_low, Z2Nat.id by lia.
  pose proof (morton_low_range (Z.to_nat i) (r mod 2 ^ i) (c mod 2 ^ i)) as Hlow.
  rewrite Z2Nat.id in Hlow by lia. rewrite Z.div_add_l, (Z.div_small (_ - _)) by lia.
  rewrite Z.add_0_r. destruct (n - Z.to_nat i)%nat as [|m] eqn:E; [lia|]. cbn [morton].
  pose proof (mod2_range (r / 2 ^ i)). pose proof (mod2_range (c / 2 ^ i)).
  unfold digit. symmetry. apply (Z.mod_unique _ _ (morton m (r / 2 ^ i / 2) (c / 2 ^ i / 2))); lia.
Qed.

Lemma foldl_ext_in {A B} (f g : A -> B -> A) a l :
  (forall a b, b ∈ l -> f a b = g a b) -> foldl f a l = foldl g a l.
Proof.
  revert a. induction l as [|x l IH]; intros a H; simpl; [done|].
  rewrite H by set_solver. apply IH. set_solver.
Qed.

Lemma ToQuadKey_digits t :
  valid t -> level_ t <> 0 -> ToQuadKey t = digits (row_ t) (column_ t) (level_ t).
Proof.
  intros Hv Hne. unfold ToQuadKey. rewrite valid_IsValid by done. cbn [negb].
  bfalse (level_ t =? 0). rewrite ToQuadKey64_morton by done.
  destruct Hv as (Hl & _). unfold LevelCount in Hl. unfold digits.
  rewrite <- (foldl_fill_backwards _ (chr 0)) by lia.
  apply foldl_ext_in. intros a i Hi. apply elem_of_seqZ in Hi. do 2 f_equal.
  rewrite (Z.shiftl_mul_pow2 i 1), Z.shiftl_1_l by lia. change (2 ^ 1) with 2.
  rewrite u64_small, <- (morton_digit (Z.to_nat (level_ t))), pow4 by
    (first [lia | unfold is_u64; pose proof (pow2_pos (i * 2));
                  pose proof (Z.pow_lt_mono_r 2 (i * 2) 64); lia]).
  by rewrite (Z.mul_comm i).
Qed.

Lemma length_digits r c n : 0 <= n -> length (digits r c n) = Z.to_nat n.
Proof. intros. unfold digits. by rewrite length_reverse, length_fmap, length_seqZ. Qed.

Lemma digits_lookup r c n i :
  0 <= i < n -> digits r c n !! Z.to_nat (n - i - 1) = Some (chr (digit r c i + 48)).
Proof.
  intros Hi. unfold digits. rewrite reverse_lookup; rewrite length_fmap, length_seqZ; [|lia].
  replace (Z.to_nat n - S (Z.to_nat (n - i - 1)))%nat with (Z.to_nat i) by lia.
  rewrite list_lookup_fmap, lookup_seqZ_lt by lia. simpl. by rewrite Z2Nat.id by lia.
Qed.

Lemma digits_lookup_nat r c n (j : nat) :
  Z.of_nat j < n -> digits r c n !! j = Some (chr (digit r c (n - 1 - Z.of_nat j) + 48)).
Proof.
  intros Hj. rewrite <- (digits_lookup r c n) by lia. f_equal. lia.
Qed.

Lemma seqZ_succ m n : 0 <= n -> seqZ m (n + 1) = m :: seqZ (m + 1) n.
Proof. intros. rewrite seqZ_cons by lia. do 2 f_equal; lia. Qed.

Lemma seqZ_snoc n : 0 <= n -> seqZ 0 (n + 1) = seqZ 0 n ++ [n].
Proof. intros. rewrite seqZ_app by lia. f_equal. Qed.

Lemma seqZ_shift n : 0 <= n -> seqZ 1 n = (fun i => i + 1) <$> seqZ 0 n.
Proof.
  intros. unfold seqZ.
  rewrite <- list_fmap_compose. apply list_fmap_ext. intros. simpl. lia.
Qed.

(** Appending a digit moves to a child. *)
Lemma digits_child r c n a b :
  0 <= n -> 0 <= a < 2 -> 0 <= b < 2 ->
  digits (2 * r + a) (2 * c + b) (n + 1) = digits r c n ++ [chr (2 * a + b + 48)].
Proof.
  intros Hn Ha Hb. unfold digits. rewrite seqZ_succ by done. cbn [fmap list_fmap].
  rewrite reverse_cons. f_equal.
  - f_equal. change (0 + 1) with 1. rewrite seqZ_shift, <- list_fmap_compose by done.
    apply list_fmap_ext. intros k i Hi. apply lookup_seqZ in Hi as [-> Hlt]. simpl.
    unfold digit. rewrite Z.add_0_l, !Z.pow_add_r, (Z.mul_comm (2 ^ _)), <- !Z.div_div by lia.
    change (2 ^ 1) with 2. rewrite <- (Z.div_unique (2 * r + a) 2 r a) by lia.
    by rewrite <- (Z.div_unique (2 * c + b) 2 c b) by lia.
  - do 2 f_equal. unfold digit. rewrite !Z.div_1_r.
    rewrite <- (Z.mod_unique (2 * r + a) 2 r a) by lia.
    rewrite <- (Z.mod_unique (2 * c + b) 2 c b) by lia. lia.
Qed.

Lemma digits_take r c n m :
  0 <= m <= n -> take (Z.to_nat m) (digits r c n) = digits (r / 2 ^ (n - m)) (c / 2 ^ (n - m)) m.
Proof.
  intros Hm. apply list_eq. intros j.
  destruct (decide (Z.of_nat j < m)) as [Hj|Hj].
  - rewrite lookup_take, decide_True, !digits_lookup_nat by lia. do 3 f_equal. unfold digit.
    rewrite !Z.div_div by (first [apply pow2_pos; lia | pose proof (pow2_pos (n - m)); lia]).
    rewrite <- !Z.pow_add_r by lia. by replace (n - m + (m - 1 - Z.of_nat j)) with (n - 1 - Z.of_nat j) by lia.
  - rewrite lookup_take_ge by lia. symmetry. apply lookup_ge_None. rewrite length_digits; lia.
Qed.

Lemma digits_inj r c r' c' n :
  0 <= n -> 0 <= r < 2 ^ n -> 0 <= c < 2 ^ n -> 0 <= r' < 2 ^ n -> 0 <= c' < 2 ^ n ->
  digits r c n = digits r' c' n -> r = r' /\ c = c'.
Proof.
  intros Hn Hr Hc Hr' Hc' E.
  assert (D : forall i, 0 <= i < n -> Z.testbit r i = Z.testbit r' i /\ Z.testbit c i = Z.testbit c' i).
  { intros i Hi. pose proof (digits_lookup r c n i Hi) as L. rewrite E, digits_lookup in L by done.
    injection L as L. apply (f_equal ord) in L.
    pose proof (digit_range r c i). pose proof (digit_range r' c' i).
    rewrite !ord_chr in L by lia. unfold digit in L.
    rewrite <- !Z.testbit_spec' in L by lia.
    destruct (Z.testbit r i), (Z.testbit c i), (Z.testbit r' i), (Z.testbit c' i);
      simpl in L; done || lia. }
  split; apply Z.bits_inj'; intros i Hi; destruct (decide (i < n)).
  - by apply D.
  - by rewrite !(testbit_small _ n) by lia.
  - by apply D.
  - by rewrite !(testbit_small _ n) by lia.
Qed.

(** ** Navigation *)

Lemma ChangedLevelBy_down t d :
  valid t -> 0 <= d -> level_ t + d < 32 ->
  ChangedLevelBy t d = mkTileKey (row_ t * 2 ^ d) (column_ t * 2 ^ d) (level_ t + d).
Proof.
  intros (Hl & Hr & Hc) Hd Hlt. unfold LevelCount in Hl. unfold ChangedLevelBy.
  destruct (Z.eqb_spec d 0) as [->|].
  { rewrite !Z.mul_1_r, Z.add_0_r. by destruct t. }
  rewrite s32_small by lia. bfalse (level_ t + d <? 0). btrue (d >=? 0).
  assert (H : 2 ^ level_ t * 2 ^ d <= 2 ^ 32) by (rewrite <- Z.pow_add_r by lia; apply pow2_mono; lia).
  pose proof (pow2_pos d).
  rewrite !Z.shiftl_mul_pow2 by lia. rewrite !u32_small by (unfold is_u32; nia). done.
Qed.

Lemma ChangedLevelBy_up t d :
  valid t -> 0 <= d <= level_ t ->
  ChangedLevelBy t (- d) = mkTileKey (row_ t / 2 ^ d) (column_ t / 2 ^ d) (level_ t - d).
Proof.
  intros (Hl & Hr & Hc) Hd. unfold LevelCount in Hl. unfold ChangedLevelBy.
  destruct (Z.eqb_spec (- d) 0).
  { assert (d = 0) as -> by lia. rewrite !Z.div_1_r, Z.sub_0_r. by destruct t. }
  rewrite Z.add_opp_r, s32_small by lia. bfalse (level_ t - d <? 0). bfalse (- d >=? 0).
  rewrite Z.opp_involutive, !Z.shiftr_div_pow2, u32_small by (unfold is_u32; lia). done.
Qed.

(** Above the root the level is clamped to the root's. *)
Lemma ChangedLevelBy_above t d :
  valid t -> level_ t < d < 2 ^ 31 -> ChangedLevelBy t (- d) = mkTileKey 0 0 0.
Proof.
  intros (Hl & Hr & Hc) Hd. unfold LevelCount in Hl. unfold ChangedLevelBy.
  bfalse (- d =? 0). rewrite s32_small by lia. btrue (level_ t + - d <? 0). bfalse (- d >=? 0).
  pose proof (pow2_mono (level_ t) d).
  rewrite Z.opp_involutive, !Z.shiftr_div_pow2, !Z.div_small by lia. done.
Qed.

Lemma ChangedLevelTo_spec t l :
  valid t -> 0 <= l < 32 -> ChangedLevelTo t l = ChangedLevelBy t (l - level_ t).
Proof.
  intros (Hl & _) Hlt. unfold LevelCount in Hl. unfold ChangedLevelTo. by rewrite (s32_small l), s32_small by lia.
Qed.

Lemma ancestor_valid t d :
  valid t -> 0 <= d <= level_ t ->
  valid (mkTileKey (row_ t / 2 ^ d) (column_ t / 2 ^ d) (level_ t - d)).
Proof.
  intros (Hl & Hr & Hc) Hd. unfold valid, LevelCount in *. simpl.
  pose proof (div_pow2_range (row_ t) d (level_ t)). pose proof (div_pow2_range (column_ t) d (level_ t)).
  lia.
Qed.

Lemma GetChild_spec t i :
  valid t -> level_ t < 31 -> 0 <= i < 4 ->
  GetChild t i = mkTileKey (2 * row_ t + i / 2) (2 * column_ t + i mod 2) (level_ t + 1).
Proof.
  intros Hv Hl Hi. unfold GetChild. rewrite ChangedLevelBy_down by (done || lia). simpl.
  change (Z.land i 1) with (Z.land i 0x1). rewrite land_1, Z.shiftr_div_pow2 by lia.
  change (2 ^ 1) with 2.
  assert (E : forall x b, 0 <= b < 2 -> Z.lor (x * 2) b = 2 * x + b).
  { intros x b Hb. rewrite (Z.mul_comm x). assert (b = 0 \/ b = 1) as [-> | ->] by lia.
    - by rewrite Z.lor_0_r, Z.add_0_r.
    - symmetry. apply Z.add_nocarry_lor. change 1 with 0x1. rewrite land_1.
      by rewrite Z.mul_comm, Z.mod_mul. }
  assert (0 <= i / 2 < 2) by (split; [apply Z.div_pos | apply Z.div_lt_upper_bound]; lia).
  rewrite !E by (done || apply mod2_range). done.
Qed.

Lemma GetChild_valid t i :
  valid t -> level_ t < 31 -> 0 <= i < 4 -> valid (GetChild t i).
Proof.
  intros Hv Hl Hi. rewrite GetChild_spec by done. destruct Hv as (Hl' & Hr & Hc).
  unfold valid, LevelCount in *. simpl. rewrite Z.pow_add_r by lia. change (2 ^ 1) with 2.
  pose proof (mod2_range i).
  assert (0 <= i / 2 < 2) by (split; [apply Z.div_pos | apply Z.div_lt_upper_bound]; lia). lia.
Qed.

Lemma Parent_GetChild t i :
  valid t -> level_ t < 31 -> 0 <= i < 4 -> Parent (GetChild t i) = t.
Proof.
  intros Hv Hl Hi. rewrite GetChild_spec by done. destruct Hv as (Hl' & Hr & Hc).
  unfold Parent, FromRowColumnLevel, LevelCount in *. simpl. btrue (level_ t + 1 >? 0).
  pose proof (mod2_range i).
  assert (0 <= i / 2 < 2) by (split; [apply Z.div_pos | apply Z.div_lt_upper_bound]; lia).
  rewrite !Z.shiftr_div_pow2 by lia. change (2 ^ 1) with 2.
  rewrite <- (Z.div_unique (2 * row_ t + i / 2) 2 (row_ t) (i / 2)) by lia.
  rewrite <- (Z.div_unique (2 * column_ t + i mod 2) 2 (column_ t) (i mod 2)) by lia.
  rewrite u32_small by (unfold is_u32; lia). destruct t. f_equal. simpl. lia.
Qed.

Lemma quadrant_of_index q : quadrant_of (quadrant_index q) = q.
Proof. by destruct q. Qed.

Lemma RelationshipToParent_GetChild t q :
  valid t -> level_ t < 31 -> q <> Invalid ->
  RelationshipToParent (GetChild_direction t q) = q.
Proof.
  intros Hv Hl Hq. unfold RelationshipToParent, GetChild_direction.
  assert (Hi : 0 <= quadrant_index q < 4) by (destruct q; simpl; done || lia).
  rewrite Parent_GetChild by done. rewrite !GetChild_spec by (done || lia). simpl.
  destruct Hv as (Hl' & _). bfalse (level_ t + 1 =? 0).
  change (0 / 2) with 0. change (0 mod 2) with 0. rewrite u32_small.
  - rewrite <- (quadrant_of_index q) at 3. f_equal. pose proof (Z.div_mod (quadrant_index q) 2). lia.
  - unfold is_u32. pose proof (Z.div_mod (quadrant_index q) 2). lia.
Qed.

(** ** Ancestors and quad strings *)

(** The path from the root, one digit per level. *)
Definition path (t : TileKey) : list ascii := digits (row_ t) (column_ t) (level_ t).

Lemma ToQuadKey_path t : valid t -> ToQuadKey t = if level_ t =? 0 then chars "-" else path t.
Proof.
  intros Hv. destruct (Z.eqb_spec (level_ t) 0) as [E|].
  - unfold ToQuadKey. rewrite valid_IsValid, E by done. done.
  - by apply ToQuadKey_digits.
Qed.

Lemma length_path t : valid t -> length (path t) = Z.to_nat (level_ t).
Proof. intros (? & _). apply length_digits. lia. Qed.

Lemma path_inj a b : valid a -> valid b -> path a = path b -> a = b.
Proof.
  intros Ha Hb E. pose proof (f_equal length E) as L. rewrite !length_path in L by done.
  unfold path in E. destruct Ha as (Hla & Ha & Ha'), Hb as (Hlb & Hb & Hb').
  assert (El : level_ a = level_ b) by lia. rewrite El in *.
  destruct (digits_inj _ _ _ _ (level_ b) ltac:(lia) Ha Ha' Hb Hb' E).
  destruct a, b; simpl in *; congruence.
Qed.

Lemma path_ancestor t d :
  valid t -> 0 <= d <= level_ t ->
  path (ChangedLevelBy t (- d)) = take (Z.to_nat (level_ t - d)) (path t).
Proof.
  intros Hv Hd. rewrite ChangedLevelBy_up by done. unfold path. simpl.
  rewrite digits_take by lia. repeat f_equal; lia.
Qed.

Lemma IsChildOf_iff c p :
  valid c -> valid p ->
  IsChildOf c p = true <-> level_ p < level_ c /\ exists s, path c = path p ++ s.
Proof.
  intros Hc Hp. pose proof Hc as (Hlc & _). pose proof Hp as (Hlp & _). unfold LevelCount in *.
  unfold IsChildOf. destruct (Z.leb_spec (level_ c) (level_ p)) as [Hle|Hlt].
  { split; [done | lia]. }
  rewrite bool_decide_eq_true, ChangedLevelTo_spec by (done || lia).
  replace (level_ p - level_ c) with (- (level_ c - level_ p)) by lia.
  assert (Hd : 0 <= level_ c - level_ p <= level_ c) by lia.
  pose proof (path_ancestor c _ Hc Hd) as Hpath.
  replace (level_ c - (level_ c - level_ p)) with (level_ p) in Hpath by lia.
  split.
  - intros E. split; [done|]. rewrite E in Hpath. exists (drop (Z.to_nat (level_ p)) (path c)).
    by rewrite Hpath, take_drop.
  - intros [_ [s E]]. apply path_inj; [|done|].
    + rewrite ChangedLevelBy_up by done. by apply ancestor_valid.
    + rewrite Hpath, E, take_app_length'; [done|]. by rewrite length_path.
Qed.

(** ** Decoding a quad string *)

Definition quad_digit (c : ascii) : bool := (48 <=? ord c) && (ord c <? 52).

Lemma digits_quad r c n : Forall (fun a => quad_digit a = true) (digits r c n).
Proof.
  unfold digits. apply Forall_reverse, Forall_fmap, Forall_true. intros i. simpl.
  unfold quad_digit. pose proof (digit_range r c i). rewrite ord_chr by lia. lia.
Qed.

Lemma quad_string_not_dash s : Forall (fun a => quad_digit a = true) s -> s <> chars "-".
Proof. intros H ->. by inversion H. Qed.

Lemma land_small_digit a b :
  0 <= a < 2 -> 0 <= b < 2 ->
  Z.land (2 * a + b) 0x1 = b /\ Z.land (2 * a + b) 0x2 = 2 * a.
Proof.
  intros. destruct (land_digit 0 a b) as (H1 & H2 & _); try lia.
  rewrite Z.mul_0_r, Z.add_0_l in H1, H2. done.
Qed.

Lemma FromQuadKey_digits r c n :
  0 < n < 32 -> 0 <= r < 2 ^ n -> 0 <= c < 2 ^ n -> FromQuadKey (digits r c n) = mkTileKey r c n.
Proof.
  intros Hn Hr Hc. unfold FromQuadKey.
  assert (Hlen : length (digits r c n) = Z.to_nat n) by (apply length_digits; lia).
  rewrite decide_False by (intros E; rewrite E in Hlen; simpl in Hlen; lia).
  rewrite decide_False by apply quad_string_not_dash, digits_quad.
  rewrite Hlen, Z2Nat.id, u32_small by (unfold is_u32; lia).
  match goal with |- foldl ?f _ _ = _ => set (step := f) end.
  enough (H : forall m : nat, Z.of_nat m <= n ->
    foldl step (mkTileKey 0 0 n) (seqZ 0 (Z.of_nat m))
    = mkTileKey (r mod 2 ^ Z.of_nat m) (c mod 2 ^ Z.of_nat m) n).
  { specialize (H (Z.to_nat n)). rewrite Z2Nat.id in H by lia. rewrite H by lia.
    by rewrite !Z.mod_small by lia. }
  induction m as [|m IH]; intros Hm.
  { change (2 ^ Z.of_nat 0) with 1. by rewrite !Z.mod_1_r. }
  replace (Z.of_nat (S m)) with (Z.of_nat m + 1) in * by lia.
  rewrite seqZ_snoc, foldl_snoc, IH by lia. unfold step. cbn [row_ column_ level_].
  rewrite digits_lookup by lia. cbn [from_option id].
  pose proof (digit_range r c (Z.of_nat m)). rewrite ord_chr by lia.
  replace (digit r c (Z.of_nat m) + 48 - 48) with (digit r c (Z.of_nat m)) by lia.
  unfold digit. pose proof (mod2_range (r / 2 ^ Z.of_nat m)) as Mr.
  pose proof (mod2_range (c / 2 ^ Z.of_nat m)) as Mc.
  destruct (land_small_digit _ _ Mr Mc) as [-> ->].
  replace (2 * ((r / 2 ^ Z.of_nat m) mod 2) =? 0) with ((r / 2 ^ Z.of_nat m) mod 2 =? 0) by blia.
  rewrite !set_bit_if by (lia || (apply mod_pow2_range; lia)). by rewrite !low_bits_step by lia.
Qed.

Lemma FromQuadKey_ToQuadKey t : valid t -> FromQuadKey (ToQuadKey t) = t.
Proof.
  intros Hv. rewrite ToQuadKey_path by done. destruct Hv as (Hl & Hr & Hc). unfold LevelCount in Hl.
  destruct (Z.eqb_spec (level_ t) 0) as [E|].
  - rewrite E in Hr, Hc. change (2 ^ 0) with 1 in *. destruct t as [r c l]; simpl in *.
    unfold FromQuadKey, FromRowColumnLevel. simpl. f_equal; lia.
  - unfold path. rewrite FromQuadKey_digits by lia. apply mkTileKey_eta.
Qed.

(** Every quad string of at most 31 digits is the path of a tile. *)
Lemma path_surjective s :
  Forall (fun a => quad_digit a = true) s -> (length s < 32)%nat ->
  exists t, valid t /\ path t = s.
Proof.
  induction s as [|a s IH] using rev_ind; intros Hs Hlen.
  { by exists (mkTileKey 0 0 0). }
  rewrite length_app in Hlen. simpl in Hlen.
  apply Forall_app in Hs as [Hs Ha]. rewrite Forall_singleton in Ha.
  destruct IH as (t & Hv & <-); [done | lia |].
  rewrite length_path in Hlen by done. pose proof Hv as (Hl & _).
  unfold quad_digit in Ha. unfold LevelCount in Hl. exists (GetChild t (ord a - 48)). split.
  - apply GetChild_valid; [done | lia | lia].
  - rewrite GetChild_spec by (done || lia). unfold path. simpl.
    pose proof (mod2_range (ord a - 48)). pose proof (Z.div_mod (ord a - 48) 2).
    assert (0 <= (ord a - 48) / 2 < 2) by (split; [apply Z.div_pos | apply Z.div_lt_upper_bound]; lia).
    rewrite digits_child by lia. do 2 f_equal. rewrite <- (chr_ord a) at 3. f_equal. lia.
Qed.

(** ** Sub keys *)

Lemma u64_shiftl_2 x : u64 (Z.shiftl (u64 x) 2) = u64 (x * 4).
Proof.
  unfold u64. rewrite Z.shiftl_mul_pow2 by lia. change (2 ^ 2) with 4.
  by rewrite Z.mul_mod_idemp_l by lia.
Qed.

Lemma pow4_u64 j : 0 <= j < 32 -> is_u64 (4 ^ j).
Proof.
  intros. rewrite pow4 by lia. unfold is_u64. pose proof (pow2_pos (2 * j)).
  pose proof (Z.pow_lt_mono_r 2 (2 * j) 64). lia.
Qed.

Lemma pow4_succ j : 0 <= j -> 4 ^ (j + 1) = 4 ^ j * 4.
Proof. intros. rewrite Z.pow_add_r by lia. done. Qed.

Lemma pow4_shift j : 0 <= j < 31 -> u64 (Z.shiftl (4 ^ j) 2) = 4 ^ (j + 1).
Proof.
  intros. rewrite <- (u64_small (4 ^ j)), u64_shiftl_2 by (apply pow4_u64; lia).
  rewrite <- pow4_succ by lia. apply u64_small, pow4_u64. lia.
Qed.

Lemma pow4_mono i j : 0 <= i <= j -> 4 ^ i <= 4 ^ j.
Proof. intros. apply Z.pow_le_mono_r; lia. Qed.

(** The loop stops at the leading digit of the sub key when there is one below
    the 31st. *)
Lemma AddedSubkey_loop_spec (d : nat) n j k x :
  0 <= j -> j + Z.of_nat d < 31 -> (d < n)%nat ->
  4 ^ (j + Z.of_nat d) <= k < 4 ^ (j + Z.of_nat d + 1) ->
  AddedSubkey_loop n k (u64 x) (4 ^ j) = Some (u64 (x * 4 ^ Z.of_nat d), 4 ^ (j + Z.of_nat d)).
Proof.
  revert n j x. induction d as [|d IH]; intros [|n] j x Hj Hd Hn Hk; try lia;
    cbn [AddedSubkey_loop]; rewrite pow4_shift by lia.
  - change (Z.of_nat 0) with 0 in *. rewrite !Z.add_0_r in *.
    bfalse (k >=? 4 ^ (j + 1)). change (4 ^ 0) with 1. by rewrite Z.mul_1_r.
  - pose proof (pow4_mono (j + 1) (j + Z.of_nat (S d))).
    btrue (k >=? 4 ^ (j + 1)). rewrite u64_shiftl_2.
    rewrite IH by (first [lia | replace (j + 1 + Z.of_nat d) with (j + Z.of_nat (S d)) by lia; lia]).
    f_equal. f_equal; [f_equal|f_equal; lia].
    rewrite Nat2Z.inj_succ, Z.pow_succ_r by lia. lia.
Qed.

(** From the 31st digit on the mask is shifted out of its 64 bits and the exit
    condition is never met. *)
Lemma AddedSubkey_loop_diverges n k x mask :
  2 ^ 62 <= k -> mask = 0 \/ (exists j, 0 <= j < 32 /\ mask = 4 ^ j) ->
  AddedSubkey_loop n k x mask = None.
Proof.
  intros Hk. revert x mask. induction n as [|n IH]; intros x mask Hm; [done|]. cbn [AddedSubkey_loop].
  assert (Hnext : exists m, u64 (Z.shiftl mask 2) = m /\ m <= k /\
                       (m = 0 \/ exists j, 0 <= j < 32 /\ m = 4 ^ j)).
  { destruct Hm as [->|(j & Hj & ->)].
    - exists 0. split_and!; [done | lia | by left].
    - destruct (decide (j = 31)) as [->|].
      + exists 0. split_and!; [done | lia | by left].
      + exists (4 ^ (j + 1)). split_and!.
        * apply pow4_shift. lia.
        * pose proof (pow4_mono (j + 1) 31). assert (4 ^ 31 = 2 ^ 62) by done. lia.
        * right. exists (j + 1). split; [lia | done]. }
  destruct Hnext as (m & -> & Hle & Hm'). btrue (k >=? m). by apply IH.
Qed.

Lemma GetSubkey_morton n d r c :
  (n + d < 32)%nat ->
  QuadKey64Helper_GetSubkey (morton (d + n) r c) (Z.of_nat d)
  = morton d (r mod 2 ^ Z.of_nat d) (c mod 2 ^ Z.of_nat d).
Proof.
  intros Hd. unfold QuadKey64Helper_GetSubkey. rewrite Z.shiftl_1_l, (Z.mul_comm _ 2), <- pow4 by lia.
  rewrite (u64_small (4 ^ _)) by (apply pow4_u64; lia).
  pose proof (pow4_u64 (Z.of_nat d) ltac:(lia)) as Hp.
  pose proof (Z.pow_pos_nonneg 4 (Z.of_nat d)).
  rewrite u64_small by (unfold is_u64 in *; lia).
  pose proof (morton_low_range d (r mod 2 ^ Z.of_nat d) (c mod 2 ^ Z.of_nat d)) as Hlow.
  rewrite morton_low, pow4 in * by lia. rewrite Z.sub_1_r, <- Z.ones_equiv.
  rewrite Z.land_ones by lia. rewrite Z.add_comm, Z.mod_add, Z.mod_small by lia.
  rewrite lor_disjoint_add by lia. lia.
Qed.

Lemma AddedSubkey_morton n d R C r c :
  (n + d < 32)%nat -> (d < 31)%nat ->
  0 <= r < 2 ^ Z.of_nat d -> 0 <= c < 2 ^ Z.of_nat d ->
  QuadKey64Helper_AddedSubkey 32 (morton n R C) (morton d r c)
  = Some (morton (d + n) (R * 2 ^ Z.of_nat d + r) (C * 2 ^ Z.of_nat d + c)).
Proof.
  intros Hn Hd Hr Hc. unfold QuadKey64Helper_AddedSubkey.
  pose proof (morton_low_range d r c) as Hlow.
  pose proof (morton_range n R C) as Hrange.
  assert (H32 : 2 ^ (2 * Z.of_nat n + 1) * 4 ^ Z.of_nat d <= 2 ^ 64).
  { rewrite pow4, <- Z.pow_add_r by lia. apply pow2_mono. lia. }
  assert (H33 : 2 ^ (2 * Z.of_nat n + 1) <= 2 ^ 64) by (apply pow2_mono; lia).
  pose proof (morton_pos n R C) as Hpos. pose proof (Z.pow_pos_nonneg 4 (Z.of_nat d)).
  rewrite <- (u64_small (morton n R C)) by (unfold is_u64; lia). change 0x1 with (4 ^ 0).
  rewrite (AddedSubkey_loop_spec d) by (rewrite ?Z.add_0_l, ?pow4_succ; lia). cbn.
  rewrite Z.add_0_l, morton_split by done. f_equal.
  rewrite !u64_small by (unfold is_u64; pose proof (pow4_u64 (Z.of_nat d)); unfold is_u64 in *; nia).
  rewrite pow4 in * by lia. rewrite Z.sub_1_r, <- Z.ones_equiv. rewrite Z.land_ones by lia.
  replace (morton d r c) with (morton d r c - 2 ^ (2 * Z.of_nat d) + 1 * 2 ^ (2 * Z.of_nat d)) at 1 by lia.
  rewrite Z.mod_add, Z.mod_small by lia.
  symmetry. apply Z.add_nocarry_lor. apply Z.bits_inj'. intros i Hi.
  rewrite Z.land_spec, Z.bits_0. destruct (decide (i < 2 * Z.of_nat d)).
  - rewrite Z.mul_pow2_bits_low by lia. done.
  - rewrite (testbit_small (morton d r c - _) (2 * Z.of_nat d)), andb_false_r by lia. done.
Qed.

(** ** Level sets *)

Lemma land_opp_lowest k m :
  0 <= k -> Z.land (2 ^ k * (2 * m + 1)) (- (2 ^ k * (2 * m + 1))) = 2 ^ k.
Proof.
  intros Hk. apply Z.bits_inj'. intros i Hi. set (x := 2 ^ k * (2 * m + 1)).
  replace (- x) with (Z.lnot (x - 1)) by (unfold Z.lnot; lia).
  rewrite Z.land_spec, Z.lnot_spec, Z.pow2_bits_eqb by lia.
  destruct (Z.ltb_spec i k) as [Hlt|Hge].
  - unfold x. rewrite (Z.mul_comm (2 ^ k)), Z.mul_pow2_bits_low by lia.
    bfalse (k =? i). done.
  - assert (Hx : Z.testbit x i = Z.testbit (2 * m + 1) (i - k))
      by (unfold x; rewrite Z.mul_comm, Z.mul_pow2_bits by lia; done).
    assert (Hx1 : Z.testbit (x - 1) i = Z.testbit (2 * m) (i - k)).
    { replace i with (i - k + k) at 1 by lia. rewrite <- Z.div_pow2_bits by lia. f_equal.
      symmetry. pose proof (pow2_pos k). apply (Z.div_unique _ _ _ (2 ^ k - 1)); unfold x; lia. }
    rewrite Hx, Hx1. rewrite <- (Z.add_0_r (2 * m)) at 2. destruct (decide (i = k)) as [->|].
    + rewrite Z.sub_diag, !testbit_double_0, !Z.eqb_refl by lia. done.
    + replace (i - k) with (i - k - 1 + 1) by lia. rewrite !testbit_double_succ by lia.
      bfalse (k =? i). by destruct (Z.testbit m _).
Qed.

(** Every positive number has a lowest set bit. *)
Lemma lowest_bit x :
  0 < x -> exists k m, 0 <= k /\ 0 <= m /\ x = 2 ^ k * (2 * m + 1).
Proof.
  intros Hx. destruct x as [|p|p]; try lia. clear Hx.
  induction p as [p IH|p IH|].
  - exists 0, (Z.pos p). lia.
  - destruct IH as (k & m & Hk & Hm & E). exists (k + 1), m. rewrite Z.pow_add_r by lia. lia.
  - exists 0, 0. lia.
Qed.

Lemma lowest_bit_testbit k m :
  0 <= k -> Z.testbit (2 ^ k * (2 * m + 1)) k = true /\
  forall i, 0 <= i < k -> Z.testbit (2 ^ k * (2 * m + 1)) i = false.
Proof.
  intros Hk. rewrite Z.mul_comm. split.
  - rewrite Z.mul_pow2_bits, Z.sub_diag, testbit_double_0 by lia. done.
  - intros i Hi. apply Z.mul_pow2_bits_low. lia.
Qed.

Lemma debruijn_check :
  forallb (fun k =>
      bool_decide (kLookupTable !! Z.to_nat (Z.shiftr (u32 (u64 (2 ^ Z.of_nat k * 0x077CB531))) 27)
                   = Some (Z.of_nat k))) (seq 0 32) = true.
Proof. vm_compute. reflexivity. Qed.

Lemma GetMinTileKeyLevel_lowest levels :
  0 < levels < 2 ^ 32 ->
  exists k, GetMinTileKeyLevel levels = Some k /\ 0 <= k < 32 /\ Z.testbit levels k = true /\
    forall i, 0 <= i < k -> Z.testbit levels i = false.
Proof.
  intros Hl. destruct (lowest_bit levels) as (k & m & Hk & Hm & E); [lia|].
  assert (Hk32 : k < 32).
  { apply (Z.pow_lt_mono_r_iff 2); [lia.. |]. pose proof (pow2_pos k). nia. }
  exists k. unfold GetMinTileKeyLevel. bfalse (levels =? 0).
  assert (Z.land levels (u64 (- levels)) = 2 ^ k) as ->.
  { rewrite <- (land_opp_lowest k m), <- E by lia. apply Z.bits_inj'. intros i Hi.
    rewrite !Z.land_spec. destruct (decide (i < 32)).
    - by rewrite u64_testbit by lia.
    - by rewrite (testbit_small levels 32) by lia. }
  pose proof debruijn_check as D. rewrite forallb_forall in D. specialize (D (Z.to_nat k)).
  rewrite in_seq, bool_decide_eq_true, Z2Nat.id in D by lia. rewrite D by lia.
  split; [done|]. split; [lia|]. rewrite E. by apply lowest_bit_testbit.
Qed.

Lemma GetMaxTileKeyLevel_highest levels :
  0 < levels < 2 ^ 32 ->
  exists k, GetMaxTileKeyLevel levels = Some k /\ 0 <= k < 32 /\ Z.testbit levels k = true /\
    forall i, k < i -> Z.testbit levels i = false.
Proof.
  intros Hl. exists (Z.log2 levels). unfold GetMaxTileKeyLevel. bfalse (levels =? 0).
  pose proof (Z.log2_nonneg levels). split; [done|]. split.
  - split; [done|]. apply Z.log2_lt_pow2; lia.
  - split; [apply Z.bit_log2; lia|]. intros i Hi. apply Z.bits_above_log2; lia.
Qed.

(** The loop finds a level at the smallest distance, the upper one first. *)
Lemma nearest_loop_spec n levels level d :
  0 <= d -> (exists e, d <= e < d + Z.of_nat n /\
    (Z.testbit levels (level + e) = true /\ level + e < LevelCount \/
     Z.testbit levels (level - e) = true /\ e <= level)) ->
  exists e, d <= e /\
    (nearest_loop n levels level d = level + e /\ level + e < LevelCount \/
     nearest_loop n levels level d = level - e /\ e <= level /\
       (Z.testbit levels (level + e) = false \/ LevelCount <= level + e)) /\
    Z.testbit levels (nearest_loop n levels level d) = true /\
    forall i, d <= i < e ->
      (Z.testbit levels (level + i) = false \/ LevelCount <= level + i) /\
      (Z.testbit levels (level - i) = false \/ level < i).
Proof.
  revert d. induction n as [|n IH]; intros d Hd (e & He & Hex); [lia|].
  cbn [nearest_loop].
  destruct (Z.ltb_spec (level + d) LevelCount) as [H1|H1];
    destruct (Z.testbit levels (level + d)) eqn:T1; cbn [andb];
    try (exists d; split_and!; [lia | by left | done | lia]).
  all: rewrite Z.geb_leb; destruct (Z.leb_spec d level) as [H2|H2];
    destruct (Z.testbit levels (level - d)) eqn:T2; cbn [andb];
    try (exists d; split_and!; [lia | right; split_and!; [done | done | first [by left | by right]] | done | lia]).
  all: destruct (decide (e = d)) as [->|];
    [exfalso; destruct Hex as [[? ?]|[? ?]]; first [congruence | lia]|].
  all: destruct (IH (d + 1)) as (e' & He' & Hres & Ht & Hi); [lia | exists e; split; [lia | done] |].
  all: exists e'; split_and!; [lia | done | done |]; intros i Hi';
    destruct (decide (i = d)) as [->|]; [|apply Hi; lia].
  all: split; first [by left | by right].
Qed.

Lemma Parent_ChangedLevelBy t : valid t -> 0 < level_ t -> Parent t = ChangedLevelBy t (Z.opp 1).
Proof.
  intros Hv Hl. rewrite ChangedLevelBy_up by (done || lia). unfold Parent, FromRowColumnLevel.
  destruct Hv as (Hl' & _). unfold LevelCount in Hl'. btrue (level_ t >? 0).
  by rewrite !Z.shiftr_div_pow2, u32_small by (unfold is_u32; lia).
Qed.

(** A sub tile: coordinates relative to an ancestor [d] levels up. *)
Lemma ancestor_plus_rest t d :
  valid t -> 0 <= d <= level_ t ->
  mkTileKey (row_ t / 2 ^ d * 2 ^ d + row_ t mod 2 ^ d)
            (column_ t / 2 ^ d * 2 ^ d + column_ t mod 2 ^ d) (level_ t) = t.
Proof. intros. rewrite <- !split_pow2 by lia. apply mkTileKey_eta. Qed.

(** ** Properties *)

(** C31: for every valid tile the table-driven 64-bit code is the reference
    Morton code (a leading 1 and one base-4 digit [2 * row bit + column bit] per
    level), and decoding the code, or its decimal HERE tile string, gives the
    tile back. *)
Theorem quadkey64_of_tile t :
  valid t ->
  ToQuadKey64 t = morton (Z.to_nat (level_ t)) (row_ t) (column_ t) /\
  FromQuadKey64 (ToQuadKey64 t) = t /\ FromHereTile (ToHereTile t) = t.
Proof.
  intros Hv. split_and!.
  - by apply ToQuadKey64_morton.
  - by apply FromQuadKey64_ToQuadKey64.
  - unfold FromHereTile, ToHereTile. pose proof (ToQuadKey64_range t) as Hr.
    rewrite decide_False by (apply to_string_spec; unfold is_u64 in Hr; lia).
    rewrite strtoull_to_string by done. by apply FromQuadKey64_ToQuadKey64.
Qed.

Lemma quadkey64_of_tile_witness :
  ToQuadKey64 (mkTileKey 3 5 3) = 91 /\ FromQuadKey64 91 = mkTileKey 3 5 3.
Proof.
  destruct (quadkey64_of_tile (mkTileKey 3 5 3)) as (H1 & H2 & _).
  - unfold valid, LevelCount. simpl. lia.
  - assert (E : ToQuadKey64 (mkTileKey 3 5 3) = 91) by (rewrite H1; reflexivity).
    rewrite E in H2. split; [exact E | exact H2].
Defined.

(** Every number between [4^n] and [2 * 4^n], [n < 32], is the code of
    exactly the valid tile of level [n] that decoding yields, and the decoding
    loop needs no more than [n] of its rounds. *)
Theorem tile_of_quadkey64 n k :
  0 <= n < 32 -> 4 ^ n <= k < 2 * 4 ^ n ->
  valid (FromQuadKey64 k) /\ level_ (FromQuadKey64 k) = n /\ ToQuadKey64 (FromQuadKey64 k) = k /\
  forall fuel, (Z.to_nat n <= fuel)%nat ->
    FromQuadKey64_loop fuel k (FromRowColumnLevel 0 0 0) = FromQuadKey64 k.
Proof.
  intros Hn Hk. rewrite pow4 in Hk by lia.
  destruct (morton_surjective (Z.to_nat n) k) as (r & c & Hr & Hc & ->).
  { rewrite Z2Nat.id, Z.pow_add_r by lia. change (2 ^ 1) with 2. lia. }
  rewrite FromQuadKey64_morton, Z2Nat.id in * by lia.
  assert (Hv : valid (mkTileKey r c n)) by (unfold valid, LevelCount; simpl; lia).
  split_and!; [done | done | by rewrite ToQuadKey64_morton |].
  intros fuel Hfuel. unfold FromRowColumnLevel.
  rewrite FromQuadKey64_loop_morton by (rewrite ?Z2Nat.id; simpl; lia).
  rewrite Z2Nat.id by lia. f_equal; simpl; lia.
Qed.

Lemma tile_of_quadkey64_witness : ToQuadKey64 (FromQuadKey64 91) = 91.
Proof. apply (tile_of_quadkey64 3 91); simpl; lia. Defined.

(** The quad string of a valid tile has one digit per level, loses its last
    digit in the parent, and parses back to the tile. *)
Theorem quad_string_of_tile t :
  valid t ->
  FromQuadKey (ToQuadKey t) = t /\
  (0 < level_ t -> length (ToQuadKey t) = Z.to_nat (level_ t)) /\
  (1 < level_ t -> ToQuadKey (Parent t) = take (Z.to_nat (level_ t - 1)) (ToQuadKey t)).
Proof.
  intros Hv. split_and!; [by apply FromQuadKey_ToQuadKey | |]; intros Hl.
  - rewrite ToQuadKey_path by done. bfalse (level_ t =? 0). by apply length_path.
  - rewrite Parent_ChangedLevelBy by (done || lia).
    rewrite !ToQuadKey_path, path_ancestor by
      (first [done | lia | rewrite ChangedLevelBy_up by (done || lia); apply ancestor_valid; done || lia]).
    rewrite ChangedLevelBy_up by (done || lia). simpl.
    bfalse (level_ t =? 0). by bfalse (level_ t - 1 =? 0).
Qed.

Lemma quad_string_of_tile_witness : FromQuadKey (ToQuadKey (mkTileKey 3 5 3)) = mkTileKey 3 5 3.
Proof. apply quad_string_of_tile. unfold valid, LevelCount. simpl. lia. Defined.

(** Every string of 1 to 31 digits from 0 to 3 parses to a valid tile whose
    quad string it is. *)
Theorem tile_of_quad_string s :
  Forall (fun a => quad_digit a = true) s -> (0 < length s < 32)%nat ->
  valid (FromQuadKey s) /\ ToQuadKey (FromQuadKey s) = s.
Proof.
  intros Hs Hlen. destruct (path_surjective s) as (t & Hv & <-); [done | lia |].
  rewrite length_path in Hlen by done.
  assert (E : path t = ToQuadKey t) by (rewrite ToQuadKey_path by done; by bfalse (level_ t =? 0)).
  rewrite E, FromQuadKey_ToQuadKey by done. done.
Qed.

Lemma tile_of_quad_string_witness : ToQuadKey (FromQuadKey (chars "123")) = chars "123".
Proof. apply tile_of_quad_string; [by repeat constructor | simpl; lia]. Defined.

Lemma ChangedLevelBy_valid t d : valid t -> - 2 ^ 31 < d -> level_ t + d < 32 -> valid (ChangedLevelBy t d).
Proof.
  intros Hv Hd Hl. pose proof Hv as (Hlt & Hr & Hc). unfold LevelCount in Hlt. destruct (Z.leb_spec 0 d).
  - rewrite ChangedLevelBy_down by done. unfold valid, LevelCount. cbn [row_ column_ level_].
    rewrite Z.pow_add_r by lia. pose proof (pow2_pos d). nia.
  - replace d with (- - d) by lia. destruct (Z.leb_spec (- d) (level_ t)).
    + rewrite ChangedLevelBy_up by (done || lia). by apply ancestor_valid; [|lia].
    + rewrite ChangedLevelBy_above by (done || lia). unfold valid, LevelCount. cbn. lia.
Qed.

(** Navigation never leaves the tree: the parent, the children, the neighbours that
    the code says are there, and the ancestors and descendants of a tile key inside the
    tree, up to the deepest level, are inside the tree again, for every number of levels. *)
Theorem navigation_valid t : valid t ->
  (0 < level_ t -> valid (Parent t)) /\
  (forall i, level_ t < 31 -> 0 <= i < 4 -> valid (GetChild t i)) /\
  (forall d, - 2 ^ 31 < d -> level_ t + d < 32 -> valid (ChangedLevelBy t d)) /\
  (HasNextRow t = true -> valid (NextRow t)) /\ (HasNextColumn t = true -> valid (NextColumn t)) /\
  (HasPreviousRow t = true -> valid (PreviousRow t)) /\ (HasPreviousColumn t = true -> valid (PreviousColumn t)).
Proof.
  intros Hv. split.
  { intros Hl. pose proof (ancestor_valid t 1 Hv ltac:(lia)) as Ha. destruct Hv as (Hlt & Hr & Hc). unfold LevelCount in Hlt.
    unfold Parent, FromRowColumnLevel. btrue (level_ t >? 0). rewrite !Z.shiftr_div_pow2, u32_small by (unfold is_u32; lia). done. }
  split; [intros i; by apply GetChild_valid|]. split; [intros d; by apply ChangedLevelBy_valid|].
  destruct Hv as (Hl & Hr & Hc). unfold LevelCount in Hl.
  assert (Hp : 1 <= 2 ^ level_ t < 2 ^ 32) by (split; [pose proof (pow2_pos (level_ t)); lia|apply Z.pow_lt_mono_r; lia]).
  assert (Hs : u32 (shl_1u (level_ t) - 1) = 2 ^ level_ t - 1).
  { unfold shl_1u. rewrite Z.shiftl_1_l, (u32_small (2 ^ level_ t)), u32_small by (unfold is_u32; lia). done. }
  unfold HasNextRow, HasNextColumn, HasPreviousRow, HasPreviousColumn, NextRow, NextColumn, PreviousRow, PreviousColumn, FromRowColumnLevel.
  rewrite Hs. unfold valid, LevelCount. cbn [row_ column_ level_]. split_and!; intros H; rewrite u32_small by (unfold is_u32; lia); lia.
Qed.

Lemma navigation_valid_witness : valid (mkTileKey 3 3 2) /\ valid (PreviousRow (mkTileKey 3 3 2)).
Proof.
  assert (Hv : valid (mkTileKey 3 3 2)) by (unfold valid, LevelCount; cbn; lia).
  split; [exact Hv|]. apply (navigation_valid (mkTileKey 3 3 2) Hv). reflexivity.
Defined.

(** A valid tile is a child of another one (at any depth) exactly when it is
    on a lower level and the other's path from the root is a prefix of its own. *)
Theorem IsChildOf_prefix c p :
  valid c -> valid p ->
  (IsChildOf c p = true <-> level_ p < level_ c /\ exists s, path c = path p ++ s) /\
  IsParentOf p c = IsChildOf c p.
Proof. intros Hc Hp. split; [by apply IsChildOf_iff | done]. Qed.

Lemma IsChildOf_prefix_witness : IsChildOf (mkTileKey 3 5 3) (mkTileKey 0 1 1) = true.
Proof.
  destruct (IsChildOf_prefix (mkTileKey 3 5 3) (mkTileKey 0 1 1)) as [[_ H] _].
  - unfold valid, LevelCount. simpl. lia.
  - unfold valid, LevelCount. simpl. lia.
  - apply H. split; [simpl; lia|]. exists (chars "23"). vm_compute. reflexivity.
Defined.

(** The four children of a valid tile above the last level are valid, have
    the tile as their parent and know their quadrant. *)
Theorem GetChild_quadrants t q :
  valid t -> level_ t < MaxLevel -> q <> Invalid ->
  valid (GetChild_direction t q) /\ Parent (GetChild_direction t q) = t /\
  RelationshipToParent (GetChild_direction t q) = q /\ IsChildOf (GetChild_direction t q) t = true.
Proof.
  intros Hv Hl Hq. unfold MaxLevel, LevelCount in Hl.
  assert (Hi : 0 <= quadrant_index q < 4) by (destruct q; simpl; done || lia).
  assert (Hvc : valid (GetChild_direction t q)) by (apply GetChild_valid; done || lia).
  assert (Hp : Parent (GetChild_direction t q) = t) by (apply Parent_GetChild; done || lia).
  split_and!; [done | done | apply RelationshipToParent_GetChild; done || lia |].
  assert (El : level_ (GetChild_direction t q) = level_ t + 1)
    by (unfold GetChild_direction; rewrite GetChild_spec by (done || lia); done).
  destruct Hv as (Hl' & _). unfold LevelCount in Hl'.
  unfold IsChildOf. bfalse (level_ (GetChild_direction t q) <=? level_ t).
  rewrite bool_decide_eq_true, ChangedLevelTo_spec by (done || lia).
  replace (level_ t - level_ (GetChild_direction t q)) with (Z.opp 1) by lia.
  by rewrite <- Parent_ChangedLevelBy by (done || lia).
Qed.

Lemma GetChild_quadrants_witness :
  RelationshipToParent (GetChild_direction (mkTileKey 3 5 3) NW) = NW.
Proof. apply GetChild_quadrants; [unfold valid, LevelCount; simpl; lia | done | done]. Defined.

(** A tile is restored from its ancestor [d] levels up and the sub key
    relative to it, for the 64-bit codes ([d < 31]) and for the strings. *)
Theorem AddedSubkey_GetSubkey t d :
  valid t -> 0 <= d <= level_ t -> d < 31 ->
  AddedSubkey64 (ChangedLevelBy t (- d)) (GetSubkey64 t d) = Some t /\
  AddedSubkey (ChangedLevelBy t (- d)) (drop (Z.to_nat (level_ t - d)) (path t)) = t.
Proof.
  intros Hv Hd Hlt. pose proof (ancestor_valid t d Hv Hd) as Hva. pose proof Hv as (Hl & Hr & Hc).
  unfold LevelCount in Hl. rewrite ChangedLevelBy_up by done.
  pose proof (mod_pow2_range (row_ t) d). pose proof (mod_pow2_range (column_ t) d). split.
  - unfold AddedSubkey64, GetSubkey64. rewrite !ToQuadKey64_morton by done. cbn [row_ column_ level_].
    replace (Z.to_nat (level_ t)) with (Z.to_nat d + Z.to_nat (level_ t - d))%nat by lia.
    pose proof (GetSubkey_morton (Z.to_nat (level_ t - d)) (Z.to_nat d) (row_ t) (column_ t)) as G.
    pose proof (AddedSubkey_morton (Z.to_nat (level_ t - d)) (Z.to_nat d) (row_ t / 2 ^ d)
      (column_ t / 2 ^ d) (row_ t mod 2 ^ d) (column_ t mod 2 ^ d)) as A.
    rewrite Z2Nat.id in G, A by lia. rewrite G, A by lia. cbn [fmap option_fmap option_map].
    rewrite <- !split_pow2 by lia. f_equal.
    rewrite FromQuadKey64_morton by (rewrite ?Nat2Z.inj_add, ?Z2Nat.id by lia;
      replace (d + (level_ t - d)) with (level_ t) by lia; lia).
    rewrite Nat2Z.inj_add, !Z2Nat.id by lia. destruct t; simpl. f_equal. lia.
  - unfold AddedSubkey.
    assert (Hdrop : drop (Z.to_nat (level_ t - d)) (path t)
                    = digits (row_ t mod 2 ^ d) (column_ t mod 2 ^ d) d).
    { apply list_eq. intros j. rewrite lookup_drop. destruct (decide (Z.of_nat j < d)).
      - unfold path. rewrite !digits_lookup_nat by lia. do 3 f_equal.
        replace (level_ t - 1 - Z.of_nat (Z.to_nat (level_ t - d) + j)) with (d - 1 - Z.of_nat j) by lia.
        unfold digit. rewrite <- !Z.testbit_spec' by lia. by rewrite !Z.mod_pow2_bits_low by lia.
      - rewrite !lookup_ge_None_2; [done | |]; rewrite ?length_digits, ?length_path by (done || lia); lia. }
    rewrite Hdrop. assert (Hsub : FromQuadKey (if decide (digits (row_ t mod 2 ^ d) (column_ t mod 2 ^ d) d = [])
        then chars "-" else digits (row_ t mod 2 ^ d) (column_ t mod 2 ^ d) d)
        = mkTileKey (row_ t mod 2 ^ d) (column_ t mod 2 ^ d) d).
    { destruct (decide (d = 0)) as [->|].
      - change (2 ^ 0) with 1. by rewrite !Z.mod_1_r.
      - rewrite decide_False, FromQuadKey_digits by (first [lia | intros E; apply (f_equal length) in E;
          rewrite length_digits in E by lia; simpl in E; lia]). done. }
    rewrite Hsub. cbn [level_ row_ column_]. rewrite s32_small by lia.
    rewrite ChangedLevelBy_down by (done || simpl; lia). unfold FromRowColumnLevel. cbn [level_ row_ column_].
    rewrite <- !split_pow2, !u32_small by
      (unfold is_u32; pose proof (pow2_mono (level_ t) 32); lia).
    destruct t; simpl. f_equal. lia.
Qed.

Lemma AddedSubkey_GetSubkey_witness :
  AddedSubkey64 (ChangedLevelBy (mkTileKey 3 5 3) (Z.opp 2)) (GetSubkey64 (mkTileKey 3 5 3) 2)
  = Some (mkTileKey 3 5 3).
Proof. apply AddedSubkey_GetSubkey; [unfold valid, LevelCount; simpl; lia | simpl; lia | lia]. Defined.

(** For a sub key of 31 levels (documented as admissible) the mask of the
    loop in [QuadKey64Helper::AddedSubkey] is shifted out of its 64 bits, so
    that the loop never ends, whatever the number of rounds. *)
Theorem AddedSubkey_GetSubkey_diverges t u fuel :
  valid t -> level_ t = 31 ->
  QuadKey64Helper_AddedSubkey fuel (ToQuadKey64 u) (GetSubkey64 t 31) = None.
Proof.
  intros Hv Hl. unfold GetSubkey64, QuadKey64Helper_AddedSubkey.
  rewrite AddedSubkey_loop_diverges; [done | | right; exists 0; split; [lia | done]].
  rewrite ToQuadKey64_morton, Hl by done.
  pose proof (GetSubkey_morton 0 31 (row_ t) (column_ t) ltac:(lia)) as G.
  change (Z.of_nat 31) with 31 in G. change (31 + 0)%nat with (Z.to_nat 31) in G. rewrite G.
  pose proof (morton_range 31 (row_ t mod 2 ^ Z.of_nat 31) (column_ t mod 2 ^ Z.of_nat 31)) as [H _].
  exact H.
Qed.

Lemma AddedSubkey_GetSubkey_diverges_witness :
  QuadKey64Helper_AddedSubkey 100 (ToQuadKey64 (mkTileKey 0 0 0)) (GetSubkey64 (mkTileKey 7 7 31) 31)
  = None.
Proof. apply AddedSubkey_GetSubkey_diverges; [unfold valid, LevelCount; simpl; lia | done]. Defined.

(** The de Bruijn multiplication finds the lowest level of every non-empty
    level set, and the logarithm the highest one. *)
Theorem tile_level_bounds levels :
  0 < levels < 2 ^ LevelCount ->
  exists lo hi, GetMinTileKeyLevel levels = Some lo /\ GetMaxTileKeyLevel levels = Some hi /\
    0 <= lo <= hi /\ hi < LevelCount /\ Z.testbit levels lo = true /\ Z.testbit levels hi = true /\
    forall i, 0 <= i -> Z.testbit levels i = true -> lo <= i <= hi.
Proof.
  intros Hl. destruct (GetMinTileKeyLevel_lowest levels Hl) as (lo & E1 & Hlo & T1 & B1).
  destruct (GetMaxTileKeyLevel_highest levels Hl) as (hi & E2 & Hhi & T2 & B2).
  assert (Hb : forall i, 0 <= i -> Z.testbit levels i = true -> lo <= i <= hi).
  { intros i Hi Ht. destruct (Z.lt_ge_cases i lo); [rewrite B1 in Ht by lia; done|].
    destruct (Z.lt_ge_cases hi i); [rewrite B2 in Ht by lia; done|]. lia. }
  exists lo, hi. unfold LevelCount. pose proof (Hb hi ltac:(lia) T2). split_and!; done || lia.
Qed.

Lemma tile_level_bounds_witness : exists lo hi, 0 <= lo <= hi /\ GetMinTileKeyLevel 40 = Some lo.
Proof.
  destruct (tile_level_bounds 40) as (lo & hi & H1 & H2 & H3 & _); [unfold LevelCount; lia|].
  exists lo, hi. split; [exact H3 | exact H1].
Defined.

(** The level found is in the set, no level of the set is nearer to the
    reference level, and of two equally near levels inside the range of the set
    the higher one is taken. *)
Theorem nearest_level levels reference :
  0 < levels < 2 ^ LevelCount -> 0 <= reference < 2 ^ 32 ->
  exists l, GetNearestAvailableTileKeyLevel levels reference = Some l /\
    0 <= l < LevelCount /\ Z.testbit levels l = true /\
    forall i, 0 <= i -> Z.testbit levels i = true ->
      Z.abs (l - reference) <= Z.abs (i - reference) /\
      (Z.abs (l - reference) = Z.abs (i - reference) -> i <= l).
Proof.
  intros Hl Hr. unfold LevelCount in *.
  destruct (GetMinTileKeyLevel_lowest levels Hl) as (lo & E1 & Hlo & T1 & B1).
  destruct (GetMaxTileKeyLevel_highest levels Hl) as (hi & E2 & Hhi & T2 & B2).
  unfold GetNearestAvailableTileKeyLevel. rewrite E1, E2.
  assert (Hb : forall i, 0 <= i -> Z.testbit levels i = true -> lo <= i <= hi).
  { intros i Hi Ht. destruct (Z.lt_ge_cases i lo); [rewrite B1 in Ht by lia; done|].
    destruct (Z.lt_ge_cases hi i); [rewrite B2 in Ht by lia; done|]. lia. }
  pose proof (Hb hi ltac:(lia) T2) as Hlohi.
  set (level := Z.max (Z.min reference hi) lo).
  set (n := Z.to_nat _).
  destruct (nearest_loop_spec n levels level 0) as (e & He & Hres & Ht & Hbefore); [lia | |].
  - destruct (decide (Z.abs (level - lo) <= Z.abs (level - hi))).
    + exists (hi - level). unfold n, LevelCount. split; [lia|]. left.
      replace (level + (hi - level)) with hi by lia. split; [done | lia].
    + exists (level - lo). unfold n. split; [lia|]. right.
      replace (level - (level - lo)) with lo by lia. split; [done | lia].
  - set (l := nearest_loop n levels level 0) in *. exists l. unfold LevelCount in *.
    assert (Hl0 : 0 <= l) by (destruct (Z.lt_ge_cases l 0); [rewrite Z.testbit_neg_r in Ht by lia|]; done).
    pose proof (Hb l Hl0 Ht). split_and!; [done | lia | lia | done |].
    intros i Hi Hti. pose proof (Hb i Hi Hti) as Hirange.
    assert (Hdist : Z.abs (l - level) <= Z.abs (i - level)).
    { destruct (Z.lt_ge_cases (Z.abs (i - level)) e) as [Hlt|]; [|lia]. exfalso.
      destruct (Hbefore (Z.abs (i - level)) ltac:(lia)) as [Hu Hd].
      destruct (Z.le_ge_cases level i).
      - replace (level + Z.abs (i - level)) with i in Hu by lia. destruct Hu; [congruence | lia].
      - replace (level - Z.abs (i - level)) with i in Hd by lia. destruct Hd; [congruence | lia]. }
    assert (Htie : Z.abs (l - level) = Z.abs (i - level) -> i <= l).
    { intros Htie. destruct Hres as [[? ?]|(? & ? & Hup)]; [lia|].
      destruct (Z.le_gt_cases i l); [done|]. exfalso.
      replace (level + e) with i in Hup by lia. destruct Hup; [congruence | lia]. }
    lia.
Qed.

Lemma nearest_level_witness :
  exists l, GetNearestAvailableTileKeyLevel 0x10010 7 = Some l /\ Z.testbit 0x10010 l = true.
Proof.
  destruct (nearest_level 0x10010 7) as (l & H1 & _ & H2 & _);
    [unfold LevelCount; lia | lia |].
  exists l. split; [exact H1 | exact H2].
Defined.

(** ** Tiles above others *)

(** [a] is [t] or an ancestor of it. *)
Definition above (a t : TileKey) : Prop := valid a /\ valid t /\ path a `prefix_of` path t.

Lemma above_level a t : above a t -> level_ a <= level_ t.
Proof.
  intros (Ha & Ht & Hp%prefix_length). rewrite !length_path in Hp by done. destruct Ha as (Ha & _), Ht as (Ht & _). lia.
Qed.

Lemma above_eq a b t : above a t -> above b t -> level_ a = level_ b -> a = b.
Proof.
  intros (Ha & Ht & [s Es]) (Hb & _ & [s' Es']) El. apply path_inj; [done..|]. rewrite Es in Es'.
  apply app_inj_1 in Es' as [? _]; [done|]. by rewrite !length_path, El.
Qed.

Lemma above_total a b t : above a t -> above b t -> level_ a <= level_ b -> above a b.
Proof.
  intros (Ha & Ht & Hpa) (Hb & _ & Hpb) El. split_and!; [done..|]. destruct (prefix_weak_total _ _ _ Hpa Hpb) as [?|Hp]; [done|].
  assert (a = b) as ->; [|done]. apply path_inj; [done..|]. symmetry. apply (prefix_length_eq _ _ Hp).
  rewrite !length_path by done. destruct Ha as (? & _), Hb as (? & _). lia.
Qed.

Lemma IsChildOf_above t a : valid t -> valid a -> IsChildOf t a = true <-> above a t /\ level_ a < level_ t.
Proof. intros Ht Ha. rewrite IsChildOf_iff by done. unfold above, prefix. tauto. Qed.

Lemma above_up t d : valid t -> 0 <= d < 2^31 -> above (ChangedLevelBy t (- d)) t.
Proof.
  intros Ht Hd. pose proof Ht as (Hl & _). unfold LevelCount in Hl. split; [apply ChangedLevelBy_valid; [done|lia..]|]. split; [done|].
  destruct (Z.leb_spec d (level_ t)).
  - rewrite path_ancestor by (done || lia). apply prefix_take.
  - rewrite ChangedLevelBy_above by (done || lia). apply prefix_nil.
Qed.

Lemma above_trans a b t : above a b -> above b t -> above a t.
Proof. intros (? & _ & ?) (_ & ? & ?). split_and!; [done..|]. by etransitivity. Qed.
