(* ===== verification/TileTree.v ===== *)
(** * Subdivision schemes and traversal of the tile tree

    Model of the subdivision schemes (include/olp/core/geo/tiling/
    ISubdivisionScheme.h and its two implementations), of the container of sub
    tiles [SubTiles] with its iterator (SubTiles.h), of [TileTreeTraverse] and of
    the two relative/absolute key conversions of [TileKeyUtils]. *)

From S2P Require Import Prelude TileKey.

(** ** Subdivision schemes *)

(** The interface [ISubdivisionScheme]; a [Size2u] is a pair width, height. *)
Class ISubdivisionScheme (S : Type) := {
  GetName : S -> list ascii;
  GetSubdivisionAt : S -> Z -> Z * Z;
  GetLevelSize : S -> Z -> Z * Z }.

Definition IsEqualTo {S S'} `{ISubdivisionScheme S} `{ISubdivisionScheme S'} (s : S) (other : S')
  : bool := bool_decide (GetName s = GetName other).

Inductive QuadTreeSubdivisionScheme := QuadTree.
Inductive HalfQuadTreeSubdivisionScheme := HalfQuadTree.

#[export] Instance QuadTree_scheme : ISubdivisionScheme QuadTreeSubdivisionScheme := {
  GetName _ := chars "QuadTreeSubdivisionScheme";
  GetSubdivisionAt _ _ := (2, 2);
  GetLevelSize _ level := (shl_1u level, shl_1u level) }.

#[export] Instance HalfQuadTree_scheme : ISubdivisionScheme HalfQuadTreeSubdivisionScheme := {
  GetName _ := chars "HalfQuadTreeSubdivisionScheme";
  GetSubdivisionAt _ level := (2, if level =? 0 then 1 else 2);
  GetLevelSize _ level := (shl_1u level, if level =? 0 then 1 else shl_1u (u32 (level - 1))) }.

(** What a scheme promises to its users: the root level has one tile per
    column, and each level is the one above it subdivided. *)
Class SubdivisionLaws (S : Type) `{ISubdivisionScheme S} := {
  level_size_root : forall s, snd (GetLevelSize s 0) = 1;
  level_size_succ : forall s l, 0 <= l < 31 ->
    GetLevelSize s (l + 1)
    = (fst (GetLevelSize s l) * fst (GetSubdivisionAt s l),
       snd (GetLevelSize s l) * snd (GetSubdivisionAt s l));
  subdivision_small : forall s l,
    1 <= fst (GetSubdivisionAt s l) * snd (GetSubdivisionAt s l) <= 4 }.

(** ** Sub tiles *)

Record SubTiles := mkSubTiles {
  tile_key_ : TileKey; sub_level_ : Z; count_ : Z; mask_ : Z; shift_ : Z }.

Definition SubTiles_new (tile_key : TileKey) (level mask : Z) : SubTiles :=
  mkSubTiles tile_key level (shl_1u (Z.shiftl level 1)) (u16 mask)
    (if level >? 2 then Z.shiftl (level - 2) 1 else 0).

Definition SubTiles_Size (s : SubTiles) : Z := count_ s.

(** [while (index < count_ && (mask_ & (1 << (index >> shift_))) == 0) ++index;] *)
Fixpoint Skip_loop (fuel : nat) (s : SubTiles) (index : Z) : Z :=
  match fuel with
  | O => index
  | S fuel =>
      if (index <? count_ s) && (Z.land (mask_ s) (Z.shiftl 1 (Z.shiftr index (shift_ s))) =? 0)
      then Skip_loop fuel s (index + 1)
      else index
  end.

Definition Skip (s : SubTiles) (index : Z) : Z :=
  if mask_ s =? u16 (-1) then index else Skip_loop (Z.to_nat (count_ s - index)) s index.

(** An iterator is its index into the container. *)
Definition Iterator_new (s : SubTiles) (index : Z) : Z := Skip s index.
Definition SubTiles_begin (s : SubTiles) : Z := Iterator_new s 0.
Definition SubTiles_end (s : SubTiles) : Z := Iterator_new s (count_ s).
Definition Iterator_next (s : SubTiles) (index : Z) : Z := Skip s (u32 (index + 1)).

Definition Iterator_deref (s : SubTiles) (index : Z) : TileKey :=
  let parent_key := tile_key_ s in
  let sub_level := sub_level_ s in
  FromRowColumnLevel
    (Z.lor (u32 (Z.shiftl (row_ parent_key) sub_level)) (Z.shiftr index sub_level))
    (Z.lor (u32 (Z.shiftl (column_ parent_key) sub_level))
       (Z.land index (u32 (shl_1u sub_level - 1))))
    (u32 (level_ parent_key + sub_level)).

(** [for (it = begin(); it != end(); ++it) visit *it]: the keys visited, [None] when
    the fuel runs out. *)
Fixpoint visit_loop (fuel : nat) (s : SubTiles) (it : Z) : option (list TileKey) :=
  if it =? SubTiles_end s then Some []
  else match fuel with
       | O => None
       | S fuel => cons (Iterator_deref s it) <$> visit_loop fuel s (Iterator_next s it)
       end.

Definition SubTiles_visit (s : SubTiles) : option (list TileKey) :=
  visit_loop (Z.to_nat (count_ s)) s (SubTiles_begin s).

(** ** Traversal *)

Definition SubNodes {S} `{ISubdivisionScheme S} (scheme : S) (node : TileKey) : SubTiles :=
  let subdivision := GetSubdivisionAt scheme (level_ node) in
  let sub_tile_count := u32 (fst subdivision * snd subdivision) in
  let sub_tile_mask := u16 (Z.lnot (u32 (Z.shiftl (u32 (Z.lnot 0)) sub_tile_count))) in
  SubTiles_new node 1 sub_tile_mask.

(** ** Relative and absolute keys *)

Definition GetRelativeSubTileKey (key : TileKey) (parent_level : Z) : TileKey :=
  let origin_key := ChangedLevelTo (ChangedLevelTo key parent_level) (level_ key) in
  FromRowColumnLevel (u32 (row_ key - row_ origin_key)) (u32 (column_ key - column_ origin_key))
    (u32 (level_ key - parent_level)).

Definition GetAbsoluteSubTileKey (parent sub_tile : TileKey) : TileKey :=
  let abs_sub_tile := ChangedLevelBy parent (s32 (level_ sub_tile)) in
  FromRowColumnLevel (u32 (row_ abs_sub_tile + row_ sub_tile))
    (u32 (column_ abs_sub_tile + column_ sub_tile)) (level_ abs_sub_tile).

(** ** Schemes: the laws hold *)

Lemma shl_1u_succ l : 0 <= l < 31 -> shl_1u (l + 1) = shl_1u l * 2.
Proof. intros. rewrite !shl_1u_pow, Z.pow_add_r by lia. done. Qed.

#[export] Instance QuadTree_laws : SubdivisionLaws QuadTreeSubdivisionScheme.
Proof.
  split; simpl.
  - done.
  - intros _ l Hl. by rewrite shl_1u_succ.
  - lia.
Qed.

#[export] Instance HalfQuadTree_laws : SubdivisionLaws HalfQuadTreeSubdivisionScheme.
Proof.
  split; simpl.
  - done.
  - intros _ l Hl. rewrite shl_1u_succ by done. bfalse (l + 1 =? 0).
    destruct (Z.eqb_spec l 0) as [->|]; [done|]. f_equal.
    rewrite !u32_small by (unfold is_u32; lia).
    replace (l + 1 - 1) with (l - 1 + 1) by lia. apply shl_1u_succ. lia.
  - intros _ l. destruct (l =? 0); lia.
Qed.

(** ** Iteration *)

(** The mask bit that decides whether an index is visited. *)
Definition selected (s : SubTiles) (i : Z) : bool := Z.testbit (mask_ s) (Z.shiftr i (shift_ s)).

(** A container whose parameters fit: [sub_level] is at most 15, so that the
    number of sub tiles fits 32 bits. *)
Record fits (s : SubTiles) : Prop := {
  fits_level : 0 <= sub_level_ s <= 15;
  fits_count : count_ s = 4 ^ sub_level_ s;
  fits_mask : 0 <= mask_ s < 2 ^ 16;
  fits_shift : shift_ s = Z.max 0 (2 * (sub_level_ s - 2)) }.

Lemma SubTiles_new_fits t l m : 0 <= l <= 15 -> fits (SubTiles_new t l m).
Proof.
  intros Hl. split; simpl; [done | | apply Z.mod_pos_bound; lia |].
  - rewrite (Z.shiftl_mul_pow2 l), shl_1u_pow, pow4 by lia. f_equal. lia.
  - rewrite Z.gtb_ltb. destruct (Z.ltb_spec 2 l); [|lia].
    rewrite Z.shiftl_mul_pow2 by lia. lia.
Qed.

Lemma land_shiftl_1 x i : 0 <= i -> (Z.land x (Z.shiftl 1 i) =? 0) = negb (Z.testbit x i).
Proof.
  intros Hi. rewrite Z.shiftl_1_l. destruct (Z.testbit x i) eqn:T; cbn [negb].
  - apply Z.eqb_neq. intros E. apply (f_equal (fun y => Z.testbit y i)) in E.
    rewrite Z.land_spec, T, Z.pow2_bits_true, Z.bits_0 in E by done. done.
  - apply Z.eqb_eq. apply Z.bits_inj'. intros j Hj. rewrite Z.land_spec, Z.bits_0.
    destruct (decide (j = i)) as [->|]; [by rewrite T|].
    rewrite Z.pow2_bits_false by lia. apply andb_false_r.
Qed.

Section iteration.
Context (s : SubTiles) (Hs : fits s).

Lemma count_bounds : 1 <= count_ s < 2 ^ 32.
Proof using Hs.
  destruct Hs as [Hl -> _ _]. rewrite pow4 by lia. pose proof (pow2_pos (2 * sub_level_ s)).
  pose proof (Z.pow_lt_mono_r 2 (2 * sub_level_ s) 32). lia.
Qed.

Lemma shifted_index i : 0 <= i < count_ s -> 0 <= Z.shiftr i (shift_ s) < 16.
Proof using Hs.
  intros Hi. destruct Hs as [Hl Hc _ ->]. rewrite Hc in Hi.
  rewrite Z.shiftr_div_pow2 by lia. pose proof (pow2_pos (Z.max 0 (2 * (sub_level_ s - 2)))).
  split; [apply Z.div_pos; lia|]. apply Z.div_lt_upper_bound; [lia|].
  rewrite pow4 in Hi by lia. change 16 with (2 ^ 4). rewrite <- Z.pow_add_r by lia.
  pose proof (pow2_mono (2 * sub_level_ s) (Z.max 0 (2 * (sub_level_ s - 2)) + 4)). lia.
Qed.

(** The full mask selects every index: the early return of [Skip] is an
    optimisation only. *)
Lemma full_mask_selected i : 0 <= i < count_ s -> mask_ s = u16 (-1) -> selected s i = true.
Proof using Hs.
  intros Hi Hm. unfold selected. rewrite Hm. change (u16 (-1)) with (Z.ones 16).
  apply Z.ones_spec_low, shifted_index, Hi.
Qed.

Lemma Skip_spec i :
  0 <= i <= count_ s ->
  i <= Skip s i <= count_ s /\ (forall j, i <= j < Skip s i -> selected s j = false) /\
  (Skip s i < count_ s -> selected s (Skip s i) = true).
Proof using Hs.
  intros Hi. unfold Skip. destruct (Z.eqb_spec (mask_ s) (u16 (-1))) as [Hm|Hm].
  { split_and!; [lia | lia | lia |]. intros Hlt. apply full_mask_selected; [lia | done]. }
  clear Hm. remember (Z.to_nat (count_ s - i)) as fuel eqn:Hf.
  assert (Hfuel : count_ s - i <= Z.of_nat fuel) by lia. clear Hf.
  revert i Hi Hfuel. induction fuel as [|fuel IH]; intros i Hi Hfuel; cbn [Skip_loop].
  { split_and!; [lia.. | lia]. }
  destruct (Z.ltb_spec i (count_ s)) as [Hlt|Hge]; cbn [andb]; [|split_and!; lia].
  pose proof (shifted_index i ltac:(lia)). rewrite land_shiftl_1 by lia.
  destruct (Z.testbit (mask_ s) (Z.shiftr i (shift_ s))) eqn:T; cbn [negb].
  - split_and!; [lia | lia | lia | done].
  - destruct (IH (i + 1)) as (H1 & H2 & H3); [lia | lia |]. split_and!; [lia | lia | | done].
    intros j Hj. destruct (decide (j = i)) as [->|]; [done | apply H2; lia].
Qed.

(** Visiting from an index on yields the selected indices from there. *)
Lemma visit_loop_spec fuel i :
  0 <= i <= count_ s -> count_ s - i <= Z.of_nat fuel ->
  visit_loop fuel s (Skip s i)
  = Some (Iterator_deref s <$> List.filter (selected s) (seqZ i (count_ s - i))).
Proof using Hs.
  assert (Hend : SubTiles_end s = count_ s).
  { unfold SubTiles_end, Iterator_new. pose proof (Skip_spec (count_ s)). pose proof count_bounds. lia. }
  pose proof count_bounds.
  revert i. induction fuel as [|fuel IH]; intros i Hi Hfuel;
    destruct (Skip_spec i Hi) as (H1 & H2 & H3); cbn [visit_loop]; rewrite Hend.
  - btrue (Skip s i =? count_ s). by replace (count_ s - i) with 0 by lia.
  - replace (seqZ i (count_ s - i)) with (seqZ i (Skip s i - i) ++ seqZ (Skip s i) (count_ s - Skip s i)).
    2: { replace (count_ s - i) with (Skip s i - i + (count_ s - Skip s i)) by lia.
         rewrite seqZ_app by lia. do 2 f_equal. lia. }
    rewrite List.filter_app, (filter_none _ (seqZ i _)).
    2: { intros j Hj. apply elem_of_seqZ in Hj. apply H2. lia. }
    destruct (Z.eqb_spec (Skip s i) (count_ s)) as [->|Hne].
    { by replace (count_ s - count_ s) with 0 by lia. }
    unfold Iterator_next. rewrite u32_small, IH by (unfold is_u32; lia).
    replace (count_ s - Skip s i) with (count_ s - (Skip s i + 1) + 1) by lia.
    rewrite seqZ_succ by lia. cbn [app List.filter]. rewrite H3 by lia. done.
Qed.

Lemma SubTiles_visit_spec :
  SubTiles_visit s
  = Some (Iterator_deref s <$> List.filter (selected s) (seqZ 0 (count_ s))).
Proof using Hs.
  pose proof count_bounds. unfold SubTiles_visit, SubTiles_begin, Iterator_new.
  rewrite visit_loop_spec by lia. by rewrite Z.sub_0_r.
Qed.
End iteration.

(** The key at an index is the sub tile with that row-major position. *)
Lemma Iterator_deref_spec s i :
  fits s -> valid (tile_key_ s) -> level_ (tile_key_ s) + sub_level_ s < 32 ->
  0 <= i < count_ s ->
  let w := 2 ^ sub_level_ s in
  Iterator_deref s i
  = mkTileKey (row_ (tile_key_ s) * w + i / w) (column_ (tile_key_ s) * w + i mod w)
      (level_ (tile_key_ s) + sub_level_ s) /\ 0 <= i / w < w /\ 0 <= i mod w < w.
Proof.
  intros [Hl Hc _ _] (Hlt & Hr & Hcol) Hlevel Hi w. unfold LevelCount in Hlt.
  assert (Hw : 0 < w) by (apply pow2_pos; lia).
  assert (Hi' : 0 <= i / w < w).
  { split; [apply Z.div_pos; lia|]. apply Z.div_lt_upper_bound; [lia|].
    rewrite Hc, pow4 in Hi by lia. unfold w. rewrite <- Z.pow_add_r by lia.
    replace (sub_level_ s + sub_level_ s) with (2 * sub_level_ s) by lia. lia. }
  assert (Him : 0 <= i mod w < w) by (apply Z.mod_pos_bound; lia).
  split; [|done].
  assert (Hpow : 2 ^ level_ (tile_key_ s) * w <= 2 ^ 32)
    by (unfold w; rewrite <- Z.pow_add_r by lia; apply pow2_mono; lia).
  assert (E : forall x b, 0 <= x < 2 ^ level_ (tile_key_ s) -> 0 <= b < w ->
                Z.lor (u32 (Z.shiftl x (sub_level_ s))) b = x * w + b).
  { intros x b Hx Hb. rewrite Z.shiftl_mul_pow2 by lia. fold w. rewrite u32_small by (unfold is_u32; nia).
    symmetry. apply Z.add_nocarry_lor. apply Z.bits_inj'. intros j Hj. rewrite Z.land_spec, Z.bits_0.
    destruct (decide (j < sub_level_ s)).
    - unfold w. by rewrite Z.mul_pow2_bits_low by lia.
    - rewrite (testbit_small b (sub_level_ s)) by (fold w; lia). apply andb_false_r. }
  unfold Iterator_deref, FromRowColumnLevel. rewrite shl_1u_pow by lia. fold w.
  assert (w <= 2 ^ 15) by (apply pow2_mono; lia).
  rewrite Z.shiftr_div_pow2, (u32_small (w - 1)), (u32_small (_ + _)) by (unfold is_u32; lia).
  fold w. rewrite Z.sub_1_r. unfold w at 2. rewrite <- Z.ones_equiv, Z.land_ones by lia. fold w.
  by rewrite !E by done.
Qed.

(** ** Properties *)

(** iterating a [SubTiles] container (at most 15 levels deep) ends and visits,
    in row-major order, exactly the sub tiles whose mask bit is set; the early
    return for the full mask does not change the result. *)
Theorem SubTiles_visit_selected t level mask :
  valid t -> 0 <= level <= 15 -> level_ t + level < LevelCount ->
  let s := SubTiles_new t level mask in
  SubTiles_visit s
  = Some ((fun i => mkTileKey (row_ t * 2 ^ level + i / 2 ^ level)
                              (column_ t * 2 ^ level + i mod 2 ^ level) (level_ t + level))
          <$> List.filter (selected s) (seqZ 0 (4 ^ level))).
Proof.
  intros Hv Hl Hlt s. pose proof (SubTiles_new_fits t level mask Hl) as Hs. fold s in Hs.
  rewrite SubTiles_visit_spec by done. f_equal.
  assert (Hc : count_ s = 4 ^ level) by apply (fits_count s Hs). rewrite Hc.
  apply list_fmap_ext. intros k i Hi. apply list_elem_of_lookup_2, list_elem_of_In in Hi.
  apply filter_In in Hi as [Hi _]. apply list_elem_of_In, elem_of_seqZ in Hi.
  by destruct (Iterator_deref_spec s i Hs Hv Hlt ltac:(lia)) as [E _].
Qed.

Lemma SubTiles_visit_selected_witness :
  SubTiles_visit (SubTiles_new (mkTileKey 1 1 1) 1 6)
  = Some [mkTileKey 2 3 2; mkTileKey 3 2 2].
Proof.
  rewrite (SubTiles_visit_selected (mkTileKey 1 1 1) 1 6).
  - vm_compute. reflexivity.
  - unfold valid, LevelCount. simpl. lia.
  - lia.
  - unfold LevelCount. simpl. lia.
Defined.

(** With the full mask the visited tiles are the descendants of the tile
    [level] levels down, each exactly once. *)
Theorem SubTiles_visit_descendants t level :
  valid t -> 0 <= level <= 15 -> level_ t + level < LevelCount ->
  exists l, SubTiles_visit (SubTiles_new t level (-1)) = Some l /\ NoDup l /\
    forall x, x ∈ l <->
      valid x /\ level_ x = level_ t + level /\ ChangedLevelBy x (- level) = t.
Proof.
  intros Hv Hl Hlt. rewrite SubTiles_visit_selected by done.
  set (s := SubTiles_new t level (-1)). pose proof (SubTiles_new_fits t level (-1) Hl) as Hs. fold s in Hs.
  assert (Hall : List.filter (selected s) (seqZ 0 (4 ^ level)) = seqZ 0 (4 ^ level)).
  { apply List.forallb_filter_id, forallb_forall. intros i Hi.
    apply list_elem_of_In, elem_of_seqZ in Hi. apply full_mask_selected; [done | | done].
    change (count_ s) with (count_ s). rewrite (fits_count s Hs). simpl. lia. }
  rewrite Hall. eexists. split; [done|]. pose proof Hv as (Hlv & Hr & Hc). unfold LevelCount in *.
  assert (Hw : 0 < 2 ^ level) by (apply pow2_pos; lia).
  assert (Hsq : 4 ^ level = 2 ^ level * 2 ^ level)
    by (rewrite pow4, <- Z.pow_add_r by lia; f_equal; lia).
  assert (Hpow : 2 ^ (level_ t + level) = 2 ^ level_ t * 2 ^ level) by (apply Z.pow_add_r; lia).
  split.
  - apply NoDup_fmap_2_strong; [|apply NoDup_seqZ]. intros i j _ _ E. injection E as E1 E2.
    pose proof (Z.div_mod i (2 ^ level)). pose proof (Z.div_mod j (2 ^ level)). nia.
  - intros x. rewrite list_elem_of_fmap. split.
    + intros (i & -> & Hi). apply elem_of_seqZ in Hi.
      assert (0 <= i / 2 ^ level < 2 ^ level)
        by (split; [apply Z.div_pos | apply Z.div_lt_upper_bound]; lia).
      pose proof (Z.mod_pos_bound i (2 ^ level)).
      assert (Hvx : valid (mkTileKey (row_ t * 2 ^ level + i / 2 ^ level)
        (column_ t * 2 ^ level + i mod 2 ^ level) (level_ t + level)))
        by (unfold valid, LevelCount; simpl; rewrite Hpow; nia).
      split_and!; [done | done |]. rewrite ChangedLevelBy_up by (done || simpl; lia). simpl.
      rewrite !Z.div_add_l, (Z.div_small (i / _)), (Z.div_small (i mod _)) by lia.
      destruct t; simpl. f_equal; lia.
    + intros (Hvx & El & Et). rewrite ChangedLevelBy_up in Et by (done || lia).
      destruct x as [xr xc xl]. simpl in *. subst xl. destruct Hvx as (_ & Hxr & Hxc). simpl in *.
      exists (xr mod 2 ^ level * 2 ^ level + xc mod 2 ^ level).
      pose proof (Z.mod_pos_bound xr (2 ^ level) Hw). pose proof (Z.mod_pos_bound xc (2 ^ level) Hw).
      rewrite <- (Z.div_unique (xr mod 2 ^ level * 2 ^ level + xc mod 2 ^ level) (2 ^ level) (xr mod 2 ^ level) (xc mod 2 ^ level)) by lia.
      rewrite <- (Z.mod_unique (xr mod 2 ^ level * 2 ^ level + xc mod 2 ^ level) (2 ^ level) (xr mod 2 ^ level) (xc mod 2 ^ level)) by lia.
      rewrite <- Et. simpl. rewrite <- !split_pow2 by lia.
      split; [done|]. apply elem_of_seqZ. nia.
Qed.

Lemma SubTiles_visit_descendants_witness :
  exists l, SubTiles_visit (SubTiles_new (mkTileKey 1 1 1) 2 (-1)) = Some l /\ NoDup l.
Proof.
  destruct (SubTiles_visit_descendants (mkTileKey 1 1 1) 2) as (l & H1 & H2 & _).
  - unfold valid, LevelCount. simpl. lia.
  - lia.
  - unfold LevelCount. simpl. lia.
  - exists l. split; [exact H1 | exact H2].
Defined.

(** For every lawful scheme the traversal visits as many children of a tile
    as the scheme subdivides it into, in the order of [GetChild]; this covers
    the root of the half quadtree, which has two children only. *)
Theorem SubNodes_children {S} `{SubdivisionLaws S} (scheme : S) t :
  valid t -> level_ t < MaxLevel ->
  SubTiles_visit (SubNodes scheme t)
  = Some (GetChild t <$>
      seqZ 0 (fst (GetSubdivisionAt scheme (level_ t)) * snd (GetSubdivisionAt scheme (level_ t)))).
Proof.
  intros Hv Hl. unfold MaxLevel, LevelCount in Hl. unfold SubNodes.
  pose proof (subdivision_small scheme (level_ t)) as Hn.
  set (n := fst _ * snd _) in *. rewrite (u32_small n) by (unfold is_u32; lia).
  assert (Hn' : n = 1 \/ n = 2 \/ n = 3 \/ n = 4) by lia. clearbody n.
  assert (E : GetChild t <$> seqZ 0 n = (fun i => mkTileKey (row_ t * 2 ^ 1 + i / 2 ^ 1)
      (column_ t * 2 ^ 1 + i mod 2 ^ 1) (level_ t + 1)) <$> seqZ 0 n).
  { apply list_fmap_ext. intros k i Hi. apply list_elem_of_lookup_2, elem_of_seqZ in Hi.
    rewrite GetChild_spec by (done || lia). change (2 ^ 1) with 2. f_equal; lia. }
  rewrite E, SubTiles_visit_selected by (done || unfold LevelCount; lia).
  by destruct Hn' as [-> | [-> | [-> | ->]]].
Qed.

Lemma SubNodes_children_witness :
  SubTiles_visit (SubNodes HalfQuadTree (mkTileKey 0 0 0)) = Some [mkTileKey 0 0 1; mkTileKey 0 1 1].
Proof.
  rewrite (SubNodes_children HalfQuadTree (mkTileKey 0 0 0)).
  - vm_compute. reflexivity.
  - unfold valid, LevelCount. simpl. lia.
  - unfold MaxLevel, LevelCount. simpl. lia.
Defined.

(** Making a key relative to an ancestor level and absolute again is the
    identity, and the relative key is a valid key of the sub tree. *)
Theorem relative_absolute_roundtrip t l :
  valid t -> 0 <= l <= level_ t ->
  GetAbsoluteSubTileKey (ChangedLevelTo t l) (GetRelativeSubTileKey t l) = t /\
  valid (GetRelativeSubTileKey t l) /\ level_ (GetRelativeSubTileKey t l) = level_ t - l.
Proof.
  intros Hv Hl. pose proof Hv as (Hlv & Hr & Hc). unfold LevelCount in Hlv.
  set (d := level_ t - l). assert (Hd : 0 <= d <= level_ t) by (unfold d; lia).
  pose proof (ancestor_valid t d Hv Hd) as Hva.
  assert (Ha : ChangedLevelTo t l = mkTileKey (row_ t / 2 ^ d) (column_ t / 2 ^ d) (level_ t - d)).
  { rewrite ChangedLevelTo_spec by (done || lia). replace (l - level_ t) with (- d) by (unfold d; lia).
    by apply ChangedLevelBy_up. }
  pose proof (mod_pow2_range (row_ t) d ltac:(lia)). pose proof (mod_pow2_range (column_ t) d ltac:(lia)).
  pose proof (pow2_mono (level_ t) 32 ltac:(lia)).
  assert (Hrel : GetRelativeSubTileKey t l = mkTileKey (row_ t mod 2 ^ d) (column_ t mod 2 ^ d) d).
  { unfold GetRelativeSubTileKey. rewrite Ha, ChangedLevelTo_spec by (done || lia).
    rewrite ChangedLevelBy_down by (done || simpl; lia). unfold FromRowColumnLevel. cbn [row_ column_ level_].
    replace (level_ t - (level_ t - d)) with d by lia.
    pose proof (split_pow2 (row_ t) d ltac:(lia)) as H2.
    pose proof (split_pow2 (column_ t) d ltac:(lia)) as H3.
    assert (Hu : forall x q r, x = q + r -> 0 <= r < 2 ^ d -> u32 (x - q) = r).
    { intros x q r -> Hr'. pose proof (pow2_mono d 32 ltac:(lia)).
      replace (q + r - q) with r by lia. apply u32_small. unfold is_u32. lia. }
    rewrite (Hu _ _ _ H2), (Hu _ _ _ H3) by done. fold d. by rewrite u32_small by (unfold is_u32; lia). }
  rewrite Ha, Hrel. split_and!.
  - unfold GetAbsoluteSubTileKey. cbn [row_ column_ level_]. rewrite s32_small by lia.
    rewrite ChangedLevelBy_down by (done || simpl; lia). unfold FromRowColumnLevel. cbn [row_ column_ level_].
    rewrite <- !split_pow2, !u32_small by (unfold is_u32; lia). destruct t; simpl. f_equal. lia.
  - unfold valid, LevelCount. simpl. lia.
  - done.
Qed.

Lemma relative_absolute_roundtrip_witness :
  GetAbsoluteSubTileKey (ChangedLevelTo (mkTileKey 3 5 3) 1) (GetRelativeSubTileKey (mkTileKey 3 5 3) 1)
  = mkTileKey 3 5 3.
Proof. apply relative_absolute_roundtrip; [unfold valid, LevelCount; simpl; lia | simpl; lia]. Defined.
