(* ===== verification/LruCache.v ===== *)
(** * The LRU cache

    Model of [olp::utils::LruCache] (include/olp/core/utils/LruCache.h): a map
    whose buckets are chained from the most to the least recently used one by
    iterators into the map itself.  An iterator is [Some key], or [None] for
    [map_.end()]; dereferencing the end or an erased element is undefined
    behaviour, which the model shows as the result [None] of the operation.  The
    eviction callback is modelled by the list of its calls, oldest first.

    The second half of the file gives the specification, a list of pairs from
    the most to the least recently used one, and the refinement. *)

From S2P Require Import Prelude.

Record Bucket (K V : Type) := mkBucket { next_ : option K; previous_ : option K; value_ : V }.
Arguments mkBucket {K V}.
Arguments next_ {K V}.
Arguments previous_ {K V}.
Arguments value_ {K V}.

Section lru.
Context {K V : Type} `{Countable K}.
Context (cache_cost_func_ : V -> Z).

Record LruCache := mkLru {
  map_ : gmap K (Bucket K V);
  first_ : option K;
  last_ : option K;
  max_size_ : Z;
  size_ : Z }.

(** The state of an operation: the cache and the calls of the callback so far. *)
Definition evictions := list (K * V).

Definition LruCache_new (maxSize : Z) : LruCache := mkLru ∅ None None maxSize 0.

Definition setNext (m : gmap K (Bucket K V)) (it n : option K) : option (gmap K (Bucket K V)) :=
  k ← it; b ← m !! k; Some (<[k := mkBucket n (previous_ b) (value_ b)]> m).

Definition setPrevious (m : gmap K (Bucket K V)) (it p : option K) : option (gmap K (Bucket K V)) :=
  k ← it; b ← m !! k; Some (<[k := mkBucket (next_ b) p (value_ b)]> m).

(** [Promote(it)] *)
Definition Promote (c : LruCache) (it : K) : option LruCache :=
  if decide (Some it = first_ c) then Some c
  else
    b ← map_ c !! it;
    m1 ← setNext (map_ c) (previous_ b) (next_ b);
    '(m2, last) ←
      (match next_ b with
       | Some _ => m ← setPrevious m1 (next_ b) (previous_ b); Some (m, last_ c)
       | None => Some (m1, previous_ b)
       end);
    m3 ← setPrevious m2 (Some it) None;
    m4 ← setNext m3 (Some it) (first_ c);
    m5 ← setPrevious m4 (first_ c) (Some it);
    Some (mkLru m5 (Some it) last (max_size_ c) (size_ c)).

(** [Erase(it, doEvictionCallback)], with the call of the callback it makes. *)
Definition Erase_it (c : LruCache) (it : K) (doEvictionCallback : bool)
  : option (LruCache * evictions) :=
  b ← map_ c !! it;
  let cost := cache_cost_func_ (value_ b) in
  '(m1, last) ←
    (match next_ b with
     | None => Some (map_ c, previous_ b)
     | Some _ => m ← setPrevious (map_ c) (next_ b) (previous_ b); Some (m, last_ c)
     end);
  '(m2, first) ←
    (match previous_ b with
     | None => Some (m1, next_ b)
     | Some _ => m ← setNext m1 (previous_ b) (next_ b); Some (m, first_ c)
     end);
  Some (mkLru (delete it m2) first last (max_size_ c) (u64 (size_ c - cost)),
        if doEvictionCallback then [(it, value_ b)] else []).

Definition PopLast (c : LruCache) : option (LruCache * evictions) :=
  it ← last_ c; Erase_it c it true.

(** [while (size_ > max_size_) PopLast();] every round removes a bucket. *)
Fixpoint evict_loop (fuel : nat) (c : LruCache) : option (LruCache * evictions) :=
  if size_ c >? max_size_ c then
    match fuel with
    | O => None
    | S fuel =>
        '(c, e) ← PopLast c;
        '(c, e') ← evict_loop fuel c;
        Some (c, e ++ e')
    end
  else Some (c, []).

Definition evict (c : LruCache) : option (LruCache * evictions) := evict_loop (size (map_ c)) c.

(** [AddInternal(it, cost, oldCost)] *)
Definition AddInternal (c : LruCache) (it : K) (cost : Z) (oldCost : option Z)
  : option (LruCache * evictions) :=
  c ← match oldCost with
      | None =>
          if decide (size (map_ c) = 1%nat) then
            Some (mkLru (map_ c) (Some it) (Some it) (max_size_ c) (u64 (size_ c + cost)))
          else
            m1 ← setNext (map_ c) (Some it) (first_ c);
            m2 ← setPrevious m1 (first_ c) (Some it);
            Some (mkLru m2 (Some it) (last_ c) (max_size_ c) (u64 (size_ c + cost)))
      | Some oldCost =>
          Promote (mkLru (map_ c) (first_ c) (last_ c) (max_size_ c)
                     (u64 (size_ c + (cost - oldCost)))) it
      end;
  evict c.

(** The results of the operations: the iterator and flag of the insertions, the
    flag of [Erase], the iterator of the look-ups. *)
Definition Insert (c : LruCache) (key : K) (value : V)
  : option (LruCache * evictions * (option K * bool)) :=
  let valueCost := cache_cost_func_ value in
  if valueCost >? max_size_ c then Some (c, [], (None, false))
  else
    match map_ c !! key with
    | None =>
        '(c, e) ← AddInternal (mkLru (<[key := mkBucket None None value]> (map_ c))
                                 (first_ c) (last_ c) (max_size_ c) (size_ c)) key valueCost None;
        Some (c, e, (Some key, true))
    | Some _ =>
        c ← Promote c key; Some (c, [], (Some key, false))
    end.

Definition InsertOrAssign (c : LruCache) (key : K) (value : V)
  : option (LruCache * evictions * (option K * bool)) :=
  match map_ c !! key with
  | Some b =>
      let oldCost := cache_cost_func_ (value_ b) in
      let newCost := cache_cost_func_ value in
      '(c, e) ← AddInternal
        (mkLru (<[key := mkBucket (next_ b) (previous_ b) value]> (map_ c))
           (first_ c) (last_ c) (max_size_ c) (size_ c)) key newCost (Some oldCost);
      Some (c, e, (Some key, false))
  | None =>
      let newCost := cache_cost_func_ value in
      if newCost >? max_size_ c then Some (c, [], (None, false))
      else
        '(c, e) ← AddInternal (mkLru (<[key := mkBucket None None value]> (map_ c))
                                 (first_ c) (last_ c) (max_size_ c) (size_ c)) key newCost None;
        Some (c, e, (Some key, true))
  end.

Definition Erase (c : LruCache) (key : K) : option (LruCache * bool) :=
  match map_ c !! key with
  | None => Some (c, false)
  | Some _ => '(c, _) ← Erase_it c key false; Some (c, true)
  end.

Definition Size (c : LruCache) : Z := size_ c.
Definition GetMaxSize (c : LruCache) : Z := max_size_ c.

Definition Resize (c : LruCache) (maxSize : Z) : option (LruCache * evictions) :=
  evict (mkLru (map_ c) (first_ c) (last_ c) maxSize (size_ c)).

Definition FindNoPromote (c : LruCache) (key : K) : option K :=
  match map_ c !! key with Some _ => Some key | None => None end.

Definition Find (c : LruCache) (key : K) : option (LruCache * option K) :=
  match map_ c !! key with
  | Some _ => c ← Promote c key; Some (c, Some key)
  | None => Some (c, None)
  end.

(** [it.value()] and [++it] *)
Definition iterator_value (c : LruCache) (it : option K) : option V :=
  k ← it; b ← map_ c !! k; Some (value_ b).
Definition iterator_next (c : LruCache) (it : option K) : option (option K) :=
  k ← it; b ← map_ c !! k; Some (next_ b).

Definition Find_value (c : LruCache) (key : K) (nullValue : V) : option (LruCache * V) :=
  '(c, it) ← Find c key;
  match it with
  | None => Some (c, nullValue)
  | Some _ => v ← iterator_value c it; Some (c, v)
  end.

(** [Erase(const_iterator& it)]: the iterator to the element after the erased one. *)
Definition Erase_iterator (c : LruCache) (it : option K) : option (LruCache * option K) :=
  k ← it;
  n ← iterator_next c it;
  '(c, _) ← Erase c k;
  Some (c, n).

Definition Clear (c : LruCache) : LruCache := mkLru ∅ None None (max_size_ c) 0.

Definition cache_begin (c : LruCache) : option K := first_ c.
Definition cache_rbegin (c : LruCache) : option K := last_ c.

(** [LruCache(LruCache&& other)]: the moved iterators stay those of the buckets.
    The end iterator of the source is not the end iterator of the new map, so the
    constructor dereferences it when the source is empty. *)
Definition LruCache_move (other : LruCache) : option LruCache :=
  f ← first_ other;
  _ ← map_ other !! f;
  l ← last_ other;
  _ ← map_ other !! l;
  Some (mkLru (map_ other) (Some f) (Some l) (max_size_ other) (size_ other)).

(** ** The specification: a list, most recently used first *)

Definition total (l : list (K * V)) : Z := foldr (fun p s => cache_cost_func_ (p.2) + s) 0 l.

Definition assoc (k : K) (l : list (K * V)) : option V :=
  snd <$> List.find (fun p => bool_decide (p.1 = k)) l.

Definition remove_key (k : K) (l : list (K * V)) : list (K * V) :=
  List.filter (fun p => negb (bool_decide (p.1 = k))) l.

(** Least recently used first: the pairs that stay and the pairs dropped. *)
Fixpoint spec_evict_rev (max : Z) (r : list (K * V)) : list (K * V) * list (K * V) :=
  match r with
  | [] => ([], [])
  | p :: r' =>
      if total r >? max then let '(keep, e) := spec_evict_rev max r' in (keep, p :: e) else (r, [])
  end.

Definition spec_evict (max : Z) (l : list (K * V)) : list (K * V) * list (K * V) :=
  let '(keep, e) := spec_evict_rev max (reverse l) in (reverse keep, e).

Record spec := mkSpec { spec_max : Z; spec_list : list (K * V) }.

Inductive op :=
| OpInsert (k : K) (v : V)
| OpInsertOrAssign (k : K) (v : V)
| OpErase (k : K)
| OpFind (k : K)
| OpFindNoPromote (k : K)
| OpResize (max : Z)
| OpClear.

Inductive result :=
| RInsert (it : option K) (inserted : bool)
| RErase (erased : bool)
| RFind (v : option V)
| RUnit.

(** What each operation does to the list, the calls of the callback and the
    result; a look-up is observed through the value it finds. *)
Definition spec_step (o : op) (s : spec) : spec * evictions * result :=
  let max := spec_max s in
  let l := spec_list s in
  match o with
  | OpInsert k v =>
      if cache_cost_func_ v >? max then (s, [], RInsert None false)
      else match assoc k l with
           | Some old => (mkSpec max ((k, old) :: remove_key k l), [], RInsert (Some k) false)
           | None =>
               let '(l', e) := spec_evict max ((k, v) :: l) in
               (mkSpec max l', e, RInsert (Some k) true)
           end
  | OpInsertOrAssign k v =>
      match assoc k l with
      | Some old =>
          let '(l', e) := spec_evict max ((k, v) :: remove_key k l) in
          (mkSpec max l', e, RInsert (Some k) false)
      | None =>
          if cache_cost_func_ v >? max then (s, [], RInsert None false)
          else let '(l', e) := spec_evict max ((k, v) :: l) in
               (mkSpec max l', e, RInsert (Some k) true)
      end
  | OpErase k =>
      (mkSpec max (remove_key k l), [], RErase (bool_decide (is_Some (assoc k l))))
  | OpFind k =>
      match assoc k l with
      | Some v => (mkSpec max ((k, v) :: remove_key k l), [], RFind (Some v))
      | None => (s, [], RFind None)
      end
  | OpFindNoPromote k => (s, [], RFind (assoc k l))
  | OpResize max' => let '(l', e) := spec_evict max' l in (mkSpec max' l', e, RUnit)
  | OpClear => (mkSpec max [], [], RUnit)
  end.

(** The same operations on the cache; [None] when one of them has undefined
    behaviour. *)
Definition step (o : op) (c : LruCache) : option (LruCache * evictions * result) :=
  match o with
  | OpInsert k v => '(c, e, (it, b)) ← Insert c k v; Some (c, e, RInsert it b)
  | OpInsertOrAssign k v => '(c, e, (it, b)) ← InsertOrAssign c k v; Some (c, e, RInsert it b)
  | OpErase k => '(c, b) ← Erase c k; Some (c, [], RErase b)
  | OpFind k => '(c, it) ← Find c k; Some (c, [], RFind (iterator_value c it))
  | OpFindNoPromote k => Some (c, [], RFind (iterator_value c (FindNoPromote c k)))
  | OpResize max => '(c, e) ← Resize c max; Some (c, e, RUnit)
  | OpClear => Some (Clear c, [], RUnit)
  end.

Fixpoint run (ops : list op) (c : LruCache) : option (LruCache * evictions * list result) :=
  match ops with
  | [] => Some (c, [], [])
  | o :: ops =>
      '(c, e, r) ← step o c;
      '(c, e', rs) ← run ops c;
      Some (c, e ++ e', r :: rs)
  end.

Fixpoint spec_run (ops : list op) (s : spec) : spec * evictions * list result :=
  match ops with
  | [] => (s, [], [])
  | o :: ops =>
      let '(s, e, r) := spec_step o s in
      let '(s, e', rs) := spec_run ops s in
      (s, e ++ e', r :: rs)
  end.

End lru.


(** ** The representation relation *)

Section repr.
Context {K V : Type} `{Countable K}.
Abbreviation keys l := (fst <$> l).

Definition hd_key (l : list (K * V)) : option K := fst <$> head l.
Definition last_key (l : list (K * V)) : option K := fst <$> last l.

(** Every bucket of the list is in the map and linked to its neighbours. *)
Definition chain (m : gmap K (Bucket K V)) (l : list (K * V)) : Prop :=
  NoDup (keys l) /\
  forall l1 k v l2, l = l1 ++ (k, v) :: l2 ->
    m !! k = Some (mkBucket (hd_key l2) (last_key l1) v).

Record linked (c : LruCache) (l : list (K * V)) : Prop := {
  linked_chain : chain (map_ c) l;
  linked_closed : forall k, k ∉ keys l -> map_ c !! k = None;
  linked_first : first_ c = hd_key l;
  linked_last : last_ c = last_key l }.

Lemma last_key_snoc l k v : last_key (l ++ [(k, v)]) = Some k.
Proof. unfold last_key. by rewrite last_snoc. Qed.

Lemma last_key_app_cons l1 p l2 : last_key (l1 ++ p :: l2) = last_key (p :: l2).
Proof. unfold last_key. rewrite last_app, last_cons. by destruct (last l2). Qed.

Lemma last_key_cons_cons p q l : last_key (p :: q :: l) = last_key (q :: l).
Proof. done. Qed.

Lemma key_app k (l1 l2 : list (K * V)) : k ∈ keys (l1 ++ l2) <-> k ∈ keys l1 \/ k ∈ keys l2.
Proof. by rewrite fmap_app, elem_of_app. Qed.

Lemma key_cons k k' v (l : list (K * V)) : k ∈ keys ((k', v) :: l) <-> k = k' \/ k ∈ keys l.
Proof. by rewrite fmap_cons, elem_of_cons. Qed.

Lemma key_nil k : k ∈ keys (@nil (K * V)) <-> False.
Proof. by rewrite elem_of_nil. Qed.

Lemma keys_middle (l1 : list (K * V)) k v l2 :
  NoDup (keys (l1 ++ (k, v) :: l2)) -> k ∉ keys l1 /\ k ∉ keys l2 /\ NoDup (keys (l1 ++ l2)) /\
  (forall k', k' ∈ keys l1 -> k' ∈ keys l2 -> False).
Proof.
  rewrite !fmap_app, fmap_cons. simpl. rewrite !NoDup_app, NoDup_cons.
  intros (H1 & H2 & H3 & H4).
  assert (k ∉ keys l1) by (intros Hk; apply (H2 k Hk); left).
  split_and!; try done; intros k' Hk' ?; apply (H2 k' Hk'); by right.
Qed.

Ltac keys_tac :=
  repeat match goal with
    | H : context [_ ∈ _ <$> (_ ++ _)] |- _ => rewrite key_app in H
    | H : context [_ ∈ _ <$> (_ :: _)] |- _ => rewrite key_cons in H
    | H : context [_ ∈ _ <$> []] |- _ => rewrite key_nil in H
    end;
  rewrite ?key_app, ?key_cons, ?key_nil; tauto.

Lemma hd_key_elem l k : hd_key l = Some k -> k ∈ keys l.
Proof. destruct l as [|[k' v] l]; [done|]. cbn. intros [= ->]. left. Qed.

Lemma last_key_elem l k : last_key l = Some k -> k ∈ keys l.
Proof.
  destruct l as [|[k' v] l] using rev_ind; simpl; [done|].
  rewrite last_key_snoc, fmap_app. intros [= ->]. apply elem_of_app. right. cbn. left.
Qed.

Lemma chain_lookup m l k : chain m l -> k ∈ keys l -> exists l1 v l2,
  l = l1 ++ (k, v) :: l2 /\ m !! k = Some (mkBucket (hd_key l2) (last_key l1) v).
Proof.
  intros [_ Hc] Hk. apply list_elem_of_fmap in Hk as ([k' v] & -> & Hin).
  apply list_elem_of_split in Hin as (l1 & l2 & ->). eauto 10.
Qed.

Lemma chain_assoc m l k v : chain m l -> (k, v) ∈ l -> value_ <$> m !! k = Some v.
Proof.
  intros [_ Hc] Hin. apply list_elem_of_split in Hin as (l1 & l2 & ->). by rewrite (Hc l1 k v l2).
Qed.

(** Taking a bucket out of the chain: only its neighbours change. *)
Lemma chain_unlink m m' l1 k v l2 :
  chain m (l1 ++ (k, v) :: l2) ->
  (forall k' b, m !! k' = Some b -> k' <> k ->
     m' !! k' = Some (mkBucket (if decide (last_key l1 = Some k') then hd_key l2 else next_ b)
                               (if decide (hd_key l2 = Some k') then last_key l1 else previous_ b)
                               (value_ b))) ->
  chain m' (l1 ++ l2).
Proof.
  intros [Hnd Hc] Hm'. destruct (keys_middle _ _ _ _ Hnd) as (Hk1 & Hk2 & Hnd' & Hdisj).
  split; [done|]. intros a k' v' b E.
  apply app_eq_inv in E as [(w & -> & E)|(w & -> & ->)].
  - destruct w as [|[k2 v2] w']; simpl in E.
    + subst l2. rewrite app_nil_r in *.
      assert (k' <> k) by (intros ->; apply Hk2; keys_tac).
      rewrite (Hm' k' (mkBucket (hd_key b) (last_key (a ++ [(k, v)])) v')); [|by apply Hc; rewrite <- app_assoc|done].
      simpl. rewrite decide_False, decide_True; [done| done |].
      intros E%last_key_elem. apply (Hdisj k'); keys_tac.
    + injection E as <- <- ->.
      assert (k' <> k) by (intros ->; apply Hk1; keys_tac).
      rewrite (Hm' k' (mkBucket (hd_key (w' ++ (k, v) :: l2)) (last_key a) v')); [|by apply Hc; rewrite <- app_assoc|done].
      simpl. rewrite (decide_False (P := hd_key l2 = Some k')).
      2: { intros E%hd_key_elem. apply (Hdisj k'); keys_tac. }
      destruct w' as [|[k3 v3] w''].
      * rewrite last_key_snoc, decide_True by done. done.
      * rewrite decide_False; [done|].
        rewrite last_key_app_cons, last_key_cons_cons. intros E%last_key_elem.
        rewrite <- app_assoc in Hnd. simpl in Hnd.
        apply (keys_middle a) in Hnd as (_ & Hn & _). keys_tac.
  - assert (k' <> k) by (intros ->; apply Hk2; keys_tac).
    rewrite (Hm' k' (mkBucket (hd_key b) (last_key (l1 ++ (k, v) :: w)) v')); [| by apply Hc; rewrite <- app_assoc|done].
    simpl. rewrite decide_False.
    2: { intros E%last_key_elem. apply (Hdisj k'); keys_tac. }
    f_equal. destruct w as [|[k3 v3] w'].
    + simpl. rewrite decide_True by done. by rewrite app_nil_r.
    + rewrite decide_False.
      2: { simpl. intros [= ->]. rewrite fmap_app in Hnd. apply NoDup_app in Hnd as (_ & _ & Hnd).
           apply (keys_middle [(k, v)] k' v3 (w' ++ (k', v') :: b)) in Hnd as (_ & Hn & _). keys_tac. }
      by rewrite !last_key_app_cons, last_key_cons_cons.
Qed.

(** Putting a bucket in front of the chain. *)
Lemma chain_push m m' k v l :
  chain m l -> k ∉ keys l ->
  m' !! k = Some (mkBucket (hd_key l) None v) ->
  (forall k' b, m !! k' = Some b -> k' <> k ->
     m' !! k' = Some (mkBucket (next_ b) (if decide (hd_key l = Some k') then Some k else previous_ b)
                               (value_ b))) ->
  chain m' ((k, v) :: l).
Proof.
  intros [Hnd Hc] Hk Hmk Hm'. split; [by apply NoDup_cons|].
  intros l1 k' v' l2 E. destruct l1 as [|[k1 v1] l1]; simpl in E.
  - by injection E as <- <- <-.
  - injection E as <- <- ->.
    assert (k' <> k) by (intros ->; apply Hk; keys_tac).
    rewrite (Hm' k' _ (Hc l1 k' v' l2 eq_refl)) by done. simpl. f_equal.
    destruct l1 as [|[k2 v2] l1].
    + simpl. by rewrite decide_True.
    + rewrite decide_False; [by rewrite last_key_cons_cons|].
      simpl. intros [= ->]. apply (keys_middle [] k' v2 (l1 ++ (k', v') :: l2)) in Hnd as (_ & Hn & _). keys_tac.
Qed.

(** ** Single link updates *)

Lemma setNext_spec (m : gmap K (Bucket K V)) k b n :
  m !! k = Some b -> setNext m (Some k) n = Some (<[k := mkBucket n (previous_ b) (value_ b)]> m).
Proof. intros E. unfold setNext. simpl. by rewrite E. Qed.

Lemma setPrevious_spec (m : gmap K (Bucket K V)) k b p :
  m !! k = Some b -> setPrevious m (Some k) p = Some (<[k := mkBucket (next_ b) p (value_ b)]> m).
Proof. intros E. unfold setPrevious. simpl. by rewrite E. Qed.

Lemma linked_lookup c l1 k v l2 :
  linked c (l1 ++ (k, v) :: l2) -> map_ c !! k = Some (mkBucket (hd_key l2) (last_key l1) v).
Proof. intros [[_ Hc] _ _ _]. by apply Hc. Qed.

Lemma linked_closed_sub c l1 k v l2 (m' : gmap K (Bucket K V)) :
  linked c (l1 ++ (k, v) :: l2) ->
  (forall k', map_ c !! k' = None -> k' <> k -> m' !! k' = None) ->
  forall k', k' ∉ keys (l1 ++ l2) -> k' <> k -> m' !! k' = None.
Proof.
  intros [_ Hcl _ _] Hm' k' Hk' Hne. apply Hm'; [|done]. apply Hcl.
  keys_tac.
Qed.

(** The keys around a bucket are distinct buckets of the map. *)
Lemma neighbours c l1 k v l2 :
  linked c (l1 ++ (k, v) :: l2) ->
  match last_key l1 with
  | Some p => p <> k /\ hd_key l2 <> Some p /\ is_Some (map_ c !! p)
  | None => l1 = []
  end /\
  match hd_key l2 with
  | Some n => n <> k /\ is_Some (map_ c !! n)
  | None => l2 = []
  end.
Proof.
  intros [Hch _ _ _]. pose proof Hch as [Hnd _].
  destruct (keys_middle _ _ _ _ Hnd) as (Hk1 & Hk2 & _ & Hdisj). split.
  - destruct (last_key l1) as [p|] eqn:E.
    + apply last_key_elem in E. split_and!.
      * by intros ->.
      * intros E2%hd_key_elem. by apply (Hdisj p).
      * destruct (chain_lookup _ _ p Hch) as (? & ? & ? & _ & ->); [|done]. keys_tac.
    + destruct l1 as [|[k1 v1] l1] using rev_ind; [done|]. by rewrite last_key_snoc in E.
  - destruct (hd_key l2) as [n|] eqn:E.
    + apply hd_key_elem in E. split.
      * by intros ->.
      * destruct (chain_lookup _ _ n Hch) as (? & ? & ? & _ & ->); [|done].
        keys_tac.
    + by destruct l2.
Qed.

Lemma hd_key_app l1 l2 : hd_key (l1 ++ l2) = match hd_key l1 with Some k => Some k | None => hd_key l2 end.
Proof. by destruct l1. Qed.

Lemma last_key_app l1 l2 : last_key (l1 ++ l2) = match last_key l2 with Some k => Some k | None => last_key l1 end.
Proof. unfold last_key. rewrite last_app. by destruct (last l2). Qed.

Lemma hd_key_middle l1 k v l2 : l1 <> [] -> hd_key (l1 ++ (k, v) :: l2) = hd_key (l1 ++ l2).
Proof. by destruct l1. Qed.
#[local] Arguments setNext : simpl never.
#[local] Arguments setPrevious : simpl never.


(** The bucket of [k'] once the bucket between [l1] and [l2] is taken out. *)
Definition relink (l1 l2 : list (K * V)) (k' : K) (b : Bucket K V) : Bucket K V :=
  mkBucket (if decide (last_key l1 = Some k') then hd_key l2 else next_ b)
           (if decide (hd_key l2 = Some k') then last_key l1 else previous_ b)
           (value_ b).

Definition unlinks (m : gmap K (Bucket K V)) (l1 l2 : list (K * V)) (m' : gmap K (Bucket K V)) : Prop :=
  forall k', m' !! k' = relink l1 l2 k' <$> m !! k'.

Lemma unlinks_chain m m' l1 k v l2 :
  chain m (l1 ++ (k, v) :: l2) -> unlinks m l1 l2 m' -> chain m' (l1 ++ l2).
Proof. intros Hc Hu. eapply chain_unlink; [done|]. intros k' b E _. by rewrite (Hu k'), E. Qed.

Lemma unlinks_self c m' l1 k v l2 :
  linked c (l1 ++ (k, v) :: l2) -> unlinks (map_ c) l1 l2 m' ->
  m' !! k = Some (mkBucket (hd_key l2) (last_key l1) v).
Proof.
  intros Hl Hu. rewrite (Hu k), (linked_lookup _ _ _ _ _ Hl). simpl. f_equal. unfold relink. simpl.
  pose proof (neighbours _ _ _ _ _ Hl) as [H1 H2]. f_equal.
  - destruct (last_key l1) as [p|]; [|done]. rewrite decide_False; [done|]. intros [= ->]. tauto.
  - destruct (hd_key l2) as [n|]; [|done]. rewrite decide_False; [done|]. intros [= ->]. tauto.
Qed.

Definition with_next (n : option K) (b : Bucket K V) : Bucket K V := mkBucket n (previous_ b) (value_ b).
Definition with_previous (p : option K) (b : Bucket K V) : Bucket K V := mkBucket (next_ b) p (value_ b).

Definition alter_it (f : Bucket K V -> Bucket K V) (it : option K) (m : gmap K (Bucket K V)) :=
  match it with Some k => alter f k m | None => m end.

Lemma lookup_alter_it f it m k :
  alter_it f it m !! k = (if decide (it = Some k) then f <$> m !! k else m !! k).
Proof.
  destruct it as [k'|]; case_decide as E; try done; simpl.
  - injection E as ->. apply lookup_alter_eq.
  - apply lookup_alter_ne. congruence.
Qed.

Lemma setNext_alter m it n : is_Some (it ≫= (m !!.)) ->
  setNext m it n = Some (alter_it (with_next n) it m).
Proof.
  destruct it as [k|]; intros [b E]; [|done]. simpl in E. rewrite (setNext_spec _ _ _ _ E). simpl. f_equal.
  apply map_eq. intros k'. destruct (decide (k = k')) as [->|].
  - by rewrite lookup_insert_eq, lookup_alter_eq, E.
  - by rewrite lookup_insert_ne, lookup_alter_ne.
Qed.

Lemma setPrevious_alter m it p : is_Some (it ≫= (m !!.)) ->
  setPrevious m it p = Some (alter_it (with_previous p) it m).
Proof.
  destruct it as [k|]; intros [b E]; [|done]. simpl in E. rewrite (setPrevious_spec _ _ _ _ E). simpl. f_equal.
  apply map_eq. intros k'. destruct (decide (k = k')) as [->|].
  - by rewrite lookup_insert_eq, lookup_alter_eq, E.
  - by rewrite lookup_insert_ne, lookup_alter_ne.
Qed.

Lemma alter_it_is_Some f it m (it' : option K) :
  is_Some (it' ≫= (m !!.)) -> is_Some (it' ≫= (alter_it f it m !!.)).
Proof.
  destruct it' as [k|]; [|done]. simpl. rewrite lookup_alter_it. case_decide; [|done]. by intros [b ->].
Qed.

Lemma relink_alter m l1 l2 :
  unlinks m l1 l2 (alter_it (with_previous (last_key l1)) (hd_key l2)
                     (alter_it (with_next (hd_key l2)) (last_key l1) m)) /\
  unlinks m l1 l2 (alter_it (with_next (hd_key l2)) (last_key l1)
                     (alter_it (with_previous (last_key l1)) (hd_key l2) m)).
Proof.
  split; intros k; rewrite !lookup_alter_it; unfold relink; destruct (m !! k) as [[]|]; simpl;
    repeat case_decide; done.
Qed.

(** The neighbours of a bucket are in the map, and the last key survives unless
    the bucket is the last one. *)
Lemma neighbours_in c l1 k v l2 :
  linked c (l1 ++ (k, v) :: l2) ->
  (l1 <> [] -> is_Some (last_key l1 ≫= (map_ c !!.))) /\
  (l2 <> [] -> is_Some (hd_key l2 ≫= (map_ c !!.))).
Proof.
  intros Hl. pose proof (neighbours _ _ _ _ _ Hl) as [H1 H2]. split; intros Hne.
  - destruct (last_key l1); [apply H1|done].
  - destruct (hd_key l2); [apply H2|done].
Qed.

Lemma hd_key_None l : hd_key l = None <-> l = [].
Proof. by destruct l. Qed.

Lemma last_key_None l : last_key l = None <-> l = [].
Proof. unfold last_key. rewrite fmap_None. apply last_None. Qed.

Lemma last_key_unlink l1 k v l2 :
  l2 <> [] -> last_key (l1 ++ (k, v) :: l2) = last_key (l1 ++ l2).
Proof.
  intros Hne. rewrite !last_key_app. destruct l2 as [|q l2]; [done|].
  change (last_key ((k, v) :: q :: l2)) with (last_key (q :: l2)). done.
Qed.

(** ** Promote *)

Lemma linked_push (c' : LruCache (K := K) (V := V)) k v l m :
  chain m l -> (forall k', k' ∉ keys l -> k' <> k -> m !! k' = None) -> k ∉ keys l -> l <> [] ->
  value_ <$> m !! k = Some v ->
  map_ c' = alter_it (with_previous (Some k)) (hd_key l)
              (alter_it (with_next (hd_key l)) (Some k) (alter_it (with_previous None) (Some k) m)) ->
  first_ c' = Some k -> last_ c' = last_key l ->
  linked c' ((k, v) :: l).
Proof.
  intros Hc Hcl Hk Hne Hv Em Ef El. 
  assert (Hkh : hd_key l <> Some k) by (intros E%hd_key_elem; done).
  split.
  - apply (chain_push m); [done|done| |]; rewrite Em.
    + rewrite !lookup_alter_it. rewrite decide_False by done. rewrite !decide_True by done.
      destruct (m !! k) as [[]|]; simpl in *; by simplify_eq.
    + intros k' b E Hne'. rewrite !lookup_alter_it.
      rewrite !(decide_False (P := Some k = Some k')) by congruence. rewrite E. destruct b. by case_decide.
  - intros k' Hk'. rewrite Em, !lookup_alter_it.
    rewrite (Hcl k') by keys_tac. by repeat case_decide.
  - done.
  - rewrite El. destruct l as [|q l']; [done|]. by rewrite (last_key_cons_cons (k, v)).
Qed.

Lemma middle_not_in c l1 k v l2 : linked c (l1 ++ (k, v) :: l2) -> k ∉ keys (l1 ++ l2).
Proof.
  intros Hl. destruct (keys_middle _ _ _ _ (proj1 (linked_chain _ _ Hl))) as (? & ? & _). keys_tac.
Qed.

Lemma unlinks_closed c m' l1 k v l2 :
  linked c (l1 ++ (k, v) :: l2) -> unlinks (map_ c) l1 l2 m' ->
  forall k', k' ∉ keys (l1 ++ l2) -> k' <> k -> m' !! k' = None.
Proof.
  intros Hl Hu k' Hk' Hne. rewrite (Hu k'). rewrite (linked_closed _ _ Hl k'); [done|]. keys_tac.
Qed.

Lemma Promote_spec c l1 k v l2 :
  linked c (l1 ++ (k, v) :: l2) ->
  exists c', Promote c k = Some c' /\ linked c' ((k, v) :: l1 ++ l2) /\
    max_size_ c' = max_size_ c /\ size_ c' = size_ c.
Proof.
  intros Hl. unfold Promote. pose proof (middle_not_in _ _ _ _ _ Hl) as Hk.
  case_decide as E; rewrite (linked_first _ _ Hl) in E.
  { exists c. split_and!; try done. destruct l1 as [|[k1 v1] l1]; [done|].
    simpl in E. injection E as <-. exfalso. apply Hk. simpl. left. }
  assert (Hne : l1 <> []) by (intros ->; done). pose proof (hd_key_middle l1 k v l2 Hne) as Ehd.
  pose proof (neighbours_in _ _ _ _ _ Hl) as [Hp Hn]. destruct (relink_alter (map_ c) l1 l2) as [Hu _].
  set (m2 := alter_it (with_previous (last_key l1)) (hd_key l2)
               (alter_it (with_next (hd_key l2)) (last_key l1) (map_ c))) in *.
  pose proof (unlinks_self _ _ _ _ _ _ Hl Hu) as Ek.
  rewrite (linked_lookup _ _ _ _ _ Hl). simpl. rewrite setNext_alter by auto. simpl.
  assert (Hstep : match hd_key l2 with
     | Some _ => m ← setPrevious (alter_it (with_next (hd_key l2)) (last_key l1) (map_ c)) (hd_key l2) (last_key l1);
                 Some (m, last_ c)
     | None => Some (alter_it (with_next (hd_key l2)) (last_key l1) (map_ c), last_key l1)
     end = Some (m2, last_key (l1 ++ l2))).
  { destruct (hd_key l2) as [n|] eqn:En.
    - assert (l2 <> []) by (intros ->; done).
      rewrite setPrevious_alter by (apply alter_it_is_Some; auto). simpl.
      by rewrite (linked_last _ _ Hl), last_key_unlink.
    - apply hd_key_None in En as ->. by rewrite app_nil_r. }
  rewrite Hstep. simpl. rewrite (linked_first _ _ Hl), Ehd.
  pose proof (unlinks_chain _ _ _ _ _ _ (linked_chain _ _ Hl) Hu) as Hc2.
  rewrite setPrevious_alter by (simpl; by rewrite Ek). simpl.
  rewrite (setNext_alter _ (Some k)) by (apply (alter_it_is_Some _ (Some k) _ (Some k)); simpl; by rewrite Ek). simpl.
  rewrite setPrevious_alter.
  2: { apply (alter_it_is_Some _ (Some k)), (alter_it_is_Some _ (Some k)).
       destruct (l1 ++ l2) as [|[f vf] l] eqn:El; [by apply app_eq_nil in El as []|]. simpl.
       destruct (chain_lookup _ _ f Hc2) as (? & ? & ? & _ & ->); [simpl; left|done]. }
  eexists. split; [done|]. split_and!; [|done|done].
  eapply (linked_push _ k v (l1 ++ l2) m2); try done.
  - eapply unlinks_closed; eauto.
  - intros [? ?]%app_eq_nil. done.
  - by rewrite Ek.
Qed.

(** ** Erase *)

Context (cost : V -> Z).

Lemma Erase_it_spec c l1 k v l2 cb :
  linked c (l1 ++ (k, v) :: l2) ->
  exists c', Erase_it cost c k cb = Some (c', if cb then [(k, v)] else []) /\ linked c' (l1 ++ l2) /\
    max_size_ c' = max_size_ c /\ size_ c' = u64 (size_ c - cost v).
Proof.
  intros Hl. unfold Erase_it. pose proof (middle_not_in _ _ _ _ _ Hl) as Hk.
  pose proof (neighbours_in _ _ _ _ _ Hl) as [Hp Hn]. destruct (relink_alter (map_ c) l1 l2) as [_ Hu].
  set (m1 := alter_it (with_previous (last_key l1)) (hd_key l2) (map_ c)) in *.
  rewrite (linked_lookup _ _ _ _ _ Hl). simpl.
  assert (E1 : match hd_key l2 with
    | None => Some (map_ c, last_key l1)
    | Some _ => m ← setPrevious (map_ c) (hd_key l2) (last_key l1); Some (m, last_ c)
    end = Some (m1, last_key (l1 ++ l2))).
  { unfold m1. destruct (hd_key l2) as [n|] eqn:En.
    - assert (l2 <> []) by (intros ->; done). rewrite setPrevious_alter by auto. simpl.
      by rewrite (linked_last _ _ Hl), last_key_unlink.
    - apply hd_key_None in En as ->. by rewrite app_nil_r. }
  rewrite E1. simpl.
  assert (E2 : match last_key l1 with
    | None => Some (m1, hd_key l2)
    | Some _ => m ← setNext m1 (last_key l1) (hd_key l2); Some (m, first_ c)
    end = Some (alter_it (with_next (hd_key l2)) (last_key l1) m1, hd_key (l1 ++ l2))).
  { destruct (last_key l1) as [p|] eqn:Ep.
    - assert (l1 <> []) by (intros ->; done). rewrite setNext_alter by (apply alter_it_is_Some; auto). simpl.
      by rewrite (linked_first _ _ Hl), hd_key_middle.
    - by apply last_key_None in Ep as ->. }
  rewrite E2. simpl. eexists. split; [done|]. split_and!; [|done|done].
  pose proof (unlinks_chain _ _ _ _ _ _ (linked_chain _ _ Hl) Hu) as [Hnd Hc].
  split; simpl; [|intros k' Hk'|done|done].
  - split; [done|]. intros a k' v' b E. rewrite lookup_delete_ne; [by apply Hc|].
    intros ->. apply Hk. rewrite E. keys_tac.
  - destruct (decide (k = k')) as [->|]; [apply lookup_delete_eq|]. rewrite lookup_delete_ne by done.
    eapply unlinks_closed; eauto.
Qed.

(** ** Sizes and eviction *)

Implicit Types (l r : list (K * V)) (c : LruCache (K := K) (V := V)).

Hypothesis cost_nonneg : forall v, 0 <= cost v.

Lemma total_app l1 l2 : total cost (l1 ++ l2) = total cost l1 + total cost l2.
Proof. induction l1 as [|p l1 IH]; simpl; lia. Qed.

Lemma total_reverse l : total cost (reverse l) = total cost l.
Proof. induction l as [|p l IH]; [done|]. rewrite reverse_cons, total_app, IH. simpl. lia. Qed.

Lemma total_nonneg l : 0 <= total cost l.
Proof. induction l as [|p l IH]; simpl; [lia|]. specialize (cost_nonneg p.2). lia. Qed.

Lemma total_middle l1 k v l2 : total cost (l1 ++ (k, v) :: l2) = cost v + total cost (l1 ++ l2).
Proof. rewrite !total_app. simpl. lia. Qed.

(** The state between two operations; [repr_loose] is what holds while the loop
    of [evict] runs. *)
Record repr_loose (c : LruCache) (l : list (K * V)) : Prop := {
  loose_linked : linked c l;
  loose_size : size_ c = total cost l;
  loose_total : total cost l < 2^64;
  loose_max : 0 <= max_size_ c < 2^63 }.

Record repr (c : LruCache) (s : spec) : Prop := {
  repr_list : repr_loose c (spec_list s);
  repr_max : max_size_ c = spec_max s;
  repr_bound : size_ c <= max_size_ c }.

Lemma linked_size c l : linked c l -> size (map_ c) = length l.
Proof.
  intros Hl. pose proof (linked_chain _ _ Hl) as Hch. pose proof Hch as [Hnd _].
  rewrite <- (length_fmap fst), <- (size_list_to_set (C := gset K)) by done.
  rewrite <- size_dom. f_equal. apply set_eq. intros k. rewrite elem_of_dom, elem_of_list_to_set. split.
  - intros Hk. destruct (decide (k ∈ keys l)) as [|Hn]; [done|]. rewrite (linked_closed _ _ Hl _ Hn) in Hk.
    by destruct Hk.
  - intros Hk. destruct (chain_lookup _ _ k Hch Hk) as (? & ? & ? & _ & ->). done.
Qed.

Lemma PopLast_spec c l k v :
  repr_loose c (l ++ [(k, v)]) ->
  exists c', PopLast cost c = Some (c', [(k, v)]) /\ repr_loose c' l /\ max_size_ c' = max_size_ c.
Proof.
  intros [Hl Hs Ht Hm]. unfold PopLast. rewrite (linked_last _ _ Hl), last_key_snoc. simpl.
  destruct (Erase_it_spec c l k v [] true Hl) as (c' & -> & Hl' & Hm' & Hs').
  rewrite app_nil_r in Hl'. rewrite total_app in *. simpl in *.
  pose proof (total_nonneg l). pose proof (cost_nonneg v).
  exists c'. split_and!; [done| |done]. split; [done| |lia|by rewrite Hm'].
  rewrite Hs', Hs. rewrite u64_small by (unfold is_u64; lia). lia.
Qed.

Lemma evict_loop_spec fuel : forall c r, repr_loose c (reverse r) -> (length r <= fuel)%nat ->
  exists c', evict_loop cost fuel c = Some (c', snd (spec_evict_rev cost (max_size_ c) r)) /\
    repr_loose c' (reverse (fst (spec_evict_rev cost (max_size_ c) r))) /\ max_size_ c' = max_size_ c.
Proof.
  assert (Hdone : forall fuel c r, repr_loose c (reverse r) -> size_ c <= max_size_ c ->
    evict_loop cost fuel c = Some (c, []) /\ spec_evict_rev cost (max_size_ c) r = (r, [])).
  { intros f c r Hr Hle. pose proof (loose_size _ _ Hr) as Hs. rewrite total_reverse in Hs.
    assert (size_ c >? max_size_ c = false) as E by blia. split.
    - by destruct f; simpl; rewrite E.
    - destruct r; [done|]. cbn [spec_evict_rev]. by rewrite <- Hs, E. }
  induction fuel as [|fuel IH]; intros c r Hr Hf; destruct (Z.le_gt_cases (size_ c) (max_size_ c)) as [Hle|Hgt].
  1, 3: destruct (Hdone (O)%nat c r Hr Hle) as [_ E2]; rewrite (proj1 (Hdone _ c r Hr Hle)), E2; eauto.
  all: pose proof (loose_size _ _ Hr) as Hs; rewrite total_reverse in Hs; pose proof (loose_max _ _ Hr);
    destruct r as [|[k v] r]; [cbn in Hs; lia|].
  { simpl in Hf. lia. }
  rewrite reverse_cons in Hr. destruct (PopLast_spec _ _ _ _ Hr) as (c1 & Hp & Hr1 & Hm1).
  destruct (IH c1 r Hr1) as (c' & He & Hr' & Hm'); [simpl in Hf; lia|]. rewrite Hm1 in *.
  cbn [evict_loop spec_evict_rev]. rewrite <- Hs. btrue (size_ c >? max_size_ c). rewrite Hp. cbn.
  rewrite He. cbn. destruct (spec_evict_rev cost (max_size_ c) r) as [keep e] eqn:Ee. simpl in *.
  exists c'. rewrite Hm'. done.
Qed.

(** What the eviction keeps fits, and is all of the list when the list fits. *)
Lemma spec_evict_rev_fits max r : 0 <= max -> total cost (fst (spec_evict_rev cost max r)) <= max.
Proof.
  intros Hm. induction r as [|p r IH]; [done|]. cbn [spec_evict_rev].
  destruct (Z.gtb_spec (total cost (p :: r)) max); [|done].
  by destruct (spec_evict_rev cost max r).
Qed.

Lemma evict_spec c l :
  repr_loose c l ->
  exists c', evict cost c = Some (c', snd (spec_evict cost (max_size_ c) l)) /\
    repr c' (mkSpec (max_size_ c) (fst (spec_evict cost (max_size_ c) l))).
Proof.
  intros Hr. unfold evict, spec_evict. rewrite (linked_size _ _ (loose_linked _ _ Hr)).
  destruct (evict_loop_spec (length l) c (reverse l)) as (c' & -> & Hr' & Hm').
  { by rewrite reverse_involutive. }
  { by rewrite length_reverse. }
  pose proof (spec_evict_rev_fits (max_size_ c) (reverse l) (proj1 (loose_max _ _ Hr))) as Hfit.
  destruct (spec_evict_rev cost (max_size_ c) (reverse l)) as [keep e]. simpl in *.
  exists c'. split; [done|]. split; [done|done|].
  rewrite (loose_size _ _ Hr'), total_reverse, Hm'. done.
Qed.

(** ** The operations refine the list operations *)

Lemma assoc_None k l : k ∉ keys l -> assoc k l = None /\ remove_key k l = l.
Proof.
  induction l as [|[k' v'] l IH]; [done|]. intros Hk.
  assert (k' <> k /\ k ∉ keys l) as [Hne Hk'] by (split; [intros ->; apply Hk|intros ?; apply Hk]; keys_tac).
  destruct (IH Hk') as [E1 E2]. unfold assoc in *. simpl. rewrite bool_decide_false by done. simpl.
  by rewrite E1, E2.
Qed.

Lemma assoc_app_middle k v l1 l2 :
  k ∉ keys l1 -> k ∉ keys l2 ->
  assoc k (l1 ++ (k, v) :: l2) = Some v /\ remove_key k (l1 ++ (k, v) :: l2) = l1 ++ l2.
Proof.
  intros H1 H2. induction l1 as [|[k' v'] l1 IH].
  - unfold assoc. simpl. rewrite bool_decide_true by done. simpl. split; [done|]. by apply assoc_None.
  - assert (k' <> k /\ k ∉ keys l1) as [Hne Hk'] by (split; [intros ->; apply H1|intros ?; apply H1]; keys_tac).
    destruct (IH Hk') as [E1 E2]. unfold assoc in *. simpl. rewrite bool_decide_false by done. simpl.
    by rewrite E1, E2.
Qed.

(** The two cases of a look-up in the map. *)
Inductive found (c : LruCache (K := K) (V := V)) (l : list (K * V)) (k : K) : Prop :=
| found_none : k ∉ keys l -> map_ c !! k = None -> assoc k l = None -> remove_key k l = l -> found c l k
| found_some l1 v l2 :
    l = l1 ++ (k, v) :: l2 -> map_ c !! k = Some (mkBucket (hd_key l2) (last_key l1) v) ->
    assoc k l = Some v -> remove_key k l = l1 ++ l2 -> found c l k.

Lemma linked_found c l k : linked c l -> found c l k.
Proof.
  intros Hl. destruct (decide (k ∈ keys l)) as [Hk|Hk].
  - destruct (chain_lookup _ _ _ (linked_chain _ _ Hl) Hk) as (l1 & v & l2 & -> & E).
    destruct (keys_middle _ _ _ _ (proj1 (linked_chain _ _ Hl))) as (H1 & H2 & _).
    destruct (assoc_app_middle k v l1 l2 H1 H2). by eapply found_some.
  - destruct (assoc_None _ _ Hk). apply found_none; try done. by apply (linked_closed _ _ Hl).
Qed.

Lemma linked_hd c q l : linked c (q :: l) -> is_Some (hd_key (q :: l) ≫= (map_ c !!.)).
Proof. intros Hl. destruct q as [k v]. simpl. by rewrite (linked_lookup c [] k v l Hl). Qed.

(** A new bucket goes to the front. *)
Lemma AddInternal_new c l k v :
  repr_loose c l -> k ∉ keys l -> total cost l + cost v < 2^64 ->
  exists c1, AddInternal cost (mkLru (<[k := mkBucket None None v]> (map_ c)) (first_ c) (last_ c)
                          (max_size_ c) (size_ c)) k (cost v) None = evict cost c1 /\
    repr_loose c1 ((k, v) :: l) /\ max_size_ c1 = max_size_ c.
Proof.
  intros [Hl Hs Ht Hm] Hk Hsum. unfold AddInternal. simpl.
  pose proof (linked_closed _ _ Hl _ Hk) as Hkm. pose proof (linked_chain _ _ Hl) as Hch.
  assert (Hsz : u64 (size_ c + cost v) = cost v + total cost l).
  { rewrite Hs. rewrite u64_small; [lia|]. pose proof (total_nonneg l). pose proof (cost_nonneg v).
    unfold is_u64; lia. }
  assert (Hloose : forall c' : LruCache, linked c' ((k, v) :: l) -> size_ c' = u64 (size_ c + cost v) ->
    max_size_ c' = max_size_ c -> repr_loose c' ((k, v) :: l)).
  { intros c' ? E1 E2. split; [done|simpl; lia|simpl; lia|by rewrite E2]. }
  rewrite map_size_insert_None, (linked_size _ _ Hl) by done. case_decide as E.
  - destruct l as [|q l]; [|done]. simpl. eexists. split; [done|]. split; [|done].
    apply Hloose; [|done|done]. split; simpl; [|intros k' Hk'| done|done].
    + apply (chain_push ∅); [split; [constructor|by intros [|??]]|done|by rewrite lookup_insert_eq|].
      intros k' b E'. by rewrite lookup_empty in E'.
    + rewrite lookup_insert_ne; [|intros ->; apply Hk'; left]. apply (linked_closed _ _ Hl). by apply not_elem_of_nil.
  - destruct l as [|q l]; [done|]. set (m0 := <[k := _]> (map_ c)).
    assert (Hqs : is_Some (hd_key (q :: l) ≫= (m0 !!.))).
    { destruct q as [kq vq]. simpl. unfold m0. rewrite lookup_insert_ne by (intros ->; apply Hk; left).
      by apply (linked_hd c (kq, vq) l). }
    rewrite setNext_alter by (simpl; unfold m0; by rewrite lookup_insert_eq). simpl.
    rewrite (linked_first _ _ Hl), setPrevious_alter by (by apply (alter_it_is_Some _ (Some k))). simpl.
    eexists. split; [done|]. split; [|done]. apply Hloose; [|done|done].
    eapply (linked_push _ k v (q :: l) m0); try done; simpl.
    + destruct Hch as [Hnd Hc]. split; [done|]. intros a k' v' b Eq. unfold m0.
      rewrite lookup_insert_ne; [by apply Hc|]. intros ->. apply Hk. rewrite Eq. keys_tac.
    + intros k' Hk' Hne. unfold m0. rewrite lookup_insert_ne by done. by apply (linked_closed _ _ Hl).
    + unfold m0. by rewrite lookup_insert_eq.
    + f_equal. f_equal. apply map_eq. intros k'. unfold m0.
      destruct (decide (k = k')) as [->|]; [by rewrite lookup_alter_eq, lookup_insert_eq|].
      by rewrite lookup_alter_ne.
    + apply (linked_last _ _ Hl).
Qed.

(** Assigning the value of a bucket keeps the links. *)
Definition set_value (k : K) (v : V) (p : K * V) : K * V := (p.1, if decide (k = p.1) then v else p.2).

Lemma set_value_other k v l : k ∉ keys l -> set_value k v <$> l = l.
Proof.
  induction l as [|[k' v'] l IH]; [done|]. intros Hk. rewrite fmap_cons. unfold set_value at 1. cbn [fst snd].
  rewrite decide_False, IH; [done| |]; [intros ?; apply Hk|intros ->; apply Hk]; keys_tac.
Qed.

Lemma set_value_keys k v l :
  keys (set_value k v <$> l) = keys l /\ hd_key (set_value k v <$> l) = hd_key l /\
  last_key (set_value k v <$> l) = last_key l.
Proof.
  split_and!.
  - rewrite <- list_fmap_compose. by apply list_fmap_ext.
  - by destruct l.
  - unfold last_key. rewrite fmap_last. by destruct (last l).
Qed.

Lemma linked_set_value c l1 k v old l2 sz :
  linked c (l1 ++ (k, old) :: l2) ->
  linked (mkLru (<[k := mkBucket (hd_key l2) (last_key l1) v]> (map_ c)) (first_ c) (last_ c)
            (max_size_ c) sz) (l1 ++ (k, v) :: l2).
Proof.
  intros Hl. pose proof Hl as [[Hnd Hc] Hcl Hf Hla]. destruct (keys_middle _ _ _ _ Hnd) as (Hk1 & Hk2 & _).
  pose proof (linked_lookup _ _ _ _ _ Hl) as Ek.
  assert (E : l1 ++ (k, v) :: l2 = set_value k v <$> (l1 ++ (k, old) :: l2)).
  { rewrite fmap_app, fmap_cons, !set_value_other by done. unfold set_value. simpl. by rewrite decide_True. }
  rewrite E. destruct (set_value_keys k v (l1 ++ (k, old) :: l2)) as (Ek1 & Ek2 & Ek3).
  split; simpl; [split|intros k'| |]; rewrite ?Ek1, ?Ek2, ?Ek3; try done.
  - intros a' k' v' b' E'. apply fmap_app_inv in E' as (a & w & -> & E' & Ew).
    symmetry in E'. apply fmap_cons_inv in E' as ([k2 v2] & b & E' & -> & ->). 
    injection E' as -> ->. simpl. destruct (set_value_keys k v a) as (_ & _ & ->).
    destruct (set_value_keys k v b) as (_ & -> & _). pose proof (Hc a k2 v2 b Ew) as Ek'.
    case_decide as Hd.
    + subst k2. rewrite lookup_insert_eq. rewrite Ek in Ek'. by injection Ek' as -> -> _.
    + by rewrite lookup_insert_ne.
  - intros Hk'. rewrite lookup_insert_ne; [by apply Hcl|]. intros ->. apply Hk'. keys_tac.
Qed.

(** A bucket whose value changed is promoted. *)
Lemma AddInternal_old c l1 k v old l2 :
  repr_loose c (l1 ++ (k, old) :: l2) -> cost v + total cost (l1 ++ l2) < 2^64 ->
  exists c1, AddInternal cost (mkLru (<[k := mkBucket (hd_key l2) (last_key l1) v]> (map_ c)) (first_ c) (last_ c)
                          (max_size_ c) (size_ c)) k (cost v) (Some (cost old)) = evict cost c1 /\
    repr_loose c1 ((k, v) :: l1 ++ l2) /\ max_size_ c1 = max_size_ c.
Proof.
  intros [Hl Hs Ht Hm] Hsum. unfold AddInternal. simpl.
  set (c0 := mkLru _ _ _ _ _).
  pose proof (linked_set_value c l1 k v old l2 (size_ c0) Hl : linked c0 (l1 ++ (k, v) :: l2)) as Hl0.
  destruct (Promote_spec c0 l1 k v l2 Hl0) as (c1 & -> & Hl1 & Hm1 & Hs1). simpl.
  exists c1. split; [done|]. split; [|by rewrite Hm1].
  split; [done| |simpl in *; lia|by rewrite Hm1].
  rewrite Hs1. unfold c0. simpl. rewrite Hs, total_middle.
  pose proof (total_nonneg (l1 ++ l2)). pose proof (cost_nonneg v).
  replace (_ + _) with (cost v + total cost (l1 ++ l2)) by lia. apply u64_small. unfold is_u64; lia.
Qed.

Definition op_ok (o : op (K := K) (V := V)) : Prop :=
  match o with
  | OpResize max => 0 <= max < 2^63
  | OpInsertOrAssign _ v => cost v < 2^63
  | _ => True
  end.

Lemma repr_middle c s l1 k v l2 c' :
  repr c s -> spec_list s = l1 ++ (k, v) :: l2 -> linked c' ((k, v) :: l1 ++ l2) ->
  max_size_ c' = max_size_ c -> size_ c' = size_ c ->
  repr c' (mkSpec (spec_max s) ((k, v) :: l1 ++ l2)).
Proof.
  intros [[Hl Hs Ht Hm] Hmax Hb] E Hl' Hm' Hs'. rewrite E, total_middle in *. split; simpl; [|congruence|congruence].
  split; simpl; [done|lia|lia|by rewrite Hm'].
Qed.

Lemma iterator_value_first c k v l : linked c ((k, v) :: l) -> iterator_value c (Some k) = Some v.
Proof. intros Hl. unfold iterator_value. simpl. by rewrite (linked_lookup c [] k v l Hl). Qed.

Lemma evict_repr c l max :
  repr_loose c l -> max_size_ c = max ->
  exists c', evict cost c = Some (c', snd (spec_evict cost max l)) /\
    repr c' (mkSpec max (fst (spec_evict cost max l))).
Proof. intros Hr <-. by apply evict_spec. Qed.

(** Insertion of a new key. *)
Lemma insert_new c s k v :
  repr c s -> k ∉ keys (spec_list s) -> cost v <= spec_max s ->
  exists c', AddInternal cost (mkLru (<[k := mkBucket None None v]> (map_ c)) (first_ c) (last_ c)
                         (max_size_ c) (size_ c)) k (cost v) None
      = Some (c', snd (spec_evict cost (spec_max s) ((k, v) :: spec_list s))) /\
    repr c' (mkSpec (spec_max s) (fst (spec_evict cost (spec_max s) ((k, v) :: spec_list s)))).
Proof.
  intros [Hr Hmax Hb] Hk Hv. pose proof (loose_max _ _ Hr).
  destruct (AddInternal_new c (spec_list s) k v Hr Hk) as (c1 & -> & Hr1 & Hm1).
  { rewrite <- (loose_size _ _ Hr). lia. }
  apply evict_repr; [done|congruence].
Qed.

Lemma Insert_refines c s k v :
  repr c s -> exists c', step cost (OpInsert k v) c = Some (c', snd (fst (spec_step cost (OpInsert k v) s)),
                                                            snd (spec_step cost (OpInsert k v) s)) /\
    repr c' (fst (fst (spec_step cost (OpInsert k v) s))).
Proof.
  intros Hr. pose proof (loose_linked _ _ (repr_list _ _ Hr)) as Hl. cbn [step spec_step]. unfold Insert.
  rewrite (repr_max _ _ Hr). destruct (Z.gtb_spec (cost v) (spec_max s)) as [|Hv]; [by exists c|].
  destruct (linked_found _ _ k Hl) as [Hk E1 E2 E3|l1 old l2 E E1 E2 E3]; rewrite E1, E2.
  - destruct (insert_new c s k v Hr Hk Hv) as (c' & Ei & Hr'). rewrite (repr_max _ _ Hr) in Ei. rewrite Ei. simpl.
    destruct (spec_evict _ _ _) as [l' e]. eauto.
  - rewrite E in Hl. destruct (Promote_spec _ _ _ _ _ Hl) as (c' & -> & Hl' & Hm & Hs). simpl. rewrite E3.
    exists c'. split; [done|]. by eapply repr_middle.
Qed.

Lemma InsertOrAssign_refines c s k v :
  repr c s -> cost v < 2^63 -> exists c', step cost (OpInsertOrAssign k v) c
      = Some (c', snd (fst (spec_step cost (OpInsertOrAssign k v) s)), snd (spec_step cost (OpInsertOrAssign k v) s)) /\
    repr c' (fst (fst (spec_step cost (OpInsertOrAssign k v) s))).
Proof.
  intros Hr Hv63. pose proof (loose_linked _ _ (repr_list _ _ Hr)) as Hl. cbn [step spec_step]. unfold InsertOrAssign.
  destruct (linked_found _ _ k Hl) as [Hk E1 E2 E3|l1 old l2 E E1 E2 E3]; rewrite E1, E2.
  - rewrite (repr_max _ _ Hr). destruct (Z.gtb_spec (cost v) (spec_max s)) as [|Hv]; [by exists c|].
    destruct (insert_new c s k v Hr Hk Hv) as (c' & Ei & Hr'). rewrite (repr_max _ _ Hr) in Ei. rewrite Ei. simpl.
    destruct (spec_evict _ _ _) as [l' e]. eauto.
  - rewrite E3. cbn [next_ previous_ value_]. pose proof (repr_list _ _ Hr) as Hl0. rewrite E in Hl0.
    destruct (AddInternal_old c l1 k v old l2 Hl0) as (c1 & -> & Hr1 & Hm1).
    { pose proof (loose_size _ _ Hl0) as Hs. rewrite total_middle in Hs. pose proof (repr_bound _ _ Hr).
      pose proof (loose_max _ _ Hl0). pose proof (cost_nonneg old). lia. }
    destruct (evict_repr c1 _ (spec_max s) Hr1) as (c' & -> & Hr'); [rewrite Hm1; apply (repr_max _ _ Hr)|].
    simpl. destruct (spec_evict _ _ _) as [l' e]. eauto.
Qed.

Lemma Erase_refines c s k :
  repr c s -> exists c', step cost (OpErase k) c = Some (c', [], snd (spec_step cost (OpErase k) s)) /\
    repr c' (fst (fst (spec_step cost (OpErase k) s))).
Proof.
  intros Hr. pose proof (loose_linked _ _ (repr_list _ _ Hr)) as Hl. cbn [step spec_step fst snd]. unfold Erase.
  destruct (linked_found _ _ k Hl) as [Hk E1 E2 E3|l1 old l2 E E1 E2 E3]; rewrite E1, E2, E3; simpl.
  - exists c. split; [done|]. by destruct s.
  - rewrite E in Hl. destruct (Erase_it_spec c l1 k old l2 false Hl) as (c' & -> & Hl' & Hm' & Hs'). simpl.
    exists c'. split; [done|]. pose proof (repr_list _ _ Hr) as [_ Hs Ht Hm]. rewrite E, total_middle in *.
    pose proof (total_nonneg (l1 ++ l2)). pose proof (cost_nonneg old). pose proof (repr_bound _ _ Hr).
    rewrite u64_small in Hs' by (unfold is_u64; lia).
    split; simpl; [split; simpl; [done|lia|lia|by rewrite Hm']|by rewrite Hm', (repr_max _ _ Hr)|lia].
Qed.

Lemma Find_refines c s k :
  repr c s -> exists c', step cost (OpFind k) c = Some (c', [], snd (spec_step cost (OpFind k) s)) /\
    repr c' (fst (fst (spec_step cost (OpFind k) s))).
Proof.
  intros Hr. pose proof (loose_linked _ _ (repr_list _ _ Hr)) as Hl. cbn [step spec_step]. unfold Find.
  destruct (linked_found _ _ k Hl) as [Hk E1 E2 E3|l1 v l2 E E1 E2 E3]; rewrite E1, E2; [by exists c|].
  rewrite E in Hl. destruct (Promote_spec _ _ _ _ _ Hl) as (c' & -> & Hl' & Hm & Hs). cbn [mbind option_bind fst snd].
  rewrite (iterator_value_first _ _ _ _ Hl'), E3. exists c'. split; [done|]. by eapply repr_middle.
Qed.

Lemma step_refines c s o :
  repr c s -> op_ok o ->
  exists c', step cost o c = Some (c', snd (fst (spec_step cost o s)), snd (spec_step cost o s)) /\
    repr c' (fst (fst (spec_step cost o s))).
Proof.
  intros Hr Hok. destruct o as [k v|k v|k|k|k|max|].
  - by apply Insert_refines.
  - by apply InsertOrAssign_refines.
  - by apply Erase_refines.
  - destruct (Find_refines c s k Hr) as (c' & E & Hr'). exists c'. split; [|done].
    rewrite E. cbn [spec_step]. by destruct (assoc k (spec_list s)).
  - cbn. exists c. split; [|done]. unfold FindNoPromote.
    destruct (linked_found _ _ k (loose_linked _ _ (repr_list _ _ Hr))) as [Hk E1 E2 E3|l1 v l2 E E1 E2 E3];
      rewrite E1, E2; unfold iterator_value; simpl; by rewrite ?E1.
  - simpl in *. unfold Resize. destruct (repr_list _ _ Hr) as [Hl Hs Ht Hm].
    destruct (evict_repr (mkLru (map_ c) (first_ c) (last_ c) max (size_ c)) (spec_list s) max)
      as (c' & -> & Hr'); [split; try done; by destruct Hl|done|].
    simpl. destruct (spec_evict _ _ _). eauto.
  - simpl. eexists. split; [done|]. destruct (repr_list _ _ Hr) as [Hl Hs Ht Hm].
    split; simpl; [|apply (repr_max _ _ Hr)|lia]. split; simpl; [|done|lia|done].
    split; [|done|done|done]. split; [constructor|by intros [|??]].
Qed.

Lemma run_refines ops : forall c s, repr c s -> Forall op_ok ops ->
  exists c', run cost ops c = Some (c', snd (fst (spec_run cost ops s)), snd (spec_run cost ops s)) /\
    repr c' (fst (fst (spec_run cost ops s))).
Proof.
  induction ops as [|o ops IH]; intros c s Hr Hok; simpl; [eauto|].
  inversion Hok as [|? ? Ho Hok']; subst. destruct (step_refines c s o Hr Ho) as (c1 & -> & Hr1). simpl.
  destruct (spec_step cost o s) as [[s1 e1] r1]. simpl in *. destruct (IH c1 s1 Hr1 Hok') as (c2 & -> & Hr2).
  simpl. destruct (spec_run cost ops s1) as [[s2 e2] r2]. simpl in *. eauto.
Qed.

Lemma repr_new max : 0 <= max < 2^63 -> repr (LruCache_new max) (mkSpec max []).
Proof.
  intros Hm. split; simpl; [|done|lia]. split; simpl; [|done|lia|done]. split; [|done|done|done].
  split; [constructor|by intros [|??]].
Qed.

Lemma spec_evict_rev_split max r : exists n,
  fst (spec_evict_rev cost max r) = drop n r /\ snd (spec_evict_rev cost max r) = take n r /\
  (n <= length r)%nat /\ forall m, (m < n)%nat -> max < total cost (drop m r).
Proof.
  induction r as [|p r IH]; [exists 0%nat; split_and!; try done; lia|]. cbn [spec_evict_rev].
  destruct (Z.gtb_spec (total cost (p :: r)) max) as [Hgt|Hle].
  - destruct IH as (n & E1 & E2 & Hn & Hm). exists (S n).
    destruct (spec_evict_rev cost max r) as [keep e]. simpl in E1, E2. subst.
    split_and!; try done; [simpl; lia|]. intros [|m] Hlt; [done|]. apply Hm. lia.
  - exists 0%nat. split_and!; [done|done|lia|lia].
Qed.

Lemma spec_evict_split max l : 0 <= max -> exists n,
  spec_evict cost max l = (take n l, reverse (drop n l)) /\ (n <= length l)%nat /\
  total cost (take n l) <= max /\ forall m, (n < m <= length l)%nat -> max < total cost (take m l).
Proof.
  intros Hmax. unfold spec_evict. destruct (spec_evict_rev_split max (reverse l)) as (n & E1 & E2 & Hn & Hm).
  pose proof (spec_evict_rev_fits max (reverse l) Hmax) as Hfit.
  destruct (spec_evict_rev cost max (reverse l)) as [keep e]. simpl in *. subst.
  rewrite length_reverse in Hn. exists (length l - n)%nat.
  assert (Ek : forall j, drop j (reverse l) = reverse (take (length l - j) l)) by (intros; apply drop_reverse).
  rewrite Ek, total_reverse in Hfit. rewrite Ek, reverse_involutive, take_reverse.
  split_and!; [done|lia|done|]. intros m Hlt. specialize (Hm (length l - m)%nat ltac:(lia)).
  rewrite Ek, total_reverse in Hm. by replace (length l - (length l - m))%nat with m in Hm by lia.
Qed.

(** [evict] terminates without touching a dangling iterator; it drops the
    least recently used pairs, oldest first, calling the callback for each, and
    keeps the longest run of recently used pairs that fits the maximum size. *)
Theorem evict_keeps_recent c l :
  repr_loose c l ->
  exists c' n, evict cost c = Some (c', reverse (drop n l)) /\ linked c' (take n l) /\
    size_ c' = total cost (take n l) /\ total cost (take n l) <= max_size_ c /\
    forall m, (n < m <= length l)%nat -> max_size_ c < total cost (take m l).
Proof.
  intros Hr. destruct (evict_spec c l Hr) as (c' & -> & [[Hl Hs _ _] _ _]).
  destruct (spec_evict_split (max_size_ c) l) as (n & E & Hn & Hfit & Hm); [apply Hr|].
  rewrite E in *. exists c', n. done.
Qed.

(** C17: a new cache behaves, for every sequence of operations, like a list of
    pairs ordered from the most to the least recently used one: no operation
    follows a dangling iterator, every result and every call of the eviction
    callback is that of the list, the chain holds the list, and the size is the
    sum of the costs and at most the maximum size. *)
Theorem LruCache_refines ops max :
  0 <= max < 2^63 -> Forall op_ok ops ->
  exists c s evs rs,
    run cost ops (LruCache_new max) = Some (c, evs, rs) /\
    spec_run cost ops (mkSpec max []) = (s, evs, rs) /\
    linked c (spec_list s) /\ size_ c = total cost (spec_list s) /\ size_ c <= max_size_ c.
Proof.
  intros Hm Hok. destruct (run_refines ops _ _ (repr_new max Hm) Hok) as (c & -> & Hr).
  destruct (spec_run cost ops (mkSpec max [])) as [[s evs] rs]. simpl in *.
  exists c, s, evs, rs. destruct Hr as [[Hl Hs _ _] _ Hb]. done.
Qed.

(** ** The operations as their clients see them *)

Lemma Find_client c s k : repr c s ->
  exists c', Find c k = Some (c', if assoc k (spec_list s) is Some _ then Some k else None) /\
    repr c' (fst (fst (spec_step cost (OpFind k) s))) /\
    forall v, assoc k (spec_list s) = Some v -> iterator_value c' (Some k) = Some v.
Proof.
  intros Hr. pose proof (loose_linked _ _ (repr_list _ _ Hr)) as Hl. cbn [spec_step]. unfold Find.
  destruct (linked_found _ _ k Hl) as [Hk E1 E2 E3|l1 v l2 E E1 E2 E3]; rewrite E1, E2; [by exists c|].
  rewrite E in Hl. destruct (Promote_spec _ _ _ _ _ Hl) as (c' & -> & Hl' & Hm & Hs). simpl.
  exists c'. split_and!; [done|rewrite E3; by eapply repr_middle|].
  intros ? [= <-]. by eapply iterator_value_first.
Qed.

Lemma FindNoPromote_client c s k : repr c s ->
  FindNoPromote c k = (if assoc k (spec_list s) is Some _ then Some k else None) /\
  forall v, assoc k (spec_list s) = Some v -> iterator_value c (Some k) = Some v.
Proof.
  intros Hr. unfold FindNoPromote, iterator_value. simpl.
  destruct (linked_found _ _ k (loose_linked _ _ (repr_list _ _ Hr))) as [Hk E1 E2 E3|l1 v l2 E E1 E2 E3];
    rewrite E1, E2; [done|]. split; [done|]. by intros ? [= <-].
Qed.

Lemma Erase_client c s k : repr c s ->
  exists c', Erase cost c k = Some (c', bool_decide (is_Some (assoc k (spec_list s)))) /\
    repr c' (mkSpec (spec_max s) (remove_key k (spec_list s))).
Proof.
  intros Hr. destruct (Erase_refines c s k Hr) as (c' & E & Hr'). cbn [step] in E.
  destruct (Erase cost c k) as [[c1 b]|]; [|done]. simpl in *. injection E as -> ->. eauto.
Qed.

Lemma InsertOrAssign_client c s k v : repr c s -> cost v < 2^63 ->
  exists c' ret, InsertOrAssign cost c k v = Some (c', snd (fst (spec_step cost (OpInsertOrAssign k v) s)), ret) /\
    snd (spec_step cost (OpInsertOrAssign k v) s) = RInsert (fst ret) (snd ret) /\
    repr c' (fst (fst (spec_step cost (OpInsertOrAssign k v) s))).
Proof.
  intros Hr Hv. destruct (InsertOrAssign_refines c s k v Hr Hv) as (c' & E & Hr'). cbn [step] in E.
  destruct (InsertOrAssign cost c k v) as [[[c1 e] [it b]]|]; [|done]. simpl in E. injection E as -> -> E.
  exists c', (it, b). done.
Qed.

Lemma Clear_client c s : repr c s -> repr (Clear c) (mkSpec (spec_max s) []).
Proof. intros Hr. destruct (step_refines c s OpClear Hr I) as (c' & E & Hr'). cbn in *. by injection E as ->. Qed.

(** The next element, after erasing the current one or not. *)
Lemma iterator_next_client c l1 k v l2 :
  linked c (l1 ++ (k, v) :: l2) -> iterator_next c (Some k) = Some (hd_key l2).
Proof. intros Hl. unfold iterator_next. simpl. by rewrite (linked_lookup _ _ _ _ _ Hl). Qed.

Lemma Erase_iterator_client c max l1 k v l2 :
  repr c (mkSpec max (l1 ++ (k, v) :: l2)) ->
  exists c', Erase_iterator cost c (Some k) = Some (c', hd_key l2) /\ repr c' (mkSpec max (l1 ++ l2)).
Proof.
  intros Hr. pose proof (loose_linked _ _ (repr_list _ _ Hr)) as Hl. simpl in Hl. unfold Erase_iterator.
  destruct (keys_middle _ _ _ _ (proj1 (linked_chain _ _ Hl))) as (H1 & H2 & _).
  destruct (assoc_app_middle k v l1 l2 H1 H2) as [_ E2].
  cbn [mbind option_bind]. rewrite (iterator_next_client _ _ _ _ _ Hl). cbn [mbind option_bind].
  destruct (Erase_client c _ k Hr) as (c' & -> & Hr'). cbn [spec_max spec_list] in Hr'.
  rewrite E2 in Hr'. simpl. eauto.
Qed.

Lemma assoc_elem k v l : NoDup (keys l) -> assoc k l = Some v <-> (k, v) ∈ l.
Proof.
  intros Hnd. split.
  - unfold assoc. intros E. apply fmap_Some in E as ([k' v'] & E & ->).
    apply List.find_some in E as [Hin Hk]. apply bool_decide_eq_true in Hk. simpl in *. subst.
    by apply list_elem_of_In.
  - intros Hin. apply list_elem_of_split in Hin as (l1 & l2 & ->).
    destruct (keys_middle _ _ _ _ Hnd) as (H1 & H2 & _). by destruct (assoc_app_middle k v l1 l2 H1 H2).
Qed.

Lemma repr_NoDup c s : repr c s -> NoDup (keys (spec_list s)).
Proof. intros Hr. apply (linked_chain _ _ (loose_linked _ _ (repr_list _ _ Hr))). Qed.

Lemma elem_of_remove_key p k l : p ∈ remove_key k l <-> p ∈ l /\ p.1 <> k.
Proof.
  unfold remove_key. rewrite !list_elem_of_In, List.filter_In, negb_true_iff, bool_decide_eq_false. done.
Qed.

Lemma assoc_cons_eq k v l : assoc k ((k, v) :: l) = Some v.
Proof. unfold assoc. simpl. by rewrite bool_decide_true. Qed.

Lemma spec_evict_head max k v l : cost v <= max ->
  exists l', fst (spec_evict cost max ((k, v) :: l)) = (k, v) :: l'.
Proof.
  intros Hm. pose proof (cost_nonneg v). destruct (spec_evict_split max ((k, v) :: l)) as (n & -> & _ & _ & Hn); [lia|].
  destruct n as [|n]; [|simpl; eauto]. exfalso. specialize (Hn 1%nat). simpl in Hn. lia.
Qed.

Lemma spec_evict_all max k v l : 0 <= max < cost v -> fst (spec_evict cost max ((k, v) :: l)) = [].
Proof.
  intros Hm. destruct (spec_evict_split max ((k, v) :: l)) as (n & -> & _ & Hfit & _); [lia|].
  destruct n as [|n]; [done|]. simpl in Hfit. pose proof (total_nonneg (take n l)). lia.
Qed.

Lemma linked_nil c : linked c [] -> map_ c = ∅.
Proof. intros Hl. apply map_eq. intros k. rewrite (linked_closed _ _ Hl); [done|]. by apply not_elem_of_nil. Qed.

(** Assigning an existing key a value that costs more than the maximum size
    empties the cache, the assigned pair included, and still returns an iterator
    to the key: the iterator dangles, while the interface says that it points to
    the assigned item.  ([Insert], and [InsertOrAssign] of a new key, refuse such
    a value.) *)
Theorem InsertOrAssign_dangling c s k old v :
  repr c s -> (k, old) ∈ spec_list s -> max_size_ c < cost v < 2^63 ->
  exists c' e, InsertOrAssign cost c k v = Some (c', e, (Some k, false)) /\
    map_ c' = ∅ /\ iterator_value c' (Some k) = None /\ size_ c' = 0.
Proof.
  intros Hr Hin [Hbig Hv]. destruct (InsertOrAssign_refines c s k v Hr Hv) as (c' & E & Hr').
  pose proof (loose_linked _ _ (repr_list _ _ Hr)) as Hl. pose proof (loose_max _ _ (repr_list _ _ Hr)).
  cbn [step spec_step] in E, Hr'. rewrite (repr_max _ _ Hr) in *.
  destruct (linked_found _ _ k Hl) as [Hk _ _ _|l1 v0 l2 El E1 E2 E3].
  { exfalso. apply Hk. apply list_elem_of_fmap. by exists (k, old). }
  rewrite E2 in E, Hr'. pose proof (spec_evict_all (spec_max s) k v (remove_key k (spec_list s)) ltac:(lia)) as Ee.
  destruct (spec_evict cost (spec_max s) _) as [l' e]. simpl in *. subst l'.
  destruct (InsertOrAssign cost c k v) as [[[c1 e1] [it b]]|]; [|done]. simpl in E. injection E as -> -> -> ->.
  destruct Hr' as [[Hl' Hs _ _] _ _]. simpl in *. pose proof (linked_nil _ Hl') as Em.
  exists c', e. unfold iterator_value. simpl. by rewrite Em.
Qed.

(** The loop [for (it = begin(); it != end(); ++it)]. *)
Fixpoint walk (fuel : nat) (c : LruCache (K := K) (V := V)) (it : option K) : option (list (K * V)) :=
  match it, fuel with
  | None, _ => Some []
  | Some k, O => None
  | Some k, S fuel =>
      v ← iterator_value c it; n ← iterator_next c it; l ← walk fuel c n; Some ((k, v) :: l)
  end.

Lemma walk_suffix c l2 : forall l1, linked c (l1 ++ l2) -> walk (length l2) c (hd_key l2) = Some l2.
Proof.
  induction l2 as [|[k v] l2 IH]; intros l1 Hl; [done|]. simpl. unfold iterator_value, iterator_next. simpl.
  rewrite (linked_lookup _ _ _ _ _ Hl). simpl. rewrite (IH (l1 ++ [(k, v)])); [done|]. by rewrite <- app_assoc.
Qed.

(** Iterating from [begin()] visits every pair once, most recently used first. *)
Lemma walk_begin c l : linked c l -> walk (size (map_ c)) c (cache_begin c) = Some l.
Proof.
  intros Hl. rewrite (linked_size _ _ Hl). unfold cache_begin. rewrite (linked_first _ _ Hl).
  by apply (walk_suffix c l []).
Qed.

(** Moving from an empty cache dereferences the end iterator of the source. *)
Lemma LruCache_move_empty c : linked c [] -> LruCache_move c = None.
Proof. intros Hl. unfold LruCache_move. by rewrite (linked_first _ _ Hl). Qed.

Lemma LruCache_move_linked c q l : linked c (q :: l) -> LruCache_move c = Some c.
Proof.
  intros Hl. destruct q as [k v]. unfold LruCache_move.
  pose proof (linked_first _ _ Hl) as Ef. pose proof (linked_last _ _ Hl) as El.
  destruct (last_key ((k, v) :: l)) as [kl|] eqn:E; [|by apply last_key_None in E].
  apply last_key_elem in E. destruct (chain_lookup _ _ _ (linked_chain _ _ Hl) E) as (? & ? & ? & _ & Ekl).
  rewrite Ef, El. simpl. rewrite (linked_lookup c [] k v l Hl). simpl. rewrite Ekl. simpl.
  clear - Ef El. destruct c. simpl in *. by subst.
Qed.

End repr.

(** ** Concrete inputs *)

Definition flag_cost (b : bool) : Z := if b then 10 else 1.

Lemma flag_cost_nonneg b : 0 <= flag_cost b.
Proof. destruct b; unfold flag_cost; lia. Qed.

Definition sample_ops : list (op (K := Z) (V := bool)) :=
  [OpInsert 1 false; OpInsert 2 false; OpInsert 3 false; OpFind 1; OpInsert 4 false; OpResize 2;
   OpInsertOrAssign 1 false; OpErase 4; OpFindNoPromote 2].

Lemma LruCache_refines_witness : exists c s evs rs,
  run flag_cost sample_ops (LruCache_new 3) = Some (c, evs, rs) /\
  spec_run flag_cost sample_ops (mkSpec 3 []) = (s, evs, rs) /\
  linked c (spec_list s) /\ size_ c = total flag_cost (spec_list s) /\ size_ c <= max_size_ c.
Proof.
  apply (LruCache_refines flag_cost flag_cost_nonneg sample_ops 3); [lia|].
  unfold sample_ops. repeat constructor; simpl; lia.
Defined.

Lemma sample_cache : exists c, run flag_cost [OpInsert 1 false; OpInsert 2 false] (LruCache_new 3) =
    Some (c, [], [RInsert (Some 1) true; RInsert (Some 2) true]) /\
  repr flag_cost c (mkSpec 3 [(2, false); (1, false)]).
Proof.
  destruct (run_refines flag_cost flag_cost_nonneg [OpInsert 1 false; OpInsert 2 false]
              (LruCache_new 3) (mkSpec 3 []) (repr_new flag_cost 3 ltac:(lia)) ltac:(repeat constructor))
    as (c & E & Hr). exists c. split; [exact E|exact Hr].
Qed.

Lemma evict_keeps_recent_witness : exists c : LruCache (K := Z) (V := bool),
  repr_loose flag_cost c [(2, false); (1, false)] /\
  exists c' n, evict flag_cost c = Some (c', reverse (drop n [(2, false); (1, false)])) /\
    linked c' (take n [(2, false); (1, false)]) /\
    size_ c' = total flag_cost (take n [(2, false); (1, false)]) /\
    total flag_cost (take n [(2, false); (1, false)]) <= max_size_ c /\
    forall m, (n < m <= 2)%nat -> max_size_ c < total flag_cost (take m [(2, false); (1, false)]).
Proof.
  destruct sample_cache as (c & _ & Hr). exists c. split; [apply Hr|].
  apply (evict_keeps_recent flag_cost flag_cost_nonneg). apply Hr.
Defined.

Lemma InsertOrAssign_dangling_witness : exists c : LruCache (K := Z) (V := bool),
  repr flag_cost c (mkSpec 3 [(2, false); (1, false)]) /\
  exists c' e, InsertOrAssign flag_cost c 1 true = Some (c', e, (Some 1, false)) /\
    map_ c' = ∅ /\ iterator_value c' (Some 1) = None /\ size_ c' = 0.
Proof.
  destruct sample_cache as (c & _ & Hr). exists c. split; [done|].
  apply (InsertOrAssign_dangling flag_cost flag_cost_nonneg c _ 1 false true Hr).
  - simpl. right. left.
  - rewrite (repr_max _ _ _ Hr). split; reflexivity.
Defined.
