(* ===== verification/InMemoryCache.v ===== *)
(** * The in-memory cache

    Model of [olp::cache::InMemoryCache] (src/cache/InMemoryCache.cpp): the LRU
    cache of item tuples next to a map from expiry times to the tuples that were
    inserted with that time.  [time_provider_] is the [now] argument of every
    operation, one argument for every call of it; the items are of any type [A]
    ([olp::porting::any], where [None] is the empty value). *)

From stdpp Require Import sorting.
From S2P Require Import Prelude LruCache.

Definition kExpiryMax : Z := 2^63 - 1.
Definition kSizeMax : Z := 2^64 - 1.

Definition HasExpiry (expiry_seconds : Z) : bool := negb (expiry_seconds =? kExpiryMax).

Definition IsPrefix (key prefix : string) : bool :=
  (String.length prefix <=? String.length key)%nat &&
  bool_decide (take (String.length prefix) (chars key) = chars prefix).

Section in_memory_cache.
Context {A : Type}.

Record ItemTuple := mkItem { tuple_key : string; tuple_expiry : Z; tuple_item : A; tuple_size : N }.

Definition DefaultCacheCost (value : ItemTuple) : Z :=
  let result := Z.of_N (tuple_size value) in if result =? 0 then 1 else result.

Context (cache_cost : ItemTuple -> Z).

(** The type of [item_tuples_]. *)
Abbreviation ItemTuples := (LruCache (K := string) (V := ItemTuple)).

Record InMemoryCache := mkCache {
  item_tuples_ : ItemTuples;
  item_expiries_ : gmap Z (list ItemTuple) }.

Definition InMemoryCache_new (max_size : Z) : InMemoryCache := mkCache (LruCache_new max_size) ∅.

(** [item_expiries_[t]]: a missing bucket is created. *)
Definition bucket (m : gmap Z (list ItemTuple)) (t : Z) : list ItemTuple := default [] (m !! t).

Fixpoint erase_first (key : string) (l : list ItemTuple) : list ItemTuple :=
  match l with
  | [] => []
  | it :: l => if decide (tuple_key it = key) then l else it :: erase_first key l
  end.

(** [OnEviction]: the tuple is erased from [item], a copy of the bucket; the
    bucket of the map keeps it. *)
Definition OnEviction (m : gmap Z (list ItemTuple)) (key : string) (value : ItemTuple)
  : gmap Z (list ItemTuple) :=
  let expiry := tuple_expiry value in
  if HasExpiry expiry then
    let item := bucket m expiry in
    let m := <[expiry := item]> m in
    let item := erase_first key item in
    if (length (bucket m expiry) =? 0)%nat then delete expiry m else m
  else m.

Definition OnEvictions (m : gmap Z (list ItemTuple)) (e : evictions (K := string) (V := ItemTuple)) :=
  foldl (fun m p => OnEviction m p.1 p.2) m e.

(** [PurgeExpired(expire_time)]; [None] is undefined behaviour of the LRU cache. *)
Definition purge_item (acc : option (ItemTuples * bool)) (item : ItemTuple) : option (ItemTuples * bool) :=
  '(tuples, ret) ← acc;
  '(tuples, erased) ← Erase cache_cost tuples (tuple_key item);
  Some (tuples, ret && erased).

Definition PurgeExpired_at (c : InMemoryCache) (expire_time : Z) : option (InMemoryCache * bool) :=
  '(tuples, ret) ← foldl purge_item (Some (item_tuples_ c, true)) (bucket (item_expiries_ c) expire_time);
  Some (mkCache tuples (delete expire_time (item_expiries_ c)), ret).

(** The keys of [item_expiries_] in the order of [std::map]. *)
Definition expiry_times (m : gmap Z (list ItemTuple)) : list Z := merge_sort Z.le (elements (dom m)).

(** [PurgeExpired()] *)
Definition purge_time (acc : option (InMemoryCache * bool)) (key : Z) : option (InMemoryCache * bool) :=
  '(c, ret) ← acc;
  '(c, r) ← PurgeExpired_at c key;
  Some (c, ret && r).

Definition PurgeExpired (c : InMemoryCache) (time_now : Z) : option (InMemoryCache * bool) :=
  let expired_keys := take_while (fun t => t <? time_now) (expiry_times (item_expiries_ c)) in
  foldl purge_time (Some (c, true)) expired_keys.

(** [Put]: [now] is the time of [PurgeExpired], [now'] the one added to the
    expiry; a signed overflow of that addition is undefined behaviour. *)
Definition Put (c : InMemoryCache) (key : string) (item : A) (expire_seconds : Z) (size : N) (now now' : Z)
  : option (InMemoryCache * bool) :=
  '(c, _) ← PurgeExpired c now;
  let expires := HasExpiry expire_seconds in
  if expires && (expire_seconds <=? 0) then Some (c, false)
  else
    expire_seconds ← (if expires then
                        if expire_seconds + now' <? 2^63 then Some (expire_seconds + now') else None
                      else Some expire_seconds);
    let item_tuple := mkItem key expire_seconds item size in
    '(tuples, e, (_, inserted)) ← InsertOrAssign cache_cost (item_tuples_ c) key item_tuple;
    let expiries := OnEvictions (item_expiries_ c) e in
    let expiries := if inserted && expires
                    then <[expire_seconds := bucket expiries expire_seconds ++ [item_tuple]]> expiries
                    else expiries in
    Some (mkCache tuples expiries, inserted).

Definition Get (c : InMemoryCache) (key : string) (now : Z) : option (InMemoryCache * option A) :=
  '(tuples, it) ← Find (item_tuples_ c) key;
  let c := mkCache tuples (item_expiries_ c) in
  match it with
  | Some _ =>
      value ← iterator_value tuples it;
      let expiry_time := tuple_expiry value in
      if expiry_time <? now then
        '(c, _) ← PurgeExpired_at c expiry_time; Some (c, None)
      else Some (c, Some (tuple_item value))
  | None => Some (c, None)
  end.

Definition Size (c : InMemoryCache) : Z := LruCache.Size (item_tuples_ c).

Definition Clear (c : InMemoryCache) : InMemoryCache := mkCache (LruCache.Clear (item_tuples_ c)) ∅.

Definition Remove (c : InMemoryCache) (key : string) : option (InMemoryCache * bool) :=
  '(tuples, erased) ← Erase cache_cost (item_tuples_ c) key;
  Some (mkCache tuples (item_expiries_ c), erased).

(** The loop of [RemoveKeysWithPrefix]; every round moves the iterator on. *)
Fixpoint remove_loop (fuel : nat) (tuples : ItemTuples) (it : option string) (key_prefix : string)
  (filter : option (string -> bool)) : option ItemTuples :=
  match it, fuel with
  | None, _ => Some tuples
  | Some _, O => None
  | Some key, S fuel =>
      if IsPrefix key key_prefix then
        if match filter with Some f => f key | None => false end then
          it ← iterator_next tuples it; remove_loop fuel tuples it key_prefix filter
        else
          '(tuples, it) ← Erase_iterator cache_cost tuples it;
          remove_loop fuel tuples it key_prefix filter
      else
        it ← iterator_next tuples it; remove_loop fuel tuples it key_prefix filter
  end.

Definition RemoveKeysWithPrefix (c : InMemoryCache) (key_prefix : string) (filter : option (string -> bool))
  : option InMemoryCache :=
  let tuples := item_tuples_ c in
  tuples ← remove_loop (size (map_ tuples)) tuples (cache_begin tuples) key_prefix filter;
  Some (mkCache tuples (item_expiries_ c)).

Definition Contains (c : InMemoryCache) (key : string) (now : Z) : option bool :=
  match FindNoPromote (item_tuples_ c) key with
  | Some k =>
      value ← iterator_value (item_tuples_ c) (Some k);
      Some (now <? tuple_expiry value)
  | None => Some false
  end.

(** ** Expiry buckets *)

Implicit Types (m : gmap Z (list ItemTuple)) (t now : Z) (k key : string) (c : InMemoryCache).

(** [OnEviction] never takes a tuple out of a bucket. *)
Lemma bucket_OnEviction m key value t : bucket (OnEviction m key value) t = bucket m t.
Proof.
  unfold OnEviction. destruct (HasExpiry (tuple_expiry value)); [|done].
  set (e := tuple_expiry value). unfold bucket at 2. rewrite lookup_insert_eq. simpl.
  destruct (Nat.eqb_spec (length (bucket m e)) 0) as [E|E].
  - apply length_zero_iff_nil in E. unfold bucket in *. destruct (decide (e = t)) as [->|].
    + by rewrite lookup_delete_eq, E.
    + by rewrite lookup_delete_ne, lookup_insert_ne.
  - unfold bucket. destruct (decide (e = t)) as [->|]; [by rewrite lookup_insert_eq|by rewrite lookup_insert_ne].
Qed.

Lemma bucket_OnEvictions e : forall m t, bucket (OnEvictions m e) t = bucket m t.
Proof.
  induction e as [|[k v] e IH]; intros m t; [done|]. unfold OnEvictions in *. simpl.
  by rewrite IH, bucket_OnEviction.
Qed.

(** The key is listed in the bucket of an expiry time before [now]. *)
Definition listed m now k : Prop := exists t, t < now /\ k ∈ tuple_key <$> bucket m t.

Lemma listed_mono m m' now k : (forall t, bucket m t = bucket m' t) -> listed m now k <-> listed m' now k.
Proof. intros E. unfold listed. by setoid_rewrite E. Qed.

Lemma Zle_sorted_cons t l : StronglySorted Z.le (t :: l) <-> (forall x, x ∈ l -> t <= x) /\ StronglySorted Z.le l.
Proof.
  split.
  - intros Hs. inversion Hs; subst. split; [|done]. by apply Forall_forall.
  - intros [H1 H2]. constructor; [done|]. by apply Forall_forall.
Qed.

(** The loop of [PurgeExpired()] stops at the first time that is not in the past. *)
Lemma take_while_sorted now l t : StronglySorted Z.le l ->
  t ∈ take_while (fun t => t <? now) l <-> t ∈ l /\ t < now.
Proof.
  induction l as [|x l IH]; [intros _; simpl; rewrite !elem_of_nil; tauto|].
  rewrite Zle_sorted_cons. intros [Hx Hs]. simpl. destruct (Z.ltb_spec x now).
  - rewrite !elem_of_cons, IH by done. naive_solver.
  - rewrite elem_of_nil, elem_of_cons. split; [done|]. intros [[->|Hin] Ht]; [lia|]. specialize (Hx _ Hin). lia.
Qed.

Lemma expiry_times_spec m : StronglySorted Z.le (expiry_times m) /\ (forall t, t ∈ expiry_times m <-> is_Some (m !! t)).
Proof.
  unfold expiry_times. split; [apply StronglySorted_merge_sort; apply _|].
  intros t. rewrite merge_sort_Permutation, elem_of_elements. apply elem_of_dom.
Qed.

Context (cost_nonneg : forall v, 0 <= cache_cost v).

Definition keep (ks : list string) (l : list (string * ItemTuple)) : list (string * ItemTuple) :=
  filter (fun p => p.1 ∉ ks) l.

Lemma keep_cons ks p l : keep ks (p :: l) = if decide (p.1 ∈ ks) then keep ks l else p :: keep ks l.
Proof. unfold keep. rewrite filter_cons. repeat case_decide; done. Qed.

Lemma keep_nil l : keep [] l = l.
Proof.
  induction l as [|p l IH]; [done|]. rewrite keep_cons, decide_False, IH; [done|]. apply not_elem_of_nil.
Qed.

Lemma remove_key_keep ks k l : keep ks (remove_key k l) = keep (k :: ks) l.
Proof.
  unfold remove_key. induction l as [|p l IH]; [done|]. rewrite keep_cons. simpl.
  destruct (decide (p.1 = k)) as [E|E].
  - rewrite bool_decide_true by done. simpl. rewrite decide_True by (rewrite E; left). done.
  - rewrite bool_decide_false by done. simpl. rewrite keep_cons, IH.
    destruct (decide (p.1 ∈ ks)); [rewrite decide_True by (by right)|rewrite decide_False]; [done|done|].
    rewrite elem_of_cons. naive_solver.
Qed.

Lemma keep_app ks ks' l : keep ks' (keep ks l) = keep (ks ++ ks') l.
Proof.
  unfold keep. rewrite list_filter_filter. apply list_filter_iff. intros p.
  rewrite not_elem_of_app. tauto.
Qed.

Lemma elem_of_keep ks p l : p ∈ keep ks l <-> p ∈ l /\ p.1 ∉ ks.
Proof. unfold keep. rewrite list_elem_of_filter. tauto. Qed.

Lemma keep_sublist ks l : keep ks l `sublist_of` l.
Proof. apply sublist_filter. Qed.

Lemma purge_items items : forall tuples s b, repr cache_cost tuples s ->
  exists tuples' b', foldl purge_item (Some (tuples, b)) items = Some (tuples', b') /\
    repr cache_cost tuples' (mkSpec (spec_max s) (keep (tuple_key <$> items) (spec_list s))).
Proof.
  induction items as [|it items IH]; intros tuples s b Hr.
  - exists tuples, b. rewrite fmap_nil, keep_nil. by destruct s.
  - cbn [foldl]; unfold purge_item at 2; cbn [mbind option_bind]. destruct (Erase_client cache_cost cost_nonneg tuples s (tuple_key it) Hr) as (t1 & -> & Hr1).
    cbn [mbind option_bind]. destruct (IH t1 _ (b && bool_decide (is_Some (assoc (tuple_key it) (spec_list s)))) Hr1)
      as (t2 & b2 & -> & Hr2). exists t2, b2. split; [done|]. cbn [spec_max spec_list] in Hr2.
    by rewrite remove_key_keep in Hr2.
Qed.

Lemma PurgeExpired_at_spec c s t : repr cache_cost (item_tuples_ c) s ->
  exists c' b, PurgeExpired_at c t = Some (c', b) /\
    item_expiries_ c' = delete t (item_expiries_ c) /\
    repr cache_cost (item_tuples_ c')
      (mkSpec (spec_max s) (keep (tuple_key <$> bucket (item_expiries_ c) t) (spec_list s))).
Proof.
  intros Hr. unfold PurgeExpired_at.
  destruct (purge_items (bucket (item_expiries_ c) t) _ _ true Hr) as (t' & b & -> & Hr').
  simpl. eauto 10.
Qed.

Lemma bucket_delete m t t' : bucket (delete t m) t' = if decide (t = t') then [] else bucket m t'.
Proof. unfold bucket. case_decide; [subst; by rewrite lookup_delete_eq|by rewrite lookup_delete_ne]. Qed.

Lemma purge_times ts : forall c s b, repr cache_cost (item_tuples_ c) s -> NoDup ts ->
  exists c' b', foldl purge_time (Some (c, b)) ts = Some (c', b') /\
    (forall t, item_expiries_ c' !! t = if decide (t ∈ ts) then None else item_expiries_ c !! t) /\
    repr cache_cost (item_tuples_ c')
      (mkSpec (spec_max s) (keep (mjoin ((fun t => tuple_key <$> bucket (item_expiries_ c) t) <$> ts)) (spec_list s))).
Proof.
  induction ts as [|t ts IH]; intros c s b Hr Hnd.
  - exists c, b. simpl. rewrite keep_nil. by destruct s.
  - cbn [foldl]; unfold purge_time at 2; cbn [mbind option_bind]. apply NoDup_cons in Hnd as [Hn Hnd].
    destruct (PurgeExpired_at_spec c s t Hr) as (c1 & r & -> & E1 & Hr1). cbn [mbind option_bind].
    destruct (IH c1 _ (b && r) Hr1 Hnd) as (c2 & b2 & -> & E2 & Hr2). exists c2, b2. split_and!; [done| |].
    + intros t'. rewrite E2, E1. destruct (decide (t' ∈ ts)) as [Hin|Hin].
      * rewrite decide_True; [done|by right].
      * destruct (decide (t = t')) as [->|].
        -- rewrite lookup_delete_eq, decide_True; [done|left].
        -- rewrite lookup_delete_ne, decide_False; [done|rewrite elem_of_cons; naive_solver|done].
    + cbn [spec_max spec_list] in Hr2. rewrite keep_app in Hr2. simpl. 
      replace (mjoin _) with (mjoin ((fun t => tuple_key <$> bucket (item_expiries_ c1) t) <$> ts)); [done|].
      f_equal. apply list_fmap_ext. intros i x Hx. rewrite E1, bucket_delete, decide_False; [done|].
      intros ->. apply Hn. by eapply list_elem_of_lookup_2.
Qed.

Lemma PurgeExpired_spec c s now : repr cache_cost (item_tuples_ c) s ->
  exists c' b l', PurgeExpired c now = Some (c', b) /\
    repr cache_cost (item_tuples_ c') (mkSpec (spec_max s) l') /\ l' `sublist_of` spec_list s /\
    (forall p, p ∈ l' <-> p ∈ spec_list s /\ ~ listed (item_expiries_ c) now p.1) /\
    (forall t, item_expiries_ c' !! t = if t <? now then None else item_expiries_ c !! t).
Proof.
  intros Hr. unfold PurgeExpired. destruct (expiry_times_spec (item_expiries_ c)) as [Hs Ht].
  set (ts := take_while _ _).
  assert (Hts : forall t, t ∈ ts <-> is_Some (item_expiries_ c !! t) /\ t < now).
  { intros t. unfold ts. rewrite take_while_sorted by done. by rewrite Ht. }
  destruct (purge_times ts c s true Hr) as (c' & b & E & Em & Hr').
  { eapply sublist_NoDup; [|apply take_while_sublist].
    unfold expiry_times. rewrite merge_sort_Permutation. apply NoDup_elements. }
  eexists c', b, _. split_and!; [done|done|apply keep_sublist| |].
  - intros p. rewrite elem_of_keep. apply and_iff_compat_l. unfold listed. apply not_iff_compat.
    rewrite list_elem_of_join. split.
    + intros (ks & Hk & Hin). apply list_elem_of_fmap in Hin as (t & -> & Hin). apply Hts in Hin as [_ Hlt]. eauto.
    + intros (t & Hlt & Hk). eexists. split; [done|]. apply list_elem_of_fmap. exists t. split; [done|].
      apply Hts. split; [|done]. unfold bucket in Hk. destruct (item_expiries_ c !! t); [done|].
      by apply elem_of_nil in Hk.
  - intros t. rewrite Em. destruct (item_expiries_ c !! t) eqn:E2.
    + destruct (Z.ltb_spec t now).
      * by rewrite decide_True by (apply Hts; rewrite E2; eauto).
      * rewrite decide_False; [done|]. rewrite Hts. lia.
    + by destruct (t <? now), (decide (t ∈ ts)).
Qed.

(** [PurgeExpired()] erases exactly the keys listed under an expiry time
    before now, keeps the order of the others, and drops exactly these expiry
    times.  It never looks at the expiry the cached tuple has now. *)
Theorem PurgeExpired_exact c s now : repr cache_cost (item_tuples_ c) s ->
  exists c' b l', PurgeExpired c now = Some (c', b) /\
    linked (item_tuples_ c') l' /\ l' `sublist_of` spec_list s /\
    (forall p, p ∈ l' <-> p ∈ spec_list s /\ ~ listed (item_expiries_ c) now p.1) /\
    (forall t, item_expiries_ c' !! t = if t <? now then None else item_expiries_ c !! t).
Proof.
  intros Hr. destruct (PurgeExpired_spec c s now Hr) as (c' & b & l' & E & Hr' & H). exists c', b, l'.
  split; [done|]. split; [apply Hr'|done].
Qed.

(** The list after [Put]. *)
Definition put_expiry (expire_seconds now' : Z) : Z :=
  if HasExpiry expire_seconds then expire_seconds + now' else expire_seconds.

Lemma Put_spec c s key item e sz now now' :
  repr cache_cost (item_tuples_ c) s -> (HasExpiry e = true -> e + now' < 2^63) ->
  cache_cost (mkItem key (put_expiry e now') item sz) < 2^63 ->
  exists c' b s', Put c key item e sz now now' = Some (c', b) /\ repr cache_cost (item_tuples_ c') s' /\
    spec_max s' = spec_max s /\
    (b = true -> exists l', spec_list s' = (key, mkItem key (put_expiry e now') item sz) :: l') /\
    (forall p, p ∈ spec_list s' -> p = (key, mkItem key (put_expiry e now') item sz) \/
       p ∈ spec_list s /\ (p.1 <> key \/ HasExpiry e && (e <=? 0) = true)).
Proof.
  intros Hr Hov Hc. unfold Put. destruct (PurgeExpired_spec c s now Hr) as (c1 & b1 & l1 & -> & Hr1 & Hsub & _).
  assert (Hin : forall p, p ∈ l1 -> p ∈ spec_list s) by (intros p Hp; by eapply elem_of_sublist).
  cbn [mbind option_bind]. destruct (HasExpiry e && (e <=? 0)); [eexists c1, false, _; split_and!; try done; auto|].
  assert ((if HasExpiry e then if e + now' <? 2^63 then Some (e + now') else None else Some e)
    = Some (put_expiry e now')) as ->.
  { unfold put_expiry. destruct (HasExpiry e); [|done]. specialize (Hov eq_refl). by btrue (e + now' <? 2^63). }
  cbn [mbind option_bind]. set (tup := mkItem _ _ _ _).
  destruct (InsertOrAssign_client cache_cost cost_nonneg _ _ key tup Hr1 Hc) as (t' & [it ins] & -> & Er & Hr2).
  simpl. eexists _, ins, _. split; [done|]. split; [exact Hr2|]. cbn [spec_step spec_max spec_list] in *.
  pose proof (loose_max _ _ _ (repr_list _ _ _ Hr1)) as Hmax. rewrite (repr_max _ _ _ Hr1) in Hmax. cbn [spec_max] in Hmax.
  assert (Hevict : forall (l : list (string * ItemTuple)) p, p ∈ fst (spec_evict cache_cost (spec_max s) l) -> p ∈ l).
  { intros l p. destruct (spec_evict_split cache_cost (spec_max s) l) as (n & -> & _); [lia|]. cbn [fst].
    intros Hp. apply (elem_of_sublist _ _ p Hp), sublist_take. }
  destruct (assoc key l1) as [old|] eqn:Ea.
  - pose proof (Hevict ((key, tup) :: remove_key key l1)) as He. destruct (spec_evict _ _ _). simpl in *. split; [done|].
    split; [by intros ->|]. intros p [->|[Hp Hne]%elem_of_remove_key]%He%elem_of_cons; auto.
  - assert (Hk : forall p, p ∈ l1 -> p.1 <> key).
    { intros [k v] Hp E. cbn [fst] in E. subst k. apply (assoc_elem key v l1 (repr_NoDup _ _ _ Hr1)) in Hp. congruence. }
    destruct (Z.gtb_spec (cache_cost tup) (spec_max s)); [simpl in *; split; [done|]; split; [by intros ->|auto]|].
    destruct (spec_evict_head cache_cost cost_nonneg (spec_max s) key tup l1) as [l' E]; [lia|].
    pose proof (Hevict ((key, tup) :: l1)) as He. destruct (spec_evict _ _ _). simpl in *. split; [done|]. split; [eauto|].
    intros p [->|Hp]%He%elem_of_cons; auto.
Qed.

Lemma Get_spec c s key now : repr cache_cost (item_tuples_ c) s ->
  exists c' s', Get c key now = Some (c', match assoc key (spec_list s) with
       | Some v => if tuple_expiry v <? now then None else Some (tuple_item v)
       | None => None end) /\ repr cache_cost (item_tuples_ c') s' /\ spec_max s' = spec_max s /\
    forall p, p ∈ spec_list s' -> p ∈ spec_list s.
Proof.
  intros Hr. unfold Get. destruct (Find_client cache_cost _ _ key Hr) as (t' & -> & Hr' & Hv).
  cbn [mbind option_bind]. cbn [spec_step] in Hr'.
  destruct (assoc key (spec_list s)) as [v|] eqn:Ea; [|by eexists _, _].
  assert (Hin : forall p, p ∈ (key, v) :: remove_key key (spec_list s) -> p ∈ spec_list s).
  { intros p [->|[Hp _]%elem_of_remove_key]%elem_of_cons; [|done]. by apply (assoc_elem _ _ _ (repr_NoDup _ _ _ Hr)). }
  rewrite (Hv v eq_refl). cbn [mbind option_bind].
  destruct (tuple_expiry v <? now); [|by eexists _, _].
  destruct (PurgeExpired_at_spec (mkCache t' (item_expiries_ c)) _ (tuple_expiry v) Hr') as (c2 & b & -> & _ & Hr2).
  simpl. eexists _, _. split; [done|]. split; [exact Hr2|]. split; [done|]. cbn [spec_list].
  intros p [Hp _]%elem_of_keep. auto.
Qed.

(** After a [Put] that returns true, [Get] at time [t] finds the item unless
    its expiry, the time of the [Put] plus the seconds given, is before [t]. *)
Theorem Put_then_Get c s key item e sz now now' t c1 :
  repr cache_cost (item_tuples_ c) s -> (HasExpiry e = true -> e + now' < 2^63) ->
  cache_cost (mkItem key (put_expiry e now') item sz) < 2^63 ->
  Put c key item e sz now now' = Some (c1, true) ->
  exists c2, Get c1 key t = Some (c2, if put_expiry e now' <? t then None else Some item).
Proof.
  intros Hr Hov Hc E. destruct (Put_spec c s key item e sz now now' Hr Hov Hc) as (c' & b & s' & E' & Hr' & _ & Hl & _).
  rewrite E in E'. injection E' as <- <-. destruct (Hl eq_refl) as [l' El].
  destruct (Get_spec c1 s' key t Hr') as (c2 & _ & -> & _). rewrite El, assoc_cons_eq. eauto.
Qed.

Lemma Contains_spec c s key now : repr cache_cost (item_tuples_ c) s ->
  Contains c key now = Some (match assoc key (spec_list s) with Some v => now <? tuple_expiry v | None => false end).
Proof.
  intros Hr. unfold Contains. destruct (FindNoPromote_client cache_cost _ _ key Hr) as [-> Hv].
  destruct (assoc key (spec_list s)) as [v|]; [|done]. by rewrite (Hv v eq_refl).
Qed.

(** [Get] returns the item of the cached tuple exactly while its expiry is
    not before now, and [Contains] holds exactly while the expiry is after now:
    at the second of the expiry [Get] finds an item that [Contains] denies. *)
Theorem Get_Contains c s key now :
  repr cache_cost (item_tuples_ c) s ->
  exists c' r b, Get c key now = Some (c', r) /\ Contains c key now = Some b /\
    (forall item, r = Some item <-> exists v, (key, v) ∈ spec_list s /\ tuple_item v = item /\ now <= tuple_expiry v) /\
    (b = true <-> exists v, (key, v) ∈ spec_list s /\ now < tuple_expiry v) /\
    (is_Some r /\ b = false <-> exists v, (key, v) ∈ spec_list s /\ tuple_expiry v = now).
Proof.
  intros Hr. destruct (Get_spec c s key now Hr) as (c' & s' & -> & _). rewrite (Contains_spec c s key now Hr).
  eexists _, _, _. split; [done|]. split; [done|].
  pose proof (fun v => assoc_elem key v (spec_list s) (repr_NoDup _ _ _ Hr)) as Ha.
  destruct (assoc key (spec_list s)) as [v|] eqn:E.
  - assert (Hu : forall v', (key, v') ∈ spec_list s <-> v' = v).
    { intros v'. rewrite <- Ha. naive_solver. }
    setoid_rewrite Hu. split_and!.
    + intros item. destruct (Z.ltb_spec (tuple_expiry v) now); split.
      * done.
      * intros (v' & -> & _ & ?). lia.
      * intros [= <-]. by exists v.
      * by intros (v' & -> & -> & _).
    + rewrite Z.ltb_lt. split; [by exists v|]. by intros (v' & -> & ?).
    + rewrite Z.ltb_ge. split.
      * intros [Hs Hle]. exists v. split; [done|].
        destruct (Z.ltb_spec (tuple_expiry v) now); [by destruct Hs|lia].
      * intros (v' & -> & <-). rewrite Z.ltb_irrefl. split; [eauto|lia].
  - setoid_rewrite <- Ha. split_and!; unfold is_Some; naive_solver.
Qed.

(** [RemoveKeysWithPrefix] keeps the keys without the prefix and the protected ones. *)
Definition kept (key_prefix : string) (filter : option (string -> bool)) (key : string) : bool :=
  negb (IsPrefix key key_prefix) || match filter with Some f => f key | None => false end.

Lemma remove_loop_spec key_prefix f l2 : forall fuel tuples max l1,
  repr cache_cost tuples (mkSpec max (l1 ++ l2)) -> (length l2 <= fuel)%nat ->
  exists tuples', remove_loop fuel tuples (hd_key l2) key_prefix f = Some tuples' /\
    repr cache_cost tuples' (mkSpec max (l1 ++ List.filter (fun p => kept key_prefix f p.1) l2)).
Proof.
  induction l2 as [|[k v] l2 IH]; intros fuel tuples max l1 Hr Hf.
  - exists tuples. split; [by destruct fuel|done].
  - destruct fuel as [|fuel]; simpl in Hf; [lia|].
    pose proof (loose_linked _ _ _ (repr_list _ _ _ Hr)) as Hl. simpl in Hl.
    cbn [hd_key head fmap option_fmap option_map fst remove_loop List.filter].
    assert (Hkeep : kept key_prefix f k = true ->
      exists tuples', (it ← iterator_next tuples (Some k); remove_loop fuel tuples it key_prefix f) = Some tuples' /\
        repr cache_cost tuples' (mkSpec max (l1 ++ (k, v) :: List.filter (fun p => kept key_prefix f p.1) l2))).
    { intros _. rewrite (iterator_next_client _ _ _ _ _ Hl). cbn [mbind option_bind].
      destruct (IH fuel tuples max (l1 ++ [(k, v)])) as (t' & E & Hr'); [by rewrite <- app_assoc|lia|].
      rewrite <- app_assoc in Hr'. eauto. }
    destruct (kept key_prefix f k) eqn:Ek; unfold kept in Ek.
    { destruct (IsPrefix k key_prefix); [|by apply Hkeep].
      destruct (match f with Some f => f k | None => false end); [by apply Hkeep|done]. }
    destruct (IsPrefix k key_prefix); [|done].
    destruct (match f with Some f => f k | None => false end); [done|].
    destruct (Erase_iterator_client cache_cost cost_nonneg _ _ _ _ _ _ Hr) as (t1 & -> & Hr1). simpl.
    apply IH; [done|lia].
Qed.

Lemma RemoveKeysWithPrefix_spec c s key_prefix filter :
  repr cache_cost (item_tuples_ c) s ->
  exists t' : ItemTuples, RemoveKeysWithPrefix c key_prefix filter = Some (mkCache t' (item_expiries_ c)) /\
    repr cache_cost t' (mkSpec (spec_max s) (List.filter (fun p => kept key_prefix filter p.1) (spec_list s))).
Proof.
  intros Hr. unfold RemoveKeysWithPrefix. pose proof (loose_linked _ _ _ (repr_list _ _ _ Hr)) as Hl.
  unfold cache_begin. rewrite (linked_size _ _ Hl), (linked_first _ _ Hl).
  destruct (remove_loop_spec key_prefix filter (spec_list s) (length (spec_list s)) (item_tuples_ c) (spec_max s) [])
    as (t' & -> & Hr'); [by destruct s|lia|]. simpl. eauto.
Qed.

(** [RemoveKeysWithPrefix] erases exactly the unprotected keys with the
    prefix, whatever it erases while it iterates, and keeps the order of the
    others. *)
Theorem RemoveKeysWithPrefix_exact c s key_prefix filter :
  repr cache_cost (item_tuples_ c) s ->
  exists c', RemoveKeysWithPrefix c key_prefix filter = Some c' /\ item_expiries_ c' = item_expiries_ c /\
    repr cache_cost (item_tuples_ c')
      (mkSpec (spec_max s) (List.filter (fun p => kept key_prefix filter p.1) (spec_list s))).
Proof.
  intros Hr. destruct (RemoveKeysWithPrefix_spec c s key_prefix filter Hr) as (t' & -> & Hr'). eauto.
Qed.

(** ** Sequences of operations *)

Inductive cache_op :=
| CPut (key : string) (item : A) (expire_seconds : Z) (size : N) (now now' : Z)
| CGet (key : string) (now : Z)
| CContains (key : string) (now : Z)
| CRemove (key : string)
| CRemoveKeysWithPrefix (key_prefix : string) (filter : option (string -> bool))
| CClear.

Inductive cache_result := RBool (b : bool) | RItem (item : option A) | RDone.

Definition cache_step (o : cache_op) (c : InMemoryCache) : option (InMemoryCache * cache_result) :=
  match o with
  | CPut key item e size now now' => '(c, b) ← Put c key item e size now now'; Some (c, RBool b)
  | CGet key now => '(c, r) ← Get c key now; Some (c, RItem r)
  | CContains key now => b ← Contains c key now; Some (c, RBool b)
  | CRemove key => '(c, b) ← Remove c key; Some (c, RBool b)
  | CRemoveKeysWithPrefix p f => c ← RemoveKeysWithPrefix c p f; Some (c, RDone)
  | CClear => Some (Clear c, RDone)
  end.

Fixpoint cache_run (ops : list cache_op) (c : InMemoryCache) : option (InMemoryCache * list cache_result) :=
  match ops with
  | [] => Some (c, [])
  | o :: ops => '(c, r) ← cache_step o c; '(c, rs) ← cache_run ops c; Some (c, r :: rs)
  end.

Definition cache_op_ok (o : cache_op) : Prop :=
  match o with
  | CPut key item e size now now' =>
      (HasExpiry e = true -> e + now' < 2^63) /\ cache_cost (mkItem key (put_expiry e now') item size) < 2^63
  | _ => True
  end.

Lemma cache_step_safe o c s : repr cache_cost (item_tuples_ c) s -> cache_op_ok o ->
  exists c' r s', cache_step o c = Some (c', r) /\ repr cache_cost (item_tuples_ c') s' /\ spec_max s' = spec_max s.
Proof.
  intros Hr Hok. destruct o as [key item e size now now'|key now|key now|key|p f|]; cbn [cache_step].
  - destruct Hok as [H1 H2]. destruct (Put_spec c s key item e size now now' Hr H1 H2) as (c' & b & s' & -> & Hr' & Hm & _).
    simpl. eauto 10.
  - destruct (Get_spec c s key now Hr) as (c' & s' & -> & Hr' & Hm & _). simpl. eauto 10.
  - rewrite (Contains_spec c s key now Hr). simpl. eauto 10.
  - unfold Remove. destruct (Erase_client cache_cost cost_nonneg _ _ key Hr) as (t' & -> & Hr'). simpl. by eexists _, _, _.
  - destruct (RemoveKeysWithPrefix_spec c s p f Hr) as (t' & -> & Hr'). simpl. by eexists _, _, _.
  - eexists _, _, _. split; [done|]. split; [by apply Clear_client|done].
Qed.

(** C33: no sequence of operations on a new cache has undefined behaviour, and the size
    stays at most the maximum size.  This is for sequences in which the end of every time
    to live is before 2^63 (the sum is a signed overflow otherwise: Put_expiry_overflows),
    every element costs less than 2^63, and for maximum sizes below 2^63: the default,
    SIZE_MAX, is not one of these, since the size of a cache with it could wrap around. *)
Theorem InMemoryCache_safe ops max_size :
  0 <= max_size < 2^63 -> Forall cache_op_ok ops ->
  exists c rs, cache_run ops (InMemoryCache_new max_size) = Some (c, rs) /\ 0 <= Size c <= max_size.
Proof.
  intros Hm Hok. assert (H : forall c s, repr cache_cost (item_tuples_ c) s -> spec_max s = max_size ->
    exists c' rs, cache_run ops c = Some (c', rs) /\ 0 <= Size c' <= max_size).
  { induction Hok as [|o ops Ho Hops IH]; intros c s Hr Hs.
    - exists c, []. split; [done|]. unfold Size, LruCache.Size.
      pose proof (repr_bound _ _ _ Hr). pose proof (repr_max _ _ _ Hr).
      pose proof (loose_size _ _ _ (repr_list _ _ _ Hr)). pose proof (total_nonneg _ cost_nonneg (spec_list s)). lia.
    - destruct (cache_step_safe o c s Hr Ho) as (c1 & r & s1 & E1 & Hr1 & Hs1). cbn [cache_run]. rewrite E1.
      cbn [mbind option_bind]. destruct (IH c1 s1 Hr1) as (c2 & rs & -> & Hsz); [congruence|]. simpl. eauto. }
  eapply H; [by apply repr_new|done].
Qed.
End in_memory_cache.



(** ** Concrete inputs *)

Definition unit_cost (v : ItemTuple (A := Z)) : Z := 1.

Lemma unit_cost_nonneg v : 0 <= unit_cost v.
Proof. unfold unit_cost. lia. Qed.

(** Overwriting a key leaves the expiry of the old tuple behind: a key put
    with ten seconds to live and then without expiry is found until the old
    expiry has passed and any other key is put, and is then gone although it has
    no expiry; the overwriting [Put] reports failure as well. *)
Theorem overwrite_purged_early :
  let run := cache_run unit_cost
    [CPut "k" 1 10 1 0 0; CPut "k" 2 kExpiryMax 1 0 0; CGet "k" 11; CPut "x" 3 kExpiryMax 1 11 11; CGet "k" 11]
    (InMemoryCache_new 100) in
  snd <$> run = Some [RBool true; RBool false; RItem (Some 2); RBool true; RItem None].
Proof. vm_compute. reflexivity. Qed.

Lemma sample_in_memory : exists c, cache_run unit_cost [CPut "ab" 1 10 1 0 0; CPut "ac" 2 20 1 0 0] (InMemoryCache_new 3)
    = Some (c, [RBool true; RBool true]) /\
  repr unit_cost (item_tuples_ c) (mkSpec 3 [("ac", mkItem "ac" 20 2 1); ("ab", mkItem "ab" 10 1 1)]) /\
  item_expiries_ c = <[20 := [mkItem "ac" 20 2 1]]> {[10 := [mkItem "ab" 10 1 1]]}.
Proof.
  eexists. split; [vm_compute; reflexivity|]. split; [|vm_compute; reflexivity].
  destruct (run_refines unit_cost unit_cost_nonneg
     [OpInsertOrAssign "ab" (mkItem "ab" 10 1 1); OpInsertOrAssign "ac" (mkItem "ac" 20 2 1)]
     (LruCache_new 3) (mkSpec 3 []) (repr_new unit_cost 3 ltac:(lia))
     ltac:(repeat constructor)) as (c & E & Hr).
  vm_compute in E. injection E as <-. exact Hr.
Qed.

Lemma PurgeExpired_exact_witness : exists c s,
  repr unit_cost (item_tuples_ c) s /\
  exists c' b l', PurgeExpired unit_cost c 15 = Some (c', b) /\
    linked (item_tuples_ c') l' /\ l' `sublist_of` spec_list s /\
    (forall p, p ∈ l' <-> p ∈ spec_list s /\ ~ listed (item_expiries_ c) 15 p.1) /\
    (forall t, item_expiries_ c' !! t = if t <? 15 then None else item_expiries_ c !! t).
Proof.
  destruct sample_in_memory as (c & _ & Hr & _). exists c. eexists. split; [exact Hr|].
  apply (PurgeExpired_exact unit_cost unit_cost_nonneg c _ 15 Hr).
Defined.

Lemma Put_then_Get_witness : exists c s c1,
  repr unit_cost (item_tuples_ c) s /\ Put unit_cost c "k" 7 5 1 0 0 = Some (c1, true) /\
  exists c2, Get unit_cost c1 "k" 4 = Some (c2, if put_expiry 5 0 <? 4 then None else Some 7).
Proof.
  exists (InMemoryCache_new 3), (mkSpec 3 []). eexists. split; [apply (repr_new unit_cost 3); lia|].
  split; [vm_compute; reflexivity|].
  apply (Put_then_Get unit_cost unit_cost_nonneg (InMemoryCache_new 3) (mkSpec 3 []) "k" 7 5 1 0 0 4).
  - apply (repr_new unit_cost 3); lia.
  - intros _. lia.
  - reflexivity.
  - vm_compute. reflexivity.
Defined.

Lemma Get_Contains_witness : exists c s,
  repr unit_cost (item_tuples_ c) s /\
  exists c' r b, Get unit_cost c "ab" 10 = Some (c', r) /\ Contains c "ab" 10 = Some b /\
    (forall item, r = Some item <-> exists v, ("ab", v) ∈ spec_list s /\ tuple_item v = item /\ 10 <= tuple_expiry v) /\
    (b = true <-> exists v, ("ab", v) ∈ spec_list s /\ 10 < tuple_expiry v) /\
    (is_Some r /\ b = false <-> exists v, ("ab", v) ∈ spec_list s /\ tuple_expiry v = 10).
Proof.
  destruct sample_in_memory as (c & _ & Hr & _). exists c. eexists. split; [exact Hr|].
  apply (Get_Contains unit_cost unit_cost_nonneg c _ "ab" 10 Hr).
Defined.

Lemma RemoveKeysWithPrefix_exact_witness : exists c s,
  repr unit_cost (item_tuples_ c) s /\
  exists c', RemoveKeysWithPrefix unit_cost c "a" (Some (fun k => bool_decide (k = "ab"))) = Some c' /\
    item_expiries_ c' = item_expiries_ c /\
    repr unit_cost (item_tuples_ c') (mkSpec (spec_max s)
      (List.filter (fun p => kept "a" (Some (fun k => bool_decide (k = "ab"))) p.1) (spec_list s))).
Proof.
  destruct sample_in_memory as (c & _ & Hr & _). exists c. eexists. split; [exact Hr|].
  apply (RemoveKeysWithPrefix_exact unit_cost unit_cost_nonneg c _ "a" _ Hr).
Defined.

(** The longest time to live that is not taken for none overflows from the time 2 on. *)
Example Put_expiry_overflows :
  cache_run unit_cost [CPut "a" 1 (kExpiryMax - 1) 1 2 2] (InMemoryCache_new 1) = None /\
  is_Some (cache_run unit_cost [CPut "a" 1 kExpiryMax 1 2 2] (InMemoryCache_new 1)).
Proof. split; [reflexivity|]. eexists. vm_compute. reflexivity. Qed.

Lemma InMemoryCache_safe_witness : exists c rs,
  cache_run unit_cost [CPut "a" 1 5 1 0 0; CPut "b" 1 kExpiryMax 1 1 1; CGet "a" 9; CRemoveKeysWithPrefix "b" None]
    (InMemoryCache_new 1) = Some (c, rs) /\ 0 <= Size c <= 1.
Proof.
  apply (InMemoryCache_safe unit_cost unit_cost_nonneg); [lia|].
  repeat first [apply List.Forall_cons | apply List.Forall_nil]; try exact I; split; try reflexivity;
    intros E; first [lia | discriminate E].
Defined.
