(* ===== verification/Hrn.v ===== *)
(** * HERE resource names

    Model of [olp::client::Tokenizer] (src/client/Tokenizer.h) and
    [olp::client::HRN] (src/client/HRN.cpp): the parser, the two printers, the
    comparison and the validity check, with the round trips between them. *)

From S2P Require Import Prelude.

(** ** The tokenizer *)

Module Tokenizer.

(** [pos_] is [None] for [std::string::npos]. *)
Record Tokenizer := mkTokenizer { str_ : list ascii; pos_ : option nat; sep_ : ascii }.

Definition make (input : list ascii) (separator : ascii) : Tokenizer :=
  mkTokenizer input (Some 0%nat) separator.

(** [s.find_first_of(c, pos)] *)
Fixpoint find_from (c : ascii) (s : list ascii) (pos : nat) : option nat :=
  match s with
  | [] => None
  | x :: s =>
      match pos with
      | O => if decide (x = c) then Some O else S <$> find_from c s O
      | S pos => S <$> find_from c s pos
      end
  end.

(** [s.substr(pos)] and [s.substr(pos, count)] *)
Definition substr_from (s : list ascii) (pos : nat) : list ascii := drop pos s.
Definition substr (s : list ascii) (pos count : nat) : list ascii := take count (drop pos s).

Definition HasNext (t : Tokenizer) : bool :=
  negb (match str_ t with [] => true | _ => false end) && bool_decide (is_Some (pos_ t)).

Definition Next (t : Tokenizer) : list ascii * Tokenizer :=
  match pos_ t with
  | None => ([], t)
  | Some start =>
      match find_from (sep_ t) (str_ t) start with
      | None => (substr_from (str_ t) start, mkTokenizer (str_ t) None (sep_ t))
      | Some separator_position =>
          (substr (str_ t) start (separator_position - start),
           mkTokenizer (str_ t) (Some (separator_position + 1)%nat) (sep_ t))
      end
  end.

Definition Tail (t : Tokenizer) : list ascii * Tokenizer :=
  match pos_ t with
  | None => ([], t)
  | Some start => (substr_from (str_ t) start, mkTokenizer (str_ t) None (sep_ t))
  end.

End Tokenizer.
Import Tokenizer.

(** ** The resource names *)

Definition kDataTag := chars "data".
Definition kPipelineTag := chars "pipeline".
Definition kSchemaTag := chars "schema".
Definition kHrnTag := chars "hrn:".
Definition kSeparator : ascii := ":"%char.

Inductive ServiceType := Unknown | Data | Schema | Pipeline.

#[export] Instance ServiceType_eq_dec : EqDecision ServiceType.
Proof. solve_decision. Defined.

Record HRN := mkHRN {
  partition_ : list ascii;
  service_ : ServiceType;
  region_ : list ascii;
  account_ : list ascii;
  catalog_id_ : list ascii;
  layer_id_ : list ascii;
  group_id_ : list ascii;
  schema_name_ : list ascii;
  version_ : list ascii;
  pipeline_id_ : list ascii }.

#[export] Instance HRN_eq_dec : EqDecision HRN.
Proof. solve_decision. Defined.

Definition HRN_default : HRN := mkHRN [] Unknown [] [] [] [] [] [] [] [].

Definition ToString (h : HRN) : list ascii :=
  match service_ h with
  | Data =>
      kHrnTag ++ partition_ h ++ [kSeparator] ++ kDataTag ++ [kSeparator] ++ region_ h ++
      [kSeparator] ++ account_ h ++ [kSeparator] ++ catalog_id_ h ++
      match layer_id_ h with [] => [] | _ => [kSeparator] ++ layer_id_ h end
  | Schema =>
      kHrnTag ++ partition_ h ++ [kSeparator] ++ kSchemaTag ++ [kSeparator] ++ region_ h ++
      [kSeparator] ++ account_ h ++ [kSeparator] ++ group_id_ h ++ [kSeparator] ++
      schema_name_ h ++ [kSeparator] ++ version_ h
  | Pipeline =>
      kHrnTag ++ partition_ h ++ [kSeparator] ++ kPipelineTag ++ [kSeparator] ++ region_ h ++
      [kSeparator] ++ account_ h ++ [kSeparator] ++ pipeline_id_ h
  | Unknown =>
      kHrnTag ++ partition_ h ++ [kSeparator] ++ [kSeparator] ++ region_ h ++ [kSeparator] ++
      account_ h ++ [kSeparator]
  end.

Definition ToCatalogHRNString (h : HRN) : list ascii :=
  if decide (service_ h <> Data) then []
  else
    kHrnTag ++ partition_ h ++ [kSeparator] ++ kDataTag ++ [kSeparator] ++ region_ h ++
    [kSeparator] ++ account_ h ++ [kSeparator] ++ catalog_id_ h.

(** [if (tokenizer.HasNext()) field = tokenizer.Next();] *)
Definition next_field (t : Tokenizer) (old : list ascii) : list ascii * Tokenizer :=
  if HasNext t then Next t else (old, t).
Definition tail_field (t : Tokenizer) (old : list ascii) : list ascii * Tokenizer :=
  if HasNext t then Tail t else (old, t).

(** The service token: [None] when the constructor returns. *)
Definition parse_service (t : Tokenizer) : option (ServiceType * Tokenizer) :=
  if HasNext t then
    let '(service_str, t) := Next t in
    if decide (service_str = kDataTag) then Some (Data, t)
    else if decide (service_str = kSchemaTag) then Some (Schema, t)
    else if decide (service_str = kPipelineTag) then Some (Pipeline, t)
    else None
  else Some (Unknown, t).

(** [HRN::HRN(const std::string& input)] *)
Definition HRN_of_string (input : list ascii) : HRN :=
  let t := Tokenizer.make input kSeparator in
  if negb (HasNext t) then HRN_default
  else
    let '(protocol, t) := Next t in
    if decide (protocol <> chars "hrn") then HRN_default
    else
      let '(partition, t) := next_field t [] in
      match parse_service t with
      | None => mkHRN partition Unknown [] [] [] [] [] [] [] []
      | Some (service, t) =>
          let '(region, t) := next_field t [] in
          let '(account, t) := next_field t [] in
          match service with
          | Data =>
              let '(catalog_id, t) := next_field t [] in
              let '(layer_id, t) := tail_field t [] in
              mkHRN partition Data region account catalog_id layer_id [] [] [] []
          | Schema =>
              let '(group_id, t) := next_field t [] in
              let '(schema_name, t) := next_field t [] in
              let '(version, t) := tail_field t [] in
              mkHRN partition Schema region account [] [] group_id schema_name version []
          | Pipeline =>
              let '(pipeline_id, t) := tail_field t [] in
              mkHRN partition Pipeline region account [] [] [] [] [] pipeline_id
          | Unknown => mkHRN partition Unknown region account [] [] [] [] [] []
          end
      end.

Definition FromString (input : list ascii) : HRN := HRN_of_string input.

Definition HRN_eqb (h rhs : HRN) : bool :=
  if negb (bool_decide (partition_ h = partition_ rhs)) || negb (bool_decide (service_ h = service_ rhs))
     || negb (bool_decide (region_ h = region_ rhs)) || negb (bool_decide (account_ h = account_ rhs))
  then false
  else
    match service_ h with
    | Data => bool_decide (catalog_id_ h = catalog_id_ rhs) && bool_decide (layer_id_ h = layer_id_ rhs)
    | Schema => bool_decide (group_id_ h = group_id_ rhs) && bool_decide (schema_name_ h = schema_name_ rhs)
                && bool_decide (version_ h = version_ rhs)
    | Pipeline => bool_decide (pipeline_id_ h = pipeline_id_ rhs)
    | Unknown => false
    end.

Definition empty (s : list ascii) : bool := match s with [] => true | _ => false end.

Definition IsNull (h : HRN) : bool :=
  match service_ h with
  | Data => empty (partition_ h) || empty (catalog_id_ h)
  | Schema => empty (partition_ h) || empty (group_id_ h) || empty (schema_name_ h) || empty (version_ h)
  | Pipeline => empty (partition_ h) || empty (pipeline_id_ h)
  | Unknown => true
  end.

Example HRN_of_string_1 :
  HRN_of_string (chars "hrn:here:data::olp:cat:layer:a") =
  mkHRN (chars "here") Data [] (chars "olp") (chars "cat") (chars "layer:a") [] [] [] [].
Proof. vm_compute. reflexivity. Qed.

(** ** Tokens *)

(** A field that the tokenizer returns whole. *)
Definition plain (s : list ascii) : Prop := kSeparator ∉ s.

(** The tokenizer with the text [rest] still to be read. *)
Definition at_rest (rest : list ascii) (t : Tokenizer) : Prop :=
  sep_ t = kSeparator /\ exists done n, str_ t = done ++ rest /\ pos_ t = Some n /\ n = length done /\ str_ t <> [].

Definition finished (t : Tokenizer) : Prop := pos_ t = None.

Lemma find_from_skip c a b : find_from c (a ++ b) (length a) = (fun i => (length a + i)%nat) <$> find_from c b 0.
Proof.
  induction a as [|x a IH]; simpl.
  - by destruct (find_from c b 0).
  - rewrite IH. by destruct (find_from c b 0).
Qed.

Lemma find_from_plain s b : plain s -> find_from kSeparator (s ++ kSeparator :: b) 0 = Some (length s).
Proof.
  unfold plain. induction s as [|x s IH]; intros Hs.
  - cbn [app find_from]. by rewrite decide_True.
  - apply not_elem_of_cons in Hs as [Hx Hs]. cbn [app find_from length]. rewrite decide_False by done.
    by rewrite (IH Hs).
Qed.

Lemma find_from_none s : plain s -> find_from kSeparator s 0 = None.
Proof.
  unfold plain. induction s as [|x s IH]; intros Hs; [done|].
  apply not_elem_of_cons in Hs as [Hx Hs]. cbn [find_from]. rewrite decide_False by done. by rewrite (IH Hs).
Qed.

Lemma at_rest_HasNext rest t : at_rest rest t -> HasNext t = true.
Proof.
  intros (_ & d & n & E & Ep & _ & Hne). unfold HasNext. rewrite Ep, bool_decide_true by done.
  by destruct (str_ t).
Qed.

Lemma finished_HasNext t : finished t -> HasNext t = false.
Proof. intros E. unfold HasNext. rewrite E. rewrite bool_decide_false by (by intros []). apply andb_false_r. Qed.

Lemma Next_sep s rest t : plain s -> at_rest (s ++ kSeparator :: rest) t ->
  exists t', Next t = (s, t') /\ at_rest rest t'.
Proof.
  intros Hs (Hsep & d & n & E & Ep & -> & Hne). unfold Next. rewrite Ep, Hsep, E, find_from_skip.
  rewrite find_from_plain by done. simpl. eexists. split.
  - f_equal. unfold substr. rewrite drop_app_length. replace (_ + _ - _)%nat with (length s) by lia.
    apply take_app_length.
  - split; [done|]. exists (d ++ s ++ [kSeparator]), (length d + length s + 1)%nat. simpl.
    split_and!; [by rewrite <- !app_assoc|done| |by rewrite <- E].
    rewrite !length_app. simpl. lia.
Qed.

Lemma Next_last s t : plain s -> at_rest s t -> exists t', Next t = (s, t') /\ finished t'.
Proof.
  intros Hs (Hsep & d & n & E & Ep & -> & Hne). unfold Next. rewrite Ep, Hsep, E, find_from_skip.
  rewrite find_from_none by done. simpl. eexists. split.
  - f_equal. unfold substr_from. apply drop_app_length.
  - done.
Qed.

Lemma Tail_all s t : at_rest s t -> exists t', Tail t = (s, t') /\ finished t'.
Proof.
  intros (Hsep & d & n & E & Ep & -> & Hne). unfold Tail. rewrite Ep, E. eexists. split.
  - f_equal. apply drop_app_length.
  - done.
Qed.

Lemma next_field_sep s rest t old : plain s -> at_rest (s ++ kSeparator :: rest) t ->
  exists t', next_field t old = (s, t') /\ at_rest rest t'.
Proof. intros Hs Ht. unfold next_field. rewrite (at_rest_HasNext _ _ Ht). by apply Next_sep. Qed.

Lemma next_field_last s t old : plain s -> at_rest s t -> exists t', next_field t old = (s, t') /\ finished t'.
Proof. intros Hs Ht. unfold next_field. rewrite (at_rest_HasNext _ _ Ht). by apply Next_last. Qed.

Lemma tail_field_all s t old : at_rest s t -> exists t', tail_field t old = (s, t') /\ finished t'.
Proof. intros Ht. unfold tail_field. rewrite (at_rest_HasNext _ _ Ht). by apply Tail_all. Qed.

Lemma finished_fields t old : finished t -> next_field t old = (old, t) /\ tail_field t old = (old, t).
Proof. intros Ht. unfold next_field, tail_field. by rewrite (finished_HasNext _ Ht). Qed.

(** ** Round trips *)

(** The fields that the service does not use are empty, and every field but the
    last one of a service has no separator. *)
Definition well_formed (h : HRN) : Prop :=
  plain (partition_ h) /\ plain (region_ h) /\ plain (account_ h) /\
  match service_ h with
  | Data => plain (catalog_id_ h) /\ group_id_ h = [] /\ schema_name_ h = [] /\ version_ h = [] /\ pipeline_id_ h = []
  | Schema => plain (group_id_ h) /\ plain (schema_name_ h) /\ catalog_id_ h = [] /\ layer_id_ h = [] /\ pipeline_id_ h = []
  | Pipeline => catalog_id_ h = [] /\ layer_id_ h = [] /\ group_id_ h = [] /\ schema_name_ h = [] /\ version_ h = []
  | Unknown => False
  end.

Lemma make_at_rest input : input <> [] -> at_rest input (make input kSeparator).
Proof. intros Hne. split; [done|]. by exists [], 0%nat. Qed.

Lemma plain_literals : plain (chars "hrn") /\ plain kDataTag /\ plain kSchemaTag /\ plain kPipelineTag.
Proof. unfold plain. split_and!; by apply (bool_decide_unpack _); vm_compute. Qed.

(** The service token of each of the three services. *)
Definition service_tag (s : ServiceType) : list ascii :=
  match s with Data => kDataTag | Schema => kSchemaTag | Pipeline => kPipelineTag | Unknown => [] end.

Lemma parse_service_tag s rest t :
  s <> Unknown -> at_rest (service_tag s ++ kSeparator :: rest) t ->
  exists t', parse_service t = Some (s, t') /\ at_rest rest t'.
Proof.
  intros Hs Ht. unfold parse_service. rewrite (at_rest_HasNext _ _ Ht).
  destruct plain_literals as (_ & P1 & P2 & P3).
  destruct (Next_sep (service_tag s) rest t) as (t' & -> & Ht'); [by destruct s|done|].
  exists t'. split; [|done]. by destruct s.
Qed.

(** The common part of a resource name. *)
Definition prefix_text (p : list ascii) (s : ServiceType) (r a rest : list ascii) : list ascii :=
  kHrnTag ++ p ++ [kSeparator] ++ service_tag s ++ [kSeparator] ++ r ++ [kSeparator] ++ a ++ kSeparator :: rest.

(** What the constructor does once the common part is read. *)
Lemma HRN_of_prefix p s r a rest :
  plain p -> plain r -> plain a -> s <> Unknown ->
  exists t, at_rest rest t /\
    HRN_of_string (prefix_text p s r a rest) =
      match s with
      | Data =>
          let '(catalog_id, t) := next_field t [] in
          let '(layer_id, t) := tail_field t [] in
          mkHRN p Data r a catalog_id layer_id [] [] [] []
      | Schema =>
          let '(group_id, t) := next_field t [] in
          let '(schema_name, t) := next_field t [] in
          let '(version, t) := tail_field t [] in
          mkHRN p Schema r a [] [] group_id schema_name version []
      | Pipeline =>
          let '(pipeline_id, t) := tail_field t [] in
          mkHRN p Pipeline r a [] [] [] [] [] pipeline_id
      | Unknown => mkHRN p Unknown r a [] [] [] [] [] []
      end.
Proof.
  intros Hp Hr Ha Hs. unfold HRN_of_string.
  change (prefix_text p s r a rest) with (chars "hrn" ++ kSeparator :: p ++ kSeparator :: service_tag s ++
    kSeparator :: r ++ kSeparator :: a ++ kSeparator :: rest).
  set (input := _ ++ _).
  assert (at_rest input (make input kSeparator)) as H0 by by apply make_at_rest.
  rewrite (at_rest_HasNext _ _ H0). cbn [negb].
  destruct (Next_sep (chars "hrn") _ _ (proj1 plain_literals) H0) as (t1 & -> & H1). cbv iota beta.
  rewrite decide_False by tauto.
  destruct (next_field_sep p _ t1 [] Hp H1) as (t2 & -> & H2). 
  destruct (parse_service_tag s _ t2 Hs H2) as (t3 & -> & H3).
  destruct (next_field_sep r _ t3 [] Hr H3) as (t4 & -> & H4).
  destruct (next_field_sep a _ t4 [] Ha H4) as (t5 & -> & H5).
  exists t5. split; [done|]. by destruct s.
Qed.

Lemma HRN_of_data p r a c l tail :
  plain p -> plain r -> plain a -> plain c ->
  (tail = [] /\ l = [] \/ tail = kSeparator :: l) ->
  HRN_of_string (prefix_text p Data r a (c ++ tail)) = mkHRN p Data r a c l [] [] [] [].
Proof.
  intros Hp Hr Ha Hc Htail. destruct (HRN_of_prefix p Data r a (c ++ tail)) as (t & Ht & ->); try done.
  destruct Htail as [[-> ->]| ->].
  - rewrite app_nil_r in Ht. destruct (next_field_last c t [] Hc Ht) as (t' & -> & Ht').
    by rewrite (proj2 (finished_fields t' [] Ht')).
  - destruct (next_field_sep c l t [] Hc Ht) as (t' & -> & Ht').
    by destruct (tail_field_all l t' [] Ht') as (t'' & -> & _).
Qed.

Lemma HRN_of_ToString h : well_formed h -> HRN_of_string (ToString h) = h.
Proof.
  destruct h as [p s r a c l g n v i]. unfold well_formed, ToString. simpl. intros (Hp & Hr & Ha & H).
  destruct s; [done| | |].
  - destruct H as (Hc & -> & -> & -> & ->).
    rewrite <- (HRN_of_data p r a c l (match l with [] => [] | _ => [kSeparator] ++ l end)); try done.
    destruct l; [by left|by right].
  - destruct H as (Hg & Hn & -> & -> & ->).
    destruct (HRN_of_prefix p Schema r a (g ++ kSeparator :: n ++ kSeparator :: v)) as (t & Ht & E); try done.
    destruct (next_field_sep g _ t [] Hg Ht) as (t1 & E1 & H1). rewrite E1 in E.
    destruct (next_field_sep n _ t1 [] Hn H1) as (t2 & E2 & H2). rewrite E2 in E.
    destruct (tail_field_all v t2 [] H2) as (t3 & E3 & _). rewrite E3 in E. exact E.
  - destruct H as (-> & -> & -> & -> & ->).
    destruct (HRN_of_prefix p Pipeline r a i) as (t & Ht & E); try done.
    destruct (tail_field_all i t [] Ht) as (t3 & E3 & _). rewrite E3 in E. exact E.
Qed.

(** Every token is free of separators. *)
Lemma find_from_tokens c s pos :
  match find_from c s pos with
  | Some i => (pos <= i)%nat /\ c ∉ take (i - pos) (drop pos s)
  | None => c ∉ drop pos s
  end.
Proof.
  revert pos. induction s as [|x s IH]; intros pos; [by rewrite drop_nil; apply not_elem_of_nil|].
  destruct pos as [|pos]; cbn [find_from drop].
  - destruct (decide (x = c)) as [->|Hx]; [split; [lia|apply not_elem_of_nil]|].
    specialize (IH 0%nat). rewrite drop_0 in IH. destruct (find_from c s 0) as [i|]; cbn [fmap option_fmap option_map].
    + destruct IH as [_ IH]. split; [lia|]. rewrite Nat.sub_0_r in *. cbn [take].
      apply not_elem_of_cons. done.
    + apply not_elem_of_cons. done.
  - specialize (IH pos). destruct (find_from c s pos) as [i|]; cbn [fmap option_fmap option_map]; [|done].
    destruct IH as [? IH]. split; [lia|]. by replace (S i - S pos)%nat with (i - pos)%nat by lia.
Qed.

Lemma Next_plain t : sep_ t = kSeparator -> plain (fst (Next t)) /\ sep_ (snd (Next t)) = kSeparator.
Proof.
  intros Hs. unfold Next. destruct (pos_ t) as [n|]; [|split; [apply not_elem_of_nil|done]].
  rewrite Hs. pose proof (find_from_tokens kSeparator (str_ t) n) as H.
  destruct (find_from kSeparator (str_ t) n) as [i|]; simpl; [|done]. split; [apply H|done].
Qed.

Lemma next_field_plain t : sep_ t = kSeparator ->
  exists s t', next_field t [] = (s, t') /\ plain s /\ sep_ t' = kSeparator.
Proof.
  intros Hs. unfold next_field. destruct (HasNext t).
  - destruct (Next_plain t Hs). destruct (Next t) as [s t']. eauto.
  - exists [], t. split_and!; [done|apply not_elem_of_nil|done].
Qed.

Lemma parse_service_sep t s t' : sep_ t = kSeparator -> parse_service t = Some (s, t') -> sep_ t' = kSeparator.
Proof.
  intros Hs. unfold parse_service. destruct (HasNext t); [|by intros [= _ <-]].
  pose proof (proj2 (Next_plain t Hs)) as H. destruct (Next t) as [x t1]. simpl in H.
  repeat case_decide; by intros [= _ <-].
Qed.

Lemma HRN_of_string_well_formed input :
  service_ (HRN_of_string input) <> Unknown -> well_formed (HRN_of_string input).
Proof.
  unfold HRN_of_string. destruct (negb _); [done|].
  pose proof (proj2 (Next_plain (make input kSeparator) eq_refl)) as H0.
  destruct (Next _) as [protocol t0]. simpl in H0. case_decide; [done|].
  destruct (next_field_plain t0 H0) as (p & t1 & -> & Hp & H1).
  destruct (parse_service t1) as [[s t2]|] eqn:E; [|done]. apply parse_service_sep in E as H2; [|done].
  destruct (next_field_plain t2 H2) as (r & t3 & -> & Hr & H3).
  destruct (next_field_plain t3 H3) as (a & t4 & -> & Ha & H4).
  destruct (next_field_plain t4 H4) as (c & t5 & Ec & Hc & H5).
  destruct (next_field_plain t5 H5) as (n & t6 & En & Hn & H6).
  destruct s; [done|rewrite Ec|rewrite Ec, En|]; destruct (tail_field _ _) as [l t7]; intros _; done.
Qed.

(** Printing a resource name and parsing the text gives the name back, equal
    under [operator==] too. *)
Theorem HRN_roundtrip h : well_formed h -> FromString (ToString h) = h /\ HRN_eqb h h = true.
Proof.
  intros Hh. split; [by apply HRN_of_ToString|]. unfold HRN_eqb. rewrite !bool_decide_true by done.
  by destruct Hh as (_ & _ & _ & H), (service_ h).
Qed.

(** the parser accepts what it prints: parsing any text that has one of the
    three services, printing and parsing again changes nothing, and the result
    is equal to itself under [operator==]. *)
Theorem HRN_reparse input :
  service_ (FromString input) <> Unknown ->
  FromString (ToString (FromString input)) = FromString input /\
  HRN_eqb (FromString input) (FromString input) = true.
Proof.
  intros Hs. split; [by apply HRN_of_ToString, HRN_of_string_well_formed|].
  unfold FromString in *. set (h := HRN_of_string input) in *. unfold HRN_eqb.
  rewrite !bool_decide_true by done. by destruct (service_ h).
Qed.

Lemma HRN_eqb_true h h' : HRN_eqb h h' = true -> partition_ h = partition_ h' /\ service_ h = service_ h' /\
  region_ h = region_ h' /\ account_ h = account_ h' /\
  match service_ h with
  | Data => catalog_id_ h = catalog_id_ h' /\ layer_id_ h = layer_id_ h'
  | Schema => group_id_ h = group_id_ h' /\ schema_name_ h = schema_name_ h' /\ version_ h = version_ h'
  | Pipeline => pipeline_id_ h = pipeline_id_ h'
  | Unknown => False
  end.
Proof.
  unfold HRN_eqb. intros E.
  destruct (bool_decide_reflect (partition_ h = partition_ h')); [|done].
  destruct (bool_decide_reflect (service_ h = service_ h')); [|done].
  destruct (bool_decide_reflect (region_ h = region_ h')); [|done].
  destruct (bool_decide_reflect (account_ h = account_ h')); [|done]. simpl in E.
  split_and!; try done. clear - E.
  destruct (service_ h); [done| | |]; rewrite ?andb_true_iff, ?bool_decide_eq_true in E; tauto.
Qed.

(** [operator==] is equality of the printed texts, for well-formed names:
    two names are equal exactly when they print alike. *)
Theorem HRN_eqb_ToString h h' :
  well_formed h -> well_formed h' ->
  HRN_eqb h h' = true <-> ToString h = ToString h'.
Proof.
  intros Hh Hh'. split.
  - intros E. apply HRN_eqb_true in E as (E1 & E2 & E3 & E4 & E5). unfold ToString.
    rewrite <- E1, <- E2, <- E3, <- E4. destruct (service_ h); try done.
    + by destruct E5 as [-> ->].
    + by destruct E5 as (-> & -> & ->).
    + by rewrite E5.
  - intros E. assert (h = h') as <-.
    { rewrite <- (HRN_of_ToString h), <- (HRN_of_ToString h') by done. by rewrite E. }
    unfold HRN_eqb. rewrite !bool_decide_true by done. by destruct Hh as (_ & _ & _ & H), (service_ h).
Qed.

(** The catalog name of a resource parses to the resource without its layer. *)
Theorem ToCatalogHRNString_parse h :
  well_formed h -> service_ h = Data ->
  FromString (ToCatalogHRNString h) =
    mkHRN (partition_ h) Data (region_ h) (account_ h) (catalog_id_ h) [] [] [] [] [].
Proof.
  intros (Hp & Hr & Ha & H) Hs. rewrite Hs in H. destruct H as (Hc & _). unfold ToCatalogHRNString.
  rewrite decide_False by (intros Hn; by apply Hn).
  rewrite <- (HRN_of_data _ _ _ _ [] [] Hp Hr Ha Hc) by (by left). by rewrite app_nil_r.
Qed.

(** ** Concrete inputs *)

Definition sample_hrn : HRN :=
  mkHRN (chars "here") Data [] (chars "olp") (chars "catalog") (chars "layer:1") [] [] [] [].

Lemma sample_hrn_well_formed : well_formed sample_hrn.
Proof. split_and!; try reflexivity; apply (bool_decide_unpack _); vm_compute; exact I. Qed.

Lemma HRN_roundtrip_witness : FromString (ToString sample_hrn) = sample_hrn /\ HRN_eqb sample_hrn sample_hrn = true.
Proof. apply HRN_roundtrip, sample_hrn_well_formed. Defined.

Lemma HRN_reparse_witness :
  FromString (ToString (FromString (chars "hrn:here:schema:::g:n"))) = FromString (chars "hrn:here:schema:::g:n") /\
  HRN_eqb (FromString (chars "hrn:here:schema:::g:n")) (FromString (chars "hrn:here:schema:::g:n")) = true.
Proof. apply HRN_reparse. vm_compute. discriminate. Defined.

Lemma HRN_eqb_ToString_witness : HRN_eqb sample_hrn sample_hrn = true <-> ToString sample_hrn = ToString sample_hrn.
Proof. apply HRN_eqb_ToString; apply sample_hrn_well_formed. Defined.

Lemma ToCatalogHRNString_parse_witness :
  FromString (ToCatalogHRNString sample_hrn) = mkHRN (chars "here") Data [] (chars "olp") (chars "catalog") [] [] [] [] [].
Proof. apply (ToCatalogHRNString_parse sample_hrn); [apply sample_hrn_well_formed|reflexivity]. Defined.

(** A name without a service is not equal to itself. *)
Example HRN_eqb_default : HRN_eqb HRN_default HRN_default = false.
Proof. reflexivity. Qed.
