(* ===== verification/ProtectedKeyList.v ===== *)
(** * The list of protected keys

    Model of [olp::cache::ProtectedKeyList] (src/cache/ProtectedKeyList.cpp and
    .h): a [std::set] of keys and key prefixes with a comparison that makes a key
    equivalent to its prefixes.  The set is the list of its elements in order;
    [lower_bound] splits the list at the first element that is not before the
    key.  Keys are lists of characters. *)

From Stdlib Require Import Sorted.
From S2P Require Import Prelude.

Definition key := list ascii.

(** ** Keys *)

Definition starts_with (prefix k : key) : bool := bool_decide (take (length prefix) k = prefix).

Definition IsPrefix (prefix k : key) : bool := (length prefix <? length k)%nat && starts_with prefix k.
Definition IsEqualOrPrefix (prefix k : key) : bool := (length prefix <=? length k)%nat && starts_with prefix k.

(** [std::string::operator<] *)
Fixpoint str_lt (a b : key) : bool :=
  match a, b with
  | _, [] => false
  | [], _ :: _ => true
  | x :: a, y :: b => if ord x <? ord y then true else if ord y <? ord x then false else str_lt a b
  end.

(** [CustomCompare] *)
Definition compare (lhs rhs : key) : bool :=
  if (length rhs <? length lhs)%nat && starts_with rhs lhs then false
  else if (length lhs <? length rhs)%nat && starts_with lhs rhs then false
  else str_lt lhs rhs.

(** ** The list *)

Record ProtectedKeyList := mkList { protected_data_ : list key; size_written_ : Z; dirty_ : bool }.

Definition ProtectedKeyList_new : ProtectedKeyList := mkList [] 0 false.

(** The elements before the lower bound of [k], and those from it on. *)
Definition lower_bound (s : list key) (k : key) : list key * list key :=
  (take_while (fun e => compare e k) s, drop_while (fun e => compare e k) s).

(** [insert(hint, k)] with the lower bound as the hint, and whether it inserted. *)
Definition insert_before (before after : list key) (k : key) : list key * bool :=
  match after with
  | e :: _ => if compare k e then (before ++ k :: after, true) else (before ++ after, false)
  | [] => (before ++ [k], true)
  end.

Definition set_insert (s : list key) (k : key) : list key :=
  let '(before, after) := lower_bound s k in fst (insert_before before after k).

(** [std::getline(stream, str, '\0')] until the end of the text. *)
Fixpoint lines_of (value acc : list ascii) : list key :=
  match value with
  | [] => match acc with [] => [] | _ => [reverse acc] end
  | c :: value => if decide (c = "000"%char) then reverse acc :: lines_of value [] else lines_of value (c :: acc)
  end.

Definition Deserialize (l : ProtectedKeyList) (value : option (list ascii)) : ProtectedKeyList * bool :=
  match value with
  | None => (l, false)
  | Some value =>
      (mkList (foldl set_insert (protected_data_ l) (lines_of value [])) (Z.of_nat (length value)) false, true)
  end.

(** The text of [Serialize]; [key.back()] of an empty key is undefined. *)
Fixpoint serialize (s : list key) : option (list ascii) :=
  match s with
  | [] => Some []
  | k :: s =>
      c ← last k;
      rest ← serialize s;
      Some (k ++ (if decide (c <> "000"%char) then ["000"%char] else []) ++ rest)
  end.

Definition Serialize (l : ProtectedKeyList) : option (ProtectedKeyList * list ascii) :=
  value ← serialize (protected_data_ l);
  Some (mkList (protected_data_ l) (Z.of_nat (length value)) false, value).

(** One key of [Protect]: the set, and whether the key was added. *)
Definition protect_key (s : list key) (k : key) : list key * bool :=
  let '(before, after) := lower_bound s k in
  match after with
  | [] => insert_before before after k
  | hint :: _ =>
      if IsPrefix hint k then (s, false)
      else insert_before before (drop_while (IsPrefix k) after) k
  end.

(** [Protect]: the list, the result and the calls of [change_key_to_protected]. *)
Definition Protect (l : ProtectedKeyList) (keys : list key) : ProtectedKeyList * bool * list key :=
  foldl (fun '(l, was_updated, changed) k =>
           let '(s, added) := protect_key (protected_data_ l) k in
           if added then (mkList s (size_written_ l) true, true, changed ++ [k])
           else (mkList s (size_written_ l) (dirty_ l), was_updated, changed))
        (l, false, []) keys.

(** [Release] *)
Fixpoint release_loop (l : ProtectedKeyList) (keys : list key) (result : bool) : ProtectedKeyList * bool :=
  match keys with
  | [] => (l, result)
  | k :: keys =>
      let '(before, after) := lower_bound (protected_data_ l) k in
      match after with
      | [] => release_loop l keys result
      | hint :: _ =>
          if IsPrefix hint k then (l, false)
          else
            let after' := drop_while (IsEqualOrPrefix k) after in
            let erased := (length after' <? length after)%nat in
            release_loop (mkList (before ++ after') (size_written_ l) (dirty_ l || erased)) keys (result || erased)
      end
  end.

Definition Release (l : ProtectedKeyList) (keys : list key) : ProtectedKeyList * bool := release_loop l keys false.

Definition IsProtected (l : ProtectedKeyList) (k : key) : bool :=
  match protected_data_ l with
  | [] => false
  | _ =>
      match snd (lower_bound (protected_data_ l) k) with
      | [] => false
      | it :: _ => if (length k <? length it)%nat then false else IsEqualOrPrefix it k
      end
  end.

Definition Size (l : ProtectedKeyList) : Z := size_written_ l.
Definition IsDirty (l : ProtectedKeyList) : bool := dirty_ l.
Definition Count (l : ProtectedKeyList) : Z := Z.of_nat (length (protected_data_ l)).

(** ** The order *)

(** The keys part at a character, where [a] has the smaller one. *)
Fixpoint parts (a b : key) : Prop :=
  match a, b with
  | x :: a, y :: b => ord x < ord y \/ x = y /\ parts a b
  | _, _ => False
  end.

Lemma starts_with_spec p k : starts_with p k = true <-> p `prefix_of` k.
Proof.
  unfold starts_with. rewrite bool_decide_eq_true. split.
  - intros E. exists (drop (length p) k). rewrite <- E at 1. by rewrite take_drop.
  - intros [r ->]. apply take_app_length.
Qed.

Lemma IsPrefix_spec p k : IsPrefix p k = true <-> p `prefix_of` k /\ p <> k.
Proof.
  unfold IsPrefix. rewrite andb_true_iff, starts_with_spec, Nat.ltb_lt. split.
  - intros [Hl Hp]. split; [done|]. intros ->. lia.
  - intros [[r ->] Hne]. split; [|by exists r]. rewrite length_app. destruct r; [by rewrite app_nil_r in Hne|].
    simpl. lia.
Qed.

Lemma IsEqualOrPrefix_spec p k : IsEqualOrPrefix p k = true <-> p `prefix_of` k.
Proof.
  unfold IsEqualOrPrefix. rewrite andb_true_iff, starts_with_spec, Nat.leb_le. split; [tauto|].
  intros Hp. split; [by apply prefix_length|done].
Qed.

Lemma str_lt_spec a b : str_lt a b = true <-> parts a b \/ a `prefix_of` b /\ a <> b.
Proof.
  revert b. induction a as [|x a IH]; intros [|y b]; simpl.
  - split; [done|]. by intros [|[_ ?]].
  - split; [|done]. intros _. right. split; [apply prefix_nil|done].
  - split; [done|]. intros [[]|[Hp _]]. by apply prefix_nil_not in Hp.
  - destruct (Z.ltb_spec (ord x) (ord y)); [split; [|done]; by left; left|].
    destruct (Z.ltb_spec (ord y) (ord x)).
    + split; [done|]. intros [[?|[-> _]]|[Hp _]]; [lia|lia|]. apply prefix_cons_inv_1 in Hp as ->. lia.
    + assert (x = y) as -> by (apply ord_inj; lia). rewrite IH. split.
      * intros [Hp|[Hp Hne]]; [left; by right|]. right. split; [by apply prefix_cons|congruence].
      * intros [[?|[_ Hp]]|[Hp Hne]]; [lia|by left|]. apply prefix_cons_inv_2 in Hp. right. split; [done|congruence].
Qed.

Lemma parts_not_prefix a b : parts a b -> ~ a `prefix_of` b /\ ~ b `prefix_of` a.
Proof.
  revert b. induction a as [|x a IH]; intros [|y b]; simpl; try done. intros [Hlt|[-> Hp]].
  - split; intros E; apply prefix_cons_inv_1 in E as ->; lia.
  - destruct (IH b Hp) as [H1 H2]. split; intros E; apply prefix_cons_inv_2 in E; auto.
Qed.

Lemma compare_spec a b : compare a b = true <-> parts a b.
Proof.
  unfold compare. fold (IsPrefix b a). fold (IsPrefix a b).
  destruct (IsPrefix b a) eqn:E1; [|destruct (IsPrefix a b) eqn:E2].
  - apply IsPrefix_spec in E1 as [E1 _]. split; [done|]. intros Hp. by destruct (parts_not_prefix _ _ Hp).
  - apply IsPrefix_spec in E2 as [E2 _]. split; [done|]. intros Hp. by destruct (parts_not_prefix _ _ Hp).
  - rewrite str_lt_spec. split; [|by left]. intros [|Hp]; [done|]. apply IsPrefix_spec in Hp. congruence.
Qed.

Lemma parts_trans a b c : parts a b -> parts b c -> parts a c.
Proof.
  revert b c. induction a as [|x a IH]; intros [|y b] [|z c]; simpl; try done.
  intros [?|[-> H1]] [?|[-> H2]]; [left; lia|by left|by left|]. right. split; [done|]. by eapply IH.
Qed.

(** An extension of a key is on the same side of every key it parts from. *)
Lemma parts_extend_r a b k : parts a b -> b `prefix_of` k -> parts a k.
Proof.
  intros Hp [r ->]. revert b Hp. induction a as [|x a IH]; intros [|y b]; simpl; try done.
  intros [?|[-> H]]; [by left|]. right. auto.
Qed.

Lemma parts_extend_l a b k : parts a b -> a `prefix_of` k -> parts k b.
Proof.
  intros Hp [r ->]. revert b Hp. induction a as [|x a IH]; intros [|y b]; simpl; try done.
  intros [?|[-> H]]; [by left|]. right. auto.
Qed.

Lemma parts_or_prefix a b : parts a b \/ parts b a \/ a `prefix_of` b \/ b `prefix_of` a.
Proof.
  revert b. induction a as [|x a IH]; intros [|y b].
  1, 2, 3: right; right; first [by left; apply prefix_nil | by right; apply prefix_nil].
  simpl. destruct (Z.lt_total (ord x) (ord y)) as [|[E|]]; [tauto| |tauto].
  apply ord_inj in E as ->. destruct (IH b) as [?|[?|[?|?]]]; [tauto|tauto| |].
  - right; right; left. by apply prefix_cons.
  - right; right; right. by apply prefix_cons.
Qed.

(** Below a prefix of an element, a later element either has the prefix too or
    parts from it. *)
Lemma parts_shorten a b k : parts a b -> k `prefix_of` a -> k `prefix_of` b \/ parts k b.
Proof.
  intros Hp Hk. destruct (parts_or_prefix k b) as [?|[H|[?|H]]]; [tauto| |tauto|].
  - exfalso. pose proof (parts_extend_r _ _ _ H Hk) as H'. pose proof (parts_trans _ _ _ Hp H') as H2.
    by apply parts_not_prefix in H2 as [[] _].
  - exfalso. apply parts_not_prefix in Hp as [_ []]. by etransitivity.
Qed.

(** ** The invariant and the meaning of the list *)

(** Every two elements part: the list is in order and no element is a prefix of
    another one. *)
Definition inv (s : list key) : Prop := StronglySorted parts s.

(** The keys that a list of prefixes protects. *)
Definition protects (s : list key) (k : key) : Prop := exists e, e ∈ s /\ e `prefix_of` k.

Lemma inv_cons e s : inv (e :: s) <-> (forall x, x ∈ s -> parts e x) /\ inv s.
Proof.
  unfold inv. split.
  - intros Hs. inversion Hs; subst. split; [by apply Forall_forall|done].
  - intros [H1 H2]. constructor; [done|by apply Forall_forall].
Qed.

Lemma inv_app s1 s2 : inv (s1 ++ s2) <-> inv s1 /\ inv s2 /\ (forall x y, x ∈ s1 -> y ∈ s2 -> parts x y).
Proof.
  induction s1 as [|e s1 IH]; simpl.
  - split; [intros Hs; split_and!; [constructor|done|by intros x y ?%elem_of_nil]|tauto].
  - rewrite !inv_cons, IH. setoid_rewrite elem_of_app. setoid_rewrite elem_of_cons. naive_solver.
Qed.

(** What [lower_bound] splits: the keys that part below [k], then, from the first
    key on that does not, only keys related to [k] or above it. *)
Record split_at (s : list key) (k : key) (before after : list key) : Prop := {
  split_app : s = before ++ after;
  split_before : forall e, e ∈ before -> parts e k;
  split_after : forall e, e ∈ after -> ~ parts e k }.

Lemma lower_bound_spec s k : inv s -> split_at s k (fst (lower_bound s k)) (snd (lower_bound s k)).
Proof.
  intros Hs. split; simpl.
  - by rewrite take_drop_while.
  - intros e He. clear Hs. induction s as [|x s IH]; simpl in He; [by apply elem_of_nil in He|].
    destruct (compare x k) eqn:E; [|by apply elem_of_nil in He].
    apply elem_of_cons in He as [->|He]; [by apply compare_spec|auto].
  - induction s as [|x s IH]; simpl; [by intros e ?%elem_of_nil|].
    apply inv_cons in Hs as [Hx Hs]. destruct (compare x k) eqn:E; [auto|].
    assert (Hn : ~ parts x k) by (rewrite <- compare_spec; congruence).
    intros e He Hp. apply elem_of_cons in He as [->|He]; [done|]. specialize (Hx e He).
    destruct (parts_or_prefix x k) as [?|[H|[H|H]]]; [done| | |].
    + by apply Hn, (parts_trans _ e).
    + apply (parts_extend_l _ _ k) in Hx; [|done]. apply (parts_trans _ _ _ Hx) in Hp.
      by apply parts_not_prefix in Hp as [[] _].
    + destruct (parts_shorten _ _ _ Hx H) as [H2|H2].
      * by apply parts_not_prefix in Hp as [_ []].
      * apply (parts_trans _ _ _ H2) in Hp. by apply parts_not_prefix in Hp as [[] _].
Qed.

(** The related elements are at the front of the second part. *)
Lemma after_cases h after k :
  inv (h :: after) -> ~ parts h k ->
  h `prefix_of` k \/ (k `prefix_of` h /\ h <> k) \/ parts k h /\ forall e, e ∈ after -> parts k e.
Proof.
  intros [Hh _]%inv_cons Hn. destruct (parts_or_prefix h k) as [?|[H|[H|H]]]; [done| |by left|].
  - right; right. split; [done|]. intros e He. eapply parts_trans; eauto.
  - destruct (decide (h = k)) as [->|]; [by left|]. by right; left.
Qed.

(** Dropping the extensions of [k] leaves keys above [k]. *)
Lemma drop_extensions (P : key -> key -> bool) after k :
  (forall e, P k e = true -> k `prefix_of` e) -> (forall e, k `prefix_of` e -> e <> k -> P k e = true) ->
  inv after -> (forall e, e ∈ after -> ~ parts e k) -> (forall e, e ∈ after -> e `prefix_of` k -> P k e = true) ->
  (forall e, e ∈ drop_while (P k) after -> parts k e) /\
  (forall e, e ∈ drop_while (P k) after <-> e ∈ after /\ ~ k `prefix_of` e) /\
  drop_while (P k) after `sublist_of` after.
Proof.
  intros HP1 HP2. induction after as [|h after IH]; intros Hs Hn Hnp; simpl.
  { split_and!; [by intros e ?%elem_of_nil| |done]. intros e. rewrite elem_of_nil. tauto. }
  pose proof Hs as [Hh Hs']%inv_cons.
  assert (~ parts h k /\ (h `prefix_of` k -> P k h = true)) as [Hh1 Hh2] by (split; [apply Hn|apply Hnp]; left).
  destruct (P k h) eqn:E.
  - destruct IH as (I1 & I2 & I3); [done|intros e ?; apply Hn; by right|intros e ?; apply Hnp; by right|].
    split_and!; [done| |by constructor]. intros e. rewrite I2, elem_of_cons. apply HP1 in E. naive_solver.
  - destruct (after_cases _ _ _ Hs Hh1) as [H|[[H ?]|[H1 H2]]];
      [by specialize (Hh2 H)|by rewrite HP2 in E|].
    assert (Hall : forall e, e ∈ h :: after -> parts k e) by (intros e [->|?]%elem_of_cons; auto).
    split_and!; [done| |done]. intros e. split; [|tauto]. intros He. split; [done|].
    by apply (parts_not_prefix k e), Hall.
Qed.

Lemma inv_sublist s s' : s' `sublist_of` s -> inv s -> inv s'.
Proof.
  induction 1 as [|x s' s Hsub IH|x s' s Hsub IH]; [done| |]; rewrite !inv_cons; intros [H1 H2]; [|auto].
  split; [|auto]. intros y Hy. apply H1. by eapply elem_of_sublist.
Qed.

(** ** Protect *)

Lemma insert_before_spec before after k :
  inv (before ++ after) -> (forall e, e ∈ before -> parts e k) -> (forall e, e ∈ after -> parts k e) ->
  insert_before before after k = (before ++ k :: after, true) /\ inv (before ++ k :: after).
Proof.
  intros Hs Hb Ha. split.
  - destruct after as [|e after]; [done|]. simpl.
    assert (parts k e) as Hk by (apply Ha; left). apply compare_spec in Hk. by rewrite Hk.
  - apply inv_app in Hs as (H1 & H2 & H3). apply inv_app. split_and!; [done|by apply inv_cons|].
    intros x y Hx [->|Hy]%elem_of_cons; auto.
Qed.

Lemma protect_key_spec s k :
  inv s ->
  inv (fst (protect_key s k)) /\
  (forall k', protects (fst (protect_key s k)) k' <-> protects s k' \/ k `prefix_of` k') /\
  (snd (protect_key s k) = negb (bool_decide (Exists (fun e => e `prefix_of` k) s))).
Proof.
  intros Hs. unfold protect_key. pose proof (lower_bound_spec s k Hs) as [E Hb Hn].
  destruct (lower_bound s k) as [before after]. simpl in *. subst s.
  assert (Hadd : forall after', inv (before ++ after') -> (forall e, e ∈ after' -> parts k e) ->
    (forall e, e ∈ after' <-> e ∈ after /\ ~ k `prefix_of` e) -> (forall e, e ∈ after -> ~ e `prefix_of` k) ->
    inv (fst (insert_before before after' k)) /\
    (forall k', protects (fst (insert_before before after' k)) k' <-> protects (before ++ after) k' \/ k `prefix_of` k') /\
    snd (insert_before before after' k) = negb (bool_decide (Exists (fun e => e `prefix_of` k) (before ++ after)))).
  { intros after' Hs' Ha' Hiff Hnp. destruct (insert_before_spec before after' k Hs' Hb Ha') as [-> Hs2].
    simpl. split_and!; [done| |].
    - intros k'. unfold protects. setoid_rewrite elem_of_app. setoid_rewrite elem_of_cons. setoid_rewrite Hiff.
      split; [naive_solver|]. intros [(e & [He|He] & Hp)|Hp]; [by eauto| |by eauto].
      destruct (decide (k `prefix_of` e)); [|by eauto 10]. exists k. split; [tauto|]. by transitivity e.
    - rewrite bool_decide_false; [done|]. rewrite Exists_exists. intros (e & He & Hp).
      apply elem_of_app in He as [He|He]; [|by eapply Hnp]. by destruct (parts_not_prefix _ _ (Hb e He)). }
  destruct after as [|h after].
  { apply Hadd; [done| | |]; intros e; rewrite elem_of_nil; tauto. }
  pose proof Hs as (_ & Hs2 & _)%inv_app. assert (Hnh : ~ parts h k) by (apply Hn; left).
  destruct (decide (h `prefix_of` k)) as [Hp|Hp].
  - assert (Hprot : forall k', protects (before ++ h :: after) k' <->
                               protects (before ++ h :: after) k' \/ k `prefix_of` k').
    { intros k'. split; [tauto|]. intros [|Hk]; [done|]. exists h. rewrite elem_of_app, elem_of_cons.
      split; [tauto|by transitivity k]. }
    assert (Hex : bool_decide (Exists (fun e => e `prefix_of` k) (before ++ h :: after)) = true).
    { apply bool_decide_true, Exists_app. right. by apply Exists_cons_hd. }
    rewrite Hex. destruct (IsPrefix h k) eqn:EP; [done|].
    assert (h = k) as ->.
    { destruct (decide (h = k)); [done|]. exfalso. by rewrite (proj2 (IsPrefix_spec h k)) in EP. }
    cbn [drop_while]. rewrite EP. simpl.
    assert (compare k k = false) as ->; [|done].
    destruct (compare k k) eqn:E2; [|done]. apply compare_spec in E2. by apply parts_not_prefix in E2 as [[] _].
  - destruct (IsPrefix h k) eqn:EP; [by apply IsPrefix_spec in EP as [? _]|].
    assert (Hnp : forall e, e ∈ h :: after -> ~ e `prefix_of` k).
    { destruct (after_cases _ _ _ Hs2 Hnh) as [?|[[Hk Hne]|[Hk Hall]]]; [done| |].
      - intros e [->|He]%elem_of_cons Hpe; [done|]. apply inv_cons in Hs2 as [Hh _].
        pose proof (Hh e He) as Hhe. apply parts_not_prefix in Hhe as [_ []]. by transitivity k.
      - intros e [->|He]%elem_of_cons Hpe; [done|]. by apply (parts_not_prefix k e), Hpe; auto. }
    destruct (drop_extensions IsPrefix (h :: after) k) as (D1 & D2 & D3); try done.
    + intros e He. by apply IsPrefix_spec in He as [? _].
    + intros e He ?. by apply IsPrefix_spec.
    + intros e He Hpe. by destruct (Hnp e He).
    + apply Hadd; [|done|done|done]. eapply inv_sublist; [|exact Hs]. by apply sublist_app.
Qed.

Lemma protect_fold keys : forall l b c,
  inv (protected_data_ l) ->
  exists l' b' c', foldl (fun '(l, was_updated, changed) k =>
           let '(s, added) := protect_key (protected_data_ l) k in
           if added then (mkList s (size_written_ l) true, true, changed ++ [k])
           else (mkList s (size_written_ l) (dirty_ l), was_updated, changed)) (l, b, c) keys = (l', b', c') /\
    inv (protected_data_ l') /\
    (forall k', protects (protected_data_ l') k' <->
                protects (protected_data_ l) k' \/ exists k, k ∈ keys /\ k `prefix_of` k').
Proof.
  induction keys as [|k keys IH]; intros l b c Hs; simpl.
  - exists l, b, c. split_and!; try done. intros k'. setoid_rewrite elem_of_nil. naive_solver.
  - destruct (protect_key_spec (protected_data_ l) k Hs) as (Hs1 & Hp1 & _).
    destruct (protect_key (protected_data_ l) k) as [s added]. simpl in *.
    destruct added;
      [destruct (IH (mkList s (size_written_ l) true) true (c ++ [k]) Hs1) as (l' & b' & c' & -> & Hs' & Hp')
      |destruct (IH (mkList s (size_written_ l) (dirty_ l)) b c Hs1) as (l' & b' & c' & -> & Hs' & Hp')];
      exists l', b', c'; split_and!; try done; intros k'; rewrite Hp'; simpl; rewrite Hp1;
      setoid_rewrite elem_of_cons; naive_solver.
Qed.

Lemma IsProtected_protects l k : inv (protected_data_ l) -> IsProtected l k = true <-> protects (protected_data_ l) k.
Proof.
  intros Hs. unfold IsProtected.
  assert (protected_data_ l = [] \/ protected_data_ l <> []) as [E|E] by (destruct (protected_data_ l); auto).
  { rewrite E. split; [done|]. by intros (e & ?%elem_of_nil & _). }
  destruct (protected_data_ l) as [|x s0] eqn:El; [done|]. set (s := x :: s0) in *.
  pose proof (lower_bound_spec s k Hs) as [Ea Hb Hn]. destruct (lower_bound s k) as [before after]. simpl in *.
  rewrite Ea in *. destruct after as [|h after].
  - split; [done|]. intros (e & He & Hp). rewrite app_nil_r in He. by destruct (parts_not_prefix _ _ (Hb e He)).
  - assert ((if (length k <? length h)%nat then false else IsEqualOrPrefix h k) = IsEqualOrPrefix h k) as ->.
    { destruct (Nat.ltb_spec (length k) (length h)); [|done]. unfold IsEqualOrPrefix.
      destruct (Nat.leb_spec (length h) (length k)); [lia|done]. }
    rewrite IsEqualOrPrefix_spec. split; [intros Hp; exists h; split; [|done]; apply elem_of_app; right; left|].
    intros (e & He & Hp). apply inv_app in Hs as (_ & Hs2 & _).
    assert (Hnh : ~ parts h k) by (apply Hn; left).
    apply elem_of_app in He as [He|He]; [by destruct (parts_not_prefix _ _ (Hb e He))|].
    apply elem_of_cons in He as [->|He]; [done|].
    destruct (after_cases _ _ _ Hs2 Hnh) as [?|[[Hk _]|[_ Hall]]]; [done| |].
    + apply inv_cons in Hs2 as [Hh _]. pose proof (Hh e He) as Hhe. apply parts_not_prefix in Hhe as [_ []].
      by transitivity k.
    + by destruct (parts_not_prefix _ _ (Hall e He)).
Qed.

(** Protecting brings in no key but those that are asked for. *)
Lemma protect_key_elements s k e : e ∈ fst (protect_key s k) -> e ∈ s \/ e = k.
Proof.
  unfold protect_key, lower_bound.
  assert (Hb : forall after, (forall x, x ∈ after -> x ∈ drop_while (fun e => compare e k) s) ->
    e ∈ fst (insert_before (take_while (fun e => compare e k) s) after k) -> e ∈ s \/ e = k).
  { intros after Ha He. rewrite <- (take_drop_while (fun e => compare e k) s).
    unfold insert_before in He. destruct after as [|x after].
    - cbn [fst] in He. apply elem_of_app in He as [He|He]; [left; apply elem_of_app; by left|right; by apply list_elem_of_singleton].
    - destruct (compare k x); cbn [fst] in He; apply elem_of_app in He as [He|He];
        try (left; apply elem_of_app; by left); [apply elem_of_cons in He as [->|He]; [by right|]|];
        left; apply elem_of_app; right; by apply Ha. }
  destruct (drop_while (fun e => compare e k) s) as [|hint after] eqn:Ed; [by apply Hb|].
  destruct (IsPrefix hint k); [by left|]. apply Hb. intros x Hx.
  rewrite <- (take_drop_while (IsPrefix k) (hint :: after)). apply elem_of_app. by right.
Qed.

Lemma Protect_elements l keys e : e ∈ protected_data_ (fst (fst (Protect l keys))) -> e ∈ protected_data_ l \/ e ∈ keys.
Proof.
  unfold Protect. match goal with |- context [foldl ?f (l, false, []) keys] =>
    cut (forall b c, e ∈ protected_data_ (fst (fst (foldl f (l, b, c) keys))) -> e ∈ protected_data_ l \/ e ∈ keys); [intros Hc; apply Hc|] end.
  revert l. induction keys as [|k keys IH]; intros l b c; cbn [foldl]; [by left|].
  pose proof (protect_key_elements (protected_data_ l) k e) as Hk. destruct (protect_key (protected_data_ l) k) as [s added].
  cbn [fst] in Hk. rewrite elem_of_cons. destruct added; intros [He|He]%IH; cbn [protected_data_] in *; tauto.
Qed.

(** [Protect] keeps the invariant that makes the custom comparison an order
    (no element is a prefix of another one), and afterwards [IsProtected] holds
    exactly for the keys that were protected before or extend one of the new
    keys. *)
Theorem Protect_IsProtected l keys :
  inv (protected_data_ l) ->
  exists l' b changed, Protect l keys = (l', b, changed) /\ inv (protected_data_ l') /\
    forall k, IsProtected l' k = true <-> IsProtected l k = true \/ exists p, p ∈ keys /\ p `prefix_of` k.
Proof.
  intros Hs. destruct (protect_fold keys l false [] Hs) as (l' & b' & c' & E & Hs' & Hp').
  exists l', b', c'. split_and!; [done|done|]. intros k. by rewrite !IsProtected_protects.
Qed.

(** ** Release *)

(** No element is a proper prefix of the key. *)
Definition releasable (s : list key) (k : key) : Prop := forall e, e ∈ s -> e `prefix_of` k -> e = k.

Lemma release_key s k :
  inv s -> releasable s k ->
  let '(before, after) := lower_bound s k in
  (forall hint rest, after = hint :: rest -> IsPrefix hint k = false) /\
  inv (before ++ drop_while (IsEqualOrPrefix k) after) /\
  (forall e, e ∈ before ++ drop_while (IsEqualOrPrefix k) after <-> e ∈ s /\ ~ k `prefix_of` e) /\
  ((length (drop_while (IsEqualOrPrefix k) after) <? length after)%nat = true <-> exists e, e ∈ s /\ k `prefix_of` e).
Proof.
  intros Hs Hr. pose proof (lower_bound_spec s k Hs) as [E Hb Hn].
  destruct (lower_bound s k) as [before after]. simpl in *. subst s.
  pose proof Hs as (_ & Hs2 & _)%inv_app.
  destruct (drop_extensions IsEqualOrPrefix after k) as (D1 & D2 & D3); try done.
  { intros e. apply IsEqualOrPrefix_spec. }
  { intros e ? _. by apply IsEqualOrPrefix_spec. }
  { intros e He Hp. rewrite (Hr e) by (try done; apply elem_of_app; by right). by apply IsEqualOrPrefix_spec. }
  assert (Hbk : forall e, e ∈ before -> ~ k `prefix_of` e).
  { intros e He. by apply (parts_not_prefix e k), Hb. }
  split_and!.
  - intros h rest ->. destruct (IsPrefix h k) eqn:EP; [|done]. apply IsPrefix_spec in EP as [Hp Hne].
    destruct Hne. apply Hr; [|done]. apply elem_of_app. right. left.
  - eapply inv_sublist; [|exact Hs]. by apply sublist_app.
  - intros e. rewrite !elem_of_app, D2. naive_solver.
  - rewrite Nat.ltb_lt. split.
    + intros Hlt. destruct after as [|h after]; [simpl in Hlt; lia|].
      destruct (IsEqualOrPrefix k h) eqn:EP; [|cbn [drop_while] in Hlt; rewrite EP in Hlt; lia].
      exists h. split; [apply elem_of_app; right; left|by apply IsEqualOrPrefix_spec].
    + intros (e & He & Hp). apply elem_of_app in He as [He|He]; [by destruct (Hbk e He)|].
      destruct after as [|h after]; [by apply elem_of_nil in He|]. cbn [drop_while] in *.
      destruct (IsEqualOrPrefix k h) eqn:EP; [|by apply D2 in He as [_ []]].
      pose proof (drop_while_length (IsEqualOrPrefix k) after). simpl. lia.
Qed.

Lemma release_loop_spec keys : forall l b,
  inv (protected_data_ l) -> (forall k, k ∈ keys -> releasable (protected_data_ l) k) ->
  exists l' b', release_loop l keys b = (l', b') /\ inv (protected_data_ l') /\
    (forall e, e ∈ protected_data_ l' <-> e ∈ protected_data_ l /\ forall k, k ∈ keys -> ~ k `prefix_of` e) /\
    (b' = true <-> b = true \/ exists e k, e ∈ protected_data_ l /\ k ∈ keys /\ k `prefix_of` e).
Proof.
  induction keys as [|k keys IH]; intros l b Hs Hr; cbn [release_loop].
  { exists l, b. setoid_rewrite elem_of_nil. split_and!; try done; naive_solver. }
  pose proof (release_key _ k Hs (Hr k ltac:(left))) as Hk.
  destruct (lower_bound (protected_data_ l) k) as [before after] eqn:El. destruct Hk as (K1 & K2 & K3 & K4).
  assert (Hr' : forall s', (forall e, e ∈ s' -> e ∈ protected_data_ l) -> forall k', k' ∈ keys -> releasable s' k').
  { intros s' Hsub k' Hk' e He Hp. apply (Hr k'); [by right|by apply Hsub|done]. }
  destruct after as [|h after].
  - destruct (IH l b Hs) as (l' & b' & -> & Hs' & Hp' & Hb'); [by apply Hr'|]. exists l', b'.
    assert (Hno : forall e, e ∈ protected_data_ l -> ~ k `prefix_of` e).
    { intros e He Hp. rewrite Nat.ltb_irrefl in K4. destruct K4 as [_ K4]. discriminate K4; eauto. }
    split_and!; [done|done| |].
    + intros e. rewrite Hp'. setoid_rewrite elem_of_cons. naive_solver.
    + rewrite Hb'. setoid_rewrite elem_of_cons. clear -Hno. naive_solver.
  - rewrite (K1 h after eq_refl).
    set (after' := drop_while (IsEqualOrPrefix k) (h :: after)) in *.
    set (erased := (length after' <? length (h :: after))%nat) in *.
    destruct (IH (mkList (before ++ after') (size_written_ l) (dirty_ l || erased)) (b || erased) K2)
      as (l' & b' & -> & Hs' & Hp' & Hb'); [apply Hr'; intros e; rewrite K3; tauto|].
    exists l', b'. simpl in *. split_and!; [done|done| |].
    + intros e. rewrite Hp', K3. setoid_rewrite elem_of_cons. clear. naive_solver.
    + rewrite Hb', orb_true_iff, K4. setoid_rewrite K3. setoid_rewrite elem_of_cons.
      split; [clear; naive_solver|]. intros [?|(e & k' & He & [->|Hk'] & Hp)]; [tauto|eauto 10|].
      destruct (decide (k `prefix_of` e)); [left; right; eauto|]. right. by exists e, k'.
Qed.

(** Whatever the keys, releasing keeps the entries that extend none of them. *)
Lemma Release_survivors l keys : inv (protected_data_ l) ->
  inv (protected_data_ (fst (Release l keys))) /\
  (forall e, e ∈ protected_data_ (fst (Release l keys)) -> e ∈ protected_data_ l) /\
  (forall e, e ∈ protected_data_ l -> (forall k, k ∈ keys -> ~ k `prefix_of` e) -> e ∈ protected_data_ (fst (Release l keys))).
Proof.
  unfold Release. generalize false. revert l. induction keys as [|k keys IH]; intros l b Hs; cbn [release_loop]; [done|].
  destruct (lower_bound (protected_data_ l) k) as [before after] eqn:El.
  assert (E : protected_data_ l = before ++ after) by (unfold lower_bound in El; injection El as <- <-; by rewrite take_drop_while).
  destruct after as [|hint after].
  { destruct (IH l b Hs) as (H1 & H2 & H3). split_and!; [done|done|]. intros e He Hn. apply H3; [done|]. intros k' Hk'. apply Hn. by right. }
  destruct (IsPrefix hint k); [done|]. set (after' := drop_while _ _).
  assert (Hsub : before ++ after' `sublist_of` protected_data_ l).
  { rewrite E. apply sublist_app; [done|]. rewrite <- (take_drop_while (IsEqualOrPrefix k) (hint :: after)) at 1.
    by apply sublist_inserts_l. }
  destruct (IH (mkList (before ++ after') (size_written_ l) (dirty_ l || (length after' <? length (hint :: after))%nat))
              (b || (length after' <? length (hint :: after))%nat)) as (H1 & H2 & H3); [by eapply inv_sublist|].
  split; [exact H1|]. split; [intros e He; eapply elem_of_sublist; [by apply H2|done]|].
  intros e He Hn. apply H3; [|intros k' Hk'; apply Hn; by right]. cbn [protected_data_].
  rewrite E in He. apply elem_of_app in He as [He|He]; apply elem_of_app; [by left|right].
  rewrite <- (take_drop_while (IsEqualOrPrefix k) (hint :: after)) in He. apply elem_of_app in He as [He|He]; [|done].
  exfalso. apply (Hn k); [left|]. apply IsEqualOrPrefix_spec.
  clear - He. induction (hint :: after) as [|x r IH]; cbn [take_while] in He; [by apply elem_of_nil in He|].
  destruct (IsEqualOrPrefix k x) eqn:Ex; [|by apply elem_of_nil in He]. apply elem_of_cons in He as [->|He]; auto.
Qed.

(** [Release] of keys of which no proper prefix is protected removes exactly
    the elements that extend one of the keys, keeps the invariant, and returns
    whether it removed any. *)
Theorem Release_exact l keys :
  inv (protected_data_ l) -> (forall k, k ∈ keys -> releasable (protected_data_ l) k) ->
  exists l' b, Release l keys = (l', b) /\ inv (protected_data_ l') /\
    (forall k, IsProtected l' k = true <->
       exists e, e ∈ protected_data_ l /\ e `prefix_of` k /\ forall k', k' ∈ keys -> ~ k' `prefix_of` e) /\
    (b = true <-> exists e k, e ∈ protected_data_ l /\ k ∈ keys /\ k `prefix_of` e).
Proof.
  intros Hs Hr. destruct (release_loop_spec keys l false Hs Hr) as (l' & b & E & Hs' & Hp & Hb).
  exists l', b. split_and!; [done|done| |rewrite Hb; clear; naive_solver].
  intros k. rewrite IsProtected_protects by done. unfold protects. setoid_rewrite Hp. naive_solver.
Qed.

(** ** Serialization *)

Definition storable (k : key) : Prop := k <> [] /\ "000"%char ∉ k.

Lemma last_storable k : storable k -> exists c, last k = Some c /\ c <> "000"%char.
Proof.
  intros [Hne Hk]. destruct k as [|x k _] using rev_ind; [done|]. rewrite last_snoc. exists x. split; [done|].
  intros ->. apply Hk, elem_of_app. right. left.
Qed.

Lemma lines_of_app k rest acc : "000"%char ∉ k ->
  lines_of (k ++ "000"%char :: rest) acc = (reverse acc ++ k) :: lines_of rest [].
Proof.
  revert acc. induction k as [|x k IH]; intros acc Hk; cbn [app lines_of].
  - rewrite decide_True by done. by rewrite app_nil_r.
  - apply not_elem_of_cons in Hk as [Hx Hk]. rewrite decide_False by done. rewrite IH by done.
    rewrite reverse_cons, <- app_assoc. done.
Qed.

Lemma serialize_lines s : Forall storable s -> exists value, serialize s = Some value /\ lines_of value [] = s.
Proof.
  induction 1 as [|k s Hk _ IH]; [by exists []|]. destruct IH as (value & E & El).
  destruct (last_storable k Hk) as (c & Ec & Hc). cbn [serialize]. rewrite Ec, E. simpl.
  eexists. split; [done|]. rewrite decide_True by done. simpl. rewrite lines_of_app by apply Hk. by rewrite El.
Qed.

Lemma set_insert_last s k : inv (s ++ [k]) -> set_insert s k = s ++ [k].
Proof.
  intros (_ & _ & H)%inv_app. unfold set_insert, lower_bound.
  assert (Hall : Forall (fun e => compare e k = true) s).
  { apply Forall_forall. intros e He. apply compare_spec, H; [done|left]. }
  assert (Hd : drop_while (fun e => compare e k) s = []).
  { clear H. induction Hall as [|x s Hx _ IH]; [done|]. simpl. by rewrite Hx. }
  rewrite Hd, take_while_all by done. done.
Qed.

Lemma set_insert_all s : inv s -> foldl set_insert [] s = s.
Proof.
  induction s as [|k s IH] using rev_ind; intros Hs; [done|]. rewrite foldl_snoc, IH.
  - by apply set_insert_last.
  - by apply inv_app in Hs as [? _].
Qed.

(** The text of [Serialize], read by [Deserialize] into an empty list, gives
    the same list, clean and with the size of the text, when no key is empty or
    holds a null character. *)
Theorem Serialize_Deserialize l :
  inv (protected_data_ l) -> Forall storable (protected_data_ l) ->
  exists l' value, Serialize l = Some (l', value) /\
    Deserialize ProtectedKeyList_new (Some value) = (l', true) /\
    protected_data_ l' = protected_data_ l /\ IsDirty l' = false /\ Size l' = Z.of_nat (length value).
Proof.
  intros Hs Hk. destruct (serialize_lines _ Hk) as (value & E & El). unfold Serialize. rewrite E. simpl.
  eexists _, value. split; [done|]. rewrite El, set_insert_all by done. done.
Qed.

(** ** Concrete inputs *)

Definition sample_list : ProtectedKeyList :=
  fst (fst (Protect ProtectedKeyList_new [chars "ab"; chars "abc"; chars "b"; chars "a:1"; chars "a:"])).

Example sample_list_data : protected_data_ sample_list = [chars "a:"; chars "ab"; chars "b"].
Proof. vm_compute. reflexivity. Qed.

Lemma sample_list_inv : inv (protected_data_ sample_list).
Proof.
  rewrite sample_list_data. rewrite !inv_cons. repeat setoid_rewrite elem_of_cons. 
  split_and!; try constructor; intros x; rewrite ?elem_of_nil; intros; naive_solver (vm_compute; tauto).
Qed.

Lemma Protect_IsProtected_witness : inv (protected_data_ sample_list) /\
  exists l' b changed, Protect sample_list [chars "c"] = (l', b, changed) /\ inv (protected_data_ l') /\
    forall k, IsProtected l' k = true <-> IsProtected sample_list k = true \/ exists p, p ∈ [chars "c"] /\ p `prefix_of` k.
Proof. split; [apply sample_list_inv|apply Protect_IsProtected, sample_list_inv]. Defined.

Lemma Release_exact_witness : exists l' b,
  Release sample_list [chars "a"] = (l', b) /\ inv (protected_data_ l') /\
    (forall k, IsProtected l' k = true <->
       exists e, e ∈ protected_data_ sample_list /\ e `prefix_of` k /\ forall k', k' ∈ [chars "a"] -> ~ k' `prefix_of` e) /\
    (b = true <-> exists e k, e ∈ protected_data_ sample_list /\ k ∈ [chars "a"] /\ k `prefix_of` e).
Proof.
  apply Release_exact; [apply sample_list_inv|]. intros k Hk e He Hp. rewrite sample_list_data in He.
  apply list_elem_of_singleton in Hk as ->. destruct Hp as [r E]. rewrite !elem_of_cons in He.
  destruct He as [->|[->|[->|He]]]; [discriminate E..|by apply elem_of_nil in He].
Defined.

Lemma Serialize_Deserialize_witness : exists l' value, Serialize sample_list = Some (l', value) /\
    Deserialize ProtectedKeyList_new (Some value) = (l', true) /\
    protected_data_ l' = protected_data_ sample_list /\ IsDirty l' = false /\ Size l' = Z.of_nat (length value).
Proof.
  apply Serialize_Deserialize; [apply sample_list_inv|]. rewrite sample_list_data.
  repeat constructor; try discriminate; apply (bool_decide_unpack _); vm_compute; exact I.
Defined.
