(* ===== verification/Json.v ===== *)
(** * JSON values and the wrappers around them

    Model of src/generated/parser/ParserWrapper.h and JsonParser.h and of
    src/generated/serializer/SerializerWrapper.h and JsonSerializer.h of
    olp-cpp-sdk-dataservice-read (the other libraries have copies): [from_json] and [to_json] are classes with an instance
    for every type that the wrappers convert, [parse] of a member and [serialize] of a
    member the functions of the same name.

    A [boost::json::value] is the inductive type [json]; an object is the list of its
    members in the order of insertion.  [None] of [from_json] is an exception of
    [to_number] or the undefined behaviour of [get_string], [get_bool], [get_array] or
    [get_object] on a value of another kind.  The text of a value, which Boost.JSON
    writes and reads, is the class [JsonText]. *)

From stdpp Require Import sorting.
From S2P Require Import Prelude ProtectedKeyList.

(** A number keeps its kind; a double is [m * 2^e]. *)
Inductive json :=
| JNull
| JBool (b : bool)
| JInt64 (z : Z)
| JUint64 (z : Z)
| JDouble (m e : Z)
| JString (s : list ascii)
| JArray (l : list json)
| JObject (o : list (list ascii * json)).

Abbreviation object := (list (list ascii * json)).

Definition is_null (v : json) : bool := match v with JNull => true | _ => false end.
Definition is_object_or_array (v : json) : bool := match v with JArray _ | JObject _ => true | _ => false end.

(** Induction with the elements of arrays and objects. *)
Section json_induction.
Context (P : json -> Prop) (Pnull : P JNull) (Pbool : forall b, P (JBool b)) (Pint : forall z, P (JInt64 z)) (Puint : forall z, P (JUint64 z))
  (Pdouble : forall m e, P (JDouble m e)) (Pstring : forall s, P (JString s)) (Parray : forall l, Forall P l -> P (JArray l))
  (Pobject : forall o, Forall (fun p => P p.2) o -> P (JObject o)).

Fixpoint json_nested_ind (v : json) : P v :=
  match v with
  | JNull => Pnull
  | JBool b => Pbool b
  | JInt64 z => Pint z
  | JUint64 z => Puint z
  | JDouble m e => Pdouble m e
  | JString s => Pstring s
  | JArray l => Parray l ((fix go l : Forall P l := match l with [] => Forall_nil_2 P | v :: l => Forall_cons_2 P v l (json_nested_ind v) (go l) end) l)
  | JObject o => Pobject o ((fix go o : Forall (fun p => P p.2) o := match o with [] => Forall_nil_2 _ | p :: o => Forall_cons_2 _ p o (json_nested_ind p.2) (go o) end) o)
  end.
End json_induction.

(** [object::find] and [object::emplace], which keeps the first value of a key. *)
Fixpoint find (name : list ascii) (o : object) : option json :=
  match o with
  | [] => None
  | (k, v) :: o => if decide (k = name) then Some v else find name o
  end.

Definition emplace (name : list ascii) (v : json) (o : object) : object :=
  match find name o with Some _ => o | None => o ++ [(name, v)] end.

(** ** Numbers *)

Definition int64_ok (z : Z) : Prop := - 2^63 <= z < 2^63.
Definition int32_ok (z : Z) : Prop := - 2^31 <= z < 2^31.

(** An integer as a double: to 53 bits, to the nearest, ties to even. *)
Definition round_double (z : Z) : Z :=
  let a := Z.abs z in
  let bits := Z.log2 a + 1 in
  if bits <=? 53 then z
  else
    let ulp := 2 ^ (bits - 53) in
    let q := a / ulp in let r := a mod ulp in
    let q := if (2 * r <? ulp) || ((2 * r =? ulp) && Z.even q) then q else q + 1 in
    Z.sgn z * (q * ulp).

(** The value [m * 2^e] when it is an integer, and without its fraction. *)
Definition exact_integer (m e : Z) : option Z :=
  if 0 <=? e then Some (m * 2 ^ e) else if m mod 2 ^ (- e) =? 0 then Some (m / 2 ^ (- e)) else None.
Definition truncated (m e : Z) : Z := if 0 <=? e then m * 2 ^ e else Z.quot m (2 ^ (- e)).

Definition in_int64 (z : Z) : option Z := if (- 2^63 <=? z) && (z <? 2^63) then Some z else None.

(** [to_number<int64_t>]: throws when the number is no integer of 64 bits. *)
Definition to_number_int64 (v : json) : option Z :=
  match v with
  | JInt64 z => Some z
  | JUint64 z => in_int64 z
  | JDouble m e => z ← exact_integer m e; in_int64 z
  | _ => None
  end.

(** [static_cast<int64_t>(to_number<double>(v))]; undefined out of range. *)
Definition double_to_int64 (v : json) : option Z :=
  match v with
  | JInt64 z | JUint64 z => in_int64 (round_double z)
  | JDouble m e => in_int64 (truncated m e)
  | _ => None
  end.

(** ** Reading *)

Class FromJson (T : Type) := { from_json : json -> option T; initial : T }.

#[export] Instance string_from_json : FromJson (list ascii) :=
  {| from_json v := match v with JString s => Some s | _ => None end; initial := [] |}.
#[export] Instance int64_from_json : FromJson Z := {| from_json := to_number_int64; initial := 0 |}.
#[export] Instance bool_from_json : FromJson bool :=
  {| from_json v := match v with JBool b => Some b | _ => None end; initial := false |}.

(** [int32_t], and a [double] that is cast to [int64_t]; no instances, since they are
    integers as [int64_t] is. *)
Definition int32_from_json : FromJson Z := {| from_json v := s32 <$> to_number_int64 v; initial := 0 |}.
Definition double_from_json : FromJson Z := {| from_json := double_to_int64; initial := 0 |}.

#[export] Instance optional_from_json `{FromJson T} : FromJson (option T) :=
  {| from_json v := Some <$> from_json v; initial := None |}.

#[export] Instance vector_from_json `{FromJson T} : FromJson (list T) :=
  {| from_json v := match v with JArray l => mapM from_json l | _ => None end; initial := [] |}.

(** A map of strings, in the order of the text; of two members of a key the last one. *)
Definition read_member `{FromJson T} (r : option (gmap (list ascii) T)) (p : list ascii * json) : option (gmap (list ascii) T) :=
  m ← r; x ← from_json p.2; Some (<[p.1 := x]> m).

Definition map_from_json `{FromJson T} (v : json) : option (gmap (list ascii) T) :=
  match v with
  | JObject o => foldl read_member (Some ∅) o
  | _ => None
  end.
#[export] Instance gmap_from_json `{FromJson T} : FromJson (gmap (list ascii) T) := {| from_json := map_from_json; initial := ∅ |}.

(** [parse<T>(value, name)] *)
Definition parse `{FromJson T} (value : json) (name : list ascii) : option T :=
  match value with
  | JObject o => match find name o with Some v => from_json v | None => Some initial end
  | _ => None
  end.

(** ** Writing *)

Class ToJson (T : Type) := to_json : T -> json.

#[export] Instance string_to_json : ToJson (list ascii) := JString.
#[export] Instance int64_to_json : ToJson Z := JInt64.
#[export] Instance bool_to_json : ToJson bool := JBool.
#[export] Instance optional_to_json `{ToJson T} : ToJson (option T) := fun x => match x with Some x => to_json x | None => JNull end.
#[export] Instance vector_to_json `{ToJson T} : ToJson (list T) := fun x => JArray (to_json <$> x).

(** A [std::map], in the order of its keys. *)
Definition key_le {T} (a b : list ascii * T) : Prop := str_lt b.1 a.1 = false.
#[export] Instance key_le_dec {T} : RelDecision (key_le (T := T)).
Proof. intros a b. apply bool_eq_dec. Defined.

Definition map_to_json `{ToJson T} (x : gmap (list ascii) T) : json :=
  JObject (foldl (fun o p => emplace p.1 p.2 o) [] ((fun p => (p.1, to_json p.2)) <$> merge_sort key_le (map_to_list x))).
#[export] Instance gmap_to_json `{ToJson T} : ToJson (gmap (list ascii) T) := map_to_json.

(** [serialize(key, x, object)] *)
Definition serialize `{ToJson T} (name : list ascii) (x : T) (o : object) : object :=
  let v := to_json x in if is_null v then o else emplace name v o.

(** Members that are serialized one after the other. *)
Declare Scope json_scope.
Notation "o |> f" := (f o) (at level 62, left associativity, only parsing) : json_scope.

(** ** Text *)

(** What Boost.JSON reads and writes; a text with an error is null. *)
Class JsonText := { json_parse : list ascii -> json; json_serialize : json -> list ascii }.

(** Texts in UTF-8, which the parser asks for. *)
Definition byte_in (lo hi : Z) (c : ascii) : bool := (lo <=? ord c) && (ord c <=? hi).

Fixpoint is_utf8 (s : list ascii) : bool :=
  match s with
  | [] => true
  | a :: s =>
      if ord a <? 128 then is_utf8 s
      else
        match s with
        | b :: s =>
            if byte_in 194 223 a then byte_in 128 191 b && is_utf8 s
            else
              match s with
              | c :: s =>
                  if byte_in 224 239 a
                  then byte_in (if ord a =? 224 then 160 else 128) (if ord a =? 237 then 159 else 191) b && byte_in 128 191 c && is_utf8 s
                  else
                    match s with
                    | d :: s => byte_in 240 244 a && byte_in (if ord a =? 240 then 144 else 128) (if ord a =? 244 then 143 else 191) b &&
                        byte_in 128 191 c && byte_in 128 191 d && is_utf8 s
                    | [] => false
                    end
              | [] => false
              end
        | [] => false
        end
  end.

(** Values that are read as they were written: their texts are UTF-8, their numbers
    integers of 64 bits with a sign, and an object has every member once. *)
Fixpoint plain_json (v : json) : Prop :=
  match v with
  | JNull | JBool _ => True
  | JString s => is_utf8 s = true
  | JInt64 z => int64_ok z
  | JUint64 _ | JDouble _ _ => False
  | JArray l => (fix go l := match l with [] => True | v :: l => plain_json v /\ go l end) l
  | JObject o => NoDup o.*1 /\ (fix go o := match o with [] => True | p :: o => (is_utf8 p.1 = true /\ plain_json p.2) /\ go o end) o
  end.

Class JsonTextLaws `{JsonText} : Prop := json_parse_serialize v : plain_json v -> json_parse (json_serialize v) = v.

(** [parse<T>] of a text, with [res]. *)
Definition parse_text `{JsonText} `{FromJson T} (text : list ascii) : option (T * bool) :=
  let value := json_parse text in
  if is_object_or_array value then x ← from_json value; Some (x, true) else Some (initial, false).

Definition serialize_text `{JsonText} `{ToJson T} (x : T) : list ascii := json_serialize (to_json x).

(** ** Round trips

    What is written is read: a member that is null is not written, and reading it gives
    the initial value. *)

Class RoundTrip (T : Type) `{FromJson T} `{ToJson T} := {
  json_ok : T -> Prop;
  from_to_json x : json_ok x -> if is_null (to_json x) then initial = x else from_json (to_json x) = Some x;
  to_json_plain x : json_ok x -> plain_json (to_json x) }.

Class NotNull (T : Type) `{ToJson T} := to_json_not_null (x : T) : is_null (to_json x) = false.

Lemma from_to_json_value `{RoundTrip T} `{!NotNull T} x : json_ok x -> from_json (to_json x) = Some x.
Proof. intros Hx. pose proof (from_to_json x Hx) as E. by rewrite to_json_not_null in E. Qed.

#[export] Instance string_not_null : NotNull (list ascii).
Proof. done. Qed.
#[export] Instance int64_not_null : NotNull Z.
Proof. done. Qed.
#[export] Instance bool_not_null : NotNull bool.
Proof. done. Qed.
#[export] Instance vector_not_null `{ToJson T} : NotNull (list T).
Proof. done. Qed.
#[export] Instance map_not_null `{ToJson T} : NotNull (gmap (list ascii) T).
Proof. done. Qed.

#[export] Instance string_round : RoundTrip (list ascii).
Proof. by refine {| json_ok s := is_utf8 s = true |}. Defined.
#[export] Instance int64_round : RoundTrip Z.
Proof. by refine {| json_ok := int64_ok |}. Defined.
#[export] Instance bool_round : RoundTrip bool.
Proof. by refine {| json_ok _ := True |}. Defined.

#[export] Instance int32_round : RoundTrip Z (H := int32_from_json).
Proof.
  refine {| json_ok := int32_ok |}; [|intros x Hx; change (int64_ok x); unfold int32_ok, int64_ok in *; lia].
  intros x Hx. cbn. f_equal. unfold int32_ok in Hx. unfold s32, u32. destruct (Z.leb_spec 0 x).
  - rewrite Z.mod_small by lia. destruct (Z.ltb_spec x (2^31)); lia.
  - rewrite <- (Z.mod_unique x (2^32) (-1) (x + 2^32)) by lia. destruct (Z.ltb_spec (x + 2^32) (2^31)); lia.
Defined.

(** Integers that a double holds. *)
Definition double_ok (z : Z) : Prop := Z.abs z < 2^53.

Lemma round_double_small z : double_ok z -> round_double z = z.
Proof.
  intros Hz. unfold round_double, double_ok in *. destruct (decide (z = 0)) as [->|Hne]; [done|].
  assert (Hl : Z.log2 (Z.abs z) < 53) by (apply Z.log2_lt_pow2; lia).
  by replace (Z.log2 (Z.abs z) + 1 <=? 53) with true by lia.
Qed.

#[export] Instance double_round : RoundTrip Z (H := double_from_json).
Proof.
  refine {| json_ok := double_ok |}; [|intros x Hx; change (int64_ok x); unfold double_ok, int64_ok in *; lia].
  intros x Hx. cbn. rewrite round_double_small by done. unfold double_ok in Hx. unfold in_int64.
  by replace ((- 2^63 <=? x) && (x <? 2^63)) with true by lia.
Defined.

#[export] Instance optional_round `{RoundTrip T} `{!NotNull T} : RoundTrip (option T).
Proof.
  refine {| json_ok x := match x with Some x => json_ok x | None => True end |}.
  - intros [x|] Hx; cbn; [|done]. by rewrite to_json_not_null, from_to_json_value.
  - intros [x|] Hx; cbn; [by apply to_json_plain|done].
Defined.

Lemma plain_array l : Forall plain_json l -> plain_json (JArray l).
Proof. by induction 1. Qed.

Lemma plain_object o : NoDup o.*1 -> Forall (fun p => is_utf8 p.1 = true /\ plain_json p.2) o -> plain_json (JObject o).
Proof. intros Hn Ho. split; [done|]. clear Hn. by induction Ho. Qed.

#[export] Instance vector_round `{RoundTrip T} `{!NotNull T} : RoundTrip (list T).
Proof.
  refine {| json_ok x := Forall json_ok x |}.
  - intros x Hx. cbn. induction Hx as [|y x Hy _ IH]; [done|]. cbn. rewrite from_to_json_value by done. cbn. by rewrite IH.
  - intros x Hx. apply plain_array, Forall_fmap. eapply Forall_impl; [exact Hx|]. intros y. apply to_json_plain.
Defined.

(** *** Members of an object *)

Lemma find_app name o o' : find name (o ++ o') = match find name o with Some v => Some v | None => find name o' end.
Proof. induction o as [|[k v] o IH]; cbn; [done|]. by case_decide. Qed.

Lemma find_None name o : find name o = None <-> name ∉ o.*1.
Proof.
  induction o as [|[k v] o IH]; cbn; [split; [intros _; apply not_elem_of_nil|done]|]. rewrite not_elem_of_cons.
  case_decide as E; [subst; split; [done|by intros []]|]. rewrite IH. split; [intros Hn; by split|by intros []].
Qed.

Lemma find_emplace name name' v o : find name (emplace name' v o) =
  match find name o with Some w => Some w | None => if decide (name' = name) then Some v else None end.
Proof.
  unfold emplace. destruct (find name' o) as [w|] eqn:E.
  - destruct (find name o) eqn:E'; [done|]. case_decide; [|done]. congruence.
  - rewrite find_app. destruct (find name o); [done|]. cbn. by case_decide.
Qed.

Lemma find_serialize_ne `{ToJson T} name name' (x : T) o : name' <> name -> find name (serialize name' x o) = find name o.
Proof.
  intros Hne. unfold serialize. destruct (is_null _); [done|]. rewrite find_emplace, decide_False by done. by destruct (find name o).
Qed.

Lemma find_serialize_eq `{ToJson T} name (x : T) o : find name o = None ->
  find name (serialize name x o) = if is_null (to_json x) then None else Some (to_json x).
Proof. intros E. unfold serialize. destruct (is_null _); [done|]. rewrite find_emplace, E. by rewrite decide_True. Qed.

(** A member is read as it was written. *)
Lemma parse_member `{RoundTrip T} (v : object) name (x : T) : json_ok x ->
  find name v = (if is_null (to_json x) then None else Some (to_json x)) -> parse (JObject v) name = Some x.
Proof. intros Hx E. unfold parse. rewrite E. pose proof (from_to_json x Hx) as Hr. destruct (is_null _); [by rewrite Hr|done]. Qed.

(** An object of plain members. *)
Definition plain_members (o : object) : Prop := NoDup o.*1 /\ Forall (fun p => is_utf8 p.1 = true /\ plain_json p.2) o.

Lemma emplace_plain name v o : is_utf8 name = true -> plain_json v -> plain_members o -> plain_members (emplace name v o).
Proof.
  intros Hname Hv [Hn Ho]. unfold emplace. destruct (find name o) eqn:E; [done|]. apply find_None in E. split.
  - rewrite fmap_app. apply NoDup_app. split; [done|]. split; [|apply NoDup_singleton]. cbn.
    intros k Hk ->%list_elem_of_singleton. done.
  - apply Forall_app. split; [done|]. by apply Forall_singleton.
Qed.

Lemma serialize_plain `{RoundTrip T} name (x : T) o : is_utf8 name = true -> json_ok x -> plain_members o -> plain_members (serialize name x o).
Proof. intros Hn Hx Ho. unfold serialize. destruct (is_null _); [done|]. apply emplace_plain; [done|by apply to_json_plain|done]. Qed.

Lemma plain_members_nil : plain_members [].
Proof. split; [apply NoDup_nil_2|apply Forall_nil_2]. Qed.

(** *** Maps *)

Lemma emplace_all (l o : object) : NoDup (o ++ l).*1 -> foldl (fun o p => emplace p.1 p.2 o) o l = o ++ l.
Proof.
  revert o. induction l as [|[k v] l IH]; intros o Hn; cbn [foldl]; [by rewrite app_nil_r|].
  assert (E : emplace k v o = o ++ [(k, v)]).
  { unfold emplace. rewrite fmap_app, fmap_cons in Hn. apply NoDup_app in Hn as (_ & Hn & _).
    destruct (find k o) eqn:E; [|done]. exfalso. assert (Hk : k ∈ o.*1).
    { destruct (decide (k ∈ o.*1)) as [|Hk%find_None]; [done|congruence]. }
    apply (Hn k Hk). left. }
  cbn [fst snd]. rewrite E, IH; [by rewrite <- app_assoc|by rewrite <- app_assoc].
Qed.

(** The insertions of the members of a text, and of their values. *)
Definition put_member {T} (m : gmap (list ascii) T) (p : list ascii * T) : gmap (list ascii) T := <[p.1 := p.2]> m.

Lemma insert_all {T} (l : list (list ascii * T)) (m : gmap (list ascii) T) : NoDup l.*1 ->
  foldl put_member m l = list_to_map l ∪ m.
Proof.
  revert m. induction l as [|[k x] l IH]; intros m Hn; cbn [foldl list_to_map foldr]; [by rewrite (left_id_L ∅ (∪))|].
  rewrite fmap_cons in Hn. apply NoDup_cons in Hn as [Hk Hn]. rewrite IH by done. unfold put_member. cbn [fst snd].
  rewrite <- insert_union_l. symmetry. apply insert_union_r. by apply not_elem_of_list_to_map_1.
Qed.

Section maps.
Context `{RoundTrip T} `{!NotNull T}.
Abbreviation M := (gmap (list ascii) T).
Abbreviation write := (fun p : list ascii * T => (p.1, to_json p.2)).

Lemma read_all (l : list (list ascii * T)) (m : M) : Forall (fun p => json_ok p.2) l ->
  foldl read_member (Some m) (write <$> l) = Some (foldl put_member m l).
Proof.
  intros Hl. revert m. induction Hl as [|[k x] l Hx _ IH]; intros m; [done|]. cbn in Hx |- *.
  rewrite from_to_json_value by done. cbn. apply IH.
Qed.

Lemma members_keys (l : list (list ascii * T)) : (write <$> l).*1 = l.*1.
Proof. rewrite <- list_fmap_compose. by apply list_fmap_ext. Qed.

(** A map is written as the list of its members in an order. *)
Lemma map_members (x : M) : exists l, to_json x = JObject (write <$> l) /\ l ≡ₚ map_to_list x /\ NoDup l.*1.
Proof.
  exists (merge_sort key_le (map_to_list x)). pose proof (merge_sort_Permutation key_le (map_to_list x)) as P.
  assert (Hn : NoDup (merge_sort key_le (map_to_list x)).*1) by (rewrite P; apply NoDup_fst_map_to_list).
  split; [|by split]. unfold to_json, gmap_to_json, map_to_json. f_equal.
  rewrite emplace_all; [done|]. cbn [app]. by rewrite members_keys.
Qed.

#[export] Instance map_round : RoundTrip M.
Proof.
  refine {| json_ok x := map_Forall (fun k y => is_utf8 k = true /\ json_ok y) x |}; intros x Hx; destruct (map_members x) as (l & E & P & Hn);
    assert (Hl : Forall (fun p => is_utf8 p.1 = true /\ json_ok p.2) l)
      by (apply Forall_forall; intros [k y] Hy; apply (Hx k); apply elem_of_map_to_list; by rewrite <- P);
    rewrite E.
  - cbn [is_null]. change (map_from_json (JObject (write <$> l)) = Some x). unfold map_from_json. rewrite read_all by (eapply Forall_impl; [exact Hl|]; by intros p []).
    f_equal. rewrite insert_all, (right_id_L ∅ (∪)) by done. rewrite <- (list_to_map_to_list x). by apply list_to_map_proper.
  - apply plain_object; [by rewrite members_keys|]. apply Forall_fmap. eapply Forall_impl; [exact Hl|].
    intros p [Hu Hp]. split; [exact Hu|]. by apply to_json_plain.
Defined.
End maps.

(** *** Texts

    [parse<T>] of a text without [res]. *)

Definition parse_model `{JsonText} `{FromJson T} (text : list ascii) : option T := fst <$> parse_text text.

(** What is written as an object or an array. *)
Class Document (T : Type) `{ToJson T} := to_json_document (x : T) : is_object_or_array (to_json x) = true.

#[export] Instance vector_document `{ToJson T} : Document (list T).
Proof. done. Qed.
#[export] Instance map_document `{ToJson T} : Document (gmap (list ascii) T).
Proof. done. Qed.

Lemma parse_serialize_text `{JsonTextLaws} `{RoundTrip T} `{!Document T} (x : T) : json_ok x ->
  parse_text (serialize_text x) = Some (x, true).
Proof.
  intros Hx. unfold parse_text, serialize_text. rewrite json_parse_serialize by by apply to_json_plain.
  pose proof (from_to_json x Hx) as E. rewrite to_json_document. pose proof (to_json_document x) as D.
  destruct (to_json x); try discriminate D; cbn [is_null] in E; by rewrite E.
Qed.

Lemma parse_serialize_model `{JsonTextLaws} `{RoundTrip T} `{!Document T} (x : T) : json_ok x ->
  parse_model (serialize_text x) = Some x.
Proof. intros Hx. unfold parse_model. by rewrite parse_serialize_text. Qed.

#[global] Arguments parse : simpl never.
#[global] Arguments serialize : simpl never.
#[global] Arguments json_ok : simpl never.
#[global] Arguments plain_json : simpl never.

(** Looks for a member behind others. *)
Ltac json_find :=
  repeat (rewrite find_serialize_ne by (intros ?; discriminate));
  apply find_serialize_eq; repeat (rewrite find_serialize_ne by (intros ?; discriminate)); reflexivity.

(** [json_record ok] proves a round trip of a record whose members satisfy [ok]. *)
Ltac json_members :=
  repeat (erewrite parse_member; [cbn [mbind option_bind]| |json_find]; [|solve [assumption]]).
Ltac json_object :=
  match goal with
  | |- context [parse ?v _] => let v' := eval hnf in v in change v with v'
  | |- plain_json ?v => let v' := eval hnf in v in change v with v'
  end.
Ltac json_record ok :=
  refine {| json_ok := ok |};
    [intros [] Hx; cbn in Hx; destruct_and?; cbn; json_object; cbn; json_members; reflexivity
    |intros [] Hx; cbn in Hx; destruct_and?; json_object; cbn;
     match goal with |- plain_json (JObject ?o) => cut (plain_members o); [intros []; by apply plain_object|] end;
     repeat first [apply serialize_plain; [reflexivity|assumption|] | apply (serialize_plain (H := double_from_json)); [reflexivity|assumption|]
       | apply (serialize_plain (H := int32_from_json)); [reflexivity|assumption|]];
     apply plain_members_nil].

(** ** A concrete text

    Any encoding of values as texts satisfies the laws; this one is for concrete inputs. *)

Module json_sample.
Fixpoint bits (p : positive) : list ascii :=
  match p with xH => [] | xO p => chr 48 :: bits p | xI p => chr 49 :: bits p end.
Fixpoint of_bits (b : list ascii) : positive :=
  match b with [] => xH | c :: b => if ord c =? 49 then xI (of_bits b) else xO (of_bits b) end.

Lemma of_bits_bits p : of_bits (bits p) = p.
Proof. induction p as [p IH|p IH|]; cbn; by rewrite ?IH. Qed.

Definition to_bytes `{Countable T} (x : T) : list ascii := bits (encode x).
Definition of_bytes `{Countable T} (d : T) (b : list ascii) : T := default d (decode (of_bits b)).

Lemma of_to_bytes `{Countable T} (d x : T) : of_bytes d (to_bytes x) = x.
Proof. unfold of_bytes, to_bytes. by rewrite of_bits_bits, decode_encode. Qed.

(** A value as a tree, whose leaves are texts and numbers. *)
Fixpoint to_tree (v : json) : gen_tree (list ascii + Z) :=
  match v with
  | JNull => GenNode 0 []
  | JBool b => GenNode 1 [GenLeaf (inr (Z.b2z b))]
  | JInt64 z => GenNode 2 [GenLeaf (inr z)]
  | JUint64 z => GenNode 3 [GenLeaf (inr z)]
  | JDouble m e => GenNode 4 [GenLeaf (inr m); GenLeaf (inr e)]
  | JString s => GenNode 5 [GenLeaf (inl s)]
  | JArray l => GenNode 6 (to_tree <$> l)
  | JObject o => GenNode 7 ((fun p => GenNode 8 [GenLeaf (inl p.1); to_tree p.2]) <$> o)
  end.

Fixpoint of_tree (t : gen_tree (list ascii + Z)) : json :=
  match t with
  | GenNode 1 [GenLeaf (inr z)] => JBool (z =? 1)
  | GenNode 2 [GenLeaf (inr z)] => JInt64 z
  | GenNode 3 [GenLeaf (inr z)] => JUint64 z
  | GenNode 4 [GenLeaf (inr m); GenLeaf (inr e)] => JDouble m e
  | GenNode 5 [GenLeaf (inl s)] => JString s
  | GenNode 6 l => JArray (of_tree <$> l)
  | GenNode 7 l => JObject ((fun t => match t with GenNode 8 [GenLeaf (inl k); t] => (k, of_tree t) | _ => ([], JNull) end) <$> l)
  | _ => JNull
  end.

Lemma of_to_tree v : of_tree (to_tree v) = v.
Proof.
  induction v as [|[]|z|z|m e|s|l IH|o IH] using json_nested_ind; cbn; try done.
  - f_equal. by induction IH; cbn; f_equal.
  - f_equal. induction IH as [|[k v] o E _ IHo]; cbn; [done|]. cbn in E. by rewrite E, IHo.
Qed.

#[export] Instance text : JsonText := {|
  json_serialize v := to_bytes (to_tree v);
  json_parse b := of_tree (of_bytes (GenNode 0 []) b) |}.

#[export] Instance text_laws : JsonTextLaws.
Proof. intros v _. unfold json_parse, json_serialize, text. by rewrite of_to_bytes, of_to_tree. Qed.
End json_sample.
