(* ===== verification/ReadModels.v ===== *)
(** * The data models of the reading library

    Model of the classes of include/olp/dataservice/read/model and src/generated/model of
    olp-cpp-sdk-dataservice-read, of their parsers in src/generated/parser and their
    serializers in src/generated/serializer.  A class is the record of its members,
    [from_json] and [to_json] are instances of the classes of Json.v; a member [x_] of a
    class [C] is the field [C_x].  A model with both has an instance of [RoundTrip]. *)

From S2P Require Import Prelude Json.

#[local] Open Scope json_scope.

Record Coverage := mkCoverage {
  Coverage_admin_areas : list (list ascii) }.

#[export] Instance Coverage_from_json : FromJson Coverage := {|
  from_json v :=
    admin_areas ← parse v (chars "adminAreas");
    Some (mkCoverage admin_areas);
  initial := mkCoverage initial |}.

#[export] Instance Coverage_to_json : ToJson Coverage := fun x => JObject ([]
  |> serialize (chars "adminAreas") (Coverage_admin_areas x)).

#[export] Instance Coverage_document : Document Coverage.
Proof. done. Qed.

#[export] Instance Coverage_not_null : NotNull Coverage.
Proof. done. Qed.
#[export] Instance Coverage_round : RoundTrip Coverage.
Proof. by json_record (fun x => json_ok (Coverage_admin_areas x)). Defined.

Record IndexDefinition := mkIndexDefinition {
  IndexDefinition_name : list ascii;
  IndexDefinition_type : list ascii;
  IndexDefinition_duration : Z;
  IndexDefinition_zoomlevel : Z }.

#[export] Instance IndexDefinition_from_json : FromJson IndexDefinition := {|
  from_json v :=
    name ← parse v (chars "name");
    type_ ← parse v (chars "type");
    duration ← parse v (chars "duration");
    zoomlevel ← parse v (chars "zoomLevel");
    Some (mkIndexDefinition name type_ duration zoomlevel);
  initial := mkIndexDefinition initial initial initial initial |}.

#[export] Instance IndexDefinition_to_json : ToJson IndexDefinition := fun x => JObject ([]
  |> serialize (chars "name") (IndexDefinition_name x)
  |> serialize (chars "type") (IndexDefinition_type x)
  |> serialize (chars "duration") (IndexDefinition_duration x)
  |> serialize (chars "zoomLevel") (IndexDefinition_zoomlevel x)).

#[export] Instance IndexDefinition_document : Document IndexDefinition.
Proof. done. Qed.

#[export] Instance IndexDefinition_not_null : NotNull IndexDefinition.
Proof. done. Qed.
#[export] Instance IndexDefinition_round : RoundTrip IndexDefinition.
Proof. by json_record (fun x => json_ok (IndexDefinition_name x) /\ json_ok (IndexDefinition_type x) /\ json_ok (IndexDefinition_duration x) /\ json_ok (IndexDefinition_zoomlevel x)). Defined.

Record IndexProperties := mkIndexProperties {
  IndexProperties_ttl : list ascii;
  IndexProperties_index_definitions : list IndexDefinition }.

#[export] Instance IndexProperties_from_json : FromJson IndexProperties := {|
  from_json v :=
    ttl ← parse v (chars "ttl");
    index_definitions ← parse v (chars "indexDefinitions");
    Some (mkIndexProperties ttl index_definitions);
  initial := mkIndexProperties initial initial |}.

#[export] Instance IndexProperties_to_json : ToJson IndexProperties := fun x => JObject ([]
  |> serialize (chars "ttl") (IndexProperties_ttl x)
  |> serialize (chars "indexDefinitions") (IndexProperties_index_definitions x)).

#[export] Instance IndexProperties_document : Document IndexProperties.
Proof. done. Qed.

#[export] Instance IndexProperties_not_null : NotNull IndexProperties.
Proof. done. Qed.
#[export] Instance IndexProperties_round : RoundTrip IndexProperties.
Proof. by json_record (fun x => json_ok (IndexProperties_ttl x) /\ json_ok (IndexProperties_index_definitions x)). Defined.

Record Creator := mkCreator {
  Creator_id : list ascii }.

#[export] Instance Creator_from_json : FromJson Creator := {|
  from_json v :=
    id ← parse v (chars "id");
    Some (mkCreator id);
  initial := mkCreator initial |}.

#[export] Instance Creator_to_json : ToJson Creator := fun x => JObject ([]
  |> serialize (chars "id") (Creator_id x)).

#[export] Instance Creator_document : Document Creator.
Proof. done. Qed.

#[export] Instance Creator_not_null : NotNull Creator.
Proof. done. Qed.
#[export] Instance Creator_round : RoundTrip Creator.
Proof. by json_record (fun x => json_ok (Creator_id x)). Defined.

Record Owner := mkOwner {
  Owner_creator : Creator;
  Owner_organisation : Creator }.

#[export] Instance Owner_from_json : FromJson Owner := {|
  from_json v :=
    creator ← parse v (chars "creator");
    organisation ← parse v (chars "organisation");
    Some (mkOwner creator organisation);
  initial := mkOwner initial initial |}.

#[export] Instance Owner_to_json : ToJson Owner := fun x => JObject ([]
  |> serialize (chars "creator") (Owner_creator x)
  |> serialize (chars "organisation") (Owner_organisation x)).

#[export] Instance Owner_document : Document Owner.
Proof. done. Qed.

#[export] Instance Owner_not_null : NotNull Owner.
Proof. done. Qed.
#[export] Instance Owner_round : RoundTrip Owner.
Proof. by json_record (fun x => json_ok (Owner_creator x) /\ json_ok (Owner_organisation x)). Defined.

Record Partitioning := mkPartitioning {
  Partitioning_scheme : list ascii;
  Partitioning_tile_levels : list Z }.

#[export] Instance Partitioning_from_json : FromJson Partitioning := {|
  from_json v :=
    scheme ← parse v (chars "scheme");
    tile_levels ← parse v (chars "tileLevels");
    Some (mkPartitioning scheme tile_levels);
  initial := mkPartitioning initial initial |}.

#[export] Instance Partitioning_to_json : ToJson Partitioning := fun x => JObject ([]
  |> serialize (chars "scheme") (Partitioning_scheme x)
  |> serialize (chars "tileLevels") (Partitioning_tile_levels x)).

#[export] Instance Partitioning_document : Document Partitioning.
Proof. done. Qed.

#[export] Instance Partitioning_not_null : NotNull Partitioning.
Proof. done. Qed.
#[export] Instance Partitioning_round : RoundTrip Partitioning.
Proof. by json_record (fun x => json_ok (Partitioning_scheme x) /\ json_ok (Partitioning_tile_levels x)). Defined.

Record Schema := mkSchema {
  Schema_hrn : list ascii }.

#[export] Instance Schema_from_json : FromJson Schema := {|
  from_json v :=
    hrn ← parse v (chars "hrn");
    Some (mkSchema hrn);
  initial := mkSchema initial |}.

#[export] Instance Schema_to_json : ToJson Schema := fun x => JObject ([]
  |> serialize (chars "hrn") (Schema_hrn x)).

#[export] Instance Schema_document : Document Schema.
Proof. done. Qed.

#[export] Instance Schema_not_null : NotNull Schema.
Proof. done. Qed.
#[export] Instance Schema_round : RoundTrip Schema.
Proof. by json_record (fun x => json_ok (Schema_hrn x)). Defined.

Record StreamProperties := mkStreamProperties {
  StreamProperties_data_in_throughput_mbps : Z;
  StreamProperties_data_out_throughput_mbps : Z }.

#[export] Instance StreamProperties_from_json : FromJson StreamProperties := {|
  from_json v :=
    data_in_throughput_mbps ← parse (H := double_from_json) v (chars "dataInThroughputMbps");
    data_out_throughput_mbps ← parse (H := double_from_json) v (chars "dataOutThroughputMbps");
    Some (mkStreamProperties data_in_throughput_mbps data_out_throughput_mbps);
  initial := mkStreamProperties 0 0 |}.

#[export] Instance StreamProperties_to_json : ToJson StreamProperties := fun x => JObject ([]
  |> serialize (chars "dataInThroughputMbps") (StreamProperties_data_in_throughput_mbps x)
  |> serialize (chars "dataOutThroughputMbps") (StreamProperties_data_out_throughput_mbps x)).

#[export] Instance StreamProperties_document : Document StreamProperties.
Proof. done. Qed.

#[export] Instance StreamProperties_not_null : NotNull StreamProperties.
Proof. done. Qed.
#[export] Instance StreamProperties_round : RoundTrip StreamProperties.
Proof. by json_record (fun x => json_ok (H := double_from_json) (StreamProperties_data_in_throughput_mbps x) /\ json_ok (H := double_from_json) (StreamProperties_data_out_throughput_mbps x)). Defined.

Record Encryption := mkEncryption {
  Encryption_algorithm : list ascii }.

#[export] Instance Encryption_from_json : FromJson Encryption := {|
  from_json v :=
    algorithm ← parse v (chars "algorithm");
    Some (mkEncryption algorithm);
  initial := mkEncryption initial |}.

#[export] Instance Encryption_to_json : ToJson Encryption := fun x => JObject ([]
  |> serialize (chars "algorithm") (Encryption_algorithm x)).

#[export] Instance Encryption_document : Document Encryption.
Proof. done. Qed.

#[export] Instance Encryption_not_null : NotNull Encryption.
Proof. done. Qed.
#[export] Instance Encryption_round : RoundTrip Encryption.
Proof. by json_record (fun x => json_ok (Encryption_algorithm x)). Defined.

Record Volume := mkVolume {
  Volume_volume_type : list ascii;
  Volume_max_memory_policy : list ascii;
  Volume_package_type : list ascii;
  Volume_encryption : Encryption }.

#[export] Instance Volume_from_json : FromJson Volume := {|
  from_json v :=
    volume_type ← parse v (chars "volumeType");
    max_memory_policy ← parse v (chars "maxMemoryPolicy");
    package_type ← parse v (chars "packageType");
    encryption ← parse v (chars "encryption");
    Some (mkVolume volume_type max_memory_policy package_type encryption);
  initial := mkVolume initial initial initial initial |}.

#[export] Instance Volume_to_json : ToJson Volume := fun x => JObject ([]
  |> serialize (chars "volumeType") (Volume_volume_type x)
  |> serialize (chars "maxMemoryPolicy") (Volume_max_memory_policy x)
  |> serialize (chars "packageType") (Volume_package_type x)
  |> serialize (chars "encryption") (Volume_encryption x)).

#[export] Instance Volume_document : Document Volume.
Proof. done. Qed.

#[export] Instance Volume_not_null : NotNull Volume.
Proof. done. Qed.
#[export] Instance Volume_round : RoundTrip Volume.
Proof. by json_record (fun x => json_ok (Volume_volume_type x) /\ json_ok (Volume_max_memory_policy x) /\ json_ok (Volume_package_type x) /\ json_ok (Volume_encryption x)). Defined.

Record Layer := mkLayer {
  Layer_id : list ascii;
  Layer_name : list ascii;
  Layer_summary : list ascii;
  Layer_description : list ascii;
  Layer_owner : Owner;
  Layer_coverage : Coverage;
  Layer_schema : Schema;
  Layer_content_type : list ascii;
  Layer_content_encoding : list ascii;
  Layer_partitioning : Partitioning;
  Layer_layer_type : list ascii;
  Layer_digest : list ascii;
  Layer_tags : list (list ascii);
  Layer_billing_tags : list (list ascii);
  Layer_ttl : option Z;
  Layer_index_properties : IndexProperties;
  Layer_stream_properties : StreamProperties;
  Layer_volume : Volume }.

#[export] Instance Layer_from_json : FromJson Layer := {|
  from_json v :=
    id ← parse v (chars "id");
    name ← parse v (chars "name");
    summary ← parse v (chars "summary");
    description ← parse v (chars "description");
    owner ← parse v (chars "owner");
    coverage ← parse v (chars "coverage");
    schema ← parse v (chars "schema");
    content_type ← parse v (chars "contentType");
    content_encoding ← parse v (chars "contentEncoding");
    partitioning ← parse v (chars "partitioning");
    layer_type ← parse v (chars "layerType");
    digest ← parse v (chars "digest");
    tags ← parse v (chars "tags");
    billing_tags ← parse v (chars "billingTags");
    ttl ← parse v (chars "ttl");
    index_properties ← parse v (chars "indexProperties");
    stream_properties ← parse v (chars "streamProperties");
    volume ← parse v (chars "volume");
    Some (mkLayer id name summary description owner coverage schema content_type content_encoding partitioning layer_type digest tags billing_tags ttl index_properties stream_properties volume);
  initial := mkLayer initial initial initial initial initial initial initial initial initial initial initial initial initial initial initial initial initial initial |}.

#[export] Instance Layer_to_json : ToJson Layer := fun x => JObject ([]
  |> serialize (chars "id") (Layer_id x)
  |> serialize (chars "name") (Layer_name x)
  |> serialize (chars "summary") (Layer_summary x)
  |> serialize (chars "description") (Layer_description x)
  |> serialize (chars "owner") (Layer_owner x)
  |> serialize (chars "coverage") (Layer_coverage x)
  |> serialize (chars "schema") (Layer_schema x)
  |> serialize (chars "contentType") (Layer_content_type x)
  |> serialize (chars "contentEncoding") (Layer_content_encoding x)
  |> serialize (chars "partitioning") (Layer_partitioning x)
  |> serialize (chars "layerType") (Layer_layer_type x)
  |> serialize (chars "digest") (Layer_digest x)
  |> serialize (chars "tags") (Layer_tags x)
  |> serialize (chars "billingTags") (Layer_billing_tags x)
  |> serialize (chars "ttl") (Layer_ttl x)
  |> serialize (chars "indexProperties") (Layer_index_properties x)
  |> serialize (chars "streamProperties") (Layer_stream_properties x)
  |> serialize (chars "volume") (Layer_volume x)).

#[export] Instance Layer_document : Document Layer.
Proof. done. Qed.

#[export] Instance Layer_not_null : NotNull Layer.
Proof. done. Qed.
#[export] Instance Layer_round : RoundTrip Layer.
Proof. by json_record (fun x => json_ok (Layer_id x) /\ json_ok (Layer_name x) /\ json_ok (Layer_summary x) /\ json_ok (Layer_description x) /\ json_ok (Layer_owner x) /\ json_ok (Layer_coverage x) /\ json_ok (Layer_schema x) /\ json_ok (Layer_content_type x) /\ json_ok (Layer_content_encoding x) /\ json_ok (Layer_partitioning x) /\ json_ok (Layer_layer_type x) /\ json_ok (Layer_digest x) /\ json_ok (Layer_tags x) /\ json_ok (Layer_billing_tags x) /\ json_ok (Layer_ttl x) /\ json_ok (Layer_index_properties x) /\ json_ok (Layer_stream_properties x) /\ json_ok (Layer_volume x)). Defined.

Record Notifications := mkNotifications {
  Notifications_enabled : bool }.

#[export] Instance Notifications_from_json : FromJson Notifications := {|
  from_json v :=
    enabled ← parse v (chars "enabled");
    Some (mkNotifications enabled);
  initial := mkNotifications initial |}.

#[export] Instance Notifications_to_json : ToJson Notifications := fun x => JObject ([]
  |> serialize (chars "enabled") (Notifications_enabled x)).

#[export] Instance Notifications_document : Document Notifications.
Proof. done. Qed.

#[export] Instance Notifications_not_null : NotNull Notifications.
Proof. done. Qed.
#[export] Instance Notifications_round : RoundTrip Notifications.
Proof. by json_record (fun x => json_ok (Notifications_enabled x)). Defined.

Record Catalog := mkCatalog {
  Catalog_id : list ascii;
  Catalog_hrn : list ascii;
  Catalog_name : list ascii;
  Catalog_summary : list ascii;
  Catalog_description : list ascii;
  Catalog_coverage : Coverage;
  Catalog_owner : Owner;
  Catalog_tags : list (list ascii);
  Catalog_billing_tags : list (list ascii);
  Catalog_created : list ascii;
  Catalog_layers : list Layer;
  Catalog_version : Z;
  Catalog_notifications : Notifications }.

#[export] Instance Catalog_from_json : FromJson Catalog := {|
  from_json v :=
    id ← parse v (chars "id");
    hrn ← parse v (chars "hrn");
    name ← parse v (chars "name");
    summary ← parse v (chars "summary");
    description ← parse v (chars "description");
    coverage ← parse v (chars "coverage");
    owner ← parse v (chars "owner");
    tags ← parse v (chars "tags");
    billing_tags ← parse v (chars "billingTags");
    created ← parse v (chars "created");
    layers ← parse v (chars "layers");
    version ← parse v (chars "version");
    notifications ← parse v (chars "notifications");
    Some (mkCatalog id hrn name summary description coverage owner tags billing_tags created layers version notifications);
  initial := mkCatalog initial initial initial initial initial initial initial initial initial initial initial initial initial |}.

#[export] Instance Catalog_to_json : ToJson Catalog := fun x => JObject ([]
  |> serialize (chars "id") (Catalog_id x)
  |> serialize (chars "hrn") (Catalog_hrn x)
  |> serialize (chars "name") (Catalog_name x)
  |> serialize (chars "summary") (Catalog_summary x)
  |> serialize (chars "description") (Catalog_description x)
  |> serialize (chars "coverage") (Catalog_coverage x)
  |> serialize (chars "owner") (Catalog_owner x)
  |> serialize (chars "tags") (Catalog_tags x)
  |> serialize (chars "billingTags") (Catalog_billing_tags x)
  |> serialize (chars "created") (Catalog_created x)
  |> serialize (chars "layers") (Catalog_layers x)
  |> serialize (chars "version") (Catalog_version x)
  |> serialize (chars "notifications") (Catalog_notifications x)).

#[export] Instance Catalog_document : Document Catalog.
Proof. done. Qed.

#[export] Instance Catalog_not_null : NotNull Catalog.
Proof. done. Qed.
#[export] Instance Catalog_round : RoundTrip Catalog.
Proof. by json_record (fun x => json_ok (Catalog_id x) /\ json_ok (Catalog_hrn x) /\ json_ok (Catalog_name x) /\ json_ok (Catalog_summary x) /\ json_ok (Catalog_description x) /\ json_ok (Catalog_coverage x) /\ json_ok (Catalog_owner x) /\ json_ok (Catalog_tags x) /\ json_ok (Catalog_billing_tags x) /\ json_ok (Catalog_created x) /\ json_ok (Catalog_layers x) /\ json_ok (Catalog_version x) /\ json_ok (Catalog_notifications x)). Defined.

Record Partition := mkPartition {
  Partition_checksum : option (list ascii);
  Partition_compressed_data_size : option Z;
  Partition_data_handle : list ascii;
  Partition_data_size : option Z;
  Partition_crc : option (list ascii);
  Partition_partition : list ascii;
  Partition_version : option Z }.

#[export] Instance Partition_from_json : FromJson Partition := {|
  from_json v :=
    checksum ← parse v (chars "checksum");
    compressed_data_size ← parse v (chars "compressedDataSize");
    data_handle ← parse v (chars "dataHandle");
    data_size ← parse v (chars "dataSize");
    crc ← parse v (chars "crc");
    partition ← parse v (chars "partition");
    version ← parse v (chars "version");
    Some (mkPartition checksum compressed_data_size data_handle data_size crc partition version);
  initial := mkPartition initial initial initial initial initial initial initial |}.

#[export] Instance Partition_to_json : ToJson Partition := fun x => JObject ([]
  |> serialize (chars "checksum") (Partition_checksum x)
  |> serialize (chars "compressedDataSize") (Partition_compressed_data_size x)
  |> serialize (chars "dataHandle") (Partition_data_handle x)
  |> serialize (chars "dataSize") (Partition_data_size x)
  |> serialize (chars "crc") (Partition_crc x)
  |> serialize (chars "partition") (Partition_partition x)
  |> serialize (chars "version") (Partition_version x)).

#[export] Instance Partition_document : Document Partition.
Proof. done. Qed.

#[export] Instance Partition_not_null : NotNull Partition.
Proof. done. Qed.
#[export] Instance Partition_round : RoundTrip Partition.
Proof. by json_record (fun x => json_ok (Partition_checksum x) /\ json_ok (Partition_compressed_data_size x) /\ json_ok (Partition_data_handle x) /\ json_ok (Partition_data_size x) /\ json_ok (Partition_crc x) /\ json_ok (Partition_partition x) /\ json_ok (Partition_version x)). Defined.

Record Partitions := mkPartitions {
  Partitions_partitions : list Partition }.

#[export] Instance Partitions_from_json : FromJson Partitions := {|
  from_json v :=
    partitions ← parse v (chars "partitions");
    Some (mkPartitions partitions);
  initial := mkPartitions initial |}.

#[export] Instance Partitions_to_json : ToJson Partitions := fun x => JObject ([]
  |> serialize (chars "partitions") (Partitions_partitions x)).

#[export] Instance Partitions_document : Document Partitions.
Proof. done. Qed.

#[export] Instance Partitions_not_null : NotNull Partitions.
Proof. done. Qed.
#[export] Instance Partitions_round : RoundTrip Partitions.
Proof. by json_record (fun x => json_ok (Partitions_partitions x)). Defined.

Record LayerVersion := mkLayerVersion {
  LayerVersion_layer : list ascii;
  LayerVersion_version : Z;
  LayerVersion_timestamp : Z }.

#[export] Instance LayerVersion_from_json : FromJson LayerVersion := {|
  from_json v :=
    layer ← parse v (chars "layer");
    version ← parse v (chars "version");
    timestamp ← parse v (chars "timestamp");
    Some (mkLayerVersion layer version timestamp);
  initial := mkLayerVersion initial initial initial |}.

#[export] Instance LayerVersion_to_json : ToJson LayerVersion := fun x => JObject ([]
  |> serialize (chars "layer") (LayerVersion_layer x)
  |> serialize (chars "version") (LayerVersion_version x)
  |> serialize (chars "timestamp") (LayerVersion_timestamp x)).

#[export] Instance LayerVersion_document : Document LayerVersion.
Proof. done. Qed.

#[export] Instance LayerVersion_not_null : NotNull LayerVersion.
Proof. done. Qed.
#[export] Instance LayerVersion_round : RoundTrip LayerVersion.
Proof. by json_record (fun x => json_ok (LayerVersion_layer x) /\ json_ok (LayerVersion_version x) /\ json_ok (LayerVersion_timestamp x)). Defined.

Record LayerVersions := mkLayerVersions {
  LayerVersions_layer_versions : list LayerVersion;
  LayerVersions_version : Z }.

#[export] Instance LayerVersions_from_json : FromJson LayerVersions := {|
  from_json v :=
    layer_versions ← parse v (chars "layerVersions");
    version ← parse v (chars "version");
    Some (mkLayerVersions layer_versions version);
  initial := mkLayerVersions initial initial |}.

#[export] Instance LayerVersions_to_json : ToJson LayerVersions := fun x => JObject ([]
  |> serialize (chars "layerVersions") (LayerVersions_layer_versions x)
  |> serialize (chars "version") (LayerVersions_version x)).

#[export] Instance LayerVersions_document : Document LayerVersions.
Proof. done. Qed.

#[export] Instance LayerVersions_not_null : NotNull LayerVersions.
Proof. done. Qed.
#[export] Instance LayerVersions_round : RoundTrip LayerVersions.
Proof. by json_record (fun x => json_ok (LayerVersions_layer_versions x) /\ json_ok (LayerVersions_version x)). Defined.

Record VersionResponse := mkVersionResponse {
  VersionResponse_version : Z }.

#[export] Instance VersionResponse_from_json : FromJson VersionResponse := {|
  from_json v :=
    version ← parse v (chars "version");
    Some (mkVersionResponse version);
  initial := mkVersionResponse initial |}.

#[export] Instance VersionResponse_to_json : ToJson VersionResponse := fun x => JObject ([]
  |> serialize (chars "version") (VersionResponse_version x)).

#[export] Instance VersionResponse_document : Document VersionResponse.
Proof. done. Qed.

#[export] Instance VersionResponse_not_null : NotNull VersionResponse.
Proof. done. Qed.
#[export] Instance VersionResponse_round : RoundTrip VersionResponse.
Proof. by json_record (fun x => json_ok (VersionResponse_version x)). Defined.

Record VersionDependency := mkVersionDependency {
  VersionDependency_hrn : list ascii;
  VersionDependency_version : Z;
  VersionDependency_direct : bool }.

#[export] Instance VersionDependency_from_json : FromJson VersionDependency := {|
  from_json v :=
    hrn ← parse v (chars "hrn");
    version ← parse v (chars "version");
    direct ← parse v (chars "direct");
    Some (mkVersionDependency hrn version direct);
  initial := mkVersionDependency initial initial initial |}.

#[export] Instance VersionDependency_to_json : ToJson VersionDependency := fun x => JObject ([]
  |> serialize (chars "hrn") (VersionDependency_hrn x)
  |> serialize (chars "version") (VersionDependency_version x)
  |> serialize (chars "direct") (VersionDependency_direct x)).

#[export] Instance VersionDependency_document : Document VersionDependency.
Proof. done. Qed.

#[export] Instance VersionDependency_not_null : NotNull VersionDependency.
Proof. done. Qed.
#[export] Instance VersionDependency_round : RoundTrip VersionDependency.
Proof. by json_record (fun x => json_ok (VersionDependency_hrn x) /\ json_ok (VersionDependency_version x) /\ json_ok (VersionDependency_direct x)). Defined.

Record VersionInfo := mkVersionInfo {
  VersionInfo_dependencies : list VersionDependency;
  VersionInfo_timestamp : Z;
  VersionInfo_version : Z;
  VersionInfo_partition_counts : gmap (list ascii) Z }.

#[export] Instance VersionInfo_from_json : FromJson VersionInfo := {|
  from_json v :=
    dependencies ← parse v (chars "dependencies");
    timestamp ← parse v (chars "timestamp");
    version ← parse v (chars "version");
    partition_counts ← parse v (chars "partitionCounts");
    Some (mkVersionInfo dependencies timestamp version partition_counts);
  initial := mkVersionInfo initial initial initial initial |}.

#[export] Instance VersionInfo_to_json : ToJson VersionInfo := fun x => JObject ([]
  |> serialize (chars "dependencies") (VersionInfo_dependencies x)
  |> serialize (chars "timestamp") (VersionInfo_timestamp x)
  |> serialize (chars "version") (VersionInfo_version x)
  |> serialize (chars "partitionCounts") (VersionInfo_partition_counts x)).

#[export] Instance VersionInfo_document : Document VersionInfo.
Proof. done. Qed.

#[export] Instance VersionInfo_not_null : NotNull VersionInfo.
Proof. done. Qed.
#[export] Instance VersionInfo_round : RoundTrip VersionInfo.
Proof. by json_record (fun x => json_ok (VersionInfo_dependencies x) /\ json_ok (VersionInfo_timestamp x) /\ json_ok (VersionInfo_version x) /\ json_ok (VersionInfo_partition_counts x)). Defined.

Record VersionInfos := mkVersionInfos {
  VersionInfos_versions : list VersionInfo }.

#[export] Instance VersionInfos_from_json : FromJson VersionInfos := {|
  from_json v :=
    versions ← parse v (chars "versions");
    Some (mkVersionInfos versions);
  initial := mkVersionInfos initial |}.

#[export] Instance VersionInfos_to_json : ToJson VersionInfos := fun x => JObject ([]
  |> serialize (chars "versions") (VersionInfos_versions x)).

#[export] Instance VersionInfos_document : Document VersionInfos.
Proof. done. Qed.

#[export] Instance VersionInfos_not_null : NotNull VersionInfos.
Proof. done. Qed.
#[export] Instance VersionInfos_round : RoundTrip VersionInfos.
Proof. by json_record (fun x => json_ok (VersionInfos_versions x)). Defined.

Record Api := mkApi {
  Api_api : list ascii;
  Api_version : list ascii;
  Api_base_url : list ascii;
  Api_parameters : gmap (list ascii) (list ascii) }.

#[export] Instance Api_from_json : FromJson Api := {|
  from_json v :=
    api ← parse v (chars "api");
    version ← parse v (chars "version");
    base_url ← parse v (chars "baseURL");
    parameters ← parse v (chars "parameters");
    Some (mkApi api version base_url parameters);
  initial := mkApi initial initial initial initial |}.

#[export] Instance Api_to_json : ToJson Api := fun x => JObject ([]
  |> serialize (chars "api") (Api_api x)
  |> serialize (chars "version") (Api_version x)
  |> serialize (chars "baseURL") (Api_base_url x)
  |> serialize (chars "parameters") (Api_parameters x)).

#[export] Instance Api_document : Document Api.
Proof. done. Qed.

#[export] Instance Api_not_null : NotNull Api.
Proof. done. Qed.
#[export] Instance Api_round : RoundTrip Api.
Proof. by json_record (fun x => json_ok (Api_api x) /\ json_ok (Api_version x) /\ json_ok (Api_base_url x) /\ json_ok (Api_parameters x)). Defined.

Record StreamOffset := mkStreamOffset {
  StreamOffset_partition : Z;
  StreamOffset_offset : Z }.

#[export] Instance StreamOffset_from_json : FromJson StreamOffset := {|
  from_json v :=
    partition ← parse (H := int32_from_json) v (chars "partition");
    offset ← parse v (chars "offset");
    Some (mkStreamOffset partition offset);
  initial := mkStreamOffset 0 initial |}.

#[export] Instance StreamOffset_to_json : ToJson StreamOffset := fun x => JObject ([]
  |> serialize (chars "partition") (StreamOffset_partition x)
  |> serialize (chars "offset") (StreamOffset_offset x)).

#[export] Instance StreamOffset_document : Document StreamOffset.
Proof. done. Qed.

#[export] Instance StreamOffset_not_null : NotNull StreamOffset.
Proof. done. Qed.
#[export] Instance StreamOffset_round : RoundTrip StreamOffset.
Proof. by json_record (fun x => json_ok (H := int32_from_json) (StreamOffset_partition x) /\ json_ok (StreamOffset_offset x)). Defined.

Record StreamOffsets := mkStreamOffsets {
  StreamOffsets_offsets : list StreamOffset }.

#[export] Instance StreamOffsets_to_json : ToJson StreamOffsets := fun x => JObject ([]
  |> serialize (chars "offsets") (StreamOffsets_offsets x)).

#[export] Instance StreamOffsets_document : Document StreamOffsets.
Proof. done. Qed.

Record CatalogVersion := mkCatalogVersion {
  CatalogVersion_hrn : list ascii;
  CatalogVersion_version : Z }.

#[export] Instance CatalogVersion_from_json : FromJson CatalogVersion := {|
  from_json v :=
    hrn ← parse v (chars "hrn");
    version ← parse v (chars "version");
    Some (mkCatalogVersion hrn version);
  initial := mkCatalogVersion initial initial |}.

#[export] Instance CatalogVersion_to_json : ToJson CatalogVersion := fun x => JObject ([]
  |> serialize (chars "hrn") (CatalogVersion_hrn x)
  |> serialize (chars "version") (CatalogVersion_version x)).

#[export] Instance CatalogVersion_document : Document CatalogVersion.
Proof. done. Qed.

#[export] Instance CatalogVersion_not_null : NotNull CatalogVersion.
Proof. done. Qed.
#[export] Instance CatalogVersion_round : RoundTrip CatalogVersion.
Proof. by json_record (fun x => json_ok (CatalogVersion_hrn x) /\ json_ok (CatalogVersion_version x)). Defined.

Record VersionsResponseEntry := mkVersionsResponseEntry {
  VersionsResponseEntry_version : Z;
  VersionsResponseEntry_catalog_versions : list CatalogVersion }.

#[export] Instance VersionsResponseEntry_from_json : FromJson VersionsResponseEntry := {|
  from_json v :=
    version ← parse v (chars "version");
    catalog_versions ← parse v (chars "sharedDependencies");
    Some (mkVersionsResponseEntry version catalog_versions);
  initial := mkVersionsResponseEntry initial initial |}.

Record VersionsResponse := mkVersionsResponse {
  VersionsResponse_entries : list VersionsResponseEntry }.

#[export] Instance VersionsResponse_from_json : FromJson VersionsResponse := {|
  from_json v :=
    entries ← parse v (chars "versions");
    Some (mkVersionsResponse entries);
  initial := mkVersionsResponse initial |}.

Record ParentQuad := mkParentQuad {
  ParentQuad_additional_metadata : option (list ascii);
  ParentQuad_checksum : option (list ascii);
  ParentQuad_compressed_data_size : option Z;
  ParentQuad_data_handle : list ascii;
  ParentQuad_data_size : option Z;
  ParentQuad_partition : list ascii;
  ParentQuad_version : Z }.

#[export] Instance ParentQuad_from_json : FromJson ParentQuad := {|
  from_json v :=
    additional_metadata ← parse v (chars "additionalMetadata");
    checksum ← parse v (chars "checksum");
    compressed_data_size ← parse v (chars "compressedDataSize");
    data_handle ← parse v (chars "dataHandle");
    data_size ← parse v (chars "dataSize");
    partition ← parse v (chars "partition");
    version ← parse v (chars "version");
    Some (mkParentQuad additional_metadata checksum compressed_data_size data_handle data_size partition version);
  initial := mkParentQuad initial initial initial initial initial initial initial |}.

Record SubQuad := mkSubQuad {
  SubQuad_additional_metadata : option (list ascii);
  SubQuad_checksum : option (list ascii);
  SubQuad_compressed_data_size : option Z;
  SubQuad_data_handle : list ascii;
  SubQuad_data_size : option Z;
  SubQuad_sub_quad_key : list ascii;
  SubQuad_version : Z }.

#[export] Instance SubQuad_from_json : FromJson SubQuad := {|
  from_json v :=
    additional_metadata ← parse v (chars "additionalMetadata");
    checksum ← parse v (chars "checksum");
    compressed_data_size ← parse v (chars "compressedDataSize");
    data_handle ← parse v (chars "dataHandle");
    data_size ← parse v (chars "dataSize");
    sub_quad_key ← parse v (chars "subQuadKey");
    version ← parse v (chars "version");
    Some (mkSubQuad additional_metadata checksum compressed_data_size data_handle data_size sub_quad_key version);
  initial := mkSubQuad initial initial initial initial initial initial initial |}.

Record Index := mkIndex {
  Index_parent_quads : list ParentQuad;
  Index_sub_quads : list SubQuad }.

#[export] Instance Index_from_json : FromJson Index := {|
  from_json v :=
    parent_quads ← parse v (chars "parentQuads");
    sub_quads ← parse v (chars "subQuads");
    Some (mkIndex parent_quads sub_quads);
  initial := mkIndex initial initial |}.

Record Metadata := mkMetadata {
  Metadata_partition : list ascii;
  Metadata_checksum : option (list ascii);
  Metadata_compressed_data_size : option Z;
  Metadata_data_size : option Z;
  Metadata_data : option (list ascii);
  Metadata_data_handle : option (list ascii);
  Metadata_timestamp : option Z }.

#[export] Instance Metadata_from_json : FromJson Metadata := {|
  from_json v :=
    partition ← parse v (chars "partition");
    checksum ← parse v (chars "checksum");
    compressed_data_size ← parse v (chars "compressedDataSize");
    data_size ← parse v (chars "dataSize");
    data ← parse v (chars "data");
    data_handle ← parse v (chars "dataHandle");
    timestamp ← parse v (chars "timestamp");
    Some (mkMetadata partition checksum compressed_data_size data_size data data_handle timestamp);
  initial := mkMetadata initial initial initial initial initial initial initial |}.

Record Message := mkMessage {
  Message_meta_data : Metadata;
  Message_offset : StreamOffset }.

#[export] Instance Message_from_json : FromJson Message := {|
  from_json v :=
    meta_data ← parse v (chars "metaData");
    offset ← parse v (chars "offset");
    Some (mkMessage meta_data offset);
  initial := mkMessage initial initial |}.

Record Messages := mkMessages {
  Messages_messages : list Message }.

#[export] Instance Messages_from_json : FromJson Messages := {|
  from_json v :=
    messages ← parse v (chars "messages");
    Some (mkMessages messages);
  initial := mkMessages initial |}.

Record SubscribeResponse := mkSubscribeResponse {
  SubscribeResponse_node_base_url : list ascii;
  SubscribeResponse_subscription_id : list ascii }.

#[export] Instance SubscribeResponse_from_json : FromJson SubscribeResponse := {|
  from_json v :=
    node_base_url ← parse v (chars "nodeBaseURL");
    subscription_id ← parse v (chars "subscriptionId");
    Some (mkSubscribeResponse node_base_url subscription_id);
  initial := mkSubscribeResponse initial initial |}.

(** The body of the request for compatible versions: not the array that [to_json] of a
    vector gives, so no instance. *)
Definition CatalogVersions_to_json (x : list CatalogVersion) : json :=
  JObject (emplace (chars "dependencies") (JArray (to_json <$> x)) []).

(** The properties of a consumer (include/olp/dataservice/read/ConsumerProperties.h). *)
Record ConsumerOption := mkConsumerOption {
  GetKey : list ascii;
  GetValue : list ascii }.

Record ConsumerProperties := mkConsumerProperties {
  GetProperties : list ConsumerOption }.

#[export] Instance ConsumerOptions_to_json : ToJson (list ConsumerOption) := fun x =>
  JObject (foldl (fun o option => serialize (GetKey option) (GetValue option) o) [] x).

#[export] Instance ConsumerProperties_to_json : ToJson ConsumerProperties := fun x => JObject ([]
  |> serialize (chars "kafkaConsumerProperties") (GetProperties x)).

(** ** What is written is read *)

(** C36: every model that the library writes as a document is read back as it was, when
    its numbers have their width and its texts are UTF-8: the catalogs, partitions, versions and lists of ids of
    the cache, and the versions, services and offsets of the services. *)
Theorem documents_round_trip `{JsonTextLaws} :
  (forall x : Catalog, json_ok x -> parse_text (serialize_text x) = Some (x, true)) /\
  (forall x : Partition, json_ok x -> parse_text (serialize_text x) = Some (x, true)) /\
  (forall x : Partitions, json_ok x -> parse_text (serialize_text x) = Some (x, true)) /\
  (forall x : LayerVersions, json_ok x -> parse_text (serialize_text x) = Some (x, true)) /\
  (forall x : VersionResponse, json_ok x -> parse_text (serialize_text x) = Some (x, true)) /\
  (forall x : VersionInfos, json_ok x -> parse_text (serialize_text x) = Some (x, true)) /\
  (forall x : Api, json_ok x -> parse_text (serialize_text x) = Some (x, true)) /\
  (forall x : StreamOffset, json_ok x -> parse_text (serialize_text x) = Some (x, true)) /\
  (forall x : list (list ascii), json_ok x -> parse_text (serialize_text x) = Some (x, true)).
Proof. repeat apply conj; intros x Hx; by apply parse_serialize_text.
Qed.

(** A catalog with a layer, whose optional member is there. *)
Definition sample_layer : Layer :=
  mkLayer (chars "id") (chars "name") [] [] initial (mkCoverage [chars "DE"]) initial (chars "text") [] (mkPartitioning (chars "heretile") [12; 13])
    (chars "versioned") [] [chars "a"; chars "b"] [] (Some 3600000) initial (mkStreamProperties 10 20) initial.

Definition sample_catalog : Catalog :=
  mkCatalog (chars "id") (chars "hrn:here:data::olp-here:id") [] [] [] initial initial [] [] [] [sample_layer] 3 (mkNotifications true).

(** The numbers of a sample have their width. *)
Ltac sample_json :=
  repeat match goal with
    | |- json_ok _ => progress cbn
    | |- _ /\ _ => split
    | |- Forall _ _ => first [apply Forall_nil_2|apply Forall_cons_2]
    | |- True => exact I
    | |- _ => first [progress hnf|by vm_compute]
    end.

Lemma documents_round_trip_witness :
  json_ok sample_catalog /\ parse_text (H := json_sample.text) (serialize_text (H := json_sample.text) sample_catalog) = Some (sample_catalog, true).
Proof.
  assert (Hok : json_ok sample_catalog) by sample_json. split; [exact Hok|].
  exact (proj1 (documents_round_trip (H := json_sample.text) (H0 := json_sample.text_laws)) sample_catalog Hok).
Defined.

(** ** Values of another kind

    The parsers ask for a member by its name and take its value with the accessors of
    Boost.JSON that do not look at the kind of the value. *)

(** A member that is null, which a service may send for an absent one. *)
Example null_member : from_json (T := Api) (JObject [(chars "api", JString (chars "query")); (chars "version", JNull)]) = None.
Proof. reflexivity. Qed.

(** A text that is an array, for a model that is an object: the check of [parse] lets it pass. *)
Example array_for_object v : is_object_or_array (JArray [v]) = true /\ from_json (T := Catalog) (JArray [v]) = None.
Proof. done. Qed.

(** A number that is no integer, or too large. *)
Example fractional_version : from_json (T := VersionResponse) (JObject [(chars "version", JDouble 3 (-1))]) = None /\
  from_json (T := VersionResponse) (JObject [(chars "version", JDouble 3 1)]) = Some (mkVersionResponse 6) /\
  from_json (T := VersionResponse) (JObject [(chars "version", JUint64 (2 ^ 63))]) = None.
Proof. by split_and!; vm_compute. Qed.

(** The throughputs of a stream are integers of 64 bits that are read as doubles. *)
Example throughput_rounds :
  from_json (T := StreamProperties) (to_json (mkStreamProperties (2 ^ 53 + 1) 0)) = Some (mkStreamProperties (2 ^ 53) 0).
Proof. vm_compute. reflexivity. Qed.

(** The properties of a consumer with a key twice keep the first value. *)
Example consumer_option_twice :
  to_json [mkConsumerOption (chars "k") (chars "a"); mkConsumerOption (chars "k") (chars "b")] =
  to_json [mkConsumerOption (chars "k") (chars "a")].
Proof. reflexivity. Qed.
