(* ===== verification/DiskCache.v ===== *)
(** * The disk cache

    Model of [olp::cache::DiskCache] (src/cache/DiskCache.cpp): the adapter to the
    LevelDB database.  LevelDB is a class of operations on a database with the laws
    its documentation states: an iterator gives the entries in the order of their
    keys, and a write applies its batch as a whole or not at all.  The file system
    and the answers of LevelDB while a database is opened are an argument of [Open].

    Compaction, in the background or not, leaves the entries as they are and has no
    effect in the model; log messages and error texts are left out. *)

From Stdlib Require Import Sorted.
From stdpp Require Import sorting.
From S2P Require Import Prelude ProtectedKeyList.

Abbreviation bytes := (list ascii).

(** ** LevelDB *)

(** The kinds of a [leveldb::Status]. *)
Inductive Status := Ok | NotFoundStatus | Corruption | NotSupported | InvalidArgumentStatus | IOErrorStatus.

#[export] Instance Status_eq_dec : EqDecision Status.
Proof. solve_decision. Defined.

(** A [leveldb::WriteBatch] is the list of its entries. *)
Inductive batch_op := BPut (k : key) (v : bytes) | BDelete (k : key).

Class LevelDB (DB : Type) := {
  db_entries : DB -> list (key * bytes);
  db_write : list batch_op -> DB -> Status * DB;
  db_size : DB -> Z }.

Definition contents {DB} `{LevelDB DB} (d : DB) : gmap key bytes := list_to_map (db_entries d).

Definition apply_op (m : gmap key bytes) (o : batch_op) : gmap key bytes :=
  match o with BPut k v => <[k := v]> m | BDelete k => delete k m end.

Definition apply_batch (b : list batch_op) (m : gmap key bytes) : gmap key bytes := foldl apply_op m b.

Definition entry_lt (a b : key * bytes) : Prop := str_lt (fst a) (fst b) = true.

Class LevelDBLaws (DB : Type) `{LevelDB DB} : Prop := {
  entries_sorted : forall d : DB, StronglySorted entry_lt (db_entries d);
  write_ok : forall b (d d' : DB), db_write b d = (Ok, d') -> contents d' = apply_batch b (contents d);
  write_failed : forall b (d d' : DB) s, db_write b d = (s, d') -> s <> Ok -> contents d' = contents d }.

(** ** Results *)

(** The codes of a [client::ApiError] that the caches give. *)
Inductive ErrorCode := Unknown | NotFound | InvalidArgument | PreconditionFailed | CacheIO | BadRequest.

(** [OperationOutcome]: a result or an error. *)
Abbreviation Outcome A := (A + ErrorCode)%type.

Definition IsSuccessful {A} (r : Outcome A) : bool := match r with inl _ => true | inr _ => false end.

Definition GetApiError (status : Status) : ErrorCode :=
  match status with
  | NotFoundStatus => NotFound
  | InvalidArgumentStatus => InvalidArgument
  | Corruption | IOErrorStatus => CacheIO
  | NotSupported => BadRequest
  | Ok => Unknown
  end.

Inductive OpenResult := Fail_ | Corrupted | IOError | Repaired | Success | Postponed.

(** ** The cache *)

Section disk_cache.
Context {DB : Type} `{LevelDB DB}.

Record DiskCache := mkDisk { disk_cache_path_ : key; database_ : option DB; max_size_ : Z }.

Definition kSizeMax : Z := 2^64 - 1.

Definition DiskCache_new : DiskCache := mkDisk [] None kSizeMax.

Definition with_database (c : DiskCache) (d : option DB) : DiskCache :=
  mkDisk (disk_cache_path_ c) d (max_size_ c).

Definition Close (c : DiskCache) : DiskCache := with_database c None.

(** [Clear]: [removed] is the answer of [Dir::Remove]. *)
Definition Clear (c : DiskCache) (removed : bool) : DiskCache * bool :=
  let c := Close c in
  if bool_decide (disk_cache_path_ c <> []) then (c, removed) else (c, true).

(** An iterator is the list of the entries from its position on. *)
Definition NewIterator (c : DiskCache) : option (list (key * bytes)) := db_entries <$> database_ c.

Definition Seek (it : list (key * bytes)) (target : key) : list (key * bytes) :=
  drop_while (fun e => str_lt (fst e) target) it.

Definition Put (c : DiskCache) (k : key) (slice : bytes) : DiskCache * bool :=
  match database_ c with
  | None => (c, false)
  | Some d =>
      let '(status, d) := db_write [BPut k slice] d in
      (with_database c (Some d), bool_decide (status = Ok))
  end.

Definition Get (c : DiskCache) (k : key) : Outcome bytes :=
  match NewIterator c with
  | None => inr PreconditionFailed
  | Some it =>
      match Seek it k with
      | (k', slice_value) :: _ =>
          if bool_decide (k' = k) then
            if bool_decide (slice_value <> []) then inl slice_value else inr NotFound
          else inr NotFound
      | [] => inr NotFound
      end
  end.

Definition Contains (c : DiskCache) (k : key) : bool :=
  match NewIterator c with
  | None => false
  | Some it => match Seek it k with (k', _) :: _ => bool_decide (k' = k) | [] => false end
  end.

Definition data_size (e : key * bytes) : Z := Z.of_nat (length (fst e)) + Z.of_nat (length (snd e)).

(** [Remove]: the outcome and [removed_data_size]. *)
Definition Remove (c : DiskCache) (k : key) : DiskCache * Outcome unit * Z :=
  match database_ c with
  | None => (c, inr PreconditionFailed, 0)
  | Some d =>
      let size :=
        match Seek (db_entries d) k with
        | (k', v) :: _ => if bool_decide (k' = k) then data_size (k, v) else 0
        | [] => 0
        end in
      let '(result, d) := db_write [BDelete k] d in
      let c := with_database c (Some d) in
      if bool_decide (result = Ok) then (c, inl tt, size) else (c, inr (GetApiError result), 0)
  end.

Definition ApplyBatch (c : DiskCache) (batch : list batch_op) : DiskCache * Outcome unit :=
  match database_ c with
  | None => (c, inr PreconditionFailed)
  | Some d =>
      let '(status, d) := db_write batch d in
      let c := with_database c (Some d) in
      if bool_decide (status = Ok) then (c, inl tt) else (c, inr (GetApiError status))
  end.

(** The loop of [RemoveKeysWithPrefix]: the batch and the size of its entries. *)
Fixpoint remove_loop (it : list (key * bytes)) (prefix : key) (filter : option (key -> bool))
  (batch : list batch_op) (data_size_ : Z) : list batch_op * Z :=
  match it with
  | [] => (batch, data_size_)
  | (k, v) :: it =>
      if bool_decide (prefix = []) || starts_with prefix k then
        if match filter with Some f => f k | None => false end
        then remove_loop it prefix filter batch data_size_
        else remove_loop it prefix filter (batch ++ [BDelete k]) (data_size_ + data_size (k, v))
      else (batch, data_size_)
  end.

Definition RemoveKeysWithPrefix (c : DiskCache) (prefix : key) (filter : option (key -> bool))
  : DiskCache * Outcome unit * Z :=
  match NewIterator c with
  | None => (c, inr PreconditionFailed, 0)
  | Some it =>
      let it := if bool_decide (prefix = []) then it else Seek it prefix in
      let '(batch, size) := remove_loop it prefix filter [] 0 in
      let '(c, result) := ApplyBatch c batch in
      (c, result, if IsSuccessful result then size else 0)
  end.

Definition Size (c : DiskCache) : Z := match database_ c with None => 0 | Some d => db_size d end.

(** ** Opening *)

(** The answers of the file system and of LevelDB during one [Open], in the order
    of the calls: the directory exists, it could be created, its sub directories,
    the first [DB::Open], the [DB::Open] of [InitializeDB] and the one after it, the
    [RepairDB] and [DestroyDB] of [RepairCache], the [DB::Open] after it, and the
    number of level-0 files of the database. *)
Record OpenEnv := mkEnv {
  dir_exists : bool;
  dir_create : bool;
  directories : list key;
  first_open : Status * DB;
  initialize_db : Status;
  open_initialized : Status * DB;
  repair_db : Status;
  destroy_db : Status;
  open_repaired : Status * DB;
  files_at_level0 : DB -> Z }.

Definition kLevelDbLostFolder : key := chars "lost".
Definition kMaxL0Files : Z := 4.

Definition CheckCompactionFinished (env : OpenEnv) (d : DB) : bool := files_at_level0 env d <? kMaxL0Files.

Definition RepairCache (env : OpenEnv) : bool :=
  if bool_decide (repair_db env = Ok) then true else bool_decide (destroy_db env = Ok).

(** The part after the first attempts to open the database. *)
Definition finish_open (c : DiskCache) (env : OpenEnv) (is_read_only : bool) (opened : Status * DB)
  : DiskCache * OpenResult :=
  let '(status, db) := opened in
  if bool_decide (status <> Ok) then (c, Fail_)
  else if is_read_only && negb (CheckCompactionFinished env db) then (c, Corrupted)
  else (with_database c (Some db), Success).

Definition IsBroken (status : Status) : bool := bool_decide (status = Corruption \/ status = IOErrorStatus).

Definition open_or_repair (c : DiskCache) (env : OpenEnv) (is_read_only repair_if_broken : bool)
  (opened : Status * DB) : DiskCache * OpenResult :=
  let status := fst opened in
  if IsBroken status then
    if is_read_only || negb repair_if_broken then
      if bool_decide (status = IOErrorStatus) then (c, IOError) else (c, Corrupted)
    else if RepairCache env then
      let '(status, db) := open_repaired env in
      if bool_decide (status = Ok) then (with_database c (Some db), Repaired)
      else finish_open c env is_read_only (open_repaired env)
    else finish_open c env is_read_only opened
  else finish_open c env is_read_only opened.

Definition Open (c : DiskCache) (env : OpenEnv) (data_path : key) (max_disk_storage : Z)
  (is_read_only repair_if_broken : bool) : DiskCache * OpenResult :=
  let c := mkDisk data_path (database_ c) (max_size_ c) in
  if negb (dir_exists env) && negb (dir_create env) then (c, Fail_)
  else if existsb (fun dir => bool_decide (dir <> kLevelDbLostFolder)) (directories env) then (c, Fail_)
  else
    let c := mkDisk data_path (database_ c) max_disk_storage in
    if bool_decide (fst (first_open env) = InvalidArgumentStatus) && is_read_only then
      if negb repair_if_broken then (c, Postponed)
      else if bool_decide (initialize_db env <> Ok) then (c, Fail_)
      else open_or_repair c env is_read_only repair_if_broken (open_initialized env)
    else open_or_repair c env is_read_only repair_if_broken (first_open env).

End disk_cache.
#[global] Arguments DiskCache : clear implicits.
#[global] Arguments OpenEnv : clear implicits.

(** ** The entries as a map *)

Lemma str_lt_irrefl k : str_lt k k = false.
Proof. apply not_true_iff_false. rewrite str_lt_spec. intros [Hp|[_ Hne]]; [|done]. by apply parts_not_prefix in Hp as [[] _]. Qed.

Lemma str_lt_trans a b c : str_lt a b = true -> str_lt b c = true -> str_lt a c = true.
Proof.
  rewrite !str_lt_spec. intros [H1|[H1 N1]] [H2|[H2 N2]].
  - left. by eapply parts_trans.
  - left. by eapply parts_extend_r.
  - destruct (parts_shorten _ _ _ H2 H1) as [H3|H3]; [right|by left]. split; [done|].
    intros ->. by apply parts_not_prefix in H2 as [_ []].
  - right. split; [by transitivity b|]. intros ->. apply N1. by apply (anti_symm prefix).
Qed.

Lemma str_lt_total a b : str_lt a b = true \/ a = b \/ str_lt b a = true.
Proof.
  destruct (decide (a = b)) as [->|]; [auto|]. rewrite !str_lt_spec.
  destruct (parts_or_prefix a b) as [?|[?|[?|?]]]; auto.
Qed.

Abbreviation prefixed p := (filter (fun e : key * bytes => starts_with p e.1 = true)).

Section entries.
Implicit Types (k p : key) (es : list (key * bytes)).

Lemma entries_cons e es : StronglySorted entry_lt (e :: es) <->
  (forall x, x ∈ es -> str_lt e.1 x.1 = true) /\ StronglySorted entry_lt es.
Proof.
  split.
  - intros Hs. inversion Hs; subst. split; [|done]. by apply Forall_forall.
  - intros [H1 H2]. constructor; [done|]. by apply Forall_forall.
Qed.

Lemma entries_NoDup es : StronglySorted entry_lt es -> NoDup es.*1.
Proof.
  induction es as [|e es IH]; [constructor|]. rewrite entries_cons. intros [He Hs]. rewrite fmap_cons.
  constructor; [|auto]. intros (x & E & Hx)%list_elem_of_fmap. specialize (He x Hx).
  by rewrite E, str_lt_irrefl in He.
Qed.

(** Seeking a key: the entry of the key is the first one when there is one. *)
Lemma Seek_spec es k : StronglySorted entry_lt es ->
  match (list_to_map es : gmap key bytes) !! k with
  | Some v => exists es', Seek es k = (k, v) :: es'
  | None => match Seek es k with (k', _) :: _ => k' <> k | [] => True end
  end.
Proof.
  induction es as [|[k1 v1] es IH]; [done|]. rewrite entries_cons. intros [He Hs]. specialize (IH Hs).
  unfold Seek in *. cbn [drop_while fst list_to_map foldr uncurry]. destruct (decide (k1 = k)) as [->|Hne].
  - rewrite lookup_insert_eq, str_lt_irrefl. eauto.
  - rewrite lookup_insert_ne by done. destruct (str_lt k1 k) eqn:E; [done|].
    assert (Hk : str_lt k k1 = true) by (destruct (str_lt_total k1 k) as [?|[?|?]]; congruence).
    rewrite not_elem_of_list_to_map_1; [done|]. intros (x & Ex & Hx)%list_elem_of_fmap. specialize (He x Hx).
    cbn [fst] in He. rewrite <- Ex in He. pose proof (str_lt_trans _ _ _ Hk He) as Hk'. by rewrite str_lt_irrefl in Hk'.
Qed.

Lemma prefix_interval p a b c :
  p `prefix_of` a -> p `prefix_of` c -> str_lt a b = true -> str_lt b c = true -> p `prefix_of` b.
Proof.
  rewrite !str_lt_spec. intros Ha Hc [H1|[H1 _]] H2; [|by transitivity a].
  destruct (parts_shorten _ _ _ H1 Ha) as [|Hp]; [done|]. exfalso. destruct H2 as [H2|[H2 _]].
  - pose proof (parts_trans _ _ _ Hp H2) as H3. by apply parts_not_prefix in H3 as [[] _].
  - pose proof (parts_extend_r _ _ _ Hp H2) as H3. by apply parts_not_prefix in H3 as [[] _].
Qed.

(** After an entry above the prefix that does not have it, none has. *)
Lemma prefixed_none p k es : str_lt p k = true -> starts_with p k = false ->
  (forall x, x ∈ es -> str_lt k x.1 = true) -> prefixed p es = [].
Proof.
  intros Hp Hk He. apply list_filter_none. intros x Hx Hs. apply starts_with_spec in Hs.
  apply not_true_iff_false in Hk. apply Hk, starts_with_spec. by apply (prefix_interval p p k x.1), He.
Qed.

Lemma prefix_lt p k : starts_with p k = true -> str_lt k p = false.
Proof.
  rewrite starts_with_spec. intros Hp. apply not_true_iff_false. rewrite str_lt_spec. intros [E|[E Hne]].
  - by apply parts_not_prefix in E as [_ []].
  - apply Hne. by apply (anti_symm prefix).
Qed.

Definition stops (p : key) (es : list (key * bytes)) : Prop :=
  match es with (k, _) :: _ => starts_with p k = false | [] => True end.

(** From an entry with the prefix on, those with the prefix come first. *)
Lemma prefixed_first p es : StronglySorted entry_lt es ->
  (forall k v, head es = Some (k, v) -> str_lt k p = false) ->
  exists es', es = prefixed p es ++ es' /\ stops p es'.
Proof.
  induction es as [|[k v] es IH]; [by exists []|]. rewrite entries_cons. intros [He Hs] Hhd.
  rewrite filter_cons. cbn [fst] in *. destruct (starts_with p k) eqn:Ep.
  - rewrite decide_True by done. destruct IH as (es' & E1 & E2); [done| |].
    + intros k1 v1 E. assert (H1 : (k1, v1) ∈ es) by (destruct es; [done|]; injection E as ->; left).
      specialize (He _ H1). cbn [fst] in He. apply not_true_iff_false. intros Hlt.
      pose proof (str_lt_trans _ _ _ He Hlt) as H2. rewrite (prefix_lt _ _ Ep) in H2. done.
    + exists es'. split; [by rewrite E1 at 1|done].
  - rewrite decide_False by congruence. exists ((k, v) :: es). split; [|done].
    rewrite (prefixed_none p k); [done| |done|done].
    specialize (Hhd k v eq_refl). destruct (str_lt_total k p) as [?|[->|?]]; [congruence| |done].
    apply not_true_iff_false in Ep. by destruct Ep; apply starts_with_spec.
Qed.

(** The entries of a prefix are the first ones from the prefix on. *)
Lemma Seek_prefix es p : StronglySorted entry_lt es ->
  exists es', Seek es p = prefixed p es ++ es' /\ stops p es'.
Proof.
  induction es as [|[k v] es IH]; [by exists []|]. intros Hs. pose proof Hs as [He Hs']%entries_cons.
  unfold Seek in *. cbn [drop_while fst]. destruct (str_lt k p) eqn:E.
  - rewrite filter_cons, decide_False; [auto|]. cbn [fst]. intros Hp. apply prefix_lt in Hp. congruence.
  - apply prefixed_first; [done|]. by intros k1 v1 [= <- <-].
Qed.
End entries.

(** ** Sizes *)

Definition total_size (es : list (key * bytes)) : Z := foldr (fun e s => data_size e + s) 0 es.

(** The size of everything in the database, keys and values. *)
Definition size_of (m : gmap key bytes) : Z := total_size (map_to_list m).

Lemma total_size_cons e es : total_size (e :: es) = data_size e + total_size es.
Proof. done. Qed.

Lemma total_size_app es es' : total_size (es ++ es') = total_size es + total_size es'.
Proof. induction es as [|e es IH]; [done|]. unfold total_size in *. cbn [app foldr]. lia. Qed.

Lemma total_size_perm es es' : es ≡ₚ es' -> total_size es = total_size es'.
Proof. unfold total_size. induction 1; cbn [foldr]; lia. Qed.

Lemma total_size_filter (P : key * bytes -> Prop) `{forall e, Decision (P e)} es :
  total_size es = total_size (filter P es) + total_size (filter (fun e => ~ P e) es).
Proof.
  unfold total_size. induction es as [|e es IH]; [done|]. rewrite !filter_cons. cbn [foldr].
  destruct (decide (P e)).
  - rewrite decide_False by tauto. cbn [foldr]. lia.
  - rewrite decide_True by tauto. cbn [foldr]. lia.
Qed.

Lemma fmap_sublist {A B} (f : A -> B) (l l' : list A) : l `sublist_of` l' -> f <$> l `sublist_of` f <$> l'.
Proof. induction 1; cbn [fmap list_fmap]; by constructor. Qed.

Lemma map_to_list_filter (P : key * bytes -> Prop) `{forall e, Decision (P e)} (m : gmap key bytes) :
  map_to_list (filter P m) ≡ₚ filter P (map_to_list m).
Proof.
  rewrite map_filter_alt. apply map_to_list_to_map. eapply sublist_NoDup; [apply (NoDup_fst_map_to_list m)|].
  apply fmap_sublist, sublist_filter.
Qed.

Lemma size_of_filter (P : key * bytes -> Prop) `{forall e, Decision (P e)} (m : gmap key bytes) :
  size_of m = size_of (filter P m) + size_of (filter (fun e => ~ P e) m).
Proof.
  unfold size_of. rewrite (total_size_perm _ _ (map_to_list_filter P m)).
  rewrite (total_size_perm _ _ (map_to_list_filter (fun e => ~ P e) m)). apply total_size_filter.
Qed.

Lemma size_of_delete (m : gmap key bytes) k :
  size_of m = size_of (delete k m) + match m !! k with Some v => data_size (k, v) | None => 0 end.
Proof.
  destruct (m !! k) as [v|] eqn:E; [|rewrite delete_id by done; lia].
  unfold size_of. rewrite <- (total_size_perm _ _ (map_to_list_delete m k v E)), total_size_cons. lia.
Qed.

(** ** What the operations do to the entries *)

Section specs.
Context {DB : Type} `{LevelDBLaws DB}.
Implicit Types (c : DiskCache DB) (d : DB) (k : key) (b : list batch_op).

Lemma contents_NoDup d : NoDup (db_entries d).*1.
Proof. apply entries_NoDup, entries_sorted. Qed.

Lemma disk_Get_spec c d k : database_ c = Some d ->
  Get c k = match contents d !! k with
            | Some v => if bool_decide (v <> []) then inl v else inr NotFound
            | None => inr NotFound
            end.
Proof.
  intros E. unfold Get, NewIterator. rewrite E. cbn [fmap option_fmap option_map].
  pose proof (Seek_spec (db_entries d) k (entries_sorted d)) as Hs. fold (contents d) in Hs.
  destruct (contents d !! k) as [v|].
  - destruct Hs as [es' ->]. by rewrite bool_decide_true.
  - destruct (Seek _ _) as [|[k' v'] es]; [done|]. by rewrite bool_decide_false.
Qed.

Lemma disk_Contains_spec c d k : database_ c = Some d -> Contains c k = bool_decide (is_Some (contents d !! k)).
Proof.
  intros E. unfold Contains, NewIterator. rewrite E. cbn [fmap option_fmap option_map].
  pose proof (Seek_spec (db_entries d) k (entries_sorted d)) as Hs. fold (contents d) in Hs.
  destruct (contents d !! k) as [v|].
  - destruct Hs as [es' ->]. by rewrite !bool_decide_true.
  - rewrite (bool_decide_false (is_Some None)) by by intros [].
    destruct (Seek _ _) as [|[k' v'] es]; [done|]. by rewrite bool_decide_false.
Qed.

(** A write that succeeded, or left the entries as they were. *)
Inductive written c (m m' : gmap key bytes) : DiskCache DB -> Outcome unit -> Prop :=
| written_ok d' : contents d' = m' -> written c m m' (with_database c (Some d')) (inl tt)
| written_error d' e : contents d' = m -> written c m m' (with_database c (Some d')) (inr e).

Lemma ApplyBatch_spec c d b : database_ c = Some d ->
  written c (contents d) (apply_batch b (contents d)) (fst (ApplyBatch c b)) (snd (ApplyBatch c b)).
Proof.
  intros E. unfold ApplyBatch. rewrite E. destruct (db_write b d) as [s d'] eqn:Ew. case_bool_decide as Hs; cbn [fst snd].
  - subst s. constructor. by apply write_ok.
  - constructor. by apply (write_failed b d d' s).
Qed.

Lemma Remove_spec c d k : database_ c = Some d ->
  exists c' r sz, Remove c k = (c', r, sz) /\ written c (contents d) (delete k (contents d)) c' r /\
    sz = if IsSuccessful r then match contents d !! k with Some v => data_size (k, v) | None => 0 end else 0.
Proof.
  intros E. unfold Remove. rewrite E. destruct (db_write [BDelete k] d) as [s d'] eqn:Ew.
  pose proof (Seek_spec (db_entries d) k (entries_sorted d)) as Hs. fold (contents d) in Hs.
  case_bool_decide as Hok.
  - subst s. eexists _, _, _. split; [done|]. split; [constructor; by apply (write_ok [BDelete k])|]. cbn [IsSuccessful].
    destruct (contents d !! k) as [v|].
    + destruct Hs as [es' ->]. by rewrite bool_decide_true.
    + destruct (Seek _ _) as [|[k' v'] es]; [done|]. by rewrite bool_decide_false.
  - eexists _, _, _. split; [done|]. split; [constructor; by apply (write_failed [BDelete k] d d' s)|done].
Qed.

(** The entries that [RemoveKeysWithPrefix] removes. *)
Definition removed (prefix : key) (flt : option (key -> bool)) (e : key * bytes) : Prop :=
  starts_with prefix e.1 = true /\ match flt with Some f => f e.1 = false | None => True end.

#[export] Instance removed_dec prefix flt e : Decision (removed prefix flt e).
Proof. unfold removed. destruct flt; apply _. Defined.

Lemma disk_remove_loop_spec prefix flt rest : forall es b s,
  stops prefix rest -> prefix <> [] \/ rest = [] -> Forall (fun e => starts_with prefix e.1 = true) es ->
  remove_loop (es ++ rest) prefix flt b s =
    (b ++ ((fun e => BDelete e.1) <$> filter (removed prefix flt) es), s + total_size (filter (removed prefix flt) es)).
Proof.
  induction es as [|[k v] es IH]; intros b s Hr Hne Hp.
  - cbn [app fmap list_fmap filter list_filter total_size foldr]. rewrite app_nil_r, Z.add_0_r.
    destruct rest as [|[k v] rest]; [done|]. cbn [remove_loop stops] in *. rewrite Hr.
    destruct Hne as [Hne|]; [|done]. by rewrite bool_decide_false.
  - apply Forall_cons in Hp as [Hk Hp]. cbn [fst] in Hk. cbn [app remove_loop]. rewrite Hk, orb_true_r, filter_cons.
    assert (Hrem : removed prefix flt (k, v) <-> match flt with Some f => f k | None => false end = false).
    { unfold removed. cbn [fst]. destruct flt; [tauto|]. by rewrite Hk. }
    destruct (match flt with Some f => f k | None => false end).
    + rewrite !decide_False by (rewrite Hrem; done). by apply IH.
    + rewrite !decide_True by by apply Hrem. rewrite IH by done. cbn [fmap list_fmap fst].
      rewrite total_size_cons. f_equal; [by rewrite <- app_assoc|lia].
Qed.

Lemma apply_deletes (l : list (key * bytes)) (m : gmap key bytes) :
  apply_batch ((fun e => BDelete e.1) <$> l) m = filter (fun e => e.1 ∉ l.*1) m.
Proof.
  revert m. induction l as [|e l IH]; intros m.
  - cbn. symmetry. apply map_filter_id. by intros k v _ ?%elem_of_nil.
  - cbn [fmap list_fmap]. unfold apply_batch in *. cbn [foldl apply_op]. rewrite IH.
    apply map_eq. intros k. apply option_eq. intros v. rewrite !map_lookup_filter_Some, lookup_delete_Some, not_elem_of_cons.
    cbn [fst]. naive_solver.
Qed.

Lemma contents_filter d (P : key * bytes -> Prop) `{forall e, Decision (P e)} (m : gmap key bytes) :
  contents d = m -> filter (fun e => e.1 ∉ (filter P (db_entries d)).*1) m = filter (fun e => ~ P e) m.
Proof.
  intros Hm. apply map_filter_ext. intros k v Hk. cbn [fst]. apply not_iff_compat. rewrite list_elem_of_fmap.
  assert (Hin : forall v', (k, v') ∈ db_entries d -> v' = v).
  { intros v' Hv'. apply (elem_of_list_to_map_1 _ _ _ (contents_NoDup d)) in Hv'. unfold contents in Hm. congruence. }
  rewrite <- Hm in Hk. apply elem_of_list_to_map_2 in Hk. split.
  - intros ([k' v'] & -> & [HP Hi]%list_elem_of_filter). by rewrite <- (Hin v' Hi).
  - intros HP. exists (k, v). by rewrite list_elem_of_filter.
Qed.

Lemma disk_RemoveKeysWithPrefix_spec c d prefix flt : database_ c = Some d ->
  exists c' r sz, RemoveKeysWithPrefix c prefix flt = (c', r, sz) /\
    written c (contents d) (filter (fun e => ~ removed prefix flt e) (contents d)) c' r /\
    sz = if IsSuccessful r then size_of (filter (removed prefix flt) (contents d)) else 0.
Proof.
  intros E. unfold RemoveKeysWithPrefix, NewIterator. rewrite E. cbn [fmap option_fmap option_map].
  set (it := if bool_decide (prefix = []) then _ else _).
  assert (Hit : exists rest, it = prefixed prefix (db_entries d) ++ rest /\ stops prefix rest /\ (prefix <> [] \/ rest = [])).
  { unfold it. case_bool_decide as Hp; [|destruct (Seek_prefix _ prefix (entries_sorted d)) as (r & ? & ?); eauto].
    exists []. rewrite app_nil_r. split; [|split; [done|by right]]. symmetry. apply list_filter_all. intros e _. by rewrite Hp. }
  destruct Hit as (rest & -> & Hr & Hne). rewrite disk_remove_loop_spec by (try done; apply Forall_forall; intros e [He _]%list_elem_of_filter; done).
  assert (Hff : filter (removed prefix flt) (prefixed prefix (db_entries d)) = filter (removed prefix flt) (db_entries d)).
  { rewrite list_filter_filter. apply list_filter_iff. intros e. unfold removed. tauto. }
  rewrite Hff, app_nil_l. pose proof (ApplyBatch_spec c d ((fun e => BDelete e.1) <$> filter (removed prefix flt) (db_entries d)) E) as Hw.
  rewrite apply_deletes, (contents_filter d (removed prefix flt) _ eq_refl) in Hw.
  destruct (ApplyBatch c _) as [c' r]. eexists _, _, _. split; [done|]. split; [done|].
  destruct r; [|done]. unfold size_of. rewrite Z.add_0_l. apply total_size_perm. rewrite map_to_list_filter.
  unfold contents. by rewrite (map_to_list_to_map _ (contents_NoDup d)).
Qed.

(** removing by prefix removes exactly the unprotected entries that start with
    the prefix (all unprotected ones for an empty prefix), and the reported size is
    what the database lost; when the write fails nothing changes and it is zero. *)
Theorem DiskCache_RemoveKeysWithPrefix c d prefix flt : database_ c = Some d ->
  exists c' d' r sz, RemoveKeysWithPrefix c prefix flt = (c', r, sz) /\ database_ c' = Some d' /\
    sz = size_of (contents d) - size_of (contents d') /\
    forall k, contents d' !! k =
      if IsSuccessful r && starts_with prefix k && negb (match flt with Some f => f k | None => false end)
      then None else contents d !! k.
Proof.
  intros E. destruct (disk_RemoveKeysWithPrefix_spec c d prefix flt E) as (c' & r & sz & -> & Hw & ->).
  exists c'. destruct Hw as [d' E'|d' e E'].
  - eexists d', _, _. split; [done|]. split; [done|]. rewrite E'. cbn [IsSuccessful andb].
    split; [rewrite (size_of_filter (removed prefix flt) (contents d)); lia|]. intros k.
    destruct (contents d !! k) as [v|] eqn:Ek; [|rewrite map_lookup_filter_None_2 by auto; by case_match].
    destruct (starts_with prefix k && negb (match flt with Some f => f k | None => false end)) eqn:Eb.
    + apply map_lookup_filter_None_2. right. intros v' _. apply andb_true_iff in Eb as [E1 E2]. intros Hn. apply Hn.
      split; [done|]. cbn [fst]. destruct flt; [by apply negb_true_iff|done].
    + apply map_lookup_filter_Some_2; [done|]. intros [H1 H2]. cbn [fst] in *. rewrite H1 in Eb. destruct flt; [by rewrite H2 in Eb|done].
  - eexists d', _, _. split; [done|]. split; [done|]. rewrite E'. cbn [IsSuccessful andb]. split; [lia|done].
Qed.

(** After [Open] of a closed cache there is a database exactly when the result
    is a success or a repair; a read-only cache is never repaired, and one whose
    compaction was interrupted is refused. *)
Theorem DiskCache_Open c env path max ro repair c' r :
  database_ c = None -> Open c env path max ro repair = (c', r) ->
  (is_Some (database_ c') <-> r = Success \/ r = Repaired) /\
  (r = Repaired -> ro = false /\ repair = true) /\
  (r = Postponed -> ro = true /\ repair = false) /\
  (forall d, database_ c' = Some d -> ro = true -> CheckCompactionFinished env d = true).
Proof.
  intros E. unfold Open, open_or_repair, finish_open. cbn [with_database database_]. rewrite E.
  intros H1. destruct ro, repair; cbn in H1; repeat (case_match; simplify_eq/=; try congruence);
    rewrite ?E; unfold with_database in *; cbn [database_] in *; rewrite ?andb_false_r in *;
    split_and!; intros; try (split; [by intros []|naive_solver]); try (split; [first [by left|by right]|eauto]);
    simplify_eq; try done;
    match goal with |- CheckCompactionFinished ?e ?d = _ => by destruct (CheckCompactionFinished e d) end.
Qed.
End specs.

(** ** A database in memory *)

(** The entries as a map; a read-only database refuses every write. *)
Record MemoryDB := mkMemoryDB { read_only : bool; records : gmap key bytes }.

Definition entry_le (a b : key * bytes) : Prop := str_lt (fst b) (fst a) = false.

#[export] Instance entry_le_dec a b : Decision (entry_le a b).
Proof. unfold entry_le. apply _. Defined.

#[export] Instance entry_le_total : Total entry_le.
Proof.
  intros a b. unfold entry_le. destruct (str_lt (fst b) (fst a)) eqn:E; [right|by left].
  apply not_true_iff_false. intros E'. pose proof (str_lt_trans _ _ _ E E') as H. by rewrite str_lt_irrefl in H.
Qed.

#[export] Instance entry_le_trans : Transitive entry_le.
Proof.
  intros a b c. unfold entry_le. intros H1 H2. apply not_true_iff_false. intros H.
  destruct (str_lt_total (fst a) (fst b)) as [E|[E|E]].
  - pose proof (str_lt_trans _ _ _ H E). congruence.
  - rewrite <- E in H2. congruence.
  - congruence.
Qed.

#[export] Instance MemoryDB_LevelDB : LevelDB MemoryDB := {
  db_entries d := merge_sort entry_le (map_to_list (records d));
  db_write b d := if read_only d then (NotSupported, d) else (Ok, mkMemoryDB false (apply_batch b (records d)));
  db_size d := size_of (records d) }.

Lemma MemoryDB_contents d : contents d = records d.
Proof.
  unfold contents. cbn [db_entries MemoryDB_LevelDB].
  rewrite (list_to_map_proper _ (map_to_list (records d))); [apply list_to_map_to_list| |apply merge_sort_Permutation].
  rewrite merge_sort_Permutation. apply NoDup_fst_map_to_list.
Qed.

#[export] Instance MemoryDB_laws : LevelDBLaws MemoryDB.
Proof.
  split.
  - intros d. cbn [db_entries MemoryDB_LevelDB].
    pose proof (StronglySorted_merge_sort entry_le (map_to_list (records d))) as Hs.
    assert (Hnd : NoDup (merge_sort entry_le (map_to_list (records d))).*1).
    { rewrite merge_sort_Permutation. apply NoDup_fst_map_to_list. }
    induction Hs as [|e es Hs IH He]; [constructor|]. rewrite fmap_cons in Hnd. apply NoDup_cons in Hnd as [Hn Hnd].
    constructor; [auto|]. rewrite Forall_forall in *. intros x Hx. specialize (He x Hx). unfold entry_le, entry_lt in *.
    destruct (str_lt_total e.1 x.1) as [?|[E|?]]; [done| |congruence]. exfalso. apply Hn. rewrite E. by apply list_elem_of_fmap_2.
  - intros b d d' E. rewrite !MemoryDB_contents. cbn in E. destruct (read_only d); [done|]. by injection E as <-.
  - intros b d d' s E Hs. rewrite !MemoryDB_contents. cbn in E. destruct (read_only d); [by injection E as <- <-|].
    by injection E as <- <-.
Qed.

(** ** Concrete inputs *)

Definition sample_db : MemoryDB :=
  mkMemoryDB false (list_to_map [(chars "b", chars "1"); (chars "ab", chars "22"); (chars "ac", chars "333")]).

Definition sample_disk : DiskCache MemoryDB := mkDisk (chars "/cache") (Some sample_db) kSizeMax.

Lemma DiskCache_RemoveKeysWithPrefix_witness :
  exists c' d' r sz,
    RemoveKeysWithPrefix sample_disk (chars "a") (Some (fun k => bool_decide (k = chars "ac"))) = (c', r, sz) /\
    database_ c' = Some d' /\ sz = size_of (contents sample_db) - size_of (contents d') /\
    forall k, contents d' !! k =
      if IsSuccessful r && starts_with (chars "a") k && negb (bool_decide (k = chars "ac"))
      then None else contents sample_db !! k.
Proof. apply (DiskCache_RemoveKeysWithPrefix sample_disk sample_db). reflexivity. Defined.

Definition sample_env (st : Status) (files : Z) : OpenEnv MemoryDB :=
  mkEnv true true [] (st, sample_db) Ok (Ok, sample_db) Ok Ok (Ok, sample_db) (fun _ => files).

Lemma DiskCache_Open_witness : exists c' r,
  Open (DB := MemoryDB) DiskCache_new (sample_env Corruption 0) (chars "/cache") 100 false true = (c', r) /\
  (is_Some (database_ c') <-> r = Success \/ r = Repaired) /\
  (r = Repaired -> false = false /\ true = true) /\
  (r = Postponed -> false = true /\ true = false) /\
  (forall d, database_ c' = Some d -> false = true -> CheckCompactionFinished (sample_env Corruption 0) d = true).
Proof.
  eexists _, _. split; [reflexivity|].
  apply (DiskCache_Open DiskCache_new (sample_env Corruption 0) (chars "/cache") 100 false true); reflexivity.
Defined.
