(* ===== verification/DefaultCache.v ===== *)
(** * The default cache

    Model of [olp::cache::DefaultCacheImpl] (src/cache/DefaultCacheImpl.cpp): a
    memory cache in front of a mutable disk cache with an LRU list of its keys, a
    protected (read-only) disk cache, and the list of protected keys.

    Every operation is a computation on the record of the members; its result
    [None] is undefined behaviour of a callee or an exception of [std::stoll] or
    [any_cast].  The mutex is held from the first to the last line of every
    operation, so that operations do not interleave.  [now] is the clock, in whole
    seconds, during the operation.  Log messages and compaction are left out. *)

From Stdlib Require Import Sorted.
From Stdlib Require Import SpecFloat.
From S2P Require Import Prelude LruCache InMemoryCache ProtectedKeyList DiskCache.

(** Names of several components, as they are meant here. *)
Abbreviation str := String.string_of_list_ascii.

Definition kExpirySuffix : key := chars "::expiry".
Definition kProtectedKeys : key := chars "internal::protected::protected_data".
Definition kInternalKeysPrefix : key := chars "internal::".
Definition kMaxDiskSize : Z := 2^64 - 1.
Definition kEvictionPortion : Z := 1024 * 1024.
Definition kExpiryValueSize : Z := 10.
Definition kExpirySuffixLength : Z := 8.
Definition kDefaultExpiry : Z := 2^63 - 1.

Definition slen (s : list ascii) : Z := Z.of_nat (length s).

(** ** Single-precision numbers *)

Definition float_of_Z (z : Z) : spec_float := binary_normalize 24 128 z 0 false.

(** 0.85f and 0.9f, the nearest numbers with a 24-bit significand. *)
Definition kMinDiskUsedThreshold : spec_float := S754_finite false 14260634 (-24).
Definition kMaxDiskUsedThreshold : spec_float := S754_finite false 15099494 (-24).

(** [std::llroundl]: to the nearest integer, halves away from zero. *)
Definition llround (f : spec_float) : Z :=
  match f with
  | S754_finite s m e =>
      let v := if 0 <=? e then Zpos m * 2 ^ e else (Zpos m + 2 ^ (- e - 1)) / 2 ^ (- e) in
      if s then - v else v
  | _ => 0
  end.

(** ** Numbers in texts *)

(** [std::stoll]: white space, an optional sign and digits; an exception when there
    are no digits or the value does not fit. *)
Definition stoll_digits (neg : bool) (s : list ascii) : option Z :=
  match take_while is_digit s with
  | [] => None
  | ds =>
      let v := if neg then - dec_value ds else dec_value ds in
      if (- 2^63 <=? v) && (v <? 2^63) then Some v else None
  end.

Definition stoll (s : list ascii) : option Z :=
  match drop_while is_space s with
  | c :: r =>
      if ord c =? 45 then stoll_digits true r
      else if ord c =? 43 then stoll_digits false r
      else stoll_digits false (c :: r)
  | [] => None
  end.

Definition to_string_signed (z : Z) : list ascii :=
  if z <? 0 then chr 45 :: to_string (- z) else to_string z.

(** ** Keys *)

Definition CreateExpiryKey (k : key) : key := k ++ kExpirySuffix.

(** [key.rfind(suffix) != npos]: the suffix is anywhere in the key. *)
Fixpoint IsExpiryKey (k : key) : bool :=
  starts_with kExpirySuffix k || match k with [] => false | _ :: k => IsExpiryKey k end.

Definition IsExpiryValid (expiry : Z) : bool := expiry <? kDefaultExpiry.
Definition IsInternalKey (k : key) : bool := starts_with kInternalKeysPrefix k.

Record ValueProperties := mkProps { props_size : Z; props_expiry : Z }.
Definition ValueProperties_default : ValueProperties := mkProps 0 kDefaultExpiry.

(** [CacheCost]: every item of the LRU list costs 1. *)
Definition one_cost (v : ValueProperties) : Z := 1.

Inductive StorageOpenResult := OpenSuccess | NotReady | ProtectedCacheCorrupted | OpenDiskPathFailure.

Definition ToStorageOpenResult (input : OpenResult) : StorageOpenResult :=
  match input with
  | Fail_ => OpenDiskPathFailure
  | Corrupted | IOError => ProtectedCacheCorrupted
  | Repaired | Success | Postponed => OpenSuccess
  end.

Inductive CacheType := kMutable | kProtected.

Record CacheSettings := mkSettings {
  disk_path_mutable : option key;
  disk_path_protected : option key;
  max_disk_storage : Z;
  max_memory_cache_size : Z;
  open_read_only : bool;
  evict_least_recently_used : bool }.

Section default_cache.
Context {DB : Type} `{LevelDB DB}.
(** The values of the encoding overload of [Put], besides the bytes of the other. *)
Context {A : Type}.

Inductive any := AnyBytes (v : bytes) | AnyValue (a : A).

Abbreviation Memory := (InMemoryCache (A := any)).
Abbreviation DiskLruCache := (LruCache (K := key) (V := ValueProperties)).
Abbreviation Disk := (DiskCache DB).

Record DefaultCache := mkDefault {
  settings_ : CacheSettings;
  is_open_ : bool;
  memory_cache_ : option Memory;
  mutable_cache_ : option Disk;
  mutable_cache_lru_ : option DiskLruCache;
  protected_cache_ : option Disk;
  mutable_cache_data_size_ : Z;
  protected_keys_ : ProtectedKeyList;
  eviction_portion_ : Z }.

Definition DefaultCache_new (settings : CacheSettings) : DefaultCache :=
  mkDefault settings false None None None None 0 ProtectedKeyList_new kEvictionPortion.

Definition set_settings x (s : DefaultCache) := mkDefault x (is_open_ s) (memory_cache_ s) (mutable_cache_ s)
  (mutable_cache_lru_ s) (protected_cache_ s) (mutable_cache_data_size_ s) (protected_keys_ s) (eviction_portion_ s).
Definition set_open x (s : DefaultCache) := mkDefault (settings_ s) x (memory_cache_ s) (mutable_cache_ s)
  (mutable_cache_lru_ s) (protected_cache_ s) (mutable_cache_data_size_ s) (protected_keys_ s) (eviction_portion_ s).
Definition set_memory x (s : DefaultCache) := mkDefault (settings_ s) (is_open_ s) x (mutable_cache_ s)
  (mutable_cache_lru_ s) (protected_cache_ s) (mutable_cache_data_size_ s) (protected_keys_ s) (eviction_portion_ s).
Definition set_mutable x (s : DefaultCache) := mkDefault (settings_ s) (is_open_ s) (memory_cache_ s) x
  (mutable_cache_lru_ s) (protected_cache_ s) (mutable_cache_data_size_ s) (protected_keys_ s) (eviction_portion_ s).
Definition set_lru x (s : DefaultCache) := mkDefault (settings_ s) (is_open_ s) (memory_cache_ s) (mutable_cache_ s)
  x (protected_cache_ s) (mutable_cache_data_size_ s) (protected_keys_ s) (eviction_portion_ s).
Definition set_protected x (s : DefaultCache) := mkDefault (settings_ s) (is_open_ s) (memory_cache_ s) (mutable_cache_ s)
  (mutable_cache_lru_ s) x (mutable_cache_data_size_ s) (protected_keys_ s) (eviction_portion_ s).
Definition set_size x (s : DefaultCache) := mkDefault (settings_ s) (is_open_ s) (memory_cache_ s) (mutable_cache_ s)
  (mutable_cache_lru_ s) (protected_cache_ s) x (protected_keys_ s) (eviction_portion_ s).
Definition set_keys x (s : DefaultCache) := mkDefault (settings_ s) (is_open_ s) (memory_cache_ s) (mutable_cache_ s)
  (mutable_cache_lru_ s) (protected_cache_ s) (mutable_cache_data_size_ s) x (eviction_portion_ s).
Definition set_portion x (s : DefaultCache) := mkDefault (settings_ s) (is_open_ s) (memory_cache_ s) (mutable_cache_ s)
  (mutable_cache_lru_ s) (protected_cache_ s) (mutable_cache_data_size_ s) (protected_keys_ s) x.

Abbreviation M := (state DefaultCache).

(** [mutable_cache_data_size_ += delta], in 64 bits. *)
Definition add_size (delta : Z) : M unit := modify (fun s => set_size (u64 (mutable_cache_data_size_ s + delta)) s).

(** ** The memory cache and the LRU list, when there are any *)

Definition with_memory (f : Memory -> option Memory) : M unit :=
  memory ← gets memory_cache_;
  match memory with
  | None => mret tt
  | Some m => m ← lift (f m); modify (set_memory (Some m))
  end.

Definition memory_put (now : Z) (k : key) (value : any) (expiry size : Z) : M unit :=
  with_memory (fun m => fst <$> InMemoryCache.Put DefaultCacheCost m (str k) value expiry (Z.to_N size) now now).

Definition memory_get (now : Z) (k : key) : M (option any) :=
  memory ← gets memory_cache_;
  match memory with
  | None => mret None
  | Some m => '(m, r) ← lift (InMemoryCache.Get DefaultCacheCost m (str k) now);
              modify (set_memory (Some m));; mret r
  end.

Definition memory_clear : M unit := with_memory (fun m => Some (InMemoryCache.Clear m)).
Definition memory_remove (k : key) : M unit :=
  with_memory (fun m => fst <$> InMemoryCache.Remove DefaultCacheCost m (str k)).

Definition RemoveKeyLru (k : key) : M bool :=
  lru ← gets mutable_cache_lru_;
  match lru with
  | None => mret false
  | Some l => '(l, erased) ← lift (LruCache.Erase one_cost l k); modify (set_lru (Some l));; mret erased
  end.

(** The loop of [RemoveKeysWithPrefixLru]; every round moves the iterator on. *)
Fixpoint remove_prefix_loop (fuel : nat) (l : DiskLruCache) (it : option key) (prefix : key) : option DiskLruCache :=
  match it, fuel with
  | None, _ => Some l
  | Some _, O => None
  | Some element_key, S fuel =>
      if IsEqualOrPrefix prefix element_key then
        '(l, it) ← Erase_iterator one_cost l it; remove_prefix_loop fuel l it prefix
      else it ← iterator_next l it; remove_prefix_loop fuel l it prefix
  end.

Definition RemoveKeysWithPrefixLru (k : key) : M unit :=
  lru ← gets mutable_cache_lru_;
  match lru with
  | None => mret tt
  | Some l => l ← lift (remove_prefix_loop (size (map_ l)) l (cache_begin l) k); modify (set_lru (Some l))
  end.

Definition PromoteKeyLru (k : key) : M bool :=
  lru ← gets mutable_cache_lru_;
  match lru with
  | None => mret true
  | Some l =>
      '(l, it) ← lift (LruCache.Find l k);
      modify (set_lru (Some l));;
      keys ← gets protected_keys_;
      mret (bool_decide (is_Some it) || IsProtected keys k)
  end.

Definition AddKeyLru (k : key) (value : bytes) : M bool :=
  lru ← gets mutable_cache_lru_;
  keys ← gets protected_keys_;
  match lru with
  | None => mret false
  | Some l =>
      if negb (IsProtected keys k) && negb (IsInternalKey k) then
        let expiration_key := IsExpiryKey k in
        let k := if expiration_key then take (length k - Z.to_nat kExpirySuffixLength) k else k in
        let props := match FindNoPromote l k with
                     | Some it => default ValueProperties_default (iterator_value l (Some it))
                     | None => ValueProperties_default
                     end in
        props ← (if expiration_key then
                   expiry ← lift (stoll value); mret (mkProps (props_size props) expiry)
                 else mret (mkProps (slen value) (props_expiry props)));
        '(l, _, result) ← lift (InsertOrAssign one_cost l k props);
        modify (set_lru (Some l));;
        mret (snd result)
      else mret false
  end.

(** The loop over the entries of the database. *)
Fixpoint init_lru_loop (it : list (key * bytes)) : M unit :=
  match it with
  | [] => mret tt
  | (k, value) :: it => add_size (slen k + slen value);; AddKeyLru k value;; init_lru_loop it
  end.

(** [InitializeLru]; the iterator of a cache without a database is null. *)
Definition InitializeLru : M unit :=
  cache ← gets mutable_cache_;
  match cache with
  | None => mret tt
  | Some c =>
      settings ← gets settings_;
      modify (set_size 0);;
      modify (set_lru (Some (LruCache_new (max_disk_storage settings))));;
      it ← lift (NewIterator c);
      init_lru_loop it
  end.

(** ** Eviction *)

Definition CheckExpired (now : Z) (props : ValueProperties) : bool := props_expiry props - now <=? 0.

(** [const auto& key = it->key(); const auto& properties = it->value();] *)
Definition lru_at (it : option key) : M (key * ValueProperties) :=
  lru ← gets mutable_cache_lru_;
  lift (l ← lru; k ← it; props ← iterator_value l it; Some (k, props)).

Definition lru_erase (it : option key) : M (option key) :=
  lru ← gets mutable_cache_lru_;
  '(l, it) ← lift (l ← lru; Erase_iterator one_cost l it);
  modify (set_lru (Some l));; mret it.

Definition lru_next (it : option key) : M (option key) :=
  lru ← gets mutable_cache_lru_; lift (l ← lru; iterator_next l it).

Definition lru_rbegin : M (option key) :=
  lru ← gets mutable_cache_lru_; lift (l ← lru; Some (cache_rbegin l)).

(** The loop of [EvictExpiredDataPortion]: the batch and the evicted size. *)
Fixpoint evict_expired_loop (fuel : nat) (now : Z) (it : option key) (target : Z) (batch : list batch_op) (evicted : Z)
  : M (list batch_op * Z) :=
  match it, fuel with
  | None, _ => mret (batch, evicted)
  | Some _, O => if evicted <? target then fails else mret (batch, evicted)
  | Some _, S fuel =>
      if negb (evicted <? target) then mret (batch, evicted)
      else
        '(k, properties) ← lru_at it;
        if negb (CheckExpired now properties) then
          it ← lru_next it; evict_expired_loop fuel now it target batch evicted
        else
          let expiry_key := CreateExpiryKey k in
          memory_remove k;;
          it ← lru_erase it;
          evict_expired_loop fuel now it target (batch ++ [BDelete k; BDelete expiry_key])
            (u64 (evicted + slen k + props_size properties + slen expiry_key + kExpiryValueSize))
  end.

Definition lru_items : M nat :=
  lru ← gets mutable_cache_lru_; mret (match lru with Some l => size (map_ l) | None => O end).

Definition EvictExpiredDataPortion (now target_eviction_size : Z) : M (list batch_op * Z) :=
  lru ← gets mutable_cache_lru_;
  it ← lift (cache_begin <$> lru);
  fuel ← lru_items;
  evict_expired_loop fuel now it target_eviction_size [] 0.

(** The loop of [EvictDataPortion], from the least recently used key on. *)
Fixpoint evict_data_loop (fuel : nat) (it : option key) (target : Z) (batch : list batch_op) (evicted : Z)
  : M (list batch_op * Z) :=
  match it, fuel with
  | None, _ => mret (batch, evicted)
  | Some _, O => if evicted <? target then fails else mret (batch, evicted)
  | Some _, S fuel =>
      if negb (evicted <? target) then mret (batch, evicted)
      else
        '(k, properties) ← lru_at it;
        let evicted := u64 (evicted + slen k + props_size properties) in
        let batch := batch ++ [BDelete k] in
        let expiry_key := CreateExpiryKey k in
        let '(batch, evicted) :=
          if IsExpiryValid (props_expiry properties)
          then (batch ++ [BDelete expiry_key], u64 (evicted + slen expiry_key + kExpiryValueSize))
          else (batch, evicted) in
        memory_remove k;;
        _ ← lru_erase it;
        it ← lru_rbegin;
        evict_data_loop fuel it target batch evicted
  end.

Definition EvictDataPortion (target_eviction_size : Z) : M (list batch_op * Z) :=
  it ← lru_rbegin;
  fuel ← lru_items;
  evict_data_loop fuel it target_eviction_size [] 0.

(** [mutable_cache_->ApplyBatch(batch)] *)
Definition apply_batch_ (batch : list batch_op) : M (Outcome unit) :=
  cache ← gets mutable_cache_;
  c ← lift cache;
  let '(c, result) := ApplyBatch c batch in
  modify (set_mutable (Some c));; mret result.

(** The loop of [call_evict_method]: [left_to_evict] and the evicted size. *)
Fixpoint call_evict_method (fuel : nat) (evict_method : Z -> M (list batch_op * Z)) (left_to_evict evicted : Z)
  : M (Z * Z) :=
  match fuel with
  | O => fails
  | S fuel =>
      portion ← gets eviction_portion_;
      let current_eviction_target := if u64 left_to_evict <? portion then u64 left_to_evict else portion in
      '(batch, size_) ← evict_method current_eviction_target;
      result ← apply_batch_ batch;
      if negb (IsSuccessful result) then mret (left_to_evict, evicted)
      else
        let evicted := u64 (evicted + size_) in
        let left_to_evict := s64 (left_to_evict - size_) in
        if (current_eviction_target <=? size_) && (0 <? left_to_evict)
        then call_evict_method fuel evict_method left_to_evict evicted
        else mret (left_to_evict, evicted)
  end.

Definition max_size_of (settings : CacheSettings) : spec_float :=
  SFmul 24 128 kMaxDiskUsedThreshold (float_of_Z (max_disk_storage settings)).

Definition min_size_of (settings : CacheSettings) : Z :=
  llround (SFmul 24 128 (float_of_Z (max_disk_storage settings)) kMinDiskUsedThreshold).

(** [MaybeEvictData]; every round of the loop but the last one evicts a key. *)
Definition MaybeEvictData (now : Z) : M Z :=
  cache ← gets mutable_cache_;
  lru ← gets mutable_cache_lru_;
  match cache, lru with
  | Some _, Some _ =>
      settings ← gets settings_;
      data_size ← gets mutable_cache_data_size_;
      if SFltb (float_of_Z data_size) (max_size_of settings) then mret 0
      else
        let left_to_evict := s64 (data_size - min_size_of settings) in
        fuel ← lru_items;
        '(left_to_evict, evicted) ← call_evict_method (S fuel) (EvictExpiredDataPortion now) left_to_evict 0;
        if 0 <? left_to_evict then
          fuel ← lru_items;
          '(_, evicted) ← call_evict_method (S fuel) EvictDataPortion left_to_evict evicted;
          mret evicted
        else mret evicted
  | _, _ => mret 0
  end.

(** ** Protected keys in the database *)

(** [MaybeUpdatedProtectedKeys]: the entries added to the batch and the size change. *)
Definition MaybeUpdatedProtectedKeys : M (list batch_op * Z) :=
  keys ← gets protected_keys_;
  if IsDirty keys then
    let prev_size := ProtectedKeyList.Size keys in
    '(keys, value) ← lift (Serialize keys);
    modify (set_keys keys);;
    let key_size := if prev_size >? 0 then 0 else slen kProtectedKeys in
    if slen value >? 0 then
      mret ([BPut kProtectedKeys value], s64 (key_size + ProtectedKeyList.Size keys - prev_size))
    else if prev_size >? 0 then
      mret ([BDelete kProtectedKeys], - s64 (prev_size + slen kProtectedKeys))
    else mret ([], 0)
  else mret ([], 0).

(** ** The mutable cache *)

Definition GetRemainingExpiryTime (now : Z) (k : key) (c : Disk) : option Z :=
  match DiskCache.Get c (CreateExpiryKey k) with
  | inl expiry_value => expiry ← stoll expiry_value; Some (expiry - now)
  | inr _ => Some kDefaultExpiry
  end.

(** [PurgeDiskItem]: the outcome is that of the removal of the expiry. *)
Definition PurgeDiskItem (k : key) (c : Disk) : Disk * Outcome unit * Z :=
  let '(c, _, size1) := DiskCache.Remove c k in
  let '(c, result, size2) := DiskCache.Remove c (CreateExpiryKey k) in
  (c, result, size1 + size2).

(** [StoreExpiry]: the entry for the batch and its size. *)
Definition StoreExpiry (k : key) (expiry : Z) : batch_op * Z :=
  let expiry_key := CreateExpiryKey k in
  let time_str := to_string_signed expiry in
  (BPut expiry_key time_str, slen expiry_key + slen time_str).

Definition PutMutableCache (now : Z) (k : key) (value : bytes) (expiry : Z) : M (Outcome unit) :=
  cache ← gets mutable_cache_;
  match cache with
  | None => mret (inl tt)
  | Some _ =>
      let item_size := slen value in
      data_size ← gets mutable_cache_data_size_;
      lru ← gets mutable_cache_lru_;
      settings ← gets settings_;
      let expected_size := u64 (data_size + item_size + slen k + slen k + kExpirySuffixLength + kExpiryValueSize) in
      if bool_decide (lru = None) && (expected_size >? max_disk_storage settings) then mret (inr CacheIO)
      else
        let batch := [BPut k value] in
        let added_data_size := slen k + item_size in
        let '(batch, added_data_size, expiry) :=
          if IsExpiryValid expiry then
            let expiry := expiry + now in
            let '(op, size_) := StoreExpiry k expiry in
            (batch ++ [op], added_data_size + size_, expiry)
          else (batch, added_data_size, expiry) in
        removed_data_size ← MaybeEvictData now;
        '(ops, updated_data_size) ← MaybeUpdatedProtectedKeys;
        result ← apply_batch_ (batch ++ ops);
        match result with
        | inr e => mret (inr e)
        | inl _ =>
            add_size added_data_size;;
            add_size (- removed_data_size);;
            add_size updated_data_size;;
            lru ← gets mutable_cache_lru_;
            keys ← gets protected_keys_;
            match lru with
            | Some l =>
                if negb (IsProtected keys k) then
                  '(l, _, (it, inserted)) ← lift (InsertOrAssign one_cost l k (mkProps item_size expiry));
                  modify (set_lru (Some l));;
                  if bool_decide (it = None) && negb inserted then mret (inr CacheIO) else mret (inl tt)
                else mret (inl tt)
            | None => mret (inl tt)
            end
        end
  end.

(** [GetFromDiskCache]: the outcome, [value] and [expiry]. *)
Definition GetFromDiskCache (now : Z) (k : key) : M (Outcome unit * option bytes * Z) :=
  protected_cache ← gets protected_cache_;
  found ← (match protected_cache with
           | Some c =>
               match DiskCache.Get c k with
               | inl value => expiry ← lift (GetRemainingExpiryTime now k c);
                              mret (if expiry >? 0 then Some (value, expiry) else None)
               | inr _ => mret None
               end
           | None => mret None
           end);
  match found with
  | Some (value, expiry) => mret (inl tt, Some value, expiry)
  | None =>
      cache ← gets mutable_cache_;
      match cache with
      | None => mret (inr NotFound, None, kDefaultExpiry)
      | Some c =>
          keys ← gets protected_keys_;
          expiry ← lift (GetRemainingExpiryTime now k c);
          if (expiry >? 0) || IsProtected keys k then
            promoted ← (if IsInternalKey k then mret true else PromoteKeyLru k);
            if negb promoted then mret (inr NotFound, None, expiry)
            else
              match DiskCache.Get c k with
              | inl value => mret (inl tt, Some value, expiry)
              | inr e => mret (inr e, None, expiry)
              end
          else
            let '(c, _, removed_data_size) := PurgeDiskItem k c in
            modify (set_mutable (Some c));;
            add_size (- removed_data_size);;
            _ ← RemoveKeyLru k;
            mret (inr NotFound, None, expiry)
      end
  end.

Definition GetExpiryForMemoryCache (k : key) (expiry : Z) : M Z :=
  keys ← gets protected_keys_;
  mret (if IsProtected keys k then kDefaultExpiry else expiry).

(** ** The operations *)

Definition Read (now : Z) (k : key) : M (Outcome bytes) :=
  is_open ← gets is_open_;
  if negb is_open then mret (inr PreconditionFailed)
  else
    cached ← memory_get now k;
    match cached with
    | Some (AnyBytes value) => _ ← PromoteKeyLru k; mret (inl value)
    | Some (AnyValue _) => _ ← PromoteKeyLru k; fails
    | None =>
        '(result, value, expiry) ← GetFromDiskCache now k;
        match result, value with
        | inl _, Some value =>
            memory_expiry ← GetExpiryForMemoryCache k expiry;
            memory_put now k (AnyBytes value) memory_expiry (slen value);;
            mret (inl value)
        | _, _ => mret (inr NotFound)
        end
    end.

(** [Get] with a decoder, which may fail; the empty [any] is [None]. *)
Definition Get_decoded (now : Z) (k : key) (decoder : bytes -> option any) : M (option any) :=
  is_open ← gets is_open_;
  if negb is_open then mret None
  else
    cached ← memory_get now k;
    match cached with
    | Some value => _ ← PromoteKeyLru k; mret (Some value)
    | None =>
        '(result, value, expiry) ← GetFromDiskCache now k;
        match result, value with
        | inl _, Some value =>
            decoded_item ← lift (decoder value);
            memory_expiry ← GetExpiryForMemoryCache k expiry;
            memory_put now k decoded_item memory_expiry (slen value);;
            mret (Some decoded_item)
        | _, _ => mret None
        end
    end.

Definition Get (now : Z) (k : key) : M (option bytes) :=
  read_result ← Read now k;
  mret (match read_result with inl value => Some value | inr _ => None end).

(** [Write]; a null value is [None]. *)
Definition Write (now : Z) (k : key) (value : option bytes) (expiry : Z) : M (Outcome unit) :=
  match value with
  | None => mret (inr InvalidArgument)
  | Some value =>
      is_open ← gets is_open_;
      if negb is_open then mret (inr PreconditionFailed)
      else
        memory_expiry ← GetExpiryForMemoryCache k expiry;
        memory_put now k (AnyBytes value) memory_expiry (slen value);;
        PutMutableCache now k value expiry
  end.

Definition Put (now : Z) (k : key) (value : option bytes) (expiry : Z) : M bool :=
  result ← Write now k value expiry; mret (IsSuccessful result).

(** [Put] with an encoder, whose result is [encoded_item]. *)
Definition Put_encoded (now : Z) (k : key) (value : A) (encoded_item : bytes) (expiry : Z) : M bool :=
  is_open ← gets is_open_;
  if negb is_open then mret false
  else
    memory_expiry ← GetExpiryForMemoryCache k expiry;
    memory_put now k (AnyValue value) memory_expiry (slen encoded_item);;
    result ← PutMutableCache now k encoded_item expiry;
    mret (IsSuccessful result).

Definition Delete (k : key) : M (Outcome unit) :=
  is_open ← gets is_open_;
  if negb is_open then mret (inr PreconditionFailed)
  else
    keys ← gets protected_keys_;
    if IsProtected keys k then mret (inr PreconditionFailed)
    else
      memory_remove k;;
      _ ← RemoveKeyLru k;
      cache ← gets mutable_cache_;
      match cache with
      | None => mret (inl tt)
      | Some c =>
          let '(c, purge_result, removed_data_size) := PurgeDiskItem k c in
          modify (set_mutable (Some c));;
          add_size (- removed_data_size);;
          mret purge_result
      end.

Definition DeleteByPrefix (prefix : key) : M (Outcome unit) :=
  is_open ← gets is_open_;
  if negb is_open then mret (inr PreconditionFailed)
  else
    keys ← gets protected_keys_;
    let filter := IsProtected keys in
    with_memory (fun m => InMemoryCache.RemoveKeysWithPrefix DefaultCacheCost m (str prefix)
                            (Some (fun k => filter (chars k))));;
    RemoveKeysWithPrefixLru prefix;;
    cache ← gets mutable_cache_;
    match cache with
    | None => mret (inl tt)
    | Some c =>
        let '(c, result, removed_data_size) := DiskCache.RemoveKeysWithPrefix c prefix (Some filter) in
        modify (set_mutable (Some c));;
        add_size (- removed_data_size);;
        mret result
    end.

Definition Remove (k : key) : M bool := result ← Delete k; mret (IsSuccessful result).
Definition RemoveKeysWithPrefix (k : key) : M bool := result ← DeleteByPrefix k; mret (IsSuccessful result).

(** The parts of [Contains] that look at the memory cache and at the mutable one. *)
Definition contains_memory (now : Z) (k : key) (s : DefaultCache) : M bool :=
  match protected_cache_ s, mutable_cache_ s, memory_cache_ s with
  | None, None, Some m => lift (InMemoryCache.Contains m (str k) now)
  | _, _, _ => mret false
  end.

Definition contains_mutable (now : Z) (k : key) (s : DefaultCache) : M bool :=
  match mutable_cache_lru_ s with
  | Some l =>
      match FindNoPromote l k with
      | Some it =>
          props ← lift (iterator_value l (Some it));
          mret (if negb (IsExpiryValid (props_expiry props)) then true else props_expiry props - now >? 0)
      | None =>
          if IsProtected (protected_keys_ s) k
          then mret (match mutable_cache_ s with Some c => DiskCache.Contains c k | None => false end)
          else contains_memory now k s
      end
  | None =>
      match mutable_cache_ s with
      | Some c =>
          if DiskCache.Contains c k then
            expiry ← lift (GetRemainingExpiryTime now k c);
            mret ((expiry >? 0) || IsProtected (protected_keys_ s) k)
          else contains_memory now k s
      | None => contains_memory now k s
      end
  end.

Definition Contains (now : Z) (k : key) : M bool :=
  s ← gets id;
  if negb (is_open_ s) then mret false
  else
    match protected_cache_ s with
    | Some c =>
        if DiskCache.Contains c k then expiry ← lift (GetRemainingExpiryTime now k c); mret (expiry >? 0)
        else contains_mutable now k s
    | None => contains_mutable now k s
    end.

(** [change_key_to_protected] *)
Definition change_key_to_protected (k : key) : M unit :=
  erased ← RemoveKeyLru k;
  if negb erased then RemoveKeysWithPrefixLru k else mret tt.

Fixpoint for_each (f : key -> M unit) (keys : list key) : M unit :=
  match keys with [] => mret tt | k :: keys => f k;; for_each f keys end.

Definition Protect (new_keys : list key) : M bool :=
  cache ← gets mutable_cache_;
  match cache with
  | None => mret false
  | Some _ =>
      keys ← gets protected_keys_;
      let '(keys, result, changed) := ProtectedKeyList.Protect keys new_keys in
      for_each change_key_to_protected changed;;
      modify (set_keys keys);;
      (if result : bool then memory_clear else mret tt);;
      mret result
  end.

(** The loop over the entries from [Seek(key)] on. *)
Fixpoint readd_loop (it : list (key * bytes)) (k : key) : M unit :=
  match it with
  | [] => mret tt
  | (cached_key, value) :: it =>
      if starts_with k cached_key then AddKeyLru cached_key value;; readd_loop it k else mret tt
  end.

Definition release_key (k : key) : M unit :=
  memory ← gets memory_cache_;
  (match memory with
   | None => mret tt
   | Some m =>
       '(m, removed) ← lift (InMemoryCache.Remove DefaultCacheCost m (str k));
       m ← lift (if removed : bool then Some m else InMemoryCache.RemoveKeysWithPrefix DefaultCacheCost m (str k) None);
       modify (set_memory (Some m))
   end);;
  cache ← gets mutable_cache_;
  lru ← gets mutable_cache_lru_;
  match cache, lru with
  | Some c, Some _ => it ← lift (NewIterator c); readd_loop (Seek it k) k
  | _, _ => mret tt
  end.

Definition Release (keys : list key) : M bool :=
  cache ← gets mutable_cache_;
  match cache with
  | None => mret false
  | Some _ =>
      l ← gets protected_keys_;
      let '(l, result) := ProtectedKeyList.Release l keys in
      modify (set_keys l);;
      if negb result then mret result
      else for_each release_key keys;; mret result
  end.

Definition IsProtected_ (k : key) : M bool := keys ← gets protected_keys_; mret (IsProtected keys k).

Definition SetEvictionPortion (size_ : Z) : M unit := modify (set_portion size_).

Definition Size (type : CacheType) : M Z :=
  s ← gets id;
  mret (match type with
        | kMutable => mutable_cache_data_size_ s
        | kProtected => match protected_cache_ s with Some c => DiskCache.Size c | None => 0 end
        end).

(** [Size(new_size)] *)
Definition Resize_ (now new_size : Z) : M Z :=
  s ← gets id;
  match is_open_ s, mutable_cache_ s, mutable_cache_lru_ s with
  | true, Some _, Some _ =>
      let old_size := max_disk_storage (settings_ s) in
      let st := settings_ s in
      modify (set_settings (mkSettings (disk_path_mutable st) (disk_path_protected st) new_size
                              (max_memory_cache_size st) (open_read_only st) (evict_least_recently_used st)));;
      if new_size >=? old_size then mret 0
      else
        evicted ← MaybeEvictData now;
        add_size (- evicted);;
        mret evicted
  | _, _, _ => mret 0
  end.

Definition Promote_ (k : key) : M unit :=
  lru ← gets mutable_cache_lru_;
  match lru with
  | None => mret tt
  | Some l => '(l, _) ← lift (LruCache.Find l k); modify (set_lru (Some l))
  end.

(** ** Opening and closing *)

(** What opening the databases finds: the mutable one, the protected one and the
    second, read-only, attempt of it, and [Dir::IsReadOnly] of the protected path. *)
Record Environment := mkEnvironment {
  env_mutable : OpenEnv DB;
  env_protected : OpenEnv DB;
  env_protected_again : OpenEnv DB;
  protected_path_read_only : bool }.

Definition SetupProtectedCache (env : Environment) : M StorageOpenResult :=
  settings ← gets settings_;
  path ← lift (disk_path_protected settings);
  let is_read_only := open_read_only settings || protected_path_read_only env in
  let '(c, status) := DiskCache.Open DiskCache_new (env_protected env) path 0 is_read_only false in
  let '(c, status) :=
    match status with
    | IOError => if negb is_read_only
                 then DiskCache.Open c (env_protected_again env) path 0 true false
                 else (c, status)
    | _ => (c, status)
    end in
  match status with
  | Success => modify (set_protected (Some c));; mret OpenSuccess
  | _ => modify (set_protected None);; mret (ToStorageOpenResult status)
  end.

Definition SetupMutableCache (env : Environment) : M StorageOpenResult :=
  settings ← gets settings_;
  path ← lift (disk_path_mutable settings);
  let '(c, status) := DiskCache.Open DiskCache_new (env_mutable env) path (max_disk_storage settings)
                        (open_read_only settings) true in
  match status with
  | Fail_ => modify (set_mutable None);; mret OpenDiskPathFailure
  | _ =>
      modify (set_mutable (Some c));;
      keys ← gets protected_keys_;
      modify (set_keys (match DiskCache.Get c kProtectedKeys with
                        | inl value => fst (Deserialize keys (Some value))
                        | inr _ => keys
                        end));;
      (if negb (max_disk_storage settings =? kMaxDiskSize) && evict_least_recently_used settings
       then InitializeLru
       else modify (set_size (DiskCache.Size c)));;
      mret OpenSuccess
  end.

Definition SetupStorage (env : Environment) : M StorageOpenResult :=
  settings ← gets settings_;
  modify (set_memory None);; modify (set_mutable None);; modify (set_lru None);; modify (set_protected None);;
  modify (set_keys ProtectedKeyList_new);; modify (set_size 0);;
  (if max_memory_cache_size settings >? 0
   then modify (set_memory (Some (InMemoryCache_new (max_memory_cache_size settings))))
   else mret tt);;
  result ← (match disk_path_mutable settings with Some _ => SetupMutableCache env | None => mret OpenSuccess end);
  match result with
  | OpenSuccess =>
      match disk_path_protected settings with Some _ => SetupProtectedCache env | None => mret OpenSuccess end
  | _ => mret result
  end.

Definition Open (env : Environment) : M StorageOpenResult := modify (set_open true);; SetupStorage env.

(** [Open(type)] *)
Definition Open_type (env : Environment) (type : CacheType) : M StorageOpenResult :=
  s ← gets id;
  if negb (is_open_ s) then mret NotReady
  else
    match type with
    | kMutable =>
        match mutable_cache_ s with
        | Some _ => mret OpenSuccess
        | None =>
            match disk_path_mutable (settings_ s) with
            | None => mret OpenDiskPathFailure
            | Some _ => memory_clear;; SetupMutableCache env
            end
        end
    | kProtected =>
        match protected_cache_ s with
        | Some _ => mret OpenSuccess
        | None =>
            match disk_path_protected (settings_ s) with
            | None => mret OpenDiskPathFailure
            | Some _ => memory_clear;; SetupProtectedCache env
            end
        end
    end.

(** The part of [DestroyCache] that writes the list of protected keys. *)
Definition store_protected_keys : M unit :=
  s ← gets id;
  match mutable_cache_ s with
  | Some _ =>
      if IsDirty (protected_keys_ s) then
        '(batch, _) ← MaybeUpdatedProtectedKeys; _ ← apply_batch_ batch; mret tt
      else mret tt
  | None => mret tt
  end.

Definition DestroyCache (type : CacheType) : M unit :=
  match type with
  | kMutable =>
      store_protected_keys;;
      modify (set_mutable None);; modify (set_lru None);;
      modify (set_keys ProtectedKeyList_new);; modify (set_size 0)
  | kProtected => modify (set_protected None)
  end.

Definition Close : M unit :=
  is_open ← gets is_open_;
  if negb is_open then mret tt
  else modify (set_memory None);; DestroyCache kMutable;; DestroyCache kProtected;; modify (set_open false).

(** [Close(type)] *)
Definition Close_type (type : CacheType) : M bool :=
  is_open ← gets is_open_;
  if negb is_open then mret false else DestroyCache type;; mret true.

(** [Clear]: [removed] is the answer of [Dir::Remove] for the mutable cache. *)
Definition Clear (env : Environment) (removed : bool) : M bool :=
  is_open ← gets is_open_;
  if negb is_open then mret false
  else
    memory_clear;;
    lru ← gets mutable_cache_lru_;
    (match lru with Some l => modify (set_lru (Some (LruCache.Clear l))) | None => mret tt end);;
    cache ← gets mutable_cache_;
    cleared ← (match cache with
               | Some c =>
                   modify (set_size 0);;
                   let '(c, cleared) := DiskCache.Clear c removed in
                   modify (set_mutable (Some c));; mret cleared
               | None => mret true
               end);
    if negb cleared then mret false
    else
      result ← SetupStorage env;
      mret (match result with OpenSuccess => true | _ => false end).
End default_cache.
