(* ===== verification/DefaultCacheInvariant.v ===== *)
(** * The invariant of the default cache

    What every state of [DefaultCache] satisfies between two operations ([good]),
    what an operation keeps ([keeps]), and that the parts of the operations (memory
    cache, LRU list, disk, eviction, list of protected keys) keep both. *)

From Stdlib Require Import Sorted SpecFloat.
From S2P Require Import Prelude LruCache InMemoryCache ProtectedKeyList DiskCache DefaultCache.

(** ** Texts of numbers *)

Lemma stoll_digits_to_string neg n : 0 <= n -> (if neg : bool then n <= 2^63 else n < 2^63) ->
  stoll_digits neg (to_string n) = Some (if neg then - n else n).
Proof.
  intros H0 H1. destruct (to_string_spec n H0) as (Hne & Hd & Hv). unfold stoll_digits.
  rewrite take_while_all by done. destruct (to_string n) as [|c r]; [done|]. rewrite Hv.
  destruct neg.
  - destruct (Z.leb_spec (- 2^63) (- n)); [|lia]. destruct (Z.ltb_spec (- n) (2^63)); [done|lia].
  - destruct (Z.leb_spec (- 2^63) n); [|lia]. destruct (Z.ltb_spec n (2^63)); [done|lia].
Qed.

Lemma to_string_head n : 0 <= n -> exists c r, to_string n = c :: r /\ is_digit c = true.
Proof.
  intros H0. destruct (to_string_spec n H0) as (Hne & Hd & _). destruct (to_string n) as [|c r]; [done|].
  exists c, r. split; [done|]. by apply Forall_cons in Hd as [? _].
Qed.

(** What [StoreExpiry] writes is read back. *)
Lemma stoll_to_string z : - 2^63 <= z < 2^63 -> stoll (to_string_signed z) = Some z.
Proof.
  intros Hz. unfold to_string_signed. destruct (Z.ltb_spec z 0).
  - unfold stoll. change (drop_while is_space (chr 45 :: to_string (- z))) with (chr 45 :: to_string (- z)).
    change (ord (chr 45) =? 45) with true. cbn match. rewrite (stoll_digits_to_string true) by (cbn beta iota; lia). f_equal. lia.
  - pose proof (stoll_digits_to_string false z ltac:(lia) ltac:(cbn beta iota; lia)) as Hs. cbn beta iota in Hs.
    destruct (to_string_head z ltac:(lia)) as (c & r & E & Hc). rewrite E in *. unfold stoll. cbn [drop_while].
    unfold is_digit, is_space in *. replace ((ord c =? 32) || _) with false by lia.
    replace (ord c =? 45) with false by lia. by replace (ord c =? 43) with false by lia.
Qed.

Lemma stoll_range s z : stoll s = Some z -> - 2^63 <= z < 2^63.
Proof.
  assert (Hd : forall neg t, stoll_digits neg t = Some z -> - 2^63 <= z < 2^63).
  { intros neg t. unfold stoll_digits. destruct (take_while is_digit t); [done|].
    destruct (_ && _) eqn:E; [|done]. intros [= <-]. lia. }
  unfold stoll. destruct (drop_while is_space s) as [|c r]; [done|].
  destruct (ord c =? 45); [apply Hd|]. destruct (ord c =? 43); apply Hd.
Qed.

Lemma dec_go_length fuel n acc : (length (dec_go fuel n acc) <= fuel + length acc)%nat.
Proof.
  revert n acc. induction fuel as [|fuel IH]; intros n acc; cbn [dec_go]; [lia|].
  destruct (n <? 10); [cbn [length]; lia|]. rewrite IH. cbn [length]. lia.
Qed.

Lemma to_string_signed_short z : - 2^63 <= z < 2^63 -> slen (to_string_signed z) < 2^63.
Proof.
  assert (Hs : forall n, 0 <= n <= 2^63 -> (length (to_string n) <= 64)%nat).
  { intros n Hn. unfold to_string. rewrite dec_go_length. cbn [length].
    pose proof (Z.log2_le_mono n (2^63) ltac:(lia)) as Hl. rewrite Z.log2_pow2 in Hl by lia. lia. }
  intros Hz. unfold slen, to_string_signed. destruct (Z.ltb_spec z 0).
  - specialize (Hs (- z) ltac:(lia)). cbn [length]. lia.
  - specialize (Hs z ltac:(lia)). lia.
Qed.

Lemma to_string_signed_nonempty z : to_string_signed z <> [].
Proof.
  unfold to_string_signed. destruct (Z.ltb_spec z 0); [done|]. by destruct (to_string_head z) as (c & r & -> & _).
Qed.

Lemma IsExpiryKey_CreateExpiryKey k : IsExpiryKey (CreateExpiryKey k) = true.
Proof.
  induction k as [|c k IH]; [done|]. change (CreateExpiryKey (c :: k)) with (c :: CreateExpiryKey k).
  cbn [IsExpiryKey]. rewrite IH. apply orb_true_r.
Qed.

Lemma CreateExpiryKey_inj k k' : CreateExpiryKey k = CreateExpiryKey k' -> k = k'.
Proof. apply app_inj_2. done. Qed.

Lemma not_expiry_key k k' : IsExpiryKey k = false -> k <> CreateExpiryKey k'.
Proof. intros Hk ->. by rewrite IsExpiryKey_CreateExpiryKey in Hk. Qed.

Lemma one_cost_nonneg v : 0 <= one_cost v.
Proof. done. Qed.

Lemma IsProtected_data l l' k : protected_data_ l = protected_data_ l' -> IsProtected l k = IsProtected l' k.
Proof. intros E. unfold IsProtected. by rewrite E. Qed.

(** ** The invariant

    A policy says what a cache may hold: the values of a key in memory and on disk.  The
    operations keep every policy that their callers respect.  Expiry keys and the list of
    protected keys are the cache's own and have no policy. *)

Class Policy (A : Type) := mkPolicy {
  in_memory : key -> any (A := A) -> Prop;
  on_disk : key -> bytes -> Prop }.

Definition ordinary (k : key) : Prop := IsExpiryKey k = false /\ k <> kProtectedKeys.

Section invariant.
Context {DB : Type} `{LevelDBLaws DB} {A : Type} `{P : Policy A}.
Abbreviation Cache := (DefaultCache (DB := DB) (A := A)).
Implicit Types (s : Cache) (k : key) (pk : option key).

Lemma DefaultCacheCost_nonneg (v : ItemTuple (A := any (A := A))) : 0 <= DefaultCacheCost v.
Proof. unfold DefaultCacheCost. destruct (Z.eqb_spec (Z.of_N (tuple_size v)) 0); lia. Qed.

(** The memory cache, with values of the policy. *)
Definition all_allowed (li : list (string * ItemTuple (A := any (A := A)))) : Prop :=
  forall p, p ∈ li -> in_memory (chars p.1) (tuple_item p.2).

Definition memory_ok (m : InMemoryCache (A := any (A := A))) : Prop :=
  exists sp, repr DefaultCacheCost (item_tuples_ m) sp /\ all_allowed (spec_list sp).

(** The entries of a database: a text behind every expiry key is a number, the others
    are of the policy, apart from the list of protected keys. *)
Record entries_ok (m : gmap key bytes) : Prop := {
  entries_expiry : forall k v, IsExpiryKey k = true -> m !! k = Some v -> is_Some (stoll v);
  entries_size : forall k v, k <> kProtectedKeys -> m !! k = Some v -> slen v < 2^63;
  entries_allowed : forall k v, ordinary k -> m !! k = Some v -> on_disk k v }.

Definition disk_ok (c : DiskCache DB) : Prop := exists d, database_ c = Some d /\ entries_ok (contents d).

(** An LRU list without the watched key. *)
Definition apart pk (li : list (key * ValueProperties)) : Prop := forall k, pk = Some k -> k ∉ li.*1.

Definition lru_ok pk (l : LruCache (K := key) (V := ValueProperties)) : Prop :=
  (exists sp, repr one_cost l sp) /\ forall k, pk = Some k -> map_ l !! k = None.

Lemma repr_keys l sp k : repr one_cost l sp -> k ∈ (spec_list sp).*1 <-> is_Some (map_ l !! k).
Proof.
  intros Hr. destruct (linked_found l (spec_list sp) k (loose_linked _ _ _ (repr_list _ _ _ Hr))) as [Hk E _ _|l1 v l2 El E _ _].
  - rewrite E. split; [done|by intros []].
  - rewrite E, El. split; [by eauto|]. intros _. apply key_app. right. left.
Qed.

Lemma repr_apart pk l sp : repr one_cost l sp -> apart pk (spec_list sp) <-> forall k, pk = Some k -> map_ l !! k = None.
Proof.
  intros Hr. unfold apart. split; intros Hn k Ek.
  - apply eq_None_not_Some. rewrite <- (repr_keys l sp k Hr). auto.
  - rewrite (repr_keys l sp k Hr), <- eq_None_not_Some. auto.
Qed.

Lemma lru_ok_intro pk l sp : repr one_cost l sp -> apart pk (spec_list sp) -> lru_ok pk l.
Proof. intros Hr Hn. split; [by exists sp|]. by apply (repr_apart pk l sp). Qed.

Lemma lru_ok_elim pk l sp : lru_ok pk l -> repr one_cost l sp -> apart pk (spec_list sp).
Proof. intros [_ Hn] Hr. by apply (repr_apart pk l sp). Qed.

Definition keys_ok (keys : ProtectedKeyList) : Prop :=
  ProtectedKeyList.inv (protected_data_ keys) /\ Forall (fun k => k <> []) (protected_data_ keys).

Record good s : Prop := {
  good_memory : forall m, memory_cache_ s = Some m -> memory_ok m;
  good_lru : forall l, mutable_cache_lru_ s = Some l -> exists sp, repr one_cost l sp;
  good_mutable : forall c, mutable_cache_ s = Some c -> disk_ok c;
  good_protected : forall c, protected_cache_ s = Some c -> disk_ok c;
  good_keys : keys_ok (protected_keys_ s);
  good_portion : 0 < eviction_portion_ s }.

(** The entries of the mutable cache. *)
Definition mutable_contents s : gmap key bytes :=
  match mutable_cache_ s with
  | Some c => match database_ c with Some d => contents d | None => ∅ end
  | None => ∅
  end.

Definition lookup_mutable s k : option bytes := mutable_contents s !! k.

Lemma mutable_contents_eq s c d : mutable_cache_ s = Some c -> database_ c = Some d -> mutable_contents s = contents d.
Proof. intros E Ed. unfold mutable_contents. by rewrite E, Ed. Qed.

Lemma mutable_contents_same s s' : mutable_cache_ s' = mutable_cache_ s -> mutable_contents s' = mutable_contents s.
Proof. intros E. unfold mutable_contents. by rewrite E. Qed.

(** From [s] to [s'] the protected keys stay, and so does the entry of [pk], a key
    that is watched. *)
Record keeps pk s s' : Prop := {
  keeps_keys : protected_data_ (protected_keys_ s') = protected_data_ (protected_keys_ s);
  keeps_entry : forall k, pk = Some k -> lookup_mutable s' k = lookup_mutable s k;
  keeps_open : is_open_ s' = is_open_ s;
  keeps_protected : protected_cache_ s' = protected_cache_ s;
  keeps_lru : is_Some (mutable_cache_lru_ s) -> is_Some (mutable_cache_lru_ s');
  keeps_mutable : is_Some (mutable_cache_ s) <-> is_Some (mutable_cache_ s') }.

#[export] Instance keeps_preorder pk : PreOrder (keeps pk).
Proof.
  split; [by split|]. intros s1 s2 s3 [] []. split; try congruence; try tauto. intros k Ek. by rewrite keeps_entry1, keeps_entry0.
Qed.

(** The watched key is protected, not one of those that the cache itself writes, and
    not in the LRU list. *)
Record guarded_key s k : Prop := {
  guarded_protected : IsProtected (protected_keys_ s) k = true;
  guarded_ordinary : ordinary k;
  guarded_lru : forall l, mutable_cache_lru_ s = Some l -> map_ l !! k = None }.

Definition guarded s pk : Prop := forall k, pk = Some k -> guarded_key s k.

Record ok pk s : Prop := { ok_good : good s; ok_guarded : guarded s pk }.

Lemma ok_none s : good s -> ok None s.
Proof. intros Hg. split; [done|]. by intros ?. Qed.

Lemma ok_some s k : good s -> guarded_key s k -> ok (Some k) s.
Proof. intros Hg Hk. split; [done|]. by intros ? [= <-]. Qed.

Lemma ok_lru pk s l : ok pk s -> mutable_cache_lru_ s = Some l -> lru_ok pk l.
Proof. intros [Hg Hk] El. split; [by apply (good_lru s Hg)|]. intros k Ek. by apply (guarded_lru s k (Hk k Ek)). Qed.

Lemma not_watched_unprotected pk s k : ok pk s -> IsProtected (protected_keys_ s) k = false -> Some k <> pk.
Proof. intros Hs Ep <-. rewrite (guarded_protected s k (ok_guarded _ _ Hs k eq_refl)) in Ep. done. Qed.

Lemma not_watched_expiry pk s k : ok pk s -> Some (CreateExpiryKey k) <> pk.
Proof.
  intros Hs <-. destruct (guarded_ordinary s _ (ok_guarded _ _ Hs _ eq_refl)) as [E _]. by rewrite IsExpiryKey_CreateExpiryKey in E.
Qed.

Lemma not_watched_own pk s : ok pk s -> Some kProtectedKeys <> pk.
Proof. intros Hs <-. by destruct (guarded_ordinary s _ (ok_guarded _ _ Hs _ eq_refl)) as [_ []]. Qed.

(** The computation ends, and keeps the invariant and what [pk] stands for. *)
Definition safe {B} pk (m : state Cache B) (Q : B -> Prop) : Prop :=
  forall s, ok pk s -> runs m s (fun s' a => ok pk s' /\ keeps pk s s' /\ Q a).

Lemma safe_runs {B} pk s (m : state Cache B) (Q : B -> Prop) (R : Cache -> B -> Prop) :
  safe pk m Q -> ok pk s -> (forall s' a, ok pk s' -> keeps pk s s' -> Q a -> R s' a) -> runs m s R.
Proof. intros Hm Hs HR. eapply runs_mono; [by apply Hm|]. intros s' a (? & ? & ?). auto. Qed.

Lemma safe_ret {B} pk (a : B) (Q : B -> Prop) : Q a -> safe pk (mret a) Q.
Proof. intros HQ s Hs. rstep. done. Qed.

Lemma safe_bind {B C} pk (m : state Cache B) (k : B -> state Cache C) Q Q' :
  safe pk m Q -> (forall a, Q a -> safe pk (k a) Q') -> safe pk (m ≫= k) Q'.
Proof.
  intros Hm Hk s Hs. rstep. eapply safe_runs; [done|done|]. intros s1 a Hs1 K1 Ha.
  eapply runs_mono; [by apply Hk|]. intros s2 b (? & K2 & ?). split_and!; [done| |done]. by transitivity s1.
Qed.

Lemma safe_mono {B} pk (m : state Cache B) (Q Q' : B -> Prop) : safe pk m Q -> (forall a, Q a -> Q' a) -> safe pk m Q'.
Proof. intros Hm HQ s Hs. eapply runs_mono; [by apply Hm|]. intros s' a (? & ? & ?). auto. Qed.

(** A computation that looks at the state. *)
Lemma safe_gets {B C} pk (f : Cache -> B) (k : B -> state Cache C) Q :
  (forall s, ok pk s -> runs (k (f s)) s (fun s' a => ok pk s' /\ keeps pk s s' /\ Q a)) ->
  safe pk (gets f ≫= k) Q.
Proof. intros Hk s Hs. rstep. rstep. auto. Qed.

(** ** Changes of single members *)

Ltac members := split; [split; [split|intros ? Ek_; split]|split]; cbn; auto;
  try match goal with Hg_ : guarded _ _, Ek_ : _ = Some _ |- _ => destruct (Hg_ _ Ek_); by auto end.

Lemma ok_set_memory pk s m : ok pk s -> (forall m', m = Some m' -> memory_ok m') ->
  ok pk (set_memory m s) /\ keeps pk s (set_memory m s).
Proof. intros [[] Hg] Hm. members. Qed.

Lemma ok_set_size pk s z : ok pk s -> ok pk (set_size z s) /\ keeps pk s (set_size z s).
Proof. intros [[] Hg]. members. Qed.

Lemma ok_set_settings pk s st : ok pk s -> ok pk (set_settings st s) /\ keeps pk s (set_settings st s).
Proof. intros [[] Hg]. members. Qed.

Lemma ok_set_lru pk s l : ok pk s -> lru_ok pk l ->
  ok pk (set_lru (Some l) s) /\ keeps pk s (set_lru (Some l) s).
Proof. intros [[] Hg] [Hr Hl]. members; by intros ? [= <-]; auto. Qed.

Lemma ok_set_keys pk s keys : ok pk s -> protected_data_ keys = protected_data_ (protected_keys_ s) ->
  ok pk (set_keys keys s) /\ keeps pk s (set_keys keys s).
Proof.
  intros [[] Hg] E. members.
  - unfold keys_ok. by rewrite E.
  - rewrite (IsProtected_data _ _ _ E). by apply Hg.
Qed.

Lemma ok_set_mutable pk s c c' : ok pk s -> mutable_cache_ s = Some c -> disk_ok c' ->
  (forall k, pk = Some k -> lookup_mutable (set_mutable (Some c') s) k = lookup_mutable s k) ->
  ok pk (set_mutable (Some c') s) /\ keeps pk s (set_mutable (Some c') s).
Proof. intros [[] Hg] Ec Hc E. members; [by intros ? [= <-]|]. rewrite Ec. by split; eexists. Qed.

Lemma safe_add_size pk z : safe pk (add_size z) (fun _ => True).
Proof. intros s Hs. unfold add_size. rstep. destruct (ok_set_size pk s (u64 (mutable_cache_data_size_ s + z)) Hs). done. Qed.

(** ** The memory cache *)

Lemma safe_with_memory pk (f : InMemoryCache (A := any (A := A)) -> option InMemoryCache) :
  (forall m, memory_ok m -> exists m', f m = Some m' /\ memory_ok m') -> safe pk (with_memory f) (fun _ => True).
Proof.
  intros Hf. apply safe_gets. intros s Hs. destruct (memory_cache_ s) as [m|] eqn:Em; [|by rstep].
  destruct (Hf m) as (m' & E & Hm'); [by apply (good_memory s (ok_good _ _ Hs))|].
  rstep. eapply runs_lift; [exact E|]. rstep.
  destruct (ok_set_memory pk s (Some m') Hs) as [? ?]; [by intros ? [= <-]|]. done.
Qed.

Lemma DefaultCacheCost_lt (v : ItemTuple (A := any (A := A))) z :
  tuple_size v = Z.to_N z -> 0 <= z < 2^63 -> DefaultCacheCost v < 2^63.
Proof. intros E Hz. unfold DefaultCacheCost. rewrite E. destruct (_ =? 0); lia. Qed.

(** The value of a key in the cache is that of the list. *)
Lemma map_assoc {K V} `{Countable K} (cost : V -> Z) (l : LruCache (K := K) (V := V)) sp (k : K) b : repr cost l sp ->
  map_ l !! k = Some b -> assoc k (spec_list sp) = Some (value_ b).
Proof.
  intros Hr E. destruct (linked_found l (spec_list sp) k (loose_linked _ _ _ (repr_list _ _ _ Hr))) as [_ E1 _ _|l1 v l2 _ E1 E2 _].
  - congruence.
  - rewrite E in E1. by injection E1 as ->.
Qed.

Lemma assoc_map {K V} `{Countable K} (cost : V -> Z) (l : LruCache (K := K) (V := V)) sp (k : K) v : repr cost l sp ->
  assoc k (spec_list sp) = Some v -> exists b, map_ l !! k = Some b /\ value_ b = v.
Proof.
  intros Hr E. destruct (linked_found l (spec_list sp) k (loose_linked _ _ _ (repr_list _ _ _ Hr))) as [_ _ E1 _|l1 v' l2 _ E1 E2 _].
  - congruence.
  - rewrite E in E2. injection E2 as ->. eauto.
Qed.

(** The memory cache holds no value of [k] but [x]. *)
Definition mem_value s k (x : any) : Prop :=
  forall m b, memory_cache_ s = Some m -> map_ (item_tuples_ m) !! str k = Some b -> tuple_item (value_ b) = x.

(** The database stays, and the memory cache gets no value. *)
Record quiet s s' : Prop := {
  quiet_mutable : mutable_cache_ s' = mutable_cache_ s;
  quiet_memory : forall k v, mem_value s k v -> mem_value s' k v }.

#[local] Instance quiet_preorder : PreOrder quiet.
Proof. split; [by split|]. intros s1 s2 s3 [E1 Q1] [E2 Q2]. split; [congruence|auto]. Qed.

Lemma all_allowed_sub li li' : all_allowed li -> (forall p, p ∈ li' -> p ∈ li) -> all_allowed li'.
Proof. intros H1 H2 p Hp. auto. Qed.

(** A memory cache whose items are among those of another one. *)
Lemma mem_value_sub s m sp m' sp' : memory_cache_ s = Some m -> repr DefaultCacheCost (item_tuples_ m) sp ->
  repr DefaultCacheCost (item_tuples_ m') sp' -> (forall p, p ∈ spec_list sp' -> p ∈ spec_list sp) ->
  quiet s (set_memory (Some m') s).
Proof.
  intros Em Hr Hr' Hsub. split; [done|]. intros k v Hv m1 b [= <-] Eb.
  pose proof (map_assoc _ _ _ _ _ Hr' Eb) as Ea. apply (assoc_elem _ _ _ (repr_NoDup _ _ _ Hr')), Hsub in Ea.
  apply (assoc_elem _ _ _ (repr_NoDup _ _ _ Hr)) in Ea. destruct (assoc_map _ _ _ _ _ Hr Ea) as (b' & Eb' & Ev).
  rewrite <- Ev. by apply (Hv m).
Qed.

Lemma runs_memory_put pk s now k v e z (Q : Cache -> unit -> Prop) : ok pk s ->
  in_memory k v -> (HasExpiry e = true -> e + now < 2^63) -> 0 <= z < 2^63 ->
  (forall m, ok pk (set_memory m s) -> keeps pk s (set_memory m s) ->
     (HasExpiry e && (e <=? 0) = false -> mem_value (set_memory m s) k v) -> Q (set_memory m s) tt) ->
  runs (memory_put now k v e z) s Q.
Proof.
  intros Hs Hv He Hz HQ. unfold memory_put, with_memory. rstep. rstep. destruct (memory_cache_ s) as [m|] eqn:Em.
  - destruct (good_memory s (ok_good _ _ Hs) m Em) as (sp & Hr & Hb).
    destruct (Put_spec DefaultCacheCost DefaultCacheCost_nonneg m sp (str k) v e (Z.to_N z) now now Hr He)
      as (m' & b & sp' & E & Hr' & _ & _ & Hin); [by apply (DefaultCacheCost_lt _ z)|].
    rstep. eapply runs_lift; [by rewrite E|]. rstep. destruct (ok_set_memory pk s (Some m') Hs) as [? ?].
    { intros ? [= <-]. exists sp'. split; [done|]. intros p [->|[Hp _]]%Hin; [|auto]. cbn [fst snd tuple_item]. by rewrite String.list_ascii_of_string_of_list_ascii. }
    apply HQ; [done|done|]. intros Hx m1 b1 [= <-] Eb. pose proof (map_assoc _ _ _ _ _ Hr' Eb) as Ea.
    apply (assoc_elem _ _ _ (repr_NoDup _ _ _ Hr')) in Ea. destruct (Hin _ Ea) as [[= ->]|[_ [Hne|Hne]]]; [done|done|congruence].
  - rstep. assert (E : set_memory None s = s) by (unfold set_memory; rewrite <- Em; by destruct s).
    destruct (ok_set_memory pk s None Hs) as [Ho Hk]; [done|]. specialize (HQ None Ho Hk). rewrite E in HQ. apply HQ.
    intros _ m b Em'. congruence.
Qed.

Lemma runs_memory_get pk s now k (Q : Cache -> option any -> Prop) : ok pk s ->
  (forall m a, ok pk (set_memory m s) -> keeps pk s (set_memory m s) ->
     (forall x, a = Some x -> in_memory k x) -> (forall v x, mem_value s k v -> a = Some x -> x = v) ->
     Q (set_memory m s) a) ->
  runs (memory_get now k) s Q.
Proof.
  intros Hs HQ. unfold memory_get. rstep. rstep. destruct (memory_cache_ s) as [m|] eqn:Em.
  - destruct (good_memory s (ok_good _ _ Hs) m Em) as (sp & Hr & Hb).
    destruct (InMemoryCache.Get_spec DefaultCacheCost DefaultCacheCost_nonneg m sp (str k) now Hr) as (m' & sp' & E & Hr' & _ & Hin).
    rstep. eapply runs_lift; [exact E|]. rstep. rstep. rstep. destruct (ok_set_memory pk s (Some m') Hs) as [? ?].
    { intros ? [= <-]. exists sp'. split; [done|]. by eapply all_allowed_sub. }
    apply HQ; [done|done| |].
    + intros x. destruct (assoc (str k) (spec_list sp)) as [t|] eqn:Ea; [|done].
      destruct (tuple_expiry t <? now); [done|]. intros [= <-]. rewrite <- (String.list_ascii_of_string_of_list_ascii k).
      by apply (Hb (str k, t)), (assoc_elem _ _ _ (repr_NoDup _ _ _ Hr)).
    + intros v x Hv. destruct (assoc (str k) (spec_list sp)) as [t|] eqn:Ea; [|done].
      destruct (tuple_expiry t <? now); [done|]. intros [= <-]. destruct (assoc_map _ _ _ _ _ Hr Ea) as (b & Eb & <-). by apply (Hv m).
  - rstep. assert (E : set_memory None s = s) by (unfold set_memory; rewrite <- Em; by destruct s).
    destruct (ok_set_memory pk s None Hs) as [Ho Hk]; [done|]. specialize (HQ None None Ho Hk). rewrite E in HQ. by apply HQ.
Qed.

Lemma runs_memory_remove pk s k (Q : Cache -> unit -> Prop) : ok pk s ->
  (forall m, ok pk (set_memory m s) -> keeps pk s (set_memory m s) -> quiet s (set_memory m s) -> Q (set_memory m s) tt) -> runs (memory_remove k) s Q.
Proof.
  intros Hs HQ. unfold memory_remove, with_memory. rstep. rstep. destruct (memory_cache_ s) as [m|] eqn:Em.
  - destruct (good_memory s (ok_good _ _ Hs) m Em) as (sp & Hr & Hb). unfold InMemoryCache.Remove.
    destruct (Erase_client DefaultCacheCost DefaultCacheCost_nonneg _ _ (str k) Hr) as (t & E & Hr').
    rstep. eapply runs_lift; [by rewrite E|]. rstep.
    assert (Hsub : forall p, p ∈ remove_key (str k) (spec_list sp) -> p ∈ spec_list sp) by by intros p [Hp _]%elem_of_remove_key.
    destruct (ok_set_memory pk s (Some (mkCache t (item_expiries_ m))) Hs) as [? ?].
    { intros ? [= <-]. eexists. split; [exact Hr'|]. by apply (all_allowed_sub (spec_list sp)). }
    apply HQ; [done|done|]. by eapply mem_value_sub.
  - rstep. assert (E : set_memory None s = s) by (unfold set_memory; rewrite <- Em; by destruct s).
    destruct (ok_set_memory pk s None Hs) as [Ho Hk]; [done|]. specialize (HQ None Ho Hk). rewrite E in HQ. by apply HQ.
Qed.

Lemma safe_memory_RemoveKeysWithPrefix pk p f :
  safe pk (with_memory (fun m => InMemoryCache.RemoveKeysWithPrefix DefaultCacheCost m p f)) (fun _ => True).
Proof.
  apply safe_with_memory. intros m (sp & Hr & Hb).
  destruct (InMemoryCache.RemoveKeysWithPrefix_spec DefaultCacheCost DefaultCacheCost_nonneg m sp p f Hr) as (t & -> & Hr').
  eexists. split; [done|]. eexists. split; [exact Hr'|]. cbn [spec_list]. apply (all_allowed_sub (spec_list sp)); [done|].
  intros x Hx. apply list_elem_of_In in Hx. apply List.filter_In in Hx as [Hx _]. by apply list_elem_of_In.
Qed.

(** ** The LRU list *)

Lemma runs_lru {B} pk s (k : option (LruCache (K := key)) -> state Cache B) Q : ok pk s ->
  (mutable_cache_lru_ s = None -> runs (k None) s Q) ->
  (forall l sp, mutable_cache_lru_ s = Some l -> repr one_cost l sp ->
     apart pk (spec_list sp) -> runs (k (Some l)) s Q) ->
  runs (gets mutable_cache_lru_ ≫= k) s Q.
Proof.
  intros Hs H1 H2. rstep. rstep. destruct (mutable_cache_lru_ s) as [l|] eqn:E; [|auto].
  pose proof (ok_lru pk s l Hs E) as Hl. pose proof Hl as [[sp Hr] _]. eapply H2; [done|done|].
  by apply (lru_ok_elim _ l).
Qed.

Lemma remove_key_keys x k (l : list (key * ValueProperties)) : x ∈ (remove_key k l).*1 -> x ∈ l.*1.
Proof. intros (p & -> & [Hp _]%elem_of_remove_key)%list_elem_of_fmap. by apply list_elem_of_fmap_2. Qed.

Lemma safe_RemoveKeyLru pk k : safe pk (RemoveKeyLru k) (fun _ => True).
Proof.
  intros s Hs. eapply runs_lru; [done|by rstep|]. intros l sp _ Hr Hn.
  destruct (Erase_client one_cost one_cost_nonneg l sp k Hr) as (l' & E & Hr').
  rstep. eapply runs_lift; [exact E|]. cbn beta iota. rstep. rstep.
  destruct (ok_set_lru pk s l' Hs) as [? ?]; [|by rstep].
  eapply lru_ok_intro; [exact Hr'|]. intros x Ex Hx. by apply (Hn x Ex), (remove_key_keys x k).
Qed.

Lemma find_keys x k sp : x ∈ (spec_list (fst (fst (spec_step one_cost (OpFind k) sp)))).*1 -> x ∈ (spec_list sp).*1.
Proof.
  cbn [spec_step]. destruct (assoc k (spec_list sp)) as [v|] eqn:E; [|done]. cbn [fst spec_list fmap list_fmap].
  intros [->|Hx]%elem_of_cons; [|by apply (remove_key_keys x k)].
  unfold assoc in E. apply fmap_Some in E as ([k' v'] & E & ->). apply List.find_some in E as [Hin Hk].
  apply bool_decide_eq_true in Hk. cbn in Hk. subst. apply list_elem_of_In in Hin. by apply (list_elem_of_fmap_2 fst) in Hin.
Qed.

Lemma lru_Find pk l sp k : repr one_cost l sp -> apart pk (spec_list sp) ->
  exists l', LruCache.Find l k = Some (l', if assoc k (spec_list sp) is Some _ then Some k else None) /\ lru_ok pk l'.
Proof.
  intros Hr Hn. destruct (Find_client one_cost l sp k Hr) as (l' & E & Hr' & _). exists l'. split; [done|].
  eapply lru_ok_intro; [exact Hr'|]. intros x Ex Hx. by apply (Hn x Ex), (find_keys x k).
Qed.

Lemma safe_PromoteKeyLru pk k : safe pk (PromoteKeyLru k) (fun _ => True).
Proof.
  intros s Hs. eapply runs_lru; [done|by rstep|]. intros l sp _ Hr Hn.
  destruct (lru_Find pk l sp k Hr Hn) as (l' & E & Hl').
  rstep. eapply runs_lift; [exact E|]. rstep. rstep.
  destruct (ok_set_lru pk s l' Hs Hl') as [? ?]. by repeat rstep.
Qed.

Lemma safe_Promote pk k : safe pk (Promote_ k) (fun _ => True).
Proof.
  intros s Hs. eapply runs_lru; [done|by rstep|]. intros l sp _ Hr Hn.
  destruct (lru_Find pk l sp k Hr Hn) as (l' & E & Hl').
  rstep. eapply runs_lift; [exact E|]. rstep. by destruct (ok_set_lru pk s l' Hs Hl').
Qed.

Lemma remove_prefix_loop_spec prefix l2 : forall fuel l max l1,
  repr one_cost l (mkSpec max (l1 ++ l2)) -> (length l2 <= fuel)%nat ->
  exists l', remove_prefix_loop fuel l (hd_key l2) prefix = Some l' /\
    repr one_cost l' (mkSpec max (l1 ++ List.filter (fun p => negb (IsEqualOrPrefix prefix p.1)) l2)).
Proof.
  induction l2 as [|[k v] l2 IH]; intros fuel l max l1 Hr Hf.
  - exists l. split; [by destruct fuel|done].
  - destruct fuel as [|fuel]; simpl in Hf; [lia|].
    pose proof (loose_linked _ _ _ (repr_list _ _ _ Hr)) as Hl. cbn [spec_list] in Hl.
    cbn [hd_key head fmap option_fmap option_map fst remove_prefix_loop List.filter].
    destruct (IsEqualOrPrefix prefix k) eqn:Ek; cbn [negb].
    + destruct (Erase_iterator_client one_cost one_cost_nonneg _ _ _ _ _ _ Hr) as (t1 & -> & Hr1).
      cbn [mbind option_bind]. apply IH; [done|lia].
    + rewrite (iterator_next_client _ _ _ _ _ Hl). cbn [mbind option_bind].
      destruct (IH fuel l max (l1 ++ [(k, v)])) as (t' & E & Hr'); [by rewrite <- app_assoc|lia|].
      rewrite <- app_assoc in Hr'. eauto.
Qed.

Lemma safe_RemoveKeysWithPrefixLru pk k : safe pk (RemoveKeysWithPrefixLru k) (fun _ => True).
Proof.
  intros s Hs. eapply runs_lru; [done|by rstep|]. intros l [max li] _ Hr Hn.
  pose proof (loose_linked _ _ _ (repr_list _ _ _ Hr)) as Hl. cbn [spec_list] in *.
  destruct (remove_prefix_loop_spec k li (size (map_ l)) l max [] Hr) as (l' & E & Hr').
  { rewrite (linked_size _ _ Hl). lia. }
  rstep. eapply runs_lift; [unfold cache_begin; rewrite (linked_first _ _ Hl); exact E|]. rstep.
  destruct (ok_set_lru pk s l' Hs) as [? ?]; [|done].
  eapply lru_ok_intro; [exact Hr'|]. cbn [spec_list app]. intros x Ex (p & -> & Hp)%list_elem_of_fmap.
  apply (Hn _ Ex), list_elem_of_fmap_2. apply list_elem_of_In in Hp. apply List.filter_In in Hp as [Hp _]. by apply list_elem_of_In.
Qed.

(** ** The disk *)

(** An entry of a batch that keeps the database well formed and the entry of [pk]. *)
Definition op_ok_ pk (o : batch_op) : Prop :=
  match o with
  | BPut k v => Some k <> pk /\ (k <> kProtectedKeys -> slen v < 2^63) /\ (IsExpiryKey k = true -> is_Some (stoll v)) /\
                (ordinary k -> on_disk k v)
  | BDelete k => Some k <> pk
  end.

Lemma entries_ok_sub (m m' : gmap key bytes) : (forall k v, m' !! k = Some v -> m !! k = Some v) -> entries_ok m -> entries_ok m'.
Proof. intros Hs [H1 H2 H3]. split; eauto. Qed.

Lemma entries_ok_delete m k : entries_ok m -> entries_ok (delete k m).
Proof. apply entries_ok_sub. by intros k' v' [_ E]%lookup_delete_Some. Qed.

Lemma apply_batch_ok pk (batch : list batch_op) (m : gmap key bytes) : Forall (op_ok_ pk) batch -> entries_ok m ->
  entries_ok (apply_batch batch m) /\ forall k, pk = Some k -> apply_batch batch m !! k = m !! k.
Proof.
  revert m. induction batch as [|o batch IH]; intros m Hb Hm; [done|].
  apply Forall_cons in Hb as [Ho Hb]. unfold apply_batch in *. cbn [foldl].
  cut (entries_ok (apply_op m o) /\ forall k, pk = Some k -> apply_op m o !! k = m !! k).
  { intros [H1 E]. destruct (IH _ Hb H1) as [H2 E2]. split; [done|]. intros k Ek. by rewrite E2, E. }
  destruct Hm as [H1 H2 H3]. destruct o as [k v|k]; cbn [apply_op op_ok_] in *.
  - destruct Ho as (Hk & Hv & He & Hd). split; [|intros k' ->; rewrite lookup_insert_ne; congruence]. split.
    + intros k' v' Ho [[<- <-]|[_ E]]%lookup_insert_Some; [by apply He|by eapply H1].
    + intros k' v' Ho [[<- <-]|[_ E]]%lookup_insert_Some; [by apply Hv|by eapply H2].
    + intros k' v' Ho [[<- <-]|[_ E]]%lookup_insert_Some; [by apply Hd|by eapply H3].
  - split; [|intros k' ->; rewrite lookup_delete_ne; congruence]. by apply entries_ok_delete.
Qed.

Lemma runs_mutable {B} pk s (k : option (DiskCache DB) -> state Cache B) Q : ok pk s ->
  (mutable_cache_ s = None -> runs (k None) s Q) ->
  (forall c d, mutable_cache_ s = Some c -> database_ c = Some d -> entries_ok (contents d) -> runs (k (Some c)) s Q) ->
  runs (gets mutable_cache_ ≫= k) s Q.
Proof.
  intros Hs H1 H2. rstep. rstep. destruct (mutable_cache_ s) as [c|] eqn:E; [|auto].
  destruct (good_mutable s (ok_good _ _ Hs) c E) as (d & Ed & Hd). eauto.
Qed.

(** Writing to the database of the mutable cache. *)
Lemma ok_write pk s c d c' d' : ok pk s -> mutable_cache_ s = Some c -> database_ c = Some d ->
  database_ c' = Some d' -> entries_ok (contents d') -> (forall k, pk = Some k -> contents d' !! k = contents d !! k) ->
  ok pk (set_mutable (Some c') s) /\ keeps pk s (set_mutable (Some c') s).
Proof.
  intros Hs Ec Ed Ed' Hd' E. apply (ok_set_mutable pk s c); [done|done|by exists d'|].
  intros k Ek. unfold lookup_mutable. rewrite (mutable_contents_eq s c d Ec Ed).
  rewrite (mutable_contents_eq (set_mutable (Some c') s) c' d' eq_refl Ed'). auto.
Qed.

Lemma written_ok_ pk s c d m' c' r : ok pk s -> mutable_cache_ s = Some c -> database_ c = Some d ->
  entries_ok (contents d) -> written c (contents d) m' c' r -> entries_ok m' -> (forall k, pk = Some k -> m' !! k = contents d !! k) ->
  ok pk (set_mutable (Some c') s) /\ keeps pk s (set_mutable (Some c') s).
Proof.
  intros Hs Ec Ed Hd Hw Hm' E. destruct Hw as [d' E'|d' e E']; apply (ok_write pk s c d _ d'); try done; by rewrite E'.
Qed.

Lemma runs_apply_batch pk s (batch : list batch_op) (Q : Cache -> Outcome unit -> Prop) : ok pk s -> is_Some (mutable_cache_ s) -> Forall (op_ok_ pk) batch ->
  (forall s' r, ok pk s' -> keeps pk s s' -> protected_keys_ s' = protected_keys_ s -> mutable_cache_lru_ s' = mutable_cache_lru_ s ->
     memory_cache_ s' = memory_cache_ s ->
     mutable_contents s' = (if IsSuccessful r then apply_batch batch (mutable_contents s) else mutable_contents s) -> Q s' r) ->
  runs (apply_batch_ batch) s Q.
Proof.
  intros Hs [c Ec] Hb HQ. eapply runs_mutable; [done|congruence|]. intros c1 d Ec1 Ed Hd.
  rewrite Ec in Ec1. injection Ec1 as <-. rstep. eapply runs_lift; [done|]. cbv beta.
  pose proof (ApplyBatch_spec c d batch Ed) as Hw. destruct (ApplyBatch c batch) as [c' r].
  destruct (apply_batch_ok pk batch (contents d) Hb Hd) as [H1 H2]. cbn [fst snd] in Hw.
  destruct (written_ok_ pk s c d _ c' r Hs Ec Ed Hd Hw H1 H2) as [Hs' K]. repeat rstep. apply HQ; try done.
  rewrite (mutable_contents_eq s c d Ec Ed). destruct Hw as [d' E|d' e E]; rewrite <- E; by apply (mutable_contents_eq _ (with_database c (Some d'))).
Qed.

Lemma ok_purge pk s c d k : ok pk s -> mutable_cache_ s = Some c -> database_ c = Some d -> Some k <> pk ->
  exists c' r sz, PurgeDiskItem k c = (c', r, sz) /\
    ok pk (set_mutable (Some c') s) /\ keeps pk s (set_mutable (Some c') s).
Proof.
  intros Hs Ec Ed Hk. unfold PurgeDiskItem. destruct (good_mutable s (ok_good _ _ Hs) c Ec) as (d0 & Ed0 & Hd).
  rewrite Ed in Ed0. injection Ed0 as <-.
  assert (Hstep : forall c0 d0 k0, database_ c0 = Some d0 -> entries_ok (contents d0) -> Some k0 <> pk ->
    exists c1 d1 r sz, DiskCache.Remove c0 k0 = (c1, r, sz) /\ database_ c1 = Some d1 /\ entries_ok (contents d1) /\
      forall k, pk = Some k -> contents d1 !! k = contents d0 !! k).
  { intros c0 d0 k0 E0 Hd0 Hk0. destruct (Remove_spec c0 d0 k0 E0) as (c1 & r & sz & -> & Hw & _).
    destruct Hw as [d1 E1|d1 e E1]; eexists _, d1, _, _; (split; [done|]); rewrite E1.
    - split; [done|]. split; [by apply entries_ok_delete|]. intros k1 ->. rewrite lookup_delete_ne; congruence.
    - done. }
  destruct (Hstep c d k Ed Hd Hk) as (c1 & d1 & r1 & sz1 & -> & E1 & H1 & L1).
  pose proof (not_watched_expiry pk s k Hs) as Hk'.
  destruct (Hstep c1 d1 (CreateExpiryKey k) E1 H1 Hk') as (c2 & d2 & r2 & sz2 & -> & E2 & H2 & L2).
  eexists _, _, _. split; [done|]. apply (ok_write pk s c d c2 d2); [done|done|done|done|done|].
  intros k1 Ek1. by rewrite L2, L1.
Qed.

(** ** The eviction loops *)

(** What a run of [EvictDataPortion] leaves of the list [r], least recently used
    key first, the batch and the evicted size. *)
Fixpoint evict_oldest (r : list (key * ValueProperties)) (target : Z) (batch : list batch_op) (evicted : Z)
  : list (key * ValueProperties) * (list batch_op * Z) :=
  match r with
  | [] => ([], (batch, evicted))
  | (k, p) :: r' =>
      if evicted <? target then
        let evicted := u64 (evicted + slen k + props_size p) in
        let batch := batch ++ [BDelete k] in
        if IsExpiryValid (props_expiry p)
        then evict_oldest r' target (batch ++ [BDelete (CreateExpiryKey k)])
               (u64 (evicted + slen (CreateExpiryKey k) + kExpiryValueSize))
        else evict_oldest r' target batch evicted
      else (r, (batch, evicted))
  end.

Lemma runs_lru_at s l k p l1 l2 (Q : Cache -> key * ValueProperties -> Prop) :
  mutable_cache_lru_ s = Some l -> linked l (l1 ++ (k, p) :: l2) -> Q s (k, p) -> runs (lru_at (Some k)) s Q.
Proof.
  intros El Hl HQ. unfold lru_at. rstep. rstep. rewrite El. eapply runs_lift; [|done]. cbn [mbind option_bind].
  unfold iterator_value. cbn [mbind option_bind]. by rewrite (linked_lookup _ _ _ _ _ Hl).
Qed.

Lemma runs_lru_erase pk s l max l1 k p l2 (Q : Cache -> option key -> Prop) : ok pk s ->
  mutable_cache_lru_ s = Some l -> repr one_cost l (mkSpec max (l1 ++ (k, p) :: l2)) ->
  (forall l', repr one_cost l' (mkSpec max (l1 ++ l2)) -> ok pk (set_lru (Some l') s) -> keeps pk s (set_lru (Some l') s) ->
     Q (set_lru (Some l') s) (hd_key l2)) ->
  runs (lru_erase (Some k)) s Q.
Proof.
  intros Hs El Hr HQ. unfold lru_erase. rstep. rstep. rewrite El.
  destruct (Erase_iterator_client one_cost one_cost_nonneg l max l1 k p l2 Hr) as (l' & E & Hr').
  rstep. eapply runs_lift; [cbn [mbind option_bind]; exact E|]. rstep. rstep. rstep.
  destruct (ok_set_lru pk s l' Hs) as [? ?]; [|by apply HQ].
  eapply lru_ok_intro; [exact Hr'|]. pose proof (lru_ok_elim _ l _ (ok_lru pk s l Hs El) Hr) as Hn.
  intros x Ex Hx. apply (Hn x Ex). cbn [spec_list] in *. rewrite !fmap_app, fmap_cons, !elem_of_app, elem_of_cons in *. tauto.
Qed.

Lemma evict_data_loop_spec pk target : forall r fuel s l max batch evicted,
  ok pk s -> mutable_cache_lru_ s = Some l -> repr one_cost l (mkSpec max (reverse r)) -> (length r <= fuel)%nat ->
  runs (evict_data_loop fuel (hd_key r) target batch evicted) s (fun s' a =>
    ok pk s' /\ keeps pk s s' /\ quiet s s' /\ a = snd (evict_oldest r target batch evicted) /\
    exists l', mutable_cache_lru_ s' = Some l' /\
      repr one_cost l' (mkSpec max (reverse (fst (evict_oldest r target batch evicted))))).
Proof.
  induction r as [|[k p] r IH]; intros fuel s l max batch evicted Hs El Hr Hf.
  - destruct fuel; cbn [evict_data_loop hd_key head fmap option_fmap option_map evict_oldest]; rstep; split_and!; try done; by exists l.
  - destruct fuel as [|fuel]; [cbn in Hf; lia|]. cbn [evict_data_loop hd_key head fmap option_fmap option_map fst evict_oldest].
    destruct (evicted <? target); cbn [negb]; [|rstep; split_and!; try done; by exists l].
    rewrite reverse_cons in Hr. rstep. pose proof (loose_linked _ _ _ (repr_list _ _ _ Hr)) as Hl.
    eapply runs_lru_at; [done|exact Hl|]. cbn beta iota zeta.
    set (ev1 := u64 (evicted + slen k + props_size p)). set (b1 := batch ++ [BDelete k]).
    destruct (if IsExpiryValid (props_expiry p) then _ else (b1, ev1)) as [b2 ev2] eqn:E2.
    rstep. apply (runs_memory_remove pk); [done|]. intros m Hs1 K1 Q1. rstep.
    eapply runs_lru_erase; [exact Hs1|exact El|exact Hr|]. intros l' Hr' Hs2 K2. rewrite app_nil_r in Hr'.
    unfold lru_rbegin. rstep. rstep. rstep. eapply runs_lift; [done|].
    unfold cache_rbegin. rewrite (linked_last _ _ (loose_linked _ _ _ (repr_list _ _ _ Hr'))). cbn [spec_list].
    replace (last_key (reverse r)) with (hd_key r) by (unfold last_key, hd_key; by rewrite last_reverse).
    cbn [length] in Hf.
    eapply runs_mono; [apply (IH fuel _ l' max b2 ev2); [exact Hs2|done|exact Hr'|lia]|].
    intros s' a (H1 & H2 & Hm & H3 & H4). split; [done|]. split; [by do 2 (etransitivity; [eassumption|])|].
    split; [transitivity (set_memory m s); [done|]; by transitivity (set_lru (Some l') (set_memory m s)); [split|]|]. destruct (IsExpiryValid (props_expiry p)); injection E2 as <- <-; done.
Qed.

(** What a run of [EvictExpiredDataPortion] leaves of the list. *)
Fixpoint evict_expired (now : Z) (l : list (key * ValueProperties)) (target : Z) (batch : list batch_op) (evicted : Z)
  : list (key * ValueProperties) * (list batch_op * Z) :=
  match l with
  | [] => ([], (batch, evicted))
  | (k, p) :: l' =>
      if evicted <? target then
        if CheckExpired now p then
          evict_expired now l' target (batch ++ [BDelete k; BDelete (CreateExpiryKey k)])
            (u64 (evicted + slen k + props_size p + slen (CreateExpiryKey k) + kExpiryValueSize))
        else let '(rest, r) := evict_expired now l' target batch evicted in ((k, p) :: rest, r)
      else (l, (batch, evicted))
  end.

Lemma evict_expired_loop_spec pk now target : forall l2 fuel s l max l1 batch evicted,
  ok pk s -> mutable_cache_lru_ s = Some l -> repr one_cost l (mkSpec max (l1 ++ l2)) -> (length l2 <= fuel)%nat ->
  runs (evict_expired_loop fuel now (hd_key l2) target batch evicted) s (fun s' a =>
    ok pk s' /\ keeps pk s s' /\ quiet s s' /\ a = snd (evict_expired now l2 target batch evicted) /\
    exists l', mutable_cache_lru_ s' = Some l' /\
      repr one_cost l' (mkSpec max (l1 ++ fst (evict_expired now l2 target batch evicted)))).
Proof.
  induction l2 as [|[k p] l2 IH]; intros fuel s l max l1 batch evicted Hs El Hr Hf.
  - destruct fuel; cbn [evict_expired_loop hd_key head fmap option_fmap option_map evict_expired]; rstep; split_and!; try done; by exists l.
  - destruct fuel as [|fuel]; [cbn in Hf; lia|]. cbn [length] in Hf.
    cbn [evict_expired_loop hd_key head fmap option_fmap option_map fst evict_expired].
    destruct (evicted <? target); cbn [negb]; [|rstep; split_and!; try done; by exists l].
    rstep. pose proof (loose_linked _ _ _ (repr_list _ _ _ Hr)) as Hl.
    eapply runs_lru_at; [done|exact Hl|]. cbn beta iota zeta. destruct (CheckExpired now p); cbn [negb].
    + rstep. apply (runs_memory_remove pk); [done|]. intros m Hs1 K1 Q1. rstep.
      eapply runs_lru_erase; [exact Hs1|exact El|exact Hr|]. intros l' Hr' Hs2 K2.
      eapply runs_mono; [eapply (IH fuel _ l'); [exact Hs2|done|exact Hr'|lia]|].
      intros s' a (H1 & H2 & Hm & H3 & H4). split; [done|]. split; [by do 2 (etransitivity; [eassumption|])|].
      split; [|done]. transitivity (set_memory m s); [done|]. by transitivity (set_lru (Some l') (set_memory m s)); [split|].
    + unfold lru_next. rstep. rstep. rstep. rewrite El.
      eapply runs_lift; [cbn [mbind option_bind]; exact (iterator_next_client _ _ _ _ _ Hl)|].
      eapply runs_mono; [eapply (IH fuel s l max (l1 ++ [(k, p)])); [done|done|by rewrite <- app_assoc|lia]|].
      intros s' a (H1 & H2 & Hm & H3 & l' & H4 & H5). destruct (evict_expired now l2 target batch evicted) as [rest r].
      split_and!; try done. exists l'. cbn [fst] in *. by rewrite <- app_assoc in H5.
Qed.

(** Both of them erase keys of the list only, and nothing when nothing is evicted. *)
Record evicts (l l' : list (key * ValueProperties)) (batch batch' : list batch_op) (ev ev' : Z) : Prop := {
  evicts_batch : exists dels, batch' = batch ++ dels /\
    Forall (fun o => exists k, k ∈ l.*1 /\ (o = BDelete k \/ o = BDelete (CreateExpiryKey k))) dels;
  evicts_less : (length l' < length l)%nat \/ l' = l /\ ev' = ev }.

Lemma evicts_refl l batch ev : evicts l l batch batch ev ev.
Proof. split; [|by right]. exists []. by rewrite app_nil_r. Qed.

Lemma evicts_cons k p l l' batch batch1 batch' ev ev1 ev' dels1 :
  batch1 = batch ++ dels1 -> Forall (fun o => o = BDelete k \/ o = BDelete (CreateExpiryKey k)) dels1 ->
  evicts l l' batch1 batch' ev1 ev' -> evicts ((k, p) :: l) l' batch batch' ev ev'.
Proof.
  intros -> H1 [(dels & -> & H2) Hl]. split.
  - exists (dels1 ++ dels). rewrite app_assoc. split; [done|]. apply Forall_app. split.
    + eapply Forall_impl; [exact H1|]. intros o Ho. exists k. split; [left|done].
    + eapply Forall_impl; [exact H2|]. intros o (k' & Hk & Ho). exists k'. split; [by right|done].
  - left. cbn [length]. destruct Hl as [|[-> _]]; lia.
Qed.

Lemma evict_oldest_evicts target r : forall batch ev,
  evicts r (fst (evict_oldest r target batch ev)) batch (fst (snd (evict_oldest r target batch ev)))
    ev (snd (snd (evict_oldest r target batch ev))).
Proof.
  induction r as [|[k p] r IH]; intros batch ev; cbn [evict_oldest]; [apply evicts_refl|].
  destruct (ev <? target); [|apply evicts_refl]. destruct (IsExpiryValid _).
  - eapply (evicts_cons _ _ _ _ _ _ _ _ _ _ [BDelete k; BDelete (CreateExpiryKey k)]); [| |apply IH].
    + by rewrite <- app_assoc.
    + repeat (apply Forall_cons_2; [auto|]); apply Forall_nil_2.
  - eapply (evicts_cons _ _ _ _ _ _ _ _ _ _ [BDelete k]); [done| |apply IH]. repeat (apply Forall_cons_2; [auto|]); apply Forall_nil_2.
Qed.

Lemma evict_expired_evicts now target l : forall batch ev,
  evicts l (fst (evict_expired now l target batch ev)) batch (fst (snd (evict_expired now l target batch ev)))
    ev (snd (snd (evict_expired now l target batch ev))).
Proof.
  induction l as [|[k p] l IH]; intros batch ev; cbn [evict_expired]; [apply evicts_refl|].
  destruct (ev <? target); [|apply evicts_refl]. destruct (CheckExpired now p).
  - eapply (evicts_cons _ _ _ _ _ _ _ _ _ _ [BDelete k; BDelete (CreateExpiryKey k)]); [done| |apply IH].
    repeat (apply Forall_cons_2; [auto|]); apply Forall_nil_2.
  - specialize (IH batch ev). destruct (evict_expired now l target batch ev) as [rest [b e]]. cbn [fst snd] in *.
    destruct IH as [(dels & -> & Hd) Hl]. split.
    + exists dels. split; [done|]. eapply Forall_impl; [exact Hd|]. intros o (k' & Hk & Ho). exists k'. split; [by right|done].
    + destruct Hl as [|[-> ->]]; [left; cbn [length]; lia|by right].
Qed.

Lemma evicts_ok pk s l l' batch' ev ev' : ok pk s -> apart pk l ->
  evicts l l' [] batch' ev ev' -> Forall (op_ok_ pk) batch'.
Proof.
  intros Hs Hn [(dels & -> & Hd) _]. cbn [app]. eapply Forall_impl; [exact Hd|].
  intros o (k & Hk & [->| ->]); cbn [op_ok_]; [|by apply (not_watched_expiry pk s)].
  intros <-. by apply (Hn k).
Qed.

(** The number of keys in the LRU list. *)
Definition lru_len s : nat := match mutable_cache_lru_ s with Some l => size (map_ l) | None => O end.

(** An eviction only deletes entries. *)
Definition is_delete (o : batch_op) : Prop := match o with BDelete _ => True | BPut _ _ => False end.

Lemma evicts_deletes l l' batch' ev ev' : evicts l l' [] batch' ev ev' -> Forall is_delete batch'.
Proof.
  intros [(dels & -> & Hd) _]. eapply Forall_impl; [exact Hd|]. by intros o (k & _ & [->| ->]).
Qed.

(** What [MaybeEvictData] needs to know of its two methods. *)
Definition evict_method_ok pk (method : Z -> state Cache (list batch_op * Z)) : Prop :=
  forall target s, ok pk s -> is_Some (mutable_cache_lru_ s) ->
    runs (method target) s (fun s' a => ok pk s' /\ keeps pk s s' /\ quiet s s' /\
      Forall (op_ok_ pk) (fst a) /\ Forall is_delete (fst a) /\
      ((lru_len s' < lru_len s)%nat \/ lru_len s' = lru_len s /\ snd a = 0)).

Lemma lru_len_repr s l sp : mutable_cache_lru_ s = Some l -> repr one_cost l sp -> lru_len s = length (spec_list sp).
Proof. intros E Hr. unfold lru_len. rewrite E. apply linked_size. exact (loose_linked _ _ _ (repr_list _ _ _ Hr)). Qed.

Lemma EvictExpiredDataPortion_ok pk now : evict_method_ok pk (EvictExpiredDataPortion now).
Proof.
  intros target s Hs [l El]. unfold EvictExpiredDataPortion, lru_items. rstep. rstep. rewrite El. rstep.
  pose proof (ok_lru pk s l Hs El) as Hl0. pose proof Hl0 as [[[max li] Hr] _].
  eapply runs_lift; [done|]. cbv beta. rstep. rstep. rstep. rstep. rewrite El.
  pose proof (loose_linked _ _ _ (repr_list _ _ _ Hr)) as Hl. cbn [spec_list] in Hl.
  unfold cache_begin. rewrite (linked_first _ _ Hl), (linked_size _ _ Hl).
  eapply runs_mono; [eapply (evict_expired_loop_spec pk now target li _ s l max []); [done|done|exact Hr|done]|].
  intros s' a (H1 & H2 & Hm & -> & l' & H4 & H5). cbn [app] in H5. pose proof (evict_expired_evicts now target li [] 0) as He.
  split; [done|]. split; [done|]. split; [done|]. split; [|split; [by eapply evicts_deletes|]].
  - eapply (evicts_ok pk s); [done| |exact He]. by apply (lru_ok_elim _ l (mkSpec max li)).
  - rewrite (lru_len_repr s' l' _ H4 H5), (lru_len_repr s l _ El Hr). cbn [spec_list].
    destruct (evicts_less _ _ _ _ _ _ He) as [|[-> ->]]; auto.
Qed.

Lemma EvictDataPortion_run pk target s l sp : ok pk s -> mutable_cache_lru_ s = Some l -> repr one_cost l sp ->
  runs (EvictDataPortion target) s (fun s' a =>
    ok pk s' /\ keeps pk s s' /\ quiet s s' /\ a = snd (evict_oldest (reverse (spec_list sp)) target [] 0) /\
    exists l', mutable_cache_lru_ s' = Some l' /\
      repr one_cost l' (mkSpec (spec_max sp) (reverse (fst (evict_oldest (reverse (spec_list sp)) target [] 0))))).
Proof.
  intros Hs El Hr. unfold EvictDataPortion, lru_items, lru_rbegin. rstep. rstep. rstep. rewrite El.
  eapply runs_lift; [done|]. cbv beta. rstep. rstep. rstep. rstep. rewrite El.
  pose proof (loose_linked _ _ _ (repr_list _ _ _ Hr)) as Hl.
  unfold cache_rbegin. rewrite (linked_last _ _ Hl), (linked_size _ _ Hl).
  replace (last_key (spec_list sp)) with (hd_key (reverse (spec_list sp)))
    by (unfold last_key, hd_key; rewrite <- last_reverse, reverse_involutive; done).
  eapply evict_data_loop_spec; [done|done| |by rewrite length_reverse].
  rewrite reverse_involutive. by destruct sp.
Qed.

Lemma EvictDataPortion_ok pk : evict_method_ok pk EvictDataPortion.
Proof.
  intros target s Hs [l El]. pose proof (ok_lru pk s l Hs El) as Hok. pose proof Hok as [[sp Hr] _].
  eapply runs_mono; [by eapply EvictDataPortion_run|].
  intros s' a (H1 & H2 & Hm & -> & l' & H4 & H5). pose proof (evict_oldest_evicts target (reverse (spec_list sp)) [] 0) as He.
  split; [done|]. split; [done|]. split; [done|]. split; [|split; [by eapply evicts_deletes|]].
  - eapply (evicts_ok pk s); [done| |exact He]. intros x Ex. rewrite fmap_reverse, elem_of_reverse.
    revert x Ex. by apply (lru_ok_elim _ l).
  - rewrite (lru_len_repr s' l' _ H4 H5), (lru_len_repr s l _ El Hr). cbn [spec_list]. rewrite length_reverse.
    destruct (evicts_less _ _ _ _ _ _ He) as [Hlt|[-> ->]]; rewrite length_reverse in *; auto.
Qed.

Lemma s64_range z : - 2^63 <= s64 z < 2^63.
Proof. unfold s64. pose proof (u64_range z) as Hu. unfold is_u64 in Hu. destruct (Z.ltb_spec (u64 z) (2^63)); lia. Qed.

Lemma u64_zero z : - 2^63 <= z < 2^63 -> u64 z = 0 -> z = 0.
Proof. intros Hz E. unfold u64 in E. apply Z.mod_divide in E as [q Hq]; lia. Qed.

Lemma deletes_shrink (batch : list batch_op) (m : gmap key bytes) k : Forall is_delete batch -> m !! k = None -> apply_batch batch m !! k = None.
Proof.
  intros Hb. revert m. induction Hb as [|o batch Ho _ IH]; intros m Hm; [done|]. apply IH. destruct o as [|k']; [done|].
  cbn [apply_op]. apply lookup_delete_None. auto.
Qed.

(** Entries and values in memory go, but none comes. *)
Record shrinks s s' : Prop := {
  shrinks_entries : forall k, lookup_mutable s k = None -> lookup_mutable s' k = None;
  shrinks_memory : forall k v, mem_value s k v -> mem_value s' k v }.

#[local] Instance shrinks_preorder : PreOrder shrinks.
Proof. split; [by split|]. intros s1 s2 s3 [] []. split; auto. Qed.

Lemma mem_value_same s s' k v : memory_cache_ s' = memory_cache_ s -> mem_value s k v -> mem_value s' k v.
Proof. intros E. unfold mem_value. by rewrite E. Qed.

(** The loop of [MaybeEvictData] ends: a round that goes on has evicted a key. *)
Lemma call_evict_method_ok pk method : evict_method_ok pk method ->
  forall fuel left evicted s, ok pk s -> is_Some (mutable_cache_ s) -> is_Some (mutable_cache_lru_ s) ->
    - 2^63 <= left < 2^63 -> (lru_len s < fuel)%nat ->
    runs (call_evict_method fuel method left evicted) s (fun s' a => ok pk s' /\ keeps pk s s' /\ shrinks s s' /\ - 2^63 <= fst a < 2^63).
Proof.
  intros Hm. induction fuel as [|fuel IH]; intros left evicted s Hs Hc Hlru Hleft Hf; [lia|].
  cbn [call_evict_method]. rstep. rstep. set (target := if u64 left <? _ then _ else _). rstep.
  eapply runs_mono; [by apply Hm|]. intros s1 [batch size_] (Hs1 & K1 & [Hm1 Q1] & Hb & Hdel & Hlen). cbn [fst snd] in *. rstep.
  eapply runs_apply_batch; [done|by apply (keeps_mutable _ _ _ K1)|done|]. intros s2 r Hs2 K2 _ El Em Hm2.
  assert (K : keeps pk s s2) by by transitivity s1.
  assert (Hsh : shrinks s s2).
  { split; [|intros k v Hv; by apply (mem_value_same s1), Q1].
    intros k Hk. unfold lookup_mutable in *. rewrite <- (mutable_contents_same s s1 Hm1) in Hk. rewrite Hm2.
    destruct (IsSuccessful r); [by apply deletes_shrink|done]. }
  destruct (IsSuccessful r); cbn [negb]; [|by rstep].
  destruct ((target <=? size_) && (0 <? s64 (left - size_))) eqn:E; [|rstep; split; [done|]; split; [done|]; split; [done|apply s64_range]].
  apply andb_true_iff in E as [E1 E2].
  assert (Hless : (lru_len s2 < lru_len s)%nat).
  { unfold lru_len. rewrite El. fold (lru_len s1). fold (lru_len s). destruct Hlen as [|[_ ->]]; [done|]. exfalso.
    pose proof (good_portion _ (ok_good _ _ Hs)). pose proof (u64_range left) as Hu. unfold is_u64 in Hu.
    assert (u64 left = 0) as E0 by (unfold target in E1; destruct (Z.ltb_spec (u64 left) (eviction_portion_ s)); lia).
    rewrite (u64_zero left Hleft E0) in E2. done. }
  eapply runs_mono; [apply IH|].
  - done.
  - by apply (keeps_mutable _ _ _ K).
  - by apply (keeps_lru _ _ _ K).
  - apply s64_range.
  - lia.
  - intros s3 a (? & K3 & S3 & ?). split; [done|]. split; [by transitivity s2|]. split; [|done]. by transitivity s2.
Qed.

Lemma runs_MaybeEvictData pk now s : ok pk s ->
  runs (MaybeEvictData now) s (fun s' _ => ok pk s' /\ keeps pk s s' /\ shrinks s s').
Proof.
  intros Hs. assert (shrinks s s) by reflexivity. unfold MaybeEvictData. rstep. rstep. rstep. rstep.
  destruct (mutable_cache_ s) as [c|] eqn:Ec; [|by rstep]. destruct (mutable_cache_lru_ s) as [l|] eqn:El; [|by rstep].
  rstep. rstep. rstep. rstep. destruct (SFltb _ _); [by rstep|]. unfold lru_items. rstep. rstep. rstep. rstep. rstep.
  fold (lru_len s). eapply runs_mono.
  { apply (call_evict_method_ok pk _ (EvictExpiredDataPortion_ok pk now)); [done|by exists c|by exists l|apply s64_range|lia]. }
  intros s1 [left1 ev1] (Hs1 & K1 & S1 & Hl1). cbn [fst] in Hl1. destruct (0 <? left1); [|by rstep].
  rstep. rstep. rstep. rstep. rstep. fold (lru_len s1). eapply runs_mono.
  { apply (call_evict_method_ok pk _ (EvictDataPortion_ok pk)); [done| | |done|lia].
    - apply (keeps_mutable _ _ _ K1). by exists c.
    - apply (keeps_lru _ _ _ K1). by exists l. }
  intros s2 [left2 ev2] (Hs2 & K2 & S2 & _). rstep. split; [done|]. split; by transitivity s1.
Qed.

(** ** The list of protected keys in the database *)

Lemma serialize_defined keys : keys_ok keys -> exists value, serialize (protected_data_ keys) = Some value.
Proof.
  intros [_ Hk]. revert Hk. induction (protected_data_ keys) as [|k ks IH]; intros Hk; [by exists []|].
  apply Forall_cons in Hk as [Hk Hks]. destruct (IH Hks) as [value E]. cbn [serialize].
  destruct k as [|x k _] using rev_ind; [done|]. rewrite last_snoc. cbn [mbind option_bind]. rewrite E. by eexists.
Qed.

Lemma runs_MaybeUpdatedProtectedKeys pk s (Q : Cache -> list batch_op * Z -> Prop) : ok pk s ->
  (forall s' ops z, ok pk s' -> keeps pk s s' -> mutable_cache_ s' = mutable_cache_ s -> mutable_cache_lru_ s' = mutable_cache_lru_ s ->
     memory_cache_ s' = memory_cache_ s ->
     Forall (op_ok_ pk) ops -> (forall o, o ∈ ops -> o = BDelete kProtectedKeys \/ exists v, o = BPut kProtectedKeys v) -> Q s' (ops, z)) ->
  runs MaybeUpdatedProtectedKeys s Q.
Proof.
  intros Hs HQ. unfold MaybeUpdatedProtectedKeys. rstep. rstep.
  destruct (IsDirty (protected_keys_ s)).
  2: { rstep. apply HQ; try done. by intros o ?%elem_of_nil. }
  destruct (serialize_defined _ (good_keys _ (ok_good _ _ Hs))) as [value E].
  rstep. eapply runs_lift; [unfold Serialize; rewrite E; done|]. rstep. rstep.
  destruct (ok_set_keys pk s (mkList (protected_data_ (protected_keys_ s)) (Z.of_nat (length value)) false) Hs eq_refl) as [Hs' K].
  pose proof (not_watched_own pk s Hs) as Hpk.
  destruct (slen value >? 0); [|destruct (_ >? 0)]; rstep; apply HQ; try done.
  - repeat (apply Forall_cons_2; [|]); [|apply Forall_nil_2]. split_and!; [done|done|done|by intros []].
  - intros o ->%list_elem_of_singleton. eauto.
  - apply Forall_cons_2; [done|apply Forall_nil_2].
  - intros o ->%list_elem_of_singleton. eauto.
  - by intros o ?%elem_of_nil.
Qed.

(** ** The operations *)

(** A key and a value that a user may write, not those of the watched entry. *)
Definition write_ok_ pk now k (value : bytes) expiry : Prop :=
  Some k <> pk /\ IsExpiryKey k = false /\ slen value < 2^63 /\ (IsExpiryValid expiry = true -> - 2^63 <= expiry + now < 2^63) /\
  on_disk k value.

Lemma write_batch_ok pk s now k value expiry : ok pk s -> write_ok_ pk now k value expiry ->
  Forall (op_ok_ pk) (BPut k value :: (if IsExpiryValid expiry then [fst (StoreExpiry k (expiry + now))] else [])).
Proof.
  intros Hs (Hk & Hx & Hv & He & Hd). apply Forall_cons_2.
  - split_and!; [done|done| |done]. congruence.
  - destruct (IsExpiryValid expiry); [|apply Forall_nil_2]. apply Forall_cons_2; [|apply Forall_nil_2]. cbn [StoreExpiry fst op_ok_].
    specialize (He eq_refl). split_and!.
    + by apply (not_watched_expiry pk s).
    + intros _. by apply to_string_signed_short.
    + intros _. rewrite stoll_to_string by done. by eexists.
    + intros [E _]. by rewrite IsExpiryKey_CreateExpiryKey in E.
Qed.

End invariant.
