(* ===== verification/DefaultCacheOperations.v ===== *)
(** * Reading and writing through the default cache

    Every operation of [DefaultCache] ends and keeps the invariant and the
    protected entries; a value that was written is read; an eviction takes the
    least recently used keys; opening gives a state of the invariant. *)

From Stdlib Require Import Sorted SpecFloat.
From S2P Require Import Prelude LruCache InMemoryCache ProtectedKeyList DiskCache DefaultCache DefaultCacheInvariant.

Section operations.
Context {DB : Type} `{LevelDBLaws DB} {A : Type} `{P : Policy A}.
Abbreviation Cache := (DefaultCache (DB := DB) (A := A)).
Abbreviation safe := (DefaultCacheInvariant.safe (DB := DB) (A := A)).
Implicit Types (s : Cache) (k : key) (pk : option key).

(** The key is in the LRU list, when there is one, or protected. *)
Definition reachable s k : Prop :=
  forall l, mutable_cache_lru_ s = Some l -> IsProtected (protected_keys_ s) k = true \/ is_Some (map_ l !! k).

(** What [PutMutableCache] leaves in the mutable cache when it succeeds. *)
Record stored s s' now k value expiry : Prop := {
  stored_value : k <> kProtectedKeys -> lookup_mutable s' k = Some value;
  stored_expiry : IsExpiryValid expiry = true ->
    lookup_mutable s' (CreateExpiryKey k) = Some (to_string_signed (expiry + now));
  stored_no_expiry : IsExpiryValid expiry = false -> lookup_mutable s (CreateExpiryKey k) = None ->
    lookup_mutable s' (CreateExpiryKey k) = None;
  stored_reachable : reachable s' k }.

Lemma apply_batch_app (b1 b2 : list batch_op) (m : gmap key bytes) : apply_batch (b1 ++ b2) m = apply_batch b2 (apply_batch b1 m).
Proof. apply foldl_app. Qed.

Lemma apply_own (ops : list batch_op) (m : gmap key bytes) k :
  (forall o, o ∈ ops -> o = BDelete kProtectedKeys \/ exists v, o = BPut kProtectedKeys v) -> k <> kProtectedKeys ->
  apply_batch ops m !! k = m !! k.
Proof.
  intros Ho Hk. revert m. induction ops as [|o ops IH]; intros m; [done|]. unfold apply_batch in *. cbn [foldl].
  rewrite IH by (intros o' Ho'; apply Ho; by right). destruct (Ho o ltac:(left)) as [->|[v ->]]; cbn [apply_op].
  - by rewrite lookup_delete_ne.
  - by rewrite lookup_insert_ne.
Qed.

Lemma CreateExpiryKey_ne k : k <> CreateExpiryKey k.
Proof. intros E. apply (f_equal length) in E. unfold CreateExpiryKey in E. rewrite length_app in E. cbn in E. lia. Qed.

(** The list after an assignment: the key in front of some of the others. *)
Lemma evict_front max k props (li : list (key * ValueProperties)) : 1 <= max ->
  exists l1, fst (spec_evict one_cost max ((k, props) :: li)) = (k, props) :: l1 /\ forall x, x ∈ l1 -> x ∈ li.
Proof.
  intros Hmax. destruct (spec_evict_head one_cost one_cost_nonneg max k props li) as [l1 E1]; [done|].
  exists l1. split; [done|]. intros x Hx.
  destruct (spec_evict_split one_cost max ((k, props) :: li)) as (n & E2 & _); [lia|].
  rewrite E2 in E1. cbn [fst] in E1. destruct n as [|n]; [done|]. cbn [take firstn] in E1. injection E1 as <-.
  by apply (elem_of_sublist _ _ x Hx), sublist_take.
Qed.

Lemma front_keys k props (l1 li : list (key * ValueProperties)) x : (forall y, y ∈ l1 -> y ∈ li) ->
  x ∈ ((k, props) :: l1).*1 -> x = k \/ x ∈ li.*1.
Proof.
  intros Hl. rewrite fmap_cons, elem_of_cons. intros [->|(y & -> & Hy)%list_elem_of_fmap]; [by left|right].
  apply list_elem_of_fmap_2. auto.
Qed.

Lemma insert_keys sp k props it inserted :
  (forall old, assoc k (spec_list sp) = Some old -> 1 <= spec_max sp) ->
  snd (spec_step one_cost (OpInsertOrAssign k props) sp) = RInsert it inserted ->
  let li := spec_list (fst (fst (spec_step one_cost (OpInsertOrAssign k props) sp))) in
  (forall x, x ∈ li.*1 -> x = k \/ x ∈ (spec_list sp).*1) /\
  (bool_decide (it = None) && negb inserted = false -> k ∈ li.*1).
Proof.
  intros Ha Hret. revert Hret. cbn [spec_step]. destruct (assoc k (spec_list sp)) as [old|] eqn:Ea.
  - destruct (evict_front (spec_max sp) k props (remove_key k (spec_list sp)) (Ha old eq_refl)) as (l1 & E1 & Hl1).
    destruct (spec_evict one_cost (spec_max sp) _) as [l2 e]. cbn [fst snd spec_list] in *. subst l2.
    intros _. split; [|intros _; rewrite fmap_cons; left].
    intros x [->|Hx]%(front_keys _ _ _ (remove_key k (spec_list sp))); [by left| |done]. right. by apply (remove_key_keys _ k).
  - destruct (Z.gtb_spec (one_cost props) (spec_max sp)) as [Hc|Hc]; cbn [fst snd].
    + intros [= <- <-]. split; [|done]. intros x Hx. by right.
    + destruct (evict_front (spec_max sp) k props (spec_list sp)) as (l1 & E1 & Hl1); [unfold one_cost in Hc; lia|].
      destruct (spec_evict one_cost (spec_max sp) _) as [l2 e]. cbn [fst snd spec_list] in *. subst l2.
      intros _. split; [|intros _; rewrite fmap_cons; left]. intros x Hx. by apply (front_keys k props l1).
Qed.

Lemma lru_insert pk l sp k props : repr one_cost l sp -> apart pk (spec_list sp) -> Some k <> pk ->
  exists l' e it inserted, InsertOrAssign one_cost l k props = Some (l', e, (it, inserted)) /\ lru_ok pk l' /\
    (bool_decide (it = None) && negb inserted = false -> is_Some (map_ l' !! k)).
Proof.
  intros Hr Hn Ep. destruct (InsertOrAssign_client one_cost one_cost_nonneg l sp k props Hr) as (l' & [it inserted] & E & Eret & Hr'); [done|].
  cbn [fst snd] in Eret. destruct (insert_keys sp k props it inserted) as [Hl1 Hl2]; [|done|].
  { intros old Ha. pose proof (repr_bound _ _ _ Hr) as Hb. rewrite (loose_size _ _ _ (repr_list _ _ _ Hr)) in Hb.
    apply (assoc_elem _ _ _ (repr_NoDup _ _ _ Hr)) in Ha. apply list_elem_of_split in Ha as (u1 & u2 & Eu).
    rewrite (repr_max _ _ _ Hr), Eu, total_middle in Hb. pose proof (total_nonneg one_cost one_cost_nonneg (u1 ++ u2)).
    unfold one_cost at 1 in Hb. lia. }
  eexists l', _, it, inserted. split; [exact E|]. split.
  - eapply lru_ok_intro; [exact Hr'|]. intros x Ex [->|Hx]%Hl1; [congruence|by apply (Hn x Ex)].
  - intros Hb. apply (repr_keys _ _ k Hr'). auto.
Qed.

Lemma runs_lru_insert pk s k props (Q : Cache -> Outcome unit -> Prop) : ok pk s ->
  (forall s' r, ok pk s' -> keeps pk s s' -> mutable_cache_ s' = mutable_cache_ s -> memory_cache_ s' = memory_cache_ s ->
     (r = inl tt -> reachable s' k) -> Q s' r) ->
  runs (lru ← gets mutable_cache_lru_;
        keys ← gets protected_keys_;
        match lru with
        | Some l =>
            if negb (IsProtected keys k) then
              '(l, _, (it, inserted)) ← lift (InsertOrAssign one_cost l k props);
              modify (set_lru (Some l));;
              if bool_decide (it = None) && negb inserted then mret (inr CacheIO) else mret (inl tt)
            else mret (inl tt)
        | None => mret (inl tt)
        end) s Q.
Proof.
  intros Hs HQ. eapply runs_lru; [done| |].
  { intros El. rstep. rstep. rstep. apply HQ; try done. intros _ l El'. congruence. }
  intros l sp El Hr Hn. rstep. rstep. destruct (IsProtected (protected_keys_ s) k) eqn:Ep; cbn [negb].
  { rstep. apply HQ; try done. intros _ l' _. by left. }
  destruct (lru_insert pk l sp k props Hr Hn (not_watched_unprotected pk s k Hs Ep)) as (l' & e & it & inserted & E & Hl' & Hk).
  rstep. eapply runs_lift; [exact E|]. cbn beta iota. destruct (ok_set_lru pk s l' Hs Hl') as [Hs' K].
  rstep. rstep. destruct (bool_decide (it = None) && negb inserted) eqn:Eb; rstep; apply HQ; try done.
  intros _ l2 [= <-]. right. auto.
Qed.

Lemma runs_add_size pk s z (Q : Cache -> unit -> Prop) : ok pk s ->
  (forall s', ok pk s' -> keeps pk s s' -> mutable_cache_ s' = mutable_cache_ s -> mutable_cache_lru_ s' = mutable_cache_lru_ s ->
     memory_cache_ s' = memory_cache_ s -> protected_keys_ s' = protected_keys_ s -> protected_cache_ s' = protected_cache_ s -> Q s' tt) ->
  runs (add_size z) s Q.
Proof. intros Hs HQ. unfold add_size. rstep. destruct (ok_set_size pk s (u64 (mutable_cache_data_size_ s + z)) Hs). by apply HQ. Qed.

Lemma runs_PutMutableCache pk s now k value expiry : ok pk s -> write_ok_ pk now k value expiry ->
  runs (PutMutableCache now k value expiry) s (fun s' r => ok pk s' /\ keeps pk s s' /\
    (forall k' v, mem_value s k' v -> mem_value s' k' v) /\
    (r = inl tt -> is_Some (mutable_cache_ s) -> stored s s' now k value expiry)).
Proof.
  intros Hs Hw. unfold PutMutableCache. rstep. rstep.
  destruct (mutable_cache_ s) as [c|] eqn:Ec.
  2: { rstep. split_and!; done. }
  rstep. rstep. rstep. rstep. rstep. rstep. destruct (bool_decide _ && _); [by rstep|].
  set (expiry' := if IsExpiryValid expiry then expiry + now else expiry).
  set (batch := BPut k value :: (if IsExpiryValid expiry then [fst (StoreExpiry k (expiry + now))] else [])).
  match goal with |- runs (match ?x with pair _ _ => _ end) _ _ => destruct x as [[b0 added] e0] eqn:E0 end.
  assert (b0 = batch) as -> by (unfold batch; destruct (IsExpiryValid expiry); by injection E0 as <- _ _).
  clear E0. rstep. eapply runs_mono; [by apply runs_MaybeEvictData|]. intros s1 removed (Hs1 & K1 & Sh).
  rstep. eapply runs_MaybeUpdatedProtectedKeys; [done|].
  intros s2 ops z Hs2 K2 Em2 El2 Ey2 Hops Hown. rstep.
  assert (K02 : keeps pk s s2) by by transitivity s1.
  pose proof (write_batch_ok pk s now k value expiry Hs Hw) as Hb. fold batch in Hb.
  eapply runs_apply_batch; [done| |by apply Forall_app|].
  { apply (keeps_mutable _ _ _ K02). by exists c. }
  intros s3 r Hs3 K3 _ El3 Ey3 Em3. assert (K03 : keeps pk s s3) by by transitivity s2.
  assert (Hmem : forall k' v, mem_value s k' v -> mem_value s3 k' v).
  { intros k' v Hv. apply (mem_value_same s2), (mem_value_same s1); [done|done|]. by apply (shrinks_memory _ _ Sh). }
  destruct r as [[]|e]; [|by rstep]. cbn [IsSuccessful] in Em3.
  rstep. apply (runs_add_size pk); [done|]. intros s4 Hs4 K4 Em4 _ Ey4 _ _.
  rstep. apply (runs_add_size pk); [done|]. intros s5 Hs5 K5 Em5 _ Ey5 _ _.
  rstep. apply (runs_add_size pk); [done|]. intros s6 Hs6 K6 Em6 _ Ey6 _ _.
  eapply runs_lru_insert; [exact Hs6|]. intros s7 r Hs7 K7 Em7 Ey7 Hreach.
  split; [done|]. split; [do 4 (etransitivity; [|eassumption]); done|].
  split; [intros k' v Hv; apply (mem_value_same s3); [congruence|auto]|].
  intros Hr _. assert (Em : mutable_contents s7 = apply_batch ops (apply_batch batch (mutable_contents s1))).
  { rewrite <- apply_batch_app, <- (mutable_contents_same s1 s2), <- Em3 by done. apply mutable_contents_same. congruence. }
  unfold lookup_mutable in *. split; [| | |by apply Hreach].
  - intros Hk. unfold lookup_mutable. rewrite Em, apply_own by done. unfold batch. destruct (IsExpiryValid expiry);
      cbn [apply_batch foldl apply_op StoreExpiry fst].
    + rewrite lookup_insert_ne by (apply not_eq_sym, CreateExpiryKey_ne). apply lookup_insert_eq.
    + apply lookup_insert_eq.
  - intros Hx. unfold lookup_mutable. rewrite Em, apply_own; [|done|apply not_eq_sym; by apply not_expiry_key].
    unfold batch. rewrite Hx. cbn [apply_batch foldl apply_op StoreExpiry fst]. apply lookup_insert_eq.
  - intros Hx Hn. unfold lookup_mutable. rewrite Em, apply_own; [|done|apply not_eq_sym; by apply not_expiry_key].
    unfold batch. rewrite Hx. cbn [apply_batch foldl apply_op]. rewrite lookup_insert_ne by apply CreateExpiryKey_ne.
    by apply (shrinks_entries _ _ Sh).
Qed.

(** The expiry that a database gives for a key. *)
Definition remaining (now : Z) k (m : gmap key bytes) : Z :=
  match m !! CreateExpiryKey k with
  | Some v => if bool_decide (v <> []) then match stoll v with Some e => e - now | None => kDefaultExpiry end else kDefaultExpiry
  | None => kDefaultExpiry
  end.

Lemma GetRemainingExpiryTime_spec now k c d : database_ c = Some d -> entries_ok (contents d) ->
  GetRemainingExpiryTime now k c = Some (remaining now k (contents d)).
Proof.
  intros Ed [He _]. unfold GetRemainingExpiryTime, remaining. rewrite (DiskCache.disk_Get_spec c d _ Ed).
  destruct (contents d !! CreateExpiryKey k) as [v|] eqn:E; [|done].
  destruct (He _ v (IsExpiryKey_CreateExpiryKey k) E) as [e Ee].
  case_bool_decide; [|done]. by rewrite Ee.
Qed.

(** A remaining time is the default one, or gives an expiry in range. *)
Lemma remaining_range (now : Z) k (m : gmap key bytes) : remaining now k m = kDefaultExpiry \/ remaining now k m + now < 2^63.
Proof.
  unfold remaining. destruct (m !! CreateExpiryKey k) as [v|]; [|by left]. case_bool_decide; [|by left].
  destruct (stoll v) as [e|] eqn:E; [|by left]. apply stoll_range in E. right. lia.
Qed.

Lemma memory_expiry_ok e now : e = kDefaultExpiry \/ e + now < 2^63 -> HasExpiry e = true -> e + now < 2^63.
Proof. intros [->|He] Hx; [|done]. done. Qed.

(** A computation that leaves the memory cache alone. *)
Definition same_memory {B} (m : state Cache B) : Prop :=
  forall s s' a, m s = Some (s', a) -> memory_cache_ s' = memory_cache_ s.

Lemma runs_keep_memory {B} (m : state Cache B) s Q : same_memory m -> runs m s Q ->
  runs m s (fun s' a => Q s' a /\ memory_cache_ s' = memory_cache_ s).
Proof. intros Hm (s' & a & E & HQ). exists s', a. split; [done|]. split; [done|]. by eapply Hm. Qed.

Lemma memory_RemoveKeyLru k : same_memory (RemoveKeyLru k).
Proof.
  intros s s' a. unfold RemoveKeyLru, gets, lift, modify, mbind, state_bind, mret, state_ret, option_bind.
  cbn. destruct (mutable_cache_lru_ s) as [l|]; [|by intros [= <- _]].
  destruct (LruCache.Erase one_cost l k) as [[l' b]|]; [|done]. by intros [= <- _].
Qed.

Lemma runs_PromoteKeyLru pk s k (Q : Cache -> bool -> Prop) : ok pk s ->
  (forall s' b, ok pk s' -> keeps pk s s' -> mutable_cache_ s' = mutable_cache_ s -> memory_cache_ s' = memory_cache_ s ->
     (reachable s k -> b = true) -> Q s' b) ->
  runs (PromoteKeyLru k) s Q.
Proof.
  intros Hs HQ. unfold PromoteKeyLru. eapply runs_lru; [done|intros; rstep; by apply HQ|]. intros l sp El Hr Hn.
  destruct (lru_Find pk l sp k Hr Hn) as (l' & E & Hl').
  rstep. eapply runs_lift; [exact E|]. rstep. rstep. destruct (ok_set_lru pk s l' Hs Hl') as [Hs' K].
  rstep. rstep. rstep. apply HQ; try done. intros Hk. destruct (Hk l El) as [Hp|[b Hb]]; apply orb_true_iff; [by right|left].
  rewrite (map_assoc one_cost l sp k b Hr Hb). by apply bool_decide_eq_true.
Qed.

(** A value from a database: of the policy, with an expiry in range. *)
Definition disk_expiry (now expiry : Z) : Prop := expiry = kDefaultExpiry \/ expiry + now < 2^63.
Definition value_ok k (v : bytes) : Prop := (k <> kProtectedKeys -> slen v < 2^63) /\ (ordinary k -> on_disk k v).

Definition found_ok now k (value : option bytes) (expiry : Z) : Prop :=
  forall v, value = Some v -> value_ok k v /\ disk_expiry now expiry.

Lemma Get_disk_ok (c : DiskCache DB) k v : disk_ok c -> DiskCache.Get c k = inl v -> value_ok k v.
Proof.
  intros (d & Ed & [_ H2 H3]). rewrite (DiskCache.disk_Get_spec c d k Ed). destruct (contents d !! k) as [v'|] eqn:E; [|done].
  case_bool_decide; [|done]. intros [= <-]. split; eauto.
Qed.

(** The first half of [GetFromDiskCache]: the protected cache. *)
Lemma runs_protected pk s now k (Q : Cache -> option (bytes * Z) -> Prop) : ok pk s ->
  (forall found, (forall v e, found = Some (v, e) -> found_ok now k (Some v) e) ->
     (protected_cache_ s = None -> found = None) -> Q s found) ->
  runs (protected_cache ← gets protected_cache_;
        match protected_cache with
        | Some c =>
            match DiskCache.Get c k with
            | inl value => expiry ← lift (GetRemainingExpiryTime now k c);
                           mret (if expiry >? 0 then Some (value, expiry) else None)
            | inr _ => mret None
            end
        | None => mret None
        end) s Q.
Proof.
  intros Hs HQ. rstep. rstep. destruct (protected_cache_ s) as [c|] eqn:Ec; [|rstep; by apply HQ].
  pose proof (good_protected s (ok_good _ _ Hs) c Ec) as Hc.
  destruct (DiskCache.Get c k) as [v|e] eqn:Eg; [|rstep; by apply HQ].
  destruct Hc as (d & Ed & Hd) eqn:Hc'. clear Hc'. rstep. eapply runs_lift; [by apply (GetRemainingExpiryTime_spec now k c d)|]. rstep.
  apply HQ; [|done]. destruct (_ >? 0); [|done]. intros v' e [= <- <-] v2 [= <-]. split; [by eapply Get_disk_ok|apply remaining_range].
Qed.

(** What [GetFromDiskCache] finds: an entry of the mutable cache that is reachable
    and not expired, or protected, when there is no protected cache. *)
Definition reads_back s now k (r : Outcome unit * option bytes) : Prop :=
  protected_cache_ s = None -> is_Some (mutable_cache_ s) -> reachable s k ->
  0 < remaining now k (mutable_contents s) \/ IsProtected (protected_keys_ s) k = true ->
  forall v, lookup_mutable s k = Some v -> v <> [] -> r = (inl tt, Some v).

Definition disk_result s now k s' (a : Outcome unit * option bytes * Z) : Prop :=
  memory_cache_ s' = memory_cache_ s /\ found_ok now k (snd (fst a)) (snd a) /\ reads_back s now k (fst a).

Lemma runs_disk_Get pk s s' c d now k (promoted : bool) :
  mutable_cache_ s = Some c -> database_ c = Some d -> entries_ok (contents d) ->
  ok pk s' -> keeps pk s s' -> memory_cache_ s' = memory_cache_ s -> (reachable s k -> promoted = true) ->
  runs (if negb promoted then mret (inr NotFound, None, remaining now k (contents d))
        else match DiskCache.Get c k with
             | inl value => mret (inl tt, Some value, remaining now k (contents d))
             | inr e => mret (inr e, None, remaining now k (contents d))
             end) s' (fun s' a => ok pk s' /\ keeps pk s s' /\ disk_result s now k s' a).
Proof.
  intros Ec Ed Hd Hs' K' Ey' Hb. destruct promoted; cbn [negb].
  - assert (Hv : forall v, lookup_mutable s k = Some v -> v <> [] -> DiskCache.Get c k = inl v).
    { intros v Hv Hne. unfold lookup_mutable in Hv. rewrite (mutable_contents_eq s c d Ec Ed) in Hv.
      by rewrite (DiskCache.disk_Get_spec c d k Ed), Hv, bool_decide_true. }
    destruct (DiskCache.Get c k) as [v|e] eqn:Eg; rstep; (split; [done|]; split; [done|]; split; [done|]; split).
    + intros v' [= <-]. split; [|apply remaining_range]. eapply Get_disk_ok; [|exact Eg]. by exists d.
    + intros _ _ _ _ v' Hv' Hne. cbn [fst]. specialize (Hv v' Hv' Hne). congruence.
    + done.
    + intros _ _ _ _ v' Hv' Hne. by specialize (Hv v' Hv' Hne).
  - rstep. split; [done|]. split; [done|]. split; [done|]. split; [done|]. intros _ _ Hr. by specialize (Hb Hr).
Qed.

Lemma runs_GetFromDiskCache pk s now k : ok pk s ->
  runs (GetFromDiskCache now k) s (fun s' a => ok pk s' /\ keeps pk s s' /\ disk_result s now k s' a).
Proof.
  intros Hs. unfold GetFromDiskCache.
  match goal with |- runs (gets protected_cache_ ≫= (fun pc => @?f pc ≫= ?g)) _ ?Q =>
    cut (runs ((gets protected_cache_ ≫= f) ≫= g) s Q); [done|] end.
  apply runs_bind. apply (runs_protected pk); [done|]. intros found Hfound Hnone.
  destruct found as [[v e]|].
  { rstep. split_and!; try done. split_and!; [done|by apply Hfound|]. intros Hp. by specialize (Hnone Hp). }
  eapply runs_mutable; [exact Hs|intros Ec; rstep; split_and!; try done; split_and!; try done; intros _; rewrite Ec; by intros []|].
  intros c d Ec Ed Hd. rstep. rstep. rstep. eapply runs_lift; [by apply (GetRemainingExpiryTime_spec now k c d)|]. cbv beta.
  destruct ((remaining now k (contents d) >? 0) || IsProtected (protected_keys_ s) k) eqn:Ev.
  - rstep. destruct (IsInternalKey k).
    + rstep. by apply (runs_disk_Get pk s s c d now k true).
    + apply (runs_PromoteKeyLru pk); [done|]. intros s' b Hs' K' _ Ey Hb. by apply (runs_disk_Get pk s s' c d now k b).
  - apply orb_false_iff in Ev as [Ev Ep].
    pose proof (not_watched_unprotected pk s k Hs Ep) as Hk.
    destruct (ok_purge pk s c d k Hs Ec Ed Hk) as (c' & r & sz & -> & Hs1 & K1). rstep. rstep. rstep.
    apply (runs_add_size pk); [done|]. intros s2 Hs2 K2 _ _ Ey2 _ _. rstep.
    eapply runs_mono.
    { apply (runs_keep_memory (RemoveKeyLru k)); [apply memory_RemoveKeyLru|by apply (safe_RemoveKeyLru pk)]. }
    intros s3 b ((Hs3 & K3 & _) & Ey3). rstep. split; [done|]. split; [by do 2 (etransitivity; [|eassumption])|].
    split; [by rewrite Ey3, Ey2|]. split; [done|]. intros _ _ _ [Hgt|Hp]; [|congruence].
    rewrite (mutable_contents_eq s c d Ec Ed) in Hgt. exfalso. rewrite Z.gtb_ltb in Ev. apply Z.ltb_ge in Ev. lia.
Qed.

(** ** The operations keep the invariant *)

Lemma runs_memory_expiry pk s k e (Q : Cache -> Z -> Prop) : 
  (forall e', e' = e \/ e' = kDefaultExpiry -> Q s e') -> runs (GetExpiryForMemoryCache k e) s Q.
Proof.
  intros HQ. unfold GetExpiryForMemoryCache. rstep. rstep. rstep. destruct (IsProtected _ k); apply HQ; auto.
Qed.

(** The keys that [Read] is for: bytes in memory, and entries that become such. *)
Record bytes_key k : Prop := {
  bytes_not_own : k <> kProtectedKeys;
  bytes_in_memory : forall x, in_memory k x -> exists v, x = AnyBytes v;
  bytes_on_disk : forall v, (ordinary k -> on_disk k v) -> in_memory k (AnyBytes v) }.

(** The keys and decoders that the other [Get] is for. *)
Record decoded_key k (decoder : bytes -> option (any (A := A))) : Prop := {
  decoded_not_own : k <> kProtectedKeys;
  decoded_on_disk : forall v, (ordinary k -> on_disk k v) -> exists x, decoder v = Some x /\ in_memory k x }.

(** What follows a miss in memory in both of them. *)
Lemma runs_from_disk {B} pk s now k (body : bytes -> Z -> state Cache B) (none : B) (Q : B -> Prop) : ok pk s ->
  k <> kProtectedKeys ->
  (forall s v e, ok pk s -> value_ok k v -> disk_expiry now e -> runs (body v e) s (fun s' r => ok pk s' /\ keeps pk s s' /\ Q r)) ->
  Q none ->
  runs ('(result, value, expiry) ← GetFromDiskCache now k;
        match result, value with inl _, Some value => body value expiry | _, _ => mret none end)
    s (fun s' r => ok pk s' /\ keeps pk s s' /\ Q r).
Proof.
  intros Hs Hk Hb Hn. rstep. eapply runs_mono; [by apply runs_GetFromDiskCache|].
  intros s2 [[r v] e] (Hs2 & K2 & _ & Hf & _). cbn [fst snd] in Hf.
  destruct r as [[]|err]; [|by rstep]. destruct v as [v|]; [|by rstep].
  destruct (Hf v eq_refl) as [Hvo He]. eapply runs_mono; [by apply Hb|]. intros s3 r (Hs3 & K3 & Hr).
  split; [done|]. split; [by transitivity s2|done].
Qed.

(** Putting a value of the disk into the memory cache. *)
Lemma runs_cache_value {B} pk s now k v x e (r : B) : ok pk s -> k <> kProtectedKeys -> value_ok k v -> disk_expiry now e -> in_memory k x ->
  runs (memory_expiry ← GetExpiryForMemoryCache k e; memory_put now k x memory_expiry (slen v);; mret r) s
    (fun s' r' => ok pk s' /\ keeps pk s s' /\ r' = r).
Proof.
  intros Hs Hk Hvo He Hm. rstep. apply (runs_memory_expiry pk). intros e' He'.
  pose proof (proj1 Hvo Hk) as Hsz. rstep. apply (runs_memory_put pk); [done|done| |unfold slen in *; lia|].
  { apply memory_expiry_ok. destruct He' as [->| ->]; [done|by left]. }
  intros m2 Hs3 K3 _. by rstep.
Qed.

Lemma safe_Read pk now k : bytes_key k -> safe pk (Read now k) (fun r => forall v, r = inl v -> in_memory k (AnyBytes v)).
Proof.
  intros [Hk Hb Hd] s Hs. unfold Read. rstep. rstep. destruct (is_open_ s); cbn [negb]; [|by rstep].
  rstep. apply (runs_memory_get pk); [done|]. intros m a Hs1 K1 Ha _. destruct a as [x|].
  - pose proof (Ha x eq_refl) as Hx. destruct (Hb x Hx) as [v ->].
    rstep. apply (runs_PromoteKeyLru pk); [done|]. intros s2 b Hs2 K2 _ _ _.
    rstep. split; [done|]. split; [by transitivity (set_memory m s)|]. by intros ? [= <-].
  - eapply runs_mono.
    { eapply (runs_from_disk pk _ now k _ (inr NotFound) (fun r => forall v, r = inl v -> in_memory k (AnyBytes v))); try done.
      intros s' v e Hs' Hv He. eapply runs_mono; [apply (runs_cache_value pk s' now k v (AnyBytes v) e (inl v) Hs' Hk Hv He); apply Hd, Hv|].
      intros s2 r (? & ? & ->). split_and!; [done..|]. intros ? [= <-]. apply Hd, Hv. }
    intros s2 r (Hs2 & K2 & Hr). split; [done|]. split; [by transitivity (set_memory m s)|done].
Qed.

Lemma safe_Get_decoded pk now k decoder : decoded_key k decoder ->
  safe pk (Get_decoded now k decoder) (fun r => forall x, r = Some x -> in_memory k x).
Proof.
  intros [Hk Hd] s Hs. unfold Get_decoded. rstep. rstep. destruct (is_open_ s); cbn [negb]; [|by rstep].
  rstep. apply (runs_memory_get pk); [done|]. intros m a Hs1 K1 Ha _. destruct a as [x|].
  - rstep. apply (runs_PromoteKeyLru pk); [done|]. intros s2 b Hs2 K2 _ _ _.
    rstep. split; [done|]. split; [by transitivity (set_memory m s)|]. intros ? [= <-]. by apply Ha.
  - eapply runs_mono.
    { eapply (runs_from_disk pk _ now k _ None (fun r => forall x, r = Some x -> in_memory k x)); try done.
      intros s' v e Hs' Hv He. destruct (Hd v (proj2 Hv)) as (x & E & Hx). rstep. eapply runs_lift; [exact E|].
      eapply runs_mono; [apply (runs_cache_value pk s' now k v x e (Some x) Hs' Hk Hv He Hx)|].
      intros s2 r (? & ? & ->). split_and!; [done..|]. by intros ? [= <-]. }
    intros s2 r (Hs2 & K2 & Hr). split; [done|]. split; [by transitivity (set_memory m s)|done].
Qed.

Lemma expiry_in_range pk now k v e e' : write_ok_ pk now k v e -> e' = e \/ e' = kDefaultExpiry -> e <= kDefaultExpiry ->
  HasExpiry e' = true -> e' + now < 2^63.
Proof.
  intros (_ & _ & _ & He & _) [->| ->] Hm; [|done]. intros Hx. apply negb_true_iff, Z.eqb_neq in Hx.
  apply He. unfold IsExpiryValid, kDefaultExpiry, kExpiryMax in *. apply Z.ltb_lt. lia.
Qed.

(** Both ways of writing: [x] goes to memory and [v] to the disk. *)
Lemma runs_store_ pk s now k x v e : ok pk s -> in_memory k x -> write_ok_ pk now k v e -> e <= kDefaultExpiry ->
  runs (memory_expiry ← GetExpiryForMemoryCache k e;
        memory_put now k x memory_expiry (slen v);;
        PutMutableCache now k v e) s (fun s' r => ok pk s' /\ keeps pk s s' /\
    (r = inl tt -> is_Some (mutable_cache_ s) -> stored s s' now k v e) /\ (r = inl tt -> 0 < e -> mem_value s' k x)).
Proof.
  intros Hs Hx Hw He. rstep. apply (runs_memory_expiry pk). intros e' He'. rstep.
  apply (runs_memory_put pk); [done|done|by eapply expiry_in_range| |].
  { destruct Hw as (_ & _ & ? & _). unfold slen in *. lia. }
  intros m Hs1 K1 Hm. eapply runs_mono; [by apply (runs_PutMutableCache pk (set_memory m s))|].
  intros s2 r (Hs2 & K2 & Hmem & Hst). split; [done|]. split; [by transitivity (set_memory m s)|]. split.
  - intros Hr Hc. destruct (Hst Hr Hc) as [S1 S2 S3 S4]. by split.
  - intros Hr Hpos. apply Hmem, Hm. destruct (Z.leb_spec e' 0); [|by rewrite andb_false_r].
    destruct He' as [->| ->]; [lia|done].
Qed.

Lemma runs_Write pk s now k v e : ok pk s -> in_memory k (AnyBytes v) -> write_ok_ pk now k v e -> e <= kDefaultExpiry ->
  runs (Write now k (Some v) e) s (fun s' r => ok pk s' /\ keeps pk s s' /\
    (r = inl tt -> is_Some (mutable_cache_ s) -> stored s s' now k v e) /\ (r = inl tt -> 0 < e -> mem_value s' k (AnyBytes v))).
Proof.
  intros Hs Hx Hw He. cbn [Write]. rstep. rstep. destruct (is_open_ s); cbn [negb]; [by apply runs_store_|by rstep].
Qed.

Lemma safe_Put_encoded pk now k a v e : in_memory k (AnyValue a) -> write_ok_ pk now k v e -> e <= kDefaultExpiry ->
  safe pk (Put_encoded now k a v e) (fun _ => True).
Proof.
  intros Hx Hw He s Hs. unfold Put_encoded. rstep. rstep. destruct (is_open_ s); cbn [negb]; [|by rstep].
  destruct (runs_store_ pk s now k (AnyValue a) v e Hs Hx Hw He) as (s' & r & E & Hs' & K & _).
  exists s', (IsSuccessful r). split; [|done]. revert E.
  unfold mbind, state_bind. unfold mbind, option_bind.
  destruct (GetExpiryForMemoryCache k e s) as [[s1 e1]|]; [|done].
  destruct (memory_put now k (AnyValue a) e1 (slen v) s1) as [[s2 []]|]; [|done]. by intros ->.
Qed.

Lemma safe_Delete pk k : safe pk (Delete k) (fun _ => True).
Proof.
  intros s Hs. unfold Delete. rstep. rstep. destruct (is_open_ s); cbn [negb]; [|by rstep].
  rstep. rstep. destruct (IsProtected (protected_keys_ s) k) eqn:Ep; [by rstep|].
  pose proof (not_watched_unprotected pk s k Hs Ep) as Hk.
  rstep. apply (runs_memory_remove pk); [done|]. intros m Hs1 K1 _. rstep.
  eapply safe_runs; [apply safe_RemoveKeyLru|exact Hs1|]. intros s2 b Hs2 K2 _.
  assert (K : keeps pk s s2) by by transitivity (set_memory m s).
  eapply runs_mutable; [exact Hs2|by rstep|]. intros c d Ec Ed Hd.
  destruct (ok_purge pk s2 c d k Hs2 Ec Ed Hk) as (c' & r & sz & -> & Hs3 & K3). rstep. rstep. rstep.
  apply (runs_add_size pk); [done|]. intros s4 Hs4 K4 _ _ _ _ _. rstep. split_and!; [done| |done].
  by do 2 (etransitivity; [|eassumption]).
Qed.

Lemma safe_DeleteByPrefix pk p : safe pk (DeleteByPrefix p) (fun _ => True).
Proof.
  intros s Hs. unfold DeleteByPrefix. rstep. rstep. destruct (is_open_ s); cbn [negb]; [|by rstep].
  rstep. rstep. set (flt := IsProtected (protected_keys_ s)). rstep.
  eapply safe_runs; [apply safe_memory_RemoveKeysWithPrefix|done|]. intros s1 _ Hs1 K1 _. rstep.
  eapply safe_runs; [apply safe_RemoveKeysWithPrefixLru|done|]. intros s2 _ Hs2 K2 _.
  assert (K : keeps pk s s2) by by transitivity s1.
  eapply runs_mutable; [exact Hs2|by rstep|]. intros c d Ec Ed Hd.
  destruct (DiskCache.disk_RemoveKeysWithPrefix_spec c d p (Some flt) Ed) as (c' & r & sz & -> & Hw & _).
  assert (Hf : forall k v, filter (fun e => ~ removed p (Some flt) e) (contents d) !! k = Some v -> contents d !! k = Some v).
  { intros k v [? _]%map_lookup_filter_Some. done. }
  destruct (written_ok_ pk s2 c d _ c' r Hs2 Ec Ed Hd Hw) as [Hs3 K3].
  { by eapply entries_ok_sub. }
  { intros k Ek. destruct (contents d !! k) as [v|] eqn:E; [|by apply map_lookup_filter_None_2; left].
    apply map_lookup_filter_Some_2; [done|]. intros [_ Hn]. cbn in Hn. unfold flt in Hn.
    pose proof (guarded_protected _ _ (ok_guarded _ _ Hs k Ek)). congruence. }
  rstep. rstep. rstep. apply (runs_add_size pk); [done|]. intros s4 Hs4 K4 _ _ _ _ _. rstep. split_and!; [done| |done].
  by do 2 (etransitivity; [|eassumption]).
Qed.

Lemma safe_Resize pk now z : safe pk (Resize_ now z) (fun _ => True).
Proof.
  intros s Hs. unfold Resize_. rstep. rstep. cbn [id]. destruct (is_open_ s); [|by rstep].
  destruct (mutable_cache_ s); [|by rstep]. destruct (mutable_cache_lru_ s); [|by rstep].
  rstep. rstep. set (st := mkSettings _ _ _ _ _ _). destruct (ok_set_settings pk s st Hs) as [Hs1 K1].
  destruct (z >=? _); [by rstep|]. rstep. eapply runs_mono; [by apply runs_MaybeEvictData|].
  intros s2 a (Hs2 & K2 & _). rstep. apply (runs_add_size pk); [done|]. intros s3 Hs3 K3 _ _ _ _ _. rstep.
  split_and!; [done| |done]. by do 2 (etransitivity; [|eassumption]).
Qed.

Lemma safe_Contains pk now k : safe pk (Contains now k) (fun _ => True).
Proof.
  intros s Hs. unfold Contains. rstep. rstep. cbn [id]. destruct (is_open_ s); cbn [negb]; [|by rstep].
  set (R := fun (s' : Cache) (b : bool) => ok pk s' /\ keeps pk s s' /\ True).
  assert (HR : forall b, R s b) by done.
  assert (Hmem : runs (contains_memory now k s) s R).
  { unfold contains_memory. destruct (protected_cache_ s); [by rstep|]. destruct (mutable_cache_ s); [by rstep|].
    destruct (memory_cache_ s) as [m|] eqn:Em; [|by rstep]. destruct (good_memory s (ok_good _ _ Hs) m Em) as (sp & Hr & _).
    eapply runs_lift; [by apply (InMemoryCache.Contains_spec DefaultCacheCost m sp)|]. apply HR. }
  assert (Hmut : runs (contains_mutable now k s) s R).
  { unfold contains_mutable. destruct (mutable_cache_lru_ s) as [l|] eqn:El.
    - destruct (good_lru s (ok_good _ _ Hs) l El) as [sp Hr].
      destruct (FindNoPromote_client one_cost l sp k Hr) as [-> Hv].
      destruct (assoc k (spec_list sp)) as [props|] eqn:Ea.
      + rstep. eapply runs_lift; [by apply Hv|]. rstep. apply HR.
      + destruct (IsProtected (protected_keys_ s) k); [rstep; apply HR|done].
    - destruct (mutable_cache_ s) as [c|] eqn:Ec; [|done]. destruct (DiskCache.Contains c k); [|done].
      destruct (good_mutable s (ok_good _ _ Hs) c Ec) as (d & Ed & Hd).
      rstep. eapply runs_lift; [by apply (GetRemainingExpiryTime_spec now k c d)|]. rstep. apply HR. }
  destruct (protected_cache_ s) as [c|] eqn:Ec; [|done]. destruct (DiskCache.Contains c k); [|done].
  destruct (good_protected s (ok_good _ _ Hs) c Ec) as (d & Ed & Hd).
  rstep. eapply runs_lift; [by apply (GetRemainingExpiryTime_spec now k c d)|]. rstep. apply HR.
Qed.

(** ** Protecting and releasing *)

Lemma IsProtected_prefix keys k k' : keys_ok keys -> k `prefix_of` k' -> IsProtected keys k' = false -> IsProtected keys k = false.
Proof.
  intros [Hi _] Hp Hf. apply not_true_iff_false in Hf. apply not_true_iff_false. intros E. apply Hf.
  apply IsProtected_protects in E as (e & He & Hpe); [|done]. apply IsProtected_protects; [done|].
  exists e. split; [done|]. by transitivity k.
Qed.

Lemma runs_AddKeyLru pk s k v (Q : Cache -> bool -> Prop) : ok pk s -> (IsExpiryKey k = true -> is_Some (stoll v)) ->
  (forall s' b, ok pk s' -> keeps pk s s' -> mutable_cache_ s' = mutable_cache_ s -> protected_keys_ s' = protected_keys_ s -> Q s' b) -> runs (AddKeyLru k v) s Q.
Proof.
  intros Hs Hv HQ. unfold AddKeyLru. eapply runs_lru; [done|intros; rstep; rstep; rstep; by apply HQ|].
  intros l sp El Hr Hn. rstep. rstep.
  destruct (IsProtected (protected_keys_ s) k) eqn:Ep; cbn [negb andb]; [rstep; by apply HQ|].
  destruct (IsInternalKey k); cbn [negb]; [rstep; by apply HQ|]. cbv zeta.
  set (k1 := if IsExpiryKey k then take _ k else k).
  assert (Hk1 : IsProtected (protected_keys_ s) k1 = false).
  { apply (IsProtected_prefix _ _ k); [by apply (good_keys _ (ok_good _ _ Hs))| |done]. unfold k1.
    destruct (IsExpiryKey k); [|done]. eexists. symmetry. apply take_drop. }
  match goal with |- runs (?m ≫= ?f) s Q => assert (Hp : exists props, m s = Some (s, props)) end.
  { destruct (IsExpiryKey k); [|by eexists]. destruct (Hv eq_refl) as [e Ee]. eexists.
    unfold mbind, state_bind, lift, mret, state_ret. rewrite Ee. reflexivity. }
  destruct Hp as [props Hp]. rstep. eexists s, props. split; [exact Hp|].
  destruct (lru_insert pk l sp k1 props Hr Hn (not_watched_unprotected pk s k1 Hs Hk1)) as (l' & e & it & ins & E & Hl' & _).
  rstep. eapply runs_lift; [exact E|]. rstep. rstep. rstep. destruct (ok_set_lru pk s l' Hs Hl'). by apply HQ.
Qed.


(** What also these operations keep. *)
Record stays pk s s' : Prop := {
  stays_entry : forall k, pk = Some k -> lookup_mutable s' k = lookup_mutable s k;
  stays_open : is_open_ s' = is_open_ s;
  stays_cache : protected_cache_ s' = protected_cache_ s;
  stays_mutable : is_Some (mutable_cache_ s) <-> is_Some (mutable_cache_ s') }.

#[export] Instance stays_preorder pk : PreOrder (stays pk).
Proof.
  split; [by split|]. intros s1 s2 s3 [] []. split; try congruence; try tauto. intros k Ek. by rewrite stays_entry1, stays_entry0.
Qed.

Lemma keeps_stays pk s s' : keeps pk s s' -> stays pk s s'.
Proof. intros []. by split. Qed.

Lemma safe_for_each pk (f : key -> state Cache unit) keys :
  (forall k, safe pk (f k) (fun _ => True)) -> safe pk (for_each f keys) (fun _ => True).
Proof.
  intros Hf. induction keys as [|k keys IH]; cbn [for_each]; [by apply safe_ret|]. eapply safe_bind; [apply Hf|]. by intros [] _.
Qed.

Lemma safe_change pk k : safe pk (change_key_to_protected k) (fun _ => True).
Proof.
  eapply safe_bind; [apply safe_RemoveKeyLru|]. intros b _. destruct (negb b); [apply safe_RemoveKeysWithPrefixLru|by apply safe_ret].
Qed.

(** The list of keys can grow, with keys that are not empty. *)
Lemma ok_more_keys pk s keys : ok pk s -> keys_ok keys ->
  (forall k, pk = Some k -> IsProtected (protected_keys_ s) k = true -> IsProtected keys k = true) -> ok pk (set_keys keys s).
Proof.
  intros [[] Hg] Hk Hp. split; [by split|]. intros k Ek. destruct (Hg k Ek) as [? ? ?]. split; cbn; auto.
Qed.

Lemma Protect_keys_ok l keys : keys_ok l -> Forall (fun k => k <> []) keys ->
  exists l' b changed, ProtectedKeyList.Protect l keys = (l', b, changed) /\ keys_ok l' /\
    forall k, IsProtected l' k = true <-> IsProtected l k = true \/ exists p, p ∈ keys /\ p `prefix_of` k.
Proof.
  intros [Hi Hne] Hk. destruct (protect_fold keys l false [] Hi) as (l' & b & changed & E & Hi' & Hp).
  exists l', b, changed. split; [done|]. split; [split; [done|]|intros k; by rewrite !IsProtected_protects].
  apply Forall_forall. intros e He. pose proof (Protect_elements l keys e) as Hel. unfold ProtectedKeyList.Protect in Hel. rewrite E in Hel. cbn [fst] in Hel.
  rewrite Forall_forall in Hne, Hk. destruct (Hel He); auto.
Qed.

Lemma runs_memory_clear pk s (Q : Cache -> unit -> Prop) : ok pk s ->
  (forall m, ok pk (set_memory m s) -> keeps pk s (set_memory m s) -> Q (set_memory m s) tt) -> runs memory_clear s Q.
Proof.
  intros Hs HQ. unfold memory_clear, with_memory. rstep. rstep. destruct (memory_cache_ s) as [m|] eqn:Em.
  - rstep. eapply runs_lift; [done|]. rstep. destruct (ok_set_memory pk s (Some (InMemoryCache.Clear m)) Hs); [|by apply HQ].
    intros ? [= <-]. destruct (good_memory s (ok_good _ _ Hs) m Em) as (sp & Hr & _).
    eexists. split; [exact (Clear_client DefaultCacheCost DefaultCacheCost_nonneg _ _ Hr)|]. by intros p ?%elem_of_nil.
  - rstep. assert (E : set_memory None s = s) by (unfold set_memory; rewrite <- Em; by destruct s).
    destruct (ok_set_memory pk s None Hs) as [Ho Hk]; [done|]. specialize (HQ None Ho Hk). by rewrite E in HQ.
Qed.

Lemma runs_Protect pk s keys : ok pk s -> Forall (fun k => k <> []) keys ->
  runs (Protect keys) s (fun s' r => ok pk s' /\ stays pk s s' /\
    (forall k, IsProtected (protected_keys_ s') k = true -> IsProtected (protected_keys_ s) k = true \/ exists p, p ∈ keys /\ p `prefix_of` k) /\
    (r = true -> forall k, IsProtected (protected_keys_ s) k = true \/ (exists p, p ∈ keys /\ p `prefix_of` k) -> IsProtected (protected_keys_ s') k = true)).
Proof.
  intros Hs Hne. unfold Protect. eapply runs_mutable; [exact Hs|rstep; split_and!; [done..|by left|done]|]. intros c d Ec Ed Hd. rstep. rstep.
  destruct (Protect_keys_ok (protected_keys_ s) keys (good_keys _ (ok_good _ _ Hs)) Hne) as (l' & b & changed & -> & Hl' & Hp).
  rstep. eapply safe_runs; [apply (safe_for_each pk); apply safe_change|exact Hs|]. intros s1 [] Hs1 K1 _. rstep. rstep.
  assert (Hs2 : ok pk (set_keys l' s1)).
  { apply ok_more_keys; [done|done|]. intros k _ Hk. apply Hp. left. by rewrite <- (IsProtected_data _ _ _ (keeps_keys _ _ _ K1)). }
  assert (K2 : stays pk s (set_keys l' s1)) by (transitivity s1; [by apply keeps_stays|by split]).
  rstep. destruct b; [|repeat rstep; split_and!; [done..|intros k; apply Hp|done]].
  apply (runs_memory_clear pk); [done|]. intros m Hs3 K3. rstep. split_and!; [done|transitivity (set_keys l' s1); [done|by apply keeps_stays]|..]; intros; by apply Hp.
Qed.





Lemma safe_readd_loop pk k es : (forall k v, (k, v) ∈ es -> IsExpiryKey k = true -> is_Some (stoll v)) ->
  safe pk (readd_loop es k) (fun _ => True).
Proof.
  induction es as [|[k' v] es IH]; intros Hes; cbn [readd_loop]; [by apply safe_ret|].
  destruct (starts_with k k'); [|by apply safe_ret]. intros s Hs. rstep. apply (runs_AddKeyLru pk); [done|apply (Hes k'); left|].
  intros s1 b Hs1 K1 _ _. eapply safe_runs; [apply IH|exact Hs1|].
  - intros k2 v2 Hin. apply Hes. by right.
  - intros s2 [] Hs2 K2 _. split; [done|]. split; [by transitivity s1|done].
Qed.

Lemma Seek_sub (es : list (key * bytes)) k x : x ∈ Seek es k -> x ∈ es.
Proof.
  unfold Seek. intros Hx. rewrite <- (take_drop_while (fun e => str_lt e.1 k) es). apply elem_of_app. by right.
Qed.

Lemma readable_contents d k v : entries_ok (contents d) -> (k, v) ∈ db_entries d -> IsExpiryKey k = true -> is_Some (stoll v).
Proof. intros He Hin Hk. apply (entries_expiry _ He k v Hk). by apply (elem_of_list_to_map_1 _ _ _ (contents_NoDup d)). Qed.

(** The memory part of [release_key]. *)
Lemma release_memory (m : InMemoryCache (A := any (A := A))) k : memory_ok m ->
  exists m1 b m2, InMemoryCache.Remove DefaultCacheCost m (str k) = Some (m1, b) /\
    (if b : bool then Some m1 else InMemoryCache.RemoveKeysWithPrefix DefaultCacheCost m1 (str k) None) = Some m2 /\ memory_ok m2.
Proof.
  intros (sp & Hr & Hb). unfold InMemoryCache.Remove.
  destruct (Erase_client DefaultCacheCost DefaultCacheCost_nonneg _ _ (str k) Hr) as (t & -> & Hr').
  cbn [mbind option_bind].
  assert (Hsub : all_allowed (remove_key (str k) (spec_list sp))).
  { apply (all_allowed_sub (spec_list sp)); [done|]. by intros p [Hp _]%elem_of_remove_key. }
  set (m1 := mkCache t (item_expiries_ m)). set (sp1 := mkSpec _ _) in Hr'. exists m1.
  assert (Hok : memory_ok m1) by by exists sp1.
  destruct (bool_decide _); [by exists true, m1|].
  destruct (InMemoryCache.RemoveKeysWithPrefix_spec DefaultCacheCost DefaultCacheCost_nonneg m1 sp1 (str k) None Hr') as (t' & E & Hr2).
  eexists false, _. split; [done|]. split; [exact E|]. eexists. split; [exact Hr2|]. apply (all_allowed_sub (spec_list sp1)); [done|].
  intros x Hx. apply list_elem_of_In in Hx. apply List.filter_In in Hx as [Hx _]. by apply list_elem_of_In.
Qed.

Lemma safe_release_key pk k : safe pk (release_key k) (fun _ => True).
Proof.
  intros s Hs. unfold release_key. rstep. rstep. rstep.
  assert (Hrest : forall s1, ok pk s1 -> keeps pk s s1 -> runs (cache ← gets mutable_cache_; lru ← gets mutable_cache_lru_;
    match cache, lru with
    | Some c, Some _ => it ← lift (NewIterator c); readd_loop (Seek it k) k
    | _, _ => mret tt
    end) s1 (fun s' _ => ok pk s' /\ keeps pk s s' /\ True)).
  { intros s1 Hs1 K1. eapply runs_mutable; [exact Hs1|intros _; by repeat rstep|]. intros c d Ec Ed Hd. rstep. rstep.
    destruct (mutable_cache_lru_ s1); [|by rstep]. unfold NewIterator. rewrite Ed. rstep. eapply runs_lift; [reflexivity|].
    eapply safe_runs; [apply safe_readd_loop|exact Hs1|].
    - intros k' v Hin%Seek_sub. by apply (readable_contents d).
    - intros s2 [] Hs2 K2 _. split; [done|]. split; [by transitivity s1|done]. }
  destruct (memory_cache_ s) as [m|] eqn:Em; [|rstep; by apply Hrest].
  destruct (release_memory m k) as (m1 & b & m2 & E1 & E2 & Hm2); [by apply (good_memory s (ok_good _ _ Hs))|].
  rstep. eapply runs_lift; [exact E1|]. cbv beta iota. rstep. eapply runs_lift; [exact E2|]. rstep.
  destruct (ok_set_memory pk s (Some m2) Hs) as [Hs1 K1]; [by intros ? [= <-]|]. by apply Hrest.
Qed.

(** The keys may be released when none of them is a prefix of the watched one. *)
Lemma runs_Release pk s keys : ok pk s -> (forall k, pk = Some k -> forall k', k' ∈ keys -> ~ k' `prefix_of` k) ->
  runs (Release keys) s (fun s' _ => ok pk s' /\ stays pk s s' /\
    forall k, IsProtected (protected_keys_ s) k = true -> (forall k', k' ∈ keys -> ~ k' `prefix_of` k) -> IsProtected (protected_keys_ s') k = true).
Proof.
  intros Hs Hk. unfold Release. eapply runs_mutable; [exact Hs|by rstep|]. intros c d Ec Ed Hd. rstep. rstep.
  pose proof (good_keys _ (ok_good _ _ Hs)) as [Hi Hne]. destruct (Release_survivors (protected_keys_ s) keys Hi) as (Hi' & Hsub & Hkeep).
  destruct (ProtectedKeyList.Release (protected_keys_ s) keys) as [l' result]. cbn [fst] in *. rstep. rstep.
  assert (Hl : forall k, IsProtected (protected_keys_ s) k = true -> (forall k', k' ∈ keys -> ~ k' `prefix_of` k) -> IsProtected l' k = true).
  { intros k (e & He & Hp)%IsProtected_protects Hk'; [|done]. apply IsProtected_protects; [done|]. exists e. split; [|done].
    apply Hkeep; [done|]. intros k' Hin Hp'. apply (Hk' k' Hin). by transitivity e. }
  assert (Hs1 : ok pk (set_keys l' s)).
  { apply ok_more_keys; [done| |].
    - split; [done|]. rewrite Forall_forall in *. auto.
    - intros k Ek Hp. apply Hl; auto. }
  destruct (negb result); [by repeat rstep|]. rstep.
  eapply safe_runs; [apply (safe_for_each pk); apply safe_release_key|exact Hs1|]. intros s2 [] Hs2 K2 _. rstep. split; [done|]. split.
  - transitivity (set_keys l' s); [by split|by apply keeps_stays].
  - unfold IsProtected. rewrite (keeps_keys _ _ _ K2). exact Hl.
Qed.

(** ** Sequences of operations *)

Inductive cache_operation :=
| ORead (now : Z) (k : key)
| OGet (now : Z) (k : key) (decoder : bytes -> option (any (A := A)))
| OWrite (now : Z) (k : key) (v : bytes) (expiry : Z)
| OPut (now : Z) (k : key) (a : A) (v : bytes) (expiry : Z)
| ODelete (k : key)
| ODeleteByPrefix (p : key)
| OContains (now : Z) (k : key)
| OPromote (k : key)
| OResize (now z : Z)
| OProtect (keys : list key)
| ORelease (keys : list key).

Definition perform (o : cache_operation) : state Cache unit :=
  match o with
  | ORead now k => _ ← Read now k; mret tt
  | OGet now k decoder => _ ← Get_decoded now k decoder; mret tt
  | OWrite now k v e => _ ← Write now k (Some v) e; mret tt
  | OPut now k a v e => _ ← Put_encoded now k a v e; mret tt
  | ODelete k => _ ← Delete k; mret tt
  | ODeleteByPrefix p => _ ← DeleteByPrefix p; mret tt
  | OContains now k => _ ← Contains now k; mret tt
  | OPromote k => Promote_ k
  | OResize now z => _ ← Resize_ now z; mret tt
  | OProtect keys => _ ← Protect keys; mret tt
  | ORelease keys => _ ← Release keys; mret tt
  end.

Fixpoint perform_all (os : list cache_operation) : state Cache unit :=
  match os with [] => mret tt | o :: os => perform o;; perform_all os end.

(** What is asked of the operations: values of the policy, sizes and times in range,
    and neither writes of the watched key nor releases that reach it. *)
Definition operation_ok pk (o : cache_operation) : Prop :=
  match o with
  | ORead now k => bytes_key k
  | OGet now k decoder => decoded_key k decoder
  | OWrite now k v e => write_ok_ pk now k v e /\ in_memory k (AnyBytes v) /\ e <= kDefaultExpiry
  | OPut now k a v e => write_ok_ pk now k v e /\ in_memory k (AnyValue a) /\ e <= kDefaultExpiry
  | OProtect keys => Forall (fun k => k <> []) keys
  | ORelease keys => forall k, pk = Some k -> forall k', k' ∈ keys -> ~ k' `prefix_of` k
  | _ => True
  end.

(** Drops the result of an operation. *)
Lemma runs_drop {B} pk s (m : state Cache B) : runs m s (fun s' _ => ok pk s' /\ stays pk s s') ->
  runs (_ ← m; mret tt) s (fun s' _ => ok pk s' /\ stays pk s s').
Proof. intros Hm. rstep. eapply runs_mono; [exact Hm|]. intros s' a Ha. by rstep. Qed.

Lemma safe_stays {B} pk s (m : state Cache B) Q : safe pk m Q -> ok pk s -> runs m s (fun s' _ => ok pk s' /\ stays pk s s').
Proof. intros Hm Hs. eapply safe_runs; [exact Hm|exact Hs|]. intros s' a Hs' K _. split; [done|by apply keeps_stays]. Qed.

Lemma perform_ok pk s o : ok pk s -> operation_ok pk o -> runs (perform o) s (fun s' _ => ok pk s' /\ stays pk s s').
Proof.
  intros Hs Ho. destruct o as [now k|now k dec|now k v e|now k a v e|k|p|now k|k|now z|keys|keys]; cbn [perform];
    try apply runs_drop.
  - by eapply safe_stays; [apply safe_Read|].
  - by eapply safe_stays; [apply safe_Get_decoded|].
  - destruct Ho as (Hw & Hx & He). eapply runs_mono; [by apply (runs_Write pk)|]. intros s' a (Hs' & K & _). split; [done|by apply keeps_stays].
  - destruct Ho as (Hw & Hx & He). by eapply safe_stays; [apply safe_Put_encoded|].
  - by eapply safe_stays; [apply safe_Delete|].
  - by eapply safe_stays; [apply safe_DeleteByPrefix|].
  - by eapply safe_stays; [apply safe_Contains|].
  - by eapply safe_stays; [apply safe_Promote|].
  - by eapply safe_stays; [apply safe_Resize|].
  - eapply runs_mono; [by apply (runs_Protect pk)|]. by intros s' a (? & ? & _).
  - eapply runs_mono; [by apply (runs_Release pk)|]. by intros s' a (? & ? & _).
Qed.

Lemma perform_all_ok pk os : Forall (operation_ok pk) os -> forall s, ok pk s ->
  runs (perform_all os) s (fun s' _ => ok pk s' /\ stays pk s s').
Proof.
  induction 1 as [|o os Ho _ IH]; intros s Hs; cbn [perform_all]; [by rstep|]. rstep. eapply runs_mono; [by apply (perform_ok pk)|].
  intros s1 [] [Hs1 K1]. eapply runs_mono; [by apply IH|]. intros s2 [] [Hs2 K2]. split; [done|by transitivity s1].
Qed.


(** C21: in an open cache with a mutable cache and without a protected cache in front of
    it, what a successful [Write] stores, [Read] gives until it expires: for a value that
    is not empty (an empty one is stored and not found again: Write_empty_lost) and, when
    it is written without an expiry, without the expiry of an earlier value in the
    database (Write_keeps_old_expiry).  The key is one of bytes and not an expiry key
    (bytes_key, write_ok_), and the time to live is positive and ends within 64 bits. *)
Theorem Write_Read s now now' k v e s1 :
  good s -> is_open_ s = true -> is_Some (mutable_cache_ s) -> protected_cache_ s = None ->
  bytes_key k -> in_memory k (AnyBytes v) -> write_ok_ None now k v e -> v <> [] -> 0 < e <= kDefaultExpiry ->
  (IsExpiryValid e = true -> now' < e + now) ->
  (IsExpiryValid e = false -> lookup_mutable s (CreateExpiryKey k) = None) ->
  Write now k (Some v) e s = Some (s1, inl tt) ->
  exists s2, Read now' k s1 = Some (s2, inl v).
Proof.
  intros Hg Hop Hc Hpc [Hi _ _] Hx Hw Hne [He He'] Hexp Hno E. pose proof (ok_none s Hg) as Hs.
  destruct (runs_Write None s now k v e Hs Hx Hw He') as (s1' & r & E' & Hs1 & K1 & Hst & Hm).
  rewrite E in E'. injection E' as <- <-. destruct (Hst eq_refl Hc) as [S1 S2 S3 S4]. specialize (Hm eq_refl He).
  assert (Hpc1 : protected_cache_ s1 = None) by (by rewrite (keeps_protected _ _ _ K1)).
  assert (Hr : runs (Read now' k) s1 (fun _ r => r = inl v)).
  2: { destruct Hr as (s2 & r & Er & ->). eauto. }
  unfold Read. rstep. rstep. rewrite (keeps_open _ _ _ K1), Hop. cbn [negb]. rstep.
  apply (runs_memory_get None); [done|]. intros m a Hs2 K2 _ Ha. destruct a as [x|].
  { rewrite (Ha _ x Hm eq_refl). rstep. apply (runs_PromoteKeyLru None); [done|]. intros. by rstep. }
  rstep. eapply runs_mono; [by apply runs_GetFromDiskCache|].
  intros s3 [[r val] ex] (Hs3 & K3 & _ & Hf & Hrb). cbn [fst snd] in Hf, Hrb.
  assert (Hrem : 0 < remaining now' k (mutable_contents (set_memory m s1))).
  { unfold remaining. change (mutable_contents (set_memory m s1)) with (mutable_contents s1). unfold lookup_mutable in *.
    destruct (IsExpiryValid e) eqn:Ev.
    - rewrite (S2 eq_refl). rewrite bool_decide_true by (intros E0; pose proof (to_string_signed_nonempty (e + now)); done).
      destruct Hw as (_ & _ & _ & Hr & _). rewrite stoll_to_string by by apply Hr. specialize (Hexp eq_refl). lia.
    - by rewrite (S3 eq_refl (Hno eq_refl)). }
  assert (Hfound : (r, val) = (inl tt, Some v)).
  { apply Hrb; [done| |done|by left|by apply S1|done]. cbn. by apply (keeps_mutable _ _ _ K1). }
  injection Hfound as -> ->. destruct (Hf v eq_refl) as [[Hsz _] Hex]. specialize (Hsz Hi).
  rstep. apply (runs_memory_expiry None). intros e2 He2. rstep. apply (runs_memory_put None); [done|done| |unfold slen in *; lia|].
  { apply memory_expiry_ok. destruct He2 as [->| ->]; [done|by left]. }
  intros. by rstep.
Qed.

(** ** A change of policy *)

Definition holds_in_memory s k x : Prop :=
  exists m b, memory_cache_ s = Some m /\ map_ (item_tuples_ m) !! str k = Some b /\ tuple_item (value_ b) = x.

Lemma good_policy (P' : Policy A) s : good (P := P) s -> protected_cache_ s = None ->
  (forall k x, holds_in_memory s k x -> in_memory (Policy := P) k x -> in_memory (Policy := P') k x) ->
  (forall k v, ordinary k -> lookup_mutable s k = Some v -> on_disk (Policy := P) k v -> on_disk (Policy := P') k v) ->
  good (P := P') s.
Proof.
  intros [Gm Gl Gd Gp Gk Ge] Hp Hm Hd. split; [|done| | |done|done].
  - intros m Em. destruct (Gm m Em) as (sp & Hr & Hb). exists sp. split; [done|]. intros [k t] Hin.
    pose proof (Hb _ Hin) as Hb'. cbn [fst snd] in *. apply Hm; [|done].
    apply (assoc_elem _ _ _ (repr_NoDup _ _ _ Hr)) in Hin. destruct (assoc_map _ _ _ _ _ Hr Hin) as (b & Eb & <-).
    exists m, b. split; [done|]. split; [|done]. by rewrite String.string_of_list_ascii_of_string.
  - intros c Ec. destruct (Gd c Ec) as (d & Ed & [H1 H2 H3]). exists d. split; [done|]. split; [done|done|].
    intros k v Ho E. apply Hd; [done| |by apply H3]. unfold lookup_mutable. by rewrite (mutable_contents_eq s c d Ec Ed).
  - intros c. by rewrite Hp.
Qed.

(** The policy with one value for one key. *)
Definition only_value k (v : bytes) : Policy A :=
  mkPolicy A (fun k' x => if decide (k' = k) then x = AnyBytes v else in_memory k' x)
             (fun k' v' => if decide (k' = k) then v' = v else on_disk k' v').

Lemma Write_only s now k v e s1 :
  good s -> protected_cache_ s = None -> ordinary k -> in_memory k (AnyBytes v) -> write_ok_ None now k v e -> 0 < e <= kDefaultExpiry ->
  Write now k (Some v) e s = Some (s1, inl tt) -> good (P := only_value k v) s1.
Proof.
  intros Hg Hp Ho Hx Hw [He He'] E.
  destruct (runs_Write None s now k v e (ok_none s Hg) Hx Hw He') as (s1' & r & E' & Hs1 & K1 & Hst & Hm).
  rewrite E in E'. injection E' as <- <-. specialize (Hm eq_refl He).
  apply (good_policy (only_value k v)); [exact (ok_good _ _ Hs1)|by rewrite (keeps_protected _ _ _ K1)| |].
  - intros k' x (m & b & Em & Eb & Ex) Hi. cbn [in_memory only_value]. destruct (decide (k' = k)) as [->|]; [|done].
    rewrite <- Ex. by apply (Hm m).
  - intros k' v' _ El Hd. cbn [on_disk only_value]. destruct (decide (k' = k)) as [->|]; [|done].
    destruct (mutable_cache_ s) as [c|] eqn:Ec.
    + destruct (Hst eq_refl) as [S1 _ _ _]; [by eexists|]. rewrite S1 in El by apply Ho. congruence.
    + assert (Hn : mutable_cache_ s1 = None).
      { apply eq_None_not_Some. rewrite <- (keeps_mutable _ _ _ K1), Ec. by intros [? ?]. }
      unfold lookup_mutable, mutable_contents in El. by rewrite Hn in El.
Qed.

End operations.

Section last_written.
Context {DB : Type} `{LevelDBLaws DB} {A : Type} `{P : Policy A}.
Abbreviation Cache := (DefaultCache (DB := DB) (A := A)).
Implicit Types (s : Cache) (k : key) (pk : option key).

(** No write of the key. *)
Definition leaves k (o : (cache_operation (A := A))) : Prop :=
  match o with OWrite _ k' _ _ | OPut _ k' _ _ _ | OGet _ k' _ => k' <> k | _ => True end.

Lemma operation_ok_only pk k v o : ordinary k -> operation_ok pk o -> leaves k o -> operation_ok (P := only_value k v) pk o.
Proof.
  intros Ho. destruct o as [now k'|now k' dec|now k' w e|now k' a w e|k'|p|now k'|k'|now z|keys|keys]; cbn [operation_ok leaves]; try done.
  - intros [Hk Hb Hd] _. split; [done| |]; cbn [in_memory on_disk only_value]; destruct (decide (k' = k)) as [->|]; try done; eauto.
    intros w Hw. by rewrite Hw.
  - intros [Hk Hd] Hn. split; [done|]. cbn [in_memory on_disk only_value]. intros w. rewrite decide_False by done. intros Hw.
    destruct (Hd w Hw) as (x & E & Hx). exists x. by rewrite decide_False by done.
  - unfold write_ok_. intros ((Hk & Hx & Hv & He & Hd) & Hi & Hm) Hn. split_and!; try done; cbn [in_memory on_disk only_value]; by rewrite decide_False by done.
  - unfold write_ok_. intros ((Hk & Hx & Hv & He & Hd) & Hi & Hm) Hn. split_and!; try done; cbn [in_memory on_disk only_value]; by rewrite decide_False by done.
Qed.

(** C22: a cache without a protected cache in front of it (which can hide what is
    written behind older values, as Write_behind_protected shows) never gives a value but
    the last one written: after a successful [Write] and any operations that do not write
    the key, among them evictions, deletions, changes of the size and of the protected
    keys, [Read] gives the value that was written or none.  The key is one of bytes and
    none of the cache's own, and sizes and times are in range (write_ok_, operation_ok). *)
Theorem Read_last_written s now now' k v e os s1 :
  good s -> protected_cache_ s = None -> ordinary k -> bytes_key k -> in_memory k (AnyBytes v) ->
  write_ok_ None now k v e -> 0 < e <= kDefaultExpiry -> Write now k (Some v) e s = Some (s1, inl tt) ->
  Forall (operation_ok None) os -> Forall (leaves k) os ->
  exists s2 s3 r, perform_all os s1 = Some (s2, tt) /\ Read now' k s2 = Some (s3, r) /\ forall v', r = inl v' -> v' = v.
Proof.
  intros Hg Hp Ho Hb Hx Hw He E Hos Hl. pose proof (Write_only s now k v e s1 Hg Hp Ho Hx Hw He E) as Hg1.
  destruct (perform_all_ok (P := only_value k v) None os) with (s := s1) as (s2 & [] & E2 & Hs2 & _).
  { rewrite Forall_forall in *. intros o Hin. apply operation_ok_only; auto. }
  { by apply ok_none. }
  destruct (safe_Read (P := only_value k v) None now' k) with (s := s2) as (s3 & r & E3 & _ & _ & Hr); [|done|].
  { exact (operation_ok_only None k v (ORead now' k) Ho Hb I). }
  exists s2, s3, r. split; [done|]. split; [done|]. intros v' Er. specialize (Hr v' Er). cbn [in_memory only_value] in Hr.
  rewrite decide_True in Hr by done. congruence.
Qed.

End last_written.

Section opening.
Context {DB : Type} `{LevelDBLaws DB} {A : Type} `{P : Policy A}.
Abbreviation Cache := (DefaultCache (DB := DB) (A := A)).
Implicit Types (s : Cache) (k : key) (pk : option key).

(** ** What an eviction takes *)

Definition deletes_of (p : key * ValueProperties) : list batch_op :=
  BDelete p.1 :: (if IsExpiryValid (props_expiry p.2) then [BDelete (CreateExpiryKey p.1)] else []).

Definition item_size (p : key * ValueProperties) : Z :=
  slen p.1 + props_size p.2 + (if IsExpiryValid (props_expiry p.2) then slen (CreateExpiryKey p.1) + kExpiryValueSize else 0).

Definition items_size (l : list (key * ValueProperties)) : Z := foldr (fun p n => item_size p + n) 0 l.

Lemma item_size_nonneg p : 0 <= props_size p.2 -> 0 <= item_size p.
Proof. intros. unfold item_size, slen, kExpiryValueSize. destruct (IsExpiryValid _); lia. Qed.

Lemma items_size_nonneg l : Forall (fun p => 0 <= props_size p.2) l -> 0 <= items_size l.
Proof. induction 1 as [|p l Hp _ IH]; [done|]. pose proof (item_size_nonneg p Hp). unfold items_size in *. cbn [foldr]. lia. Qed.

Lemma evict_oldest_exact target r : forall batch ev,
  0 <= ev -> Forall (fun p => 0 <= props_size p.2) r -> ev + items_size r < 2^64 ->
  exists n, (n <= length r)%nat /\
    evict_oldest r target batch ev = (drop n r, (batch ++ mjoin (deletes_of <$> take n r), ev + items_size (take n r))) /\
    (n = length r \/ target <= ev + items_size (take n r)) /\
    forall m, (m < n)%nat -> ev + items_size (take m r) < target.
Proof.
  induction r as [|[k p] r IH]; intros batch ev Hev Hr Hlt.
  { exists O. cbn. rewrite app_nil_r, Z.add_0_r. split_and!; [lia|done|by left|lia]. }
  apply Forall_cons in Hr as [Hp Hr]. cbn [snd] in Hp.
  change (items_size ((k, p) :: r)) with (item_size (k, p) + items_size r) in Hlt.
  pose proof (items_size_nonneg r Hr) as Hn. pose proof (item_size_nonneg (k, p) Hp) as Hi.
  cbn [evict_oldest]. destruct (Z.ltb_spec ev target) as [Ht|Ht].
  2: { exists O. cbn. rewrite app_nil_r, Z.add_0_r. split_and!; [lia|done|by right|lia]. }
  assert (E : exists b e,
    (if IsExpiryValid (props_expiry p)
     then evict_oldest r target ((batch ++ [BDelete k]) ++ [BDelete (CreateExpiryKey k)])
            (u64 (u64 (ev + slen k + props_size p) + slen (CreateExpiryKey k) + kExpiryValueSize))
     else evict_oldest r target (batch ++ [BDelete k]) (u64 (ev + slen k + props_size p))) = evict_oldest r target b e /\
    b = batch ++ deletes_of (k, p) /\ e = ev + item_size (k, p)).
  { unfold deletes_of, item_size in *. cbn [fst snd] in *. unfold slen in *. destruct (IsExpiryValid (props_expiry p)).
    - eexists _, _. split; [done|]. split; [by rewrite <- app_assoc|].
      unfold kExpiryValueSize in *. rewrite !u64_small by (unfold is_u64; rewrite ?u64_small by (unfold is_u64; lia); lia). lia.
    - eexists _, _. split; [done|]. split; [done|]. rewrite u64_small by (unfold is_u64; lia). lia. }
  destruct E as (b & e & -> & -> & ->).
  destruct (IH (batch ++ deletes_of (k, p)) (ev + item_size (k, p)) ltac:(lia) Hr ltac:(lia)) as (n & Hn1 & -> & Hend & Hmin).
  exists (S n). cbn [drop take firstn skipn fmap list_fmap mjoin list_join length].
  change (items_size ((k, p) :: take n r)) with (item_size (k, p) + items_size (take n r)).
  rewrite <- app_assoc, Z.add_assoc. split_and!; [lia|done|destruct Hend; [left|right]; lia|].
  intros [|m] Hm; cbn [take firstn].
  - change (items_size []) with 0. lia.
  - change (items_size ((k, p) :: take m r)) with (item_size (k, p) + items_size (take m r)). specialize (Hmin m). lia.
Qed.

(** [EvictDataPortion] takes the least recently used keys, as few as reach the
    target size (all of them when none do), deletes them with their expiry entries,
    and reports the size of what it took. *)
Theorem EvictDataPortion_oldest s l sp target :
  good s -> mutable_cache_lru_ s = Some l -> repr one_cost l sp ->
  Forall (fun p => 0 <= props_size p.2) (spec_list sp) -> items_size (reverse (spec_list sp)) < 2^64 ->
  exists n s' l' (r := reverse (spec_list sp)),
    EvictDataPortion target s = Some (s', (mjoin (deletes_of <$> take n r), items_size (take n r))) /\
    mutable_cache_lru_ s' = Some l' /\ repr one_cost l' (mkSpec (spec_max sp) (reverse (drop n r))) /\
    (n = length r \/ target <= items_size (take n r)) /\
    forall m, (m < n)%nat -> items_size (take m r) < target.
Proof.
  intros Hg El Hr Hsz Htot. assert (Hs : ok None s) by (split; [done|]; by intros ?).
  destruct (EvictDataPortion_run None target s l sp Hs El Hr) as (s' & a & E & _ & _ & _ & -> & l' & El' & Hr').
  destruct (evict_oldest_exact target (reverse (spec_list sp)) [] 0) as (n & _ & E2 & Hend & Hmin);
    [done|by apply Forall_reverse|lia|].
  rewrite E2 in E, Hr'. cbn [fst snd app] in *. exists n, s', l'. rewrite Z.add_0_l in E.
  split; [done|]. split; [done|]. split; [done|]. split; [destruct Hend; [by left|right; lia]|]. intros m Hm. specialize (Hmin m Hm). lia.
Qed.

(** ** Filling the LRU list *)

(** The entries that [InitializeLru] can read. *)
Definition readable_entries (es : list (key * bytes)) : Prop := forall k v, (k, v) ∈ es -> IsExpiryKey k = true -> is_Some (stoll v).

Lemma runs_init_lru_loop pk es : readable_entries es -> forall s (Q : Cache -> unit -> Prop), ok pk s ->
  (forall s', ok pk s' -> keeps pk s s' -> mutable_cache_ s' = mutable_cache_ s -> protected_keys_ s' = protected_keys_ s -> Q s' tt) -> runs (init_lru_loop es) s Q.
Proof.
  induction es as [|[k v] es IH]; intros Hes s Q Hs HQ; cbn [init_lru_loop]; [rstep; by apply HQ|].
  rstep. apply (runs_add_size pk); [done|]. intros s1 Hs1 K1 Em1 _ _ Ek1 _. rstep.
  apply (runs_AddKeyLru pk); [done| |].
  { intros Hk. apply (Hes k v); [left|done]. }
  intros s2 b Hs2 K2 Em2 Ek2. apply IH; [|done|].
  - intros k' v' Hin. apply Hes. by right.
  - intros s3 Hs3 K3 Em3 Ek3. apply HQ; [done| |congruence|congruence]. by do 2 (etransitivity; [|eassumption]).
Qed.

(** ** Opening *)

(** A directory with a database that opens. *)
Record opens (env : OpenEnv DB) (d : DB) : Prop := {
  opens_dir : dir_exists env = true;
  opens_only : directories env = [];
  opens_first : first_open env = (Ok, d) }.

Lemma Open_opens c env path max d : opens env d ->
  DiskCache.Open c env path max false true = (mkDisk path (Some d) max, Success).
Proof. intros [E1 E2 E3]. unfold DiskCache.Open, open_or_repair, finish_open. rewrite E1, E2, E3. cbn. reflexivity. Qed.

(** The text of the list of protected keys in the database. *)
Definition keys_stored (m : gmap key bytes) (l : list key) : Prop :=
  ProtectedKeyList.inv l /\ Forall storable l /\
  match m !! kProtectedKeys with Some value => value <> [] /\ serialize l = Some value | None => l = [] end.

Lemma Deserialize_stored l value : ProtectedKeyList.inv l -> Forall storable l -> serialize l = Some value ->
  protected_data_ (fst (Deserialize ProtectedKeyList_new (Some value))) = l.
Proof.
  intros Hi Hst E. destruct (serialize_lines l Hst) as (value' & E' & El). rewrite E in E'. injection E' as <-.
  cbn [Deserialize fst protected_data_ ProtectedKeyList_new]. by rewrite El, set_insert_all.
Qed.

Lemma storable_keys_ok keys : ProtectedKeyList.inv (protected_data_ keys) -> Forall storable (protected_data_ keys) -> keys_ok keys.
Proof. intros Hi Hst. split; [done|]. eapply Forall_impl; [exact Hst|]. by intros k [Hk _]. Qed.

(** The list knows whether the database has an entry for it, and is the one that
    the entry gives unless it was changed. *)
Record synced s : Prop := {
  synced_size : 0 < ProtectedKeyList.Size (protected_keys_ s) <-> is_Some (mutable_contents s !! kProtectedKeys);
  synced_clean : IsDirty (protected_keys_ s) = false -> keys_stored (mutable_contents s) (protected_data_ (protected_keys_ s)) }.

(** The settings of a writable mutable cache and nothing else on disk. *)
Record writable (st : CacheSettings) : Prop := {
  writable_path : is_Some (disk_path_mutable st);
  writable_protected : disk_path_protected st = None;
  writable_mode : open_read_only st = false;
  writable_disk : 0 <= max_disk_storage st < 2^63;
  writable_memory : 0 <= max_memory_cache_size st < 2^63 }.

(** The state that [SetupStorage] has when it opens the mutable cache. *)
Lemma fresh_ok pk s m c keys : (forall m', m = Some m' -> memory_ok m') -> disk_ok c -> keys_ok keys -> 0 < eviction_portion_ s ->
  (forall k, pk = Some k -> ordinary k /\ protects (protected_data_ keys) k) ->
  ok (A := A) pk (mkDefault (settings_ s) true m (Some c) None None 0 keys (eviction_portion_ s)).
Proof.
  intros Hm Hc Hk Hp Hpk. split; [split; cbn; try done; by intros ? [= <-]|]. intros k Ek. destruct (Hpk k Ek) as [Ho Hpr].
  split; [|done|done]. apply IsProtected_protects; [apply Hk|done].
Qed.

(** What an opened cache has. *)
Record opened s d (keys : list key) : Prop := {
  opened_open : is_open_ s = true;
  opened_keys : protected_data_ (protected_keys_ s) = keys;
  opened_mutable : exists c, mutable_cache_ s = Some c /\ database_ c = Some d;
  opened_synced : synced s }.

Lemma opened_loop pk s1 s2 d keys : opened s1 d keys -> keeps pk s1 s2 ->
  mutable_cache_ s2 = mutable_cache_ s1 -> protected_keys_ s2 = protected_keys_ s1 -> opened s2 d keys.
Proof.
  intros [Ho Hk Hm [Hs Hc]] K Em Ek. split.
  - by rewrite (keeps_open _ _ _ K).
  - by rewrite Ek.
  - by rewrite Em.
  - split; by rewrite Ek, (mutable_contents_same s1 s2 Em).
Qed.

Lemma runs_SetupMutableCache pk st env d m keys portion :
  writable st -> opens (env_mutable env) d -> entries_ok (contents d) ->
  keys_stored (contents d) keys -> (forall m', m = Some m' -> memory_ok m') -> 0 < portion ->
  (forall k, pk = Some k -> ordinary k /\ protects keys k) ->
  runs (SetupMutableCache env) (mkDefault st true m None None None 0 ProtectedKeyList_new portion) (fun s' r =>
    r = OpenSuccess /\ ok (A := A) pk s' /\ opened s' d keys).
Proof.
  intros [[path Ep] _ Hmode Hdisk _] Hopen Hd (Hi & Hst & Hkeys) Hm Hpo Hpk. unfold SetupMutableCache.
  rstep. rstep. cbn [settings_]. rstep. eapply runs_lift; [exact Ep|]. cbv beta. rewrite Hmode, (Open_opens _ _ _ _ d Hopen).
  set (c := mkDisk path (Some d) (max_disk_storage st)).
  rstep. rstep. cbn [set_mutable]. rstep. rstep. rstep. rstep.
  set (ks := match DiskCache.Get _ kProtectedKeys with inl _ => _ | inr _ => _ end).
  assert (Eks : ks = match contents d !! kProtectedKeys with
                     | Some v => fst (Deserialize ProtectedKeyList_new (Some v)) | None => ProtectedKeyList_new end).
  { unfold ks. rewrite (DiskCache.disk_Get_spec c d kProtectedKeys eq_refl). destruct (contents d !! kProtectedKeys) as [v|]; [|done].
    destruct Hkeys as [Hne Hv]. by rewrite bool_decide_true by done. }
  clearbody ks. assert (Ekd : protected_data_ ks = keys).
  { subst ks. destruct (contents d !! kProtectedKeys) as [v|]; [|by subst keys]. destruct Hkeys as [Hne Hv]. by apply Deserialize_stored. }
  assert (Hks : keys_ok ks) by (apply storable_keys_ok; by rewrite Ekd).
  assert (Hc : disk_ok c) by by exists d.
  assert (E : negb (max_disk_storage st =? kMaxDiskSize) = true).
  { unfold kMaxDiskSize. destruct (Z.eqb_spec (max_disk_storage st) (2^64 - 1)); [lia|done]. }
  rewrite E. cbn [andb set_keys settings_ is_open_ memory_cache_ mutable_cache_ mutable_cache_lru_ protected_cache_ mutable_cache_data_size_ eviction_portion_].
  rewrite <- Ekd in Hpk.
  pose proof (fresh_ok pk (mkDefault st true m (Some c) None None 0 ks portion) m c ks Hm Hc Hks Hpo Hpk) as Hok. cbn in Hok.
  assert (Hop : forall l n, opened (mkDefault (A := A) st true m (Some c) l None n ks portion) d keys).
  { intros l n. split; [done|done|by exists c|]. set (s0 := mkDefault _ _ _ _ _ _ _ _ _).
    split; rewrite (mutable_contents_eq s0 c d eq_refl eq_refl); cbn [s0 protected_keys_].
    - subst ks. destruct (contents d !! kProtectedKeys) as [v|]; cbn; split; intros Hx; [by exists v| |done|by destruct Hx].
      destruct Hkeys as [Hne _]. by destruct v.
    - intros _. split; [by rewrite Ekd|]. split; [by rewrite Ekd|]. rewrite Ekd. done. }
  rstep. destruct (evict_least_recently_used st).
  - unfold InitializeLru. rstep. rstep. cbn [set_keys set_mutable mutable_cache_ settings_]. repeat rstep.
    eapply runs_lift; [reflexivity|]. cbn [set_size set_lru settings_ is_open_ memory_cache_ mutable_cache_ protected_cache_ mutable_cache_data_size_ protected_keys_ eviction_portion_].
    assert (Hl : lru_ok pk (LruCache_new (max_disk_storage st))).
    { eapply lru_ok_intro; [by apply (repr_new one_cost (max_disk_storage st))|]. by intros k _ ?%elem_of_nil. }
    destruct (ok_set_lru pk _ (LruCache_new (max_disk_storage st)) Hok Hl) as [Hs1 K1]. cbn in Hs1.
    apply (runs_init_lru_loop pk); [intros k v; by apply (readable_contents d)|exact Hs1|]. intros s2 Hs2 K2 Em2 Ek2. repeat rstep. split; [done|]. split; [done|].
    eapply (opened_loop pk); [apply Hop|done|done|done].
  - repeat rstep. split; [done|]. split; [|apply Hop]. apply (ok_set_size pk _ _ Hok).
Qed.

Lemma InMemoryCache_new_ok max : 0 <= max < 2^63 -> memory_ok (InMemoryCache_new (A := any (A := A)) max).
Proof.
  intros Hmax. exists (mkSpec max []). split; [by apply (repr_new DefaultCacheCost)|]. by intros p ?%elem_of_nil.
Qed.

Lemma runs_Open pk s env d keys :
  writable (settings_ s) -> opens (env_mutable env) d -> entries_ok (contents d) ->
  keys_stored (contents d) keys -> 0 < eviction_portion_ s -> (forall k, pk = Some k -> ordinary k /\ protects keys k) ->
  runs (Open env) s (fun s' r => r = OpenSuccess /\ ok pk s' /\ opened s' d keys).
Proof.
  intros Hw Hopen Hd Hk Hpo Hpk.
  unfold Open, SetupStorage. repeat rstep. cbn [set_open settings_].
  pose proof (writable_path _ Hw) as [path Ep]. rewrite Ep, (writable_protected _ Hw).
  assert (Hsetup : forall m, (forall m', m = Some m' -> memory_ok m') ->
    runs (result ← SetupMutableCache env; match result with OpenSuccess => mret OpenSuccess | _ => mret result end)
      (mkDefault (settings_ s) true m None None None 0 ProtectedKeyList_new (eviction_portion_ s))
      (fun s' r => r = OpenSuccess /\ ok pk s' /\ opened s' d keys)).
  { intros m Hm. rstep. eapply runs_mono; [by apply (runs_SetupMutableCache pk _ _ d m keys)|].
    intros s' r (-> & Hs' & Ho). by rstep. }
  destruct (max_memory_cache_size (settings_ s) >? 0); rstep; cbv beta; apply Hsetup; [|done].
  intros m' [= <-]. apply InMemoryCache_new_ok, (writable_memory _ Hw).
Qed.

(** opening a writable cache succeeds, whatever the state before, and gives a
    state of the invariant with the entries of the database, the protected keys
    stored in it, the list of keys in step with its entry, and no protected key among
    those that can be evicted. *)
Theorem Open_establishes s env d keys :
  writable (settings_ s) -> opens (env_mutable env) d -> entries_ok (contents d) ->
  keys_stored (contents d) keys -> 0 < eviction_portion_ s ->
  exists s', Open env s = Some (s', OpenSuccess) /\ good s' /\ opened s' d keys /\
    forall k, ordinary k -> protects keys k -> guarded_key s' k.
Proof.
  intros Hw Hopen Hd Hk Hpo.
  destruct (runs_Open None s env d keys) as (s' & r & E & -> & [Hg _] & Ho); [done..|].
  exists s'. split_and!; [done|done|done|]. intros k Hok Hpr.
  destruct (runs_Open (Some k) s env d keys) as (s2 & r2 & E2 & _ & Hs2 & _); [done..|by intros ? [= <-]|].
  rewrite E in E2. injection E2 as <- _. by apply (ok_guarded _ _ Hs2).
Qed.

(** ** Keeping the protected keys *)

(** The database accepts every batch. *)
Definition db_writes (d : DB) : Prop := forall (b : list batch_op), fst (db_write b d) = Ok.

Lemma runs_apply_batch_writes s c d (b : list batch_op) (Q : Cache -> Outcome unit -> Prop) :
  db_writes d -> mutable_cache_ s = Some c -> database_ c = Some d ->
  (forall d', contents d' = apply_batch b (contents d) -> Q (set_mutable (Some (with_database c (Some d'))) s) (inl tt)) ->
  runs (apply_batch_ b) s Q.
Proof.
  intros Hw Ec Ed HQ. unfold apply_batch_. rstep. rstep. rstep. eapply runs_lift; [exact Ec|]. cbv beta.
  unfold ApplyBatch. rewrite Ed. pose proof (Hw b) as Hb. destruct (db_write b d) as [st d'] eqn:E.
  cbn [fst] in Hb. subst st. rewrite bool_decide_true by done. rstep. rstep. rstep. apply HQ. by apply (write_ok b d d').
Qed.

(** The batch of [MaybeUpdatedProtectedKeys] stores the list. *)
Lemma runs_updated_keys s : synced s -> good s -> Forall storable (protected_data_ (protected_keys_ s)) ->
  runs MaybeUpdatedProtectedKeys s (fun s1 a =>
    (exists keys, s1 = set_keys keys s) /\
    keys_stored (apply_batch (fst a) (mutable_contents s)) (protected_data_ (protected_keys_ s)) /\
    forall k, k <> kProtectedKeys -> apply_batch (fst a) (mutable_contents s) !! k = mutable_contents s !! k).
Proof.
  intros [Hsize Hclean] Hg Hst. pose proof (good_keys _ Hg) as [Hi _]. unfold MaybeUpdatedProtectedKeys. rstep. rstep.
  destruct (IsDirty (protected_keys_ s)).
  2: { rstep. split_and!; [|by apply Hclean|done]. exists (protected_keys_ s). by destruct s. }
  destruct (serialize_lines _ Hst) as (value & Ev & Hlines).
  rstep. eapply runs_lift; [unfold Serialize; rewrite Ev; reflexivity|]. rstep. rstep.
  destruct (Z.gtb_spec (slen value) 0) as [Hpos|Hpos]; [|destruct (Z.gtb_spec (ProtectedKeyList.Size (protected_keys_ s)) 0) as [Hp|Hp]];
    rstep; cbn [fst apply_batch foldl apply_op].
  - split_and!; [by eexists| |intros k Hk; by rewrite lookup_insert_ne].
    split; [done|]. split; [done|]. rewrite lookup_insert_eq. split; [|done]. by intros ->.
  - assert (value = []) as -> by (destruct value; [done|unfold slen in Hpos; cbn in Hpos; lia]).
    split_and!; [by eexists| |intros k Hk; by rewrite lookup_delete_ne]. split; [done|]. split; [done|]. by rewrite lookup_delete_eq.
  - assert (value = []) as -> by (destruct value; [done|unfold slen in Hpos; cbn in Hpos; lia]).
    split_and!; [by eexists| |done]. split; [done|]. split; [done|].
    destruct (mutable_contents s !! kProtectedKeys) eqn:E; [|done]. apply Z.lt_gt, Z.gt_lt in Hp || idtac. exfalso.
    assert (0 < ProtectedKeyList.Size (protected_keys_ s)) by (apply Hsize; by eexists). lia.
Qed.

(** [store_protected_keys] leaves the list of keys in the database. *)
Definition stored_keys s s1 d d1 : Prop :=
  (exists keys c, s1 = set_mutable (Some c) (set_keys keys s) /\ database_ c = Some d1) /\
  keys_stored (contents d1) (protected_data_ (protected_keys_ s)) /\
  forall k, k <> kProtectedKeys -> contents d1 !! k = contents d !! k.

Lemma runs_store s c d : db_writes d -> good s -> synced s -> Forall storable (protected_data_ (protected_keys_ s)) ->
  mutable_cache_ s = Some c -> database_ c = Some d ->
  runs store_protected_keys s (fun s1 _ => exists d1, stored_keys s s1 d d1).
Proof.
  intros Hw Hg Hsy Hst Ec Ed. unfold store_protected_keys. rstep. rstep. cbn [id]. rewrite Ec.
  destruct (IsDirty (protected_keys_ s)) eqn:Edirty.
  - rstep. eapply runs_mono; [by apply runs_updated_keys|]. intros s1 [ops z] ([keys ->] & H1 & H2). cbn [fst] in *.
    rewrite (mutable_contents_eq s c d Ec Ed) in *.
    rstep. apply (runs_apply_batch_writes _ c d); [done|done|done|]. intros d1 E1. rstep. exists d1. split; [by eexists _, _|].
    by rewrite E1.
  - rstep. exists d. split; [|split; [|done]].
    + exists (protected_keys_ s), c. split; [|done]. destruct s. cbn in *. by subst.
    + rewrite <- (mutable_contents_eq s c d Ec Ed). by apply (synced_clean s Hsy).
Qed.

Lemma stored_entries_ok (m m1 : gmap key bytes) : entries_ok m ->
  (forall k, k <> kProtectedKeys -> m1 !! k = m !! k) -> entries_ok m1.
Proof.
  intros [H1 H2 H3] Hsame. split.
  - intros k v Hx E. apply (H1 k v Hx). rewrite <- Hsame; [done|]. by intros ->.
  - intros k v Hk E. apply (H2 k v Hk). by rewrite <- Hsame.
  - intros k v Ho E. apply (H3 k v Ho). rewrite <- Hsame; [done|]. apply Ho.
Qed.

(** C30: closing a cache whose database accepts writes stores the protected keys and
    changes no other entry; opening that database again gives a state of the
    invariant that protects the same keys. *)
Theorem protected_keys_persist s c d :
  db_writes d -> good s -> synced s -> Forall storable (protected_data_ (protected_keys_ s)) ->
  is_open_ s = true -> mutable_cache_ s = Some c -> database_ c = Some d -> writable (settings_ s) ->
  exists s1 s2 d1, store_protected_keys s = Some (s1, tt) /\ stored_keys s s1 d d1 /\
    Close s = Some (s2, tt) /\ is_open_ s2 = false /\ protected_data_ (protected_keys_ s2) = [] /\
    forall env, opens (env_mutable env) d1 ->
      exists s3, Open env s2 = Some (s3, OpenSuccess) /\ good s3 /\ opened s3 d1 (protected_data_ (protected_keys_ s)).
Proof.
  intros Hw Hg Hsy Hst Hop Ec Ed Hset.
  destruct (runs_store s c d) as (s1 & [] & E1 & d1 & Hsk); [done..|].
  assert (Hclose : runs Close s (fun s2 _ => is_open_ s2 = false /\ protected_data_ (protected_keys_ s2) = [] /\ settings_ s2 = settings_ s /\
    eviction_portion_ s2 = eviction_portion_ s)).
  { unfold Close. rstep. rstep. rewrite Hop. cbn [negb].
    assert (Hs' : runs store_protected_keys (set_memory None s) (fun s1 _ => settings_ s1 = settings_ s /\ eviction_portion_ s1 = eviction_portion_ s)).
    { eapply runs_mono; [apply (runs_store _ c d); try done|].
      - destruct Hg. split; cbn; try done.
      - destruct Hsy. by split.
      - intros s1' _ (d1' & (keys & c1 & -> & _) & _). done. }
    rstep. rstep. unfold DestroyCache. rstep. rstep. eapply runs_mono; [exact Hs'|]. cbv beta. intros s1' [] [H1 H2]. by repeat rstep. }
  destruct Hclose as (s2 & [] & E2 & Hop2 & Hk2 & Hset2 & Hpo2). exists s1, s2, d1.
  split_and!; try done. intros env Henv. destruct Hsk as (_ & Hks & Hsame).
  destruct (good_mutable s Hg c Ec) as (d0 & Ed0 & He). rewrite Ed in Ed0. injection Ed0 as <-.
  pose proof (stored_entries_ok (contents d) (contents d1) He Hsame) as H1.
  destruct (runs_Open None s2 env d1 (protected_data_ (protected_keys_ s))) as (s3 & r & E3 & -> & [Hg3 _] & Ho3);
    [by rewrite Hset2|done|done|done|rewrite Hpo2; apply Hg|done|eauto].
Qed.
End opening.

(** ** Concrete inputs *)

Lemma map_Forall_compute {B} (P : key -> B -> Prop) `{forall k b, Decision (P k b)} (m : gmap key B) :
  bool_decide (map_Forall P m) = true -> forall k b, m !! k = Some b -> P k b.
Proof. intros E. by apply bool_decide_eq_true in E. Qed.

Definition sample_records : gmap key bytes := list_to_map
  [(chars "a/1", chars "one"); (chars "a/2", chars "two"); (chars "b", chars "three");
   (chars "b::expiry", chars "500"); (kProtectedKeys, chars "a/" ++ ["000"%char])].

Definition sample_db : MemoryDB := mkMemoryDB false sample_records.
Definition sample_settings : CacheSettings := mkSettings (Some (chars "/cache")) None 1000 100 false true.

Definition sample_open_env (st : Status) (d : MemoryDB) : OpenEnv MemoryDB :=
  mkEnv true true [] (st, d) Ok (Ok, d) Ok Ok (Ok, d) (fun _ => 0).

Definition sample_environment (d : MemoryDB) : Environment :=
  mkEnvironment (sample_open_env Ok d) (sample_open_env Ok d) (sample_open_env Ok d) false.

Abbreviation SampleCache := (DefaultCache (DB := MemoryDB) (A := nat)).

Definition sample_new : SampleCache := DefaultCache_new sample_settings.

(** The cache that opens the database. *)
Definition sample_cache : SampleCache :=
  match Open (sample_environment sample_db) sample_new with Some (s, _) => s | None => sample_new end.

Lemma sample_writable : writable sample_settings.
Proof. by split; [eexists|..]. Qed.

Lemma sample_opens d : opens (env_mutable (sample_environment d)) d.
Proof. by split. Qed.

(** The policy of a cache with bytes only. *)
#[local] Instance bytes_only : Policy nat := mkPolicy nat (fun _ x => exists v, x = AnyBytes v) (fun _ _ => True).

Lemma bytes_only_key k : k <> kProtectedKeys -> bytes_key k.
Proof. intros Hk. split; [done|done|]. intros v _. by exists v. Qed.

Lemma sample_entries : entries_ok sample_records.
Proof.
  split; [| |done].
  - intros k v Hx E. revert k v E Hx. apply (map_Forall_compute (fun k v => IsExpiryKey k = true -> is_Some (stoll v))). vm_compute. reflexivity.
  - intros k v _ E. revert k v E.
    apply (map_Forall_compute (fun _ v => slen v < 2^63) (H := fun _ v => Z_lt_dec (slen v) (2^63))). vm_compute. reflexivity.
Qed.

Lemma sample_keys_stored : keys_stored sample_records [chars "a/"].
Proof.
  assert (E : sample_records !! kProtectedKeys = Some (chars "a/" ++ ["000"%char])) by (vm_compute; reflexivity).
  split; [repeat constructor|]. split; [|by rewrite E]. apply Forall_singleton. split; [done|].
  by apply (bool_decide_unpack ("000"%char ∉ chars "a/")); vm_compute.
Qed.

Lemma Open_establishes_witness : exists s',
  Open (sample_environment sample_db) sample_new = Some (s', OpenSuccess) /\ good s' /\ opened s' sample_db [chars "a/"] /\
  forall k, ordinary k -> protects [chars "a/"] k -> guarded_key s' k.
Proof.
  pose proof (MemoryDB_contents sample_db) as E. cbn [records sample_db] in E.
  apply (Open_establishes sample_new); rewrite ?E;
    [exact sample_writable|apply sample_opens|exact sample_entries|exact sample_keys_stored|reflexivity].
Defined.

Lemma sample_cache_good : good sample_cache /\ opened sample_cache sample_db [chars "a/"].
Proof.
  pose proof (MemoryDB_contents sample_db) as E. cbn [records sample_db] in E.
  destruct (runs_Open None sample_new (sample_environment sample_db) sample_db [chars "a/"]) as (s & r & E1 & -> & [Hg _] & Ho); rewrite ?E;
    [exact sample_writable|apply sample_opens|exact sample_entries|exact sample_keys_stored|reflexivity|by intros ?|].
  revert E1. unfold sample_cache. generalize (Open (sample_environment sample_db) sample_new).
  intros o ->. exact (conj Hg Ho).
Qed.

(** Evaluates a computation of the sample. *)
Definition after_ (s : SampleCache) {B} (m : state SampleCache B) : SampleCache :=
  match m s with Some (s', _) => s' | None => s end.

Definition sample_operations : list (cache_operation (A := nat)) :=
  [OWrite 100 (chars "c") (chars "value") 5; ODelete (chars "a/1"); ODeleteByPrefix (chars "a"); ORead 100 (chars "a/1");
   OResize 100 1; OWrite 100 (chars "d") (chars "more") kDefaultExpiry; OPromote (chars "b"); OContains 200 (chars "c");
   OProtect [chars "d"; chars "b"]; ORelease [chars "b"; chars "d"]].

Ltac sample_write := split; [split_and!; first [done|cbn; intros; lia]|split; [by eexists|done]].

Lemma sample_operations_ok pk : pk = None \/ pk = Some (chars "a/1") -> Forall (operation_ok pk) sample_operations.
Proof.
  intros Hpk. unfold sample_operations. repeat apply Forall_cons_2; try apply Forall_nil_2; try exact I.
  - destruct Hpk as [-> | ->]; sample_write.
  - by apply bytes_only_key.
  - destruct Hpk as [-> | ->]; sample_write.
  - done.
  - done.
  - intros k -> k' Hin. destruct Hpk as [?|[= ->]]; [done|]. revert k' Hin. apply Forall_forall.
    repeat (apply Forall_cons_2; [by apply (bool_decide_unpack _)|]). apply Forall_nil_2.
Qed.





(** A state after a write, for the two properties of what is read later. *)
Definition sample_written : SampleCache := after_ sample_cache (Write 100 (chars "c") (Some (chars "value")) 5).

Lemma Write_Read_witness : exists s2, Read 104 (chars "c") sample_written = Some (s2, inl (chars "value")).
Proof.
  apply (Write_Read sample_cache 100 104 (chars "c") (chars "value") 5).
  - exact (proj1 sample_cache_good).
  - vm_compute. reflexivity.
  - destruct (opened_mutable _ _ _ (proj2 sample_cache_good)) as (c & E & _). by exists c.
  - vm_compute. reflexivity.
  - by apply bytes_only_key.
  - by eexists.
  - split_and!; first [done|cbn; intros; lia].
  - by intros ?.
  - done.
  - intros _. lia.
  - by intros ?.
  - vm_compute. reflexivity.
Defined.

Lemma Read_last_written_witness : exists s2 s3 r,
  perform_all (tail sample_operations) sample_written = Some (s2, tt) /\ Read 104 (chars "c") s2 = Some (s3, r) /\
  forall v', r = inl v' -> v' = chars "value".
Proof.
  apply (Read_last_written sample_cache 100 104 (chars "c") (chars "value") 5).
  - exact (proj1 sample_cache_good).
  - vm_compute. reflexivity.
  - by split.
  - by apply bytes_only_key.
  - by eexists.
  - split_and!; first [done|cbn; intros; lia].
  - done.
  - vm_compute. reflexivity.
  - exact (Forall_tail _ _ (sample_operations_ok None (or_introl eq_refl))).
  - repeat (apply Forall_cons_2; [done|]). apply Forall_nil_2.
Defined.

Lemma sample_db_writes : db_writes sample_db.
Proof. by intros b. Qed.

Lemma sample_disk_ok : mutable_cache_ sample_cache = Some (mkDisk (chars "/cache") (Some sample_db) 1000).
Proof. vm_compute. reflexivity. Qed.

Lemma protected_keys_persist_witness : exists s1 s2 d1,
  store_protected_keys sample_cache = Some (s1, tt) /\ stored_keys sample_cache s1 sample_db d1 /\
  Close sample_cache = Some (s2, tt) /\ is_open_ s2 = false /\ protected_data_ (protected_keys_ s2) = [] /\
  forall env, opens (env_mutable env) d1 ->
    exists s3, Open env s2 = Some (s3, OpenSuccess) /\ good s3 /\ opened s3 d1 (protected_data_ (protected_keys_ sample_cache)).
Proof.
  pose proof (MemoryDB_contents sample_db) as E. cbn [records sample_db] in E.
  apply (protected_keys_persist sample_cache (mkDisk (chars "/cache") (Some sample_db) 1000) sample_db).
  - exact sample_db_writes.
  - exact (proj1 sample_cache_good).
  - exact (opened_synced _ _ _ (proj2 sample_cache_good)).
  - rewrite (opened_keys _ _ _ (proj2 sample_cache_good)). exact (proj1 (proj2 sample_keys_stored)).
  - exact (opened_open _ _ _ (proj2 sample_cache_good)).
  - exact sample_disk_ok.
  - reflexivity.
  - exact sample_writable.
Defined.

(** A cache with two keys in its LRU list. *)
Definition lru_items_ : list (key * ValueProperties) :=
  [(chars "new", mkProps 5 kDefaultExpiry); (chars "old", mkProps 7 500)].

Lemma sample_lru : exists l, repr one_cost l (mkSpec 10 lru_items_).
Proof.
  pose proof (repr_new one_cost (K := key) 10 ltac:(lia)) as H0.
  destruct (InsertOrAssign_client one_cost one_cost_nonneg _ _ (chars "old") (mkProps 7 500) H0) as (l1 & r1 & _ & _ & H1); [done|].
  destruct (InsertOrAssign_client one_cost one_cost_nonneg _ _ (chars "new") (mkProps 5 kDefaultExpiry) H1) as (l2 & r2 & _ & _ & H2); [done|].
  by exists l2.
Qed.

Definition sample_with_lru l : SampleCache :=
  mkDefault sample_settings true None (Some (mkDisk (chars "/cache") (Some sample_db) 1000)) (Some l) None 20 ProtectedKeyList_new 100.

Lemma EvictDataPortion_oldest_witness : exists l n s' l' (r := reverse lru_items_),
  EvictDataPortion 8 (sample_with_lru l) = Some (s', (mjoin (deletes_of <$> take n r), items_size (take n r))) /\
  mutable_cache_lru_ s' = Some l' /\ repr one_cost l' (mkSpec 10 (reverse (drop n r))) /\
  (n = length r \/ 8 <= items_size (take n r)) /\ forall m, (m < n)%nat -> items_size (take m r) < 8.
Proof.
  destruct sample_lru as [l Hr]. exists l.
  apply (EvictDataPortion_oldest (sample_with_lru l) l (mkSpec 10 lru_items_) 8); [|done|done| |done].
  - split; cbn; try done.
    + intros l' [= <-]. by eexists.
    + intros c [= <-]. exists sample_db. split; [done|]. rewrite MemoryDB_contents. exact sample_entries.
    + split; [constructor|apply Forall_nil_2].
  - repeat (apply Forall_cons_2; [done|]). apply Forall_nil_2.
Defined.

(** ** Behaviour at the edges *)

(** The value of a computation. *)
Definition outcome {B} (m : state SampleCache B) (s : SampleCache) : option B := snd <$> m s.

Definition entry (k : key) : state SampleCache (option bytes) := gets (fun s => lookup_mutable s k).

Definition prefix_db : MemoryDB :=
  mkMemoryDB false (list_to_map [(chars "a", chars "one"); (chars "a/1", chars "two"); (chars "a/2", chars "three")]).

(** Protecting a key that is itself in the LRU list removes it from the list but
    not the keys it is a prefix of: these are protected and are evicted all the same. *)
Theorem Protect_leaves_evictable :
  outcome (_ ← Open (sample_environment prefix_db);
           protected ← Protect [chars "a"];
           is_protected ← IsProtected_ (chars "a/1");
           before ← entry (chars "a/1");
           _ ← Resize_ 100 1;
           after ← entry (chars "a/1");
           mret (protected, is_protected, before, after)) sample_new
  = Some (true, true, Some (chars "two"), None).
Proof. vm_compute. reflexivity. Qed.

Definition no_memory : SampleCache := DefaultCache_new (mkSettings (Some (chars "/cache")) None 1000 0 false true).

(** A [Write] without an expiry keeps the expiry entry of an earlier value of the
    key: the new value is lost when that expires, although [Contains] says it is there. *)
Theorem Write_keeps_old_expiry :
  outcome (_ ← Open (sample_environment prefix_db);
           first ← Write 100 (chars "k") (Some (chars "old")) 10;
           second ← Write 105 (chars "k") (Some (chars "new")) kDefaultExpiry;
           now ← Read 109 (chars "k");
           contains ← Contains 200 (chars "k");
           later ← Read 200 (chars "k");
           mret (first, second, now, contains, later)) no_memory
  = Some (inl tt, inl tt, inl (chars "new"), true, inr NotFound).
Proof. vm_compute. reflexivity. Qed.

(** An empty value is stored and not found again: the database takes an empty value for
    none. *)
Theorem Write_empty_lost :
  outcome (_ ← Open (sample_environment prefix_db);
           written ← Write 100 (chars "k") (Some []) kDefaultExpiry;
           stored ← entry (chars "k");
           found ← Read 100 (chars "k");
           mret (written, stored, found)) no_memory
  = Some (inl tt, Some [], inr NotFound).
Proof. vm_compute. reflexivity. Qed.

Definition behind_protected : SampleCache :=
  DefaultCache_new (mkSettings (Some (chars "/cache")) (Some (chars "/protected")) 1000 0 false true).

(** A value of the protected cache hides what is written. *)
Theorem Write_behind_protected :
  outcome (_ ← Open (sample_environment prefix_db);
           written ← Write 100 (chars "a/1") (Some (chars "new")) kDefaultExpiry;
           found ← Read 100 (chars "a/1");
           mret (written, found)) behind_protected
  = Some (inl tt, inl (chars "two")).
Proof. vm_compute. reflexivity. Qed.

Definition read_only_new : SampleCache :=
  DefaultCache_new (mkSettings (Some (chars "/cache")) None 1000 100 true true).

Definition corrupted_environment : Environment :=
  mkEnvironment (sample_open_env Corruption sample_db) (sample_open_env Ok sample_db) (sample_open_env Ok sample_db) false.

(** Opening a corrupted mutable cache read-only, with the LRU policy, uses a null
    iterator. *)
Theorem Open_corrupted_read_only : Open corrupted_environment read_only_new = None.
Proof. vm_compute. reflexivity. Qed.

(** [Release] of several keys stops at one that a protected prefix covers; the
    keys released before it are then neither protected nor in the LRU list, so that
    [Read] does not find their values. *)
Theorem Release_loses_entries :
  outcome (_ ← Open (sample_environment prefix_db);
           _ ← Write 100 (chars "k") (Some (chars "value")) kDefaultExpiry;
           _ ← Protect [chars "k"; chars "a"];
           released ← Release [chars "k"; chars "a/1"];
           is_protected ← IsProtected_ (chars "k");
           stored ← entry (chars "k");
           found ← Read 100 (chars "k");
           mret (released, is_protected, stored, found)) no_memory
  = Some (false, false, Some (chars "value"), inr NotFound).
Proof. vm_compute. reflexivity. Qed.

(** Writing the same value again adds its size again, so that the data size
    grows without the database growing. *)
Theorem Write_again_size_drifts :
  outcome (_ ← Open (sample_environment (mkMemoryDB false ∅));
           _ ← Write 100 (chars "k") (Some (chars "value")) kDefaultExpiry;
           size1 ← Size kMutable;
           _ ← Write 100 (chars "k") (Some (chars "value")) kDefaultExpiry;
           size2 ← Size kMutable;
           data ← gets (fun s => size_of (mutable_contents s));
           mret (size1, size2, data)) no_memory
  = Some (6, 12, 6).
Proof. vm_compute. reflexivity. Qed.
