(* ===== verification/Crypto.v ===== *)
(** * SHA-256 and HMAC

    Model of [olp::authentication::Crypto] (src/Crypto.cpp of the authentication
    library): the padding into chunks, the compression of a chunk and the keyed
    hash.  Bytes and words are integers, wrapped to 32 bits where the code's
    [uint32_t] arithmetic wraps.  The second half states the algorithms of FIPS
    180-4 and FIPS 198-1 on whole messages and proves the code equal to them. *)

From S2P Require Import Prelude.

Definition ROTR (x n : Z) : Z := Z.lor (Z.shiftr x n) (u32 (Z.shiftl x (32 - n))).
Definition SHA256_CH (x y z : Z) : Z := Z.lxor (Z.land x y) (Z.land (u32 (Z.lnot x)) z).
Definition SHA256_MAJ (x y z : Z) : Z := Z.lxor (Z.lxor (Z.land x y) (Z.land x z)) (Z.land y z).
Definition SHA256_SUM0 (x : Z) : Z := Z.lxor (Z.lxor (ROTR x 2) (ROTR x 13)) (ROTR x 22).
Definition SHA256_SUM1 (x : Z) : Z := Z.lxor (Z.lxor (ROTR x 6) (ROTR x 11)) (ROTR x 25).
Definition SHA256_SIGMA0 (x : Z) : Z := Z.lxor (Z.lxor (ROTR x 7) (ROTR x 18)) (Z.shiftr x 3).
Definition SHA256_SIGMA1 (x : Z) : Z := Z.lxor (Z.lxor (ROTR x 17) (ROTR x 19)) (Z.shiftr x 10).

(** Four constants of the table. *)
Definition row (a b c d : Z) : list Z := [a; b; c; d].

Definition SHA256_K : list Z :=
  row 0x428a2f98 0x71374491 0xb5c0fbcf 0xe9b5dba5 ++
  row 0x3956c25b 0x59f111f1 0x923f82a4 0xab1c5ed5 ++
  row 0xd807aa98 0x12835b01 0x243185be 0x550c7dc3 ++
  row 0x72be5d74 0x80deb1fe 0x9bdc06a7 0xc19bf174 ++
  row 0xe49b69c1 0xefbe4786 0x0fc19dc6 0x240ca1cc ++
  row 0x2de92c6f 0x4a7484aa 0x5cb0a9dc 0x76f988da ++
  row 0x983e5152 0xa831c66d 0xb00327c8 0xbf597fc7 ++
  row 0xc6e00bf3 0xd5a79147 0x06ca6351 0x14292967 ++
  row 0x27b70a85 0x2e1b2138 0x4d2c6dfc 0x53380d13 ++
  row 0x650a7354 0x766a0abb 0x81c2c92e 0x92722c85 ++
  row 0xa2bfe8a1 0xa81a664b 0xc24b8b70 0xc76c51a3 ++
  row 0xd192e819 0xd6990624 0xf40e3585 0x106aa070 ++
  row 0x19a4c116 0x1e376c08 0x2748774c 0x34b0bcb5 ++
  row 0x391c0cb3 0x4ed8aa4a 0x5b9cca4f 0x682e6ff3 ++
  row 0x748f82ee 0x78a5636f 0x84c87814 0x8cc70208 ++
  row 0x90befffa 0xa4506ceb 0xbef9a3f7 0xc67178f2.

Definition Sha256Init : list Z :=
  [0x6a09e667; 0xbb67ae85; 0x3c6ef372; 0xa54ff53a; 0x510e527f; 0x9b05688c; 0x1f83d9ab; 0x5be0cd19].

(** [a[i]] of an array; no access of the code is out of range. *)
Definition at_ (a : list Z) (i : nat) : Z := default 0 (a !! i).

(** The two loops that fill the message schedule. *)
Definition schedule_first (current_chunk : list Z) (start_index : nat) (w : list Z) : list Z :=
  foldl (fun w i =>
           let j := (4 * i)%nat in
           <[i := Z.lor (Z.lor (Z.lor (Z.shiftl (at_ current_chunk (start_index + j)) 24)
                                      (Z.shiftl (at_ current_chunk (start_index + j + 1)) 16))
                               (Z.shiftl (at_ current_chunk (start_index + j + 2)) 8))
                        (at_ current_chunk (start_index + j + 3))]> w)
        w (seq 0 16).

Definition schedule_rest (w : list Z) : list Z :=
  foldl (fun w i =>
           <[i := u32 (SHA256_SIGMA1 (at_ w (i - 2)) + at_ w (i - 7) + SHA256_SIGMA0 (at_ w (i - 15)) +
                       at_ w (i - 16))]> w)
        w (seq 16 48).

(** One round on the working variables. *)
Definition sha_round (w working_var : list Z) (i : nat) : list Z :=
  let v := working_var in
  let t1 := u32 (at_ v 7 + SHA256_SUM1 (at_ v 4) + SHA256_CH (at_ v 4) (at_ v 5) (at_ v 6) + at_ SHA256_K i + at_ w i) in
  let t2 := u32 (SHA256_SUM0 (at_ v 0) + SHA256_MAJ (at_ v 0) (at_ v 1) (at_ v 2)) in
  let v := <[7%nat := at_ v 6]> v in
  let v := <[6%nat := at_ v 5]> v in
  let v := <[5%nat := at_ v 4]> v in
  let v := <[4%nat := u32 (at_ v 3 + t1)]> v in
  let v := <[3%nat := at_ v 2]> v in
  let v := <[2%nat := at_ v 1]> v in
  let v := <[1%nat := at_ v 0]> v in
  <[0%nat := u32 (t1 + t2)]> v.

Definition Sha256Transform (current_chunk : list Z) (start_index : nat) (hash_value : list Z) : list Z :=
  let w := schedule_rest (schedule_first current_chunk start_index (replicate 64 0)) in
  let working_var := foldl (fun v i => <[i := at_ hash_value i]> v) (replicate 8 0) (seq 0 8) in
  let working_var := foldl (sha_round w) working_var (seq 0 64) in
  foldl (fun h i => <[i := u32 (at_ h i + at_ working_var i)]> h) hash_value (seq 0 8).

(** [for (i = from; i < to; i++) v.push_back(0)] *)
Definition push_zeros (v : list Z) (limit : nat) : list Z := v ++ replicate (limit - length v) 0.

(** The chunks that hold the end of the message, the padding and the length. *)
Definition chunks_to_process (src : list Z) : list (list Z) :=
  let length := length src in
  let chunks_count := (length / 64)%nat in
  let last_chunk_size := (length mod 64)%nat in
  let '(last_chunk, chunks) :=
    if (last_chunk_size <? 56)%nat then (drop (chunks_count * 64) src ++ [0x80], [])
    else
      let second_last_chunk := drop (chunks_count * 64) src ++ [0x80] in
      ([], [push_zeros second_last_chunk 64]) in
  let last_chunk := push_zeros last_chunk (64 - 8) in
  let srcLength := u64 (Z.of_nat length * 8) in
  let last_chunk := foldl (fun c i => c ++ [Z.land (Z.shiftr srcLength ((i - 1) * 8)) 0xff]) last_chunk
                          [8; 7; 6; 5; 4; 3; 2; 1] in
  chunks ++ [last_chunk].

(** The bytes of the digest. *)
Definition digest_bytes (hash_value : list Z) : list Z :=
  mjoin ((fun value =>
            let v3 := u8 value in
            let value := Z.shiftr value 8 in
            let v2 := u8 value in
            let value := Z.shiftr value 8 in
            let v1 := u8 value in
            let value := Z.shiftr value 8 in
            [u8 value; v1; v2; v3]) <$> hash_value).

Definition ComputeSha256 (src : list Z) : list Z :=
  let hash_value := Sha256Init in
  let chunks := chunks_to_process src in
  let chunks_count := (length src / 64)%nat in
  let hash_value := foldl (fun h i => Sha256Transform src (i * 64) h) hash_value (seq 0 chunks_count) in
  let hash_value := foldl (fun h chunk => Sha256Transform chunk 0 h) hash_value chunks in
  digest_bytes hash_value.

Definition HMAC_IPAD_BYTE : Z := 0x36.
Definition HMAC_OPAD_BYTE : Z := 0x5c.
Definition HMAC_B : nat := 64.

Definition ToUnsignedCharVector (src : list ascii) : list Z := ord <$> src.

Definition ComputeHmacSha256 (key message : list ascii) : list Z :=
  let key_length := length key in
  let keyVec := ToUnsignedCharVector key in
  let '(k0, key_length) :=
    if (key_length <=? HMAC_B)%nat then (keyVec, key_length)
    else let new_key := ComputeSha256 keyVec in (new_key, length new_key) in
  let k0 := k0 ++ replicate (HMAC_B - key_length) 0 in
  let k0XORipad_msg := foldl (fun v i => v ++ [Z.lxor (at_ k0 i) HMAC_IPAD_BYTE]) [] (seq 0 HMAC_B) in
  let message_vec := ToUnsignedCharVector message in
  let k0XORipad_msg := k0XORipad_msg ++ message_vec in
  let hk0XORipad_msg := ComputeSha256 k0XORipad_msg in
  let s8 := foldl (fun v i => v ++ [Z.lxor (at_ k0 i) HMAC_OPAD_BYTE]) [] (seq 0 HMAC_B) in
  let s8 := s8 ++ hk0XORipad_msg in
  ComputeSha256 s8.

Definition Sha256 (content : list Z) : list Z := ComputeSha256 content.
Definition HmacSha256 (key message : list ascii) : list Z := ComputeHmacSha256 key message.

(** The digest of "abc" (FIPS 180-4) and the second test of RFC 4231. *)
Example Sha256_abc : Sha256 (ToUnsignedCharVector (chars "abc")) =
  [0xba; 0x78; 0x16; 0xbf; 0x8f; 0x01; 0xcf; 0xea; 0x41; 0x41; 0x40; 0xde; 0x5d; 0xae; 0x22; 0x23;
   0xb0; 0x03; 0x61; 0xa3; 0x96; 0x17; 0x7a; 0x9c; 0xb4; 0x10; 0xff; 0x61; 0xf2; 0x00; 0x15; 0xad].
Proof. vm_compute. reflexivity. Qed.

Example HmacSha256_jefe : HmacSha256 (chars "Jefe") (chars "what do ya want for nothing?") =
  [0x5b; 0xdc; 0xc1; 0x46; 0xbf; 0x60; 0x75; 0x4e; 0x6a; 0x04; 0x24; 0x26; 0x08; 0x95; 0x75; 0xc7;
   0x5a; 0x00; 0x3f; 0x08; 0x9d; 0x27; 0x39; 0x83; 0x9d; 0xec; 0x58; 0xb9; 0x64; 0xec; 0x38; 0x43].
Proof. vm_compute. reflexivity. Qed.

(** ** The standard *)

Module fips.

(** The big-endian bytes of a number. *)
Definition be_bytes (n : nat) (x : Z) : list Z :=
  (fun i => x / 2 ^ (8 * Z.of_nat (n - 1 - i)) mod 256) <$> seq 0 n.

(** The padded message: a one bit, the fewest zeros, the length in bits. *)
Definition pad (m : list Z) : list Z :=
  m ++ [0x80] ++ replicate ((119 - length m mod 64) mod 64) 0 ++ be_bytes 8 (8 * Z.of_nat (length m)).

Definition blocks (m : list Z) : list (list Z) := (fun i => take 64 (drop (64 * i) m)) <$> seq 0 (length m / 64).

(** The big-endian word number [t] of a block. *)
Definition word (block : list Z) (t : nat) : Z :=
  at_ block (4 * t) * 2^24 + at_ block (4 * t + 1) * 2^16 + at_ block (4 * t + 2) * 2^8 + at_ block (4 * t + 3).

(** The message schedule, one word at a time. *)
Definition next_word (w : list Z) (t : nat) : Z :=
  u32 (SHA256_SIGMA1 (at_ w (t - 2)) + at_ w (t - 7) + SHA256_SIGMA0 (at_ w (t - 15)) + at_ w (t - 16)).

Definition schedule (block : list Z) : list Z :=
  foldl (fun w t => w ++ [next_word w t]) (word block <$> seq 0 16) (seq 16 48).

Record vars := mkVars { a : Z; b : Z; c : Z; d : Z; e : Z; f : Z; g : Z; h : Z }.

Definition round (w : list Z) (v : vars) (t : nat) : vars :=
  let t1 := h v + SHA256_SUM1 (e v) + SHA256_CH (e v) (f v) (g v) + at_ SHA256_K t + at_ w t in
  let t2 := SHA256_SUM0 (a v) + SHA256_MAJ (a v) (b v) (c v) in
  mkVars (u32 (t1 + t2)) (a v) (b v) (c v) (u32 (d v + t1)) (e v) (f v) (g v).

Definition compress (v : vars) (block : list Z) : vars :=
  let r := foldl (round (schedule block)) v (seq 0 64) in
  mkVars (u32 (a v + a r)) (u32 (b v + b r)) (u32 (c v + c r)) (u32 (d v + d r))
         (u32 (e v + e r)) (u32 (f v + f r)) (u32 (g v + g r)) (u32 (h v + h r)).

Definition initial : vars :=
  mkVars 0x6a09e667 0xbb67ae85 0x3c6ef372 0xa54ff53a 0x510e527f 0x9b05688c 0x1f83d9ab 0x5be0cd19.

Definition to_list (v : vars) : list Z := [a v; b v; c v; d v; e v; f v; g v; h v].

Definition sha256 (m : list Z) : list Z :=
  mjoin (be_bytes 4 <$> to_list (foldl compress initial (blocks (pad m)))).

Definition hmac (key m : list Z) : list Z :=
  let k := if (64 <? length key)%nat then sha256 key else key in
  let k0 := k ++ replicate (64 - length k) 0 in
  sha256 ((Z.lxor 0x5c <$> k0) ++ sha256 ((Z.lxor 0x36 <$> k0) ++ m)).

End fips.

(** ** Arrays and words *)

Definition bytes (l : list Z) : Prop := Forall (fun x => 0 <= x < 256) l.

Lemma at_alt l i : at_ l i = default 0 (l !! i).
Proof. done. Qed.

Lemma at_app_l l l' i : (i < length l)%nat -> at_ (l ++ l') i = at_ l i.
Proof. intros. by rewrite !at_alt, lookup_app_l. Qed.

Lemma at_block l start k : (k < 64)%nat -> at_ (take 64 (drop start l)) k = at_ l (start + k).
Proof. intros. by rewrite !at_alt, lookup_take, decide_True, lookup_drop by lia. Qed.

Lemma at_byte l i : bytes l -> 0 <= at_ l i < 256.
Proof.
  intros Hl. rewrite at_alt. destruct (l !! i) as [x|] eqn:E; simpl; [|lia].
  apply (Forall_lookup_1 _ _ _ _ Hl E).
Qed.

Lemma u32_u32_l x y : u32 (u32 x + y) = u32 (x + y).
Proof. unfold u32. apply Zplus_mod_idemp_l. Qed.

Lemma u32_u32_r x y : u32 (x + u32 y) = u32 (x + y).
Proof. unfold u32. apply Zplus_mod_idemp_r. Qed.

(** Filling the front of an array. *)
Lemma fill_front (f : nat -> Z) (l : list Z) k : (k <= length l)%nat ->
  foldl (fun w i => <[i := f i]> w) l (seq 0 k) = (f <$> seq 0 k) ++ drop k l.
Proof.
  induction k as [|k IH]; intros Hk; [by rewrite drop_0|].
  rewrite seq_S, foldl_app, IH by lia. simpl. rewrite fmap_app. simpl.
  rewrite insert_app_r_alt by (rewrite length_fmap, length_seq; lia).
  rewrite length_fmap, length_seq, Nat.sub_diag.
  destruct (drop k l) as [|x l'] eqn:E.
  - apply (f_equal length) in E. rewrite length_drop in E. simpl in E. lia.
  - simpl. rewrite <- app_assoc. simpl. do 2 f_equal.
    rewrite <- Nat.add_1_r, <- drop_drop, E. done.
Qed.

Lemma shiftl_byte x n : 0 <= x -> 0 <= n -> Z.shiftl x n = x * 2^n.
Proof. intros. by apply Z.shiftl_mul_pow2. Qed.

(** Joining bytes: or is addition. *)
Lemma lor_shifted x y n : 0 <= n -> 0 <= y < 2^n -> Z.lor (x * 2^n) y = x * 2^n + y.
Proof.
  intros Hn Hy. symmetry. apply Z.add_nocarry_lor. apply Z.bits_inj'. intros i Hi.
  rewrite Z.land_spec, Z.bits_0. destruct (decide (i < n)).
  - by rewrite Z.mul_pow2_bits_low by lia.
  - rewrite (testbit_small y n) by lia. apply andb_false_r.
Qed.

Lemma word_of_bytes x y z t : 0 <= x < 256 -> 0 <= y < 256 -> 0 <= z < 256 -> 0 <= t < 256 ->
  Z.lor (Z.lor (Z.lor (Z.shiftl x 24) (Z.shiftl y 16)) (Z.shiftl z 8)) t = x * 2^24 + y * 2^16 + z * 2^8 + t.
Proof.
  intros. rewrite !shiftl_byte by lia.
  rewrite (lor_shifted x (y * 2^16) 24) by lia.
  replace (x * 2^24 + y * 2^16) with ((x * 2^8 + y) * 2^16) by lia.
  rewrite (lor_shifted _ (z * 2^8) 16) by lia.
  replace ((x * 2^8 + y) * 2^16 + z * 2^8) with (((x * 2^8 + y) * 2^8 + z) * 2^8) by lia.
  rewrite (lor_shifted _ t 8) by lia. lia.
Qed.

(** ** One chunk *)

Lemma schedule_first_spec chunk start :
  bytes chunk ->
  schedule_first chunk start (replicate 64 0) = (fips.word (take 64 (drop start chunk)) <$> seq 0 16) ++ replicate 48 0.
Proof.
  intros Hb. unfold schedule_first. rewrite (fill_front (fun i => _)) by (rewrite length_replicate; lia). f_equal.
  apply list_fmap_ext. intros i x Hx. apply lookup_seq in Hx as [-> Hi].
  rewrite word_of_bytes by by apply at_byte. unfold fips.word. rewrite !at_block by lia.
  by rewrite !Nat.add_assoc.
Qed.

Lemma schedule_rest_spec m : forall l, (16 <= length l)%nat ->
  foldl (fun w i =>
           <[i := u32 (SHA256_SIGMA1 (at_ w (i - 2)) + at_ w (i - 7) + SHA256_SIGMA0 (at_ w (i - 15)) +
                       at_ w (i - 16))]> w) (l ++ replicate m 0) (seq (length l) m)
  = foldl (fun w t => w ++ [fips.next_word w t]) l (seq (length l) m).
Proof.
  induction m as [|m IH]; intros l Hl; [by rewrite app_nil_r|]. cbn [seq foldl replicate].
  rewrite !at_app_l by lia. rewrite insert_app_r_alt, Nat.sub_diag by done. cbn [insert list_insert].
  fold (fips.next_word l (length l)).
  rewrite (cons_middle (fips.next_word l (length l)) l), app_assoc.
  specialize (IH (l ++ [fips.next_word l (length l)])). rewrite length_app in IH. simpl in IH.
  rewrite Nat.add_1_r in IH. apply IH. lia.
Qed.

Lemma schedule_spec chunk start :
  bytes chunk ->
  schedule_rest (schedule_first chunk start (replicate 64 0)) = fips.schedule (take 64 (drop start chunk)).
Proof.
  intros Hb. rewrite schedule_first_spec by done. unfold schedule_rest, fips.schedule.
  pose proof (schedule_rest_spec 48 (fips.word (take 64 (drop start chunk)) <$> seq 0 16)) as H.
  rewrite length_fmap, length_seq in H. apply H. lia.
Qed.

Lemma sha_round_spec w v t : sha_round w (fips.to_list v) t = fips.to_list (fips.round w v t).
Proof.
  destruct v. unfold sha_round, fips.round, fips.to_list. cbn -[u32 SHA256_SUM0 SHA256_SUM1 SHA256_CH SHA256_MAJ SHA256_K Z.add].
  by rewrite u32_u32_l, !u32_u32_r.
Qed.

Lemma rounds_spec w ts : forall v,
  foldl (sha_round w) (fips.to_list v) ts = fips.to_list (foldl (fips.round w) v ts).
Proof. induction ts as [|t ts IH]; intros v; [done|]. cbn [foldl]. rewrite sha_round_spec. apply IH. Qed.

Lemma Sha256Transform_spec chunk start v :
  bytes chunk ->
  Sha256Transform chunk start (fips.to_list v) = fips.to_list (fips.compress v (take 64 (drop start chunk))).
Proof.
  intros Hb. unfold Sha256Transform, fips.compress. rewrite schedule_spec by done.
  change (foldl (fun v0 i => <[i := at_ (fips.to_list v) i]> v0) (replicate 8 0) (seq 0 8)) with (fips.to_list v).
  rewrite rounds_spec. destruct (foldl (fips.round _) v _), v. reflexivity.
Qed.

(** ** Whole messages *)

Lemma be_bytes_4 x : fips.be_bytes 4 x =
  [u8 (Z.shiftr (Z.shiftr (Z.shiftr x 8) 8) 8); u8 (Z.shiftr (Z.shiftr x 8) 8); u8 (Z.shiftr x 8); u8 x].
Proof.
  unfold fips.be_bytes, u8. cbn [seq fmap list_fmap]. rewrite !Z.shiftr_shiftr by lia.
  rewrite !Z.shiftr_div_pow2 by lia. simpl. by rewrite Z.div_1_r.
Qed.

Lemma digest_bytes_spec hash : digest_bytes hash = mjoin (fips.be_bytes 4 <$> hash).
Proof. unfold digest_bytes. f_equal. apply list_fmap_ext. intros i x _. by rewrite be_bytes_4. Qed.

Lemma length_bytes_8 len :
  0 <= len < 2^64 ->
  foldl (fun c i => c ++ [Z.land (Z.shiftr len ((i - 1) * 8)) 0xff]) [] [8; 7; 6; 5; 4; 3; 2; 1] = fips.be_bytes 8 len.
Proof.
  intros Hlen. unfold fips.be_bytes. cbn [foldl app seq fmap list_fmap].
  change 255 with (Z.ones 8). rewrite !Z.land_ones by lia. rewrite !Z.shiftr_div_pow2 by lia. done.
Qed.

Lemma push_bytes (f : Z -> Z) js : forall v, foldl (fun c i => c ++ [f i]) v js = v ++ foldl (fun c i => c ++ [f i]) [] js.
Proof.
  induction js as [|i js IH]; intros v; cbn [foldl]; [by rewrite app_nil_r|].
  rewrite IH, (IH ([] ++ [f i])). by rewrite <- app_assoc.
Qed.

(** The tail of the padded message, in one or two chunks. *)
Lemma chunks_spec src :
  Z.of_nat (length src) < 2^61 ->
  Forall (fun c => length c = 64%nat) (chunks_to_process src) /\
  mjoin (chunks_to_process src) = drop (64 * (length src / 64)) (fips.pad src).
Proof.
  intros Hlen. unfold chunks_to_process, fips.pad. set (n := length src).
  rewrite (Nat.mul_comm (n / 64) 64). set (k := (64 * (n / 64))%nat).
  pose proof (Nat.div_mod n 64 ltac:(lia)) as Hdm. pose proof (Nat.mod_upper_bound n 64 ltac:(lia)) as Hmod.
  set (r := (n mod 64)%nat) in *. set (tail := drop k src).
  assert (Htail : length tail = r) by (unfold tail; rewrite length_drop; fold n; lia).
  rewrite drop_app_le by (fold n; lia). fold tail.
  rewrite (u64_small (Z.of_nat n * 8)) by (unfold is_u64; lia). rewrite (Z.mul_comm (Z.of_nat n) 8).
  set (len := 8 * Z.of_nat n) in *.
  assert (Hbe : length (fips.be_bytes 8 len) = 8%nat) by done.
  destruct (Nat.ltb_spec r 56) as [Hr|Hr]; unfold push_zeros.
  - rewrite length_app, Htail. cbn [length].
    assert (((119 - r) mod 64)%nat = (56 - (r + 1))%nat) as Hz.
    { replace (119 - r)%nat with ((55 - r) + 1 * 64)%nat by lia. rewrite Nat.Div0.mod_add, Nat.mod_small; lia. }
    rewrite Hz, push_bytes, length_bytes_8 by lia. split.
    + constructor; [|done]. rewrite !length_app, Hbe, Htail, length_replicate. simpl. lia.
    + simpl. rewrite app_nil_r. by rewrite <- !app_assoc.
  - rewrite length_app, Htail. cbn [length].
    assert (((119 - r) mod 64)%nat = (64 - (r + 1) + 56)%nat) as Hz by (rewrite Nat.mod_small; lia).
    rewrite Hz, push_bytes, length_bytes_8 by lia. split.
    + repeat constructor; rewrite !length_app, ?Hbe, ?Htail, !length_replicate; simpl; lia.
    + cbn [mjoin list_join app]. rewrite app_nil_r, replicate_add, <- !app_assoc. done.
Qed.

Lemma blocks_join cs : Forall (fun c : list Z => length c = 64%nat) cs -> fips.blocks (mjoin cs) = cs.
Proof.
  induction 1 as [|c cs Hc _ IH]; [done|]. change (mjoin (c :: cs)) with (c ++ mjoin cs).
  set (t := mjoin cs) in *. clearbody t. unfold fips.blocks in *. rewrite length_app, Hc.
  assert (((64 + length t) / 64)%nat = S (length t / 64)) as ->.
  { rewrite (Nat.add_comm 64). change (length t + 64)%nat with (length t + 1 * 64)%nat. rewrite Nat.div_add; lia. }
  rewrite <- cons_seq, <- seq_shift. rewrite fmap_cons. f_equal.
  - rewrite Nat.mul_0_r, drop_0. by rewrite take_app_length'.
  - rewrite <- list_fmap_compose. rewrite <- IH. apply list_fmap_ext. intros i x _. unfold compose.
    replace (64 * S x)%nat with (64 + 64 * x)%nat by lia. by rewrite <- drop_drop, drop_app_length'.
Qed.

Lemma blocks_app m t : fips.blocks (m ++ t) = fips.blocks (take (64 * (length m / 64)) m) ++
  fips.blocks (drop (64 * (length m / 64)) (m ++ t)).
Proof.
  set (k := (length m / 64)%nat). pose proof (Nat.div_mod (length m) 64 ltac:(lia)) as Hdm. fold k in Hdm.
  unfold fips.blocks. rewrite length_take, length_drop, length_app, Nat.min_l by lia.
  rewrite (Nat.mul_comm 64 k), Nat.div_mul by lia.
  replace ((length m + length t) / 64)%nat with (k + (length m + length t - k * 64) / 64)%nat.
  2: { replace (length m + length t)%nat with ((length m + length t - k * 64) + k * 64)%nat at 2 by lia.
       rewrite Nat.div_add; lia. }
  rewrite seq_app, fmap_app. f_equal.
  - apply list_fmap_ext. intros i x Hx. apply lookup_seq in Hx as [-> Hi].
    rewrite drop_app_le by lia. rewrite take_app_le by (rewrite length_drop; lia).
    rewrite <- (take_drop (k * 64) m) at 1. rewrite drop_app_le by (rewrite length_take; lia).
    rewrite take_app_le by (rewrite length_drop, length_take; lia). done.
  - rewrite (Nat.add_comm 0 k), <- fmap_add_seq, <- list_fmap_compose.
    apply list_fmap_ext. intros i x _. unfold compose. rewrite drop_drop. do 2 f_equal. lia.
Qed.

Lemma bytes_be n x : bytes (fips.be_bytes n x).
Proof. apply Forall_fmap, Forall_forall. intros i _. apply Z.mod_pos_bound. lia. Qed.

Lemma bytes_pad m : bytes m -> bytes (fips.pad m).
Proof.
  intros Hm. unfold fips.pad, bytes. rewrite !Forall_app. split_and!; [done| | |apply bytes_be].
  - repeat constructor; lia.
  - apply Forall_replicate. lia.
Qed.

Lemma transform_blocks src js : forall v, bytes src ->
  foldl (fun h i => Sha256Transform src (i * 64) h) (fips.to_list v) js =
  fips.to_list (foldl fips.compress v ((fun i => take 64 (drop (64 * i) src)) <$> js)).
Proof.
  induction js as [|i js IH]; intros v Hb; [done|]. cbn [foldl fmap list_fmap].
  rewrite Sha256Transform_spec by done. rewrite IH by done. by rewrite (Nat.mul_comm i 64).
Qed.

Lemma transform_chunks cs : forall v, Forall (fun c => length c = 64%nat /\ bytes c) cs ->
  foldl (fun h c => Sha256Transform c 0 h) (fips.to_list v) cs = fips.to_list (foldl fips.compress v cs).
Proof.
  induction cs as [|c cs IH]; intros v Hcs; [done|]. inversion Hcs as [|? ? [Hl Hb] Hcs']; subst. cbn [foldl].
  rewrite Sha256Transform_spec by done. rewrite drop_0, take_ge by lia. by apply IH.
Qed.

Lemma ComputeSha256_fips src :
  bytes src -> Z.of_nat (length src) < 2^61 -> ComputeSha256 src = fips.sha256 src.
Proof.
  intros Hb Hlen. unfold ComputeSha256, fips.sha256. rewrite digest_bytes_spec. do 2 f_equal.
  change Sha256Init with (fips.to_list fips.initial).
  rewrite transform_blocks by done. destruct (chunks_spec src Hlen) as [Hcl Hcj].
  rewrite transform_chunks.
  - f_equal. rewrite <- foldl_app. f_equal. unfold fips.pad. rewrite blocks_app. fold (fips.pad src).
    rewrite <- Hcj, blocks_join by done. f_equal.
    pose proof (Nat.div_mod (length src) 64 ltac:(lia)). unfold fips.blocks.
    rewrite length_take, Nat.min_l by lia. rewrite (Nat.mul_comm 64), Nat.div_mul by lia.
    apply list_fmap_ext. intros i x Hx. apply lookup_seq in Hx as [-> Hi].
    rewrite <- (take_drop (length src / 64 * 64) src) at 1. rewrite drop_app_le by (rewrite length_take; lia).
    rewrite take_app_le by (rewrite length_drop, length_take; lia). done.
  - apply Forall_and. split; [done|]. apply Forall_forall. intros c Hc. apply Forall_forall. intros x Hx.
    assert (Hj : bytes (mjoin (chunks_to_process src))).
    { rewrite Hcj. by apply Forall_drop, bytes_pad. }
    unfold bytes in Hj. rewrite Forall_forall in Hj. apply Hj, list_elem_of_join. eauto.
Qed.

Lemma fips_sha256_spec m : bytes (fips.sha256 m) /\ length (fips.sha256 m) = 32%nat.
Proof.
  unfold fips.sha256. split; [|reflexivity]. apply Forall_join, Forall_fmap, Forall_forall.
  intros x _. apply bytes_be.
Qed.

Lemma bytes_of_chars s : bytes (ToUnsignedCharVector s).
Proof. apply Forall_fmap, Forall_forall. intros c _. apply ord_range. Qed.

Lemma xor_loop k0 x : length k0 = 64%nat ->
  foldl (fun v i => v ++ [Z.lxor (at_ k0 i) x]) [] (seq 0 64) = Z.lxor x <$> k0.
Proof.
  intros Hk. assert (H : forall js v, foldl (fun v i => v ++ [Z.lxor (at_ k0 i) x]) v js =
                                      v ++ ((fun i => Z.lxor (at_ k0 i) x) <$> js)).
  { induction js as [|i js IH]; intros v; cbn [foldl]; [by rewrite app_nil_r|]. rewrite IH, <- app_assoc. done. }
  rewrite H, app_nil_l, <- Hk. apply list_eq. intros i. rewrite !list_lookup_fmap.
  destruct (decide (i < length k0)%nat) as [Hi|Hi].
  - rewrite lookup_seq_lt by done. simpl. rewrite at_alt.
    destruct (lookup_lt_is_Some_2 k0 i Hi) as [y ->]. simpl. by rewrite Z.lxor_comm.
  - rewrite lookup_seq_ge, (lookup_ge_None_2 k0) by lia. done.
Qed.

Lemma lxor_byte x y : 0 <= x < 256 -> 0 <= y < 256 -> 0 <= Z.lxor x y < 256.
Proof.
  intros Hx Hy. assert (Z.lxor x y = Z.lxor x y mod 2^8) as ->; [|apply Z.mod_pos_bound; lia].
  rewrite <- Z.land_ones by lia. apply Z.bits_inj'. intros i Hi.
  rewrite Z.land_spec, Z.testbit_ones_nonneg by lia. destruct (Z.ltb_spec i 8); [by rewrite andb_true_r|].
  rewrite Z.lxor_spec, !(testbit_small _ 8) by lia. done.
Qed.

Lemma bytes_pad_xor k x : bytes k -> 0 <= x < 256 -> bytes (Z.lxor x <$> k ++ replicate (64 - length k) 0).
Proof.
  intros Hk Hx. apply Forall_fmap. apply Forall_app. split.
  - eapply Forall_impl; [exact Hk|]. intros y Hy. by apply lxor_byte.
  - apply Forall_replicate. apply lxor_byte; lia.
Qed.

(** C37: [Sha256] is the SHA-256 of FIPS 180-4, for every message of fewer than
    2^61 bytes: padding the last chunks by hand, hashing the whole chunks in place
    and updating arrays gives the hash of the blocks of the padded message. *)
Theorem Sha256_fips content :
  bytes content -> Z.of_nat (length content) < 2^61 ->
  Sha256 content = fips.sha256 content /\ length (Sha256 content) = 32%nat.
Proof.
  intros Hb Hl. unfold Sha256. rewrite ComputeSha256_fips by done. split; [done|apply fips_sha256_spec].
Qed.

(** [HmacSha256] is the HMAC of FIPS 198-1 over SHA-256. *)
Theorem HmacSha256_fips key message :
  Z.of_nat (length key) < 2^61 -> Z.of_nat (length message) < 2^60 ->
  HmacSha256 key message = fips.hmac (ToUnsignedCharVector key) (ToUnsignedCharVector message).
Proof.
  intros Hk Hm. unfold HmacSha256, ComputeHmacSha256, fips.hmac, HMAC_B. pose proof (bytes_of_chars key) as Hkb.
  assert (Hlk : length (ToUnsignedCharVector key) = length key) by apply length_fmap. rewrite Hlk.
  assert (H : forall k, bytes k -> (length k <= 64)%nat ->
    ComputeSha256 (foldl (fun v i => v ++ [Z.lxor (at_ (k ++ replicate (64 - length k) 0) i) HMAC_OPAD_BYTE]) [] (seq 0 64) ++
      ComputeSha256 (foldl (fun v i => v ++ [Z.lxor (at_ (k ++ replicate (64 - length k) 0) i) HMAC_IPAD_BYTE]) [] (seq 0 64) ++
        ToUnsignedCharVector message)) =
    fips.sha256 ((Z.lxor 92 <$> k ++ replicate (64 - length k) 0) ++
      fips.sha256 ((Z.lxor 54 <$> k ++ replicate (64 - length k) 0) ++ ToUnsignedCharVector message))).
  { intros k Hb Hl. assert (H64 : length (k ++ replicate (64 - length k) 0) = 64%nat).
    { rewrite length_app, length_replicate. lia. }
    rewrite !xor_loop by done.
    rewrite (ComputeSha256_fips ((Z.lxor HMAC_IPAD_BYTE <$> _) ++ _)).
    2: { apply Forall_app. split; [apply bytes_pad_xor; [done|unfold HMAC_IPAD_BYTE; lia]|apply bytes_of_chars]. }
    2: { rewrite length_app, length_fmap, H64. unfold ToUnsignedCharVector. rewrite length_fmap. lia. }
    rewrite ComputeSha256_fips; [done| |].
    - apply Forall_app. split; [apply bytes_pad_xor; [done|unfold HMAC_OPAD_BYTE; lia]|apply fips_sha256_spec].
    - rewrite length_app, length_fmap, H64.
      pose proof (proj2 (fips_sha256_spec ((Z.lxor HMAC_IPAD_BYTE <$> k ++ replicate (64 - length k) 0) ++ ToUnsignedCharVector message))). lia. }
  destruct (Nat.leb_spec (length key) 64) as [Hle|Hgt].
  - destruct (Nat.ltb_spec 64 (length key)); [lia|]. rewrite <- Hlk. rewrite H by (by rewrite ?Hlk). done.
  - destruct (Nat.ltb_spec 64 (length key)); [|lia]. rewrite (ComputeSha256_fips (ToUnsignedCharVector key)) by (rewrite ?Hlk; done).
    destruct (fips_sha256_spec (ToUnsignedCharVector key)) as [Hb Hl]. apply H; [done|lia].
Qed.

Lemma Sha256_fips_witness :
  Sha256 (replicate 60 7) = fips.sha256 (replicate 60 7) /\ length (Sha256 (replicate 60 7)) = 32%nat.
Proof. apply Sha256_fips; [apply Forall_replicate; lia|reflexivity]. Defined.

Lemma HmacSha256_fips_witness :
  HmacSha256 (chars "key") (chars "message") = fips.hmac (ToUnsignedCharVector (chars "key")) (ToUnsignedCharVector (chars "message")).
Proof. apply HmacSha256_fips; reflexivity. Defined.
