(* ===== verification/QuadTreeIndex.v ===== *)
(** * The quad tree index

    Model of [olp::dataservice::read::QuadTreeIndex]
    (src/repositories/QuadTreeIndex.cpp of the read library) with the reader and
    the writer of its blob (src/BlobDataReader.h, src/BlobDataWriter.h): the
    metadata of the tiles of a sub tree and of its ancestors, packed into one
    blob that is searched in place.

    The code lays the header and the two tables of entries over the front of the
    blob with [reinterpret_cast]; the model keeps this part as records and lists,
    next to the bytes of the whole blob, of which only those behind the tables are
    read through the reader.  [None] of an [option (option _)] is a loop that does
    not end.  The constructor from JSON text is left out: parsing is Boost's. *)

From Stdlib Require Import Sorted.
From stdpp Require Import sorting.
From S2P Require Import Prelude TileKey.

(** ** Blob writer and reader *)

Module Blob.

(** [memcpy] of an 8-byte number, least significant byte first. *)
Definition le8 (x : Z) : list Z := (fun i => x / 2 ^ (8 * i) mod 256) <$> [0; 1; 2; 3; 4; 5; 6; 7].
Definition of_le (bs : list Z) : Z := foldr (fun b v => b + 256 * v) 0 bs.

(** The bytes from [off] on replaced. *)
Definition write_at (raw : list Z) (off : nat) (bs : list Z) : list Z :=
  take off raw ++ bs ++ drop (off + length bs) raw.

(** [BlobDataWriter]: the blob and the offset. *)
Definition writer : Type := list Z * nat.

Definition write (w : writer) (bs : list Z) : writer * bool :=
  let '(raw, off) := w in
  if (length raw <? off + length bs)%nat then (w, false)
  else ((write_at raw off bs, (off + length bs)%nat), true).

Definition Write_u64 (w : writer) (value : Z) : writer * bool := write w (le8 (u64 value)).
Definition Write_string (w : writer) (value : list ascii) : writer * bool := write w ((ord <$> value) ++ [0]).

(** [BlobDataReader]: the offset after the value and the value, [None] on failure. *)
Definition Read_u64 (raw : list Z) (off : nat) : option (nat * Z) :=
  if (length raw <? off + 8)%nat then None
  else Some ((off + 8)%nat, of_le (take 8 (drop off raw))).

Definition Read_s64 (raw : list Z) (off : nat) : option (nat * Z) :=
  '(off, v) ← Read_u64 raw off; Some (off, s64 v).

(** The index of the first null byte from [off] on. *)
Fixpoint find_null (raw : list Z) (off : nat) : option nat :=
  match raw, off with
  | [], _ => None
  | b :: raw, O => if b =? 0 then Some O else S <$> find_null raw O
  | _ :: raw, S off => S <$> find_null raw off
  end.

Definition Read_string (raw : list Z) (off : nat) : option (nat * list ascii) :=
  stop ← find_null raw off;
  Some ((stop + 1)%nat, chr <$> take (stop - off) (drop off raw)).

Definition Skip_string (raw : list Z) (off : nat) : option nat :=
  stop ← find_null raw off; Some (stop + 1)%nat.

End Blob.
Import Blob.

(** ** The index *)

Record IndexData := mkIndexData {
  tile_key : TileKey;
  data_handle : list ascii;
  additional_metadata : list ascii;
  crc : list ascii;
  checksum : list ascii;
  version : Z;
  data_size : Z;
  compressed_data_size : Z }.

Definition IndexData_default : IndexData := mkIndexData TileKey_default [] [] [] [] (2^64 - 1) (-1) (-1).

(** [Field], the bit set of fields to read. *)
Definition DataHandle : Z := 2.
Definition AdditionalMetadata : Z := 4.
Definition Crc : Z := 8.
Definition Checksum : Z := 16.
Definition All : Z := Z.lor (Z.lor (Z.lor DataHandle AdditionalMetadata) Crc) Checksum.

Record SubEntry := mkSubEntry { sub_quadkey : Z; sub_tag_offset : Z }.
Record ParentEntry := mkParentEntry { key : Z; tag_offset : Z }.

Record QuadTreeIndex := mkQuadTreeIndex {
  root_tilekey : Z;
  blob_version : Z;
  depth : Z;
  parent_count : Z;
  subkey_count : Z;
  sub_entries : list SubEntry;
  parent_entries : list ParentEntry;
  raw_data : list Z }.

Definition sizeof_header : nat := 24.
Definition sizeof_SubEntry : nat := 8.
Definition sizeof_ParentEntry : nat := 16.

(** [DataBegin() - raw_data_->data()] *)
Definition DataBegin (subkey_count parent_count : Z) : nat :=
  (sizeof_header - sizeof_SubEntry + Z.to_nat subkey_count * sizeof_SubEntry +
   Z.to_nat parent_count * sizeof_ParentEntry)%nat.

(** The entries between [SubEntryBegin()] and [SubEntryEnd()], likewise of the parents. *)
Definition subs_of (q : QuadTreeIndex) : list SubEntry := take (Z.to_nat (subkey_count q)) (sub_entries q).
Definition parents_of (q : QuadTreeIndex) : list ParentEntry := take (Z.to_nat (parent_count q)) (parent_entries q).

Definition WriteIndexData (data : IndexData) (w : writer) : writer * bool :=
  let '(w, success) := Write_u64 w (version data) in
  let '(w, b) := Write_u64 w (data_size data) in let success := success && b in
  let '(w, b) := Write_u64 w (compressed_data_size data) in let success := success && b in
  let '(w, b) := Write_string w (data_handle data) in let success := success && b in
  let '(w, b) := Write_string w (checksum data) in let success := success && b in
  let '(w, b) := Write_string w (additional_metadata data) in let success := success && b in
  let '(w, b) := Write_string w (crc data) in let success := success && b in
  (w, success).

(** A field that is read or skipped. *)
Definition read_field (required : bool) (raw : list Z) (off : nat) (old : list ascii) : option (nat * list ascii) :=
  if required then Read_string raw off else off ← Skip_string raw off; Some (off, old).

(** [ReadIndexData]: the data read into [data]; [None] when a read fails. *)
Definition ReadIndexData (raw : list Z) (data : IndexData) (offset limit fields : Z) : option IndexData :=
  let field_required field := Z.land fields field >? 0 in
  '(off, v) ← Read_u64 raw (Z.to_nat offset);
  '(off, size) ← Read_s64 raw off;
  '(off, csize) ← Read_s64 raw off;
  '(off, handle) ← read_field (field_required DataHandle) raw off (data_handle data);
  '(off, sum) ← read_field (field_required Checksum) raw off (checksum data);
  '(off, meta) ← read_field (field_required AdditionalMetadata) raw off (additional_metadata data);
  '(_, c) ← (if Z.of_nat off <? limit then read_field (field_required Crc) raw off (crc data)
             else Some (off, crc data));
  Some (mkIndexData (tile_key data) handle meta c sum v size csize).

(** The order of [std::sort]. *)
Definition quad_le (a b : IndexData) : Prop := ToQuadKey64 (tile_key a) <= ToQuadKey64 (tile_key b).

#[export] Instance quad_le_dec a b : Decision (quad_le a b).
Proof. unfold quad_le. apply _. Defined.

Definition entry_size (data : IndexData) : nat :=
  (length (data_handle data) + 1 + length (checksum data) + 1 + length (crc data) + 1 +
   length (additional_metadata data) + 1 + 8 + 8 + 8)%nat.

(** A loop that writes the data of the entries and collects their offsets. *)
Fixpoint write_entries (ds : list IndexData) (w : writer) : option (list Z * writer) :=
  match ds with
  | [] => Some ([], w)
  | d :: ds =>
      let offset := u32 (Z.of_nat (snd w)) in
      let '(w, success) := WriteIndexData d w in
      if success then '(offsets, w) ← write_entries ds w; Some (offset :: offsets, w) else None
  end.

Definition sub_entry (root_quad_level : Z) (d : IndexData) (offset : Z) : SubEntry :=
  mkSubEntry (u16 (QuadKey64Helper_GetSubkey (ToQuadKey64 (tile_key d))
                     (s32 (u32 (level_ (tile_key d) - root_quad_level))))) offset.

(** [CreateBlob]; [None] is the null index after a failed write. *)
Definition CreateBlob (root : TileKey) (d : Z) (parents subs : list IndexData) : option QuadTreeIndex :=
  let subs := merge_sort quad_le subs in
  let parents := merge_sort quad_le parents in
  let additional_data_size :=
    (foldl (fun s data => s + entry_size data) (foldl (fun s data => s + entry_size data) 0 subs) parents)%nat in
  let size_ := (sizeof_header - sizeof_SubEntry + length subs * sizeof_SubEntry +
                length parents * sizeof_ParentEntry + additional_data_size)%nat in
  let raw := replicate size_ 0 in
  let subkey_count := u16 (Z.of_nat (length subs)) in
  let parent_count := u8 (Z.of_nat (length parents)) in
  let serializer := (raw, DataBegin subkey_count parent_count) in
  '(sub_offsets, serializer) ← write_entries subs serializer;
  '(parent_offsets, serializer) ← write_entries parents serializer;
  Some (mkQuadTreeIndex (ToQuadKey64 root) 0 d parent_count subkey_count
          (zip_with (sub_entry (level_ root)) subs sub_offsets)
          (zip_with (fun p o => mkParentEntry (ToQuadKey64 (tile_key p)) o) parents parent_offsets)
          (fst serializer)).

Definition raw_size (q : QuadTreeIndex) : Z := u32 (Z.of_nat (length (raw_data q))).

(** The offset of the first parent, or the size of the blob. *)
Definition parents_begin (q : QuadTreeIndex) : Z :=
  match parents_of q with [] => raw_size q | p :: _ => tag_offset p end.

(** [for (it = end; it-- != begin;)] over the entries, last one first: the first
    entry for which [f] answers, with the limit of its data. *)
Fixpoint search_back {E B} (off : E -> Z) (f : E -> Z -> option (option B)) (rev_entries : list E) (limit : Z)
  : option (option B) :=
  match rev_entries with
  | [] => Some None
  | it :: rest =>
      r ← f it limit;
      match r with Some b => Some (Some b) | None => search_back off f rest (off it) end
  end.

(** One entry of the search for an ancestor: [Some (Some r)] returns [r]. *)
Definition match_entry (q : QuadTreeIndex) (t key : TileKey) (offset limit : Z) : option (option IndexData) :=
  if IsChildOf t key then
    let data := mkIndexData key [] [] [] [] (2^64 - 1) (-1) (-1) in
    Some (ReadIndexData (raw_data q) data offset limit All)
  else None.

Definition FindNearestParent (q : QuadTreeIndex) (t : TileKey) : option (option IndexData) :=
  let root_tile_key := FromQuadKey64 (root_tilekey q) in
  found ← (if level_ t >=? level_ root_tile_key then
             search_back sub_tag_offset
               (fun it limit =>
                  key ← AddedSubkey64 root_tile_key (sub_quadkey it);
                  Some (match_entry q t key (sub_tag_offset it) limit))
               (reverse (subs_of q)) (parents_begin q)
           else Some None);
  match found with
  | Some r => Some r
  | None =>
      found ← search_back tag_offset
                (fun it limit => Some (match_entry q t (FromQuadKey64 (key it)) (tag_offset it) limit))
                (reverse (parents_of q)) (raw_size q);
      match found with Some r => Some r | None => Some None end
  end.

Definition with_tile_key (t : TileKey) (d : IndexData) : IndexData :=
  mkIndexData t (data_handle d) (additional_metadata d) (crc d) (checksum d) (version d) (data_size d)
    (compressed_data_size d).

(** [Find]; the lower bound of the entries is the rest of the table after the
    smaller ones. *)
Definition Find (q : QuadTreeIndex) (t : TileKey) (aggregated_search : bool) : option (option IndexData) :=
  let root_tile_key := FromQuadKey64 (root_tilekey q) in
  let absent := if aggregated_search then FindNearestParent q t else Some None in
  if level_ t >=? level_ root_tile_key then
    let sub := u16 (GetSubkey64 t (s32 (u32 (level_ t - level_ root_tile_key)))) in
    match drop_while (fun e => sub_quadkey e <? sub) (subs_of q) with
    | [] => absent
    | entry :: next =>
        if negb (sub_quadkey entry =? sub) then absent
        else
          let limit := match next with [] => parents_begin q | n :: _ => sub_tag_offset n end in
          Some (with_tile_key t <$> ReadIndexData (raw_data q) IndexData_default (sub_tag_offset entry) limit All)
    end
  else
    let k := ToQuadKey64 t in
    match drop_while (fun e => key e <? k) (parents_of q) with
    | [] => absent
    | entry :: next =>
        if negb (key entry =? k) then absent
        else
          let limit := match next with [] => raw_size q | n :: _ => tag_offset n end in
          Some (with_tile_key t <$> ReadIndexData (raw_data q) IndexData_default (tag_offset entry) limit All)
    end.

(** The loops of [GetIndexData], last entry first. *)
Fixpoint collect_back {E} (off : E -> Z) (f : E -> option TileKey) (raw : list Z) (fields : Z)
  (rev_entries : list E) (limit : Z) : option (list IndexData) :=
  match rev_entries with
  | [] => Some []
  | it :: rest =>
      k ← f it;
      let data := mkIndexData k [] [] [] [] (2^64 - 1) (-1) (-1) in
      rs ← collect_back off f raw fields rest (off it);
      Some (match ReadIndexData raw data (off it) limit fields with Some d => d :: rs | None => rs end)
  end.

Definition GetIndexData (q : QuadTreeIndex) (fields : Z) : option (list IndexData) :=
  ps ← collect_back tag_offset (fun it => Some (FromQuadKey64 (key it))) (raw_data q) fields
         (reverse (parents_of q)) (raw_size q);
  ss ← collect_back sub_tag_offset (fun it => AddedSubkey64 (FromQuadKey64 (root_tilekey q)) (sub_quadkey it))
         (raw_data q) fields (reverse (subs_of q)) (parents_begin q);
  Some (ps ++ ss).

Definition GetRootTile (q : QuadTreeIndex) : TileKey := FromQuadKey64 (root_tilekey q).

(** ** The bytes of the data *)

Definition str_bytes (s : list ascii) : list Z := (ord <$> s) ++ [0].

Definition enc (d : IndexData) : list Z :=
  le8 (u64 (version d)) ++ le8 (u64 (data_size d)) ++ le8 (u64 (compressed_data_size d)) ++
  str_bytes (data_handle d) ++ str_bytes (checksum d) ++ str_bytes (additional_metadata d) ++ str_bytes (crc d).

#[local] Arguments enc : simpl never.
#[local] Arguments le8 : simpl never.

(** Data that the blob can hold: strings without null characters, numbers in range. *)
Definition plain (s : list ascii) : Prop := Forall (fun c => ord c <> 0) s.

Record storable (d : IndexData) : Prop := {
  st_version : is_u64 (version d);
  st_size : - 2^63 <= data_size d < 2^63;
  st_csize : - 2^63 <= compressed_data_size d < 2^63;
  st_handle : plain (data_handle d);
  st_meta : plain (additional_metadata d);
  st_crc : plain (crc d);
  st_checksum : plain (checksum d) }.

Lemma length_str s : length (str_bytes s) = (length s + 1)%nat.
Proof. unfold str_bytes. by rewrite length_app, length_fmap. Qed.

Lemma length_enc d : length (enc d) = entry_size d.
Proof. unfold enc, entry_size. rewrite !length_app, !length_str. simpl. lia. Qed.

Lemma write_at_app raw off b1 b2 :
  (off + length b1 + length b2 <= length raw)%nat ->
  write_at (write_at raw off b1) (off + length b1) b2 = write_at raw off (b1 ++ b2).
Proof.
  intros H. unfold write_at. rewrite (app_assoc (take off raw) b1).
  assert (HA : length (take off raw ++ b1) = (off + length b1)%nat) by (rewrite length_app, length_take; lia).
  rewrite take_app_length' by done. rewrite <- (drop_drop _ (length b2) (off + length b1)).
  rewrite drop_app_length' by done. rewrite drop_drop, length_app, Nat.add_assoc. by rewrite <- !app_assoc.
Qed.

Lemma length_write_at raw off bs : (off + length bs <= length raw)%nat -> length (write_at raw off bs) = length raw.
Proof. intros. unfold write_at. rewrite !length_app, length_take, length_drop. lia. Qed.

Lemma write_ok raw off bs : (off + length bs <= length raw)%nat ->
  write (raw, off) bs = ((write_at raw off bs, (off + length bs)%nat), true).
Proof. intros. unfold write. destruct (Nat.ltb_spec (length raw) (off + length bs)); [lia|done]. Qed.

Lemma write_next raw off bs bs' : (off + length bs + length bs' <= length raw)%nat ->
  write (write_at raw off bs, (off + length bs)%nat) bs' =
  ((write_at raw off (bs ++ bs'), (off + length (bs ++ bs'))%nat), true).
Proof.
  intros H. rewrite write_ok by (rewrite length_write_at; lia). rewrite write_at_app by done.
  by rewrite length_app, Nat.add_assoc.
Qed.

Lemma WriteIndexData_spec d raw off : (off + entry_size d <= length raw)%nat ->
  WriteIndexData d (raw, off) = ((write_at raw off (enc d), (off + length (enc d))%nat), true).
Proof.
  intros H. unfold entry_size in H. unfold WriteIndexData, Write_u64, Write_string. fold (str_bytes (data_handle d)).
  fold (str_bytes (checksum d)). fold (str_bytes (additional_metadata d)). fold (str_bytes (crc d)).
  assert (L8 : forall x, length (le8 x) = 8%nat) by done.
  rewrite write_ok by (rewrite ?L8; lia).
  do 6 (rewrite write_next by (rewrite ?length_app, ?L8, ?length_str; lia)).
  unfold enc. by rewrite <- !app_assoc.
Qed.

Definition total_size (ds : list IndexData) : nat := foldr (fun d s => (entry_size d + s)%nat) 0%nat ds.

Definition encs (ds : list IndexData) : list Z := mjoin (enc <$> ds).

Lemma length_encs ds : length (encs ds) = total_size ds.
Proof.
  induction ds as [|d ds IH]; [done|]. change (encs (d :: ds)) with (enc d ++ encs ds).
  rewrite length_app, length_enc, IH. done.
Qed.

(** The offsets of the data written from [off] on. *)
Fixpoint offsets (ds : list IndexData) (off : nat) : list Z :=
  match ds with
  | [] => []
  | d :: ds => u32 (Z.of_nat off) :: offsets ds (off + entry_size d)
  end.

Lemma length_offsets ds : forall off, length (offsets ds off) = length ds.
Proof. induction ds as [|d ds IH]; intros off; simpl; [done|]. by rewrite IH. Qed.

Lemma write_entries_spec ds : forall raw off bs,
  (off + length bs + total_size ds <= length raw)%nat ->
  write_entries ds (write_at raw off bs, (off + length bs)%nat) =
  Some (offsets ds (off + length bs), (write_at raw off (bs ++ encs ds), (off + length (bs ++ encs ds))%nat)).
Proof.
  induction ds as [|d ds IH]; intros raw off bs H; simpl in H.
  { simpl. unfold encs. simpl. by rewrite app_nil_r. }
  cbn [write_entries snd offsets]. rewrite WriteIndexData_spec by (rewrite length_write_at; lia).
  rewrite write_at_app by (rewrite length_enc; lia).
  replace (off + length bs + length (enc d))%nat with (off + length (bs ++ enc d))%nat by (rewrite length_app; lia).
  rewrite IH by (rewrite length_app, length_enc; lia). cbn [mbind option_bind]. change (encs (d :: ds)) with (enc d ++ encs ds).
  rewrite <- !app_assoc. do 4 f_equal. rewrite length_app, length_enc. lia.
Qed.

Lemma total_foldl ds : forall s, foldl (fun s data => s + entry_size data)%nat s ds = (s + total_size ds)%nat.
Proof. induction ds as [|d ds IH]; intros s; simpl; [lia|]. rewrite IH. lia. Qed.

(** ** Reading *)

Lemma of_le_le8 x : is_u64 x -> of_le (le8 x) = x.
Proof.
  intros Hx. unfold of_le, le8, is_u64 in *. cbn [fmap list_fmap foldr].
  pose proof (Z.div_mod x 256 ltac:(lia)) as H0.
  assert (Hs : forall i j, 0 <= i -> j = i + 1 -> x / 2 ^ (8 * j) = x / 2 ^ (8 * i) / 256).
  { intros i j Hi ->. rewrite Z.div_div by lia. f_equal. rewrite Z.mul_add_distr_l, Z.pow_add_r by lia. done. }
  rewrite (Hs 6 7), (Hs 5 6), (Hs 4 5), (Hs 3 4), (Hs 2 3), (Hs 1 2), (Hs 0 1) by lia.
  change (2 ^ (8 * 0)) with 1. rewrite Z.div_1_r.
  assert (x / 256 / 256 / 256 / 256 / 256 / 256 / 256 / 256 = 0).
  { rewrite !Z.div_div by lia. apply Z.div_small. lia. }
  pose proof (Z.div_mod (x / 256) 256 ltac:(lia)).
  pose proof (Z.div_mod (x / 256 / 256) 256 ltac:(lia)).
  pose proof (Z.div_mod (x / 256 / 256 / 256) 256 ltac:(lia)).
  pose proof (Z.div_mod (x / 256 / 256 / 256 / 256) 256 ltac:(lia)).
  pose proof (Z.div_mod (x / 256 / 256 / 256 / 256 / 256) 256 ltac:(lia)).
  pose proof (Z.div_mod (x / 256 / 256 / 256 / 256 / 256 / 256) 256 ltac:(lia)).
  pose proof (Z.div_mod (x / 256 / 256 / 256 / 256 / 256 / 256 / 256) 256 ltac:(lia)). lia.
Qed.

Lemma s64_u64 x : - 2^63 <= x < 2^63 -> s64 (u64 x) = x.
Proof.
  intros H. unfold s64. rewrite (u64_small (u64 x)) by apply u64_range. unfold u64.
  destruct (decide (0 <= x)).
  - rewrite Z.mod_small by lia. destruct (Z.ltb_spec x (2^63)); lia.
  - rewrite <- (Z.mod_unique x (2 ^ 64) (-1) (x + 2 ^ 64)) by lia.
    destruct (Z.ltb_spec (x + 2 ^ 64) (2 ^ 63)); lia.
Qed.

Lemma Read_u64_at a x b : is_u64 x ->
  Read_u64 (a ++ le8 x ++ b) (length a) = Some ((length a + 8)%nat, x).
Proof.
  intros Hx. unfold Read_u64. rewrite !length_app.
  destruct (Nat.ltb_spec (length a + (length (le8 x) + length b)) (length a + 8)) as [H|H]; [simpl in H; lia|].
  rewrite drop_app_length, take_app_length' by done. by rewrite of_le_le8.
Qed.

Lemma Read_s64_at a x b : - 2^63 <= x < 2^63 ->
  Read_s64 (a ++ le8 (u64 x) ++ b) (length a) = Some ((length a + 8)%nat, x).
Proof. intros Hx. unfold Read_s64. rewrite Read_u64_at by apply u64_range. simpl. by rewrite s64_u64. Qed.

Lemma find_null_skip a b : find_null (a ++ b) (length a) = (fun i => (length a + i)%nat) <$> find_null b 0.
Proof.
  induction a as [|x a IH]; simpl; [by destruct (find_null b 0)|]. rewrite IH. by destruct (find_null b 0).
Qed.

Lemma find_null_str s b : plain s -> find_null (str_bytes s ++ b) 0 = Some (length s).
Proof.
  unfold str_bytes. induction 1 as [|c s Hc _ IH]; [done|]. rewrite fmap_cons. cbn [app find_null length].
  destruct (Z.eqb_spec (ord c) 0); [done|]. by rewrite IH.
Qed.

Lemma chr_ord_list (s : list ascii) : chr <$> (ord <$> s) = s.
Proof. rewrite <- list_fmap_compose. rewrite <- (list_fmap_id s) at 2. apply list_fmap_ext. intros i x _. apply chr_ord. Qed.

Lemma Read_string_at a s b : plain s ->
  Read_string (a ++ str_bytes s ++ b) (length a) = Some ((length a + (length s + 1))%nat, s).
Proof.
  intros Hs. unfold Read_string. rewrite find_null_skip, find_null_str by done. simpl.
  do 2 f_equal; [lia|]. rewrite drop_app_length. replace (length a + length s - length a)%nat with (length s) by lia.
  unfold str_bytes. rewrite <- app_assoc, take_app_length' by (by rewrite length_fmap). apply chr_ord_list.
Qed.

Lemma Skip_string_at a s b : plain s -> Skip_string (a ++ str_bytes s ++ b) (length a) = Some (length a + (length s + 1))%nat.
Proof.
  intros Hs. unfold Skip_string. rewrite find_null_skip, find_null_str by done. cbn [fmap option_fmap option_map mbind option_bind].
  f_equal. lia.
Qed.

Lemma read_field_at (required : bool) a s b old : plain s ->
  read_field required (a ++ str_bytes s ++ b) (length a) old =
  Some (length (a ++ str_bytes s), if required then s else old).
Proof.
  intros Hs. rewrite length_app, length_str. unfold read_field.
  destruct required; [by apply Read_string_at|]. by rewrite Skip_string_at.
Qed.

(** What is read of the data [d] into [data] when [fields] are asked for. *)
Definition read_of (fields : Z) (data d : IndexData) : IndexData :=
  let field_required field := Z.land fields field >? 0 in
  mkIndexData (tile_key data)
    (if field_required DataHandle then data_handle d else data_handle data)
    (if field_required AdditionalMetadata then additional_metadata d else additional_metadata data)
    (if field_required Crc then crc d else crc data)
    (if field_required Checksum then checksum d else checksum data) (version d) (data_size d) (compressed_data_size d).

Lemma read_of_all data d : read_of All data d = with_tile_key (tile_key data) d.
Proof. by destruct d. Qed.

Lemma ReadIndexData_fields a d b data limit fields :
  storable d -> Z.of_nat (length a + entry_size d) <= limit + Z.of_nat (length (crc d)) ->
  ReadIndexData (a ++ enc d ++ b) data (Z.of_nat (length a)) limit fields =
  Some (read_of fields data d).
Proof.
  intros [Hv Hz Hc Hh Hm Hr Hk] Hlim. unfold ReadIndexData. rewrite Nat2Z.id. unfold enc.
  rewrite !u64_small by done. rewrite <- !app_assoc. rewrite Read_u64_at by done. cbn [mbind option_bind].
  assert (L8 : forall x, length (le8 x) = 8%nat) by done.
  pose (a1 := a ++ le8 (version d)).
  replace (length a + 8)%nat with (length a1) by (unfold a1; rewrite length_app, L8; lia).
  rewrite (app_assoc a). fold a1. rewrite Read_s64_at by done. cbn [mbind option_bind].
  pose (a2 := a1 ++ le8 (u64 (data_size d))).
  replace (length a1 + 8)%nat with (length a2) by (unfold a2; rewrite length_app, L8; lia).
  rewrite (app_assoc a1). fold a2. rewrite Read_s64_at by done. cbn [mbind option_bind].
  pose (a3 := a2 ++ le8 (u64 (compressed_data_size d))).
  replace (length a2 + 8)%nat with (length a3) by (unfold a3; rewrite length_app, L8; lia).
  rewrite (app_assoc a2). fold a3.
  rewrite read_field_at by done. cbn [mbind option_bind].
  pose (a4 := a3 ++ str_bytes (data_handle d)).  fold a4.
  rewrite (app_assoc a3). fold a4. rewrite read_field_at by done. cbn [mbind option_bind].
  pose (a5 := a4 ++ str_bytes (checksum d)).  fold a5.
  rewrite (app_assoc a4). fold a5. rewrite read_field_at by done. cbn [mbind option_bind].
  pose (a6 := a5 ++ str_bytes (additional_metadata d)).  fold a6.
  rewrite (app_assoc a5). fold a6.
  assert (Z.of_nat (length a6) <? limit = true) as ->.
  { apply Z.ltb_lt. unfold a6, a5, a4, a3, a2, a1. unfold entry_size in Hlim.
    rewrite !length_app, !length_str, !L8. lia. }
  by rewrite read_field_at.
Qed.

(** ** A table of entries over the blob *)

Lemma encs_app l l' : encs (l ++ l') = encs l ++ encs l'.
Proof. unfold encs. by rewrite fmap_app, join_app. Qed.

Lemma total_entries_app l l' : total_size (l ++ l') = (total_size l + total_size l')%nat.
Proof. by rewrite <- !length_encs, encs_app, length_app. Qed.

Lemma total_one d : total_size [d] = entry_size d.
Proof. simpl. lia. Qed.

Lemma offsets_app l l' : forall off, offsets (l ++ l') off = offsets l off ++ offsets l' (off + total_size l).
Proof.
  induction l as [|d l IH]; intros off; simpl; [by rewrite Nat.add_0_r|]. by rewrite IH, Nat.add_assoc.
Qed.

Lemma with_tile_key_id d : with_tile_key (tile_key d) d = d.
Proof. by destruct d. Qed.

(** The data that is collected when only some fields are asked for. *)
Definition only_fields (fields : Z) (d : IndexData) : IndexData :=
  read_of fields (mkIndexData (tile_key d) [] [] [] [] (2^64 - 1) (-1) (-1)) d.

Lemma only_fields_all (ds : list IndexData) : only_fields All <$> ds = ds.
Proof.
  rewrite <- (list_fmap_id ds) at 2. apply list_fmap_ext. intros i d _. unfold only_fields.
  rewrite read_of_all. by destruct d.
Qed.

Section table.
Context {E : Type} (mk : IndexData -> Z -> E) (off : E -> Z) (off_mk : forall d o, off (mk d o) = o).

(** The entries of the data that starts at offset [o]. *)
Definition entries (ds : list IndexData) (o : nat) : list E := zip_with mk ds (offsets ds o).

Lemma entries_app l l' o : entries (l ++ l') o = entries l o ++ entries l' (o + total_size l).
Proof. unfold entries. rewrite offsets_app, zip_with_app; [done|]. by rewrite length_offsets. Qed.

Lemma entries_one d o : entries [d] o = [mk d (u32 (Z.of_nat o))].
Proof. done. Qed.

Lemma length_entries ds o : length (entries ds o) = length ds.
Proof. unfold entries. rewrite length_zip_with, length_offsets. lia. Qed.

Lemma elem_of_entries e ds o : e ∈ entries ds o -> exists d x, d ∈ ds /\ e = mk d x.
Proof.
  unfold entries. intros He. apply elem_of_lookup_zip_with_1 in He as (i & x & y & -> & Hx & _).
  exists x, y. split; [by eapply list_elem_of_lookup_2|done].
Qed.

(** Reading the data of an entry, from a blob with the data [l ++ d :: l']. *)
Lemma read_entry_fields raw pre l d l' post data fields :
  raw = pre ++ encs (l ++ d :: l') ++ post -> Z.of_nat (length raw) < 2^32 -> storable d ->
  ReadIndexData raw data (u32 (Z.of_nat (length pre + total_size l)))
    (u32 (Z.of_nat (length pre + total_size (l ++ [d])))) fields = Some (read_of fields data d).
Proof.
  intros -> Hlen Hd. rewrite encs_app in *. change (encs (d :: l')) with (enc d ++ encs l') in *.
  rewrite !length_app, !length_enc, !length_encs in Hlen.
  rewrite total_entries_app, total_one. rewrite !u32_small by (unfold is_u32; lia).
  replace (pre ++ (encs l ++ enc d ++ encs l') ++ post) with ((pre ++ encs l) ++ enc d ++ (encs l' ++ post))
    by (by rewrite <- !app_assoc).
  replace (length pre + total_size l)%nat with (length (pre ++ encs l)) by (by rewrite length_app, length_encs).
  apply ReadIndexData_fields; [done|]. rewrite length_app, length_encs. lia.
Qed.

Lemma read_entry raw pre l d l' post data :
  raw = pre ++ encs (l ++ d :: l') ++ post -> Z.of_nat (length raw) < 2^32 -> storable d ->
  ReadIndexData raw data (u32 (Z.of_nat (length pre + total_size l)))
    (u32 (Z.of_nat (length pre + total_size (l ++ [d])))) All = Some (with_tile_key (tile_key data) d).
Proof. intros Hraw Hlen Hd. by rewrite (read_entry_fields raw pre l d l' post), read_of_all. Qed.

Lemma collect_back_spec (f : E -> option TileKey) raw pre ds fields : forall post,
  raw = pre ++ encs ds ++ post -> Z.of_nat (length raw) < 2^32 -> Forall storable ds ->
  (forall d o, d ∈ ds -> f (mk d o) = Some (tile_key d)) ->
  collect_back off f raw fields (reverse (entries ds (length pre))) (u32 (Z.of_nat (length pre + total_size ds)))
  = Some (only_fields fields <$> reverse ds).
Proof.
  induction ds as [|d ds IH] using rev_ind; intros post Hraw Hlen Hst Hf; [done|].
  rewrite entries_app, reverse_app, entries_one. cbn [reverse rev_append app collect_back].
  apply Forall_app in Hst as [Hst Hd]. rewrite Forall_singleton in Hd.
  change (reverse [mk d _]) with [mk d (u32 (Z.of_nat (length pre + total_size ds)))]. cbn [app collect_back].
  rewrite Hf by (apply elem_of_app; right; left). cbn [mbind option_bind]. rewrite off_mk.
  rewrite (IH (enc d ++ post)).
  - cbn [mbind option_bind]. rewrite (read_entry_fields raw pre ds d [] post) by done.
    by rewrite reverse_app.
  - rewrite Hraw, encs_app. change (encs [d]) with (enc d ++ []). by rewrite app_nil_r, <- !app_assoc.
  - done.
  - done.
  - intros d' o' Hd'. apply Hf, elem_of_app. by left.
Qed.

(** The data of the last ancestor of the tile in the list. *)
Definition last_ancestor (t : TileKey) (ds : list IndexData) : option IndexData :=
  last (filter (fun d => IsChildOf t (tile_key d) = true) ds).

Lemma search_back_spec q (f : E -> option TileKey) t pre ds : forall post,
  raw_data q = pre ++ encs ds ++ post -> Z.of_nat (length (raw_data q)) < 2^32 -> Forall storable ds ->
  (forall d o, d ∈ ds -> f (mk d o) = Some (tile_key d)) ->
  search_back off (fun it limit => k ← f it; Some (match_entry q t k (off it) limit))
    (reverse (entries ds (length pre))) (u32 (Z.of_nat (length pre + total_size ds)))
  = Some (Some <$> last_ancestor t ds).
Proof.
  induction ds as [|d ds IH] using rev_ind; intros post Hraw Hlen Hst Hf; [done|].
  rewrite entries_app, reverse_app, entries_one. unfold last_ancestor in *. rewrite filter_app.
  apply Forall_app in Hst as [Hst Hd]. rewrite Forall_singleton in Hd.
  change (reverse [mk d _]) with [mk d (u32 (Z.of_nat (length pre + total_size ds)))]. cbn [app search_back].
  rewrite Hf by (apply elem_of_app; right; left). cbn [mbind option_bind]. rewrite off_mk.
  unfold match_entry at 1. rewrite filter_cons, filter_nil. destruct (IsChildOf t (tile_key d)) eqn:Ech.
  - rewrite decide_True by done. rewrite last_snoc. cbn [mbind option_bind].
    rewrite (read_entry (raw_data q) pre ds d [] post) by done. simpl. by rewrite with_tile_key_id.
  - rewrite decide_False by done. rewrite app_nil_r. cbn [mbind option_bind]. apply (IH (enc d ++ post)); try done.
    + rewrite Hraw, encs_app. change (encs [d]) with (enc d ++ []). by rewrite app_nil_r, <- !app_assoc.
    + intros d' o' Hd'. apply Hf, elem_of_app. by left.
Qed.

(** The lower bound in a table in strictly increasing order. *)
Lemma lower_bound_found (kf : E -> Z) (g : IndexData -> Z) l d l' o :
  (forall x y, x ∈ l ++ d :: l' -> kf (mk x y) = g x) -> (forall x, x ∈ l -> g x < g d) ->
  drop_while (fun e => kf e <? g d) (entries (l ++ d :: l') o) =
  mk d (u32 (Z.of_nat (o + total_size l))) :: entries l' (o + total_size (l ++ [d])).
Proof.
  intros Hk Hlt. rewrite entries_app, total_entries_app, total_one. change (d :: l') with ([d] ++ l').
  rewrite entries_app, entries_one, total_one, Nat.add_assoc.
  assert (Hdrop : forall l0 rest, Forall (fun e => kf e <? g d = true) l0 ->
    drop_while (fun e => kf e <? g d) (l0 ++ rest) = drop_while (fun e => kf e <? g d) rest).
  { intros l0 rest. induction 1 as [|e l0 He _ IH]; [done|]. simpl. by rewrite He. }
  rewrite Hdrop.
  - simpl. rewrite Hk by (apply elem_of_app; right; left). by rewrite Z.ltb_irrefl.
  - apply Forall_forall. intros e He. apply elem_of_entries in He as (x & y & Hx & ->).
    rewrite Hk by (apply elem_of_app; by left). apply Z.ltb_lt. auto.
Qed.

Lemma lower_bound_absent (kf : E -> Z) (g : IndexData -> Z) k ds o :
  (forall x y, x ∈ ds -> kf (mk x y) = g x) -> (forall x, x ∈ ds -> g x <> k) ->
  match drop_while (fun e => kf e <? k) (entries ds o) with [] => True | e :: _ => kf e <> k end.
Proof.
  intros Hk Hne. assert (H : forall e, e ∈ drop_while (fun e => kf e <? k) (entries ds o) -> e ∈ entries ds o).
  { intros e He. rewrite <- (take_drop_while (fun e => kf e <? k)). apply elem_of_app. by right. }
  destruct (drop_while _ _) as [|e rest]; [done|]. specialize (H e ltac:(left)).
  apply elem_of_entries in H as (x & y & Hx & ->). rewrite Hk by done. auto.
Qed.

(** The limit of an entry: the offset of the next one, or the end of the table. *)
Lemma next_limit l' o fin : fin = u32 (Z.of_nat (o + total_size l')) ->
  match entries l' o with [] => fin | n :: _ => off n end = u32 (Z.of_nat o).
Proof. intros ->. destruct l' as [|d l']; simpl; [by rewrite Nat.add_0_r|]. by rewrite off_mk. Qed.

End table.

(** ** Tiles and their keys *)

(** [t] is [root] or a tile at most [n] levels below it. *)
Definition below (root : TileKey) (n : Z) (t : TileKey) : Prop :=
  valid root /\ valid t /\ 0 <= level_ t - level_ root <= n /\
  row_ root = row_ t / 2 ^ (level_ t - level_ root) /\ column_ root = column_ t / 2 ^ (level_ t - level_ root).

(** The sub key of [t] under [root]. *)
Definition sub_key (root t : TileKey) : Z := GetSubkey64 t (level_ t - level_ root).

Lemma below_keys root t : below root 7 t ->
  let d := level_ t - level_ root in
  4 ^ d <= sub_key root t < 2 * 4 ^ d /\
  ToQuadKey64 t = ToQuadKey64 root * 4 ^ d + (sub_key root t - 4 ^ d) /\
  AddedSubkey64 root (sub_key root t) = Some t.
Proof.
  intros (Hr & Ht & Hd & Er & Ec) d. fold d in Hd, Er, Ec. pose proof Ht as (Hl & Hrow & Hcol).
  pose proof Hr as (Hlr & _). unfold LevelCount in *.
  unfold sub_key, GetSubkey64, AddedSubkey64. fold d. rewrite !ToQuadKey64_morton by done.
  pose proof (mod_pow2_range (row_ t) d ltac:(lia)). pose proof (mod_pow2_range (column_ t) d ltac:(lia)).
  pose proof (GetSubkey_morton (Z.to_nat (level_ root)) (Z.to_nat d) (row_ t) (column_ t)) as G.
  replace (Z.to_nat d + Z.to_nat (level_ root))%nat with (Z.to_nat (level_ t)) in G by lia.
  rewrite Z2Nat.id in G by lia. rewrite G by lia.
  pose proof (morton_range (Z.to_nat d) (row_ t mod 2 ^ d) (column_ t mod 2 ^ d)) as Hm.
  rewrite Z2Nat.id in Hm by lia. rewrite Z.pow_add_r in Hm by lia. rewrite Z.pow_mul_r in Hm by lia.
  change (2 ^ 2) with 4 in Hm. change (2 ^ 1) with 2 in Hm.
  assert (Hrow' : row_ t = row_ root * 2 ^ d + row_ t mod 2 ^ d).
  { rewrite Er. pose proof (Z.div_mod (row_ t) (2 ^ d) ltac:(pose proof (pow2_pos d ltac:(lia)); lia)). lia. }
  assert (Hcol' : column_ t = column_ root * 2 ^ d + column_ t mod 2 ^ d).
  { rewrite Ec. pose proof (Z.div_mod (column_ t) (2 ^ d) ltac:(pose proof (pow2_pos d ltac:(lia)); lia)). lia. }
  split_and!; [lia|lia| |].
  - pose proof (morton_split (Z.to_nat d) (Z.to_nat (level_ root)) (row_ root) (column_ root)
      (row_ t mod 2 ^ d) (column_ t mod 2 ^ d)) as S.
    rewrite Z2Nat.id in S by lia. rewrite <- Hrow', <- Hcol' in S.
    replace (Z.to_nat d + Z.to_nat (level_ root))%nat with (Z.to_nat (level_ t)) in S by lia. by apply S.
  - pose proof (AddedSubkey_morton (Z.to_nat (level_ root)) (Z.to_nat d) (row_ root) (column_ root)
      (row_ t mod 2 ^ d) (column_ t mod 2 ^ d)) as A.
    rewrite Z2Nat.id in A by lia. rewrite A by lia. rewrite <- Hrow', <- Hcol'. simpl. f_equal.
    replace (Z.to_nat d + Z.to_nat (level_ root))%nat with (Z.to_nat (level_ t)) by lia.
    rewrite FromQuadKey64_morton by (rewrite ?Z2Nat.id; lia). rewrite Z2Nat.id by lia. by destruct t.
Qed.

Lemma quadkey_range t : valid t -> 4 ^ level_ t <= ToQuadKey64 t < 2 * 4 ^ level_ t.
Proof.
  intros Ht. pose proof Ht as (Hl & _). rewrite ToQuadKey64_morton by done.
  pose proof (morton_range (Z.to_nat (level_ t)) (row_ t) (column_ t)) as H.
  rewrite Z2Nat.id in H by lia. rewrite Z.pow_add_r, Z.pow_mul_r in H by lia. change (2 ^ 2) with 4 in H. lia.
Qed.

(** Keys of deeper levels are greater. *)
Lemma quadkey_level a b : valid a -> valid b -> level_ a < level_ b -> ToQuadKey64 a < ToQuadKey64 b.
Proof.
  intros Ha Hb Hl. pose proof (quadkey_range a Ha). pose proof (quadkey_range b Hb). pose proof Ha as (Hla & _).
  assert (4 ^ (level_ a + 1) <= 4 ^ level_ b) by (apply Z.pow_le_mono_r; lia).
  rewrite Z.pow_add_r in * by lia. change (4 ^ 1) with 4 in *. lia.
Qed.

(** Sub keys are ordered like the keys. *)
Lemma sub_key_mono root a b : below root 7 a -> below root 7 b ->
  ToQuadKey64 a < ToQuadKey64 b -> sub_key root a < sub_key root b.
Proof.
  intros Ha Hb Hlt. pose proof (below_keys root a Ha) as (Ra & Ea & _). pose proof (below_keys root b Hb) as (Rb & Eb & _).
  destruct Ha as (_ & Va & Da & _). destruct Hb as (_ & Vb & Db & _).
  destruct (Z.lt_total (level_ a) (level_ b)) as [H|[H|H]].
  - assert (4 ^ (level_ a - level_ root + 1) <= 4 ^ (level_ b - level_ root)) by (apply Z.pow_le_mono_r; lia).
    rewrite Z.pow_add_r in * by lia. change (4 ^ 1) with 4 in *. lia.
  - rewrite H in *. lia.
  - pose proof (quadkey_level b a Vb Va H). lia.
Qed.

Lemma sub_key_inj root a b : below root 7 a -> below root 7 b -> sub_key root a = sub_key root b -> a = b.
Proof.
  intros Ha Hb E. pose proof (below_keys root a Ha) as (_ & _ & Sa). pose proof (below_keys root b Hb) as (_ & _ & Sb).
  rewrite E, Sb in Sa. by injection Sa.
Qed.

Lemma sub_key_u16 root t : below root 7 t ->
  u16 (GetSubkey64 t (s32 (u32 (level_ t - level_ root)))) = sub_key root t.
Proof.
  intros Ht. pose proof (below_keys root t Ht) as (R & _). destruct Ht as (_ & _ & Hd & _).
  rewrite s32_u32, s32_small by lia. fold (sub_key root t). unfold u16. apply Z.mod_small.
  assert (4 ^ (level_ t - level_ root) <= 4 ^ 7) by (apply Z.pow_le_mono_r; lia). lia.
Qed.

Lemma sub_entry_key root d o : below root 7 (tile_key d) ->
  sub_quadkey (sub_entry (level_ root) d o) = sub_key root (tile_key d).
Proof. intros Ht. unfold sub_entry. cbn [sub_quadkey]. by apply (sub_key_u16 root (tile_key d)). Qed.

(** ** The order of the data *)

(** Data of distinct tiles in the order of their keys. *)
Definition ordered (ds : list IndexData) : Prop :=
  StronglySorted (fun a b => ToQuadKey64 (tile_key a) < ToQuadKey64 (tile_key b)) ds.

#[export] Instance quad_le_total : Total quad_le.
Proof. intros a b. unfold quad_le. lia. Qed.

#[export] Instance quad_le_trans : Transitive quad_le.
Proof. intros a b c. unfold quad_le. lia. Qed.

Lemma sort_ordered ds :
  Forall (fun d => valid (tile_key d)) ds -> NoDup (tile_key <$> ds) -> ordered (merge_sort quad_le ds).
Proof.
  intros Hv Hnd. pose proof (StronglySorted_merge_sort quad_le ds) as Hs.
  assert (Hp : merge_sort quad_le ds ≡ₚ ds) by apply merge_sort_Permutation.
  rewrite <- Hp in Hv, Hnd. clear Hp. unfold ordered. induction Hs as [|d l Hs IH Hd]; [constructor|].
  inversion Hv as [|? ? Hvd Hvl]; subst. rewrite fmap_cons in Hnd. apply NoDup_cons in Hnd as [Hn Hnd].
  constructor; [by apply IH|].
  rewrite Forall_forall in *. intros x Hx. pose proof (Hd x Hx) as Hle. unfold quad_le in Hle.
  destruct (Z.eq_dec (ToQuadKey64 (tile_key d)) (ToQuadKey64 (tile_key x))) as [E|]; [|lia].
  apply quadkey_inj in E; [|by auto|by auto]. destruct Hn. rewrite E. by apply list_elem_of_fmap_2.
Qed.

Lemma ordered_app l l' : ordered (l ++ l') ->
  ordered l /\ ordered l' /\ forall x y, x ∈ l -> y ∈ l' -> ToQuadKey64 (tile_key x) < ToQuadKey64 (tile_key y).
Proof.
  unfold ordered. induction l as [|d l IH]; simpl.
  - intros Hs. split_and!; [constructor|done|]. by intros x y ?%elem_of_nil.
  - intros Hs. inversion Hs as [|? ? Hs' Hd]; subst. destruct (IH Hs') as (H1 & H2 & H3).
    rewrite Forall_app, !Forall_forall in Hd. destruct Hd as [Hd1 Hd2]. split_and!; [|done|].
    + constructor; [done|by apply Forall_forall].
    + intros x y [->|Hx]%elem_of_cons Hy; auto.
Qed.

(** The last ancestor of an ordered list is the deepest one. *)
Lemma last_ancestor_spec t ds :
  valid t -> Forall (fun d => valid (tile_key d)) ds -> ordered ds ->
  match last_ancestor t ds with
  | Some d => d ∈ ds /\ IsChildOf t (tile_key d) = true /\
      forall d', d' ∈ ds -> IsChildOf t (tile_key d') = true -> level_ (tile_key d') <= level_ (tile_key d)
  | None => forall d, d ∈ ds -> IsChildOf t (tile_key d) = false
  end.
Proof.
  intros Ht Hv Hs. unfold last_ancestor. set (P := fun d => IsChildOf t (tile_key d) = true).
  destruct (last (filter P ds)) as [d|] eqn:E.
  - apply last_Some in E as [l E].
    assert (Hd : d ∈ filter P ds) by (rewrite E; apply elem_of_app; right; left).
    apply list_elem_of_filter in Hd as [Hd1 Hd2]. split_and!; [done|done|]. intros d' Hd' Hc.
    assert (Hd3 : d' ∈ filter P ds) by (by apply list_elem_of_filter).
    rewrite Forall_forall in Hv.
    destruct (Z.le_gt_cases (level_ (tile_key d')) (level_ (tile_key d))) as [|Hgt]; [done|].
    pose proof (quadkey_level _ _ (Hv d Hd2) (Hv d' Hd') ltac:(lia)) as Hq.
    assert (Hsub : ordered (filter P ds)).
    { clear - Hs. unfold ordered in *. induction Hs as [|x l Hs IH Hx]; [constructor|]. rewrite filter_cons.
      case_decide; [|done]. constructor; [done|]. rewrite Forall_forall in *. intros y [_ Hy]%list_elem_of_filter. auto. }
    rewrite E in Hsub, Hd3. apply ordered_app in Hsub as (_ & _ & Hlt).
    apply elem_of_app in Hd3 as [Hin|Hin]; [|apply list_elem_of_singleton in Hin as ->; lia].
    specialize (Hlt d' d Hin ltac:(left)). lia.
  - apply last_None in E. intros d Hd. destruct (IsChildOf t (tile_key d)) eqn:Ec; [|done].
    assert (Hin : d ∈ filter P ds) by (by apply list_elem_of_filter). rewrite E in Hin. by apply elem_of_nil in Hin.
Qed.

(** ** The index of a tree *)

(** The data a server gives for a tree: tiles at most seven levels below the root
    (their sub keys fit 16 bits) and ancestors of smaller levels, each once. *)
Record tree_ok (root : TileKey) (parents subs : list IndexData) : Prop := {
  ok_root : valid root;
  ok_subs : Forall (fun d => below root 7 (tile_key d)) subs;
  ok_parents : Forall (fun d => valid (tile_key d) /\ level_ (tile_key d) < level_ root) parents;
  ok_storable : Forall storable (parents ++ subs);
  ok_subs_nodup : NoDup (tile_key <$> subs);
  ok_parents_nodup : NoDup (tile_key <$> parents);
  ok_subs_count : Z.of_nat (length subs) < 2^16;
  ok_parents_count : Z.of_nat (length parents) < 2^8;
  ok_size : Z.of_nat (16 + 8 * length subs + 16 * length parents + total_size (parents ++ subs)) < 2^32 }.

(** What [CreateBlob] builds from the sorted data. *)
Record blob (q : QuadTreeIndex) (root : TileKey) (ps ss : list IndexData) : Prop := {
  blob_root : FromQuadKey64 (root_tilekey q) = root;
  blob_subs : exists pre, raw_data q = pre ++ encs (ss ++ ps) /\
    subs_of q = entries (sub_entry (level_ root)) ss (length pre) /\
    parents_of q = entries (fun p o => mkParentEntry (ToQuadKey64 (tile_key p)) o) ps (length pre + total_size ss);
  blob_len : Z.of_nat (length (raw_data q)) < 2^32;
  blob_ss : Forall (fun d => below root 7 (tile_key d) /\ storable d) ss;
  blob_ps : Forall (fun d => valid (tile_key d) /\ level_ (tile_key d) < level_ root /\ storable d) ps;
  blob_ss_order : ordered ss;
  blob_ps_order : ordered ps }.

Lemma total_perm l l' : l ≡ₚ l' -> total_size l = total_size l'.
Proof. induction 1; simpl; lia. Qed.

Lemma write_at_nil raw off : write_at raw off [] = raw.
Proof. unfold write_at. cbn [length app]. rewrite Nat.add_0_r. apply take_drop. Qed.

Lemma CreateBlob_spec root d parents subs :
  tree_ok root parents subs ->
  exists q ps ss, CreateBlob root d parents subs = Some q /\ blob q root ps ss /\ ps ≡ₚ parents /\ ss ≡ₚ subs.
Proof.
  intros [Hr Hs Hp Hst Hns Hnp Hcs Hcp Hsz]. unfold CreateBlob.
  pose proof (merge_sort_Permutation quad_le subs) as Ps. pose proof (merge_sort_Permutation quad_le parents) as Pp.
  set (ss := merge_sort quad_le subs) in *. set (ps := merge_sort quad_le parents) in *.
  rewrite !total_foldl. unfold sizeof_header, sizeof_SubEntry, sizeof_ParentEntry.
  assert (Htot : total_size (parents ++ subs) = (total_size ss + total_size ps)%nat).
  { rewrite total_entries_app, (total_perm _ _ Ps), (total_perm _ _ Pp). lia. }
  rewrite Htot in Hsz. rewrite <- Ps, <- Pp in Hsz. rewrite <- Ps in Hcs. rewrite <- Pp in Hcp.
  set (raw := replicate _ 0).
  assert (Hraw : length raw = (16 + length ss * 8 + length ps * 16 + (total_size ss + total_size ps))%nat).
  { unfold raw. rewrite length_replicate. lia. }
  assert (HB : DataBegin (u16 (Z.of_nat (length ss))) (u8 (Z.of_nat (length ps))) = (16 + length ss * 8 + length ps * 16)%nat).
  { unfold DataBegin, u16, u8. rewrite !Z.mod_small by lia. rewrite !Nat2Z.id. reflexivity. }
  rewrite HB. set (B := (16 + length ss * 8 + length ps * 16)%nat) in *.
  pose proof (write_entries_spec ss raw B [] ltac:(cbn [length]; lia)) as W.
  rewrite write_at_nil, app_nil_l in W. cbn [length] in W. rewrite Nat.add_0_r in W. rewrite W.
  cbn [mbind option_bind].
  rewrite write_entries_spec by (rewrite length_encs; lia). cbn [mbind option_bind fst].
  rewrite length_encs, <- encs_app. eexists _, ps, ss. split; [done|]. split; [|done].
  assert (Hfin : write_at raw B (encs (ss ++ ps)) = replicate B 0 ++ encs (ss ++ ps)).
  { unfold write_at, raw. rewrite take_replicate, Nat.min_l by lia. do 1 f_equal.
    rewrite drop_ge; [apply app_nil_r|]. rewrite length_replicate, length_encs, total_entries_app. lia. }
  split.
  - cbn [root_tilekey]. by apply FromQuadKey64_ToQuadKey64.
  - exists (replicate B 0). cbn [raw_data]. split; [done|]. rewrite length_replicate.
    unfold subs_of, parents_of. cbn [sub_entries subkey_count parent_entries parent_count].
    unfold u16, u8. rewrite !Z.mod_small, !Nat2Z.id by lia.
    split; rewrite take_ge; try done; rewrite length_zip_with, length_offsets; lia.
  - cbn [raw_data]. rewrite Hfin, length_app, length_replicate, length_encs, total_entries_app. lia.
  - apply Forall_and. split; [by rewrite Ps|]. rewrite Ps. by apply Forall_app in Hst as [_ ?].
  - rewrite Pp. apply Forall_app in Hst as [Hst _]. rewrite Forall_forall in *. intros x Hx.
    destruct (Hp x Hx). auto.
  - apply sort_ordered; [|done]. eapply Forall_impl; [exact Hs|]. intros x (_ & Hx & _). done.
  - apply sort_ordered; [|done]. eapply Forall_impl; [exact Hp|]. by intros x [Hx _].
Qed.

Lemma parents_begin_spec q ps o :
  parents_of q = entries (fun p o => mkParentEntry (ToQuadKey64 (tile_key p)) o) ps o ->
  Z.of_nat (length (raw_data q)) < 2^32 -> length (raw_data q) = (o + total_size ps)%nat ->
  parents_begin q = u32 (Z.of_nat o).
Proof.
  intros E Hl Hlen. unfold parents_begin, raw_size. rewrite E.
  apply (next_limit (fun p o => mkParentEntry (ToQuadKey64 (tile_key p)) o) tag_offset); [done|by rewrite Hlen].
Qed.

(** What [FindNearestParent] answers on such a blob. *)
Lemma FindNearestParent_spec q root ps ss t :
  blob q root ps ss ->
  FindNearestParent q t = Some (last_ancestor t (if level_ t >=? level_ root then ps ++ ss else ps)).
Proof.
  intros [Hr (pre & Hraw & Hsub & Hpar) Hlen Hss Hps Hos Hop].
  assert (Hl : length (raw_data q) = (length pre + total_size ss + total_size ps)%nat).
  { rewrite Hraw, length_app, length_encs, total_entries_app. lia. }
  unfold FindNearestParent. rewrite Hr. rewrite (parents_begin_spec q ps _ Hpar Hlen Hl).
  rewrite Hsub, Hpar. unfold raw_size. rewrite Hl.
  assert (Sss : Forall storable ss) by (eapply Forall_impl; [exact Hss|]; by intros x [_ Hx]).
  assert (Sps : Forall storable ps) by (eapply Forall_impl; [exact Hps|]; by intros x (_ & _ & Hx)).
  rewrite encs_app in Hraw. rewrite Forall_forall in Hss, Hps.
  assert (E1 : search_back tag_offset
      (fun it limit => Some (match_entry q t (FromQuadKey64 (key it)) (tag_offset it) limit))
      (reverse (entries (fun p o => mkParentEntry (ToQuadKey64 (tile_key p)) o) ps (length pre + total_size ss)))
      (u32 (Z.of_nat (length pre + total_size ss + total_size ps))) = Some (Some <$> last_ancestor t ps)).
  { rewrite <- (length_encs ss), <- length_app.
    apply (search_back_spec (fun p o => mkParentEntry (ToQuadKey64 (tile_key p)) o) tag_offset
      ltac:(done) q (fun it => Some (FromQuadKey64 (key it))) t (pre ++ encs ss) ps []); try done.
    - by rewrite app_nil_r, <- app_assoc.
    - intros d o Hd. cbn [key]. f_equal. apply FromQuadKey64_ToQuadKey64. by destruct (Hps d Hd). }
  assert (Happ : last_ancestor t (ps ++ ss) = match last_ancestor t ss with Some d => Some d | None => last_ancestor t ps end).
  { unfold last_ancestor. rewrite filter_app, last_app. done. }
  destruct (level_ t >=? level_ root).
  - rewrite (search_back_spec (sub_entry (level_ root)) sub_tag_offset ltac:(done) q
      (fun it => AddedSubkey64 root (sub_quadkey it)) t pre ss (encs ps)); try done.
    + cbn [mbind option_bind]. rewrite Happ. destruct (last_ancestor t ss) as [d|]; [done|].
      cbn [fmap option_fmap option_map]. rewrite E1. by destruct (last_ancestor t ps).
    + intros d o Hd. destruct (Hss d Hd) as [Hb _]. rewrite sub_entry_key by done.
      by destruct (below_keys root _ Hb) as (_ & _ & ->).
  - cbn [mbind option_bind]. rewrite E1. by destruct (last_ancestor t ps).
Qed.

Lemma ordered_split d ds : d ∈ ds -> ordered ds ->
  exists l l', ds = l ++ d :: l' /\ forall x, x ∈ l -> ToQuadKey64 (tile_key x) < ToQuadKey64 (tile_key d).
Proof.
  intros Hd Hs. apply list_elem_of_split in Hd as (l & l' & ->). exists l, l'. split; [done|].
  apply ordered_app in Hs as (_ & _ & H). intros x Hx. apply H; [done|left].
Qed.

(** An entry of the tile itself is found, whatever the kind of search. *)
Lemma Find_exact q root ps ss t agg x :
  blob q root ps ss -> (level_ root <= level_ t -> below root 7 t) ->
  x ∈ ps ++ ss -> tile_key x = t -> Find q t agg = Some (Some x).
Proof.
  intros Hb Hbel Hx Et. pose proof Hb as [Hr (pre & Hraw & Hsub & Hpar) Hlen Hss Hps Hos Hop].
  assert (Hl : length (raw_data q) = (length pre + total_size ss + total_size ps)%nat).
  { rewrite Hraw, length_app, length_encs, total_entries_app. lia. }
  unfold Find. rewrite Hr, (parents_begin_spec q ps _ Hpar Hlen Hl), Hsub, Hpar. unfold raw_size. rewrite Hl.
  rewrite Forall_forall in Hss, Hps. destruct (Z.geb_spec (level_ t) (level_ root)) as [Hge|Hlt].
  - apply elem_of_app in Hx as [Hx|Hx]; [destruct (Hps x Hx) as (_ & ? & _); rewrite Et in *; lia|].
    destruct (ordered_split x ss Hx Hos) as (l & l' & -> & Hlt). rewrite sub_key_u16 by auto.
    rewrite <- Et.
    rewrite (lower_bound_found (sub_entry (level_ root)) sub_quadkey (fun d => sub_key root (tile_key d))).
    + cbn [sub_quadkey]. rewrite sub_entry_key by (apply Hss, elem_of_app; right; left).
      rewrite Z.eqb_refl. cbn [negb sub_entry sub_tag_offset].
      rewrite (next_limit (sub_entry (level_ root)) sub_tag_offset ltac:(done) l').
      2: { do 2 f_equal. rewrite !total_entries_app, total_one. change (x :: l') with ([x] ++ l'). rewrite total_entries_app, total_one. lia. }
      rewrite (read_entry (raw_data q) pre l x (l' ++ ps) []).
      * cbn [fmap option_fmap option_map]. do 2 f_equal. by destruct x.
      * by rewrite app_nil_r, Hraw, <- app_assoc.
      * done.
      * apply Hss, elem_of_app. right. left.
    + intros d o Hd. apply sub_entry_key. by apply Hss.
    + intros d Hd. apply sub_key_mono; [apply Hss, elem_of_app; by left|apply Hss, elem_of_app; right; left|auto].
  - apply elem_of_app in Hx as [Hx|Hx]; [|destruct (Hss x Hx) as ((_ & _ & ? & _) & _); rewrite Et in *; lia].
    destruct (ordered_split x ps Hx Hop) as (l & l' & -> & Hl').
    rewrite <- Et.
    rewrite (lower_bound_found (fun p o => mkParentEntry (ToQuadKey64 (tile_key p)) o) key
      (fun d => ToQuadKey64 (tile_key d))) by done.
    cbn [key]. rewrite Z.eqb_refl. cbn [negb tag_offset].
    rewrite (next_limit (fun p o => mkParentEntry (ToQuadKey64 (tile_key p)) o) tag_offset ltac:(done) l').
    2: { do 2 f_equal. rewrite !total_entries_app, total_one. change (x :: l') with ([x] ++ l'). rewrite total_entries_app, total_one. lia. }
    rewrite <- (length_encs ss), <- !length_app. 
    rewrite (read_entry (raw_data q) (pre ++ encs ss) l x l' []).
    + cbn [fmap option_fmap option_map]. do 2 f_equal. by destruct x.
    + by rewrite app_nil_r, Hraw, encs_app, <- app_assoc.
    + done.
    + by destruct (Hps x Hx) as (_ & _ & ?).
Qed.

(** Without one the search falls back to the ancestors. *)
Lemma Find_absent q root ps ss t agg :
  blob q root ps ss -> (level_ root <= level_ t -> below root 7 t) -> valid t ->
  (forall x, x ∈ ps ++ ss -> tile_key x <> t) ->
  Find q t agg = if agg then FindNearestParent q t else Some None.
Proof.
  intros Hb Hbel Ht Hne. pose proof Hb as [Hr (pre & Hraw & Hsub & Hpar) Hlen Hss Hps Hos Hop].
  unfold Find. rewrite Hr, Hsub, Hpar. rewrite Forall_forall in Hss, Hps.
  destruct (Z.geb_spec (level_ t) (level_ root)) as [Hge|Hlt].
  - rewrite sub_key_u16 by auto.
    pose proof (lower_bound_absent (sub_entry (level_ root)) sub_quadkey (fun d => sub_key root (tile_key d))
      (sub_key root t) ss (length pre)) as H.
    destruct (drop_while _ _) as [|e rest]; [done|]. rewrite (proj2 (Z.eqb_neq _ _)); [done|]. apply H.
    + intros x o Hx. apply sub_entry_key. by apply Hss.
    + intros x Hx E. apply (Hne x); [apply elem_of_app; by right|]. apply (sub_key_inj root); [by apply Hss|auto|done].
  - pose proof (lower_bound_absent (fun p o => mkParentEntry (ToQuadKey64 (tile_key p)) o) key
      (fun d => ToQuadKey64 (tile_key d)) (ToQuadKey64 t) ps (length pre + total_size ss)) as H.
    destruct (drop_while _ _) as [|e rest]; [done|]. rewrite (proj2 (Z.eqb_neq _ _)); [done|]. apply H; [done|].
    intros x Hx E. apply (Hne x); [apply elem_of_app; by left|]. apply quadkey_inj in E; [done| |done].
    by destruct (Hps x Hx).
Qed.

(** What a search of the data [l] for [t] has to answer: the data of the tile when
    there is one; otherwise, in an aggregated search, that of the deepest ancestor. *)
Definition answers (l : list IndexData) (t : TileKey) (agg : bool) (r : option IndexData) : Prop :=
  match r with
  | Some x => x ∈ l /\
      (tile_key x = t \/
       agg = true /\ (forall y, y ∈ l -> tile_key y <> t) /\ IsChildOf t (tile_key x) = true /\
       forall y, y ∈ l -> IsChildOf t (tile_key y) = true -> level_ (tile_key y) <= level_ (tile_key x))
  | None => (forall y, y ∈ l -> tile_key y <> t) /\
      (agg = true -> forall y, y ∈ l -> IsChildOf t (tile_key y) = false)
  end.

Lemma answers_perm l l' t agg r : l ≡ₚ l' -> answers l t agg r -> answers l' t agg r.
Proof. intros P. destruct r as [x|]; cbn [answers]; by setoid_rewrite P. Qed.

(** What a search answers, of an index of the data [ps ++ ss]. *)
Lemma Find_spec q root ps ss t agg : blob q root ps ss -> valid t -> (level_ root <= level_ t -> below root 7 t) ->
  exists r, Find q t agg = Some r /\ answers (ps ++ ss) t agg r.
Proof.
  intros Hb Ht Hbel.
  destruct (decide (Exists (fun x => tile_key x = t) (ps ++ ss))) as [Hex|Hex].
  - apply Exists_exists in Hex as (x & Hx & Et). exists (Some x).
    split; [by apply (Find_exact q root ps ss)|]. cbn [answers]. auto.
  - assert (Hne : forall x, x ∈ ps ++ ss -> tile_key x <> t).
    { intros x Hx Et. apply Hex, Exists_exists. eauto. }
    rewrite (Find_absent q root ps ss) by done. destruct agg; [|by exists None].
    rewrite (FindNearestParent_spec q root ps ss t Hb). eexists. split; [done|].
    destruct Hb as [_ _ _ Hss Hps Hos Hop]. rewrite Forall_forall in Hss, Hps.
    assert (Hlev : forall x, x ∈ ss -> level_ t < level_ root -> IsChildOf t (tile_key x) = false).
    { intros x Hx Hlt. destruct (Hss x Hx) as ((_ & _ & Hd & _) & _). unfold IsChildOf.
      destruct (Z.leb_spec (level_ t) (level_ (tile_key x))); [done|lia]. }
    assert (ordered (ps ++ ss) /\ Forall (fun x => valid (tile_key x)) (ps ++ ss)) as [Ho Hv].
    { split.
      - unfold ordered in *. clear - Hos Hop Hss Hps. induction Hop as [|p ps Hp IH Hpp]; [done|].
        constructor; [apply IH; intros; apply Hps; by right|]. apply Forall_app. split; [done|].
        apply Forall_forall. intros x Hx. destruct (Hps p ltac:(left)) as (? & ? & _).
        destruct (Hss x Hx) as ((? & ? & ? & _) & _). apply quadkey_level; [done|done|lia].
      - apply Forall_app. split; apply Forall_forall; intros x Hx.
        + by destruct (Hps x Hx).
        + by destruct (Hss x Hx) as ((_ & ? & _) & _). }
    destruct (Z.geb_spec (level_ t) (level_ root)) as [Hge|Hlt].
    + pose proof (last_ancestor_spec t (ps ++ ss) Ht Hv Ho) as H. destruct (last_ancestor t (ps ++ ss)) as [x|].
      * destruct H as (? & ? & ?). split; [done|]. right. done.
      * done.
    + assert (Hvp : Forall (fun x => valid (tile_key x)) ps) by (by apply Forall_app in Hv as [? _]).
      pose proof (last_ancestor_spec t ps Ht Hvp Hop) as H. destruct (last_ancestor t ps) as [x|].
      * destruct H as (? & ? & H). split; [apply elem_of_app; by left|]. right. split_and!; try done.
        intros y [Hy|Hy]%elem_of_app Hc; [auto|]. by rewrite Hlev in Hc.
      * split; [done|]. intros _ y [Hy|Hy]%elem_of_app; auto.
Qed.

(** C34: searching the blob of a tree gives the data of the tile when the tree has
    it; otherwise the aggregated search gives the data of the deepest ancestor,
    and nothing when there is none. *)
Theorem QuadTree_Find root d parents subs t agg :
  tree_ok root parents subs -> valid t -> (level_ root <= level_ t -> below root 7 t) ->
  exists q r, CreateBlob root d parents subs = Some q /\ Find q t agg = Some r /\
    answers (parents ++ subs) t agg r.
Proof.
  intros Hok Ht Hbel. destruct (CreateBlob_spec root d parents subs Hok) as (q & ps & ss & E & Hb & Pp & Ps).
  destruct (Find_spec q root ps ss t agg Hb Ht Hbel) as (r & Hf & Ha). exists q, r. split_and!; [done|done|].
  revert Ha. apply answers_perm. by rewrite Pp, Ps.
Qed.

(** [GetIndexData] collects what the blob was built from. *)
Lemma GetIndexData_spec q root ps ss fields : blob q root ps ss ->
  GetIndexData q fields = Some (only_fields fields <$> reverse ps ++ reverse ss).
Proof.
  intros [Hr (pre & Hraw & Hsub & Hpar) Hlen Hss Hps Hos Hop].
  assert (Hl : length (raw_data q) = (length pre + total_size ss + total_size ps)%nat).
  { rewrite Hraw, length_app, length_encs, total_entries_app. lia. }
  assert (Sss : Forall storable ss) by (eapply Forall_impl; [exact Hss|]; by intros x [_ Hx]).
  assert (Sps : Forall storable ps) by (eapply Forall_impl; [exact Hps|]; by intros x (_ & _ & Hx)).
  rewrite Forall_forall in Hss, Hps.
  unfold GetIndexData. rewrite (parents_begin_spec q ps _ Hpar Hlen Hl), Hsub, Hpar. unfold raw_size. rewrite Hl, Hr.
  rewrite encs_app in Hraw.
  rewrite <- (length_encs ss), <- length_app.
  rewrite (collect_back_spec (fun p o => mkParentEntry (ToQuadKey64 (tile_key p)) o) tag_offset ltac:(done)
    _ (raw_data q) (pre ++ encs ss) ps fields []); try done.
  - cbn [mbind option_bind]. rewrite length_app, length_encs.
    rewrite (collect_back_spec (sub_entry (level_ root)) sub_tag_offset ltac:(done) _ (raw_data q) pre ss fields (encs ps)); try done.
    + cbn [mbind option_bind]. by rewrite fmap_app.
    + intros x o Hx. destruct (Hss x Hx) as [Hb _]. rewrite sub_entry_key by done.
      by destruct (below_keys root _ Hb) as (_ & _ & ->).
  - by rewrite app_nil_r, <- app_assoc.
  - intros x o Hx. cbn [key]. f_equal. apply FromQuadKey64_ToQuadKey64. by destruct (Hps x Hx).
Qed.

(** Reading a blob back gives all the data it was built from, with its root. *)
Theorem GetIndexData_all root d parents subs :
  tree_ok root parents subs ->
  exists q l, CreateBlob root d parents subs = Some q /\ GetIndexData q All = Some l /\
    l ≡ₚ parents ++ subs /\ GetRootTile q = root.
Proof.
  intros Hok. destruct (CreateBlob_spec root d parents subs Hok) as (q & ps & ss & E & Hb & Pp & Ps).
  exists q, (reverse ps ++ reverse ss). split; [done|].
  split; [by rewrite (GetIndexData_spec q root ps ss), only_fields_all|].
  split; [by rewrite !reverse_Permutation, Pp, Ps|exact (blob_root _ _ _ _ Hb)].
Qed.

(** *** An index for its clients *)

(** [q] is the index that was built for the tree of [root] with the data [data]. *)
Definition index_of (q : QuadTreeIndex) (root : TileKey) (data : list IndexData) : Prop :=
  exists d parents subs, tree_ok root parents subs /\ CreateBlob root d parents subs = Some q /\ data = parents ++ subs.

Lemma index_of_blob q root data : index_of q root data -> exists ps ss, blob q root ps ss /\ ps ++ ss ≡ₚ data.
Proof.
  intros (d & parents & subs & Hok & E & ->). destruct (CreateBlob_spec root d parents subs Hok) as (q' & ps & ss & E' & Hb & Pp & Ps).
  rewrite E in E'. injection E' as <-. exists ps, ss. split; [done|]. by rewrite Pp, Ps.
Qed.

Lemma index_root q root data : index_of q root data -> GetRootTile q = root.
Proof. intros (ps & ss & Hb & _)%index_of_blob. exact (blob_root _ _ _ _ Hb). Qed.

Lemma index_Find q root data t agg : index_of q root data -> valid t -> (level_ root <= level_ t -> below root 7 t) ->
  exists r, Find q t agg = Some r /\ answers data t agg r.
Proof.
  intros (ps & ss & Hb & P)%index_of_blob Ht Hbel. destruct (Find_spec q root ps ss t agg Hb Ht Hbel) as (r & E & Ha).
  exists r. split; [done|]. by apply (answers_perm (ps ++ ss)).
Qed.

(** The tiles of the index with the handles of their data. *)
Lemma index_handles q root data : index_of q root data -> exists l, GetIndexData q DataHandle = Some l /\
  (fun d => (tile_key d, data_handle d)) <$> l ≡ₚ (fun d => (tile_key d, data_handle d)) <$> data.
Proof.
  intros (ps & ss & Hb & P)%index_of_blob. eexists. split; [by apply (GetIndexData_spec q root ps ss)|].
  rewrite <- list_fmap_compose, <- P. rewrite !reverse_Permutation. by apply fmap_Permutation.
Qed.

(** A small tree: the root tile, one of its children and the world tile. *)
Module sample.
Definition tile (l r c : Z) (h : list ascii) : IndexData := mkIndexData (mkTileKey r c l) h [] [] [] 7 100 50.
Definition root : TileKey := mkTileKey 1 1 1.
Definition handle : list ascii := ["h"%char].
Definition subs : list IndexData := [tile 2 3 2 handle; tile 1 1 1 handle].
Definition parents : list IndexData := [tile 0 0 0 []].

Lemma ok : tree_ok root parents subs.
Proof.
  split.
  - vm_compute. intuition congruence.
  - repeat constructor; vm_compute; intuition congruence.
  - repeat constructor; vm_compute; intuition congruence.
  - repeat constructor; cbn; try lia; repeat constructor; vm_compute; intuition congruence.
  - apply (bool_decide_unpack _). vm_compute. done.
  - apply (bool_decide_unpack _). vm_compute. done.
  - done.
  - done.
  - done.
Qed.
End sample.

Lemma QuadTree_Find_witness :
  exists q r, CreateBlob sample.root 4 sample.parents sample.subs = Some q /\
    Find q (mkTileKey 5 5 3) true = Some r /\
    answers (sample.parents ++ sample.subs) (mkTileKey 5 5 3) true r.
Proof.
  apply QuadTree_Find; [apply sample.ok| |intros _]; vm_compute; intuition congruence.
Defined.

Lemma GetIndexData_all_witness :
  exists q l, CreateBlob sample.root 4 sample.parents sample.subs = Some q /\ GetIndexData q All = Some l /\
    l ≡ₚ sample.parents ++ sample.subs /\ GetRootTile q = sample.root.
Proof. apply GetIndexData_all, sample.ok. Defined.
