(* ===== verification/QuadTreeJson.v ===== *)
(** * The index of a response

    Model of the constructor of [QuadTreeIndex] from the text of a response
    (olp-cpp-sdk-dataservice-read, src/repositories/QuadTreeIndex.cpp) and of
    [ParseCommonIndexData].  An index without data is [None]; the outer [None] is an
    exception of [as_object] or [to_number]. *)

From stdpp Require Import sorting.
From S2P Require Import Prelude TileKey QuadTreeIndex Json.

(** The text of a C string. *)
Definition c_str (s : list ascii) : list ascii := take_while (fun c => negb (ord c =? 0)) s.

Definition string_member (name : string) (default : list ascii) (obj : object) : list ascii :=
  match find (chars name) obj with Some (JString s) => c_str s | _ => default end.

(** A member that is an integer; another one is left out. *)
Definition int64_member (name : string) (default : Z) (obj : object) : option Z :=
  match find (chars name) obj with
  | Some (JInt64 z) => Some z
  | Some (JUint64 z) => in_int64 z
  | _ => Some default
  end.

Definition uint64_member (name : string) (default : Z) (obj : object) : option Z :=
  match find (chars name) obj with
  | Some (JInt64 z) => if 0 <=? z then Some z else None
  | Some (JUint64 z) => Some z
  | _ => Some default
  end.

Definition ParseCommonIndexData (obj : object) : option IndexData :=
  let d := IndexData_default in
  data_size ← int64_member "dataSize" (data_size d) obj;
  compressed_data_size ← int64_member "compressedDataSize" (compressed_data_size d) obj;
  version ← uint64_member "version" (version d) obj;
  Some (mkIndexData (tile_key d) (data_handle d) (string_member "additionalMetadata" [] obj) (string_member "crc" [] obj)
          (string_member "checksum" [] obj) version data_size compressed_data_size).

Definition is_string (v : option json) : bool := match v with Some (JString _) => true | _ => false end.

(** The loop over the quads, whose tile is the text of the member [name]. *)
Fixpoint parse_quads (name : string) (tile : list ascii -> TileKey) (values : list json) : option (list IndexData) :=
  match values with
  | [] => Some []
  | value :: values =>
      match value with
      | JObject obj =>
          if negb (is_string (find (chars "dataHandle") obj)) || negb (is_string (find (chars name) obj)) then parse_quads name tile values
          else
            data ← ParseCommonIndexData obj;
            rest ← parse_quads name tile values;
            Some (mkIndexData (tile (string_member name [] obj)) (string_member "dataHandle" [] obj) (additional_metadata data) (crc data)
                    (checksum data) (version data) (data_size data) (compressed_data_size data) :: rest)
      | _ => None
      end
  end.

Definition array_of (v : option json) : list json := match v with Some (JArray l) => l | _ => [] end.

Definition QuadTreeIndex_of_json (root : TileKey) (d : Z) (parsed_value : json) : option (option QuadTreeIndex) :=
  match parsed_value with
  | JObject top_object =>
      let parent_quads_value := find (chars "parentQuads") top_object in
      let sub_quads_value := find (chars "subQuads") top_object in
      match parent_quads_value, sub_quads_value with
      | None, None => Some None
      | _, _ =>
          parents ← parse_quads "partition" FromHereTile (array_of parent_quads_value);
          subs ← parse_quads "subQuadKey" (AddedSubHereTile root) (array_of sub_quads_value);
          Some (CreateBlob root d parents subs)
      end
  | _ => Some None
  end.

Definition QuadTreeIndex_parse `{JsonText} (root : TileKey) (d : Z) (text : list ascii) : option (option QuadTreeIndex) :=
  QuadTreeIndex_of_json root d (json_parse text).
