(* ===== verification/TaskContext.v ===== *)
(** * Tasks and their cancellation

    Model of [CancellationContext] (include/olp/core/client/CancellationContext.h and
    .inl), [Condition] (Condition.h), [TaskContext] (TaskContext.h) and
    [PendingRequests] (src/client/PendingRequests.cpp).

    A task is shared by threads that execute it, cancel it, or cancel it and wait.
    Every thread is a program counter into the function it calls; one step of a
    thread is a part of the code that other threads cannot observe halfway: an access
    to an atomic, or what is done under one lock.  The steps of the threads
    interleave in every order. *)

From S2P Require Import Prelude.

(** ** The cancellation context *)

Module CancellationContext.
Section context.
(** The cancel function of a token; the empty token is [None]. *)
Context {A : Type}.

Record CancellationContextImpl := mkImpl { sub_operation_cancel_token_ : option A; is_cancelled_ : bool }.

Definition CancellationContext_new : CancellationContextImpl := mkImpl None false.

(** [ExecuteOrCancelled]: the token that [execute_fn] returned, [None] for a null
    function; the result says too whether [cancel_fn] is called. *)
Definition ExecuteOrCancelled (c : CancellationContextImpl) (execute_fn : option (option A))
  : CancellationContextImpl * bool :=
  if is_cancelled_ c then (c, false)
  else match execute_fn with
       | Some token => (mkImpl token (is_cancelled_ c), true)
       | None => (c, true)
       end.

(** [CancelOperation]: the context and the cancel function that was called. *)
Definition CancelOperation (c : CancellationContextImpl) : CancellationContextImpl * option A :=
  if is_cancelled_ c then (c, None)
  else (mkImpl None true, sub_operation_cancel_token_ c).

Definition IsCancelled (c : CancellationContextImpl) : bool := is_cancelled_ c.
End context.
#[global] Arguments CancellationContextImpl : clear implicits.
End CancellationContext.
Import CancellationContext.

(** ** The task *)

Module TaskContext.
Section task.
(** Results of the task, and the tokens of its sub-operations. *)
Context {T A : Type}.

Inductive Error := Cancelled | RequestTimeout | OtherError (code : Z).

Definition Response : Type := T + Error.

Inductive State := PENDING | IN_PROGRESS | COMPLETED.

(** The members of [TaskContextImpl]; of the two functions, whether they are there.
    The last three are not members: the number of calls of the function, what the
    callback was called with, and the sub-operations that were cancelled. *)
Record TaskContextImpl := mkTask {
  execute_func_ : bool;
  callback_ : bool;
  context_ : CancellationContextImpl A;
  signaled_ : bool;
  state_ : State;
  executed : nat;
  delivered : list Response;
  cancelled_subs : list A }.

Definition TaskContext_new (callback : bool) (context : CancellationContextImpl A) : TaskContextImpl :=
  mkTask true callback context false PENDING 0 [] [].

(** The points of [Execute], [BlockingCancel] and the function of [CancelToken]
    between two steps. *)
Inductive pc :=
| ExecuteStart
| ExecuteTake
| ExecuteCheck (function callback : bool)
| ExecuteFunction (callback : bool)
| ExecuteResponse (callback : bool) (response : Response)
| ExecuteReset (callback : bool) (user_response : Response)
| ExecuteCallback (callback : bool) (user_response : Response)
| ExecuteNotify
| ExecuteStore
| ExecuteDone
| BlockingLoad
| BlockingCheck
| BlockingCancelOperation
| BlockingClear
| BlockingWait
| BlockingDone (result : bool)
| TokenCancel
| TokenDone.

(** What a step depends on besides the state: the function calls
    [ExecuteOrCancelled] with a new sub-operation, or returns; the time is out. *)
Inductive choice :=
| SubOperation (token : option A)
| Return (response : Response)
| TimeOut
| NoChoice.

Definition cancelled_response : Response := inr Cancelled.

(** [!response.IsSuccessful() && code == RequestTimeout] *)
Definition timed_out (response : Response) : bool :=
  match response with inr RequestTimeout => true | _ => false end.

Definition set_context (c : CancellationContextImpl A) (s : TaskContextImpl) : TaskContextImpl :=
  mkTask (execute_func_ s) (callback_ s) c (signaled_ s) (state_ s) (executed s) (delivered s) (cancelled_subs s).
Definition set_signaled (b : bool) (s : TaskContextImpl) : TaskContextImpl :=
  mkTask (execute_func_ s) (callback_ s) (context_ s) b (state_ s) (executed s) (delivered s) (cancelled_subs s).
Definition set_state (st : State) (s : TaskContextImpl) : TaskContextImpl :=
  mkTask (execute_func_ s) (callback_ s) (context_ s) (signaled_ s) st (executed s) (delivered s) (cancelled_subs s).
Definition set_functions (function callback : bool) (s : TaskContextImpl) : TaskContextImpl :=
  mkTask function callback (context_ s) (signaled_ s) (state_ s) (executed s) (delivered s) (cancelled_subs s).
Definition log_call (s : TaskContextImpl) : TaskContextImpl :=
  mkTask (execute_func_ s) (callback_ s) (context_ s) (signaled_ s) (state_ s) (S (executed s)) (delivered s) (cancelled_subs s).
Definition deliver (r : Response) (s : TaskContextImpl) : TaskContextImpl :=
  mkTask (execute_func_ s) (callback_ s) (context_ s) (signaled_ s) (state_ s) (executed s) (delivered s ++ [r]) (cancelled_subs s).

(** [context_.CancelOperation()] *)
Definition cancel_context (s : TaskContextImpl) : TaskContextImpl :=
  let '(c, called) := CancelOperation (context_ s) in
  mkTask (execute_func_ s) (callback_ s) c (signaled_ s) (state_ s) (executed s) (delivered s)
    (match called with Some a => cancelled_subs s ++ [a] | None => cancelled_subs s end).

(** One step of [Execute]. *)
Definition execute_step (ch : choice) (p : pc) (s : TaskContextImpl) : option (pc * TaskContextImpl) :=
  match p with
  | ExecuteStart =>
      match state_ s with
      | PENDING => Some (ExecuteTake, set_state IN_PROGRESS s)
      | _ => Some (ExecuteDone, s)
      end
  | ExecuteTake => Some (ExecuteCheck (execute_func_ s) (callback_ s), set_functions false false s)
  | ExecuteCheck function callback =>
      if function && negb (IsCancelled (context_ s)) then Some (ExecuteFunction callback, log_call s)
      else Some (ExecuteReset callback cancelled_response, s)
  | ExecuteFunction callback =>
      match ch with
      | SubOperation token => Some (p, set_context (fst (ExecuteOrCancelled (context_ s) (Some token))) s)
      | Return response => Some (ExecuteResponse callback response, s)
      | _ => None
      end
  | ExecuteResponse callback response =>
      if negb (IsCancelled (context_ s)) || timed_out response then Some (ExecuteReset callback response, s)
      else Some (ExecuteReset callback cancelled_response, s)
  | ExecuteReset callback user_response =>
      Some (ExecuteCallback callback user_response, set_context (fst (ExecuteOrCancelled (context_ s) (Some None))) s)
  | ExecuteCallback callback user_response =>
      Some (ExecuteNotify, if callback : bool then deliver user_response s else s)
  | ExecuteNotify => Some (ExecuteStore, set_signaled true s)
  | ExecuteStore => Some (ExecuteDone, set_state COMPLETED s)
  | _ => None
  end.

(** One step of [BlockingCancel]; [Wait] returns when there is a signal, or when
    the time is out, and takes the signal away. *)
Definition blocking_step (ch : choice) (p : pc) (s : TaskContextImpl) : option (pc * TaskContextImpl) :=
  match p with
  | BlockingLoad =>
      match state_ s with
      | COMPLETED => Some (BlockingDone true, s)
      | _ => Some (BlockingCheck, s)
      end
  | BlockingCheck =>
      if negb (IsCancelled (context_ s)) then Some (BlockingCancelOperation, s) else Some (BlockingClear, s)
  | BlockingCancelOperation => Some (BlockingClear, cancel_context s)
  | BlockingClear => Some (BlockingWait, set_functions false (callback_ s) s)
  | BlockingWait =>
      if signaled_ s then Some (BlockingDone true, set_signaled false s)
      else match ch with TimeOut => Some (BlockingDone false, set_signaled false s) | _ => None end
  | _ => None
  end.

Definition advance (ch : choice) (p : pc) (s : TaskContextImpl) : option (pc * TaskContextImpl) :=
  match p with
  | TokenCancel => Some (TokenDone, cancel_context s)
  | TokenDone => None
  | BlockingLoad | BlockingCheck | BlockingCancelOperation | BlockingClear | BlockingWait | BlockingDone _ =>
      blocking_step ch p s
  | _ => execute_step ch p s
  end.

(** Some threads and the task they share. *)
Definition system : Type := list pc * TaskContextImpl.

(** The thread [t] takes a step. *)
Definition run_thread (t : nat) (ch : choice) (y : system) : option system :=
  p ← y.1 !! t;
  '(p', s') ← advance ch p y.2;
  Some (<[t := p']> y.1, s').

Inductive step : system -> system -> Prop :=
| step_thread t ch y y' : run_thread t ch y = Some y' -> step y y'.

Definition initial_pc (p : pc) : Prop := p = ExecuteStart \/ p = BlockingLoad \/ p = TokenCancel.

(** A cancelled context has no sub-operation. *)
Definition context_ok (c : CancellationContextImpl A) : Prop :=
  is_cancelled_ c = true -> sub_operation_cancel_token_ c = None.

(** The systems that threads about to call one of the functions of a task with a
    callback can get to. *)
Definition initial (y : system) : Prop :=
  Forall initial_pc y.1 /\ exists c, context_ok c /\ y.2 = TaskContext_new true c.

Definition reachable (y : system) : Prop := exists y0, initial y0 /\ rtc step y0 y.
End task.

(** ** The invariant *)

Section invariant.
Context {T A : Type}.
Abbreviation pc := (pc (T := T)).
Abbreviation system := (system (T := T) (A := A)).
Abbreviation Task := (TaskContextImpl (T := T) (A := A)).
Abbreviation Response := (Response (T := T)).
Implicit Types (y : system) (p : pc) (s : Task) (r : Response) (c : CancellationContextImpl A).

(** The thread has taken the task and not finished it. *)
Definition active p : bool :=
  match p with
  | ExecuteTake | ExecuteCheck _ _ | ExecuteFunction _ | ExecuteResponse _ _ | ExecuteReset _ _
  | ExecuteCallback _ _ | ExecuteNotify | ExecuteStore => true
  | _ => false
  end.

(** The callback was called. *)
Definition over s : Prop :=
  length (delivered s) = 1%nat /\ sub_operation_cancel_token_ (context_ s) = None /\
  (executed s <= 1)%nat /\ (executed s = 0%nat -> forall r, r ∈ delivered s -> r = cancelled_response) /\
  callback_ s = false.

Definition fresh b s : Prop := executed s = 0%nat /\ delivered s = [] /\ callback_ s = b.

(** What the thread that has the task knows. *)
Definition phase p s : Prop :=
  match p with
  | ExecuteTake => fresh true s
  | ExecuteCheck _ b => fresh false s /\ b = true
  | ExecuteFunction b | ExecuteResponse b _ => executed s = 1%nat /\ delivered s = [] /\ callback_ s = false /\ b = true
  | ExecuteReset b r => (executed s <= 1)%nat /\ delivered s = [] /\ callback_ s = false /\ b = true /\
      (executed s = 0%nat -> r = cancelled_response)
  | ExecuteCallback b r => (executed s <= 1)%nat /\ delivered s = [] /\ callback_ s = false /\ b = true /\
      (executed s = 0%nat -> r = cancelled_response) /\ sub_operation_cancel_token_ (context_ s) = None
  | ExecuteNotify | ExecuteStore => over s
  | _ => True
  end.

Record inv y : Prop := {
  inv_context : context_ok (context_ y.2);
  inv_state : match state_ y.2 with PENDING => fresh true y.2 | IN_PROGRESS => True | COMPLETED => over y.2 end;
  inv_active : forall t p, y.1 !! t = Some p -> active p = true -> state_ y.2 = IN_PROGRESS /\ phase p y.2;
  inv_unique : forall t t' p p', y.1 !! t = Some p -> y.1 !! t' = Some p' -> active p = true -> active p' = true -> t = t';
  inv_progress : state_ y.2 = IN_PROGRESS -> exists t p, y.1 !! t = Some p /\ active p = true;
  inv_signaled : signaled_ y.2 = true -> over y.2;
  inv_waiters : forall t, y.1 !! t = Some (BlockingDone true) -> over y.2 }.

Lemma initial_inv y : initial y -> inv y.
Proof.
  destruct y as [l s]. intros [Hp (c & Hc & Es)]. cbn [fst snd] in *. subst s.
  assert (Hi : forall t p, l !! t = Some p -> initial_pc p).
  { intros t p Hl. rewrite Forall_forall in Hp. by eapply Hp, list_elem_of_lookup_2. }
  assert (Hn : forall t p, l !! t = Some p -> active p = true -> False).
  { intros t p Hl Ha. by destruct (Hi t p Hl) as [->|[->| ->]]. }
  split; cbn [fst snd]; try done.
  - intros t p Hl Ha. by destruct (Hn t p Hl Ha).
  - intros t t' p p' Hl _ Ha. by destruct (Hn t p Hl Ha).
  - intros t Hl. by destruct (Hi _ _ Hl) as [E|[E|E]].
Qed.

(** A change of the state that keeps what the threads know. *)
Record same s s' : Prop := {
  same_state : state_ s' = state_ s;
  same_executed : executed s' = executed s;
  same_delivered : delivered s' = delivered s;
  same_callback : callback_ s' = callback_ s;
  same_token : sub_operation_cancel_token_ (context_ s) = None -> sub_operation_cancel_token_ (context_ s') = None }.

Lemma same_over s s' : same s s' -> over s -> over s'.
Proof. intros [] (H1 & H2 & H3 & H4 & H5). unfold over. rewrite same_executed0, same_delivered0, same_callback0. auto. Qed.

Lemma same_fresh b s s' : same s s' -> fresh b s -> fresh b s'.
Proof. intros [] (H1 & H2 & H3). unfold fresh. by rewrite same_executed0, same_delivered0, same_callback0. Qed.

Lemma same_phase p s s' : same s s' -> phase p s -> phase p s'.
Proof.
  intros Hs. pose proof (same_over s s' Hs) as Ho. pose proof (same_fresh true s s' Hs) as Hf.
  pose proof (same_fresh false s s' Hs) as Hf'. destruct Hs.
  destruct p; cbn [phase]; rewrite ?same_executed0, ?same_delivered0, ?same_callback0; naive_solver.
Qed.

Lemma same_cancel s : same s (cancel_context s).
Proof. unfold cancel_context, CancelOperation. destruct (is_cancelled_ (context_ s)) eqn:E; by split. Qed.

Lemma same_signaled b s : same s (set_signaled b s).
Proof. by split. Qed.

Lemma same_functions b s : same s (set_functions b (callback_ s) s).
Proof. by split. Qed.

Lemma insert_cases (l : list pc) t t' p p' q : l !! t = Some p -> <[t := p']> l !! t' = Some q ->
  t' = t /\ q = p' \/ t' <> t /\ l !! t' = Some q.
Proof.
  intros Hl Hq. destruct (decide (t' = t)) as [->|Hn].
  - left. rewrite list_lookup_insert_eq in Hq; [by injection Hq as <-|by eapply lookup_lt_Some].
  - right. by rewrite list_lookup_insert_ne in Hq.
Qed.

(** A step of a thread that does not have the task. *)
Lemma inv_outside y t p p' s' : inv y -> y.1 !! t = Some p -> active p = false -> active p' = false ->
  same y.2 s' -> context_ok (context_ s') -> (signaled_ s' = true -> over y.2) -> (p' = BlockingDone true -> over y.2) ->
  inv (<[t := p']> y.1, s').
Proof.
  intros [I0 I1 I2 I3 I4 I5 I6] Hl Ha Ha' Hs Hc Hsig Hdone. split; cbn [fst snd]; [done|..].
  - rewrite (same_state _ _ Hs). destruct (state_ y.2); [by eapply same_fresh|done|by eapply same_over].
  - intros t' q [[-> ->]|[_ Hq]]%(insert_cases _ _ _ _ _ _ Hl) Hact; [congruence|].
    rewrite (same_state _ _ Hs). destruct (I2 t' q Hq Hact). split; [done|by eapply same_phase].
  - intros t1 t2 q1 q2 [[-> ->]|[_ H1]]%(insert_cases _ _ _ _ _ _ Hl) [[-> ->]|[_ H2]]%(insert_cases _ _ _ _ _ _ Hl); try congruence.
    by apply I3.
  - rewrite (same_state _ _ Hs). intros E. destruct (I4 E) as (t' & q & Hq & Hact). exists t', q. split; [|done].
    rewrite list_lookup_insert_ne; [done|]. intros ->. congruence.
  - intros E. eapply same_over; [done|auto].
  - intros t' [[-> E]|[_ Hq]]%(insert_cases _ _ _ _ _ _ Hl); eapply same_over; eauto.
Qed.

(** A step of the thread that has the task, or takes it. *)
Lemma inv_inside y t p p' s' : inv y -> y.1 !! t = Some p ->
  (active p = true \/ state_ y.2 = PENDING) -> p' <> BlockingDone true -> context_ok (context_ s') ->
  (active p' = true /\ state_ s' = IN_PROGRESS /\ phase p' s' \/
   active p' = false /\ state_ s' = COMPLETED /\ over s') ->
  (over y.2 -> over s') -> (signaled_ s' = true -> over s') ->
  inv (<[t := p']> y.1, s').
Proof.
  intros [I0 I1 I2 I3 I4 I5 I6] Hl Hp Hnd Hc Hp' Hov Hsig.
  assert (Hother : forall t' q, t' <> t -> y.1 !! t' = Some q -> active q = true -> False).
  { intros t' q Hn Hq Ha. destruct Hp as [Hp|Hp]; [by apply Hn, (I3 t' t q p)|]. destruct (I2 t' q Hq Ha). congruence. }
  assert (Ht : <[t := p']> y.1 !! t = Some p') by (apply list_lookup_insert_eq; by eapply lookup_lt_Some).
  split; cbn [fst snd]; [done|..].
  - destruct Hp' as [(_ & -> & _)|(_ & -> & ?)]; done.
  - intros t' q [[-> ->]|[Hn Hq]]%(insert_cases _ _ _ _ _ _ Hl) Ha; [|by destruct (Hother t' q Hn Hq Ha)].
    destruct Hp' as [(_ & ? & ?)|(? & _)]; [done|congruence].
  - intros t1 t2 q1 q2 [[-> ->]|[Hn1 H1]]%(insert_cases _ _ _ _ _ _ Hl) [[-> ->]|[Hn2 H2]]%(insert_cases _ _ _ _ _ _ Hl) Ha1 Ha2;
      [done|by destruct (Hother t2 q2 Hn2 H2 Ha2)|by destruct (Hother t1 q1 Hn1 H1 Ha1)|by destruct (Hother t1 q1 Hn1 H1 Ha1)].
  - intros E. destruct Hp' as [(? & _)|(_ & E' & _)]; [eauto|congruence].
  - done.
  - intros t' [[-> E]|[_ Hq]]%(insert_cases _ _ _ _ _ _ Hl); [done|]. by apply Hov, (I6 t').
Qed.

Lemma not_over s : delivered s = [] -> ~ over s.
Proof. intros E [E1 _]. by rewrite E in E1. Qed.

(** A step of the thread that has the task, before the callback or from it on. *)
Lemma inv_task y t p p' s' : inv y -> y.1 !! t = Some p -> active p = true -> p' <> BlockingDone true -> context_ok (context_ s') ->
  (active p' = true /\ state_ s' = IN_PROGRESS /\ phase p' s' \/ active p' = false /\ state_ s' = COMPLETED /\ over s') ->
  (delivered y.2 = [] /\ signaled_ s' = signaled_ y.2 \/ over s') -> inv (<[t := p']> y.1, s').
Proof.
  intros I Hl Ha Hd Hc Hp' Hov. apply (inv_inside y t p p' s'); auto.
  - intros Ho. destruct Hov as [[E _]|]; [by destruct (not_over _ E)|done].
  - intros Hs. destruct Hov as [[E E']|]; [|done]. rewrite E' in Hs. by destruct (not_over _ E (inv_signaled _ I Hs)).
Qed.

Lemma context_ok_execute c token : context_ok c -> context_ok (fst (ExecuteOrCancelled c (Some token))).
Proof. unfold context_ok, ExecuteOrCancelled. destruct (is_cancelled_ c) eqn:E; cbn; [auto|congruence]. Qed.

Lemma context_ok_reset c : context_ok c -> sub_operation_cancel_token_ (fst (ExecuteOrCancelled c (Some None))) = None.
Proof. unfold context_ok, ExecuteOrCancelled. destruct (is_cancelled_ c) eqn:E; cbn; auto. Qed.

Lemma context_ok_cancel s : context_ok (context_ s) -> context_ok (context_ (cancel_context s)).
Proof. unfold context_ok, cancel_context, CancelOperation. destruct (is_cancelled_ (context_ s)) eqn:E; cbn; auto. Qed.

Lemma execute_inv y t p ch p' s' : inv y -> y.1 !! t = Some p ->
  (p = ExecuteStart \/ active p = true) -> execute_step ch p y.2 = Some (p', s') -> inv (<[t := p']> y.1, s').
Proof.
  intros I Hl Hp E. destruct y as [l s]. cbn [fst snd] in *.
  pose proof (inv_active _ I t p Hl) as Hph. pose proof (inv_signaled _ I) as Hsig. cbn [snd] in *.
  destruct Hp as [->|Ha].
  { cbn in E. destruct (state_ s) eqn:Es; injection E as <- <-.
    - pose proof (inv_state _ I) as Hf. cbn [snd] in Hf. rewrite Es in Hf.
      apply (inv_inside (l, s) t ExecuteStart);
        [exact I|exact Hl|by right|done|exact (inv_context _ I)|left; by split_and!|auto|auto].
    - apply (inv_outside (l, s) t ExecuteStart); [exact I|exact Hl|done|done|by split|exact (inv_context _ I)|auto|done].
    - apply (inv_outside (l, s) t ExecuteStart); [exact I|exact Hl|done|done|by split|exact (inv_context _ I)|auto|done]. }
  destruct (Hph Ha) as [Es Hphase]. clear Hph Hsig. pose proof (inv_context _ I) as Hc. cbn [snd] in Hc.
  pose proof (context_ok_reset _ Hc) as Hreset. pose proof (fun token => context_ok_execute _ token Hc) as Hexec.
  destruct p; cbn in Ha, E, Hphase; try done; repeat case_match; try discriminate; injection E as <- <-;
    (eapply (inv_task (l, s) t); cbn [fst snd]; [exact I|exact Hl|done|done|first [exact Hc|apply Hexec]| | ]);
    unfold fresh, phase, over in *; cbn; destruct_and? Hphase; subst;
    try match goal with Hd : delivered s = [] |- _ => rewrite ?Hd end; cbn;
    first [by left; split_and!; auto; lia|by right; split_and!; auto|idtac].
  - left. by split_and!.
  - left. split_and!; try done. by intros ? r ->%list_elem_of_singleton; auto.
Qed.

Lemma blocking_inv y t p ch p' s' : inv y -> y.1 !! t = Some p -> blocking_step ch p y.2 = Some (p', s') ->
  inv (<[t := p']> y.1, s').
Proof.
  intros I Hl E. pose proof (inv_context _ I) as Hc. pose proof (inv_signaled _ I) as Hsig.
  assert (Hst : state_ y.2 = COMPLETED -> over y.2) by (intros Es; pose proof (inv_state _ I) as Hst; by rewrite Es in Hst).
  assert (Hsc : signaled_ (cancel_context y.2) = signaled_ y.2) by (unfold cancel_context; by destruct (CancelOperation _)).
  destruct p; cbn in E; try done; repeat case_match; try discriminate; injection E as <- <-;
    (eapply (inv_outside y t); [exact I|exact Hl|done|done| | | | ]);
    rewrite ?Hsc; auto using same_cancel, context_ok_cancel, same_signaled, same_functions; done.
Qed.

(** The function that a step is of. *)
Inductive advances ch p s p' s' : Prop :=
| advances_execute : p = ExecuteStart \/ active p = true -> execute_step ch p s = Some (p', s') -> advances ch p s p' s'
| advances_blocking : active p = false -> blocking_step ch p s = Some (p', s') -> advances ch p s p' s'
| advances_token : p = TokenCancel -> p' = TokenDone -> s' = cancel_context s -> advances ch p s p' s'.

Lemma advance_advances ch p s p' s' : advance ch p s = Some (p', s') -> advances ch p s p' s'.
Proof.
  destruct p; intros E; cbn [advance] in E; try discriminate E;
    first [apply advances_execute; [by auto|exact E]|apply advances_blocking; [done|exact E]|by apply advances_token; injection E as <- <-].
Qed.

Lemma run_thread_Some t ch y y' : run_thread t ch y = Some y' ->
  exists p p' s', y.1 !! t = Some p /\ advance ch p y.2 = Some (p', s') /\ y' = (<[t := p']> y.1, s').
Proof.
  unfold run_thread. destruct (y.1 !! t) as [p|]; [|done]. cbn [mbind option_bind].
  destruct (advance ch p y.2) as [[p' s']|] eqn:Ea; [|done]. cbn [mbind option_bind]. intros [= <-]. eauto 6.
Qed.

Lemma step_inv y y' : inv y -> step y y' -> inv y'.
Proof.
  intros I Hs. revert I. destruct Hs as [t ch y0 y1 E]. intros I. apply run_thread_Some in E as (p & p' & s' & Hl & Ea & ->).
  destruct (advance_advances _ _ _ _ _ Ea) as [Hp E|Hp E|Hp E1 E2]; [..|subst p p' s'].
  - by apply (execute_inv y0 t p ch).
  - by apply (blocking_inv y0 t p ch).
  - apply (inv_outside y0 t TokenCancel); try done; [by apply same_cancel|by apply context_ok_cancel, (inv_context _ I)|].
    unfold cancel_context. destruct (CancelOperation _). apply (inv_signaled _ I).
Qed.

Lemma reachable_inv y : reachable y -> inv y.
Proof. intros (y0 & H0 & Hs). apply initial_inv in H0. induction Hs as [|? ? ? Hs _ IH]; [done|]. apply IH. by eapply step_inv. Qed.


(** ** Properties *)

(** C28: however the threads interleave, the function of a task and its callback are
    called at most once; a completed task has called its callback, and
    [BlockingCancel] answers true only when that was done. *)
Theorem TaskContext_once y : reachable y ->
  (executed y.2 <= 1)%nat /\ (length (delivered y.2) <= 1)%nat /\
  (state_ y.2 = COMPLETED -> length (delivered y.2) = 1%nat) /\
  (forall t, y.1 !! t = Some (BlockingDone true) -> length (delivered y.2) = 1%nat).
Proof.
  intros Hr. pose proof (reachable_inv y Hr) as I. pose proof (inv_state _ I) as Hst.
  assert (Ho : over y.2 -> (executed y.2 <= 1)%nat /\ length (delivered y.2) = 1%nat) by (intros (? & _ & ? & _); done).
  assert (H1 : (executed y.2 <= 1)%nat /\ (length (delivered y.2) <= 1)%nat).
  { destruct (state_ y.2) eqn:Es.
    - destruct Hst as (-> & -> & _). cbn. lia.
    - destruct (inv_progress _ I Es) as (t & p & Hl & Ha). destruct (inv_active _ I t p Hl Ha) as [_ Hp].
      destruct p; cbn in Ha, Hp; try done; unfold fresh in Hp; destruct_and? Hp;
        try (destruct Ho as [? ->]; [done|lia]); repeat match goal with Hd : delivered y.2 = [] |- _ => rewrite Hd end; cbn; lia.
    - destruct Ho as [? ->]; [done|lia]. }
  destruct H1. split_and!; [done|done|intros Es; rewrite Es in Hst; by apply Ho|]. intros t Hl. by apply Ho, (inv_waiters _ I t).
Qed.

(** A response that is neither a cancellation nor a time-out is on its way or
    delivered. *)
Definition useful r : Prop := r <> cancelled_response /\ timed_out r = false.

Definition in_flight p r : Prop := match p with ExecuteReset _ r' | ExecuteCallback _ r' => r = r' | _ => False end.

Definition leaks y r : Prop := r ∈ delivered y.2 \/ exists t p, y.1 !! t = Some p /\ in_flight p r.

Lemma cancelled_stays ch p s p' s' : advance ch p s = Some (p', s') -> IsCancelled (context_ s) = true ->
  IsCancelled (context_ s') = true.
Proof.
  intros E Hc. assert (Hcc : cancel_context s = s) by (unfold cancel_context, CancelOperation; unfold IsCancelled in Hc; rewrite Hc; by destruct s).
  assert (Hex : forall token, fst (ExecuteOrCancelled (context_ s) (Some token)) = context_ s)
    by (intros token; unfold ExecuteOrCancelled; unfold IsCancelled in Hc; by rewrite Hc).
  destruct p; cbn in E; try discriminate; repeat case_match; simplify_eq; cbn; rewrite ?Hcc, ?Hex; done.
Qed.

(** Once a task is cancelled, a result of its function that is not already on its
    way to the callback never gets there: the callback is told of a cancellation or
    of a time-out. *)
Theorem Cancel_suppresses y y' r : IsCancelled (context_ y.2) = true -> rtc step y y' -> useful r ->
  ~ leaks y r -> ~ leaks y' r /\ IsCancelled (context_ y'.2) = true.
Proof.
  intros Hc Hs Hr. induction Hs as [|y y1 y' Hs _ IH]; intros Hn; [done|]. revert Hc Hn IH. destruct Hs as [t ch y0 y2 E]. intros Hc Hn IH.
  apply run_thread_Some in E as (p & p' & s' & Hl & Ea & ->). apply IH; [by eapply cancelled_stays|].
  assert (Hd : delivered s' = delivered y0.2 \/ exists r', in_flight p r' /\ delivered s' = delivered y0.2 ++ [r']).
  { destruct p; cbn in Ea; try discriminate; repeat case_match; simplify_eq; cbn; eauto;
      unfold cancel_context; destruct (CancelOperation _); by left. }
  assert (Hf : in_flight p' r -> in_flight p r).
  { destruct p; cbn in Ea; try discriminate; repeat case_match; simplify_eq; cbn; try done; destruct Hr as [Hr1 Hr2]; try congruence.
    rewrite Hc in *. intros ->. by rewrite Hr2 in *. }
  intros [Hin|(t' & q & Hq & Hfl)]; apply Hn.
  - change (r ∈ delivered s') in Hin. destruct Hd as [Ed|(r' & Hr' & Ed)]; rewrite Ed in Hin; [by left|]. apply elem_of_app in Hin as [?| ->%list_elem_of_singleton]; [by left|].
    right. eauto.
  - right. apply (insert_cases _ _ _ _ _ _ Hl) in Hq as [[-> ->]|[_ Hq]]; eauto.
Qed.

(** A task that is cancelled before its function was called never calls it, and
    its callback is told of the cancellation. *)
Theorem Cancel_before_start y y' : reachable y -> IsCancelled (context_ y.2) = true -> executed y.2 = 0%nat ->
  rtc step y y' -> executed y'.2 = 0%nat /\ forall r, r ∈ delivered y'.2 -> r = cancelled_response.
Proof.
  intros Hr Hc He Hs. apply reachable_inv in Hr.
  assert (H : inv y' /\ executed y'.2 = 0%nat).
  { induction Hs as [|y y1 y' Hs _ IH]; [done|]. apply IH; [by eapply step_inv| |]; destruct Hs as [t ch y0 y2 E];
      apply run_thread_Some in E as (p & p' & s' & Hl & Ea & ->); cbn [snd]; [by eapply cancelled_stays|].
    destruct p; cbn in Ea; try discriminate; repeat case_match; simplify_eq; try done;
      try (unfold cancel_context; by destruct (CancelOperation _)).
    rewrite Hc, andb_false_r in *. done. }
  destruct H as [I E]. split; [done|]. intros r Hin. pose proof (inv_state _ I) as Hst.
  assert (Ho : over y'.2 -> r = cancelled_response) by (intros (_ & _ & _ & Hd & _); by apply Hd).
  assert (Hn : delivered y'.2 = [] -> r = cancelled_response) by (intros En; rewrite En in Hin; by apply elem_of_nil in Hin).
  destruct (state_ y'.2) eqn:Es; [by apply Hn, Hst| |by apply Ho].
  destruct (inv_progress _ I Es) as (t & p & Hl & Ha). destruct (inv_active _ I t p Hl Ha) as [_ Hp].
  destruct p; cbn in Ha, Hp; try done; unfold fresh in Hp; destruct_and? Hp; auto.
Qed.

(** The steps that a thread has left, when its function starts no sub-operation. *)
Definition left_ p : nat :=
  match p with
  | ExecuteStart => 9 | ExecuteTake => 8 | ExecuteCheck _ _ => 7 | ExecuteFunction _ => 6 | ExecuteResponse _ _ => 5
  | ExecuteReset _ _ => 4 | ExecuteCallback _ _ => 3 | ExecuteNotify => 2 | ExecuteStore => 1 | ExecuteDone => 0
  | BlockingLoad => 5 | BlockingCheck => 4 | BlockingCancelOperation => 3 | BlockingClear => 2 | BlockingWait => 1
  | BlockingDone _ => 0 | TokenCancel => 1 | TokenDone => 0
  end.

Fixpoint work_of (l : list pc) : nat := match l with [] => 0 | p :: l => left_ p + work_of l end.

Definition work y : nat := work_of y.1.

(** A run: the threads that take the steps and their choices. *)
Fixpoint run (tr : list (nat * choice)) y : option system :=
  match tr with
  | [] => Some y
  | (t, ch) :: tr => y ← run_thread t ch y; run tr y
  end.

Definition is_sub (e : nat * choice (T := T) (A := A)) : bool := match e.2 with SubOperation _ => true | _ => false end.

Lemma work_insert (l : list pc) t p p' : l !! t = Some p ->
  (work_of (<[t := p']> l) + left_ p = work_of l + left_ p')%nat.
Proof.
  revert t. induction l as [|q l IH]; intros [|t] Hl; [done|done|..].
  - injection Hl as ->. change (left_ p' + work_of l + left_ p = left_ p + work_of l + left_ p')%nat. lia.
  - specialize (IH t Hl). change (left_ q + work_of (<[t := p']> l) + left_ p = left_ q + work_of l + left_ p')%nat. lia.
Qed.

Lemma work_step t ch y y' : run_thread t ch y = Some y' -> (work y' + (if is_sub (t, ch) then 0 else 1) <= work y)%nat.
Proof.
  intros E. apply run_thread_Some in E as (p & p' & s' & Hl & Ea & ->). unfold work. cbn [fst].
  pose proof (work_insert y.1 t p p' Hl) as Hw. cut (left_ p' + (if is_sub (t, ch) then 0 else 1) <= left_ p)%nat; [lia|].
  destruct p; cbn in Ea; try discriminate; repeat case_match; simplify_eq; cbn; lia.
Qed.

Definition stuck y : Prop := forall t ch, run_thread t ch y = None.

Definition executes p : bool := match p with ExecuteStart | ExecuteDone => true | _ => active p end.

Lemma advance_executes ch p s p' s' : advance ch p s = Some (p', s') -> executes p = true -> executes p' = true.
Proof. destruct p; intros Ea He; cbn in Ea, He; try discriminate; repeat case_match; by simplify_eq. Qed.

(** A thread that has left [Execute] has seen the task taken. *)
Definition taken y : Prop := forall t, y.1 !! t = Some ExecuteDone -> state_ y.2 <> PENDING.

Lemma step_taken y y' : taken y -> step y y' -> taken y'.
Proof.
  intros Ht Hs. destruct Hs as [t ch y0 y1 E]. apply run_thread_Some in E as (p & p' & s' & Hl & Ea & ->).
  assert (Hst : state_ y0.2 <> PENDING -> state_ s' <> PENDING).
  { destruct p; cbn in Ea; try discriminate; repeat case_match; simplify_eq; cbn; try congruence;
      by rewrite (same_state _ _ (same_cancel _)). }
  intros t' [[-> Ed]|[_ Hq]]%(insert_cases _ _ _ _ _ _ Hl); [|by apply Hst, (Ht t')]. cbn [snd].
  destruct p; cbn in Ea; try discriminate; repeat case_match; simplify_eq; cbn in *; congruence.
Qed.

Lemma not_stuck y t p : y.1 !! t = Some p -> (0 < left_ p)%nat -> ~ stuck y.
Proof.
  intros Hl Hp Hst.
  assert (H : exists ch q, advance ch p y.2 = Some q).
  { destruct p; cbn in Hp; try lia; cbn;
      try (by exists NoChoice; repeat case_match; eauto); [by exists (Return cancelled_response); eauto|].
    exists TimeOut. case_match; eauto. }
  destruct H as (ch & [p' s'] & E). specialize (Hst t ch). unfold run_thread in Hst. rewrite Hl in Hst.
  cbn [mbind option_bind] in Hst. by rewrite E in Hst.
Qed.

(** C38: a task that some thread executes is completed: a run takes at most as many
    steps as the threads have work, sub-operations that the function starts aside, and
    where no thread can go on, every thread is done and the callback was called. *)
Theorem TaskContext_completes y0 y tr : initial y0 -> ExecuteStart ∈ y0.1 -> run tr y0 = Some y ->
  (length (filter (fun e => is_sub e = false) tr) <= work y0)%nat /\
  (stuck y -> state_ y.2 = COMPLETED /\ length (delivered y.2) = 1%nat /\ forall t p, y.1 !! t = Some p -> left_ p = 0%nat).
Proof.
  intros H0 [t0 Ht0]%list_elem_of_lookup Hrun.
  assert (Hlen : forall tr y0 y, run tr y0 = Some y -> (length (filter (fun e => is_sub e = false) tr) + work y <= work y0)%nat).
  { clear. induction tr as [|[t ch] tr IH]; intros y0 y E; cbn [run] in E; [by injection E as ->|].
    destruct (run_thread t ch y0) as [y1|] eqn:E1; [|done]. cbn [mbind option_bind] in E. specialize (IH y1 y E).
    pose proof (work_step t ch y0 y1 E1). rewrite filter_cons. destruct (is_sub (t, ch)); [rewrite decide_False by done|rewrite decide_True by done; cbn [length]]; lia. }
  split; [specialize (Hlen tr y0 y Hrun); lia|]. intros Hst.
  assert (Hinv : inv y /\ taken y /\ exists p, y.1 !! t0 = Some p /\ executes p = true).
  { assert (H1 : inv y0 /\ taken y0 /\ exists p, y0.1 !! t0 = Some p /\ executes p = true).
    { split; [by apply initial_inv|]. split; [|by exists ExecuteStart]. intros t Hl. destruct H0 as [Hi _].
      rewrite Forall_forall in Hi. destruct (Hi ExecuteDone) as [?|[?|?]]; [by eapply list_elem_of_lookup_2|done..]. }
    clear H0 Ht0 Hst Hlen. revert y0 Hrun H1. induction tr as [|[t ch] tr IH]; intros y0 E H1; cbn [run] in E; [by injection E as ->|].
    destruct (run_thread t ch y0) as [y1|] eqn:E1; [|done]. cbn [mbind option_bind] in E. apply (IH y1 E).
    assert (Hs : step y0 y1) by by econstructor. destruct H1 as (I & Ht & p & Hl & He).
    split; [by eapply step_inv|]. split; [by eapply step_taken|].
    apply run_thread_Some in E1 as (q & q' & s' & Hl' & Ea & ->). cbn [fst]. destruct (decide (t0 = t)) as [->|Hn].
    - exists q'. rewrite list_lookup_insert_eq by by eapply lookup_lt_Some. split; [done|]. eapply advance_executes; [exact Ea|].
      congruence.
    - exists p. by rewrite list_lookup_insert_ne. }
  destruct Hinv as (I & Htk & p & Hl & He).
  assert (Hdone : forall t q, y.1 !! t = Some q -> left_ q = 0%nat).
  { intros t q Hq. destruct (decide (left_ q = 0%nat)); [done|]. destruct (not_stuck y t q Hq); [lia|done]. }
  assert (Hp : p = ExecuteDone) by (specialize (Hdone t0 p Hl); by destruct p).
  subst p. pose proof (inv_state _ I) as Hs. destruct (state_ y.2) eqn:Es.
  - by destruct (Htk t0 Hl).
  - destruct (inv_progress _ I Es) as (t & q & Hq & Ha). specialize (Hdone t q Hq). by destruct q.
  - split; [done|]. split; [apply Hs|done].
Qed.

(** ** Two waiting threads *)

(** Nobody will signal any more. *)
Definition quiet y : Prop :=
  state_ y.2 = COMPLETED /\ signaled_ y.2 = false /\ forall t p, y.1 !! t = Some p -> active p = false.

Definition waits y t : Prop := y.1 !! t = Some BlockingWait \/ y.1 !! t = Some (BlockingDone false).

Lemma quiet_step y y' t : quiet y -> waits y t -> step y y' -> quiet y' /\ waits y' t.
Proof.
  intros (Hst & Hsig & Hact) Hw Hs. destruct Hs as [t' ch y0 y1 E].
  apply run_thread_Some in E as (p & p' & s' & Hl & Ea & ->). pose proof (Hact t' p Hl) as Hp.
  assert (H : state_ s' = COMPLETED /\ signaled_ s' = false /\ active p' = false /\ (p = BlockingWait -> p' = BlockingDone false)).
  { pose proof (same_cancel y0.2) as Hc. pose proof (same_state _ _ Hc).
    assert (signaled_ (cancel_context y0.2) = signaled_ y0.2) by (unfold cancel_context; by destruct (CancelOperation _)).
    destruct p; cbn in Ea, Hp; try discriminate; repeat case_match; simplify_eq; cbn; split_and!; congruence. }
  destruct H as (H1 & H2 & H3 & H4). split.
  - split; [done|]. split; [done|]. intros t1 q [[-> ->]|[_ Hq]]%(insert_cases _ _ _ _ _ _ Hl); [done|by apply (Hact t1)].
  - unfold waits in *. cbn [fst]. destruct (decide (t = t')) as [->|Hn]; [|by rewrite list_lookup_insert_ne].
    rewrite list_lookup_insert_eq by by eapply lookup_lt_Some. right. destruct Hw as [Hw|Hw]; rewrite Hl in Hw; injection Hw as ->.
    + by rewrite H4.
    + by cbn in Ea.
Qed.

Lemma quiet_run tr : forall y y' t, quiet y -> waits y t -> run tr y = Some y' -> y'.1 !! t <> Some (BlockingDone true).
Proof.
  induction tr as [|[t0 ch] tr IH]; intros y y' t Hq Hw E; cbn [run] in E.
  - injection E as <-. destruct Hw as [->| ->]; done.
  - destruct (run_thread t0 ch y) as [y1|] eqn:E1; [|done]. cbn [mbind option_bind] in E.
    destruct (quiet_step y y1 t Hq Hw) as [Hq1 Hw1]; [by econstructor|]. by apply (IH y1 y' t).
Qed.

Definition two_waiters : system :=
  ([ExecuteStart; BlockingLoad; BlockingLoad], TaskContext_new true CancellationContext_new).

(** Both waiters start while the task runs; the first one takes the signal. *)
Definition lost_run : list (nat * choice (T := T) (A := A)) :=
  [(0, NoChoice); (0, NoChoice); (1, NoChoice); (2, NoChoice); (1, NoChoice); (1, NoChoice); (1, NoChoice);
   (2, NoChoice); (2, NoChoice); (0, NoChoice); (0, NoChoice); (0, NoChoice); (0, NoChoice); (1, NoChoice); (0, NoChoice)]%nat.

(** Of two threads in [BlockingCancel] only one is woken: the task is completed
    and its callback was called, and yet the other waits until its time is out and
    answers false. *)
Theorem BlockingCancel_lost_wakeup : exists y, run lost_run two_waiters = Some y /\
  state_ y.2 = COMPLETED /\ delivered y.2 = [cancelled_response] /\ y.1 !! 1%nat = Some (BlockingDone true) /\
  forall tr y', run tr y = Some y' -> y'.1 !! 2%nat <> Some (BlockingDone true).
Proof.
  exists ([ExecuteDone; BlockingDone true; BlockingWait],
    mkTask false false (mkImpl None true) false COMPLETED 0 [cancelled_response] []).
  split; [reflexivity|]. split; [done|]. split; [done|]. split; [done|]. intros tr y'.
  apply quiet_run; [|by left]. split; [done|]. split; [done|]. intros [|[|[|t]]] p Hl; [by injection Hl as <-..|done].
Qed.
End invariant.

(** ** Concrete runs *)

Definition one_each : system (T := Z) (A := nat) :=
  ([ExecuteStart; ExecuteStart; TokenCancel; BlockingLoad], TaskContext_new true CancellationContext_new).

Lemma one_each_initial : initial one_each.
Proof.
  split; [|by exists CancellationContext_new].
  repeat (apply Forall_cons_2; [unfold initial_pc; auto|]). apply Forall_nil_2.
Qed.

(** The function starts the sub-operation 7 and returns 5; nobody cancels. *)
Definition plain_run : list (nat * choice (T := Z) (A := nat)) :=
  [(0, NoChoice); (1, NoChoice); (0, NoChoice); (0, NoChoice); (0, SubOperation (Some 7)); (0, Return (inl 5%Z));
   (0, NoChoice); (0, NoChoice); (0, NoChoice); (0, NoChoice); (0, NoChoice); (3, NoChoice); (2, NoChoice)]%nat.

Lemma run_reachable tr (y0 y : system (T := Z) (A := nat)) : run tr y0 = Some y -> rtc step y0 y.
Proof.
  revert y0. induction tr as [|[t ch] tr IH]; intros y0 E; cbn [run] in E; [by injection E as ->|].
  destruct (run_thread t ch y0) as [y1|] eqn:E1; [|done]. apply rtc_l with y1; [by econstructor|by apply IH].
Qed.

Definition after_run (tr : list (nat * choice)) : system := default one_each (run tr one_each).

Lemma plain_reachable n : is_Some (run (take n plain_run) one_each) -> reachable (after_run (take n plain_run)).
Proof.
  intros [y E]. exists one_each. split; [apply one_each_initial|]. unfold after_run. rewrite E. by apply (run_reachable (take n plain_run)).
Qed.

Lemma TaskContext_once_witness : delivered (after_run plain_run).2 = [inl 5] /\
  (executed (after_run plain_run).2 <= 1)%nat /\ (length (delivered (after_run plain_run).2) <= 1)%nat /\
  (state_ (after_run plain_run).2 = COMPLETED -> length (delivered (after_run plain_run).2) = 1%nat) /\
  (forall t, (after_run plain_run).1 !! t = Some (BlockingDone true) -> length (delivered (after_run plain_run).2) = 1%nat).
Proof. split; [reflexivity|]. apply (TaskContext_once (after_run plain_run)), (plain_reachable 13). by eexists. Defined.

(** The function returns 5 after the task was cancelled. *)
Definition cancelled_early : list (nat * choice (T := Z) (A := nat)) :=
  [(0, NoChoice); (0, NoChoice); (0, NoChoice); (0, SubOperation (Some 7)); (2, NoChoice)]%nat.
Definition then_returns : list (nat * choice (T := Z) (A := nat)) :=
  [(0, Return (inl 5%Z)); (0, NoChoice); (0, NoChoice); (0, NoChoice)]%nat.

Lemma Cancel_suppresses_witness : delivered (after_run (cancelled_early ++ then_returns)).2 = [cancelled_response] /\
  cancelled_subs (after_run (cancelled_early ++ then_returns)).2 = [7%nat] /\
  ~ leaks (after_run (cancelled_early ++ then_returns)) (inl 5) /\
  IsCancelled (context_ (after_run (cancelled_early ++ then_returns)).2) = true.
Proof.
  split; [reflexivity|]. split; [reflexivity|].
  apply (Cancel_suppresses (after_run cancelled_early) (after_run (cancelled_early ++ then_returns)) (inl 5)).
  - reflexivity.
  - by apply (run_reachable then_returns).
  - by split.
  - intros [Hd|(t & p & Hl & Hp)]; [by apply elem_of_nil in Hd|].
    destruct t as [|[|[|[|t]]]]; [by injection Hl as <-..|done].
Defined.

Lemma Cancel_before_start_witness :
  executed (after_run ((2%nat, NoChoice) :: [(0, NoChoice); (0, NoChoice); (0, NoChoice)]%nat)).2 = 0%nat /\
  forall r, r ∈ delivered (after_run ((2%nat, NoChoice) :: [(0, NoChoice); (0, NoChoice); (0, NoChoice)]%nat)).2 -> r = cancelled_response.
Proof.
  apply (Cancel_before_start (after_run [(2%nat, NoChoice)])).
  - exists one_each. split; [apply one_each_initial|]. by apply (run_reachable [(2%nat, NoChoice)]).
  - reflexivity.
  - reflexivity.
  - by apply (run_reachable [(0, NoChoice); (0, NoChoice); (0, NoChoice)]%nat).
Defined.

Lemma TaskContext_completes_witness :
  (length (filter (fun e => is_sub e = false) plain_run) <= work one_each)%nat /\
  (stuck (after_run plain_run) -> state_ (after_run plain_run).2 = COMPLETED /\
     length (delivered (after_run plain_run).2) = 1%nat /\ forall t p, (after_run plain_run).1 !! t = Some p -> left_ p = 0%nat).
Proof.
  apply (TaskContext_completes one_each (after_run plain_run) plain_run).
  - apply one_each_initial.
  - left.
  - reflexivity.
Defined.
End TaskContext.

(** ** Pending requests *)

Module PendingRequests.
Import TaskContext.
Section pending.
Context {T A : Type}.

(** The tasks of the program by their identity, and the set of those that have not
    finished. *)
Abbreviation tasks := (gmap nat (TaskContextImpl (T := T) (A := A))).

Definition Insert (task_contexts_ : gset nat) (task_context : nat) : gset nat := {[task_context]} ∪ task_contexts_.
Definition Remove (task_contexts_ : gset nat) (task_context : nat) : gset nat := task_contexts_ ∖ {[task_context]}.
Definition GetTaskCount (task_contexts_ : gset nat) : nat := size task_contexts_.

(** [context.CancelToken().Cancel()] for every task of the set. *)
Definition CancelAll (task_contexts_ : gset nat) (ts : tasks) : tasks :=
  foldr (alter cancel_context) ts (elements task_contexts_).

(** [CancelAllAndWait] up to the waits: the set that stays, the tasks, and those
    whose [BlockingCancel] is then called. *)
Definition CancelAllAndWait (task_contexts_ : gset nat) (ts : tasks) : gset nat * tasks * list nat :=
  (∅, CancelAll task_contexts_ ts, elements task_contexts_).

Lemma cancel_all_lookup (l : list nat) (ts : tasks) i : NoDup l ->
  foldr (alter cancel_context) ts l !! i = if decide (i ∈ l) then cancel_context <$> ts !! i else ts !! i.
Proof.
  induction l as [|j l IH]; intros Hl; cbn [foldr]; [by rewrite decide_False by by intros ?%elem_of_nil|].
  apply NoDup_cons in Hl as [Hj Hl]. destruct (decide (i = j)) as [->|Hn].
  - rewrite lookup_alter_eq, IH, decide_False, decide_True by (done || left). done.
  - rewrite lookup_alter_ne, IH by done. destruct (decide (i ∈ l)) as [Hi|Hi].
    + by rewrite decide_True by by right.
    + rewrite decide_False; [done|]. by intros [?|?]%elem_of_cons.
Qed.

(** [CancelAll] cancels the pending tasks, each with its sub-operation, and no
    other task. *)
Theorem CancelAll_cancels (task_contexts_ : gset nat) (ts : tasks) i s : ts !! i = Some s ->
  exists s', CancelAll task_contexts_ ts !! i = Some s' /\
    (i ∉ task_contexts_ -> s' = s) /\
    (i ∈ task_contexts_ -> IsCancelled (context_ s') = true /\
       cancelled_subs s' = cancelled_subs s ++
         (if IsCancelled (context_ s) then [] else option_list (sub_operation_cancel_token_ (context_ s)))).
Proof.
  intros Hi. unfold CancelAll. rewrite cancel_all_lookup, Hi by apply NoDup_elements. destruct (decide _) as [He|He]; cbn [fmap option_fmap option_map].
  - apply elem_of_elements in He. eexists. split; [done|]. split; [done|]. intros _.
    unfold cancel_context, CancelOperation, IsCancelled. destruct (is_cancelled_ (context_ s)) eqn:E; cbn.
    + by rewrite app_nil_r.
    + split; [done|]. destruct (sub_operation_cancel_token_ (context_ s)); [done|]. cbn. by rewrite app_nil_r.
  - rewrite elem_of_elements in He. exists s. done.
Qed.
End pending.
End PendingRequests.
