(* ===== verification/Scheduler.v ===== *)
(** * The scheduler of tasks

    Model of src/thread/PriorityQueueExtended.h, include/olp/core/thread/SyncQueue.inl and
    src/thread/ThreadPoolTaskScheduler.cpp: a priority queue that keeps the order of equal
    priorities, the queue that threads wait for, and the pool of threads.

    [std::push_heap] and [std::pop_heap] are the class [HeapAlgorithms], with what the
    standard promises of them as laws.  In the pool, what a thread does while it holds the
    mutex of the queue is one step; the notifications, which are sent without it, are steps
    of their own, and a thread may wake up without one. *)

From Stdlib Require Import Sorted.
From S2P Require Import Prelude.

(** ** Heaps *)

Section heap.
Context {A : Type} (compare : A -> A -> bool).

(** [std::is_heap]: no element is below a child of it; the children of [i] are [2i + 1]
    and [2i + 2]. *)
Definition is_heap (l : list A) : Prop :=
  forall i x p, (0 < i)%nat -> l !! i = Some x -> l !! ((i - 1) / 2)%nat = Some p -> compare p x = false.

(** The comparisons that the standard allows. *)
Record strict_weak_order : Prop := {
  order_irreflexive x : compare x x = false;
  order_transitive x y z : compare x y = true -> compare y z = true -> compare x z = true;
  order_negative x y z : compare x y = false -> compare y z = false -> compare x z = false }.

(** The first element of a heap is a greatest one. *)
Lemma heap_front x l y : strict_weak_order -> is_heap (x :: l) -> y ∈ l -> compare x y = false.
Proof.
  intros Ho Hh Hy. apply list_elem_of_lookup in Hy as [i Hi].
  enough (Hall : forall n y, (x :: l) !! n = Some y -> compare x y = false) by exact (Hall (S i) y Hi).
  clear i y Hi. intros n. induction (lt_wf n) as [n _ IH]. intros y E. destruct n as [|n]; [injection E as ->; apply Ho|].
  assert (Hp : ((S n - 1) / 2 < S n)%nat) by (pose proof (Nat.Div0.div_le_mono (S n - 1) (S n) 2 ltac:(lia)); pose proof (Nat.div_lt (S n) 2 ltac:(lia) ltac:(lia)); lia).
  assert (Hlt : (S n < length (x :: l))%nat) by (by apply lookup_lt_Some in E).
  destruct (lookup_lt_is_Some_2 (x :: l) ((S n - 1) / 2)%nat) as [p Ep]; [lia|].
  eapply (order_negative Ho _ p); [by apply (IH _ Hp)|]. by eapply Hh; [|exact E|exact Ep]; lia.
Qed.
End heap.

(** [push_heap] of a heap with an element at its end, and [pop_heap], which moves the first
    element to the end. *)
Class HeapAlgorithms := {
  push_heap {A} : (A -> A -> bool) -> list A -> list A;
  pop_heap {A} : (A -> A -> bool) -> list A -> list A;
  law_push_heap {A} (compare : A -> A -> bool) l x : strict_weak_order compare -> is_heap compare l ->
    push_heap compare (l ++ [x]) ≡ₚ l ++ [x] /\ is_heap compare (push_heap compare (l ++ [x]));
  law_pop_heap {A} (compare : A -> A -> bool) x l : strict_weak_order compare -> is_heap compare (x :: l) ->
    exists l', pop_heap compare (x :: l) = l' ++ [x] /\ l' ≡ₚ l /\ is_heap compare l' }.

(** ** The queue (PriorityQueueExtended.h) *)

Section queue.
Context `{HeapAlgorithms} {T : Type} (compare_ : T -> T -> bool).

Record DistinguishableObject := mkObject { object_id : Z; obj : T }.

Definition Compare (lhs rhs : DistinguishableObject) : bool :=
  compare_ (obj lhs) (obj rhs) || (negb (compare_ (obj rhs) (obj lhs)) && (object_id lhs >? object_id rhs)).

Record PriorityQueue := mkQueue { container_ : list DistinguishableObject; next_id_ : Z }.

Definition PriorityQueue_new : PriorityQueue := mkQueue [] 0.
Definition Empty (q : PriorityQueue) : bool := match container_ q with [] => true | _ => false end.

(** The id, and the next one. *)
Definition GetNextId (q : PriorityQueue) : Z * Z :=
  let next_id := if Empty q then 0 else next_id_ q in (next_id, u32 (next_id + 1)).

Definition Push (value : T) (q : PriorityQueue) : PriorityQueue :=
  let '(id, next_id) := GetNextId q in mkQueue (push_heap Compare (container_ q ++ [mkObject id value])) next_id.

(** [None]: the front of an empty container. *)
Definition Front (q : PriorityQueue) : option T := obj <$> head (container_ q).

Definition Pop (q : PriorityQueue) : PriorityQueue :=
  match container_ q with
  | [] => q
  | _ => mkQueue (removelast (pop_heap Compare (container_ q))) (next_id_ q)
  end.

(** What the queue promises: a list in the order in which the objects leave it; an object
    enters behind those that are not below it. *)
Fixpoint enter (value : T) (l : list T) : list T :=
  match l with
  | [] => [value]
  | x :: l => if compare_ x value then value :: x :: l else x :: enter value l
  end.
End queue.
#[global] Arguments DistinguishableObject T : clear implicits.
#[global] Arguments PriorityQueue T : clear implicits.

(** ** What leaves the queue *)

Section order.
Context `{HeapAlgorithms} {T : Type} (compare_ : T -> T -> bool) (Hc : strict_weak_order compare_).
Abbreviation Object := (DistinguishableObject T).
Abbreviation below := (Compare compare_).

Lemma order_asymmetric x y : compare_ x y = true -> compare_ y x = true -> False.
Proof. intros E1 E2. pose proof (order_transitive _ Hc _ _ _ E1 E2) as E. by rewrite order_irreflexive in E. Qed.

Lemma Compare_spec x y : below x y = true <->
  compare_ (obj x) (obj y) = true \/ compare_ (obj y) (obj x) = false /\ object_id x > object_id y.
Proof. unfold Compare. rewrite orb_true_iff, andb_true_iff, negb_true_iff, Z.gtb_gt. tauto. Qed.

Lemma not_below x y : below x y = false <->
  compare_ (obj x) (obj y) = false /\ (compare_ (obj y) (obj x) = true \/ object_id x <= object_id y).
Proof.
  unfold Compare. rewrite orb_false_iff, andb_false_iff, negb_false_iff, Z.gtb_ltb, Z.ltb_ge. tauto.
Qed.

Lemma Compare_order : strict_weak_order below.
Proof.
  split.
  - intros x. apply not_below. rewrite order_irreflexive by done. split; [done|]. right. lia.
  - intros x y z. rewrite !Compare_spec. intros [H1|[H1 I1]] [H2|[H2 I2]].
    + left. by eapply order_transitive.
    + left. destruct (compare_ (obj x) (obj z)) eqn:E; [done|]. by rewrite (order_negative _ Hc _ _ _ E H2) in H1.
    + left. destruct (compare_ (obj x) (obj z)) eqn:E; [done|]. by rewrite (order_negative _ Hc _ _ _ H1 E) in H2.
    + right. split; [by eapply order_negative|lia].
  - intros x y z. rewrite !not_below. intros [H1 I1] [H2 I2]. split; [by eapply order_negative|].
    destruct (compare_ (obj z) (obj x)) eqn:E; [by left|]. right. destruct I1 as [I1|I1].
    { by rewrite (order_negative _ Hc _ _ _ H2 E) in I1. }
    destruct I2 as [I2|I2]; [by rewrite (order_negative _ Hc _ _ _ E H1) in I2|lia].
Qed.

Definition leaves_before (a b : Object) : Prop := below b a = true.

(** [os] are the objects in the order in which they leave; [n] ids were given since the
    container was empty. *)
Record represents (q : PriorityQueue T) (n : Z) (os : list Object) : Prop := {
  rep_perm : container_ q ≡ₚ os;
  rep_heap : is_heap below (container_ q);
  rep_sorted : StronglySorted leaves_before os;
  rep_ids : Forall (fun o => 0 <= object_id o < n) os;
  rep_next : os <> [] -> next_id_ q = u32 n }.

Fixpoint enter_object (o : Object) (os : list Object) : list Object :=
  match os with
  | [] => [o]
  | x :: os => if compare_ (obj x) (obj o) then o :: x :: os else x :: enter_object o os
  end.

Lemma enter_object_perm o os : enter_object o os ≡ₚ o :: os.
Proof. induction os as [|x os IH]; cbn; [done|]. destruct (compare_ _ _); [done|]. rewrite IH. constructor. Qed.

Lemma enter_object_obj o os : obj <$> enter_object o os = enter compare_ (obj o) (obj <$> os).
Proof. induction os as [|x os IH]; cbn; [done|]. destruct (compare_ _ _); cbn; [done|]. by rewrite <- IH. Qed.

(** An object with a new id enters behind those that are not below it. *)
Lemma enter_object_sorted o os : StronglySorted leaves_before os -> Forall (fun x => object_id x < object_id o) os ->
  StronglySorted leaves_before (enter_object o os).
Proof.
  intros Hs. induction Hs as [|x os Hs IH Hx]; intros Hid; cbn; [repeat constructor|]. apply Forall_cons_1 in Hid as [Hxo Hid].
  destruct (compare_ (obj x) (obj o)) eqn:E.
  - assert (Hox : leaves_before o x) by (unfold leaves_before, Compare; by rewrite E).
    constructor; [by constructor|]. constructor; [done|]. eapply Forall_impl; [exact Hx|]. intros y Hy. by eapply (order_transitive _ Compare_order).
  - constructor; [by apply IH|]. rewrite enter_object_perm. constructor; [|done]. unfold leaves_before, Compare. rewrite E. cbn.
    rewrite Z.gtb_ltb. replace (object_id x <? object_id o) with true by lia. by rewrite orb_true_r.
Qed.

Lemma represents_new : represents (PriorityQueue_new (T := T)) 0 [].
Proof. split; cbn; [done|by intros ? ? ? ? ?|constructor|constructor|done]. Qed.

Lemma represents_empty q n os : represents q n os -> Empty q = bool_decide (os = []).
Proof.
  intros Hr. pose proof (rep_perm _ _ _ Hr) as Hp. unfold Empty. destruct (container_ q).
  - apply Permutation_nil_l in Hp. by subst.
  - destruct os; [by apply Permutation_nil_r in Hp|done].
Qed.

Lemma represents_push q n os value : represents q n os -> n < 2^32 ->
  exists n' os', represents (Push compare_ value q) n' os' /\ 0 <= n' <= Z.max 0 n + 1 /\ obj <$> os' = enter compare_ value (obj <$> os).
Proof.
  intros Hr Hn. pose proof (represents_empty _ _ _ Hr) as He. unfold Push, GetNextId. rewrite He. destruct Hr as [Hp Hh Hs Hid Hnext].
  set (id := if bool_decide (os = []) then 0 else next_id_ q).
  assert (Hid' : 0 <= id < 2^32 /\ Forall (fun x => 0 <= object_id x < id) os /\ id <= Z.max 0 n).
  { subst id. case_bool_decide as Hos; [subst; split_and!; [lia|lia|done|lia]|]. rewrite Hnext by done.
    assert (0 <= n) by (destruct os; [done|]; apply Forall_cons_1 in Hid as [? _]; lia). rewrite u32_small by (unfold is_u32; lia). split_and!; [lia|lia|done|lia]. }
  clearbody id. destruct Hid' as (Hr & Hlt & Hmax).
  destruct (law_push_heap below (container_ q) (mkObject id value) Compare_order Hh) as [Hpp Hph].
  exists (id + 1), (enter_object (mkObject id value) os). split_and!; [|lia|lia|apply enter_object_obj]. split; cbn.
  - rewrite Hpp, Hp, enter_object_perm. apply Permutation_app_comm.
  - done.
  - apply enter_object_sorted; [done|]. eapply Forall_impl; [exact Hlt|]. cbn. lia.
  - rewrite enter_object_perm. constructor; [cbn; lia|]. eapply Forall_impl; [exact Hlt|]. cbn. lia.
  - done.
Qed.

Lemma represents_front q n o os : represents q n (o :: os) -> exists l, container_ q = o :: l.
Proof.
  intros [Hp Hh Hs _ _]. destruct (container_ q) as [|x l]; [by apply Permutation_nil_l in Hp|]. exists l. f_equal.
  apply StronglySorted_inv in Hs as [_ Hs]. assert (Hx : x ∈ o :: os) by (rewrite <- Hp; left).
  apply elem_of_cons in Hx as [->|Hx]; [done|]. assert (Ho : o ∈ x :: l) by (rewrite Hp; left).
  apply elem_of_cons in Ho as [->|Ho]; [done|]. pose proof (heap_front _ _ _ o Compare_order Hh Ho) as E.
  rewrite Forall_forall in Hs. specialize (Hs x Hx). unfold leaves_before in Hs. congruence.
Qed.

Lemma represents_pop q n o os : represents q n (o :: os) -> Front q = Some (obj o) /\ represents (Pop compare_ q) n os.
Proof.
  intros Hr. destruct (represents_front _ _ _ _ Hr) as [l E]. destruct Hr as [Hp Hh Hs Hid Hnext]. unfold Front, Pop. rewrite E in *. split; [done|].
  destruct (law_pop_heap below o l Compare_order Hh) as (l' & El & Hl' & Hh'). rewrite El, removelast_last.
  apply StronglySorted_inv in Hs as [Hs _]. apply Forall_cons_1 in Hid as [_ Hid]. split; cbn; try done.
  - rewrite Hl'. by eapply Permutation_cons_inv.
  - intros _. by apply Hnext.
Qed.

(** What leaves the queue when objects enter and leave in any order. *)
Inductive queue_operation := Enters (value : T) | Leaves.

Fixpoint leave_queue (ops : list queue_operation) (q : PriorityQueue T) : list (option T) :=
  match ops with
  | [] => []
  | Enters value :: ops => leave_queue ops (Push compare_ value q)
  | Leaves :: ops => Front q :: leave_queue ops (Pop compare_ q)
  end.

Fixpoint leave_list (ops : list queue_operation) (l : list T) : list (option T) :=
  match ops with
  | [] => []
  | Enters value :: ops => leave_list ops (enter compare_ value l)
  | Leaves :: ops => head l :: leave_list ops (tail l)
  end.

(** C10: the queue is the list of its objects in the order of their priorities, equal ones
    in the order in which they entered, whatever heap algorithms the library has: what
    leaves it is what leaves this list, for any sequence of operations in which the ids of
    32 bits do not overflow. *)
Theorem priority_queue_refines ops : Z.of_nat (length ops) <= 2^32 -> leave_queue ops PriorityQueue_new = leave_list ops [].
Proof.
  intros Hl. assert (Hg : forall ops q n os, represents q n os -> Z.max 0 n + Z.of_nat (length ops) <= 2^32 -> leave_queue ops q = leave_list ops (obj <$> os)).
  { clear ops Hl. induction ops as [|[value|] ops IH]; intros q n os Hr Hn; cbn [leave_queue leave_list]; [done|cbn in Hn..].
    - destruct (represents_push q n os value Hr ltac:(lia)) as (n' & os' & Hr' & Hn' & <-). eapply IH; [exact Hr'|lia].
    - destruct os as [|o os].
      + pose proof (represents_empty _ _ _ Hr) as He. unfold Front, Pop. unfold Empty in He. destruct (container_ q) eqn:Eq; [|done].
        cbn. f_equal. eapply (IH _ _ []); [exact Hr|lia].
      + destruct (represents_pop q n o os Hr) as [-> Hr']. cbn. f_equal. eapply IH; [exact Hr'|lia]. }
  by apply (Hg ops _ 0 []); [apply represents_new|].
Qed.

(** when the counter of the ids has wrapped, an object overtakes one of the same
    priority that entered before it. *)
Theorem fifo_lost_at_wrap q value value' : container_ q = [mkObject (2^32 - 1) value] -> next_id_ q = 0 ->
  compare_ value value' = false -> compare_ value' value = false -> Front (Push compare_ value' q) = Some value'.
Proof.
  intros E En H1 H2. unfold Push, GetNextId, Empty. rewrite E, En. set (new := mkObject 0 value').
  destruct (law_push_heap below [mkObject (2^32 - 1) value] new Compare_order) as [Hp Hh].
  { intros i x p Hi Hx Hpx. apply lookup_lt_Some in Hx. cbn in Hx. lia. }
  unfold Front. cbn [container_]. change ([mkObject (2^32 - 1) value] ++ [new]) with [mkObject (2^32 - 1) value; new] in *.
  destruct (push_heap below _) as [|x l]; [by apply Permutation_nil_l in Hp|]. cbn.
  assert (Hx : x ∈ [mkObject (2^32 - 1) value; new]) by (rewrite <- Hp; left).
  apply elem_of_cons in Hx as [->|Hx]; [|apply list_elem_of_singleton in Hx as ->; done].
  assert (Hn : new ∈ mkObject (2^32 - 1) value :: l) by (rewrite Hp; right; left).
  apply elem_of_cons in Hn as [Hn|Hn]; [by injection Hn|]. apply (heap_front _ _ _ _ Compare_order Hh) in Hn.
  unfold Compare in Hn. cbn in Hn. by rewrite H1, H2 in Hn.
Qed.
End order.

(** ** The pool of threads (SyncQueue.inl, ThreadPoolTaskScheduler.cpp) *)

Record PrioritizedTask {F : Type} := mkTask { function : F; priority : Z }.
#[global] Arguments PrioritizedTask F : clear implicits.
#[global] Arguments mkTask {F} _ _.
#[global] Arguments function {F} _.
#[global] Arguments priority {F} _.

Definition ComparePrioritizedTask {F} (lhs rhs : PrioritizedTask F) : bool := priority lhs <? priority rhs.

Lemma ComparePrioritizedTask_order {F} : strict_weak_order (ComparePrioritizedTask (F := F)).
Proof.
  unfold ComparePrioritizedTask. split; intros *; [apply Z.ltb_irrefl|..]; rewrite ?Z.ltb_lt, ?Z.ltb_ge; lia.
Qed.

Section pool.
Context `{HeapAlgorithms} {F : Type}.
Abbreviation Task := (PrioritizedTask F).

(** A thread before it locks the mutex in [Pull], in [wait], in a task, or at its end. *)
Inductive thread := Pulling | Waiting | Executing (task : Task) | Returned.

(** [notifications] are the calls of [notify_one] that are still to be made after their
    element was pushed, [notify_all_] is that of [Close].  The order in which tasks entered
    and left the queue, and the tasks that threads started, are not part of the code. *)
Record Pool := mkPool {
  queue_ : PriorityQueue Task;
  closed_ : bool;
  thread_pool_ : list thread;
  notifications : nat;
  notify_all_ : bool;
  operations : list (queue_operation (T := Task));
  started : list Task }.

Definition ThreadPoolTaskScheduler (thread_count : nat) : Pool := mkPool PriorityQueue_new false (replicate thread_count Pulling) 0 false [] [].

Inductive pool_action :=
| EnqueueTask (task : Task)
| NotifyOne (woken : option nat)
| Close
| NotifyAll
| Wakes (index : nat)
| Pull (index : nat)
| Finishes (index : nat).

Definition set_thread (i : nat) (t : thread) (p : Pool) : Pool :=
  mkPool (queue_ p) (closed_ p) (<[i := t]> (thread_pool_ p)) (notifications p) (notify_all_ p) (operations p) (started p).

(** [Pull] of a thread that holds the mutex. *)
Definition pull (i : nat) (p : Pool) : option Pool :=
  if Empty (queue_ p) && negb (closed_ p) then Some (set_thread i Waiting p)
  else if closed_ p then Some (set_thread i Returned p)
  else
    task ← Front (queue_ p);
    Some (mkPool (Pop ComparePrioritizedTask (queue_ p)) (closed_ p) (<[i := Executing task]> (thread_pool_ p)) (notifications p) (notify_all_ p)
            (operations p ++ [Leaves]) (started p ++ [task])).

Definition wake (t : thread) : thread := match t with Waiting => Pulling | _ => t end.

(** [None]: the action is not possible. *)
Definition pool_act (a : pool_action) (p : Pool) : option Pool :=
  match a with
  | EnqueueTask task =>
      Some (if closed_ p then p
            else mkPool (Push ComparePrioritizedTask task (queue_ p)) (closed_ p) (thread_pool_ p) (S (notifications p)) (notify_all_ p)
                   (operations p ++ [Enters task]) (started p))
  | NotifyOne woken =>
      match notifications p, woken with
      | O, _ => None
      | S n, Some i =>
          match thread_pool_ p !! i with
          | Some Waiting => Some (mkPool (queue_ p) (closed_ p) (<[i := Pulling]> (thread_pool_ p)) n (notify_all_ p) (operations p) (started p))
          | _ => None
          end
      | S n, None =>
          if existsb (fun t => match t with Waiting => true | _ => false end) (thread_pool_ p) then None
          else Some (mkPool (queue_ p) (closed_ p) (thread_pool_ p) n (notify_all_ p) (operations p) (started p))
      end
  | Close => Some (mkPool PriorityQueue_new true (thread_pool_ p) (notifications p) true (operations p) (started p))
  | NotifyAll =>
      if notify_all_ p then Some (mkPool (queue_ p) (closed_ p) (wake <$> thread_pool_ p) (notifications p) false (operations p) (started p)) else None
  | Wakes i => match thread_pool_ p !! i with Some Waiting => Some (set_thread i Pulling p) | _ => None end
  | Pull i => match thread_pool_ p !! i with Some Pulling => pull i p | _ => None end
  | Finishes i => match thread_pool_ p !! i with Some (Executing _) => Some (set_thread i Pulling p) | _ => None end
  end.

Fixpoint pool_acts (l : list pool_action) (p : Pool) : option Pool :=
  match l with [] => Some p | a :: l => p ← pool_act a p; pool_acts l p end.

(** The tasks that entered the queue, and those that operations leave in a list. *)
Definition entered (ops : list (queue_operation (T := Task))) : list Task :=
  omap (fun op => match op with Enters t => Some t | Leaves => None end) ops.
Definition list_after (ops : list (queue_operation (T := Task))) (l : list Task) : list Task :=
  foldl (fun l op => match op with Enters t => enter ComparePrioritizedTask t l | Leaves => tail l end) l ops.

(** ** What the pool keeps *)

Definition count (f : thread -> nat) (ts : list thread) : nat := foldr (fun t n => f t + n)%nat O ts.
Definition is_pulling (t : thread) : nat := match t with Pulling => 1 | _ => 0 end.

Lemma count_cons f t ts : count f (t :: ts) = (f t + count f ts)%nat.
Proof. done. Qed.

#[local] Arguments count : simpl never.

Lemma count_insert f ts i t t' : ts !! i = Some t -> (count f (<[i := t']> ts) + f t = count f ts + f t')%nat.
Proof.
  revert i. induction ts as [|x ts IH]; intros [|i] E; try done.
  - injection E as ->. change (<[0%nat := t']> (t :: ts)) with (t' :: ts). rewrite !count_cons. lia.
  - change (<[S i := t']> (x :: ts)) with (x :: <[i := t']> ts). rewrite !count_cons. specialize (IH i E). lia.
Qed.

Lemma count_wake ts : (count is_pulling ts <= count is_pulling (wake <$> ts))%nat.
Proof. induction ts as [|t ts IH]; [done|]. change (wake <$> t :: ts) with (wake t :: (wake <$> ts)). rewrite !count_cons. destruct t; cbn [is_pulling wake]; lia. Qed.

(** While the pool is open and a thread waits, there are as many threads on their way to
    the queue, or notifications that are still to be sent, as there are tasks. *)
Record pool_ok (p : Pool) : Prop := {
  ok_queue : exists n os, represents ComparePrioritizedTask (queue_ p) n os /\ n <= Z.of_nat (length (operations p)) /\
    (closed_ p = false -> obj <$> os = list_after (operations p) []) /\ (closed_ p = true -> os = []);
  ok_started : Some <$> started p = leave_list ComparePrioritizedTask (operations p) [];
  ok_awake : closed_ p = false -> Waiting ∈ thread_pool_ p ->
    (length (container_ (queue_ p)) <= count is_pulling (thread_pool_ p) + notifications p)%nat;
  ok_open : closed_ p = false -> Returned ∉ thread_pool_ p;
  ok_closed : closed_ p = true -> notify_all_ p = false -> Waiting ∉ thread_pool_ p }.

#[local] Arguments list_after : simpl never.

Lemma leave_list_snoc (ops : list (queue_operation (T := Task))) op l : leave_list ComparePrioritizedTask (ops ++ [op]) l =
  leave_list ComparePrioritizedTask ops l ++ match op with Enters _ => [] | Leaves => [head (list_after ops l)] end.
Proof. revert l. induction ops as [|[t|] ops IH]; intros l; cbn; [by destruct op|apply IH|f_equal; apply IH]. Qed.

Lemma list_after_snoc ops op l : list_after (ops ++ [op]) l =
  match op with Enters t => enter ComparePrioritizedTask t (list_after ops l) | Leaves => tail (list_after ops l) end.
Proof. unfold list_after. by rewrite foldl_app. Qed.

Lemma pool_ok_new n : pool_ok (ThreadPoolTaskScheduler n).
Proof.
  split; cbn; try done.
  - exists 0, []. split_and!; [apply represents_new|done..].
  - intros _ _. lia.
  - intros _ Hr. by apply elem_of_replicate_inv in Hr.
Qed.

Lemma waiting_insert (ts : list thread) i t t' : ts !! i = Some t -> t' <> Waiting -> Waiting ∈ <[i := t']> ts -> Waiting ∈ ts.
Proof.
  intros E Hne Hw. apply list_elem_of_lookup in Hw as [k Hk]. destruct (decide (k = i)) as [->|Hki].
  - rewrite list_lookup_insert_eq in Hk by (by eapply lookup_lt_Some). congruence.
  - rewrite list_lookup_insert_ne in Hk by done. apply list_elem_of_lookup. by exists k.
Qed.

Lemma returned_insert (ts : list thread) i t t' : ts !! i = Some t -> t' <> Returned -> Returned ∈ <[i := t']> ts -> Returned ∈ ts.
Proof.
  intros E Hne Hw. apply list_elem_of_lookup in Hw as [k Hk]. destruct (decide (k = i)) as [->|Hki].
  - rewrite list_lookup_insert_eq in Hk by (by eapply lookup_lt_Some). congruence.
  - rewrite list_lookup_insert_ne in Hk by done. apply list_elem_of_lookup. by exists k.
Qed.

(** A thread goes to the queue. *)
Lemma goes_ok p i t : pool_ok p -> thread_pool_ p !! i = Some t -> is_pulling t = 0%nat -> pool_ok (set_thread i Pulling p).
Proof.
  intros [Hq Hs Ha Ho Hc] E Ht. split; cbn; [done|done|..].
  - intros Hop Hw. apply (waiting_insert _ _ t) in Hw; [|done..]. specialize (Ha Hop Hw).
    pose proof (count_insert is_pulling _ _ _ Pulling E) as Hcount. cbn in Hcount. lia.
  - intros Hop Hr. apply (returned_insert _ _ t) in Hr; [|done..]. by apply Ho.
  - intros Hcl Hn Hw. apply (waiting_insert _ _ t) in Hw; [|done..]. by apply Hc.
Qed.

Lemma pull_ok p i p' : pool_ok p -> thread_pool_ p !! i = Some Pulling -> pull i p = Some p' -> pool_ok p' /\
  (length (operations p') <= S (length (operations p)))%nat.
Proof.
  intros [Hq Hs Ha Ho Hc] E Ep. unfold pull in Ep. destruct Hq as (n & os & Hr & Hn & Hl & He).
  pose proof (represents_empty _ _ _ _ Hr) as Hempty. rewrite Hempty in Ep. destruct (closed_ p) eqn:Ecl.
  { rewrite andb_false_r in Ep. injection Ep as <-. split; [|cbn; lia]. split; cbn; rewrite ?Ecl; try done; [by exists n, os|].
    intros _ Hna Hw. apply (waiting_insert _ _ Pulling) in Hw; [|done..]. by apply Hc. }
  destruct os as [|o os].
  { case_bool_decide; [|done]. cbn in Ep. injection Ep as <-. split; [|cbn; lia]. split; cbn; rewrite ?Ecl; try done; [by exists n, []|..].
    - intros _ _. pose proof (rep_perm _ _ _ _ Hr) as Hp. apply Permutation_nil_r in Hp. rewrite Hp. cbn. lia.
    - intros _ Hre. apply (returned_insert _ _ Pulling) in Hre; [|done..]. by apply Ho. }
  case_bool_decide; [done|]. cbn in Ep. destruct (represents_pop _ ComparePrioritizedTask_order _ _ _ _ Hr) as [Ef Hr'].
  rewrite Ef in Ep. cbn in Ep. injection Ep as <-. specialize (Hl eq_refl). split; [|cbn; rewrite length_app; cbn; lia]. split; cbn; rewrite ?Ecl; try done.
  - exists n, os. split_and!; [done|rewrite length_app; cbn; lia|intros _|done]. by rewrite list_after_snoc, <- Hl.
  - rewrite fmap_app, leave_list_snoc, Hs, <- Hl. done.
  - intros _ Hw. apply (waiting_insert _ _ Pulling) in Hw; [|done..]. specialize (Ha eq_refl Hw).
    pose proof (count_insert is_pulling _ _ _ (Executing (obj o)) E) as Hcount. cbn in Hcount.
    pose proof (rep_perm _ _ _ _ Hr) as Hp. pose proof (rep_perm _ _ _ _ Hr') as Hp'. apply Permutation_length in Hp, Hp'.
    rewrite Hp in Ha. rewrite Hp'. cbn in Ha. lia.
  - intros _ Hre. apply (returned_insert _ _ Pulling) in Hre; [|done..]. by apply Ho.
Qed.

Lemma enter_perm (t : Task) l : enter ComparePrioritizedTask t l ≡ₚ t :: l.
Proof. induction l as [|x l IH]; cbn; [done|]. destruct (ComparePrioritizedTask _ _); [done|]. rewrite IH. constructor. Qed.

Lemma enqueue_ok p task : pool_ok p -> closed_ p = false -> Z.of_nat (length (operations p)) < 2^32 ->
  pool_ok (mkPool (Push ComparePrioritizedTask task (queue_ p)) (closed_ p) (thread_pool_ p) (S (notifications p)) (notify_all_ p)
    (operations p ++ [Enters task]) (started p)).
Proof.
  intros [(n & os & Hr & Hn & Hl & He) Hs Ha Ho Hc] Ecl Hb.
  destruct (represents_push _ ComparePrioritizedTask_order _ _ _ task Hr ltac:(lia)) as (n' & os' & Hr' & Hn' & Hos'). split; cbn; rewrite ?Ecl; try done.
  - exists n', os'. split_and!; [done|rewrite length_app; cbn; lia|intros _|done]. by rewrite Hos', list_after_snoc, (Hl Ecl).
  - by rewrite leave_list_snoc, app_nil_r.
  - intros _ Hw. specialize (Ha Ecl Hw). pose proof (rep_perm _ _ _ _ Hr) as Hp. pose proof (rep_perm _ _ _ _ Hr') as Hp'.
    apply Permutation_length in Hp, Hp'. apply (f_equal length) in Hos'. rewrite enter_perm in Hos'; cbn in Hos'; rewrite !length_fmap in Hos'.
    cbn in Hp'. lia.
  - intros _. by apply Ho.
Qed.

Lemma waiting_wake (ts : list thread) : Waiting ∉ (wake <$> ts).
Proof. intros (t & E & _)%list_elem_of_fmap. by destruct t. Qed.

Lemma returned_wake (ts : list thread) : Returned ∈ (wake <$> ts) -> Returned ∈ ts.
Proof. intros (t & E & Ht)%list_elem_of_fmap. by destruct t. Qed.

Lemma none_waits (ts : list thread) : existsb (fun t => match t with Waiting => true | _ => false end) ts = false -> Waiting ∉ ts.
Proof. induction ts as [|t ts IH]; cbn; intros E; [by apply not_elem_of_nil|]. destruct t; try done; rewrite elem_of_cons; intros [?|?]; (done || by apply IH). Qed.

(** Only a task that enters takes an id. *)
Definition has_id (a : pool_action) (p : Pool) : Prop :=
  match a with EnqueueTask _ => Z.of_nat (length (operations p)) < 2^32 | _ => True end.

Lemma pool_act_ok p a p' : pool_ok p -> has_id a p -> pool_act a p = Some p' ->
  pool_ok p' /\ (length (operations p') <= S (length (operations p)))%nat.
Proof.
  intros Hok Hb E. pose proof Hok as [Hq Hs Ha Ho Hc]. destruct a as [task|[i|]| | |i|i|i]; cbn in E.
  - destruct (closed_ p) eqn:Ecl; injection E as <-; [split; [done|lia]|]. split; [rewrite <- Ecl at 1; by apply enqueue_ok|cbn; rewrite length_app; cbn; lia].
  - destruct (notifications p) as [|n] eqn:En; [done|]. destruct (thread_pool_ p !! i) as [[]|] eqn:Ei; try done. injection E as <-.
    pose proof (goes_ok p i Waiting Hok Ei eq_refl) as [Hq' Hs' Ha' Ho' Hc']. cbn in *. split; [|cbn; lia]. split; cbn; try done.
    intros Hop Hw. apply (waiting_insert _ _ Waiting) in Hw; [|done..]. specialize (Ha Hop Hw).
    pose proof (count_insert is_pulling _ _ _ Pulling Ei) as Hcount. cbn in Hcount. lia.
  - destruct (notifications p) as [|n] eqn:En; [done|]. destruct (existsb _ _) eqn:Ee; [done|]. injection E as <-. apply none_waits in Ee.
    split; [|cbn; lia]. by split; cbn.
  - injection E as <-. split; [|cbn; lia]. split; cbn; try done. exists 0, []. destruct Hq as (n & os & Hr & Hn & _). split_and!; [apply represents_new|lia|done|done].
  - destruct (notify_all_ p) eqn:En; [|done]. injection E as <-. split; [|cbn; lia]. split; cbn; try done.
    + intros _ Hw. by apply waiting_wake in Hw.
    + intros Hop Hr. apply returned_wake in Hr. by apply Ho.
    + intros _ _. apply waiting_wake.
  - destruct (thread_pool_ p !! i) as [[]|] eqn:Ei; try done. injection E as <-. split; [by eapply goes_ok|cbn; lia].
  - destruct (thread_pool_ p !! i) as [[]|] eqn:Ei; try done. destruct (pull_ok _ _ _ Hok Ei E) as [? ?]. split; [done|lia].
  - destruct (thread_pool_ p !! i) as [[]|] eqn:Ei; try done. injection E as <-. split; [by eapply goes_ok|cbn; lia].
Qed.

Lemma pool_acts_ok l p p' : pool_ok p -> Z.of_nat (length (operations p) + length l) <= 2^32 -> pool_acts l p = Some p' -> pool_ok p'.
Proof.
  revert p. induction l as [|a l IH]; intros p Hok Hb E; cbn in E; [by injection E as <-|]. apply bind_Some in E as (p1 & E1 & E).
  assert (Hid : has_id a p) by (destruct a; cbn in Hb |- *; [lia|done..]). destruct (pool_act_ok _ _ _ Hok Hid E1) as [Hok1 Hb1]. apply (IH p1); [done| |done]. cbn in Hb. lia.
Qed.

Lemma pool_reachable_ok n l p : Z.of_nat (length l) <= 2^32 -> pool_acts l (ThreadPoolTaskScheduler n) = Some p -> pool_ok p.
Proof. intros Hl. apply pool_acts_ok; [apply pool_ok_new|]. cbn. lia. Qed.

(** What left a list, and what is left in it, is what entered it. *)
Lemma left_perm (ops : list (queue_operation (T := Task))) l : omap id (leave_list ComparePrioritizedTask ops l) ++ list_after ops l ≡ₚ l ++ entered ops.
Proof.
  revert l. induction ops as [|[t|] ops IH]; intros l; cbn.
  - by rewrite app_nil_r.
  - change (list_after (Enters t :: ops) l) with (list_after ops (enter ComparePrioritizedTask t l)). rewrite IH, enter_perm.
    apply (Permutation_middle l (entered ops) t).
  - change (list_after (Leaves :: ops) l) with (list_after ops (tail l)). change (entered (Leaves :: ops)) with (entered ops).
    destruct l as [|x l]; cbn; [apply (IH [])|]. by rewrite IH.
Qed.

Lemma started_omap (ts : list Task) : omap id (Some <$> ts) = ts.
Proof. induction ts as [|t ts IH]; cbn; [done|by rewrite IH]. Qed.

(** the tasks that the threads of a pool start, in the order in which they start them,
    are those that leave the list of the waiting tasks in the order of their priorities,
    equal ones in the order in which they were added; and while the pool is open, the tasks
    that were added are those that were started, each once, and those that wait. *)
Theorem pool_starts_in_order n l p : Z.of_nat (length l) <= 2^32 -> pool_acts l (ThreadPoolTaskScheduler n) = Some p ->
  Some <$> started p = leave_list ComparePrioritizedTask (operations p) [] /\
  (closed_ p = false -> started p ++ (obj <$> container_ (queue_ p)) ≡ₚ entered (operations p)).
Proof.
  intros Hl E. destruct (pool_reachable_ok _ _ _ Hl E) as [(n' & os & Hr & _ & Hos & _) Hs _ _ _]. split; [done|]. intros Hop.
  rewrite (rep_perm _ _ _ _ Hr), (Hos Hop). pose proof (left_perm (operations p) []) as Hp. by rewrite <- Hs, started_omap in Hp.
Qed.

(** ** The pool comes to rest *)

(** The steps of the pool itself: not the clients', and no wake-up without a notification. *)
Definition pool_works (a : pool_action) : Prop := match a with EnqueueTask _ | Close | Wakes _ => False | _ => True end.
Definition works_to (p' p : Pool) : Prop := exists a, pool_works a /\ pool_act a p = Some p'.

Definition weight (t : thread) : nat := match t with Pulling => 1 | Waiting => 0 | Executing _ => 2 | Returned => 0 end.
Definition pool_measure (p : Pool) : nat :=
  4 * length (container_ (queue_ p)) + 2 * notifications p + (if notify_all_ p then S (length (thread_pool_ p)) else 0) + count weight (thread_pool_ p).

Lemma count_wake_weight ts : (count weight (wake <$> ts) <= count weight ts + length ts)%nat.
Proof. induction ts as [|t ts IH]; [done|]. change (wake <$> t :: ts) with (wake t :: (wake <$> ts)). rewrite !count_cons. destruct t; cbn [weight wake length]; lia. Qed.

Lemma works_decreases p' p : pool_ok p -> works_to p' p -> (pool_measure p' < pool_measure p)%nat.
Proof.
  intros Hok (a & Hw & E). unfold pool_measure. destruct a as [task|[i|]| | |i|i|i]; try done; cbn in E.
  - destruct (notifications p) as [|n]; [done|]. destruct (thread_pool_ p !! i) as [[]|] eqn:Ei; try done. injection E as <-. cbn. rewrite length_insert.
    pose proof (count_insert weight _ _ _ Pulling Ei) as Hcount. cbn in Hcount. lia.
  - destruct (notifications p) as [|n]; [done|]. destruct (existsb _ _); [done|]. injection E as <-. cbn. lia.
  - destruct (notify_all_ p); [|done]. injection E as <-. cbn. pose proof (count_wake_weight (thread_pool_ p)). lia.
  - destruct (thread_pool_ p !! i) as [[]|] eqn:Ei; try done. pose proof (count_insert weight _ _ _ Waiting Ei) as Hcw.
    pose proof (count_insert weight _ _ _ Returned Ei) as Hcr. cbn in Hcw, Hcr. unfold pull in E. destruct (ok_queue _ Hok) as (n & os & Hr & _ & _ & _).
    rewrite (represents_empty _ _ _ _ Hr) in E. destruct (closed_ p).
    { rewrite andb_false_r in E. injection E as <-. cbn. rewrite length_insert. lia. }
    destruct os as [|o os]; case_bool_decide; try done; cbn in E; [injection E as <-; cbn; rewrite length_insert; lia|].
    destruct (represents_pop _ ComparePrioritizedTask_order _ _ _ _ Hr) as [Ef Hr']. rewrite Ef in E. injection E as <-. cbn. rewrite length_insert.
    pose proof (count_insert weight _ _ _ (Executing (obj o)) Ei) as Hce. cbn in Hce.
    pose proof (rep_perm _ _ _ _ Hr) as Hp. pose proof (rep_perm _ _ _ _ Hr') as Hp'. apply Permutation_length in Hp, Hp'. cbn in Hp. lia.
  - destruct (thread_pool_ p !! i) as [[]|] eqn:Ei; try done. injection E as <-. cbn. rewrite length_insert.
    pose proof (count_insert weight _ _ _ Pulling Ei) as Hcount. cbn in Hcount. lia.
Qed.

Lemma act_threads a p p' : pool_act a p = Some p' -> length (thread_pool_ p') = length (thread_pool_ p).
Proof.
  intros E. destruct a as [task|[i|]| | |i|i|i]; cbn in E.
  - injection E as <-. by destruct (closed_ p).
  - destruct (notifications p); [done|]. destruct (_ !! _) as [[]|]; try done. injection E as <-. apply length_insert.
  - destruct (notifications p); [done|]. destruct (existsb _ _); [done|]. by injection E as <-.
  - by injection E as <-.
  - destruct (notify_all_ p); [|done]. injection E as <-. apply length_fmap.
  - destruct (_ !! _) as [[]|]; try done. injection E as <-. apply length_insert.
  - destruct (_ !! _) as [[]|]; try done. unfold pull in E. destruct (_ && _); [injection E as <-; apply length_insert|].
    destruct (closed_ p); [injection E as <-; apply length_insert|]. apply bind_Some in E as (t & _ & E). injection E as <-. apply length_insert.
  - destruct (_ !! _) as [[]|]; try done. injection E as <-. apply length_insert.
Qed.

Lemma pool_threads l p p' : pool_acts l p = Some p' -> length (thread_pool_ p') = length (thread_pool_ p).
Proof.
  revert p. induction l as [|a l IH]; intros p E; cbn in E; [by injection E as <-|]. apply bind_Some in E as (p1 & E1 & E).
  by rewrite (IH _ E), (act_threads _ _ _ E1).
Qed.

(** Nothing that the pool could do. *)
Definition at_rest (p : Pool) : Prop := forall a, pool_works a -> pool_act a p = None.

(** At rest every thread waits, or the pool was closed and every thread has returned. *)
Lemma rest_threads p : pool_ok p -> at_rest p -> forall t, t ∈ thread_pool_ p -> if closed_ p then t = Returned else t = Waiting.
Proof.
  intros Hok Hrest t [i Hi]%list_elem_of_lookup. destruct t as [| |task|].
  - pose proof (Hrest (Pull i) I) as E. cbn in E. rewrite Hi in E. unfold pull in E. destruct (ok_queue _ Hok) as (n & os & Hr & _ & _ & _).
    rewrite (represents_empty _ _ _ _ Hr) in E. destruct (closed_ p); [by rewrite andb_false_r in E|].
    destruct os as [|o os]; case_bool_decide; try done. cbn in E.
    destruct (represents_pop _ ComparePrioritizedTask_order _ _ _ _ Hr) as [Ef _]. by rewrite Ef in E.
  - destruct (closed_ p) eqn:Ecl; [|done]. exfalso. destruct (notify_all_ p) eqn:En.
    + pose proof (Hrest NotifyAll I) as E. cbn in E. by rewrite En in E.
    + apply (ok_closed _ Hok Ecl En). apply list_elem_of_lookup. by exists i.
  - pose proof (Hrest (Finishes i) I) as E. cbn in E. by rewrite Hi in E.
  - destruct (closed_ p) eqn:Ecl; [done|]. exfalso. apply (ok_open _ Hok Ecl). apply list_elem_of_lookup. by exists i.
Qed.

Lemma works_ok p' p : pool_ok p -> works_to p' p -> pool_ok p'.
Proof. intros Hok (a & Hw & E). eapply pool_act_ok; [exact Hok| |exact E]. by destruct a. Qed.

Lemma works_acc m p : pool_ok p -> (pool_measure p <= m)%nat -> Acc works_to p.
Proof.
  revert p. induction m as [|m IH]; intros p Hok Hm; constructor; intros p' Hp'; pose proof (works_decreases _ _ Hok Hp'); [lia|].
  apply IH; [by eapply works_ok|lia].
Qed.

(** C11: a pool with threads runs the tasks that it was given: it has no infinite sequence
    of steps of its own, and when it can do nothing more, every thread waits and each task
    was started, or the pool was closed and every thread has returned, so that the
    destructor ends; no notification is lost. *)
Theorem pool_drains n l p : (0 < n)%nat -> Z.of_nat (length l) <= 2^32 -> pool_acts l (ThreadPoolTaskScheduler n) = Some p ->
  Acc works_to p /\
  (at_rest p -> if closed_ p then Forall (eq Returned) (thread_pool_ p)
                else Forall (eq Waiting) (thread_pool_ p) /\ started p ≡ₚ entered (operations p)).
Proof.
  intros Hn Hl E. pose proof (pool_reachable_ok _ _ _ Hl E) as Hok. split; [by apply (works_acc (pool_measure p))|].
  intros Hrest. pose proof (rest_threads p Hok Hrest) as Ht.
  destruct (closed_ p) eqn:Ecl; [apply Forall_forall; intros t Hin; symmetry; by apply Ht|].
  assert (Hall : Forall (eq Waiting) (thread_pool_ p)) by (apply Forall_forall; intros t Hin; symmetry; by apply Ht). split; [done|].
  destruct Hok as [(n' & os & Hr & _ & Hos & _) Hs Ha _ _]. pose proof (left_perm (operations p) []) as Hp. rewrite <- Hs, started_omap, <- (Hos Ecl) in Hp.
  pose proof (pool_threads _ _ _ E) as Hlen. cbn in Hlen. rewrite length_replicate in Hlen.
  assert (Hno : notifications p = 0%nat).
  { destruct (notifications p) as [|k] eqn:En; [done|]. destruct (thread_pool_ p) as [|t ts] eqn:Ets; [cbn in Hlen; lia|].
    pose proof (Hrest (NotifyOne (Some 0%nat)) I) as Hno. cbn in Hno. rewrite En, Ets in Hno. cbn in Hno.
    apply Forall_cons_1 in Hall as [<- _]. done. }
  assert (Hc0 : count is_pulling (thread_pool_ p) = 0%nat) by (clear - Hall; induction Hall as [|t ts <- _ IH]; [done|]; rewrite count_cons, IH; done).
  assert (Hw : Waiting ∈ thread_pool_ p) by (destruct (thread_pool_ p) as [|t ts]; [cbn in Hlen; lia|]; apply Forall_cons_1 in Hall as [<- _]; left).
  specialize (Ha Ecl Hw). rewrite Hc0, Hno in Ha. pose proof (rep_perm _ _ _ _ Hr) as Hpo. apply Permutation_length in Hpo.
  destruct os; [|cbn in Hpo; lia]. cbn in Hp. by rewrite app_nil_r in Hp.
Qed.
End pool.
#[global] Arguments Pool F : clear implicits.
#[global] Arguments thread F : clear implicits.
#[global] Arguments pool_action F : clear implicits.

(** ** Concrete inputs: heaps that are sorted lists *)

Section sorting.
Context {A : Type} (compare : A -> A -> bool).

Fixpoint insert_sorted (x : A) (l : list A) : list A :=
  match l with
  | [] => [x]
  | y :: l => if compare y x then x :: y :: l else y :: insert_sorted x l
  end.
Definition sort_heap (l : list A) : list A := foldr insert_sorted [] l.

Lemma insert_sorted_perm x l : insert_sorted x l ≡ₚ x :: l.
Proof. induction l as [|y l IH]; cbn; [done|]. destruct (compare _ _); [done|]. rewrite IH. constructor. Qed.

Lemma sort_heap_perm l : sort_heap l ≡ₚ l.
Proof. induction l as [|x l IH]; cbn; [done|]. by rewrite insert_sorted_perm, IH. Qed.

Lemma insert_sorted_sorted x l : strict_weak_order compare -> StronglySorted (fun a b => compare a b = false) l ->
  StronglySorted (fun a b => compare a b = false) (insert_sorted x l).
Proof.
  intros Ho Hs. induction Hs as [|y l Hs IH Hy]; cbn; [repeat constructor|]. destruct (compare y x) eqn:E.
  - constructor; [by constructor|]. constructor; [destruct (compare x y) eqn:Exy; [|done]; pose proof (order_transitive _ Ho _ _ _ E Exy) as Ec; by rewrite (order_irreflexive _ Ho) in Ec|]. eapply Forall_impl; [exact Hy|]. intros z Hz. cbn in Hz.
    destruct (compare x z) eqn:Ez; [|done]. by rewrite (order_transitive _ Ho _ _ _ E Ez) in Hz.
  - constructor; [done|]. rewrite insert_sorted_perm. by constructor.
Qed.

Lemma sort_heap_heap l : strict_weak_order compare -> is_heap compare (sort_heap l).
Proof.
  intros Ho. assert (Hs : StronglySorted (fun a b => compare a b = false) (sort_heap l)) by (induction l; cbn; [constructor|by apply insert_sorted_sorted]).
  intros i x p Hi Hx Hp. assert (Hlt : ((i - 1) / 2 < i)%nat) by (apply Nat.Div0.div_lt_upper_bound; lia).
  revert Hs Hx Hp Hlt. generalize (sort_heap l) as l'. clear. generalize ((i - 1) / 2)%nat as j. intros j l' Hs. revert i j.
  induction Hs as [|y l' _ IH Hy]; intros [|i] [|j] Hx Hp Hlt; try done; try lia; cbn in *.
  - injection Hp as ->. rewrite Forall_forall in Hy. apply Hy. by eapply list_elem_of_lookup_2.
  - by eapply IH; [exact Hx|exact Hp|lia].
Qed.
End sorting.

#[export] Program Instance sorted_heaps : HeapAlgorithms := {|
  push_heap A := sort_heap;
  pop_heap A compare l := match l with [] => [] | x :: l => sort_heap compare l ++ [x] end |}.
Next Obligation. intros A compare l x Ho _. split; [apply sort_heap_perm|by apply sort_heap_heap]. Qed.
Next Obligation. intros A compare x l Ho _. exists (sort_heap compare l). split_and!; [done|apply sort_heap_perm|by apply sort_heap_heap]. Qed.

Module scheduler_sample.
Definition task (name : Z) (p : Z) : PrioritizedTask Z := mkTask name p.
Definition ops : list (queue_operation (T := PrioritizedTask Z)) :=
  [Enters (task 1 500); Enters (task 2 100); Enters (task 3 500); Leaves; Enters (task 4 1000); Leaves; Leaves; Leaves; Leaves].
Definition actions : list (pool_action Z) :=
  [Pull 0; EnqueueTask (task 1 500); EnqueueTask (task 2 100); EnqueueTask (task 3 500); NotifyOne (Some 0%nat); Pull 1; NotifyOne None; NotifyOne None;
   Pull 0; Finishes 1; Pull 1; Finishes 0; Pull 0].
Definition final : Pool Z := default (ThreadPoolTaskScheduler 2) (pool_acts actions (ThreadPoolTaskScheduler 2)).
End scheduler_sample.
Import scheduler_sample.

Lemma priority_queue_refines_witness :
  leave_queue ComparePrioritizedTask ops PriorityQueue_new = leave_list ComparePrioritizedTask ops [].
Proof. apply (priority_queue_refines ComparePrioritizedTask ComparePrioritizedTask_order ops). cbn. lia. Defined.

Example sample_order : leave_queue ComparePrioritizedTask ops PriorityQueue_new =
  [Some (task 1 500); Some (task 4 1000); Some (task 3 500); Some (task 2 100); None].
Proof. reflexivity. Qed.

Lemma fifo_lost_at_wrap_witness : Front (Push ComparePrioritizedTask (task 2 500) (mkQueue [mkObject (2^32 - 1) (task 1 500)] 0)) = Some (task 2 500).
Proof.
  apply (fifo_lost_at_wrap ComparePrioritizedTask ComparePrioritizedTask_order (mkQueue [mkObject (2^32 - 1) (task 1 500)] 0) (task 1 500) (task 2 500));
    reflexivity.
Defined.

Example final_started : started final = [task 1 500; task 3 500; task 2 100] /\ thread_pool_ final = [Waiting; Executing (task 2 100)].
Proof. by split; vm_compute. Qed.

Lemma pool_starts_in_order_witness :
  Some <$> started final = leave_list ComparePrioritizedTask (Scheduler.operations final) [] /\
  (closed_ final = false -> started final ++ (obj <$> container_ (queue_ final)) ≡ₚ entered (Scheduler.operations final)).
Proof. apply (pool_starts_in_order 2 actions final); [by vm_compute|by vm_compute]. Defined.

(** The pool after its last task. *)
Definition rested : Pool Z := default final (pool_acts (actions ++ [Finishes 1; Pull 1]) (ThreadPoolTaskScheduler 2)).

Lemma pool_drains_witness : Acc works_to rested /\
  (at_rest rested -> if closed_ rested then Forall (eq Returned) (thread_pool_ rested)
                     else Forall (eq Waiting) (thread_pool_ rested) /\ started rested ≡ₚ entered (Scheduler.operations rested)).
Proof. apply (pool_drains 2 (actions ++ [Finishes 1; Pull 1]) rested); [lia|by vm_compute|by vm_compute]. Defined.
