(* ===== verification/Http.v ===== *)
(** * URLs, network data and responses

    Model of [Url] (src/utils/Url.cpp), of the data that the network layer and its
    clients exchange ([NetworkRequest], [NetworkResponse], [SendOutcome],
    [NetworkSettings], error codes), and of [HttpResponse] and [ApiError].

    A [std::string] is a list of characters.  Strings are shorter than 2^32, the range
    of the index in [Decode]. *)

From S2P Require Import Prelude.

Abbreviation str := (list ascii).

(** ** URLs *)

Module Url.

Definition IsHexDigit (c : ascii) : bool :=
  is_digit c || ((65 <=? ord c) && (ord c <=? 70)) || ((97 <=? ord c) && (ord c <=? 102)).

Definition hex_value (c : ascii) : Z :=
  if is_digit c then ord c - 48 else if ord c <=? 70 then ord c - 55 else ord c - 87.

(** [ss << std::hex << hex; ss >> out] for two hexadecimal digits. *)
Definition HexToInt (a b : ascii) : Z := 16 * hex_value a + hex_value b.

(** [in\[i\]]; the character after the last is the null character. *)
Definition char_at (l : str) (i : nat) : ascii := default (chr 0) (l !! i).

(** The loop of [Decode], [l] being what is left from [read_idx] on. *)
Fixpoint decode_loop (size read_idx : Z) (l : str) : str :=
  match l with
  | [] => []
  | c :: l' =>
      let plain := (if ord c =? 43 then " "%char else c) :: decode_loop size (read_idx + 1) l' in
      if (read_idx <? u64 (size - 2)) && (ord c =? 37) && IsHexDigit (char_at l' 0) && IsHexDigit (char_at l' 1)
      then match l' with
           | a :: b :: l'' => chr (HexToInt a b) :: decode_loop size (read_idx + 3) l''
           | _ => plain
           end
      else plain
  end.

Definition Decode (s : str) : str := decode_loop (Z.of_nat (length s)) 0 s.

(** The characters that [Encode] keeps. *)
Definition unreserved (c : ascii) : bool :=
  ((97 <=? ord c) && (ord c <=? 122)) || ((65 <=? ord c) && (ord c <=? 90)) ||
  ((48 <=? ord c) && (ord c <=? 57)) || (ord c =? 46) || (ord c =? 45) || (ord c =? 126) || (ord c =? 95).

(** A digit of [%X]. *)
Definition hex_digit (n : Z) : ascii := chr (if n <? 10 then 48 + n else 55 + n).

Definition encode_char (c : ascii) : str :=
  if unreserved c then [c] else ["%"%char; hex_digit (ord c / 16); hex_digit (ord c mod 16)].

Definition Encode (s : str) : str := c ← s; encode_char c.

(** [query_params] is a [std::multimap]: pairs in the order of the keys. *)
Definition params : Type := list (str * str).

Fixpoint construct_query (first_param : bool) (query_params : params) : str :=
  match query_params with
  | [] => []
  | (key, value) :: query_params =>
      (if first_param then chars "?" else chars "&") ++ Encode key ++ chars "=" ++ Encode value ++
      construct_query false query_params
  end.

Definition Construct (base path : str) (query_params : params) : str :=
  base ++ path ++ construct_query true query_params.

(** [ParseHostAndRest]: the match of the regular expression that is anything, [://],
    host characters and perhaps a port, all in the first group, and anything up to the end.
    The first anything takes as much as it can, so that the group ends at the last [://]
    that a host character follows; the end of a line is not part of anything. *)
Definition host_char (c : ascii) : bool :=
  ((97 <=? ord c) && (ord c <=? 122)) || ((65 <=? ord c) && (ord c <=? 90)) || is_digit c || (ord c =? 45) || (ord c =? 46).

Definition line_end (c : ascii) : bool := (ord c =? 10) || (ord c =? 13).

(** Host characters, at least one, and perhaps a colon and digits: what is taken from
    the start of [l] and what is left. *)
Definition match_host (l : str) : option (str * str) :=
  match take_while host_char l with
  | [] => None
  | name =>
      let l := drop_while host_char l in
      match l with
      | c :: l' =>
          if (ord c =? 58) then
            match take_while is_digit l' with
            | [] => Some (name, l)
            | port => Some (name ++ c :: port, drop_while is_digit l')
            end
          else Some (name, l)
      | [] => Some (name, l)
      end
  end.

Definition starts_with (p l : str) : bool := bool_decide (take (length p) l = p).

(** The last [://] first: [None] when no way to match is left. *)
Fixpoint match_last (before l : str) : option (str * str) :=
  match l with
  | [] => None
  | c :: l' =>
      match match_last (before ++ [c]) l' with
      | Some m => Some m
      | None =>
          if starts_with (chars "://") l then
            match match_host (drop 3 l) with
            | Some (host, rest) => Some (before ++ chars "://" ++ host, rest)
            | None => None
            end
          else None
      end
  end.

Definition ParseHostAndRest (url : str) : option (str * str) :=
  if existsb line_end url then None else match_last [] url.

Example Encode_1 : Encode (chars "a b/é~") = chars "a%20b%2F%C3%A9~". Proof. reflexivity. Qed.
Example Decode_1 : Decode (chars "a%20b%2f+%2") = chars "a b/ %2". Proof. reflexivity. Qed.
Example Decode_2 : Decode (chars "%") = chars "%". Proof. reflexivity. Qed.
Example Construct_1 : Construct (chars "http://h") (chars "/p") [(chars "a", chars "1"); (chars "b", chars "&")] = chars "http://h/p?a=1&b=%26".
Proof. reflexivity. Qed.
Example ParseHostAndRest_1 : ParseHostAndRest (chars "https://account.api.here.com:8080/oauth2/token")
  = Some (chars "https://account.api.here.com:8080", chars "/oauth2/token"). Proof. reflexivity. Qed.
Example ParseHostAndRest_2 : ParseHostAndRest (chars "bad url") = None. Proof. reflexivity. Qed.

(** *** Encoding *)

Lemma hex_digit_ord n : 0 <= n < 16 -> ord (hex_digit n) = if n <? 10 then 48 + n else 55 + n.
Proof. intros H. unfold hex_digit. destruct (Z.ltb_spec n 10); by autorewrite with code. Qed.

Lemma hex_digit_hex n : 0 <= n < 16 -> IsHexDigit (hex_digit n) = true.
Proof.
  intros H. unfold IsHexDigit, is_digit. rewrite hex_digit_ord by done. destruct (Z.ltb_spec n 10); lia.
Qed.

Lemma hex_digit_value n : 0 <= n < 16 -> hex_value (hex_digit n) = n.
Proof.
  intros H. unfold hex_value, is_digit. rewrite hex_digit_ord by done. destruct (Z.ltb_spec n 10).
  - btrue ((48 <=? 48 + n) && (48 + n <=? 57)). lia.
  - bfalse ((48 <=? 55 + n) && (55 + n <=? 57)). btrue (55 + n <=? 70). lia.
Qed.

Lemma hex_bounds c : 0 <= ord c / 16 < 16 /\ 0 <= ord c mod 16 < 16.
Proof. pose proof (ord_range c). split; [split; [apply Z.div_pos; lia|apply Z.div_lt_upper_bound; lia]|apply Z.mod_pos_bound; lia]. Qed.

Lemma HexToInt_digits c : HexToInt (hex_digit (ord c / 16)) (hex_digit (ord c mod 16)) = ord c.
Proof.
  destruct (hex_bounds c). unfold HexToInt. rewrite !hex_digit_value by done. symmetry. apply Z.div_mod. lia.
Qed.

Lemma Encode_cons c s : Encode (c :: s) = encode_char c ++ Encode s.
Proof. done. Qed.

Lemma unreserved_ord c : unreserved c = true -> ord c <> 37 /\ ord c <> 43 /\ ord c <> 61 /\ ord c <> 38 /\ ord c <> 63.
Proof. unfold unreserved. lia. Qed.

Lemma decode_loop_escape size idx a b l : is_u32 size -> 0 <= idx -> idx + 2 < size -> IsHexDigit a = true -> IsHexDigit b = true ->
  decode_loop size idx ("%"%char :: a :: b :: l) = chr (HexToInt a b) :: decode_loop size (idx + 3) l.
Proof.
  unfold is_u32. intros Hs Hi Hl Ha Hb. cbn [decode_loop]. change (char_at (a :: b :: l) 0) with a. change (char_at (a :: b :: l) 1) with b.
  rewrite Ha, Hb. unfold u64. rewrite Z.mod_small by lia. by btrue (idx <? size - 2).
Qed.

Lemma decode_loop_Encode s size idx : is_u32 size -> 0 <= idx -> size = idx + Z.of_nat (length (Encode s)) ->
  decode_loop size idx (Encode s) = s.
Proof.
  revert idx. induction s as [|c s IH]; intros idx Hs Hi Hlen; [done|].
  rewrite Encode_cons in *. rewrite length_app in Hlen. unfold encode_char in *. pose proof Hs as Hs'. unfold is_u32 in Hs'.
  destruct (unreserved c) eqn:Eu; cbn [app length] in *.
  - destruct (unreserved_ord c Eu) as (H1 & H2 & _). cbn [decode_loop].
    bfalse (ord c =? 37). rewrite andb_false_r. cbn [andb]. bfalse (ord c =? 43). f_equal. apply IH; [done|lia|lia].
  - destruct (hex_bounds c). rewrite decode_loop_escape by (rewrite ?hex_digit_hex by done; try done; lia).
    rewrite HexToInt_digits, chr_ord. f_equal. apply IH; [done|lia|lia].
Qed.

(** decoding gives back what was encoded, for every sequence of bytes. *)
Theorem Decode_Encode s : is_u32 (Z.of_nat (length (Encode s))) -> Decode (Encode s) = s.
Proof. intros H. by apply decode_loop_Encode. Qed.

Lemma Decode_Encode_witness : Decode (Encode (chars "a=b&%?")) = chars "a=b&%?".
Proof. apply (Decode_Encode (chars "a=b&%?")). vm_compute. split; [discriminate|reflexivity]. Defined.

(** *** The query *)

Lemma Encode_chars s x : x ∈ Encode s -> unreserved x = true \/ ord x = 37.
Proof.
  unfold Encode. intros (c & Hx & _)%list_elem_of_bind. unfold encode_char in Hx.
  destruct (unreserved c) eqn:Eu.
  - apply list_elem_of_singleton in Hx as ->. auto.
  - destruct (hex_bounds c).
    assert (Hu : forall n, 0 <= n < 16 -> unreserved (hex_digit n) = true).
    { intros n Hn. unfold unreserved. rewrite hex_digit_ord by done. destruct (Z.ltb_spec n 10); lia. }
    apply elem_of_cons in Hx as [->|Hx]; [auto|]. apply elem_of_cons in Hx as [->|Hx]; [auto|].
    apply list_elem_of_singleton in Hx as ->. auto.
Qed.

Lemma Encode_no x s : ord x = 61 \/ ord x = 38 \/ ord x = 63 -> x ∉ Encode s.
Proof. intros H Hx. destruct (Encode_chars s x Hx) as [Hu|Hu]; [apply unreserved_ord in Hu|]; lia. Qed.

Lemma Encode_inj s t : Encode s = Encode t -> s = t.
Proof.
  revert t. induction s as [|c s IH]; intros [|d t]; rewrite ?Encode_cons; [done|..].
  - unfold encode_char. by destruct (unreserved d).
  - unfold encode_char. by destruct (unreserved c).
  - unfold encode_char. destruct (unreserved c) eqn:Ec, (unreserved d) eqn:Ed; cbn [app].
    + intros [= -> H]. by rewrite (IH t H).
    + intros [= -> H]. apply unreserved_ord in Ec. by destruct Ec.
    + intros [= <- H]. apply unreserved_ord in Ed. by destruct Ed.
    + intros [= H1 H2 H]. f_equal; [|by apply IH]. apply ord_inj. by rewrite <- (HexToInt_digits c), H1, H2, HexToInt_digits.
Qed.

(** The first of a character tells where it is. *)
Lemma split_first {A} (x : A) l l' r r' : x ∉ l -> x ∉ l' -> l ++ x :: r = l' ++ x :: r' -> l = l' /\ r = r'.
Proof.
  revert l'. induction l as [|y l IH]; intros [|y' l']; cbn [app]; intros H H'.
  - by intros [= ->].
  - intros [= <- _]. destruct H'. left.
  - intros [= -> _]. destruct H. left.
  - intros [= <- E]. destruct (IH l') as [-> ->]; [| |done|done]; intros Hx; [destruct H|destruct H']; by right.
Qed.

Lemma construct_query_end (q : params) : construct_query false q = [] \/ exists r, construct_query false q = "&"%char :: r.
Proof. destruct q as [|[k v] q]; [by left|right]. by eexists. Qed.

Lemma construct_query_inj b p q : construct_query b p = construct_query b q -> p = q.
Proof.
  revert b q. induction p as [|[k v] p IH]; intros b [|[k' v'] q]; cbn [construct_query]; [done|by destruct b..|].
  intros H. apply app_inv_head in H.
  assert (He : forall w, "="%char ∉ Encode w) by (intros w; apply Encode_no; auto).
  destruct (split_first "="%char (Encode k) (Encode k') _ _ (He k) (He k') H) as [Hk H']. apply Encode_inj in Hk as ->. cbn [app] in H'.
  assert (Hv : Encode v = Encode v' /\ construct_query false p = construct_query false q).
  { assert (Hn : forall w, "&"%char ∉ Encode w) by (intros w; apply Encode_no; auto).
    destruct (construct_query_end p) as [Ep|(r & Ep)], (construct_query_end q) as [Eq|(r' & Eq)]; rewrite Ep, Eq in H' |- *.
    - by rewrite !app_nil_r in H'.
    - rewrite app_nil_r in H'. destruct (Hn v). rewrite H'. apply elem_of_app. right. left.
    - rewrite app_nil_r in H'. destruct (Hn v'). rewrite <- H'. apply elem_of_app. right. left.
    - destruct (split_first _ _ _ _ _ (Hn v) (Hn v') H') as [-> ->]. done. }
  destruct Hv as [Hv Hq]. apply Encode_inj in Hv as ->. by rewrite (IH false q Hq).
Qed.

(** Requests with the same URL have the same parameters: from the URL of a base and
    a path no two lists of parameters can be confused. *)
Theorem Construct_inj base path p q : Construct base path p = Construct base path q -> p = q.
Proof. unfold Construct. intros H. by apply app_inv_head, app_inv_head, construct_query_inj in H. Qed.

Lemma Construct_inj_witness : [(chars "a", chars "1&b=2")] = [(chars "a", chars "1&b=2")].
Proof. apply (Construct_inj (chars "http://h") (chars "/p")). reflexivity. Defined.

(** *** Host and rest *)

Lemma match_host_app l host rest : match_host l = Some (host, rest) -> l = host ++ rest.
Proof.
  unfold match_host. destruct (take_while host_char l) as [|x name] eqn:E; [done|]. intros H.
  rewrite <- (take_drop_while host_char l), E. destruct (drop_while host_char l) as [|c l']; [by injection H as <- <-|].
  destruct (ord c =? 58); [|by injection H as <- <-].
  destruct (take_while is_digit l') as [|d port] eqn:Ed; injection H as <- <-; [done|].
  cbn [app]. rewrite <- app_assoc. cbn [app]. rewrite <- (take_drop_while is_digit l') at 1. by rewrite Ed.
Qed.

Lemma match_last_app before l host rest : match_last before l = Some (host, rest) -> before ++ l = host ++ rest.
Proof.
  revert before. induction l as [|c l IH]; intros before; cbn [match_last]; [done|].
  destruct (match_last (before ++ [c]) l) as [[h r]|] eqn:E.
  - intros [= <- <-]. rewrite <- (IH _ E), <- app_assoc. done.
  - destruct (starts_with _ _) eqn:Es; [|done]. apply bool_decide_eq_true in Es.
    destruct (match_host _) as [[h r]|] eqn:Em; [|done]. intros [= <- <-]. apply match_host_app in Em.
    rewrite <- (take_drop 3 (c :: l)), Em. change (length (chars "://")) with 3%nat in Es. rewrite Es.
    by rewrite <- !app_assoc.
Qed.

(** The two parts make up the URL. *)
Theorem ParseHostAndRest_app url host rest : ParseHostAndRest url = Some (host, rest) -> url = host ++ rest.
Proof. unfold ParseHostAndRest. destruct (existsb _ _); [done|]. apply (match_last_app []). Qed.

Lemma ParseHostAndRest_app_witness : chars "https://a.b:1/c" = chars "https://a.b:1" ++ chars "/c".
Proof. apply ParseHostAndRest_app. reflexivity. Defined.

(** A second URL in the query is taken for the host. *)
Theorem ParseHostAndRest_query :
  ParseHostAndRest (chars "https://account.here.com/token?u=http://b.com/x")
  = Some (chars "https://account.here.com/token?u=http://b.com", chars "/x").
Proof. reflexivity. Qed.
End Url.

(** ** Error codes, requests and responses of the network *)

Module Network.

(** [http::ErrorCode], by value. *)
Inductive ErrorCode :=
| SUCCESS | IO_ERROR | AUTHORIZATION_ERROR | INVALID_URL_ERROR | OFFLINE_ERROR | CANCELLED_ERROR
| AUTHENTICATION_ERROR | TIMEOUT_ERROR | NETWORK_OVERLOAD_ERROR | UNKNOWN_ERROR.

Definition error_codes : list ErrorCode :=
  [SUCCESS; IO_ERROR; AUTHORIZATION_ERROR; INVALID_URL_ERROR; OFFLINE_ERROR; CANCELLED_ERROR;
   AUTHENTICATION_ERROR; TIMEOUT_ERROR; NETWORK_OVERLOAD_ERROR; UNKNOWN_ERROR].

#[export] Instance ErrorCode_eq_dec : EqDecision ErrorCode.
Proof. solve_decision. Defined.

(** [static_cast<int>] *)
Definition code (e : ErrorCode) : Z :=
  match e with
  | SUCCESS => 0 | IO_ERROR => -1 | AUTHORIZATION_ERROR => -2 | INVALID_URL_ERROR => -3 | OFFLINE_ERROR => -4
  | CANCELLED_ERROR => -5 | AUTHENTICATION_ERROR => -6 | TIMEOUT_ERROR => -7 | NETWORK_OVERLOAD_ERROR => -8
  | UNKNOWN_ERROR => -9
  end.

Definition ErrorCodeToString (e : ErrorCode) : str :=
  match e with
  | SUCCESS => chars "Success"
  | IO_ERROR => chars "Input/Output error"
  | AUTHORIZATION_ERROR => chars "Authorization error"
  | INVALID_URL_ERROR => chars "Invalid URL"
  | OFFLINE_ERROR => chars "Offline"
  | CANCELLED_ERROR => chars "Cancelled"
  | AUTHENTICATION_ERROR => chars "Authentication error"
  | TIMEOUT_ERROR => chars "Timeout"
  | NETWORK_OVERLOAD_ERROR => chars "Network overload"
  | UNKNOWN_ERROR => chars "Unknown error"
  end.

(** [RequestIdInvalid] *)
Definition kInvalidRequestId : Z := 0.

Record SendOutcome := mkSendOutcome { request_id_ : Z; error_code_ : ErrorCode }.
Definition SendOutcome_of_id (request_id : Z) : SendOutcome := mkSendOutcome request_id SUCCESS.
Definition SendOutcome_of_error (error_code : ErrorCode) : SendOutcome := mkSendOutcome kInvalidRequestId error_code.
Definition SendOutcome_IsSuccessful (o : SendOutcome) : bool :=
  bool_decide (error_code_ o = SUCCESS) && negb (request_id_ o =? kInvalidRequestId).

Definition Headers : Type := list (str * str).

Inductive HttpVerb := GET | POST | HEAD | PUT | DEL | PATCH | OPTIONS.

Record NetworkSettings := mkSettings {
  connection_timeout_ : Z;      (* ms *)
  transfer_timeout_ : Z;        (* ms *)
  connection_lifetime_ : Z;     (* s *)
  dns_servers_ : list str }.

Definition NetworkSettings_new : NetworkSettings := mkSettings 60000 30000 0 [].
Definition WithConnectionTimeout (timeout : Z) (s : NetworkSettings) : NetworkSettings :=
  mkSettings timeout (transfer_timeout_ s) (connection_lifetime_ s) (dns_servers_ s).
Definition WithTransferTimeout (timeout : Z) (s : NetworkSettings) : NetworkSettings :=
  mkSettings (connection_timeout_ s) timeout (connection_lifetime_ s) (dns_servers_ s).

Record NetworkRequest := mkRequest {
  verb_ : HttpVerb;
  url_ : str;
  headers_ : Headers;
  body_ : option str;
  settings_ : NetworkSettings }.

Definition NetworkRequest_new (url : str) : NetworkRequest := mkRequest GET url [] None NetworkSettings_new.
Definition WithHeader (name value : str) (r : NetworkRequest) : NetworkRequest :=
  mkRequest (verb_ r) (url_ r) (headers_ r ++ [(name, value)]) (body_ r) (settings_ r).
Definition WithUrl (url : str) (r : NetworkRequest) : NetworkRequest :=
  mkRequest (verb_ r) url (headers_ r) (body_ r) (settings_ r).
Definition WithVerb (verb : HttpVerb) (r : NetworkRequest) : NetworkRequest :=
  mkRequest verb (url_ r) (headers_ r) (body_ r) (settings_ r).
Definition WithBody (body : option str) (r : NetworkRequest) : NetworkRequest :=
  mkRequest (verb_ r) (url_ r) (headers_ r) body (settings_ r).
Definition WithSettings (settings : NetworkSettings) (r : NetworkRequest) : NetworkRequest :=
  mkRequest (verb_ r) (url_ r) (headers_ r) (body_ r) settings.

Record NetworkResponse := mkNetworkResponse {
  response_id_ : Z;
  status_ : Z;
  error_ : str;
  bytes_uploaded_ : Z;
  bytes_downloaded_ : Z }.
End Network.

(** ** Responses of the client *)

Module Response.
Import Network.

(** Sums of [uint64_t] wrap around. *)
Record NetworkStatistics := mkStatistics { uploaded : Z; downloaded : Z }.
Definition NetworkStatistics_new : NetworkStatistics := mkStatistics 0 0.
Definition add_statistics (a b : NetworkStatistics) : NetworkStatistics :=
  mkStatistics (uploaded a + uploaded b)%word (downloaded a + downloaded b)%word.

(** The body is what the stream holds; its read position is not modelled. *)
Record HttpResponse := mkHttpResponse {
  status : Z;
  response : str;
  headers : Headers;
  network_statistics : NetworkStatistics }.

Definition HttpResponse_of (status : Z) (response : str) (headers : Headers) : HttpResponse :=
  mkHttpResponse status response headers NetworkStatistics_new.
Definition SetNetworkStatistics (statistics : NetworkStatistics) (r : HttpResponse) : HttpResponse :=
  mkHttpResponse (status r) (response r) (headers r) statistics.

(** [client::ErrorCode], by value from 0. *)
Inductive ClientErrorCode :=
| Unknown | Cancelled | InvalidArgument | RequestTimeout | InternalFailure | ServiceUnavailable | AccessDenied
| BadRequest | PreconditionFailed | NotFound | SlowDown | NetworkConnection | CacheIO | NoSpaceLeft | Offline | NoContent.

Definition client_code (e : ClientErrorCode) : Z :=
  match e with
  | Unknown => 0 | Cancelled => 1 | InvalidArgument => 2 | RequestTimeout => 3 | InternalFailure => 4
  | ServiceUnavailable => 5 | AccessDenied => 6 | BadRequest => 7 | PreconditionFailed => 8 | NotFound => 9
  | SlowDown => 10 | NetworkConnection => 11 | CacheIO => 12 | NoSpaceLeft => 13 | Offline => 14 | NoContent => 15
  end.

Definition is_one_of (l : list Z) (z : Z) : bool := bool_decide (z ∈ l).

(** [HttpStatusCode::IsRetryable] *)
Definition IsRetryable (http_code : Z) : bool :=
  if http_code <? 0 then false else is_one_of [500; 503; 429; 509; 408; 419; 440; 504; 598; 599] http_code.

(** [HttpStatusCode::GetErrorCode] *)
Definition GetErrorCode (http_code : Z) : ClientErrorCode :=
  if http_code <? 0 then
    if http_code =? code OFFLINE_ERROR then Offline
    else if http_code =? code IO_ERROR then NetworkConnection
    else if http_code =? code TIMEOUT_ERROR then RequestTimeout
    else if http_code =? code CANCELLED_ERROR then Cancelled
    else if is_one_of [code AUTHORIZATION_ERROR; code AUTHENTICATION_ERROR] http_code then AccessDenied
    else if http_code =? code INVALID_URL_ERROR then ServiceUnavailable
    else if http_code =? code NETWORK_OVERLOAD_ERROR then SlowDown
    else Unknown
  else if http_code =? 400 then BadRequest
  else if is_one_of [401; 403] http_code then AccessDenied
  else if http_code =? 404 then NotFound
  else if http_code =? 412 then PreconditionFailed
  else if is_one_of [429; 509] http_code then SlowDown
  else if http_code =? 500 then InternalFailure
  else if http_code =? 503 then ServiceUnavailable
  else if is_one_of [408; 419; 440; 504; 598; 599] http_code then RequestTimeout
  else Unknown.

Record ApiError := mkApiError {
  api_error_code : ClientErrorCode;
  http_status_code : Z;
  message : str;
  is_retryable : bool }.

Definition ApiError_of_code (error_code : ClientErrorCode) (message : str) (is_retryable : bool) : ApiError :=
  mkApiError error_code (match error_code with Cancelled => code CANCELLED_ERROR | _ => code UNKNOWN_ERROR end) message is_retryable.
Definition ApiError_of_status (http_status_code : Z) (message : str) : ApiError :=
  mkApiError (GetErrorCode http_status_code) http_status_code message (IsRetryable http_status_code).

(** What may be retried is an error of the server or of too many or too late requests:
    no success and no error of the network has a retryable status. *)
Lemma IsRetryable_error http_code : IsRetryable http_code = true -> 400 <= http_code < 600 /\ GetErrorCode http_code <> Unknown.
Proof.
  unfold IsRetryable. destruct (Z.ltb_spec http_code 0); [done|]. unfold is_one_of. intros Hb%bool_decide_eq_true.
  repeat (apply elem_of_cons in Hb as [->|Hb]; [split; [lia|done]|]). by apply elem_of_nil in Hb.
Qed.
End Response.
