(* ===== verification/PendingUrlRequests.v ===== *)
(** * Pending requests by URL

    Model of [PendingUrlRequest] and [PendingUrlRequests]
    (src/client/PendingUrlRequests.cpp and .h): requests with the same URL share one
    network call, and every caller's callback is called when it is completed.

    Requests are objects of a store, because the two maps and the callers share
    pointers to them.  Callbacks are values of a type [C]; an operation gives the
    callbacks that it calls with their responses.  Every operation holds the mutex of
    the map from its first to its last access. *)

From Stdlib Require Import Sorting.Sorted.
From S2P Require Import Prelude TaskContext Http.
Import CancellationContext.
Import Response.

Section pending_url.
(** Callbacks *)
Context {C : Type}.

Definition kInvalidRequestId : Z := Network.kInvalidRequestId.
Definition kCancelledStatus : Z := Network.code Network.CANCELLED_ERROR.

Definition GetCancelledResponse : HttpResponse := HttpResponse_of kCancelledStatus (chars "Operation cancelled") [].

(** [signaled_] is the flag of [condition_]; the sub-operation of [context_] is the
    network request to cancel. *)
Record PendingUrlRequest := mkRequest {
  http_request_id_ : Z;
  signaled_ : bool;
  context_ : CancellationContextImpl Z;
  callbacks_ : list (nat * C);
  cancelled_callbacks_ : list C }.

Definition PendingUrlRequest_new : PendingUrlRequest :=
  mkRequest kInvalidRequestId false CancellationContext_new [] [].

(** [emplace] of a [std::map]: in the order of the keys, nothing for one that is there. *)
Fixpoint emplace (l : list (nat * C)) (k : nat) (c : C) : list (nat * C) :=
  match l with
  | [] => [(k, c)]
  | (k', c') :: l' => if (k <? k')%nat then (k, c) :: l else if (k =? k')%nat then l else (k', c') :: emplace l' k c
  end.

Definition Append_callback (r : PendingUrlRequest) (callback : C) : PendingUrlRequest * nat :=
  let callback_id := length (callbacks_ r) in
  (mkRequest (http_request_id_ r) (signaled_ r) (context_ r) (emplace (callbacks_ r) callback_id callback)
     (cancelled_callbacks_ r), callback_id).

(** [ExecuteOrCancelled]: what [func] makes of the request id and the token that it
    returns; [false] when the request is cancelled and [cancel_func] is called. *)
Definition ExecuteOrCancelled_request (r : PendingUrlRequest) (func : Z * option Z) : PendingUrlRequest * bool :=
  if IsCancelled (context_ r) then (r, false)
  else (mkRequest (fst func) (signaled_ r) (fst (ExecuteOrCancelled (context_ r) (Some (snd func)))) (callbacks_ r)
          (cancelled_callbacks_ r), true).

(** [CancelOperation], with the network request that is cancelled. *)
Definition CancelOperation_request (r : PendingUrlRequest) : PendingUrlRequest * option Z :=
  let '(context, cancelled) := CancelOperation (context_ r) in
  (mkRequest (http_request_id_ r) (signaled_ r) context (callbacks_ r) (cancelled_callbacks_ r), cancelled).

Definition find_callback (l : list (nat * C)) (k : nat) : option C := snd <$> List.find (fun e => (k =? fst e)%nat) l.
Definition erase_callback (l : list (nat * C)) (k : nat) : list (nat * C) := List.filter (fun e => negb (k =? fst e)%nat) l.

Definition Cancel_callback (r : PendingUrlRequest) (callback_id : nat) : PendingUrlRequest * bool :=
  match find_callback (callbacks_ r) callback_id with
  | None => (r, false)
  | Some callback =>
      let r := mkRequest (http_request_id_ r) (signaled_ r) (context_ r) (erase_callback (callbacks_ r) callback_id)
                 (cancelled_callbacks_ r ++ [callback]) in
      (match callbacks_ r with [] => fst (CancelOperation_request r) | _ :: _ => r end, true)
  end.

(** [OnRequestCompleted]: the calls of the callbacks, in order. *)
Definition Complete (r : PendingUrlRequest) (response : HttpResponse) : PendingUrlRequest * list (C * HttpResponse) :=
  let response_out := if IsCancelled (context_ r) then GetCancelledResponse else response in
  let calls :=
    match callbacks_ r, cancelled_callbacks_ r with
    | [(_, callback)], [] => [(callback, response_out)]
    | [], [callback] => [(callback, response_out)]
    | callbacks, cancelled_callbacks =>
        let response_out' := match cancelled_callbacks with
                             | [] => response_out
                             | _ => if status response_out =? kCancelledStatus then response_out else GetCancelledResponse
                             end in
        ((fun c => (snd c, response_out)) <$> callbacks) ++ ((fun c => (c, response_out')) <$> cancelled_callbacks)
    end in
  (mkRequest kInvalidRequestId true (context_ r) [] [], calls).

(** ** All requests *)

Record PendingUrlRequests := mkRequests {
  heap_ : gmap nat PendingUrlRequest;
  pending_requests_ : gmap str nat;
  cancelled_requests_ : gmap str nat }.

Definition PendingUrlRequests_new : PendingUrlRequests := mkRequests ∅ ∅ ∅.

(** [std::make_shared] *)
Definition make_shared (h : gmap nat PendingUrlRequest) : gmap nat PendingUrlRequest * nat :=
  let p := fresh (dom h) in (<[p := PendingUrlRequest_new]> h, p).

Definition Size (s : PendingUrlRequests) : nat := (size (pending_requests_ s) + size (cancelled_requests_ s))%nat.

(** [operator\[\]] *)
Definition get_request (s : PendingUrlRequests) (url : str) : PendingUrlRequests * nat :=
  match pending_requests_ s !! url with
  | Some p => (s, p)
  | None =>
      let '(h, p) := make_shared (heap_ s) in
      (mkRequests h (<[url := p]> (pending_requests_ s)) (cancelled_requests_ s), p)
  end.

(** [Append]: the id of the callback and [out]. *)
Definition Append (s : PendingUrlRequests) (url : str) (callback : C) : option (PendingUrlRequests * nat * nat) :=
  let '(s, out) := get_request s url in
  r ← heap_ s !! out;
  let '(r, callback_id) := Append_callback r callback in
  Some (mkRequests (<[out := r]> (heap_ s)) (pending_requests_ s) (cancelled_requests_ s), callback_id, out).

Definition Cancel (s : PendingUrlRequests) (url : str) (callback_id : nat) : option (PendingUrlRequests * bool) :=
  match pending_requests_ s !! url with
  | None => Some (s, true)
  | Some p =>
      r ← heap_ s !! p;
      let '(r, ret) := Cancel_callback r callback_id in
      let h := <[p := r]> (heap_ s) in
      if IsCancelled (context_ r) then
        let cancelled := match cancelled_requests_ s !! url with
                         | Some _ => cancelled_requests_ s
                         | None => <[url := p]> (cancelled_requests_ s)
                         end in
        Some (mkRequests h (delete url (pending_requests_ s)) cancelled, ret)
      else Some (mkRequests h (pending_requests_ s) (cancelled_requests_ s), ret)
  end.

Definition cancel_all (h : gmap nat PendingUrlRequest) (ps : gmap str nat) : gmap nat PendingUrlRequest :=
  foldr (fun e => alter (fun r => fst (CancelOperation_request r)) (snd e)) h (map_to_list ps).

Definition CancelAll (s : PendingUrlRequests) : PendingUrlRequests :=
  mkRequests (cancel_all (heap_ s) (pending_requests_ s)) (pending_requests_ s) (cancelled_requests_ s).

(** [CancelAllAndWait] up to the waits, which are for the requests of the two maps. *)
Definition CancelAllAndWait (s : PendingUrlRequests) : PendingUrlRequests :=
  mkRequests (cancel_all (cancel_all (heap_ s) (pending_requests_ s)) (cancelled_requests_ s))
    (pending_requests_ s) (cancelled_requests_ s).

(** The request that a response is for: looked up in both maps, by URL and id. *)
Definition take_request (s : PendingUrlRequests) (request_id : Z) (url : str) : option (PendingUrlRequests * option nat) :=
  let GetRequestId p := http_request_id_ <$> heap_ s !! p in
  let cancelled :=
    match cancelled_requests_ s !! url with
    | Some p => id ← GetRequestId p;
                Some (if request_id =? id
                      then (mkRequests (heap_ s) (pending_requests_ s) (delete url (cancelled_requests_ s)), Some p)
                      else (s, None))
    | None => Some (s, None)
    end in
  match pending_requests_ s !! url with
  | Some p => id ← GetRequestId p;
              if request_id =? id
              then Some (mkRequests (heap_ s) (delete url (pending_requests_ s)) (cancelled_requests_ s), Some p)
              else cancelled
  | None => cancelled
  end.

Definition OnRequestCompleted (s : PendingUrlRequests) (request_id : Z) (url : str) (response : HttpResponse)
  : option (PendingUrlRequests * list (C * HttpResponse)) :=
  '(s, request_ptr) ← take_request s request_id url;
  match request_ptr with
  | None => Some (s, [])
  | Some p =>
      r ← heap_ s !! p;
      let '(r, calls) := Complete r response in
      Some (mkRequests (<[p := r]> (heap_ s)) (pending_requests_ s) (cancelled_requests_ s), calls)
  end.

(** [ExecuteOrCancelled] of a request that a caller holds. *)
Definition Execute (s : PendingUrlRequests) (p : nat) (func : Z * option Z) : option (PendingUrlRequests * bool) :=
  r ← heap_ s !! p;
  let '(r, executed) := ExecuteOrCancelled_request r func in
  Some (mkRequests (<[p := r]> (heap_ s)) (pending_requests_ s) (cancelled_requests_ s), executed).

(** ** Operations as data *)

Inductive operation :=
| OpAppend (url : str) (callback : C)
| OpCancel (url : str) (callback_id : nat)
| OpCancelAll
| OpExecute (p : nat) (func : Z * option Z)
| OpCompleted (request_id : Z) (url : str) (response : HttpResponse).

Definition perform (s : PendingUrlRequests) (o : operation) : option (PendingUrlRequests * list (C * HttpResponse)) :=
  match o with
  | OpAppend url callback => '(s, _, _) ← Append s url callback; Some (s, [])
  | OpCancel url callback_id => '(s, _) ← Cancel s url callback_id; Some (s, [])
  | OpCancelAll => Some (CancelAll s, [])
  | OpExecute p func => '(s, _) ← Execute s p func; Some (s, [])
  | OpCompleted request_id url response => OnRequestCompleted s request_id url response
  end.

Fixpoint perform_all (s : PendingUrlRequests) (os : list operation) : option (PendingUrlRequests * list (C * HttpResponse)) :=
  match os with
  | [] => Some (s, [])
  | o :: os => '(s, calls) ← perform s o; '(s, calls') ← perform_all s os; Some (s, calls ++ calls')
  end.
End pending_url.
#[global] Arguments PendingUrlRequest : clear implicits.
#[global] Arguments PendingUrlRequests : clear implicits.
#[global] Arguments operation : clear implicits.

(** ** One request *)

Section request.
Context {C : Type}.
Abbreviation PendingUrlRequest := (PendingUrlRequest C).
Implicit Types (r : PendingUrlRequest) (l : list (nat * C)).

(** The callbacks that a request has to call. *)
Definition own r : list C := (snd <$> callbacks_ r) ++ cancelled_callbacks_ r.

Definition sorted_keys l : Prop := StronglySorted lt (fst <$> l).

Record request_ok r : Prop := {
  ok_sorted : sorted_keys (callbacks_ r);
  ok_cancelled : callbacks_ r = [] -> cancelled_callbacks_ r <> [] -> IsCancelled (context_ r) = true }.

Lemma emplace_perm l k c : find_callback l k = None -> emplace l k c ≡ₚ (k, c) :: l.
Proof.
  unfold find_callback. induction l as [|[k' c'] l IH]; cbn [emplace List.find fst]; [done|]. destruct (Nat.ltb_spec k k'); [done|].
  destruct (Nat.eqb_spec k k'); [done|]. intros H'. rewrite (IH H'). constructor.
Qed.

Lemma emplace_keys l k c x : x ∈ (fst <$> emplace l k c) -> x = k \/ x ∈ (fst <$> l).
Proof.
  induction l as [|[k' c'] l IH]; cbn [emplace fmap list_fmap fst]; [rewrite list_elem_of_singleton; auto|].
  destruct (Nat.ltb_spec k k'); [cbn; rewrite elem_of_cons; auto|]. destruct (Nat.eqb_spec k k'); [auto|].
  cbn [fmap list_fmap fst]. rewrite !elem_of_cons. intros [?|?%IH]; naive_solver.
Qed.

Lemma emplace_sorted l k c : sorted_keys l -> sorted_keys (emplace l k c).
Proof.
  unfold sorted_keys. induction l as [|[k' c'] l IH]; cbn [emplace fmap list_fmap fst]; [repeat constructor|].
  intros Hs. pose proof Hs as [Hl Hk]%StronglySorted_inv. destruct (Nat.ltb_spec k k'); cbn [fmap list_fmap fst].
  - constructor; [done|]. constructor; [done|]. eapply Forall_impl; [exact Hk|]. cbn. lia.
  - destruct (Nat.eqb_spec k k'); cbn [fmap list_fmap fst]; [done|]. constructor; [by apply IH|].
    apply Forall_forall. intros x [-> |Hx]%emplace_keys; [lia|]. by rewrite Forall_forall in Hk; apply Hk.
Qed.

Lemma erase_absent l k : k ∉ (fst <$> l) -> erase_callback l k = l.
Proof.
  unfold erase_callback. induction l as [|[k' c'] l IH]; [done|]. cbn [fmap list_fmap fst List.filter]. rewrite not_elem_of_cons.
  intros [Hk Hl]. destruct (Nat.eqb_spec k k'); [done|]. cbn. by rewrite IH.
Qed.

Lemma erase_perm l k c : sorted_keys l -> find_callback l k = Some c -> (k, c) :: erase_callback l k ≡ₚ l.
Proof.
  unfold sorted_keys, find_callback. induction l as [|[k' c'] l IH]; cbn [fmap list_fmap fst List.find option_fmap option_map]; [done|].
  intros [Hl Hk]%StronglySorted_inv. cbn [erase_callback List.filter fst]. destruct (Nat.eqb_spec k k') as [->|Hn]; cbn [negb].
  - intros [= <-]. fold (erase_callback l k'). rewrite erase_absent; [done|]. rewrite Forall_forall in Hk. intros Hin. apply Hk in Hin. lia.
  - intros Hf. fold (erase_callback l k). rewrite <- (IH Hl Hf) at 2. constructor.
Qed.

Lemma erase_sorted l k : sorted_keys l -> sorted_keys (erase_callback l k).
Proof.
  unfold sorted_keys, erase_callback. induction l as [|[k' c'] l IH]; cbn [fmap list_fmap fst List.filter]; [done|].
  intros [Hl Hk]%StronglySorted_inv. destruct (negb (k =? k')%nat); cbn [fmap list_fmap fst]; [|by apply IH].
  constructor; [by apply IH|]. apply Forall_forall. intros x ([j c] & -> & Hx)%list_elem_of_fmap.
  rewrite Forall_forall in Hk. apply Hk, list_elem_of_fmap. exists (j, c). split; [done|].
  apply list_elem_of_In, filter_In in Hx as [Hx _]. by apply list_elem_of_In.
Qed.

Lemma Append_callback_own r c : find_callback (callbacks_ r) (length (callbacks_ r)) = None ->
  own (Append_callback r c).1 ≡ₚ c :: own r.
Proof. intros H. unfold own, Append_callback. cbn [fst callbacks_ cancelled_callbacks_]. by rewrite (emplace_perm _ _ _ H). Qed.

Lemma Append_callback_ok r c : request_ok r -> request_ok (Append_callback r c).1.
Proof.
  intros [Hs Hc]. split; cbn [Append_callback fst callbacks_ cancelled_callbacks_ context_]; [by apply emplace_sorted|].
  intros He. exfalso. assert (Hl : length (emplace (callbacks_ r) (length (callbacks_ r)) c) = 0%nat) by by rewrite He.
  destruct (callbacks_ r) as [|[k' c'] l]; cbn [emplace length] in Hl; [done|]. by repeat (destruct (_ : bool) in Hl).
Qed.

Lemma CancelOperation_request_ok r : request_ok r -> request_ok (CancelOperation_request r).1.
Proof.
  intros [Hs Hc]. unfold CancelOperation_request, CancelOperation. destruct (is_cancelled_ (context_ r)) eqn:E; by split.
Qed.

Lemma CancelOperation_request_own r : own (CancelOperation_request r).1 = own r.
Proof. unfold CancelOperation_request. by destruct (CancelOperation _). Qed.

Lemma CancelOperation_request_cancelled r : IsCancelled (context_ (CancelOperation_request r).1) = true.
Proof.
  unfold CancelOperation_request, CancelOperation, IsCancelled. destruct (is_cancelled_ (context_ r)) eqn:E; [exact E|done].
Qed.

Lemma Cancel_callback_own r k : request_ok r -> own (Cancel_callback r k).1 ≡ₚ own r.
Proof.
  intros [Hs _]. unfold Cancel_callback. destruct (find_callback _ _) as [c|] eqn:E; [|done].
  assert (H : (snd <$> erase_callback (callbacks_ r) k) ++ cancelled_callbacks_ r ++ [c] ≡ₚ own r).
  { unfold own. pose proof (fmap_Permutation snd _ _ (erase_perm _ _ _ Hs E)) as Hp. rewrite <- Hp. cbn.
    by rewrite app_assoc, <- Permutation_cons_append. }
  cbv zeta. cbn [callbacks_]. destruct (erase_callback _ _) eqn:Ee; cbn [fst].
  - rewrite CancelOperation_request_own. rewrite <- H. done.
  - unfold own at 1. cbn [callbacks_ cancelled_callbacks_]. done.
Qed.

Lemma Cancel_callback_ok r k : request_ok r -> request_ok (Cancel_callback r k).1.
Proof.
  intros [Hs Hc]. unfold Cancel_callback. destruct (find_callback _ _) as [c|] eqn:E; [|done].
  cbv zeta. cbn [callbacks_]. pose proof (erase_sorted _ k Hs) as He. destruct (erase_callback _ _) eqn:Ee; cbn [fst].
  - split; [|intros _ _; apply CancelOperation_request_cancelled].
    unfold CancelOperation_request. destruct (CancelOperation _). constructor.
  - by split.
Qed.

(** What the callbacks are called with. *)
Definition answer r (response : HttpResponse) : HttpResponse :=
  if IsCancelled (context_ r) then GetCancelledResponse else response.

Lemma Complete_calls r response : request_ok r ->
  exists cancelled_answer, status cancelled_answer = kCancelledStatus /\
    (Complete r response).2 = ((fun c => (snd c, answer r response)) <$> callbacks_ r)
      ++ ((fun c => (c, cancelled_answer)) <$> cancelled_callbacks_ r).
Proof.
  intros [_ Hc]. unfold Complete, answer. cbn [snd].
  set (out := if IsCancelled _ then _ else _).
  assert (Hout : callbacks_ r = [] -> cancelled_callbacks_ r <> [] -> status out = kCancelledStatus)
    by (intros H1 H2; unfold out; by rewrite (Hc H1 H2)).
  set (out' := match cancelled_callbacks_ r with [] => GetCancelledResponse | _ => if status out =? kCancelledStatus then out else GetCancelledResponse end).
  exists (if bool_decide (callbacks_ r = []) then match cancelled_callbacks_ r with [_] => out | _ => out' end else out').
  destruct (callbacks_ r) as [|[k c] [|]], (cancelled_callbacks_ r) as [|d [|]]; unfold out'; cbn; try done.
  all: split; [|done]; try (by apply Hout); destruct (Z.eqb_spec (status out) (-5)); done.
Qed.

Lemma Complete_own r response : request_ok r -> (Complete r response).2.*1 ≡ₚ own r /\ own (Complete r response).1 = [].
Proof.
  intros Hr. destruct (Complete_calls r response Hr) as (x & _ & ->). split; [|done].
  unfold own. rewrite fmap_app, <- !list_fmap_compose.
  pose proof (list_fmap_id (cancelled_callbacks_ r)) as E. unfold id in E. rewrite <- E at 2. done.
Qed.
End request.

(** ** All requests *)

Section requests.
Context {C : Type}.
Abbreviation PendingUrlRequest := (PendingUrlRequest C).
Abbreviation PendingUrlRequests := (PendingUrlRequests C).
Abbreviation operation := (operation C).
Implicit Types (r : PendingUrlRequest) (s : PendingUrlRequests) (o : operation).

(** The callbacks of all requests. *)
Definition held (h : gmap nat PendingUrlRequest) : list C := e ← map_to_list h; own e.2.

Lemma held_insert h p r : h !! p = None -> held (<[p := r]> h) ≡ₚ own r ++ held h.
Proof. intros H. unfold held. by rewrite (map_to_list_insert _ _ _ H). Qed.

Lemma held_split h p r : h !! p = Some r -> held h ≡ₚ own r ++ held (delete p h).
Proof. intros H. unfold held. by rewrite <- (map_to_list_delete _ _ _ H). Qed.

Lemma held_update h p r r' : h !! p = Some r -> held (<[p := r']> h) ++ own r ≡ₚ own r' ++ held h.
Proof.
  intros H. rewrite (held_split h p r H), <- insert_delete_eq, held_insert by apply lookup_delete_eq.
  rewrite (Permutation_app_comm (own r)). by rewrite <- app_assoc.
Qed.

Lemma held_same h p r r' : h !! p = Some r -> own r' ≡ₚ own r -> held (<[p := r']> h) ≡ₚ held h.
Proof. intros H E. apply (Permutation_app_inv_r (own r)). rewrite (held_update h p r r' H), E. apply Permutation_app_comm. Qed.

(** The request is in one of the maps. *)
Definition pointed s (p : nat) : Prop :=
  (exists url, pending_requests_ s !! url = Some p) \/ (exists url, cancelled_requests_ s !! url = Some p).

(** Requests that are in no map, because only their caller has them. *)
Context (extra : nat -> Prop).

Record ok s : Prop := {
  ok_pointed : forall p, pointed s p -> is_Some (heap_ s !! p);
  ok_request : forall p r, heap_ s !! p = Some r -> request_ok r;
  ok_owned : forall p r, heap_ s !! p = Some r -> own r <> [] -> pointed s p \/ extra p }.

Lemma ok_new : ok PendingUrlRequests_new.
Proof.
  assert (H : forall A (k : A) `{Countable A} B (x : B), ~ (∅ : gmap A B) !! k = Some x) by (intros; by rewrite lookup_empty).
  split; cbn; [intros p [[url E]|[url E]]|intros p r E..]; by apply H in E.
Qed.

(** A request is replaced, with the same or other maps. *)
Lemma ok_update s s' p r r' : ok s -> heap_ s !! p = Some r -> heap_ s' = <[p := r']> (heap_ s) -> request_ok r' ->
  (forall q, pointed s' q -> pointed s q \/ q = p) -> (forall q, pointed s q -> q <> p -> pointed s' q) ->
  (own r' <> [] -> pointed s' p \/ extra p) -> ok s'.
Proof.
  intros [H1 H2 H3] Hp Hh Hr' Hback Hkeep Hown. split; rewrite Hh.
  - intros q [Hq| ->]%Hback; [|by rewrite lookup_insert_eq]. destruct (decide (q = p)) as [->|]; [by rewrite lookup_insert_eq|].
    rewrite lookup_insert_ne by done. by apply H1.
  - intros q r0. destruct (decide (p = q)) as [->|]; [rewrite lookup_insert_eq; by intros [= <-]|].
    rewrite lookup_insert_ne by done. apply H2.
  - intros q r0. destruct (decide (p = q)) as [->|]; [rewrite lookup_insert_eq; by intros [= <-]|].
    rewrite lookup_insert_ne by done. intros E Ho. destruct (H3 q r0 E Ho) as [Hq|Hq]; [left|by right]. by apply Hkeep.
Qed.

Lemma ok_update_same s p r r' : ok s -> heap_ s !! p = Some r -> request_ok r' -> (own r' <> [] -> own r <> [] \/ pointed s p \/ extra p) ->
  ok (mkRequests (<[p := r']> (heap_ s)) (pending_requests_ s) (cancelled_requests_ s)).
Proof.
  intros Hok Hp Hr' Hown. eapply (ok_update s _ p r r'); try done; [by left|].
  intros Ho. destruct (Hown Ho) as [H|H]; [|done]. by apply (ok_owned s Hok p r).
Qed.

Lemma get_request_ok s url s' p : ok s -> get_request s url = (s', p) ->
  ok s' /\ pending_requests_ s' !! url = Some p /\ is_Some (heap_ s' !! p) /\ held (heap_ s') ≡ₚ held (heap_ s).
Proof.
  intros Hok. unfold get_request. destruct (pending_requests_ s !! url) as [q|] eqn:E.
  { intros [= <- <-]. split_and!; try done. apply (ok_pointed s Hok). left. by exists url. }
  unfold make_shared. set (q := fresh (dom (heap_ s))).
  assert (Hq : heap_ s !! q = None) by (apply not_elem_of_dom, is_fresh).
  assert (Hnp : ~ pointed s q) by (intros [r Hr]%(ok_pointed s Hok); by rewrite Hq in Hr).
  intros [= <- <-]. cbn [heap_ pending_requests_]. rewrite !lookup_insert_eq. split_and!; try done; [|by rewrite held_insert].
  assert (Hk : forall q', pointed s q' -> pointed (mkRequests (<[q := PendingUrlRequest_new]> (heap_ s)) (<[url := q]> (pending_requests_ s)) (cancelled_requests_ s)) q').
  { intros q' [[u H]|H]; [left|by right]. exists u. cbn. rewrite lookup_insert_ne; [done|]. intros ->. by rewrite E in H. }
  split; cbn [heap_].
  - intros q' [[u H]|[u H]]; cbn in H.
    + apply lookup_insert_Some in H as [[_ ->]|[_ H]]; [by rewrite lookup_insert_eq|].
      rewrite lookup_insert_is_Some'. right. apply (ok_pointed s Hok). left. by exists u.
    + rewrite lookup_insert_is_Some'. right. apply (ok_pointed s Hok). right. by exists u.
  - intros q' r [[_ <-]|[_ H]]%lookup_insert_Some; [|by apply (ok_request s Hok q')]. split; [constructor|done].
  - intros q' r [[_ <-]|[_ H]]%lookup_insert_Some Ho; [done|]. destruct (ok_owned s Hok q' r H Ho) as [Hpt|Hx]; [left; by apply Hk|by right].
Qed.

(** When no callback is dropped: a new one does not get an id that is in use, and a
    request does not become cancelled while another one with its URL is. *)
Definition operation_ok s o : Prop :=
  match o with
  | OpAppend url _ => forall p r, pending_requests_ s !! url = Some p -> heap_ s !! p = Some r ->
      find_callback (callbacks_ r) (length (callbacks_ r)) = None
  | OpCancel url callback_id => forall p r, pending_requests_ s !! url = Some p -> heap_ s !! p = Some r ->
      IsCancelled (context_ (Cancel_callback r callback_id).1) = true -> cancelled_requests_ s !! url = None
  | OpExecute p _ => is_Some (heap_ s !! p)
  | _ => True
  end.

Definition appended o : list C := match o with OpAppend _ callback => [callback] | _ => [] end.

(** What an operation makes of the callbacks. *)
Definition accounted s s' (before after : list C) : Prop :=
  ok s' /\ held (heap_ s') ++ after ≡ₚ held (heap_ s) ++ before.

Lemma Append_accounted s url callback : ok s -> operation_ok s (OpAppend url callback) ->
  exists s' id p, Append s url callback = Some (s', id, p) /\ accounted s s' [callback] [].
Proof.
  intros Hok Hop. unfold Append. destruct (get_request s url) as [s1 p] eqn:Eg.
  destruct (get_request_ok _ _ _ _ Hok Eg) as (Hok1 & Hp & [r Hr] & Hh). rewrite Hr.
  assert (Hfree : find_callback (callbacks_ r) (length (callbacks_ r)) = None).
  { unfold get_request in Eg. destruct (pending_requests_ s !! url) as [q|] eqn:E; [injection Eg as <- <-; by apply (Hop q r)|].
    unfold make_shared in Eg. injection Eg as <- <-. cbn [heap_] in Hr. rewrite lookup_insert_eq in Hr. by injection Hr as <-. }
  pose proof (Append_callback_own r callback Hfree) as Ho. pose proof (Append_callback_ok r callback (ok_request s1 Hok1 p r Hr)) as Hr'.
  cbn [mbind option_bind]. destruct (Append_callback r callback) as [r' id]. cbn [fst] in *. exists (mkRequests (<[p := r']> (heap_ s1)) (pending_requests_ s1) (cancelled_requests_ s1)), id, p.
  split; [done|]. split.
  - eapply ok_update_same; try done. intros _. right. left. left. by exists url.
  - cbn [heap_]. rewrite app_nil_r. apply (Permutation_app_inv_r (own r)). rewrite (held_update _ p r r' Hr), Ho, Hh.
    by rewrite (Permutation_app_comm (callback :: own r)), <- app_assoc.
Qed.

Lemma Cancel_accounted s url id : ok s -> operation_ok s (OpCancel url id) ->
  exists s' ret, Cancel s url id = Some (s', ret) /\ accounted s s' [] [].
Proof.
  intros Hok Hop. unfold Cancel. destruct (pending_requests_ s !! url) as [p|] eqn:Ep; [|by exists s, true].
  assert (Hpt : pointed s p) by (left; by exists url). destruct (ok_pointed s Hok p Hpt) as [r Hr]. rewrite Hr. specialize (Hop p r Ep Hr).
  pose proof (Cancel_callback_own r id (ok_request s Hok p r Hr)) as Ho. pose proof (Cancel_callback_ok r id (ok_request s Hok p r Hr)) as Hr'.
  cbn [mbind option_bind]. destruct (Cancel_callback r id) as [r' ret]. cbn [fst] in *.
  assert (Hh : held (<[p := r']> (heap_ s)) ++ [] ≡ₚ held (heap_ s) ++ []) by (rewrite !app_nil_r; by eapply held_same).
  destruct (IsCancelled (context_ r')) eqn:Ec; eexists _, ret; (split; [reflexivity|]); split; try exact Hh.
  - rewrite (Hop eq_refl). eapply (ok_update s _ p r r'); try done; cbn.
    + intros q [[u H]|[u H]]; cbn in H.
      * apply lookup_delete_Some in H as [_ H]. left. left. by exists u.
      * apply lookup_insert_Some in H as [[_ ->]|[_ H]]; [by right|]. left. right. by exists u.
    + intros q [[u H]|[u H]] Hn; [left|right]; exists u; cbn.
      * rewrite lookup_delete_ne; [done|]. intros ->. rewrite Ep in H. by injection H.
      * rewrite lookup_insert_ne; [done|]. intros ->. by rewrite (Hop eq_refl) in H.
    + intros _. left. right. exists url. cbn. apply lookup_insert_eq.
  - eapply ok_update_same; try done. right. by left.
Qed.

Lemma alter_cases {A} (f : A -> A) (m : gmap nat A) p : alter f p m = match m !! p with Some x => <[p := f x]> m | None => m end.
Proof.
  apply map_eq. intros q. destruct (m !! p) as [x|] eqn:E, (decide (p = q)) as [<-|Hn];
    rewrite ?lookup_alter_eq, ?lookup_alter_ne, ?lookup_insert_eq, ?lookup_insert_ne, ?E by done; done.
Qed.

Lemma cancel_all_ok s (l : list (str * nat)) : ok s ->
  let h := foldr (fun e => alter (fun r => (CancelOperation_request r).1) e.2) (heap_ s) l in
  ok (mkRequests h (pending_requests_ s) (cancelled_requests_ s)) /\ held h ≡ₚ held (heap_ s).
Proof.
  intros Hok. induction l as [|[u p] l [IH IHh]]; cbn [foldr snd]; [by destruct s|]. rewrite alter_cases.
  set (h := foldr _ _ l) in *. destruct (h !! p) as [r|] eqn:E; [|done]. split.
  - eapply (ok_update_same (mkRequests h _ _) p r); cbn [heap_ pending_requests_ cancelled_requests_]; [exact IH|done|..].
    + apply CancelOperation_request_ok. by apply (ok_request _ IH p).
    + rewrite CancelOperation_request_own. by left.
  - rewrite <- IHh. eapply held_same; [done|]. by rewrite CancelOperation_request_own.
Qed.

Lemma CancelAll_accounted s : ok s -> accounted s (CancelAll s) [] [].
Proof.
  intros Hok. destruct (cancel_all_ok s (map_to_list (pending_requests_ s)) Hok) as [H1 H2]. split; [exact H1|].
  rewrite !app_nil_r. exact H2.
Qed.

Lemma Execute_accounted s p func : ok s -> is_Some (heap_ s !! p) ->
  exists s' b, Execute s p func = Some (s', b) /\ accounted s s' [] [].
Proof.
  intros Hok [r Hr]. unfold Execute. rewrite Hr. cbn [mbind option_bind]. pose proof (ok_request s Hok p r Hr) as [Hs Hc].
  destruct (ExecuteOrCancelled_request r func) as [r' b] eqn:E.
  assert (Hr' : own r' = own r /\ request_ok r').
  { unfold ExecuteOrCancelled_request in E. destruct (IsCancelled (context_ r)) eqn:Ec; injection E as <- <-; [by split|].
    split; [done|]. split; cbn; [done|]. intros H1 H2. by specialize (Hc H1 H2). }
  destruct Hr' as [Ho Hr']. eexists _, b. split; [reflexivity|]. split.
  - eapply ok_update_same; try done. rewrite Ho. by left.
  - cbn [heap_]. rewrite !app_nil_r. eapply held_same; [done|]. by rewrite Ho.
Qed.

(** The request is taken out of a map in which its URL led to it. *)
Lemma take_request_ok s id url : ok s -> exists s' (o : option nat), take_request s id url = Some (s', o) /\
  match o with
  | None => s' = s
  | Some p => is_Some (heap_ s !! p) /\ heap_ s' = heap_ s /\ (forall q, pointed s' q -> pointed s q) /\
      (forall q, pointed s q -> q <> p -> pointed s' q)
  end.
Proof.
  intros Hok. unfold take_request.
  assert (Hc : exists s' (o : option nat), match cancelled_requests_ s !! url with
    | Some p => i ← http_request_id_ <$> heap_ s !! p;
        Some (if id =? i then (mkRequests (heap_ s) (pending_requests_ s) (delete url (cancelled_requests_ s)), Some p) else (s, None))
    | None => Some (s, None) end = Some (s', o) /\
    match o with None => s' = s | Some p => is_Some (heap_ s !! p) /\ heap_ s' = heap_ s /\ (forall q, pointed s' q -> pointed s q) /\
      (forall q, pointed s q -> q <> p -> pointed s' q) end).
  { destruct (cancelled_requests_ s !! url) as [p|] eqn:E; [|by exists s, None].
    destruct (ok_pointed s Hok p) as [r Hr]; [right; by exists url|]. rewrite Hr. cbn [fmap option_fmap option_map mbind option_bind].
    destruct (id =? _); [|by exists s, None]. eexists _, _. split; [reflexivity|]. cbn [heap_]. split_and!; [by exists r|done|..].
    - intros q [H|[u H]]; [by left|right]. cbn in H. apply lookup_delete_Some in H as [_ H]. by exists u.
    - intros q [H|[u H]] Hn; [by left|right]. exists u. cbn. rewrite lookup_delete_ne; [done|]. intros ->. rewrite E in H. by injection H as <-. }
  destruct (pending_requests_ s !! url) as [p|] eqn:E; [|exact Hc].
  destruct (ok_pointed s Hok p) as [r Hr]; [left; by exists url|]. rewrite Hr. cbn [fmap option_fmap option_map mbind option_bind].
  destruct (id =? _); [|exact Hc]. eexists _, _. split; [reflexivity|]. cbn [heap_]. split_and!; [by exists r|done|..].
  - intros q [[u H]|H]; [left|by right]. cbn in H. apply lookup_delete_Some in H as [_ H]. by exists u.
  - intros q [[u H]|H] Hn; [left|by right]. exists u. cbn. rewrite lookup_delete_ne; [done|]. intros ->. rewrite E in H. by injection H as <-.
Qed.

Lemma OnRequestCompleted_accounted s id url response : ok s ->
  exists s' calls, OnRequestCompleted s id url response = Some (s', calls) /\ accounted s s' [] (calls.*1).
Proof.
  intros Hok. unfold OnRequestCompleted. destruct (take_request_ok s id url Hok) as (s1 & o & -> & Ho). cbn [mbind option_bind].
  destruct o as [p|]; [|subst s1; exists s, []; done]. destruct Ho as ([r Hr] & Hh & Hback & Hkeep). rewrite Hh, Hr. cbn [mbind option_bind].
  destruct (Complete_own r response (ok_request s Hok p r Hr)) as [Hcalls Hown].
  destruct (Complete r response) as [r' calls] eqn:Ec. cbn [fst snd] in *. eexists _, calls. split; [reflexivity|]. split.
  - eapply (ok_update s _ p r r'); try done; cbn.
    + injection Ec as <- <-. split; [constructor|done].
    + intros q Hq. left. by apply Hback.
  - cbn [heap_]. rewrite Hcalls, (held_update _ p r r' Hr), Hown, app_nil_r. done.
Qed.

Lemma perform_accounted s o : ok s -> operation_ok s o ->
  exists s' calls, perform s o = Some (s', calls) /\ accounted s s' (appended o) (calls.*1).
Proof.
  intros Hok Ho. destruct o as [url c|url id| |p func|id url response]; cbn [perform appended].
  - destruct (Append_accounted s url c Hok Ho) as (s' & id & p & -> & H). by exists s', [].
  - destruct (Cancel_accounted s url id Hok Ho) as (s' & ret & -> & H). by exists s', [].
  - exists (CancelAll s), []. split; [done|]. by apply CancelAll_accounted.
  - destruct (Execute_accounted s p func Hok Ho) as (s' & b & -> & H). by exists s', [].
  - by apply OnRequestCompleted_accounted.
Qed.

Fixpoint operations_ok s (os : list operation) : Prop :=
  match os with
  | [] => True
  | o :: os => operation_ok s o /\ match perform s o with Some (s', _) => operations_ok s' os | None => False end
  end.

Lemma perform_all_accounted s os : ok s -> operations_ok s os ->
  exists s' calls, perform_all s os = Some (s', calls) /\ accounted s s' (os ≫= appended) (calls.*1).
Proof.
  revert s. induction os as [|o os IH]; intros s Hok; cbn [operations_ok perform_all]; [intros _; by exists s, []|].
  intros [Ho Hos]. destruct (perform_accounted s o Hok Ho) as (s1 & calls & E & Hok1 & H1). rewrite E in Hos |- *. cbn [mbind option_bind].
  destruct (IH s1 Hok1 Hos) as (s2 & calls2 & -> & Hok2 & H2). cbn [mbind option_bind]. exists s2, (calls ++ calls2). split; [done|]. split; [done|].
  rewrite fmap_app. cbn [mbind list_bind]. rewrite (Permutation_app_comm (calls.*1)), !app_assoc. rewrite H2.
  rewrite <- app_assoc, (Permutation_app_comm (os ≫= appended)), app_assoc. by rewrite H1.
Qed.

(** The response goes to every caller that still waits, unless the request was
    cancelled; whoever cancelled gets a cancelled response; the URL is free again. *)
Theorem OnRequestCompleted_answers s url p r response : ok s -> pending_requests_ s !! url = Some p -> heap_ s !! p = Some r ->
  exists s' cancelled_answer, status cancelled_answer = kCancelledStatus /\
    OnRequestCompleted s (http_request_id_ r) url response =
      Some (s', ((fun c => (snd c, answer r response)) <$> callbacks_ r) ++ ((fun c => (c, cancelled_answer)) <$> cancelled_callbacks_ r)) /\
    pending_requests_ s' !! url = None /\ cancelled_requests_ s' = cancelled_requests_ s /\
    (forall url', url' <> url -> pending_requests_ s' !! url' = pending_requests_ s !! url') /\
    (exists r', heap_ s' !! p = Some r' /\ own r' = [] /\ signaled_ r' = true).
Proof.
  intros Hok Hp Hr. destruct (Complete_calls r response (ok_request s Hok p r Hr)) as (x & Hx & Hc).
  unfold OnRequestCompleted, take_request. rewrite Hp, Hr. cbn [fmap option_fmap option_map mbind option_bind]. rewrite Z.eqb_refl.
  cbn [mbind option_bind heap_]. rewrite Hr. cbn [mbind option_bind]. destruct (Complete r response) as [r' calls] eqn:E. cbn [snd] in Hc. subst calls.
  eexists _, x. split; [done|]. split; [reflexivity|]. cbn [pending_requests_ cancelled_requests_ heap_]. rewrite lookup_delete_eq, lookup_insert_eq.
  split_and!; try done; [intros u Hu; by rewrite lookup_delete_ne|]. exists r'. injection E as <- _. done.
Qed.

End requests.

(** ** Any sequence of operations *)

Section any_operations.
Context {C : Type}.
Abbreviation PendingUrlRequest := (PendingUrlRequest C).
Abbreviation PendingUrlRequests := (PendingUrlRequests C).
Abbreviation operation := (operation C).
(** The maps lead to requests, and these are well formed. *)
Abbreviation linked := (ok (C := C) (fun _ => True)).
Implicit Types (r : PendingUrlRequest) (s : PendingUrlRequests) (o : operation).

Lemma emplace_taken (l : list (nat * C)) k c c' : sorted_keys l -> find_callback l k = Some c' -> emplace l k c = l.
Proof.
  unfold sorted_keys, find_callback. induction l as [|[k' d] l IH]; cbn [emplace fmap list_fmap fst List.find option_fmap option_map]; [done|].
  intros [Hl Hk]%StronglySorted_inv. destruct (Nat.eqb_spec k k') as [->|Hn]; [by rewrite Nat.ltb_irrefl|].
  intros Hf. destruct (Nat.ltb_spec k k'); [|by rewrite (IH Hl Hf)]. exfalso. apply fmap_Some in Hf as ([k2 d2] & Hf & _).
  apply List.find_some in Hf as [Hin%list_elem_of_In Ek]. apply Nat.eqb_eq in Ek. cbn in Ek. subst k2. rewrite Forall_forall in Hk.
  apply (list_elem_of_fmap_2 fst) in Hin. apply Hk in Hin. cbn in Hin. lia.
Qed.

Lemma Append_callback_sub r c : request_ok r -> own (Append_callback r c).1 ⊆+ c :: own r.
Proof.
  intros [Hs _]. destruct (find_callback (callbacks_ r) (length (callbacks_ r))) as [c'|] eqn:E.
  - unfold own, Append_callback. cbn [fst callbacks_ cancelled_callbacks_]. rewrite (emplace_taken _ _ _ _ Hs E). by apply submseteq_cons.
  - by rewrite (Append_callback_own r c E).
Qed.

Lemma linked_update s s' p r' : linked s -> heap_ s' = <[p := r']> (heap_ s) -> request_ok r' ->
  (forall q, pointed s' q -> pointed s q \/ q = p) -> linked s'.
Proof.
  intros [H1 H2 _] Hh Hr' Hback. split; rewrite ?Hh; [| |by right].
  - intros q [Hq| ->]%Hback; rewrite lookup_insert_is_Some'; [right; by apply H1|by left].
  - intros q r [[_ <-]|[_ Hq]]%lookup_insert_Some; [done|by apply (H2 q)].
Qed.

Lemma held_sub (h : gmap nat PendingUrlRequest) p r r' l : h !! p = Some r -> own r' ⊆+ l ++ own r -> held (<[p := r']> h) ⊆+ l ++ held h.
Proof.
  intros Hr Ho. rewrite (held_split h p r Hr), <- insert_delete_eq, held_insert by apply lookup_delete_eq. rewrite app_assoc. by apply submseteq_skips_r.
Qed.

Lemma perform_linked s o s' calls : linked s -> perform s o = Some (s', calls) ->
  linked s' /\ calls.*1 ++ held (heap_ s') ⊆+ appended o ++ held (heap_ s).
Proof.
  intros Hok. destruct o as [url c|url id| |p func|id url response]; cbn [perform appended]; intros E.
  - unfold Append in E. destruct (get_request s url) as [s1 p] eqn:Eg. destruct (get_request_ok _ _ _ _ _ Hok Eg) as (Hok1 & Hp & [r Hr] & Hh).
    rewrite Hr in E. cbn [mbind option_bind] in E. pose proof (ok_request _ _ Hok1 p r Hr) as Hro. pose proof (Append_callback_ok r c Hro) as Hr'.
    pose proof (Append_callback_sub r c Hro) as Ho. destruct (Append_callback r c) as [r' id]. cbn [fst] in *. injection E as <- <-. cbn [heap_]. split.
    + by eapply (linked_update s1); [..|by left].
    + rewrite <- Hh. by apply (held_sub _ p r r' [c]).
  - unfold Cancel in E. destruct (pending_requests_ s !! url) as [p|] eqn:Ep; [|by injection E as <- <-].
    destruct (ok_pointed _ s Hok p) as [r Hr]; [left; by exists url|]. rewrite Hr in E. cbn [mbind option_bind] in E.
    pose proof (Cancel_callback_own r id (ok_request _ s Hok p r Hr)) as Ho. pose proof (Cancel_callback_ok r id (ok_request _ s Hok p r Hr)) as Hr'.
    destruct (Cancel_callback r id) as [r' ret]. cbn [fst] in *.
    assert (Hs' : heap_ s' = <[p := r']> (heap_ s) /\ calls = [] /\ forall q, pointed s' q -> pointed s q \/ q = p).
    { destruct (IsCancelled (context_ r')); injection E as <- <-; (split; [done|]); (split; [done|]); [|by left].
      intros q [[u H]|[u H]]; cbn in H; [apply lookup_delete_Some in H as [_ H]; left; left; by exists u|].
      destruct (cancelled_requests_ s !! url); [left; right; by exists u|].
      apply lookup_insert_Some in H as [[_ ->]|[_ H]]; [by right|left; right; by exists u]. }
    destruct Hs' as (Hh & -> & Hback). split; [by eapply linked_update|]. rewrite Hh. cbn. by rewrite (held_same _ p r r' Hr Ho).
  - injection E as <- <-. destruct (CancelAll_accounted _ s Hok) as [H1 H2]. split; [done|]. rewrite !app_nil_r in H2. cbn [fmap list_fmap app]. by rewrite H2.
  - assert (Hp : is_Some (heap_ s !! p)) by (unfold Execute in E; destruct (heap_ s !! p); [by eexists|done]).
    destruct (Execute_accounted _ s p func Hok Hp) as (s1 & b & E1 & H1 & H2). rewrite E1 in E. injection E as <- <-. split; [done|].
    rewrite !app_nil_r in H2. cbn [fmap list_fmap app]. by rewrite H2.
  - destruct (OnRequestCompleted_accounted _ s id url response Hok) as (s1 & calls1 & E1 & H1 & H2). rewrite E1 in E. injection E as <- <-. split; [done|].
    rewrite app_nil_r in H2. rewrite (Permutation_app_comm calls1.*1). by rewrite H2.
Qed.

Lemma perform_all_linked os s s' calls : linked s -> perform_all s os = Some (s', calls) ->
  linked s' /\ calls.*1 ++ held (heap_ s') ⊆+ (os ≫= appended) ++ held (heap_ s).
Proof.
  revert s calls. induction os as [|o os IH]; intros s calls Hok; cbn [perform_all]; [by intros [= <- <-]|].
  destruct (perform s o) as [[s1 c1]|] eqn:E; [|done]. cbn [mbind option_bind]. destruct (perform_all s1 os) as [[s2 c2]|] eqn:E2; [|done].
  cbn [mbind option_bind]. intros [= <- <-]. destruct (perform_linked s o s1 c1 Hok E) as [Hok1 H1]. destruct (IH s1 c2 Hok1 E2) as [Hok2 H2]. split; [done|].
  rewrite fmap_app, <- app_assoc. cbn [mbind list_bind]. transitivity (c1.*1 ++ (os ≫= appended) ++ held (heap_ s1)); [by apply submseteq_skips_l|].
  rewrite (Permutation_app_comm (appended o)), !app_assoc, (Permutation_app_comm c1.*1), <- !app_assoc. by apply submseteq_skips_l.
Qed.
End any_operations.

(** Every request is in a map. *)
Section all_pointed.
Context {C : Type}.
Abbreviation PendingUrlRequests := (PendingUrlRequests C).
Abbreviation operation := (operation C).
Abbreviation ok := (ok (C := C) (fun _ => False)).
Implicit Types (s : PendingUrlRequests) (os : list operation).

Lemma held_none s : ok s -> Size s = 0%nat -> held (heap_ s) = [].
Proof.
  intros Hok Hs. unfold Size in Hs.
  assert (Hp : pending_requests_ s = ∅) by (apply map_size_empty_inv; lia).
  assert (Hc : cancelled_requests_ s = ∅) by (apply map_size_empty_inv; lia).
  assert (Hn : forall e, e ∈ map_to_list (heap_ s) -> own e.2 = []).
  { intros [p r] He%elem_of_map_to_list. destruct (own r) eqn:E; [done|]. destruct (ok_owned _ s Hok p r He) as [[[u H]|[u H]]|[]]; [by rewrite E|..].
    - by rewrite Hp, lookup_empty in H.
    - by rewrite Hc, lookup_empty in H. }
  unfold held. revert Hn. generalize (map_to_list (heap_ s)). induction l as [|e l IH]; intros Hn; [done|].
  cbn. rewrite (Hn e), IH; [done| |left]. intros e' He'. apply Hn. by right.
Qed.

(** C19: however appending, cancelling and completing follow each other, no callback is
    called twice, and none that is still held has been called.  When no callback is
    dropped, every callback that was given to the client is called exactly once by the
    time no request is left.  Callbacks are dropped in two situations, both excluded by
    [operations_ok] and shown by callbacks_lost: one is appended to a request of which an
    earlier callback was cancelled, so that its id is one that still waits; or a request
    is cancelled while a cancelled one with the same URL is not completed. *)
Theorem callbacks_called_once os :
  (forall s calls, perform_all PendingUrlRequests_new os = Some (s, calls) -> calls.*1 ++ held (heap_ s) ⊆+ os ≫= appended) /\
  (operations_ok PendingUrlRequests_new os ->
    exists s calls, perform_all PendingUrlRequests_new os = Some (s, calls) /\
      calls.*1 ++ held (heap_ s) ≡ₚ os ≫= appended /\
      (Size s = 0%nat -> calls.*1 ≡ₚ os ≫= appended)).
Proof.
  assert (Hnew : held (C := C) (heap_ PendingUrlRequests_new) = []) by (unfold held; cbn [heap_ PendingUrlRequests_new]; by rewrite map_to_list_empty).
  split.
  - intros s calls E. destruct (perform_all_linked os _ s calls (ok_new _) E) as [_ H]. by rewrite Hnew, app_nil_r in H.
  - intros H. destruct (perform_all_accounted (fun _ => False) _ os (ok_new _) H) as (s & calls & E & Hok & Hp). exists s, calls. split; [done|].
    rewrite Hnew in Hp. cbn [app] in Hp. rewrite (Permutation_app_comm (held _)) in Hp. split; [done|].
    intros Hs. by rewrite (held_none s Hok Hs), app_nil_r in Hp.
Qed.
End all_pointed.

(** ** Runs *)

Definition response_200 : HttpResponse := HttpResponse_of 200 (chars "data") [].

(** Two callers share a request and the first one cancels; the response comes. *)
Definition run_cancel_one : list (operation nat) :=
  [OpAppend (chars "u") 1%nat; OpExecute 0 (7, Some 7); OpAppend (chars "u") 2%nat; OpCancel (chars "u") 0;
   OpAppend (chars "v") 3%nat; OpCompleted 7 (chars "u") response_200; OpCompleted 0 (chars "v") response_200].

Lemma callbacks_called_once_witness : exists s calls, perform_all PendingUrlRequests_new run_cancel_one = Some (s, calls) /\
  calls.*1 ++ held (heap_ s) ≡ₚ run_cancel_one ≫= appended /\
  (Size s = 0%nat -> calls.*1 ≡ₚ run_cancel_one ≫= appended).
Proof.
  apply (callbacks_called_once run_cancel_one). vm_compute.
  repeat split; try discriminate; try (by eexists); intros p r; (intros [= <-] [= <-]; done) || done.
Defined.

Example run_cancel_one_calls :
  (fun x => (x.2, Size x.1)) <$> perform_all PendingUrlRequests_new run_cancel_one
  = Some ([(2%nat, response_200); (1%nat, GetCancelledResponse); (3%nat, response_200)], 0%nat).
Proof. vm_compute. reflexivity. Qed.

(** The state in which the first callers wait. *)
Definition two_waiting : PendingUrlRequests nat :=
  match perform_all PendingUrlRequests_new (take 4 run_cancel_one) with Some (s, _) => s | None => PendingUrlRequests_new end.

Lemma two_waiting_ok : ok (fun _ => False) two_waiting.
Proof.
  assert (H : operations_ok PendingUrlRequests_new (take 4 run_cancel_one)).
  { vm_compute. repeat split; try discriminate; try (by eexists); intros p r; (intros [= <-] [= <-]; done) || done. }
  destruct (perform_all_accounted (fun _ => False) _ _ (ok_new _) H) as (s & calls & E & Hok & _). unfold two_waiting. by rewrite E.
Qed.

Lemma OnRequestCompleted_answers_witness : exists s' cancelled_answer, status cancelled_answer = kCancelledStatus /\
  OnRequestCompleted two_waiting 7 (chars "u") response_200 = Some (s', [(2%nat, response_200); (1%nat, cancelled_answer)]) /\
  pending_requests_ s' !! chars "u" = None.
Proof.
  destruct (OnRequestCompleted_answers _ two_waiting (chars "u") 0%nat
    (mkRequest 7 false (mkImpl (Some 7) false) [(1%nat, 2%nat)] [1%nat]) response_200 two_waiting_ok) as (s' & x & Hx & E & Hp & _).
  - vm_compute. reflexivity.
  - vm_compute. reflexivity.
  - exists s', x. split; [exact Hx|]. split; [exact E|exact Hp].
Defined.

(** A callback can be lost.  A callback that is appended after another one was
    cancelled gets the id of one that waits, and is dropped; a request that is cancelled
    while a cancelled one with its URL is not completed is forgotten with its callbacks.
    In both runs every request is completed and the third and the second callback are
    never called. *)
Theorem callbacks_lost :
  let appended_after_cancel := [OpAppend (chars "u") 1%nat; OpExecute 0 (7, Some 7); OpAppend (chars "u") 2%nat;
    OpCancel (chars "u") 0; OpAppend (chars "u") 3%nat; OpCompleted 7 (chars "u") response_200] in
  let cancelled_twice := [OpAppend (chars "u") 1%nat; OpExecute 0 (7, Some 7); OpCancel (chars "u") 0;
    OpAppend (chars "u") 2%nat; OpExecute 1 (8, Some 8); OpCancel (chars "u") 0;
    OpCompleted 7 (chars "u") response_200; OpCompleted 8 (chars "u") response_200] in
  (fun x => (x.2, Size x.1)) <$> perform_all PendingUrlRequests_new appended_after_cancel
    = Some ([(2%nat, response_200); (1%nat, GetCancelledResponse)], 0%nat) /\
  (fun x => (x.2, Size x.1)) <$> perform_all PendingUrlRequests_new cancelled_twice
    = Some ([(1%nat, GetCancelledResponse)], 0%nat).
Proof. vm_compute. done. Qed.
