(* ===== verification/OlpClient.v ===== *)
(** * The HTTP client

    Model of [OlpClient] (src/client/OlpClient.cpp) and of its retry settings
    (include/olp/core/client/RetrySettings.h, src/client/RetrySettings.cpp,
    include/olp/core/client/BackdownStrategy.h): how requests are built, the blocking
    [CallApi] with its retries.  The asynchronous [CallApi] is in OlpClientAsync.v.

    The network is not part of the model: what it answers, how long it takes and when
    another thread cancels are arguments.  Times are in milliseconds.  The build without
    OLP_SDK_NETWORK_IOS_BACKGROUND_DOWNLOAD is modelled. *)

From S2P Require Import Prelude TaskContext Http.
Import CancellationContext Network Response.

(** ** Settings *)

Module Retry.

(** [DefaultRetryCondition] *)
Definition DefaultRetryCondition (r : HttpResponse) : bool :=
  if ((500 <=? status r) && (status r <=? 599)) || (status r =? 429) then true
  else (status r =? code IO_ERROR) || (status r =? code OFFLINE_ERROR) || (status r =? code TIMEOUT_ERROR) ||
       (status r =? code NETWORK_OVERLOAD_ERROR).

(** [timeout] is in seconds; the strategy gets the initial period and the number of
    retries. *)
Record RetrySettings := mkRetrySettings {
  max_attempts : Z;
  timeout : Z;
  connection_timeout : Z;
  transfer_timeout : Z;
  initial_backdown_period : Z;
  backdown_strategy : option (Z -> Z -> Z);
  retry_condition : HttpResponse -> bool }.

Definition max_wait_time (s : RetrySettings) : Z := 1000 * timeout s.

Definition CalculateNextWaitTime (settings : RetrySettings) (current_try : Z) : Z :=
  match backdown_strategy settings with
  | Some strategy => strategy (initial_backdown_period settings) current_try
  | None => 0
  end.

(** [EqualJitterBackdownStrategy] with a random number of which [dist(0, b)] is a value
    from 0 to [b]. *)
Definition EqualJitterBackdownStrategy (cap : Z) (dist : Z -> Z) (initial_backdown_period retry_count : Z) : Z :=
  let retry_count := Z.min retry_count 30 in
  let exponential_wait_time := s64 (initial_backdown_period * Z.shiftl 1 retry_count) in
  let temp := Z.min cap exponential_wait_time in
  Z.quot temp 2 + dist (Z.quot temp 2).

(** The wait times of the strategy are from half of the exponential time, or of the
    cap where that is less, up to all of it, and nothing overflows. *)
Theorem EqualJitter_bounds cap dist initial retry_count :
  0 <= cap -> 0 <= initial < 2 ^ 31 -> 0 <= retry_count -> (forall b, 0 <= b -> 0 <= dist b <= b) ->
  let temp := Z.min cap (initial * 2 ^ Z.min retry_count 30) in
  temp / 2 <= EqualJitterBackdownStrategy cap dist initial retry_count <= temp /\ temp < 2 ^ 61.
Proof.
  intros Hc Hi Hr Hd temp. unfold EqualJitterBackdownStrategy. rewrite Z.shiftl_1_l.
  assert (Hp : 1 <= 2 ^ Z.min retry_count 30 <= 2 ^ 30).
  { split; [|apply Z.pow_le_mono_r; lia]. pose proof (Z.pow_pos_nonneg 2 (Z.min retry_count 30)). lia. }
  assert (Hb : 0 <= initial * 2 ^ Z.min retry_count 30 < 2 ^ 61) by nia.
  assert (Hs : s64 (initial * 2 ^ Z.min retry_count 30) = initial * 2 ^ Z.min retry_count 30).
  { unfold s64, u64. rewrite Z.mod_small by lia. by btrue (initial * 2 ^ Z.min retry_count 30 <? 2 ^ 63). }
  rewrite Hs. fold temp. assert (Ht : 0 <= temp < 2 ^ 61) by lia.
  rewrite Z.quot_div_nonneg by lia. pose proof (Hd (temp / 2) ltac:(apply Z.div_pos; lia)).
  pose proof (Z.mul_div_le temp 2). split; lia.
Qed.

Lemma EqualJitter_bounds_witness : 500 <= EqualJitterBackdownStrategy 1000 (fun b => b) 200 3 <= 1000.
Proof. apply (EqualJitter_bounds 1000 (fun b => b) 200 3); lia. Defined.
End Retry.
Import Retry.

Definition StatusSuccess (status : Z) : bool := (0 <=? status) && (status <? 400).

(** ** Requests *)

Module Requests.
Section requests.
(** [http::kOlpSdkUserAgent], made of macros of the build. *)
Context (kOlpSdkUserAgent : str).

Definition kUserAgentHeader : str := chars "User-Agent".
Definition kContentTypeHeader : str := chars "Content-Type".
Definition kAuthorizationHeader : str := chars "Authorization".
Definition kBearer : str := chars "Bearer".
Definition kApiKeyParam : str := chars "apiKey=".

(** [std::tolower] for ASCII. *)
Definition tolower (c : ascii) : ascii := if (65 <=? ord c) && (ord c <=? 90) then chr (ord c + 32) else c.

Definition CaseInsensitiveCompare (str1 str2 : str) : bool :=
  (length str1 =? length str2)%nat &&
  forallb (fun '(c1, c2) => (ord c1 =? ord c2) || (ord (tolower c1) =? ord (tolower c2))) (combine str1 str2).

Definition GetHttpVerb (verb : str) : HttpVerb :=
  if bool_decide (verb = chars "GET") then GET
  else if bool_decide (verb = chars "PUT") then PUT
  else if bool_decide (verb = chars "POST") then POST
  else if bool_decide (verb = chars "DELETE") then DEL
  else if bool_decide (verb = chars "OPTIONS") then OPTIONS
  else if bool_decide (verb = chars "HEAD") then HEAD
  else if bool_decide (verb = chars "PATCH") then PATCH
  else GET.

(** [base.find(part) != npos] *)
Fixpoint contains (part l : str) : bool :=
  Url.starts_with part l || match l with [] => false | _ :: l => contains part l end.

Definition ValidateBaseUrl (base_url : str) : bool :=
  bool_decide (base_url = []) || (contains (chars "http://") base_url || contains (chars "https://") base_url).

Definition with_headers (headers : Headers) (r : NetworkRequest) : NetworkRequest :=
  foldl (fun r h => WithHeader h.1 h.2 r) r headers.

(** The loop over [header_params]: the request and [custom_user_agent]. *)
Definition add_header_params (header_params : Headers) (r : NetworkRequest) (custom_user_agent : str) : NetworkRequest * str :=
  foldl (fun '(r, custom_user_agent) header =>
           if CaseInsensitiveCompare header.1 kUserAgentHeader
           then (r, custom_user_agent ++ header.2 ++ chars " ")
           else (WithHeader header.1 header.2 r, custom_user_agent))
    (r, custom_user_agent) header_params.

(** What both [CallApi] do to the headers of a request. *)
Definition add_headers (default_headers_ header_params : Headers) (content_type : str) (r : NetworkRequest) : NetworkRequest :=
  let r := with_headers default_headers_ r in
  let '(r, custom_user_agent) := add_header_params header_params r [] in
  let r := WithHeader kUserAgentHeader (custom_user_agent ++ kOlpSdkUserAgent) r in
  match content_type with [] => r | _ => WithHeader kContentTypeHeader content_type r end.

Definition CreateRequest (base_url : str) (default_headers_ : Headers) (path method : str) (query_params : Url.params)
  (header_params : Headers) (post_body : option str) (content_type : str) : NetworkRequest :=
  WithBody post_body
    (add_headers default_headers_ header_params content_type
       (WithVerb (GetHttpVerb method) (NetworkRequest_new (Url.Construct base_url path query_params)))).

(** The request of the blocking [CallApi]. *)
Definition blocking_request (base_url : str) (default_headers_ : Headers) (path method : str) (query_params : Url.params)
  (header_params : Headers) (post_body : option str) (content_type : str) (network_settings : NetworkSettings) : NetworkRequest :=
  add_headers default_headers_ header_params content_type
    (WithSettings network_settings (WithBody post_body
       (WithVerb (GetHttpVerb method) (NetworkRequest_new (Url.Construct base_url path query_params))))).

(** The providers by what they give: an API key, and a token or an error. *)
Record AuthenticationSettings := mkAuthentication {
  api_key_provider : option str;
  token_provider : option (str + ApiError) }.

Definition AddBearer (authentication_settings : option AuthenticationSettings) (query_empty : bool) (request : NetworkRequest)
  : NetworkRequest * option ApiError :=
  match authentication_settings with
  | None => (request, None)
  | Some settings =>
      match api_key_provider settings with
      | Some api_key =>
          (WithUrl (url_ request ++ (if query_empty then chars "?" else chars "&") ++ kApiKeyParam ++ api_key) request, None)
      | None =>
          match token_provider settings with
          | None => (request, None)
          | Some (inr error) => (request, Some error)
          | Some (inl []) => (request, Some (ApiError_of_status (code AUTHORIZATION_ERROR) (chars "Invalid bearer token.")))
          | Some (inl token) => (WithHeader kAuthorizationHeader (kBearer ++ chars " " ++ token) request, None)
          end
      end
  end.

(** The response that both [CallApi] make of an error of [AddBearer]. *)
Definition bearer_error_response (error : ApiError) : HttpResponse :=
  let status := http_status_code error in
  let status := if status =? code UNKNOWN_ERROR then client_code (api_error_code error) else status in
  HttpResponse_of status (message error) [].

(** *** Theorems *)

Definition is_user_agent (h : str * str) : bool := CaseInsensitiveCompare h.1 kUserAgentHeader.

Definition joined_user_agent (header_params : Headers) : str :=
  concat ((fun h => h.2 ++ chars " ") <$> List.filter is_user_agent header_params).

Lemma with_headers_headers headers r : headers_ (with_headers headers r) = headers_ r ++ headers.
Proof.
  unfold with_headers. revert r. induction headers as [|[n v] l IH]; intros r; cbn [foldl fst snd]; [by rewrite app_nil_r|].
  rewrite IH. cbn. by rewrite <- app_assoc.
Qed.

Lemma with_headers_rest headers r :
  url_ (with_headers headers r) = url_ r /\ verb_ (with_headers headers r) = verb_ r /\ body_ (with_headers headers r) = body_ r.
Proof. unfold with_headers. revert r. by induction headers as [|[n v] l IH]; intros r; [|apply (IH (WithHeader n v r))]. Qed.

Lemma add_header_params_spec header_params r agent :
  add_header_params header_params r agent =
    (with_headers (List.filter (fun h => negb (is_user_agent h)) header_params) r, agent ++ joined_user_agent header_params).
Proof.
  unfold add_header_params, joined_user_agent. revert r agent.
  induction header_params as [|[n v] l IH]; intros r agent; cbn [foldl List.filter fst snd]; [by rewrite app_nil_r|].
  change (is_user_agent (n, v)) with (CaseInsensitiveCompare n kUserAgentHeader).
  destruct (CaseInsensitiveCompare n kUserAgentHeader); cbn [negb]; rewrite IH; [|done].
  cbn [fmap list_fmap concat snd]. by rewrite <- !app_assoc.
Qed.

Lemma add_headers_spec default_headers_ header_params content_type r :
  let r' := add_headers default_headers_ header_params content_type r in
  headers_ r' = headers_ r ++ default_headers_ ++ List.filter (fun h => negb (is_user_agent h)) header_params ++
    [(kUserAgentHeader, joined_user_agent header_params ++ kOlpSdkUserAgent)] ++
    match content_type with [] => [] | _ => [(kContentTypeHeader, content_type)] end /\
  url_ r' = url_ r /\ verb_ r' = verb_ r /\ body_ r' = body_ r.
Proof.
  unfold add_headers. rewrite add_header_params_spec. cbn [app].
  set (l := List.filter _ _). destruct (with_headers_rest default_headers_ r) as (U1 & V1 & B1).
  destruct (with_headers_rest l (with_headers default_headers_ r)) as (U2 & V2 & B2).
  assert (H : headers_ (with_headers l (with_headers default_headers_ r)) = headers_ r ++ default_headers_ ++ l)
    by by rewrite !with_headers_headers, <- app_assoc.
  destruct content_type; cbn; rewrite ?H, ?U2, ?V2, ?B2, <- ?app_assoc; done.
Qed.

Lemma filter_negb {A} (f : A -> bool) l : List.filter f (List.filter (fun x => negb (f x)) l) = [].
Proof. induction l as [|x l IH]; [done|]. cbn. destruct (f x) eqn:E; cbn; [done|]. by rewrite E. Qed.

(** The request asks for the URL of the base, the path and the parameters, with the
    verb and the body of the call; all headers of the call are in it in their order, but
    its user agents, which are joined into one header that ends with the SDK's own.  That
    is the only user agent, when the default headers have none. *)
Theorem CreateRequest_spec base_url default_headers_ path method query_params header_params post_body content_type :
  forallb (fun h => negb (is_user_agent h)) default_headers_ = true ->
  let r := CreateRequest base_url default_headers_ path method query_params header_params post_body content_type in
  url_ r = Url.Construct base_url path query_params /\ verb_ r = GetHttpVerb method /\ body_ r = post_body /\
  List.filter is_user_agent (headers_ r) = [(kUserAgentHeader, joined_user_agent header_params ++ kOlpSdkUserAgent)] /\
  (exists after, headers_ r = default_headers_ ++ List.filter (fun h => negb (is_user_agent h)) header_params ++ after).
Proof.
  intros Hd r. unfold r, CreateRequest. set (r0 := WithVerb _ _).
  destruct (add_headers_spec default_headers_ header_params content_type r0) as (Hh & Hu & Hv & _).
  cbn [url_ verb_ body_ headers_ WithBody]. rewrite Hh, Hu, Hv. cbn [headers_ r0 WithVerb NetworkRequest_new app].
  split_and!; try done.
  - rewrite !List.filter_app, filter_negb. rewrite (filter_none is_user_agent default_headers_).
    + cbn [app List.filter]. change (is_user_agent (kUserAgentHeader, _)) with true. cbv iota. by destruct content_type.
    + intros h Hin. apply forallb_forall with (x := h) in Hd; [by apply negb_true_iff in Hd|by apply list_elem_of_In].
  - by eexists.
Qed.

(** The default headers take no part in the joining: a user agent among them is a
    second header of that name. *)
Theorem default_user_agent_twice :
  length (List.filter is_user_agent (headers_
    (CreateRequest (chars "http://h") [(chars "user-agent", chars "app")] (chars "/p") (chars "GET") [] [] None []))) = 2%nat.
Proof. reflexivity. Qed.

(** An error of the token provider that is not an HTTP status becomes a response
    with a status that counts as a success, and that does not tell the error. *)
Theorem bearer_error_lost request : exists error,
  AddBearer (Some (mkAuthentication None (Some (inr error)))) true request = (request, Some error) /\
  api_error_code error = RequestTimeout /\
  StatusSuccess (status (bearer_error_response error)) = true /\
  api_error_code (ApiError_of_status (status (bearer_error_response error)) (response (bearer_error_response error))) = Unknown.
Proof. by exists (ApiError_of_code RequestTimeout (chars "timed out") false). Qed.
End requests.

Lemma CreateRequest_spec_witness :
  List.filter is_user_agent (headers_ (CreateRequest (chars "SDK") (chars "http://h") [(chars "Accept", chars "json")] (chars "/p") (chars "GET")
    [] [(chars "user-AGENT", chars "a"); (chars "X", chars "y"); (chars "User-Agent", chars "b")] None []))
  = [(kUserAgentHeader, chars "a b SDK")].
Proof.
  exact (proj1 (proj2 (proj2 (proj2 (CreateRequest_spec (chars "SDK") (chars "http://h") [(chars "Accept", chars "json")] (chars "/p") (chars "GET")
    [] [(chars "user-AGENT", chars "a"); (chars "X", chars "y"); (chars "User-Agent", chars "b")] None [] eq_refl))))).
Defined.
End Requests.

(** ** The blocking call *)

Module Blocking.

Definition kCancelledErrorResponse : NetworkResponse := mkNetworkResponse 0 (code CANCELLED_ERROR) (chars "Operation Cancelled.") 0 0.
Definition kTimeoutErrorResponse : NetworkResponse := mkNetworkResponse 0 (code TIMEOUT_ERROR) (chars "Network request timed out.") 0 0.

Definition GetStatistics (r : NetworkResponse) : NetworkStatistics := mkStatistics (bytes_uploaded_ r) (bytes_downloaded_ r).
Definition ToHttpResponse (r : NetworkResponse) : HttpResponse :=
  SetNetworkStatistics (GetStatistics r) (HttpResponse_of (status_ r) (error_ r) []).
Definition ToHttpResponse_outcome (o : SendOutcome) : HttpResponse :=
  HttpResponse_of (code (error_code_ o)) (ErrorCodeToString (error_code_ o)) [].

(** What happens around one request: another thread cancels after so many parts of the
    sleep before it, or while the call waits, or when it has the response; the network
    takes the request or not; [Wait] is woken up or times out; the network has called
    back with a response, what it wrote to the body, and headers. *)
Record attempt := mkAttempt {
  cancelled_in_sleep : option nat;
  send_outcome : SendOutcome;
  triggered : bool;
  cancelled_in_wait : bool;
  answered : option (NetworkResponse * str * Headers);
  cancelled_after : bool }.

Definition cancel_if (b : bool) (context : CancellationContextImpl Z) : CancellationContextImpl Z :=
  if b then fst (CancelOperation context) else context.

(** [SendRequest]: the response, and whether the network was asked.  A call with a
    data callback has no body. *)
Definition SendRequest (stream : bool) (context : CancellationContextImpl Z) (e : attempt)
  : CancellationContextImpl Z * HttpResponse * bool :=
  let token := if SendOutcome_IsSuccessful (send_outcome e) then Some (request_id_ (send_outcome e)) else None in
  let '(context, executed) := ExecuteOrCancelled context (Some token) in
  let outcome := if executed then send_outcome e else SendOutcome_of_error CANCELLED_ERROR in
  if negb (SendOutcome_IsSuccessful outcome) then (context, ToHttpResponse_outcome outcome, executed)
  else
    let condition_triggered := triggered e in
    let context := cancel_if (cancelled_in_wait e) context in
    let context := cancel_if (negb condition_triggered) context in
    if IsCancelled context || negb condition_triggered
    then (context, ToHttpResponse (if condition_triggered then kCancelledErrorResponse else kTimeoutErrorResponse), executed)
    else
      let '(r, body, headers) := default (kCancelledErrorResponse, [], []) (answered e) in
      let response := if status_ r <? 0 then HttpResponse_of (status_ r) (error_ r) []
                      else HttpResponse_of (status_ r) (if stream then [] else body) headers in
      (cancel_if (cancelled_after e) context, SetNetworkStatistics (GetStatistics r) response, executed).

(** The sleep in parts of at most a second, and how long it took. *)
Fixpoint sleep_loop (fuel : nat) (cancel_in : option nat) (context : CancellationContextImpl Z) (duration_to_sleep slept : Z)
  : CancellationContextImpl Z * Z :=
  match fuel with
  | O => (context, slept)
  | S fuel =>
      let context := cancel_if (match cancel_in with Some O => true | _ => false end) context in
      if (duration_to_sleep >? 0) && negb (IsCancelled context) then
        let sleep_ms := Z.min 1000 duration_to_sleep in
        sleep_loop fuel (pred <$> cancel_in) context (duration_to_sleep - sleep_ms) (slept + sleep_ms)
      else (context, slept)
  end.

(** The variables of [CallApi]; the last three are not in the code: the requests that
    the network got, the time slept, and the responses in order. *)
Record call := mkCall {
  context : CancellationContextImpl Z;
  last_response : HttpResponse;
  accumulated_statistics : NetworkStatistics;
  accumulated_wait_time : Z;
  backdown_period : Z;
  sent : nat;
  slept : Z;
  responses : list HttpResponse }.

Section call_api.
Context (settings : RetrySettings) (stream : bool).

(** One round of the loop after its condition: [inl] is the response it returns. *)
Definition retry (i : Z) (e : attempt) (c : call) : HttpResponse + call :=
  if StatusSuccess (status (last_response c)) then inl (last_response c)
  else if negb (retry_condition settings (last_response c)) then inl (last_response c)
  else
    let duration_to_sleep := Z.min (backdown_period c) (max_wait_time settings - accumulated_wait_time c) in
    let '(context, slept) := sleep_loop (S (Z.to_nat duration_to_sleep)) (cancelled_in_sleep e) (context c) duration_to_sleep (slept c) in
    let '(context, response, asked) := SendRequest stream context e in
    inr (mkCall context response (add_statistics (accumulated_statistics c) (network_statistics response))
           (accumulated_wait_time c + duration_to_sleep) (CalculateNextWaitTime settings i)
           (if asked : bool then S (sent c) else sent c) slept (responses c ++ [response])).

(** The condition of the loop. *)
Definition goes_on (i : Z) (c : call) : bool :=
  (i <=? max_attempts settings) && negb (IsCancelled (context c)) && (accumulated_wait_time c <? max_wait_time settings).

(** The response that is returned and the variables at the end; [None] when the fuel is
    not enough. *)
Fixpoint retry_loop (fuel : nat) (i : Z) (env : Z -> attempt) (c : call) : option (HttpResponse * call) :=
  if goes_on i c then
    match fuel with
    | O => None
    | S fuel =>
        match retry i (env i) c with
        | inl response => Some (response, c)
        | inr c => retry_loop fuel (i + 1) env c
        end
    end
  else Some (SetNetworkStatistics (accumulated_statistics c) (last_response c), c).

Definition first_call (ctx : CancellationContextImpl Z) (e : attempt) : call :=
  let '(context, response, asked) := SendRequest stream ctx e in
  mkCall context response (network_statistics response) (initial_backdown_period settings) (initial_backdown_period settings)
    (if asked : bool then 1 else 0) 0 [response].

Definition send_and_retry (ctx : CancellationContextImpl Z) (env : Z -> attempt) : option (HttpResponse * call) :=
  retry_loop (Z.to_nat (max_attempts settings)) 1 env (first_call ctx (env 0)).
End call_api.

(** The settings of a client. *)
Record Settings := mkClientSettings {
  network_request_handler : bool;
  authentication_settings : option Requests.AuthenticationSettings;
  retry_settings : RetrySettings }.

(** [CallApi]; [request] is the request before [AddBearer]. *)
Definition CallApi (settings : Settings) (base_url : str) (query_empty stream : bool) (request : NetworkRequest)
  (ctx : CancellationContextImpl Z) (env : Z -> attempt) : option HttpResponse :=
  if negb (network_request_handler settings)
  then Some (HttpResponse_of (code OFFLINE_ERROR) (chars "Network request handler is empty.") [])
  else if negb (Requests.ValidateBaseUrl base_url)
  then Some (HttpResponse_of (code INVALID_URL_ERROR) (chars "Base URI does not contain a protocol") [])
  else
    match snd (Requests.AddBearer (authentication_settings settings) query_empty request) with
    | Some error => Some (Requests.bearer_error_response error)
    | None => fst <$> send_and_retry (retry_settings settings) stream ctx env
    end.

(** *** The sleep *)

Lemma cancel_if_cancelled b c : IsCancelled c = true -> IsCancelled (cancel_if b c) = true.
Proof. unfold cancel_if, CancelOperation, IsCancelled. intros H. destruct b; [|done]. by rewrite H. Qed.

Lemma cancel_cancelled (c : CancellationContextImpl Z) : IsCancelled (fst (CancelOperation c)) = true.
Proof. unfold CancelOperation, IsCancelled. destruct (is_cancelled_ c) eqn:E; [exact E|done]. Qed.

(** The fuel of a sleep is enough: it ends because the time is over or it is cancelled. *)
Lemma sleep_loop_spec fuel cancel_in ctx duration t ctx' t' : duration < Z.of_nat fuel ->
  sleep_loop fuel cancel_in ctx duration t = (ctx', t') ->
  t <= t' <= t + Z.max 0 duration /\ (IsCancelled ctx = true -> IsCancelled ctx' = true) /\
  (IsCancelled ctx' = true \/ t' = t + Z.max 0 duration).
Proof.
  revert cancel_in ctx duration t. induction fuel as [|fuel IH]; intros cancel_in ctx duration t Hf; cbn [sleep_loop].
  { intros [= <- <-]. split_and!; [lia..|done|right; lia]. }
  set (ctx1 := cancel_if _ ctx).
  assert (Hm : IsCancelled ctx = true -> IsCancelled ctx1 = true) by apply cancel_if_cancelled.
  destruct (Z.gtb_spec duration 0); cbn [andb]; [|intros [= <- <-]; split_and!; [lia..|done|right; lia]].
  destruct (IsCancelled ctx1) eqn:Ec; cbn [negb]; [intros [= <- <-]; split_and!; [lia..|done|by left]|].
  intros (H1 & H2 & H3)%IH; [|lia]. split_and!; [lia..| |destruct H3; [by left|right; lia]].
  intros Hc. apply Hm in Hc. done.
Qed.

(** *** The loop *)

Section loop.
Context (settings : RetrySettings) (stream : bool).
Hypothesis initial_nonneg : 0 <= initial_backdown_period settings.
Hypothesis strategy_nonneg : forall i, 0 <= CalculateNextWaitTime settings i.

(** In round [i]: the requests and the time so far. *)
Record bounded (i : Z) (c : call) : Prop := {
  bounded_backdown : 0 <= backdown_period c;
  bounded_sent : Z.of_nat (sent c) <= i;
  bounded_slept : 0 <= slept c;
  bounded_wait : slept c + initial_backdown_period settings <= accumulated_wait_time c;
  bounded_max : accumulated_wait_time c <= Z.max (initial_backdown_period settings) (max_wait_time settings) }.

(** In round [i]: every response but the last one was to be retried. *)
Record retried (i : Z) (c : call) : Prop := {
  retried_responses : exists before, responses c = before ++ [last_response c] /\ Z.of_nat (length before) = i - 1 /\
    Forall (fun r => StatusSuccess (status r) = false /\ retry_condition settings r = true) before;
  retried_statistics : accumulated_statistics c = foldl (fun a r => add_statistics a (network_statistics r))
    (match responses c with r :: _ => network_statistics r | [] => NetworkStatistics_new end) (tail (responses c)) }.

Lemma first_call_bounded ctx e : bounded 1 (first_call settings stream ctx e).
Proof. unfold first_call. destruct (SendRequest _ _ _) as [[? ?] asked]. split; cbn; destruct asked; lia. Qed.

Lemma first_call_retried ctx e : retried 1 (first_call settings stream ctx e).
Proof. unfold first_call. destruct (SendRequest _ _ _) as [[? ?] ?]. split; [|done]. by exists []. Qed.

Lemma retry_bounded i e c c' : bounded i c -> goes_on settings i c = true -> retry settings stream i e c = inr c' -> bounded (i + 1) c'.
Proof.
  intros [H1 H2 H3 H4 H5] Hg. unfold goes_on in Hg. apply andb_true_iff in Hg as [_ Hw]. apply Z.ltb_lt in Hw.
  unfold retry. destruct (StatusSuccess _); [done|]. destruct (negb _); [done|].
  set (d := Z.min (backdown_period c) _). assert (0 <= d) by lia.
  destruct (sleep_loop _ _ _ d _) as [ctx t] eqn:Es. apply sleep_loop_spec in Es as (Ht & _); [|lia].
  destruct (SendRequest _ _ _) as [[ctx' r] asked]. intros [= <-].
  split; cbn [backdown_period sent slept accumulated_wait_time]; [apply strategy_nonneg|destruct asked; lia|lia..].
Qed.

Lemma retry_retried i e c c' : retried i c -> retry settings stream i e c = inr c' -> retried (i + 1) c'.
Proof.
  intros [(before & Hr & Hl & Hb) Hs]. unfold retry. destruct (StatusSuccess _) eqn:E1; [done|]. destruct (negb _) eqn:E2; [done|].
  apply negb_false_iff in E2. destruct (sleep_loop _ _ _ _ _) as [ctx t]. destruct (SendRequest _ _ _) as [[ctx' r] asked]. intros [= <-].
  split; cbn [last_response responses accumulated_statistics].
  - exists (responses c). split; [done|]. rewrite Hr, length_app. cbn. split; [lia|]. apply Forall_app. split; [done|]. by constructor.
  - rewrite Hs, Hr. destruct before as [|r0 before]; cbn [app tail]; [done|]. by rewrite !foldl_snoc.
Qed.

Lemma retry_inl i e c r : retry settings stream i e c = inl r ->
  r = last_response c /\ (StatusSuccess (status r) = true \/ retry_condition settings r = false).
Proof.
  unfold retry. destruct (StatusSuccess _) eqn:E1; [intros [= <-]; auto|]. destruct (retry_condition _ _) eqn:E2; cbn [negb]; [|intros [= <-]; auto].
  destruct (sleep_loop _ _ _ _ _) as [ctx t]. by destruct (SendRequest _ _ _) as [[ctx' r'] asked].
Qed.

(** The loop ends, in a round with what holds in every round. *)
Lemma retry_loop_end fuel i env c : 1 <= i -> max_attempts settings < i + Z.of_nat fuel -> bounded i c -> retried i c ->
  exists r c' i', retry_loop settings stream fuel i env c = Some (r, c') /\ i <= i' /\ i' <= Z.max i (max_attempts settings + 1) /\
    bounded i' c' /\ retried i' c' /\
    (goes_on settings i' c' = false /\ r = SetNetworkStatistics (accumulated_statistics c') (last_response c') \/
     r = last_response c' /\ (StatusSuccess (status r) = true \/ retry_condition settings r = false)).
Proof.
  revert i c. induction fuel as [|fuel IH]; intros i c Hi Hf Hb Hr; cbn [retry_loop].
  - assert (Hg : goes_on settings i c = false) by (unfold goes_on; by bfalse (i <=? max_attempts settings)).
    rewrite Hg. exists (SetNetworkStatistics (accumulated_statistics c) (last_response c)), c, i. split_and!; try done; try lia. by left.
  - destruct (goes_on settings i c) eqn:Hg.
    + assert (i <= max_attempts settings) by (unfold goes_on in Hg; lia).
      destruct (retry settings stream i (env i) c) as [r|c'] eqn:E.
      * destruct (retry_inl _ _ _ _ E) as [-> Hend]. exists (last_response c), c, i. split_and!; try done; try lia. by right.
      * destruct (IH (i + 1) c') as (r & c2 & i' & E' & H1 & H2 & H3); [lia..|by eapply retry_bounded|by eapply retry_retried|].
        exists r, c2, i'. split; [done|]. split; [lia|]. split; [lia|done].
    + exists (SetNetworkStatistics (accumulated_statistics c) (last_response c)), c, i. split_and!; try done; try lia. by left.
Qed.

(** C35: the call returns, after at most one request and [max_attempts] retries, and it
    never sleeps longer than the timeout less the first wait time. *)
Theorem retries_bounded ctx env : exists r c, send_and_retry settings stream ctx env = Some (r, c) /\
  Z.of_nat (sent c) <= 1 + Z.max 0 (max_attempts settings) /\
  0 <= slept c <= Z.max 0 (max_wait_time settings - initial_backdown_period settings).
Proof.
  destruct (retry_loop_end (Z.to_nat (max_attempts settings)) 1 env _ ltac:(lia) ltac:(lia) (first_call_bounded ctx (env 0)) (first_call_retried ctx (env 0)))
    as (r & c & i & E & H1 & H2 & [] & _ & _).
  exists r, c. split; [exact E|]. lia.
Qed.

(** What is returned is the response of the last request, after a number of failures
    that the condition wanted to be retried; and it is the last because it is a success
    or not to be retried, the call is cancelled, or the attempts or the time are used up. *)
Theorem retries_last_response ctx env : exists r c before last, send_and_retry settings stream ctx env = Some (r, c) /\
  responses c = before ++ [last] /\ SetNetworkStatistics (network_statistics last) r = last /\
  Forall (fun r => StatusSuccess (status r) = false /\ retry_condition settings r = true) before /\
  (StatusSuccess (status last) = true \/ retry_condition settings last = false \/ IsCancelled (context c) = true \/
   max_attempts settings <= Z.of_nat (length before) \/ max_wait_time settings <= accumulated_wait_time c).
Proof.
  destruct (retry_loop_end (Z.to_nat (max_attempts settings)) 1 env _ ltac:(lia) ltac:(lia) (first_call_bounded ctx (env 0)) (first_call_retried ctx (env 0)))
    as (r & c & i & E & H1 & H2 & _ & [(before & Hr & Hl & Hb) _] & Hend).
  exists r, c, before, (last_response c). split; [exact E|]. split; [done|].
  destruct Hend as [[Hg ->]|[-> Hend]]; (split; [by destruct (last_response c)|]); (split; [done|]); [|tauto].
  unfold goes_on in Hg. destruct (Z.leb_spec i (max_attempts settings)); [|right; right; right; left; lia].
  destruct (IsCancelled (context c)); [by right; right; left|]. cbn in Hg. apply Z.ltb_ge in Hg. auto.
Qed.
End loop.

(** *** Runs *)

Definition default_settings : RetrySettings := mkRetrySettings 3 60 30000 30000 200 None DefaultRetryCondition.

Definition answers (status uploaded : Z) : attempt :=
  mkAttempt None (SendOutcome_of_id 1) true false (Some (mkNetworkResponse 1 status [] uploaded 10, chars "body", [])) false.

(** The server fails once and then answers. *)
Definition fails_once (i : Z) : attempt := if i =? 0 then answers 503 100 else answers 200 100.

Lemma retries_bounded_witness : exists r c, send_and_retry default_settings false CancellationContext_new fails_once = Some (r, c) /\
  Z.of_nat (sent c) <= 4 /\ 0 <= slept c <= 59800.
Proof. apply (retries_bounded default_settings false); [discriminate|intros i; done]. Defined.

Lemma retries_last_response_witness : exists r c before last,
  send_and_retry default_settings false CancellationContext_new fails_once = Some (r, c) /\ responses c = before ++ [last] /\
  SetNetworkStatistics (network_statistics last) r = last.
Proof.
  destruct (retries_last_response default_settings false ltac:(discriminate) ltac:(done) CancellationContext_new fails_once)
    as (r & c & before & last & E & Hr & Hl & _). by exists r, c, before, last.
Defined.

(** The statistics of the failed requests are in the response when no attempt is
    left, but not when a retry succeeds: then they are those of the last request only. *)
Theorem statistics_lost_on_success :
  (fun x => (status x.1, network_statistics x.1)) <$> send_and_retry default_settings false CancellationContext_new fails_once
    = Some (200, mkStatistics 100 10) /\
  (fun x => (status x.1, network_statistics x.1)) <$> send_and_retry default_settings false CancellationContext_new (fun _ => answers 503 100)
    = Some (503, mkStatistics 400 40).
Proof. done. Qed.

(** A request that is too late is not sent again, although [DefaultRetryCondition]
    wants it: the call is cancelled by its own timeout. *)
Theorem timeout_not_retried env stream : 
  send_outcome (env 0) = SendOutcome_of_id 1 -> triggered (env 0) = false ->
  exists r c, send_and_retry default_settings stream CancellationContext_new env = Some (r, c) /\
    sent c = 1%nat /\ status r = code TIMEOUT_ERROR /\ DefaultRetryCondition r = true.
Proof.
  intros Ho Ht. eexists _, _. split.
  - unfold send_and_retry, first_call, SendRequest. rewrite Ho, Ht.
    cbn [ExecuteOrCancelled CancellationContext_new is_cancelled_ SendOutcome_IsSuccessful SendOutcome_of_id negb].
    change (SendOutcome_IsSuccessful (SendOutcome_of_id 1)) with true. cbv iota beta. cbn [negb orb andb].
    rewrite orb_true_r. change (Z.to_nat (max_attempts default_settings)) with 3%nat. unfold retry_loop, goes_on. cbn [context].
    assert (Hc : forall b, IsCancelled (cancel_if true (cancel_if b (mkImpl (Some 1) false))) = true) by by intros [].
    rewrite Hc. cbn [negb andb]. rewrite andb_false_r. reflexivity.
  - done.
Qed.
End Blocking.
