(* ===== verification/OlpClientAsync.v ===== *)
(** * The asynchronous call of the HTTP client

    The asynchronous [CallApi] of [OlpClient] (src/client/OlpClient.cpp:
    [ExecuteSingleRequest] and [GetRetryCallback]) as a state machine over the pending
    requests of PendingUrlRequests.v, and the order in which its threads take their
    mutexes.

    A call is a sequence of events: what the network does, and what other callers do to
    the same requests in between.  Every event is a part of the code that runs under the
    mutexes it takes. *)

From S2P Require Import Prelude TaskContext Http PendingUrlRequests OlpClient.
Import CancellationContext Network Response Retry.

Module Asynchronous.
Import Blocking.

(** [RequestSettings] *)
Record RequestSettings := mkRequestSettings {
  current_try : Z;
  accumulated_wait_time : Z;
  current_backdown_period : Z }.

Definition GetRequestSettings (retry_settings : RetrySettings) : RequestSettings :=
  mkRequestSettings 0 0 (initial_backdown_period retry_settings).

(** [true]: no retry. *)
Definition CheckRetryCondition (request : RequestSettings) (settings : RetrySettings) (response : HttpResponse) : bool :=
  (current_try request >? max_attempts settings) || negb (retry_condition settings response) ||
  (accumulated_wait_time request >=? max_wait_time settings).

(** Where the call is: about to send; the network has the request; the callback of the
    network runs with an id and a response; it sleeps before a retry; all callbacks have
    been called; or the response was dropped. *)
Inductive phase :=
| Start
| InFlight (id : Z)
| Callback (request_id : Z) (response : HttpResponse)
| Sleeping (actual_wait_time : Z)
| Finished (calls : list (nat * HttpResponse))
| Lost.

(** One call, with the requests it shares with others.  [unsaved] is the id that [Send]
    returned and that is not yet stored; [open_frames] counts the calls of
    [ExecuteOrCancelled] whose [Send] failed and that go on around the retries: the mutex
    of the context is locked meanwhile.  [sends] and [slept] are not in the code. *)
Record flow := mkFlow {
  requests : PendingUrlRequests nat;
  unsaved : option Z;
  open_frames : nat;
  settings : RequestSettings;
  where_ : phase;
  sends : nat;
  slept : Z }.

(** What can happen next. *)
Inductive event :=
| SendSucceeds (id : Z)
| SendFails (error : ErrorCode)
| Refused
| Save
| Responds (response : HttpResponse)
| Process
| Wake
| User (o : operation nat)
| CancelRequest (callback_id : nat).

Definition is_user (e : event) : bool := match e with User _ | CancelRequest _ => true | _ => false end.

Section call.
Context (retry_settings : RetrySettings) (merge : bool) (url : str) (p : nat).

Definition locked (f : flow) : bool := negb (open_frames f =? 0)%nat || match unsaved f with Some _ => true | None => false end.

Definition set_where (w : phase) (f : flow) : flow :=
  mkFlow (requests f) (unsaved f) (open_frames f) (settings f) w (sends f) (slept f).

Definition set_requests (s : PendingUrlRequests nat) (f : flow) : flow :=
  mkFlow s (unsaved f) (open_frames f) (settings f) (where_ f) (sends f) (slept f).

Definition request_of (f : flow) : option (PendingUrlRequest nat) := heap_ (requests f) !! p.

(** The response of the network's callback in [ExecuteSingleRequest]. *)
Definition network_response (response : NetworkResponse) (body : str) (headers : Headers) : HttpResponse :=
  let body := if negb (StatusSuccess (status_ response))
              then match error_ response with
                   | [] => chars "Error occurred, please check HTTP status code"
                   | error => error
                   end
              else body in
  HttpResponse_of (status_ response) body headers.

(** The end of the callback of [GetRetryCallback], when the ids are equal. *)
Definition complete (f : flow) (request_id : Z) (response : HttpResponse) : option flow :=
  if merge then
    '(s, calls) ← OnRequestCompleted (requests f) request_id url response;
    Some (set_where (Finished calls) (set_requests s f))
  else
    r ← request_of f;
    let '(r, calls) := Complete r response in
    Some (set_where (Finished calls)
      (set_requests (mkRequests (<[p := r]> (heap_ (requests f))) (pending_requests_ (requests f)) (cancelled_requests_ (requests f))) f)).

(** The callback of [GetRetryCallback], up to the sleep. *)
Definition retry_callback (f : flow) (request_id : Z) (response : HttpResponse) : option flow :=
  let s := settings f in
  let s := mkRequestSettings (current_try s + 1) (accumulated_wait_time s) (current_backdown_period s) in
  let f := mkFlow (requests f) (unsaved f) (open_frames f) s (where_ f) (sends f) (slept f) in
  if CheckRetryCondition s retry_settings response then
    r ← request_of f;
    if negb (http_request_id_ r =? request_id) then Some (set_where Lost f) else complete f request_id response
  else Some (set_where (Sleeping (Z.min (current_backdown_period s) (max_wait_time retry_settings - accumulated_wait_time s))) f).

Definition user_operation (o : operation nat) : bool :=
  match o with OpAppend _ _ | OpCancel _ _ | OpCancelAll => true | _ => false end.

Definition cancels (o : operation nat) : bool := match o with OpCancel _ _ | OpCancelAll => true | _ => false end.

Definition advance (e : event) (f : flow) : option flow :=
  match where_ f, e with
  | Start, SendSucceeds id =>
      r ← request_of f;
      if IsCancelled (context_ r) || bool_decide (unsaved f <> None) || (id =? 0) then None
      else Some (mkFlow (requests f) (Some id) (open_frames f) (settings f) (InFlight id) (S (sends f)) (slept f))
  | Start, SendFails error =>
      r ← request_of f;
      if IsCancelled (context_ r) || bool_decide (unsaved f <> None) then None
      else Some (mkFlow (requests f) (unsaved f) (S (open_frames f)) (settings f)
                   (Callback kInvalidRequestId (ToHttpResponse_outcome (SendOutcome_of_error error))) (S (sends f)) (slept f))
  | Start, Refused =>
      r ← request_of f;
      if IsCancelled (context_ r) && bool_decide (unsaved f = None)
      then Some (set_where (Callback kInvalidRequestId (ToHttpResponse kCancelledErrorResponse)) f)
      else None
  | InFlight id, Responds response => Some (set_where (Callback id response) f)
  | Callback request_id response, Process => retry_callback f request_id response
  | Sleeping actual_wait_time, Wake =>
      let s := settings f in
      Some (mkFlow (requests f) (unsaved f) (open_frames f)
              (mkRequestSettings (current_try s) (accumulated_wait_time s + actual_wait_time)
                 (CalculateNextWaitTime retry_settings (current_try s)))
              Start (sends f) (slept f + Z.max 0 actual_wait_time))
  | _, Save =>
      (* the calls around this one overwrite the token with an empty one *)
      id ← unsaved f;
      '(s, _) ← Execute (requests f) p (id, if (open_frames f =? 0)%nat then Some id else None);
      Some (mkFlow s None 0 (settings f) (where_ f) (sends f) (slept f))
  | _, User o =>
      if user_operation o && negb (cancels o && locked f) then
        '(s, _) ← perform (requests f) o;
        Some (set_requests s f)
      else None
  | _, CancelRequest callback_id =>
      (* the token of a call that is not merged *)
      if negb (merge || locked f) then
        r ← request_of f;
        Some (set_requests (mkRequests (<[p := fst (Cancel_callback r callback_id)]> (heap_ (requests f)))
                              (pending_requests_ (requests f)) (cancelled_requests_ (requests f))) f)
      else None
  | _, _ => None
  end.

Fixpoint run (es : list event) (f : flow) : option flow :=
  match es with
  | [] => Some f
  | e :: es => f ← advance e f; run es f
  end.

(** The start of a call, by the caller that created the request. *)
Definition call_start (s : PendingUrlRequests nat) : flow :=
  mkFlow s None 0 (GetRequestSettings retry_settings) Start 0 0.
End call.

(** What [CallApi] does at once: it calls back with an error, joins a request that is in
    flight, or starts the call above; the last two with the id of the callback. *)
Inductive started :=
| Answered (response : HttpResponse)
| Joined (s : PendingUrlRequests nat) (p call_id : nat)
| Started (f : flow) (merge : bool) (url : str) (p call_id : nat).

(** [IsPending] *)
Definition IsPending (s : PendingUrlRequests nat) (p : nat) : bool :=
  match heap_ s !! p with Some r => negb (http_request_id_ r =? kInvalidRequestId) | None => false end.

(** [request] is the one of [CreateRequest]. *)
Definition CallApi (settings : Blocking.Settings) (base_url : str) (query_empty : bool) (request : NetworkRequest) (callback : nat)
  (s : PendingUrlRequests nat) : option started :=
  if negb (network_request_handler settings)
  then Some (Answered (HttpResponse_of (code OFFLINE_ERROR) (chars "Network layer offline or missing.") []))
  else if negb (Requests.ValidateBaseUrl base_url)
  then Some (Answered (HttpResponse_of (code INVALID_URL_ERROR) (chars "Base URI does not contain a protocol") []))
  else
    match Requests.AddBearer (authentication_settings settings) query_empty request with
    | (_, Some error) => Some (Answered (Requests.bearer_error_response error))
    | (request, None) =>
        let url := url_ request in
        let merge := match body_ request with None | Some [] => true | Some _ => false end in
        if merge then
          '(s, call_id, p) ← Append s url callback;
          if IsPending s p then Some (Joined s p call_id)
          else Some (Started (call_start (retry_settings settings) s) merge url p call_id)
        else
          let '(h, p) := make_shared (heap_ s) in
          let '(r, call_id) := Append_callback PendingUrlRequest_new callback in
          let s := mkRequests (<[p := r]> h) (pending_requests_ s) (cancelled_requests_ s) in
          Some (Started (call_start (retry_settings settings) s) merge url p call_id)
    end.

(** The requests with one callback for a URL. *)
Definition one_request (url : str) : PendingUrlRequests nat :=
  match Append PendingUrlRequests_new url 1%nat with Some (s, _, _) => s | None => PendingUrlRequests_new end.

Definition u : str := chars "http://h/u".
Definition response_of (status : Z) : HttpResponse := HttpResponse_of status (chars "body") [].

Definition outcome (f : option flow) : option phase := where_ <$> f.

Example retried_call :
  outcome (run default_settings true u 0
    [SendSucceeds 7; Save; Responds (response_of 503); Process; Wake; SendSucceeds 8; Save; Responds (response_of 200); Process]
    (call_start default_settings (one_request u)))
  = Some (Finished [(1%nat, response_of 200)]).
Proof. vm_compute. reflexivity. Qed.

Example cancelled_in_flight :
  outcome (run default_settings true u 0
    [SendSucceeds 7; Save; User (OpCancel u 0); Responds (response_of (-5)); Process]
    (call_start default_settings (one_request u)))
  = Some (Finished [(1%nat, GetCancelledResponse)]).
Proof. vm_compute. reflexivity. Qed.

(** A callback is never called when its request is cancelled during the sleep before
    a retry, when the network refuses a retry for good, or when it answers before the id
    is stored: the response is taken for one of another request. *)
Theorem responses_lost :
  let f := call_start default_settings (one_request u) in
  let first_fails := [SendSucceeds 7; Save; Responds (response_of 503); Process] in
  outcome (run default_settings true u 0 (first_fails ++ [User (OpCancel u 0); Wake; Refused; Process]) f) = Some Lost /\
  outcome (run default_settings true u 0 (first_fails ++ [Wake; SendFails AUTHORIZATION_ERROR; Process]) f) = Some Lost /\
  outcome (run default_settings true u 0 [SendSucceeds 7; Responds (response_of 200); Process] f) = Some Lost.
Proof. vm_compute. done. Qed.

(** A caller that did not cancel gets the cancelled response of another: the first
    caller cancels before its request is sent, and the response without an id completes
    the new request for the same URL; the first caller's callback is never called. *)
Theorem cancelled_for_another :
  let f := run default_settings true u 0 [User (OpCancel u 0); User (OpAppend u 2%nat); Refused; Process]
             (call_start default_settings (one_request u)) in
  outcome f = Some (Finished [(2%nat, ToHttpResponse kCancelledErrorResponse)]) /\
  cancelled_callbacks_ <$> (f ≫= request_of 0) = Some [1%nat].
Proof. vm_compute. done. Qed.

(** When a retry follows a [Send] that failed, the token of the retry is overwritten
    with an empty one: the request is in flight and cancelling does not reach it. *)
Theorem token_lost :
  let sent_at_once := [SendSucceeds 8; Save] in
  let sent_after_failure := [SendFails NETWORK_OVERLOAD_ERROR; Process; Wake; SendSucceeds 8; Save] in
  let after es := f ← run default_settings true u 0 es (call_start default_settings (one_request u));
                  r ← request_of 0 f; Some (where_ f, snd (CancelOperation_request r)) in
  after sent_at_once = Some (InFlight 8, Some 8) /\ after sent_after_failure = Some (InFlight 8, None).
Proof. vm_compute. done. Qed.

(** The cancellation of a call that is not merged changes its request only. *)
Lemma cancel_request_cases retry_settings merge url p f k f' : advance retry_settings merge url p (CancelRequest k) f = Some f' ->
  exists s, f' = set_requests s f /\ merge = false /\ locked f = false /\
    exists r, request_of p f = Some r /\ s = mkRequests (<[p := fst (Cancel_callback r k)]> (heap_ (requests f))) (pending_requests_ (requests f)) (cancelled_requests_ (requests f)).
Proof.
  intros H. assert (H' : (if negb (merge || locked f) then r ← request_of p f;
      Some (set_requests (mkRequests (<[p := fst (Cancel_callback r k)]> (heap_ (requests f))) (pending_requests_ (requests f)) (cancelled_requests_ (requests f))) f)
    else None) = Some f') by (unfold advance in H; destruct (where_ f); exact H).
  destruct merge; [done|]. destruct (locked f) eqn:El; [done|]. cbn [negb orb] in H'. destruct (request_of p f) as [r|]; [|done].
  cbn [mbind option_bind] in H'. injection H' as <-. eexists. split; [reflexivity|]. split; [done|]. split; [done|]. by exists r.
Qed.

(** *** Bounds *)

Section bounds.
Context (retry_settings : RetrySettings) (merge : bool) (url : str) (p : nat).
Hypothesis initial_nonneg : 0 <= initial_backdown_period retry_settings.
Hypothesis strategy_nonneg : forall i, 0 <= CalculateNextWaitTime retry_settings i.
Hypothesis attempts_nonneg : 0 <= max_attempts retry_settings.
Abbreviation advance := (advance retry_settings merge url p).
Abbreviation run := (run retry_settings merge url p).

(** How many steps of the call are left at most. *)
Definition rank (w : phase) : Z :=
  match w with Start => 4 | InFlight _ => 2 | Callback _ _ => 1 | Sleeping _ => 5 | Finished _ | Lost => 0 end.

Definition steps_left (f : flow) : Z :=
  6 * (max_attempts retry_settings + 1 - current_try (settings f)) + rank (where_ f) + (if unsaved f then 1 else 0).

Definition tries (f : flow) : Z := current_try (settings f).

Record bounded (f : flow) : Prop := {
  bounded_backdown : 0 <= current_backdown_period (settings f);
  bounded_wait : 0 <= accumulated_wait_time (settings f) <= Z.max 0 (max_wait_time retry_settings);
  bounded_slept : slept f = accumulated_wait_time (settings f);
  bounded_tries : 0 <= tries f <= max_attempts retry_settings \/ (rank (where_ f) = 0 /\ 0 <= tries f <= max_attempts retry_settings + 1);
  bounded_sends : Z.of_nat (sends f) <= tries f + (match where_ f with InFlight _ | Callback _ _ => 1 | _ => 0 end);
  bounded_sleep : match where_ f with Sleeping w => 0 <= w <= max_wait_time retry_settings - accumulated_wait_time (settings f) | _ => True end }.

Lemma complete_where f rid response f' : complete merge url p f rid response = Some f' ->
  (exists calls, where_ f' = Finished calls) /\ settings f' = settings f /\ unsaved f' = unsaved f /\ sends f' = sends f /\ slept f' = slept f.
Proof.
  unfold complete. destruct merge.
  - destruct (OnRequestCompleted _ _ _ _) as [[s calls]|]; [|done]. intros [= <-]. split; [by exists calls|done].
  - destruct (request_of p f) as [r|]; [|done]. cbn [mbind option_bind]. destruct (Complete r response) as [r' calls]. intros [= <-].
    split; [by exists calls|done].
Qed.

(** The callback of the network ends the call or sleeps. *)
Lemma retry_callback_cases f rid response f' : retry_callback retry_settings merge url p f rid response = Some f' ->
  current_try (settings f') = current_try (settings f) + 1 /\
  accumulated_wait_time (settings f') = accumulated_wait_time (settings f) /\
  current_backdown_period (settings f') = current_backdown_period (settings f) /\
  unsaved f' = unsaved f /\ sends f' = sends f /\ slept f' = slept f /\
  (rank (where_ f') = 0 \/
   where_ f' = Sleeping (Z.min (current_backdown_period (settings f)) (max_wait_time retry_settings - accumulated_wait_time (settings f))) /\
   current_try (settings f') <= max_attempts retry_settings /\ accumulated_wait_time (settings f) < max_wait_time retry_settings).
Proof.
  unfold retry_callback. destruct (CheckRetryCondition _ _ _) eqn:Ec; cbv zeta; rewrite ?Ec.
  - destruct (request_of _ _) as [r|]; [|done]. cbn [mbind option_bind]. destruct (negb _); [intros [= <-]; split_and!; try done; by left|].
    intros ((calls & Hw) & Hs & Hu & Hn & Ht)%complete_where. rewrite Hs, Hu, Hn, Ht, Hw. split_and!; try done. by left.
  - intros [= <-]. cbn. split_and!; try done. right. unfold CheckRetryCondition in Ec. cbn in Ec. split; [done|]. lia.
Qed.

Ltac step_cases := cbn [tries rank steps_left settings unsaved open_frames where_ sends slept set_where set_requests current_try accumulated_wait_time current_backdown_period] in *.

Ltac keep_bounded :=
  split; unfold tries in *; step_cases; try done; try lia; try (left; lia).

Lemma advance_measure f e f' : advance e f = Some f' ->
  if is_user e then steps_left f' = steps_left f else steps_left f' < steps_left f.
Proof.
  unfold Asynchronous.advance. destruct e as [id|error| | |response| | |o|k]; cbn [is_user].
  - destruct (where_ f) eqn:Ew; try done. destruct (request_of p f) as [r|]; [|done]. cbn [mbind option_bind].
    destruct (_ || _ || _) eqn:Eb; [done|]. intros [= <-]. unfold steps_left. step_cases. rewrite Ew.
    destruct (unsaved f) eqn:Eu; [|cbn; lia]. apply orb_false_iff in Eb as [Eb _]. apply orb_false_iff in Eb as [_ Eb].
    apply bool_decide_eq_false in Eb. by destruct Eb.
  - destruct (where_ f) eqn:Ew; try done. destruct (request_of p f) as [r|]; [|done]. cbn [mbind option_bind].
    destruct (_ || _) eqn:Eb; [done|]. intros [= <-]. unfold steps_left. step_cases. rewrite Ew. cbn. lia.
  - destruct (where_ f) eqn:Ew; try done. destruct (request_of p f) as [r|]; [|done]. cbn [mbind option_bind].
    destruct (_ && _) eqn:Eb; [|done]. intros [= <-]. unfold steps_left. step_cases. rewrite Ew. cbn. lia.
  - destruct (unsaved f) as [id|] eqn:Eu; [|by destruct (where_ f)]. cbn [mbind option_bind].
    destruct (Execute _ _ _) as [[s b]|]; [|by destruct (where_ f)]. cbn [mbind option_bind].
    assert (H : forall f', Some (mkFlow s None 0 (settings f) (where_ f) (sends f) (slept f)) = Some f' -> steps_left f' < steps_left f).
    { intros g [= <-]. unfold steps_left. step_cases. rewrite Eu. lia. }
    destruct (where_ f); exact (H f').
  - destruct (where_ f) eqn:Ew; try done. intros [= <-]. unfold steps_left. step_cases. rewrite Ew. cbn. lia.
  - destruct (where_ f) eqn:Ew; try done. intros H%retry_callback_cases. destruct H as (H1 & _ & _ & H2 & _ & _ & H3).
    unfold steps_left. rewrite H1, H2, Ew. destruct H3 as [->|[-> _]]; cbn; lia.
  - destruct (where_ f) eqn:Ew; try done. intros [= <-]. unfold steps_left. step_cases. rewrite Ew. cbn. lia.
  - assert (H : (if user_operation o && negb (cancels o && locked f) then '(s, _) ← perform (requests f) o; Some (set_requests s f) else None) = Some f' ->
      steps_left f' = steps_left f).
    { destruct (_ && _); [|done]. destruct (perform _ _) as [[s calls]|]; [|done]. by intros [= <-]. }
    destruct (where_ f); exact H.
  - intros H. apply (cancel_request_cases retry_settings merge url p) in H as (s & -> & _). done.
Qed.

Lemma advance_bounded f e f' : bounded f -> advance e f = Some f' -> bounded f'.
Proof.
  intros [B1 B2 B3 B4 B5 B6]. unfold Asynchronous.advance. destruct e as [id|error| | |response| | |o|k].
  - destruct (where_ f) eqn:Ew; try done. destruct (request_of p f) as [r|]; [|done]. cbn [mbind option_bind].
    destruct (_ || _ || _); [done|]. intros [= <-]. keep_bounded.
  - destruct (where_ f) eqn:Ew; try done. destruct (request_of p f) as [r|]; [|done]. cbn [mbind option_bind].
    destruct (_ || _); [done|]. intros [= <-]. keep_bounded.
  - destruct (where_ f) eqn:Ew; try done. destruct (request_of p f) as [r|]; [|done]. cbn [mbind option_bind].
    destruct (_ && _); [|done]. intros [= <-]. keep_bounded.
  - destruct (unsaved f) as [id|]; [|by destruct (where_ f)]. cbn [mbind option_bind].
    destruct (Execute _ _ _) as [[s b]|]; [|by destruct (where_ f)]. cbn [mbind option_bind].
    assert (H : forall f', Some (mkFlow s None 0 (settings f) (where_ f) (sends f) (slept f)) = Some f' -> bounded f')
      by (intros g [= <-]; by split).
    destruct (where_ f); exact (H f').
  - destruct (where_ f) eqn:Ew; try done. intros [= <-]. keep_bounded.
  - destruct (where_ f) eqn:Ew; try done. intros H%retry_callback_cases. destruct H as (H1 & H2 & H3 & _ & H4 & H5 & H6).
    destruct B4 as [B4|[B4 _]]; [|done]. unfold tries in *.
    split; unfold tries; rewrite ?H1, ?H2, ?H3, ?H4, ?H5; try done.
    + destruct H6 as [H6|(H6 & H7 & _)]; [right; split; [done|]|left]; lia.
    + destruct H6 as [H6|(-> & H7 & _)]; [|lia]. destruct (where_ f'); try done; lia.
    + destruct H6 as [H6|(-> & H7 & H8)]; [by destruct (where_ f')|]. lia.
  - destruct (where_ f) eqn:Ew; try done. intros [= <-]. keep_bounded.
  - assert (H : (if user_operation o && negb (cancels o && locked f) then '(s, _) ← perform (requests f) o; Some (set_requests s f) else None) = Some f' -> bounded f').
    { destruct (_ && _); [|done]. destruct (perform _ _) as [[s calls]|]; [|done]. intros [= <-]. by split. }
    destruct (where_ f); exact H.
  - intros H. apply (cancel_request_cases retry_settings merge url p) in H as (s & -> & _). by split.
Qed.

Definition call_steps (es : list event) : Z := Z.of_nat (length (List.filter (fun e => negb (is_user e)) es)).

Lemma run_bounded es f f' : bounded f -> run es f = Some f' -> bounded f' /\ call_steps es + steps_left f' <= steps_left f.
Proof.
  revert f. induction es as [|e es IH]; intros f Hb; cbn [Asynchronous.run]; [intros [= <-]; split; [done|change (call_steps []) with 0; lia]|].
  destruct (advance e f) as [f1|] eqn:E; [|done]. cbn [mbind option_bind]. intros H.
  destruct (IH f1 (advance_bounded _ _ _ Hb E) H) as [Hb' Hs]. split; [done|].
  pose proof (advance_measure _ _ _ E) as Hm. unfold call_steps in *. cbn [List.filter]. destruct (is_user e); cbn [negb length]; lia.
Qed.

(** the call ends: whatever the network answers and whatever other callers do, it has
    at most [max_attempts] retries, sleeps for no more than the timeout, and takes a
    bounded number of steps. *)
Theorem async_call_bounded s es f : run es (call_start retry_settings s) = Some f ->
  Z.of_nat (sends f) <= max_attempts retry_settings + 1 /\
  0 <= slept f <= Z.max 0 (max_wait_time retry_settings) /\
  call_steps es <= 6 * max_attempts retry_settings + 10.
Proof.
  intros H. assert (Hb : bounded (call_start retry_settings s)).
  { split; cbn; try done; try lia; try (left; cbn; lia). }
  destruct (run_bounded _ _ _ Hb H) as [[B1 B2 B3 B4 B5 B6] Hs].
  change (steps_left (call_start retry_settings s)) with (6 * (max_attempts retry_settings + 1 - 0) + 4 + 0) in Hs.
  assert (Hn : 0 <= steps_left f).
  { unfold steps_left, tries in *. destruct B4 as [?|[-> ?]]; [destruct (where_ f); cbn; destruct (unsaved f); lia|].
    destruct (unsaved f); lia. }
  split; [|split; [lia|lia]]. unfold tries in *. destruct B4 as [?|[Hr ?]].
  - destruct (where_ f); lia.
  - destruct (where_ f); try done; lia.
Qed.
End bounds.

(** *** Every callback is called *)

(** The id of a request. *)
Definition id_at (s : PendingUrlRequests nat) (q : nat) : option Z := http_request_id_ <$> heap_ s !! q.





Section delivery.
Context (retry_settings : RetrySettings) (merge : bool) (url : str) (p : nat).
Abbreviation advance := (advance retry_settings merge url p).

(** A request that is not merged is only known to its caller. *)
Definition only_caller (q : nat) : Prop := merge = false /\ q = p.





#[local] Instance operation_ok_dec (s : PendingUrlRequests nat) o : Decision (operation_ok s o).
Proof.
  destruct o as [v c|v k| |q func|id v r]; cbn [operation_ok]; try apply _.
  - destruct (pending_requests_ s !! v) as [q|] eqn:E; [|left; done]. destruct (heap_ s !! q) as [r|] eqn:Er; [|left; intros ? ? [= <-]; congruence].
    destruct (decide (find_callback (callbacks_ r) (length (callbacks_ r)) = None)) as [H|H];
      [left; by intros ? ? [= <-] E'; rewrite Er in E'; injection E' as <-|right; intros H'; by apply H, (H' q)].
  - destruct (pending_requests_ s !! v) as [q|] eqn:E; [|left; done]. destruct (heap_ s !! q) as [r|] eqn:Er; [|left; intros ? ? [= <-]; congruence].
    destruct (decide (IsCancelled (context_ (Cancel_callback r k).1) = true -> cancelled_requests_ s !! v = None)) as [H|H];
      [left; by intros ? ? [= <-] E'; rewrite Er in E'; injection E' as <-|right; intros H'; by apply H, (H' q)].
Defined.







End delivery.

#[export] Instance finished_dec w : Decision (match w with Finished _ => True | _ => False end).
Proof. destruct w; apply _. Defined.


Section completes.
Context (retry_settings : RetrySettings) (merge : bool) (url : str) (p : nat).
Abbreviation advance := (advance retry_settings merge url p).
Abbreviation run := (run retry_settings merge url p).


(** A call can start: the request of the URL has not been sent. *)
Definition can_start (s : PendingUrlRequests nat) : Prop :=
  PendingUrlRequests.ok (only_caller merge p) s /\ id_at s p = Some 0 /\ (merge = true -> pending_requests_ s !! url = Some p).






















End completes.

(** The id that a new callback gets in the request of a URL is free. *)
Definition id_free (s : PendingUrlRequests nat) (url : str) : Prop := operation_ok s (OpAppend url 0%nat).

Lemma Append_result (s : PendingUrlRequests nat) url c s' k p : Append s url c = Some (s', k, p) ->
  pending_requests_ s' !! url = Some p /\ is_Some (heap_ s' !! p).
Proof.
  unfold Append. destruct (get_request s url) as [s1 q] eqn:Eg. destruct (heap_ s1 !! q) as [r|]; [|done]. cbn [mbind option_bind].
  intros [= <- _ <-]. cbn [pending_requests_ heap_]. rewrite lookup_insert_eq. split; [|by eexists].
  unfold get_request in Eg. destruct (pending_requests_ s !! url) eqn:E; [by injection Eg as <- <-|].
  unfold make_shared in Eg. injection Eg as <- <-. cbn. apply lookup_insert_eq.
Qed.

(** What [CallApi] starts is a call of which the theorems above hold: the callback
    is in a request that was not sent, under the URL of the request when it is merged;
    and it joins a request only when that is in flight. *)
Theorem CallApi_starts settings base_url query_empty request callback s :
  PendingUrlRequests.ok (fun _ => False) s -> (forall url, id_free s url) ->
  exists result, CallApi settings base_url query_empty request callback s = Some result /\
    match result with
    | Answered _ => network_request_handler settings = false \/ Requests.ValidateBaseUrl base_url = false \/
        exists error, snd (Requests.AddBearer (authentication_settings settings) query_empty request) = Some error
    | Joined s' p _ => IsPending s' p = true /\ held (C := nat) (heap_ s') ≡ₚ callback :: held (heap_ s)
    | Started f merge url p _ => f = call_start (retry_settings settings) (requests f) /\ can_start merge url p (requests f) /\
        held (C := nat) (heap_ (requests f)) ≡ₚ callback :: held (heap_ s)
    end.
Proof.
  intros Hok Hfree. unfold CallApi. destruct (network_request_handler settings); [|eexists; split; [done|by left]].
  destruct (Requests.ValidateBaseUrl base_url); [|eexists; split; [done|by right; left]].
  cbn [negb]. destruct (Requests.AddBearer _ _ _) as [req [error|]]; [eexists; split; [done|]; right; right; by exists error|].
  assert (Hweak : forall merge p (s' : PendingUrlRequests nat), PendingUrlRequests.ok (fun _ => False) s' -> PendingUrlRequests.ok (only_caller merge p) s').
  { intros merge p s' [H1 H2 H3]. split; [done|done|]. intros q r Hq Ho. destruct (H3 q r Hq Ho) as [H|[]]. by left. }
  destruct (match body_ req with None | Some [] => true | _ => false end).
  - destruct (Append_accounted _ s (url_ req) callback Hok (Hfree (url_ req))) as (s' & k & p & E & Hok' & Hheld). rewrite E. cbn [mbind option_bind].
    rewrite app_nil_r in Hheld. destruct (Append_result _ _ _ _ _ _ E) as [Hp [r Hr]].
    rewrite <- Permutation_cons_append in Hheld. destruct (IsPending s' p) eqn:Ei; eexists; (split; [reflexivity|]); [done|].
    split; [done|]. split; [|done]. split; [by apply Hweak|]. split; [|done]. unfold id_at. cbn [requests call_start]. rewrite Hr. cbn.
    unfold IsPending in Ei. rewrite Hr in Ei. apply negb_false_iff, Z.eqb_eq in Ei. by rewrite Ei.
  - cbn [make_shared]. set (p := fresh (dom (heap_ s))). assert (Hp : heap_ s !! p = None) by (apply not_elem_of_dom, is_fresh).
    cbn [make_shared Append_callback fst snd]. eexists. split; [reflexivity|]. cbn [requests call_start]. split; [done|].
    rewrite insert_insert_eq. set (r := PendingUrlRequests.mkRequest _ _ _ _ _).
    assert (Hheld : held (<[p := r]> (heap_ s)) ≡ₚ callback :: held (heap_ s)) by by rewrite (held_insert _ _ _ Hp).
    split; [|exact Hheld]. destruct Hok as [H1 H2 H3].
    assert (Hnp : ~ pointed s p) by (intros [x Hx]%H1; by rewrite Hp in Hx).
    split; [|split; [unfold id_at; cbn [heap_]; by rewrite lookup_insert_eq|done]]. split; cbn [heap_].
    + intros q Hq. rewrite lookup_insert_is_Some'. right. by apply H1.
    + intros q r' [[_ <-]|[_ Hq]]%lookup_insert_Some; [|by apply (H2 q)]. split; [repeat constructor|done].
    + intros q r' [[<- _]|[_ Hq]]%lookup_insert_Some Ho; [by right; split|]. destruct (H3 q r' Hq Ho) as [H|[]]. by left.
Qed.

(** *** A run *)


Lemma CallApi_starts_witness : exists result,
  CallApi (Blocking.mkClientSettings true None default_settings) (chars "http://h") true (NetworkRequest_new u) 1%nat PendingUrlRequests_new = Some result /\
  match result with
  | Started f merge url p _ => can_start merge url p (requests f)
  | _ => False
  end.
Proof.
  destruct (CallApi_starts (Blocking.mkClientSettings true None default_settings) (chars "http://h") true (NetworkRequest_new u) 1%nat PendingUrlRequests_new (ok_new _))
    as (result & E & H).
  - intros url q r. cbn. by rewrite lookup_empty.
  - exists result. split; [exact E|]. injection E as <-. apply H.
Defined.

(** A retry; another caller joins and the first one cancels while the retry is in flight. *)
Definition joined_run : list event :=
  [SendSucceeds 7; Save; Responds (response_of 503); Process; Wake; SendSucceeds 8; Save; User (OpAppend u 2%nat); User (OpCancel u 0);
   Responds (response_of 200)].

Definition joined : flow :=
  match run default_settings true u 0 joined_run (call_start default_settings (one_request u)) with
  | Some f => f
  | None => call_start default_settings (one_request u)
  end.


Lemma joined_run_eq : run default_settings true u 0 joined_run (call_start default_settings (one_request u)) = Some joined.
Proof. vm_compute. reflexivity. Qed.



Lemma async_call_bounded_witness : Z.of_nat (sends joined) <= 4 /\ 0 <= slept joined <= 60000 /\ call_steps joined_run <= 28.
Proof.
  exact (async_call_bounded default_settings true u 0 ltac:(discriminate) ltac:(done) ltac:(discriminate) (one_request u) joined_run joined joined_run_eq).
Defined.
End Asynchronous.

(** ** The order of the mutexes

    The mutex of [PendingUrlRequests], the one of a [PendingUrlRequest] and the recursive
    one of its context, as the threads lock and unlock them. *)

Module Locks.

Inductive mutex := requests_mutex | request_mutex | context_mutex.
#[export] Instance mutex_eq_dec : EqDecision mutex.
Proof. solve_decision. Defined.

Inductive action := Lock (m : mutex) | Unlock (m : mutex).

Definition guard (m : mutex) (body : list action) : list action := Lock m :: body ++ [Unlock m].

Definition GetRequestId : list action := guard request_mutex [].
Definition IsCancelled : list action := guard context_mutex [].

(** [PendingUrlRequest::Cancel] of the last callback and [PendingUrlRequests::Cancel]. *)
Definition Cancel_request : list action := guard request_mutex (guard context_mutex []).
Definition Cancel : list action := guard requests_mutex (Cancel_request ++ IsCancelled).

(** [OnRequestCompleted] of the two classes. *)
Definition OnRequestCompleted_request : list action := guard request_mutex [] ++ IsCancelled.
Definition OnRequestCompleted : list action := guard requests_mutex GetRequestId ++ OnRequestCompleted_request.

(** The callback of [GetRetryCallback] for a final response, and [ExecuteSingleRequest]
    when [Send] succeeds or fails: the callback then runs inside. *)
Definition final_callback : list action := GetRequestId ++ OnRequestCompleted.
Definition send_succeeds : list action := guard context_mutex [].
Definition send_fails : list action := guard context_mutex final_callback.

(** What each thread has left to do, and who holds what. *)
Definition threads : Type := list (list action) * list (mutex * nat).

Definition can_lock (held : list (mutex * nat)) (t : nat) (m : mutex) : bool :=
  forallb (fun '(m', t') => negb (bool_decide (m' = m)) || (bool_decide (m = context_mutex) && (t' =? t)%nat)) held.

Fixpoint remove_first (e : mutex * nat) (l : list (mutex * nat)) : list (mutex * nat) :=
  match l with
  | [] => []
  | e' :: l => if decide (e' = e) then l else e' :: remove_first e l
  end.

Definition lock_step (t : nat) (y : threads) : option threads :=
  match y.1 !! t with
  | Some (Lock m :: rest) => if can_lock y.2 t m then Some (<[t := rest]> y.1, (m, t) :: y.2) else None
  | Some (Unlock m :: rest) => Some (<[t := rest]> y.1, remove_first (m, t) y.2)
  | _ => None
  end.

Fixpoint schedule (ts : list nat) (y : threads) : option threads :=
  match ts with
  | [] => Some y
  | t :: ts => y ← lock_step t y; schedule ts y
  end.

Definition ended (y : threads) : bool := forallb (fun p => match p with [] => true | _ => false end) y.1.

(** No thread can go on and one has something left to do. *)
Definition deadlocked (y : threads) : Prop := ended y = false /\ forall t, lock_step t y = None.

(** A caller that cancels the last callback while [Send] fails for the same request
    can wait for ever: the thread that sends holds the mutex of the context and wants
    that of the request, the other one holds that and wants the context's. *)
Theorem send_failure_deadlock : exists ts y,
  schedule ts ([send_fails; Cancel], []) = Some y /\ deadlocked y.
Proof.
  exists [0; 1; 1]%nat. eexists. split; [vm_compute; reflexivity|]. split; [reflexivity|].
  intros [|[|t]]; [vm_compute; reflexivity..|done].
Qed.

(** Without the failure the two threads always come to an end: from every state that
    they can get to there is a next step. *)
Fixpoint never_stuck (fuel : nat) (y : threads) : bool :=
  match fuel with
  | O => false
  | S fuel =>
      ended y ||
      (existsb (fun t => match lock_step t y with Some _ => true | None => false end) [0; 1; 2]%nat &&
       forallb (fun t => match lock_step t y with Some y' => never_stuck fuel y' | None => true end) [0; 1; 2]%nat)
  end.

Lemma never_stuck_sound fuel y ts y' : length y.1 = 3%nat -> never_stuck fuel y = true -> schedule ts y = Some y' -> ~ deadlocked y'.
Proof.
  revert fuel y. induction ts as [|t ts IH]; intros fuel y Hl H; cbn [schedule].
  - intros [= <-] [He Hd]. destruct fuel as [|fuel]; [done|]. cbn [never_stuck] in H. rewrite He in H. cbn [orb] in H.
    apply andb_true_iff in H as [H _]. apply existsb_exists in H as (t & _ & H). by rewrite (Hd t) in H.
  - destruct (lock_step t y) as [y1|] eqn:E; [|done]. cbn [mbind option_bind]. intros Hs.
    assert (Ht : (t < 3)%nat /\ length y1.1 = 3%nat).
    { unfold lock_step in E. destruct (y.1 !! t) as [[|[m|m] rest]|] eqn:El; try done; apply lookup_lt_Some in El.
      - destruct (can_lock _ _ _); [|done]. injection E as <-. cbn. rewrite length_insert. lia.
      - injection E as <-. cbn. rewrite length_insert. lia. }
    destruct Ht as [Ht Hl1]. destruct fuel as [|fuel]; [done|]. cbn [never_stuck] in H.
    destruct (ended y) eqn:He.
    { exfalso. unfold ended in He. unfold lock_step in E. destruct (y.1 !! t) as [[|a rest]|] eqn:El; try done.
      apply list_elem_of_lookup_2, list_elem_of_In in El. by apply (proj1 (forallb_forall _ _) He) in El. }
    cbn [orb] in H. apply andb_true_iff in H as [_ H].
    apply (IH fuel y1 Hl1); [|done]. assert (Hin : In t [0; 1; 2]%nat) by (cbn; lia).
    apply (proj1 (forallb_forall _ _) H) in Hin. by rewrite E in Hin.
Qed.

(** Sending, cancelling the last callback and the callback of the network never
    deadlock when [Send] succeeds. *)
Theorem no_deadlock ts y : schedule ts ([send_succeeds; Cancel; final_callback], []) = Some y -> ~ deadlocked y.
Proof. apply (never_stuck_sound 40); [done|]. vm_compute. reflexivity. Qed.

Lemma no_deadlock_witness : exists y, schedule [0; 1; 0; 1]%nat ([send_succeeds; Cancel; final_callback], []) = Some y /\ ~ deadlocked y.
Proof.
  eexists. split; [vm_compute; reflexivity|]. apply (no_deadlock [0; 1; 0; 1]%nat). vm_compute. reflexivity.
Defined.
End Locks.
