(* ===== verification/NamedMutex.v ===== *)
(** * Named mutexes

    Model of [NamedMutexStorage] and [NamedMutex] (dataservice-read,
    src/repositories/NamedMutex.cpp and .h): the repositories use them so that one of
    several threads that ask for the same resource downloads it, and an error that it
    gets is shared with the others.

    Every thread has one [NamedMutex]; it constructs it, locks and unlocks it, and
    destroys it, and its context can be cancelled by another thread at any time.  A step
    is a part of the code that runs under one lock, or one access to an atomic. *)

From S2P Require Import Prelude TaskContext.
Import CancellationContext.

Section named_mutex.
(** Errors *)
Context {E : Type}.

(** [mutex] by the thread that has locked it. *)
Record RefCounterMutex := mkRefCounterMutex {
  owner : option nat;
  use_count : Z;
  optional_error : option E }.

Definition RefCounterMutex_new : RefCounterMutex := mkRefCounterMutex None 0 None.

(** ** The storage *)

Abbreviation mutexes := (gmap (list ascii) RefCounterMutex).

(** [mutexes_\[resource\]] *)
Definition at_resource (m : mutexes) (resource : list ascii) : RefCounterMutex := default RefCounterMutex_new (m !! resource).

Definition AcquireLock (m : mutexes) (resource : list ascii) : mutexes :=
  let ref_mutex := at_resource m resource in
  <[resource := mkRefCounterMutex (owner ref_mutex) (u32 (use_count ref_mutex + 1)) (optional_error ref_mutex)]> m.

Definition ReleaseLock (m : mutexes) (resource : list ascii) : mutexes :=
  match m !! resource with
  | None => m
  | Some ref_mutex =>
      let use_count := u32 (use_count ref_mutex - 1) in
      if use_count =? 0 then delete resource m
      else <[resource := mkRefCounterMutex (owner ref_mutex) use_count (optional_error ref_mutex)]> m
  end.

Definition SetError (m : mutexes) (resource : list ascii) (error : E) : mutexes :=
  match m !! resource with
  | None => m
  | Some ref_mutex => <[resource := mkRefCounterMutex (owner ref_mutex) (use_count ref_mutex) (Some error)]> m
  end.

Definition GetError (m : mutexes) (resource : list ascii) : option E :=
  match m !! resource with None => None | Some ref_mutex => optional_error ref_mutex end.

(** [mutex_.try_lock()] and [mutex_.unlock()] of a mutex of the storage. *)
Definition set_owner (o : option nat) (m : mutexes) (resource : list ascii) : mutexes :=
  alter (fun r => mkRefCounterMutex o (use_count r) (optional_error r)) resource m.

(** ** The threads *)

(** Where a thread is: before its object is constructed, in [lock], in the section that
    the mutex protects, in [unlock], and after the destructor. *)
Inductive pc :=
| New
| Created
| LockStore (executed : bool)
| LockCheck
| Waiting
| LockReset
| Entered
| UnlockFlag
| UnlockNotify
| Unlocked
| Gone.

(** A token of the context is that of [lock].  [cancelling]: another thread cancels, it
    has stored [is_canceled_] and not yet notified, and holds the mutex of the context. *)
Record NamedMutex := mkNamedMutex {
  name_ : list ascii;
  pc_ : pc;
  context_ : CancellationContextImpl unit;
  cancelling : bool;
  is_locked_ : bool;
  is_canceled_ : bool }.

Definition NamedMutex_new (name : list ascii) (context : CancellationContextImpl unit) : NamedMutex :=
  mkNamedMutex name New context false false false.

Definition set_pc (p : pc) (t : NamedMutex) : NamedMutex :=
  mkNamedMutex (name_ t) p (context_ t) (cancelling t) (is_locked_ t) (is_canceled_ t).
Definition set_context (c : CancellationContextImpl unit) (t : NamedMutex) : NamedMutex :=
  mkNamedMutex (name_ t) (pc_ t) c (cancelling t) (is_locked_ t) (is_canceled_ t).
Definition set_locked (b : bool) (t : NamedMutex) : NamedMutex :=
  mkNamedMutex (name_ t) (pc_ t) (context_ t) (cancelling t) b (is_canceled_ t).
Definition set_canceled (b : bool) (t : NamedMutex) : NamedMutex :=
  mkNamedMutex (name_ t) (pc_ t) (context_ t) (cancelling t) (is_locked_ t) b.
Definition set_cancelling (b : bool) (t : NamedMutex) : NamedMutex :=
  mkNamedMutex (name_ t) (pc_ t) (context_ t) b (is_locked_ t) (is_canceled_ t).

Record system := mkSystem { mutexes_ : mutexes; threads : list NamedMutex }.

(** [Notify]: the threads that wait for the condition check it again. *)
Definition wake (name : list ascii) (t : NamedMutex) : NamedMutex :=
  if bool_decide (name_ t = name) && match pc_ t with Waiting => true | _ => false end then set_pc LockCheck t else t.

Definition notify (name : list ascii) (l : list NamedMutex) : list NamedMutex := wake name <$> l.

Inductive event :=
| Run (i : nat)
| Fail (i : nat) (error : E)
| CancelBegin (i : nat)
| CancelEnd (i : nat)
| Spurious (i : nat).

(** The next step of the thread [i]. *)
Definition run_thread (y : system) (i : nat) (t : NamedMutex) : option system :=
  let go m t := Some (mkSystem m (<[i := t]> (threads y))) in
  let m := mutexes_ y in
  match pc_ t with
  | New => go (AcquireLock m (name_ t)) (set_pc Created t)
  | Created =>
      if cancelling t then None
      else let '(c, executed) := ExecuteOrCancelled (context_ t) (Some (Some tt)) in
           go m (set_pc (LockStore executed) (set_context c t))
  | LockStore executed =>
      go m (set_pc (if executed : bool then LockCheck else LockReset) (set_canceled (negb executed) t))
  | LockCheck =>
      if is_canceled_ t then go m (set_pc LockReset t)
      else match owner (at_resource m (name_ t)) with
           | None => go (set_owner (Some i) m (name_ t)) (set_pc LockReset (set_locked true t))
           | Some _ => go m (set_pc Waiting (set_locked false t))
           end
  | Waiting => None
  | LockReset =>
      if cancelling t then None
      else go m (set_pc Entered (set_context (fst (ExecuteOrCancelled (context_ t) (Some None))) t))
  | Entered =>
      if is_locked_ t then go (set_owner None m (name_ t)) (set_pc UnlockFlag t) else go m (set_pc Unlocked t)
  | UnlockFlag => go m (set_pc UnlockNotify (set_locked false t))
  | UnlockNotify => Some (mkSystem m (<[i := set_pc Unlocked t]> (notify (name_ t) (threads y))))
  | Unlocked => go (ReleaseLock m (name_ t)) (set_pc Gone t)
  | Gone => None
  end.

Definition perform (y : system) (e : event) : option system :=
  match e with
  | Run i => t ← threads y !! i; run_thread y i t
  | Fail i error =>
      t ← threads y !! i;
      match pc_ t with
      | Entered => Some (mkSystem (SetError (mutexes_ y) (name_ t) error) (threads y))
      | _ => None
      end
  | CancelBegin i =>
      t ← threads y !! i;
      if cancelling t || IsCancelled (context_ t) then None
      else match sub_operation_cancel_token_ (context_ t) with
           | Some _ => Some (mkSystem (mutexes_ y) (<[i := set_cancelling true (set_canceled true t)]> (threads y)))
           | None => Some (mkSystem (mutexes_ y) (<[i := set_context (fst (CancelOperation (context_ t))) t]> (threads y)))
           end
  | CancelEnd i =>
      t ← threads y !! i;
      if cancelling t then
        let t := wake (name_ t) t in
        Some (mkSystem (mutexes_ y)
                (<[i := set_cancelling false (set_context (fst (CancelOperation (context_ t))) t)]> (notify (name_ t) (threads y))))
      else None
  | Spurious i =>
      t ← threads y !! i;
      match pc_ t with
      | Waiting => Some (mkSystem (mutexes_ y) (<[i := set_pc LockCheck t]> (threads y)))
      | _ => None
      end
  end.

Fixpoint run (es : list event) (y : system) : option system :=
  match es with
  | [] => Some y
  | e :: es => y ← perform y e; run es y
  end.

Inductive step : system -> system -> Prop :=
| step_event e y y' : perform y e = Some y' -> step y y'.

(** Threads that are about to use their mutexes, and nothing stored; [use_count] can
    count them. *)
Definition initial (y : system) : Prop :=
  mutexes_ y = ∅ /\ Z.of_nat (length (threads y)) < 2 ^ 32 /\
  Forall (fun t => pc_ t = New /\ cancelling t = false /\ is_locked_ t = false /\ is_canceled_ t = false /\
                   sub_operation_cancel_token_ (context_ t) = None) (threads y).

Definition reachable (y : system) : Prop := exists y0, initial y0 /\ rtc step y0 y.
End named_mutex.
#[global] Arguments RefCounterMutex : clear implicits.
#[global] Arguments system : clear implicits.
#[global] Arguments event : clear implicits.

(** ** The invariant *)

Section invariant.
Context {E : Type}.
Abbreviation system := (system E).
Abbreviation event := (event E).
Abbreviation mutexes := (gmap (list ascii) (RefCounterMutex E)).
Implicit Types (y : system) (m : mutexes) (l : list NamedMutex) (t : NamedMutex) (n : list ascii).

(** The object of the thread exists. *)
Definition live (p : pc) : bool := match p with New | Gone => false | _ => true end.
Definition uses n t : bool := bool_decide (name_ t = n) && live (pc_ t).
Definition users n l : Z := Z.of_nat (length (List.filter (uses n) l)).

(** The thread is in the section that the mutex protects, or about to enter it. *)
Definition has_lock t : bool := is_locked_ t && match pc_ t with LockReset | Entered => true | _ => false end.

Definition unlocking (p : pc) : bool := match p with UnlockFlag | UnlockNotify => true | _ => false end.

(** What a thread that waits can wait for. *)
Definition waits_for m l n : Prop :=
  (exists r j, m !! n = Some r /\ owner r = Some j) \/ (exists j t, l !! j = Some t /\ name_ t = n /\ unlocking (pc_ t) = true).

Record inv y : Prop := {
  inv_size : Z.of_nat (length (threads y)) < 2 ^ 32;
  inv_count : forall n, match mutexes_ y !! n with
                        | Some r => use_count r = users n (threads y) /\ 0 < users n (threads y)
                        | None => users n (threads y) = 0
                        end;
  inv_owner : forall n r i, mutexes_ y !! n = Some r -> owner r = Some i ->
                exists t, threads y !! i = Some t /\ name_ t = n /\ has_lock t = true;
  inv_has : forall i t, threads y !! i = Some t -> has_lock t = true ->
              exists r, mutexes_ y !! name_ t = Some r /\ owner r = Some i;
  inv_locked : forall i t, threads y !! i = Some t -> is_locked_ t = true ->
                 match pc_ t with LockReset | Entered | UnlockFlag => True | _ => False end;
  inv_waiting : forall i t, threads y !! i = Some t -> pc_ t = Waiting ->
                  (is_canceled_ t = true -> cancelling t = true) /\ waits_for (mutexes_ y) (threads y) (name_ t) }.

Lemma users_insert n l i t t' : l !! i = Some t ->
  users n (<[i := t']> l) + (if uses n t then 1 else 0) = users n l + (if uses n t' then 1 else 0).
Proof.
  intros H. unfold users. rewrite insert_take_drop by by eapply lookup_lt_Some. rewrite <- (take_drop_middle l i t H) at 3.
  rewrite !List.filter_app. cbn [List.filter]. destruct (uses n t), (uses n t'); rewrite !length_app; cbn [length]; lia.
Qed.

Lemma users_pos n l i t : l !! i = Some t -> uses n t = true -> 0 < users n l.
Proof.
  intros H Hu. unfold users. enough (Hin : In t (List.filter (uses n) l)) by (destruct (List.filter _ _); [done|cbn; lia]).
  apply filter_In. split; [|done]. apply list_elem_of_In. by eapply list_elem_of_lookup_2.
Qed.

Lemma users_bound n l : users n l <= Z.of_nat (length l).
Proof. unfold users. pose proof (List.filter_length_le (uses n) l). lia. Qed.

Lemma thread_insert_cases l i t t' j x : l !! i = Some t -> <[i := t']> l !! j = Some x -> j = i /\ x = t' \/ j <> i /\ l !! j = Some x.
Proof.
  intros Hi Hj. destruct (decide (j = i)) as [->|Hn].
  - left. rewrite list_lookup_insert_eq in Hj; [by injection Hj as <-|by eapply lookup_lt_Some].
  - right. by rewrite list_lookup_insert_ne in Hj.
Qed.

Lemma insert_other l i t t' j x : l !! i = Some t -> l !! j = Some x -> <[i := t']> l !! j = Some (if decide (j = i) then t' else x).
Proof.
  intros Hi Hj. destruct (decide (j = i)) as [->|Hn]; [|by rewrite list_lookup_insert_ne].
  rewrite list_lookup_insert_eq; [done|by eapply lookup_lt_Some].
Qed.

(** Of the threads that are unlocking, or of the owner, something stays to wait for. *)
Lemma waits_for_insert m l i t t' n : l !! i = Some t -> name_ t' = name_ t ->
  (unlocking (pc_ t) = true -> unlocking (pc_ t') = true) -> waits_for m l n -> waits_for m (<[i := t']> l) n.
Proof.
  intros Hi Hn Hu [H|(j & x & Hj & Hx & Hp)]; [by left|right]. exists j, (if decide (j = i) then t' else x).
  split; [by apply insert_other with t|]. destruct (decide (j = i)) as [->|]; [|done]. rewrite Hi in Hj. injection Hj as <-.
  split; [congruence|auto].
Qed.

(** A step that changes only its thread. *)
Lemma quiet y i t t' : inv y -> threads y !! i = Some t -> name_ t' = name_ t -> live (pc_ t') = live (pc_ t) ->
  has_lock t' = has_lock t -> (is_locked_ t' = true -> match pc_ t' with LockReset | Entered | UnlockFlag => True | _ => False end) ->
  (unlocking (pc_ t) = true -> unlocking (pc_ t') = true \/ forall j x, threads y !! j = Some x -> name_ x = name_ t -> pc_ x <> Waiting) ->
  (pc_ t' = Waiting -> unlocking (pc_ t) = false /\ (is_canceled_ t' = true -> cancelling t' = true) /\ waits_for (mutexes_ y) (threads y) (name_ t)) ->
  inv (mkSystem (mutexes_ y) (<[i := t']> (threads y))).
Proof.
  intros [I0 I1 I2 I3 I4 I5] Hi Hn Hl Hh Hlk Hu Hw. split; cbn [mutexes_ threads]; [by rewrite length_insert|..].
  - intros n. assert (Hc : users n (<[i := t']> (threads y)) = users n (threads y)).
    { pose proof (users_insert n _ i t t' Hi) as Hc. unfold uses in Hc at 1 2. rewrite Hn, Hl in Hc. lia. }
    rewrite Hc. apply I1.
  - intros n r j Hr Ho. destruct (I2 n r j Hr Ho) as (x & Hj & Hx & Hxl). exists (if decide (j = i) then t' else x).
    split; [by apply insert_other with t|]. destruct (decide (j = i)) as [->|]; [|done]. rewrite Hi in Hj. injection Hj as <-. split; congruence.
  - intros j x [[-> ->]|[_ Hj]]%(thread_insert_cases _ i t t' j x Hi) Hx; [|by eapply I3]. rewrite Hn. apply (I3 i t Hi). congruence.
  - intros j x [[-> ->]|[_ Hj]]%(thread_insert_cases _ i t t' j x Hi) Hx; [by apply Hlk|by apply (I4 j)].
  - intros j x [[-> ->]|[Hji Hj]]%(thread_insert_cases _ i t t' j x Hi) Hx.
    + destruct (Hw Hx) as (Hnu & Hc & Ho). split; [done|]. rewrite Hn. apply waits_for_insert with t; [done|done|congruence|done].
    + destruct (I5 j x Hj Hx) as [Hc Ho]. split; [done|]. destruct (unlocking (pc_ t)) eqn:Eu.
      * destruct (Hu eq_refl) as [Hu'|Hno]; [by apply waits_for_insert with t|].
        destruct Ho as [Ho|(k & z & Hk & Hz & Hzp)]; [by left|].
        destruct (decide (k = i)) as [->|]; [rewrite Hi in Hk; injection Hk as <-; by destruct (Hno j x Hj (eq_sym Hz))|].
        right. exists k, z. by rewrite list_lookup_insert_ne.
      * apply waits_for_insert with t; [done|done|congruence|done].
Qed.

(** After a notification no thread waits for the name. *)
Lemma notify_inv y n : inv y -> inv (mkSystem (mutexes_ y) (notify n (threads y))) /\
  (forall j x, notify n (threads y) !! j = Some x -> name_ x = n -> pc_ x <> Waiting).
Proof.
  intros [I0 I1 I2 I3 I4 I5]. unfold notify. set (f := wake n).
  assert (Hname : forall t, name_ (f t) = name_ t) by (intros t; unfold f, wake; by destruct (_ && _)).
  assert (Hpc : forall t, pc_ (f t) = pc_ t \/ (pc_ t = Waiting /\ pc_ (f t) = LockCheck)).
  { intros t. unfold f, wake. destruct (bool_decide (name_ t = n)); cbn [andb]; [|by left]. destruct (pc_ t) eqn:Ep; auto. }
  assert (Hlk : forall t, is_locked_ (f t) = is_locked_ t) by (intros t; unfold f, wake; by destruct (_ && _)).
  assert (Hcan : forall t, is_canceled_ (f t) = is_canceled_ t /\ cancelling (f t) = cancelling t) by (intros t; unfold f, wake; by destruct (_ && _)).
  assert (Hh : forall t, has_lock (f t) = has_lock t) by (intros t; unfold has_lock; rewrite Hlk; destruct (Hpc t) as [->|[-> ->]]; done).
  split; [split; cbn [mutexes_ threads]; [by rewrite length_fmap|..]|].
  - intros n'. assert (Hc : users n' (f <$> threads y) = users n' (threads y)).
    { unfold users. f_equal. generalize (threads y). clear -Hname Hpc. induction l as [|t l IH]; [done|]. cbn [fmap list_fmap List.filter].
      assert (Hus : uses n' (f t) = uses n' t) by (unfold uses; rewrite Hname; destruct (Hpc t) as [->|[-> ->]]; done).
      rewrite Hus. destruct (uses n' t); cbn [length]; [f_equal|]; exact IH. }
    rewrite Hc. apply I1.
  - intros n' r i Hr Ho. destruct (I2 n' r i Hr Ho) as (t & Ht & Hn & Hhl). exists (f t). rewrite list_lookup_fmap, Ht, Hname, Hh. done.
  - intros i x. rewrite list_lookup_fmap. intros (t & Ht & ->)%fmap_Some. rewrite Hh, Hname. by apply I3.
  - intros i x. rewrite list_lookup_fmap. intros (t & Ht & ->)%fmap_Some. rewrite Hlk. intros Hb. specialize (I4 i t Ht Hb).
    destruct (Hpc t) as [->|[Ep _]]; [done|by rewrite Ep in I4].
  - intros i x. rewrite list_lookup_fmap. intros (t & Ht & ->)%fmap_Some. rewrite Hname. destruct (Hcan t) as [-> ->].
    destruct (Hpc t) as [->|[_ ->]]; [|done]. intros Hp. destruct (I5 i t Ht Hp) as [Hc Hw]. split; [done|].
    destruct Hw as [H|(j & z & Hj & Hz & Hzp)]; [by left|right]. exists j, (f z). rewrite list_lookup_fmap, Hj, Hname.
    destruct (Hpc z) as [->|[Ep _]]; [done|by rewrite Ep in Hzp].
  - intros j x. rewrite list_lookup_fmap. intros (t & Ht & ->)%fmap_Some. rewrite Hname. intros Hn. unfold f, wake. rewrite bool_decide_eq_true_2 by done. cbn [andb].
    by destruct (pc_ t) eqn:Ep; cbn; rewrite ?Ep.
Qed.

(** A step that changes the entry of the name of its thread too. *)
Lemma change y i t t' m' : inv y -> threads y !! i = Some t -> name_ t' = name_ t ->
  (forall n, n <> name_ t -> m' !! n = mutexes_ y !! n) ->
  let l' := <[i := t']> (threads y) in let n := name_ t in
  match m' !! n with Some r => use_count r = users n l' /\ 0 < users n l' | None => users n l' = 0 end ->
  (forall r j, m' !! n = Some r -> owner r = Some j -> exists x, l' !! j = Some x /\ name_ x = n /\ has_lock x = true) ->
  (forall j x, l' !! j = Some x -> name_ x = n -> has_lock x = true -> exists r, m' !! n = Some r /\ owner r = Some j) ->
  (is_locked_ t' = true -> match pc_ t' with LockReset | Entered | UnlockFlag => True | _ => False end) ->
  (forall j x, l' !! j = Some x -> name_ x = n -> pc_ x = Waiting -> (is_canceled_ x = true -> cancelling x = true) /\ waits_for m' l' n) ->
  inv (mkSystem m' l').
Proof.
  intros [I0 I1 I2 I3 I4 I5] Hi Hn Hm l' n Hc Ho Hh Hlk Hw. split; cbn [mutexes_ threads]; [unfold l'; by rewrite length_insert|..].
  - intros n'. destruct (decide (n' = n)) as [->|Hne]; [exact Hc|]. rewrite Hm by done.
    assert (Hcount : users n' l' = users n' (threads y)).
    { pose proof (users_insert n' _ i t t' Hi) as H. fold l' in H.
      assert (Hu : uses n' t = false /\ uses n' t' = false) by (unfold uses; by rewrite Hn, bool_decide_eq_false_2).
      destruct Hu as [Hu Hu']. rewrite Hu, Hu' in H. lia. }
    rewrite Hcount. apply I1.
  - intros n' r j. destruct (decide (n' = n)) as [->|Hne]; [apply Ho|]. rewrite Hm by done. intros Hr Hj.
    destruct (I2 n' r j Hr Hj) as (x & Hx & Hxn & Hxl). exists x. split; [|done]. unfold l'. rewrite list_lookup_insert_ne; [done|].
    intros ->. rewrite Hi in Hx. injection Hx as <-. done.
  - intros j x Hx Hxl. destruct (decide (name_ x = n)) as [Ex|Hne]; [rewrite Ex; by apply Hh with x|].
    apply (thread_insert_cases _ i t t' j x Hi) in Hx as [[-> ->]|[_ Hx]]; [by rewrite Hn in Hne|]. rewrite Hm by done. by apply I3.
  - intros j x [[-> ->]|[_ Hj]]%(thread_insert_cases _ i t t' j x Hi) Hx; [by apply Hlk|by apply (I4 j)].
  - intros j x Hx Hp. destruct (decide (name_ x = n)) as [Ex|Hne]; [rewrite Ex; by apply Hw with j|].
    apply (thread_insert_cases _ i t t' j x Hi) in Hx as [[-> ->]|[_ Hx]]; [by rewrite Hn in Hne|].
    destruct (I5 j x Hx Hp) as [Hcan Hwait]. split; [done|]. destruct Hwait as [(r & k & Hr & Hk)|(k & z & Hz & Hzn & Hzp)].
    + left. exists r, k. by rewrite Hm.
    + right. exists k, z. split; [|done]. unfold l'. rewrite list_lookup_insert_ne; [done|]. intros ->. rewrite Hi in Hz. injection Hz as <-. by destruct Hne.
Qed.

(** The entry of a thread whose object exists. *)
Lemma live_entry y i t : inv y -> threads y !! i = Some t -> live (pc_ t) = true ->
  exists r, mutexes_ y !! name_ t = Some r /\ use_count r = users (name_ t) (threads y) /\ 0 < users (name_ t) (threads y).
Proof.
  intros Hy Hi Hl. pose proof (inv_count y Hy (name_ t)) as Hc.
  assert (Hp : 0 < users (name_ t) (threads y)) by (eapply users_pos; [exact Hi|unfold uses; by rewrite bool_decide_eq_true_2]).
  destruct (mutexes_ y !! name_ t) as [r|]; [by exists r|lia].
Qed.

Lemma users_step n l i t t' b b' : l !! i = Some t -> uses n t = b -> uses n t' = b' ->
  users n (<[i := t']> l) = users n l + (if b' then 1 else 0) - (if b then 1 else 0).
Proof. intros Hi <- <-. pose proof (users_insert n l i t t' Hi). lia. Qed.

Lemma uses_own t : uses (name_ t) t = live (pc_ t).
Proof. unfold uses. by rewrite bool_decide_eq_true_2. Qed.

(** The owner and the threads that hold the lock stay, when the thread that steps does
    not hold it before or after. *)
Lemma owner_kept y i t t' r : inv y -> threads y !! i = Some t -> mutexes_ y !! name_ t = Some r -> name_ t' = name_ t ->
  has_lock t = false -> has_lock t' = false ->
  (forall j, owner r = Some j -> exists x, <[i := t']> (threads y) !! j = Some x /\ name_ x = name_ t /\ has_lock x = true) /\
  (forall j x, <[i := t']> (threads y) !! j = Some x -> name_ x = name_ t -> has_lock x = true -> owner r = Some j).
Proof.
  intros Hy Hi Hr Hn Hl Hl'. split.
  - intros j Hj. destruct (inv_owner y Hy _ r j Hr Hj) as (x & Hx & Hxn & Hxl). exists x. split; [|done].
    rewrite list_lookup_insert_ne; [done|]. intros ->. rewrite Hi in Hx. injection Hx as <-. congruence.
  - intros j x [[-> ->]|[_ Hj]]%(thread_insert_cases _ i t t' j x Hi) Hx Hxl; [congruence|].
    destruct (inv_has y Hy j x Hj Hxl) as (r' & Hr' & Ho). rewrite Hx, Hr in Hr'. by injection Hr' as <-.
Qed.

(** What the threads that wait for a name wait for, when its entry keeps its owner. *)
Lemma waiting_kept y i t t' m' : inv y -> threads y !! i = Some t -> name_ t' = name_ t -> pc_ t' <> Waiting ->
  (unlocking (pc_ t) = true -> unlocking (pc_ t') = true) ->
  (forall r j, mutexes_ y !! name_ t = Some r -> owner r = Some j -> exists r', m' !! name_ t = Some r' /\ owner r' = Some j) ->
  forall j x, <[i := t']> (threads y) !! j = Some x -> name_ x = name_ t -> pc_ x = Waiting ->
    (is_canceled_ x = true -> cancelling x = true) /\ waits_for m' (<[i := t']> (threads y)) (name_ t).
Proof.
  intros Hy Hi Hn Hp Hu Hm j x [[-> ->]|[_ Hj]]%(thread_insert_cases _ i t t' j x Hi) Hx Hxp; [done|].
  destruct (inv_waiting y Hy j x Hj Hxp) as [Hc Hw]. split; [done|]. rewrite Hx in Hw.
  destruct Hw as [(r & k & Hr & Hk)|Hw]; [left|apply waits_for_insert with t; [done|done|done|by right]].
  destruct (Hm r k Hr Hk) as (r' & Hr' & Ho). by exists r', k.
Qed.

Lemma construct_inv y i t : inv y -> threads y !! i = Some t -> pc_ t = New ->
  inv (mkSystem (AcquireLock (mutexes_ y) (name_ t)) (<[i := set_pc Created t]> (threads y))).
Proof.
  intros Hy Hi Hp. pose proof (inv_count y Hy (name_ t)) as Hc. pose proof (users_bound (name_ t) (threads y)) as Hb. pose proof (inv_size y Hy) as Hs.
  assert (Hl : has_lock t = false) by (unfold has_lock; rewrite Hp; apply andb_false_r).
  assert (Hlk : is_locked_ t = false) by (destruct (is_locked_ t) eqn:El; [pose proof (inv_locked y Hy i t Hi El) as H; by rewrite Hp in H|done]).
  assert (Hu : users (name_ t) (<[i := set_pc Created t]> (threads y)) = users (name_ t) (threads y) + 1).
  { rewrite (users_step _ _ i t _ false true Hi); [lia| |]; rewrite ?uses_own, ?Hp; [done|]. change (name_ t) with (name_ (set_pc Created t)). by rewrite uses_own. }
  assert (Hfull : users (name_ t) (<[i := set_pc Created t]> (threads y)) <= Z.of_nat (length (threads y)))
    by (rewrite <- (length_insert (threads y) i (set_pc Created t)); apply users_bound).
  unfold AcquireLock, at_resource. apply (change y i t); try done.
  - intros n Hne. by rewrite lookup_insert_ne.
  - rewrite lookup_insert_eq. cbn [use_count]. rewrite Hu. pose proof (users_bound (name_ t) (threads y)). split; [|unfold users; lia].
    destruct (mutexes_ y !! name_ t) as [r|]; cbn [default from_option id use_count]; [|rewrite Hc; reflexivity].
    change (use_count (id r)) with (use_count r). destruct Hc as [-> _]. apply Z.mod_small. unfold users in *. lia.
  - intros r j. rewrite lookup_insert_eq. intros [= <-]. cbn [owner]. intros Ho. destruct (mutexes_ y !! name_ t) as [r|] eqn:En; [|done].
    by apply (proj1 (owner_kept y i t (set_pc Created t) r Hy Hi En eq_refl Hl (andb_false_r _)) j).
  - intros j x Hx Hxn Hxl. rewrite lookup_insert_eq. eexists. split; [done|]. cbn [owner].
    destruct (mutexes_ y !! name_ t) as [r|] eqn:En.
    + by apply (proj2 (owner_kept y i t (set_pc Created t) r Hy Hi En eq_refl Hl (andb_false_r _)) j x).
    + apply (thread_insert_cases _ i t _ j x Hi) in Hx as [[-> ->]|[_ Hx]]; [unfold has_lock in Hxl; cbn in Hxl; by rewrite andb_false_r in Hxl|].
      destruct (inv_has y Hy j x Hx Hxl) as (r & Hr & _). by rewrite Hxn, En in Hr.
  - cbn. by rewrite Hlk.
  - apply waiting_kept; try done; [by rewrite Hp|]. intros r j Hr Ho. rewrite lookup_insert_eq, Hr. eexists. split; [done|exact Ho].
Qed.

Lemma destroy_inv y i t : inv y -> threads y !! i = Some t -> pc_ t = Unlocked ->
  inv (mkSystem (ReleaseLock (mutexes_ y) (name_ t)) (<[i := set_pc Gone t]> (threads y))).
Proof.
  intros Hy Hi Hp. destruct (live_entry y i t Hy Hi) as (r & Hr & Hc & Hpos); [by rewrite Hp|].
  pose proof (users_bound (name_ t) (threads y)) as Hb. pose proof (inv_size y Hy) as Hs.
  assert (Hl : has_lock t = false) by (unfold has_lock; rewrite Hp; apply andb_false_r).
  assert (Hlk : is_locked_ t = false) by (destruct (is_locked_ t) eqn:El; [pose proof (inv_locked y Hy i t Hi El) as H; by rewrite Hp in H|done]).
  assert (Hu : users (name_ t) (<[i := set_pc Gone t]> (threads y)) = users (name_ t) (threads y) - 1).
  { rewrite (users_step _ _ i t _ true false Hi); [lia| |]; rewrite ?uses_own, ?Hp; [done|]. change (name_ t) with (name_ (set_pc Gone t)). by rewrite uses_own. }
  destruct (owner_kept y i t (set_pc Gone t) r Hy Hi Hr eq_refl Hl (andb_false_r _)) as [Ho1 Ho2].
  unfold ReleaseLock. rewrite Hr, Hc. unfold u32. rewrite Z.mod_small by (unfold users in *; lia).
  assert (Hgone : is_locked_ (set_pc Gone t) = true -> match pc_ (set_pc Gone t) with LockReset | Entered | UnlockFlag => True | _ => False end) by (cbn; by rewrite Hlk).
  assert (Hown : users (name_ t) (threads y) = 1 -> forall j x, <[i := set_pc Gone t]> (threads y) !! j = Some x -> name_ x = name_ t -> live (pc_ x) = true -> False).
  { intros H1 j x Hx Hxn Hxl. assert (Hx' : 0 < users (name_ t) (<[i := set_pc Gone t]> (threads y)))
      by (eapply users_pos; [exact Hx|unfold uses; by rewrite bool_decide_eq_true_2]). lia. }
  destruct (Z.eqb_spec (users (name_ t) (threads y) - 1) 0) as [E0|E0]; apply (change y i t); try done.
  - intros n Hne. by rewrite lookup_delete_ne.
  - rewrite lookup_delete_eq. lia.
  - intros r' j. by rewrite lookup_delete_eq.
  - intros j x Hx Hxn Hxl. destruct (Hown ltac:(lia) j x Hx Hxn). unfold has_lock in Hxl. apply andb_true_iff in Hxl as [_ Hxl]. by destruct (pc_ x).
  - intros j x Hx Hxn Hxp. destruct (Hown ltac:(lia) j x Hx Hxn). by rewrite Hxp.
  - intros n Hne. by rewrite lookup_insert_ne.
  - rewrite lookup_insert_eq. cbn [use_count]. unfold users in *. lia.
  - intros r' j. rewrite lookup_insert_eq. intros [= <-]. apply Ho1.
  - intros j x Hx Hxn Hxl. rewrite lookup_insert_eq. eexists. split; [done|]. by apply (Ho2 j x).
  - apply waiting_kept; try done; [by rewrite Hp|]. intros r' j Hr' Ho. rewrite lookup_insert_eq. rewrite Hr in Hr'. injection Hr' as <-.
    eexists. split; [done|exact Ho].
Qed.

Lemma acquire_inv y i t r : inv y -> threads y !! i = Some t -> pc_ t = LockCheck -> mutexes_ y !! name_ t = Some r -> owner r = None ->
  inv (mkSystem (set_owner (Some i) (mutexes_ y) (name_ t)) (<[i := set_pc LockReset (set_locked true t)]> (threads y))).
Proof.
  intros Hy Hi Hp Hr Ho. pose proof (inv_count y Hy (name_ t)) as Hc. rewrite Hr in Hc.
  assert (Hnone : forall j x, threads y !! j = Some x -> name_ x = name_ t -> has_lock x = true -> False).
  { intros j x Hx Hxn Hxl. destruct (inv_has y Hy j x Hx Hxl) as (r' & Hr' & Ho'). rewrite Hxn, Hr in Hr'. injection Hr' as <-. congruence. }
  unfold set_owner. apply (change y i t); try done.
  - intros n Hne. by rewrite lookup_alter_ne.
  - rewrite lookup_alter_eq, Hr. cbn [fmap option_fmap option_map use_count].
    rewrite (users_step _ _ i t _ true true Hi); [split; [destruct Hc; lia|lia]| |]; rewrite ?uses_own, ?Hp; [done|].
    change (name_ t) with (name_ (set_pc LockReset (set_locked true t))). by rewrite uses_own.
  - intros r' j. rewrite lookup_alter_eq, Hr. intros [= <-] [= <-]. eexists. rewrite list_lookup_insert_eq by by eapply lookup_lt_Some. done.
  - intros j x [[-> ->]|[_ Hx]]%(thread_insert_cases _ i t _ j x Hi) Hxn Hxl; [|by destruct (Hnone j x Hx Hxn Hxl)].
    rewrite lookup_alter_eq, Hr. by eexists.
  - apply waiting_kept; try done; [by rewrite Hp|]. intros r' j Hr' Ho'. rewrite Hr in Hr'. injection Hr' as <-. congruence.
Qed.

Lemma release_inv y i t : inv y -> threads y !! i = Some t -> pc_ t = Entered -> is_locked_ t = true ->
  inv (mkSystem (set_owner None (mutexes_ y) (name_ t)) (<[i := set_pc UnlockFlag t]> (threads y))).
Proof.
  intros Hy Hi Hp Hl. pose proof (inv_count y Hy (name_ t)) as Hc.
  assert (Hlock : has_lock t = true) by (unfold has_lock; by rewrite Hl, Hp).
  destruct (inv_has y Hy i t Hi Hlock) as (r & Hr & Ho). rewrite Hr in Hc.
  unfold set_owner. apply (change y i t); try done.
  - intros n Hne. by rewrite lookup_alter_ne.
  - rewrite lookup_alter_eq, Hr. cbn [fmap option_fmap option_map use_count].
    rewrite (users_step _ _ i t _ true true Hi); [split; [destruct Hc; lia|lia]| |]; rewrite ?uses_own, ?Hp; [done|].
    change (name_ t) with (name_ (set_pc UnlockFlag t)). by rewrite uses_own.
  - intros r' j. rewrite lookup_alter_eq, Hr. by intros [= <-].
  - intros j x [[-> ->]|[Hji Hx]]%(thread_insert_cases _ i t _ j x Hi) Hxn Hxl; [unfold has_lock in Hxl; cbn in Hxl; by rewrite andb_false_r in Hxl|].
    destruct (inv_has y Hy j x Hx Hxl) as (r' & Hr' & Ho'). rewrite Hxn, Hr in Hr'. injection Hr' as <-. congruence.
  - intros j x [[-> ->]|[Hji Hx]]%(thread_insert_cases _ i t _ j x Hi) Hxn Hxp; [done|].
    destruct (inv_waiting y Hy j x Hx Hxp) as [Hcan _]. split; [done|]. right. exists i, (set_pc UnlockFlag t).
    by rewrite list_lookup_insert_eq by by eapply lookup_lt_Some.
Qed.

Lemma not_locked y i t : inv y -> threads y !! i = Some t -> match pc_ t with LockReset | Entered | UnlockFlag => False | _ => True end -> is_locked_ t = false.
Proof.
  intros Hy Hi Hp. destruct (is_locked_ t) eqn:El; [|done]. pose proof (inv_locked y Hy i t Hi El) as H. by destruct (pc_ t).
Qed.

Lemma fail_inv y n error : inv y -> inv (mkSystem (SetError (mutexes_ y) n error) (threads y)).
Proof.
  intros Hy. unfold SetError. destruct (mutexes_ y !! n) as [r|] eqn:Er; [|by destruct y].
  set (r' := mkRefCounterMutex _ _ _).
  assert (Hm : forall n', <[n := r']> (mutexes_ y) !! n' = mutexes_ y !! n' \/ mutexes_ y !! n' = Some r /\ <[n := r']> (mutexes_ y) !! n' = Some r').
  { intros n'. destruct (decide (n' = n)) as [->|]; [right; by rewrite lookup_insert_eq|left; by rewrite lookup_insert_ne]. }
  destruct Hy as [I0 I1 I2 I3 I4 I5]. split; cbn [mutexes_ threads]; try done.
  - intros n'. destruct (Hm n') as [->|[H ->]]; [apply I1|]. specialize (I1 n'). by rewrite H in I1.
  - intros n' q i. destruct (Hm n') as [->|[H ->]]; [apply I2|]. intros [= <-]. exact (I2 n' r i H).
  - intros i t Ht Hl. destruct (I3 i t Ht Hl) as (q & Hq & Ho). destruct (Hm (name_ t)) as [->|[H ->]]; [by exists q|].
    exists r'. split; [done|]. rewrite Hq in H. by injection H as <-.
  - intros i t Ht Hp. destruct (I5 i t Ht Hp) as [Hc Hw]. split; [done|]. destruct Hw as [(q & j & Hq & Ho)|Hw]; [left|by right].
    destruct (Hm (name_ t)) as [->|[H ->]]; [by exists q, j|]. exists r', j. split; [done|]. rewrite Hq in H. by injection H as <-.
Qed.

Lemma run_thread_inv y i t y' : inv y -> threads y !! i = Some t -> run_thread y i t = Some y' -> inv y'.
Proof.
  intros Hy Hi. unfold run_thread.
  assert (Hlk := not_locked y i t Hy Hi). destruct (pc_ t) as [| |executed| | | | | | | |] eqn:Hp; try done.
  - intros [= <-]. by apply construct_inv.
  - destruct (cancelling t); [done|]. destruct (ExecuteOrCancelled _ _) as [c executed]. intros [= <-].
    apply (quiet y i t); try done; unfold has_lock; cbn; rewrite ?Hp, ?(Hlk I); done.
  - intros [= <-]. apply (quiet y i t); try done; unfold has_lock; destruct executed; cbn; rewrite ?Hp, ?(Hlk I); done.
  - destruct (is_canceled_ t) eqn:Hcan.
    + intros [= <-]. apply (quiet y i t); try done; unfold has_lock; cbn; rewrite ?Hp, ?(Hlk I); done.
    + destruct (live_entry y i t Hy Hi) as (r & Hr & _); [by rewrite Hp|]. unfold at_resource. rewrite Hr. cbn [default from_option id].
      change (owner (id r)) with (owner r). destruct (owner r) as [j|] eqn:Ho.
      * intros [= <-]. apply (quiet y i t); try done; unfold has_lock; cbn; rewrite ?Hp, ?(Hlk I); try done.
        intros _. split; [done|]. split; [by rewrite Hcan|left; by exists r, j].
      * intros [= <-]. by apply acquire_inv with r.
  - destruct (cancelling t); [done|]. intros [= <-]. apply (quiet y i t); try done; unfold has_lock; cbn; rewrite ?Hp; done.
  - destruct (is_locked_ t) eqn:El; intros [= <-]; [by apply release_inv|].
    apply (quiet y i t); try done; unfold has_lock; cbn; rewrite ?Hp, ?El; done.
  - intros [= <-]. apply (quiet y i t); try done; unfold has_lock; cbn; rewrite ?Hp, ?andb_false_r; try done. intros _. by left.
  - intros [= <-]. destruct (notify_inv y (name_ t) Hy) as [Hn Hno].
    assert (Hi' : notify (name_ t) (threads y) !! i = Some t).
    { unfold notify. rewrite list_lookup_fmap, Hi. cbn. unfold wake. by rewrite Hp, andb_false_r. }
    apply (quiet (mkSystem (mutexes_ y) (notify (name_ t) (threads y))) i t (set_pc Unlocked t) Hn Hi'); try done; unfold has_lock; cbn; rewrite ?Hp, ?(Hlk I); try done.
    intros _. by right.
  - intros [= <-]. by apply destroy_inv.
Qed.

Lemma cancel_end_inv y i t : inv y -> threads y !! i = Some t ->
  let t := wake (name_ t) t in
  inv (mkSystem (mutexes_ y) (<[i := set_cancelling false (set_context (fst (CancelOperation (context_ t))) t)]> (notify (name_ t) (threads y)))).
Proof.
  intros Hy Hi t1. assert (Hname : name_ t1 = name_ t) by (unfold t1, wake; by destruct (_ && _)). rewrite Hname. destruct (notify_inv y (name_ t) Hy) as [Hn Hno].
  assert (Hi' : notify (name_ t) (threads y) !! i = Some (wake (name_ t) t)) by (unfold notify; by rewrite list_lookup_fmap, Hi).
  fold t1 in Hi'.
  apply (quiet (mkSystem (mutexes_ y) (notify (name_ t) (threads y))) i t1 _ Hn Hi'); try done; cbn.
  - by apply (inv_locked _ Hn i t1).
  - by left.
  - intros Hp. by destruct (Hno i t1 Hi' Hname).
Qed.

Lemma perform_inv y e y' : inv y -> perform y e = Some y' -> inv y'.
Proof.
  intros Hy. destruct e as [i|i error|i|i|i]; cbn [perform]; (destruct (threads y !! i) as [t|] eqn:Hi; [|done]); cbn [mbind option_bind].
  - by apply run_thread_inv.
  - destruct (pc_ t); try done. intros [= <-]. by apply fail_inv.
  - destruct (cancelling t) eqn:Ec; [done|]. cbn [orb]. destruct (IsCancelled _); [done|].
    assert (Hlive : pc_ t = Waiting -> waits_for (mutexes_ y) (threads y) (name_ t)) by (intros Hp; by apply (inv_waiting y Hy i t)).
    destruct (sub_operation_cancel_token_ _); intros [= <-]; apply (quiet y i t); try done; cbn; try (by left); try (by apply (inv_locked y Hy i t)).
    + intros Hp. rewrite Hp. auto.
    + intros Hp. rewrite Hp. split; [done|]. split; [by apply (inv_waiting y Hy i t)|auto].
  - destruct (cancelling t) eqn:Ec; [|done]. intros [= <-]. by apply cancel_end_inv.
  - destruct (pc_ t) eqn:Hp; try done. intros [= <-].
    assert (Hlk := not_locked y i t Hy Hi). rewrite Hp in Hlk. apply (quiet y i t); try done; unfold has_lock; cbn; rewrite ?Hp, ?(Hlk I); done.
Qed.

Lemma start_inv y : initial y -> inv y.
Proof.
  intros (Hm & Hs & Hf). rewrite Forall_forall in Hf.
  assert (Ht : forall i t, threads y !! i = Some t -> pc_ t = New /\ is_locked_ t = false).
  { intros i t Hi. destruct (Hf t) as (H1 & _ & H2 & _); [by eapply list_elem_of_lookup_2|done]. }
  split; rewrite ?Hm; [done|..].
  - intros n. rewrite lookup_empty. unfold users. rewrite filter_none; [done|]. intros t Hin. destruct (Hf t Hin) as (Hp & _).
    unfold uses. rewrite Hp. apply andb_false_r.
  - intros n r i. by rewrite lookup_empty.
  - intros i t Hi Hl. destruct (Ht i t Hi) as [_ Hk]. unfold has_lock in Hl. by rewrite Hk in Hl.
  - intros i t Hi Hl. destruct (Ht i t Hi) as [_ Hk]. by rewrite Hk in Hl.
  - intros i t Hi Hp. destruct (Ht i t Hi) as [Hk _]. by rewrite Hk in Hp.
Qed.

Lemma reached_inv y : reachable y -> inv y.
Proof.
  intros (y0 & H0 & Hr). apply start_inv in H0. revert H0. induction Hr as [|y0 y1 y2 [e ? ? Hp] _ IH]; [done|].
  intros H0. apply IH. by eapply perform_inv.
Qed.

(** ** Theorems *)

(** A thread that is through [lock] without the lock was cancelled. *)
Definition passed t : Prop := match pc_ t with LockReset | Entered => is_locked_ t = true \/ is_canceled_ t = true | _ => True end.

Lemma perform_passed y e y' : Forall passed (threads y) -> perform y e = Some y' -> Forall passed (threads y').
Proof.
  intros Hy Hp. assert (Hat : forall i t, threads y !! i = Some t -> passed t) by (intros i t Hi; rewrite Forall_forall in Hy; apply Hy; by eapply list_elem_of_lookup_2).
  assert (Hw : forall n, Forall passed (notify n (threads y))).
  { intros n. apply Forall_fmap. eapply Forall_impl; [exact Hy|]. intros t Ht. unfold compose, wake. destruct (_ && _); [done|exact Ht]. }
  destruct e as [i|i error|i|i|i]; cbn [perform] in Hp; (destruct (threads y !! i) as [t|] eqn:Hi; [|done]); cbn [mbind option_bind] in Hp; specialize (Hat i t Hi).
  - unfold run_thread in Hp. destruct (pc_ t) as [| |executed| | | | | | | |] eqn:Ep; try done.
    + injection Hp as <-. by apply Forall_insert.
    + destruct (cancelling t); [done|]. destruct (ExecuteOrCancelled _ _). injection Hp as <-. by apply Forall_insert.
    + injection Hp as <-. apply Forall_insert; [done|]. destruct executed; [done|by right].
    + destruct (is_canceled_ t) eqn:Ec; [|destruct (owner _)]; injection Hp as <-; (apply Forall_insert; [done|]); [by right|done|by left].
    + destruct (cancelling t); [done|]. injection Hp as <-. apply Forall_insert; [done|]. unfold passed in *. rewrite Ep in Hat. exact Hat.
    + destruct (is_locked_ t); injection Hp as <-; by apply Forall_insert.
    + injection Hp as <-. by apply Forall_insert.
    + injection Hp as <-. apply Forall_insert; [apply Hw|done].
    + injection Hp as <-. by apply Forall_insert.
  - destruct (pc_ t); try done. by injection Hp as <-.
  - destruct (_ || _); [done|]. destruct (sub_operation_cancel_token_ _); injection Hp as <-; (apply Forall_insert; [done|]); [|exact Hat].
    unfold passed. cbn. destruct (pc_ t); try done; by right.
  - destruct (cancelling t); [|done]. injection Hp as <-. apply Forall_insert; [apply Hw|]. unfold wake. destruct (_ && _); [done|exact Hat].
  - destruct (pc_ t); try done. injection Hp as <-. by apply Forall_insert.
Qed.

Lemma reached_passed y : reachable y -> Forall passed (threads y).
Proof.
  intros (y0 & (_ & _ & H0) & Hr). assert (Hy0 : Forall passed (threads y0)).
  { eapply Forall_impl; [exact H0|]. intros t [Ht _]. unfold passed. by rewrite Ht. }
  clear H0. revert Hy0. induction Hr as [|y0 y1 y2 [e ? ? Hp] _ IH]; [done|]. intros Hy0. apply IH. by eapply perform_passed.
Qed.

(** C29: two threads are in the section that a name protects at the same time only when
    one of them was cancelled and is there without the lock, since [lock] returns to a
    cancelled thread too; so of the threads that were not cancelled, and of those that have
    the lock, at most one is in the section.  The entry of a name is there exactly as long
    as some thread has an object of that name. *)
Theorem NamedMutex_exclusion y : reachable y ->
  (forall i j t t', threads y !! i = Some t -> threads y !! j = Some t' -> i <> j -> name_ t = name_ t' ->
     pc_ t = Entered -> pc_ t' = Entered ->
     is_canceled_ t = true /\ is_locked_ t = false \/ is_canceled_ t' = true /\ is_locked_ t' = false) /\
  (forall n, is_Some (mutexes_ y !! n) <-> exists i t, threads y !! i = Some t /\ name_ t = n /\ live (pc_ t) = true).
Proof.
  intros Hr. pose proof (reached_passed y Hr) as Hps. apply reached_inv in Hr as Hy. rewrite Forall_forall in Hps. split.
  - intros i j t t' Hi Hj Hij Hn Hp Hp'.
    pose proof (Hps t (list_elem_of_lookup_2 _ _ _ Hi)) as Ht. pose proof (Hps t' (list_elem_of_lookup_2 _ _ _ Hj)) as Ht'.
    unfold passed in Ht, Ht'. rewrite Hp in Ht. rewrite Hp' in Ht'.
    destruct (is_locked_ t) eqn:Hl; [|left; by destruct Ht]. destruct (is_locked_ t') eqn:Hl'; [|right; by destruct Ht'].
    destruct (inv_has y Hy i t Hi) as (r & Hr1 & Ho); [unfold has_lock; by rewrite Hl, Hp|].
    destruct (inv_has y Hy j t' Hj) as (r' & Hr' & Ho'); [unfold has_lock; by rewrite Hl', Hp'|].
    rewrite Hn, Hr' in Hr1. injection Hr1 as <-. congruence.
  - intros n. pose proof (inv_count y Hy n) as Hc. split.
    + intros [r Hr1]. rewrite Hr1 in Hc. destruct Hc as [_ Hc]. unfold users in Hc.
      destruct (List.filter (uses n) (threads y)) as [|t l] eqn:Ef; [done|].
      assert (Hin : In t (List.filter (uses n) (threads y))) by (rewrite Ef; by left).
      apply filter_In in Hin as [Hin Hu]. apply list_elem_of_In, list_elem_of_lookup in Hin as [i Hi]. exists i, t.
      unfold uses in Hu. apply andb_true_iff in Hu as [Hn Hl]. by apply bool_decide_eq_true in Hn.
    + intros (i & t & Hi & <- & Hl). destruct (live_entry y i t Hy Hi Hl) as (r & Hr1 & _). by exists r.
Qed.

(** no thread waits for ever: as long as some thread is not through, one can take a
    step of its own, or end a cancellation. *)
Theorem NamedMutex_progress y i t : reachable y -> threads y !! i = Some t -> pc_ t <> Gone ->
  exists j, perform y (Run j) <> None \/ perform y (CancelEnd j) <> None.
Proof.
  intros Hy%reached_inv Hi Hp.
  assert (Hgo : forall j x, threads y !! j = Some x -> pc_ x <> Gone -> pc_ x <> Waiting ->
    exists k, perform y (Run k) <> None \/ perform y (CancelEnd k) <> None).
  { intros j x Hj Hg Hw. exists j. cbn [perform]. rewrite Hj. cbn [mbind option_bind]. unfold run_thread.
    destruct (pc_ x) eqn:Ep; try done; try (by left).
    - destruct (cancelling x); [by right|left]. by destruct (ExecuteOrCancelled _ _).
    - left. destruct (is_canceled_ x); [done|]. by destruct (owner _).
    - destruct (cancelling x); [by right|by left].
    - left. by destruct (is_locked_ x). }
  destruct (pc_ t) eqn:Ep; try (by apply (Hgo i t Hi); rewrite Ep).
  destruct (inv_waiting y Hy i t Hi Ep) as [_ [(r & j & Hr & Ho)|(j & x & Hj & _ & Hu)]].
  - destruct (inv_owner y Hy _ r j Hr Ho) as (x & Hj & _ & Hx). unfold has_lock in Hx. apply andb_true_iff in Hx as [_ Hx].
    apply (Hgo j x Hj); by destruct (pc_ x).
  - apply (Hgo j x Hj); by destruct (pc_ x).
Qed.

(** A thread is not constructed again, nor after it is gone. *)
Definition later x x' : Prop := name_ x = name_ x' /\ (pc_ x = Gone -> pc_ x' = Gone) /\ (pc_ x' = New -> pc_ x = New).

Lemma perform_thread y e y' j x' : perform y e = Some y' -> threads y' !! j = Some x' ->
  exists x, threads y !! j = Some x /\ later x x'.
Proof.
  assert (Hins : forall i t t' l, l !! i = Some t -> name_ t' = name_ t -> (pc_ t = Gone -> pc_ t' = Gone) -> (pc_ t' = New -> pc_ t = New) ->
    <[i := t']> l !! j = Some x' -> exists x, l !! j = Some x /\ later x x').
  { intros i t t' l Hi Hn Hg Hw [[-> ->]|[_ Hj]]%(thread_insert_cases l i t t' j x' Hi); [by exists t|by exists x']. }
  assert (Hnot : forall n l x, notify n l !! j = Some x -> exists x0, l !! j = Some x0 /\ later x0 x).
  { intros n l x. unfold notify. rewrite list_lookup_fmap. intros (x0 & Hx0 & ->)%fmap_Some. exists x0. unfold wake, later.
    destruct (bool_decide _); cbn [andb]; [|done]. by destruct (pc_ x0) eqn:Ep; cbn; rewrite ?Ep. }
  destruct e as [i|i error|i|i|i]; cbn [perform]; (destruct (threads y !! i) as [t|] eqn:Hi; [|done]); cbn [mbind option_bind].
  - unfold run_thread. destruct (pc_ t) as [| |executed| | | | | | | |] eqn:Hp; try done.
    + intros [= <-]. apply Hins with t; [done|done|by rewrite Hp|done].
    + destruct (cancelling t); [done|]. destruct (ExecuteOrCancelled _ _). intros [= <-]. apply Hins with t; [done|done|by rewrite Hp|done].
    + intros [= <-]. apply Hins with t; [done|done|by rewrite Hp|by destruct executed].
    + destruct (is_canceled_ t); [|destruct (owner _)]; intros [= <-]; (apply Hins with t; [done|done|by rewrite Hp|done]).
    + destruct (cancelling t); [done|]. intros [= <-]. apply Hins with t; [done|done|by rewrite Hp|done].
    + destruct (is_locked_ t); intros [= <-]; (apply Hins with t; [done|done|by rewrite Hp|done]).
    + intros [= <-]. apply Hins with t; [done|done|by rewrite Hp|done].
    + intros [= <-]. cbn [threads].
      assert (Hi' : notify (name_ t) (threads y) !! i = Some (wake (name_ t) t)) by (unfold notify; by rewrite list_lookup_fmap, Hi).
      intros [[-> ->]|[_ Hj]]%(thread_insert_cases _ i _ _ j x' Hi'); [exists t; unfold later; rewrite Hp; done|by apply Hnot in Hj].
    + intros [= <-]. apply Hins with t; [done|done|by rewrite Hp|done].
  - destruct (pc_ t); try done. intros [= <-] Hx. by exists x'.
  - destruct (_ || _); [done|]. destruct (sub_operation_cancel_token_ _); intros [= <-]; by apply Hins with t.
  - destruct (cancelling t); [|done]. intros [= <-]. cbn [threads].
    assert (Hw : wake (name_ t) t = t \/ (pc_ t = Waiting /\ name_ (wake (name_ t) t) = name_ t)).
    { unfold wake. rewrite bool_decide_eq_true_2 by done. cbn [andb]. destruct (pc_ t); auto. }
    assert (Hn : name_ (wake (name_ t) t) = name_ t) by (destruct Hw as [->|[_ ->]]; done). rewrite Hn.
    assert (Hi' : notify (name_ t) (threads y) !! i = Some (wake (name_ t) t)) by (unfold notify; by rewrite list_lookup_fmap, Hi).
    intros [[-> ->]|[_ Hj]]%(thread_insert_cases _ i _ _ j x' Hi'); [|by apply Hnot in Hj].
    exists t. split; [done|]. unfold later. cbn. rewrite Hn. split; [done|]. destruct Hw as [->|[Hp _]]; [done|]. unfold wake. by rewrite Hp; destruct (bool_decide _); cbn; rewrite ?Hp.
  - destruct (pc_ t) eqn:Hp; try done. intros [= <-]. apply Hins with t; [done|done|by rewrite Hp|done].
Qed.

(** The error of a name changes only when it is set, or when the entry goes. *)
Lemma perform_error y e y' n : perform y e = Some y' ->
  match e with Fail i _ => forall t, threads y !! i = Some t -> name_ t <> n | _ => True end ->
  is_Some (mutexes_ y !! n) -> is_Some (mutexes_ y' !! n) -> GetError (mutexes_ y') n = GetError (mutexes_ y) n.
Proof.
  intros Hp Hf [r Hr] [r' Hr']. unfold GetError. rewrite Hr, Hr'.
  destruct e as [i|i error|i|i|i]; cbn [perform] in Hp; (destruct (threads y !! i) as [t|] eqn:Hi; [|done]); cbn [mbind option_bind] in Hp.
  - assert (Hset : forall o, set_owner o (mutexes_ y) (name_ t) !! n = Some r' -> optional_error r' = optional_error r).
    { intros o. unfold set_owner. destruct (decide (n = name_ t)) as [->|]; [rewrite lookup_alter_eq, Hr; by intros [= <-]|].
      rewrite lookup_alter_ne by done. rewrite Hr. by intros [= <-]. }
    unfold run_thread in Hp. destruct (pc_ t) as [| |executed| | | | | | | |] eqn:Hpc; try done.
    + injection Hp as <-. cbn [mutexes_] in Hr'. unfold AcquireLock in Hr'. apply lookup_insert_Some in Hr' as [[<- <-]|[_ Hr']]; [|congruence].
      unfold at_resource. by rewrite Hr.
    + destruct (cancelling t); [done|]. destruct (ExecuteOrCancelled _ _). injection Hp as <-. cbn [mutexes_] in Hr'. congruence.
    + injection Hp as <-. cbn [mutexes_] in Hr'. congruence.
    + destruct (is_canceled_ t); [|destruct (owner _)]; injection Hp as <-; cbn [mutexes_] in Hr'; try congruence. by eapply Hset.
    + destruct (cancelling t); [done|]. injection Hp as <-. cbn [mutexes_] in Hr'. congruence.
    + destruct (is_locked_ t); injection Hp as <-; cbn [mutexes_] in Hr'; try congruence. by eapply Hset.
    + injection Hp as <-. cbn [mutexes_] in Hr'. congruence.
    + injection Hp as <-. cbn [mutexes_] in Hr'. congruence.
    + injection Hp as <-. cbn [mutexes_] in Hr'. unfold ReleaseLock in Hr'. destruct (mutexes_ y !! name_ t) as [q|] eqn:Eq; [|congruence].
      destruct (_ =? 0); [apply lookup_delete_Some in Hr' as [_ Hr']; congruence|].
      apply lookup_insert_Some in Hr' as [[<- <-]|[_ Hr']]; [|congruence]. cbn. congruence.
  - destruct (pc_ t); try done. injection Hp as <-. cbn [mutexes_] in Hr'. unfold SetError in Hr'.
    destruct (mutexes_ y !! name_ t) as [q|] eqn:Eq; [|congruence]. rewrite lookup_insert_ne in Hr' by by apply Hf. congruence.
  - destruct (_ || _); [done|]. destruct (sub_operation_cancel_token_ _); injection Hp as <-; cbn [mutexes_] in Hr'; congruence.
  - destruct (cancelling t); [|done]. injection Hp as <-. cbn [mutexes_] in Hr'. congruence.
  - destruct (pc_ t); try done. injection Hp as <-. cbn [mutexes_] in Hr'. congruence.
Qed.

(** The events of which none sets an error for the name. *)
Fixpoint no_other_error n (es : list event) y : Prop :=
  match es with
  | [] => True
  | e :: es =>
      match e with Fail i _ => forall t, threads y !! i = Some t -> name_ t <> n | _ => True end /\
      match perform y e with Some y' => no_other_error n es y' | None => True end
  end.

Lemma run_error es y y' j x x' : inv y -> run es y = Some y' -> threads y !! j = Some x -> live (pc_ x) = true ->
  threads y' !! j = Some x' -> live (pc_ x') = true -> no_other_error (name_ x) es y ->
  GetError (mutexes_ y') (name_ x) = GetError (mutexes_ y) (name_ x).
Proof.
  revert y x. induction es as [|e es IH]; intros y x Hy; cbn [run no_other_error]; [by intros [= <-]|].
  destruct (perform y e) as [y1|] eqn:Ep; [|done]. cbn [mbind option_bind]. intros Hr Hj Hl Hj' Hl' [He Hes].
  pose proof (perform_inv y e y1 Hy Ep) as Hy1.
  assert (Hback : forall es y2, run es y1 = Some y2 -> forall z, threads y2 !! j = Some z -> exists z1, threads y1 !! j = Some z1 /\ later z1 z).
  { clear. intros es. revert y1. induction es as [|e es IH]; intros y1 y2; cbn [run]; [intros [= <-] z Hz; by exists z|].
    destruct (perform y1 e) as [y3|] eqn:E3; [|done]. cbn [mbind option_bind]. intros Hr z Hz. destruct (IH y3 y2 Hr z Hz) as (z3 & Hz3 & Hn3 & Hg3 & Hw3).
    destruct (perform_thread _ _ _ _ _ E3 Hz3) as (z1 & Hz1 & Hn1 & Hg1 & Hw1). exists z1. split; [done|]. split; [congruence|auto]. }
  destruct (Hback es y' Hr x' Hj') as (x1 & Hj1 & Hn1 & Hg1 & _). destruct (perform_thread y e y1 j x1 Ep Hj1) as (x0 & Hj0 & Hn0 & _ & Hw0).
  rewrite Hj in Hj0. injection Hj0 as <-.
  assert (Hl1 : live (pc_ x1) = true).
  { destruct (pc_ x1) eqn:E1; try done; [rewrite Hw0 in Hl; done|rewrite Hg1 in Hl'; done]. }
  assert (IH' := IH y1 x1 Hy1 Hr Hj1 Hl1 Hj' Hl'). rewrite <- Hn0 in IH'. rewrite (IH' Hes).
  apply (perform_error y e y1); [done|done|..].
  - destruct (live_entry y j x Hy Hj Hl) as (r & Hr0 & _). by exists r.
  - rewrite Hn0. destruct (live_entry y1 j x1 Hy1 Hj1 Hl1) as (r & Hr0 & _). by exists r.
Qed.

(** An error is shared: whoever has an object of the name from when it was set on
    gets it, until another error is set; when all objects of the name are gone, the error
    is gone too. *)
Theorem error_shared y i t error y1 es y2 j x x2 : reachable y -> threads y !! i = Some t -> perform y (Fail i error) = Some y1 ->
  threads y1 !! j = Some x -> name_ x = name_ t -> live (pc_ x) = true ->
  run es y1 = Some y2 -> threads y2 !! j = Some x2 -> no_other_error (name_ t) es y1 ->
  (live (pc_ x2) = true -> GetError (mutexes_ y2) (name_ t) = Some error) /\
  ((forall k z, threads y2 !! k = Some z -> name_ z = name_ t -> live (pc_ z) = false) -> GetError (mutexes_ y2) (name_ t) = None).
Proof.
  intros Hy%reached_inv Hi Hp Hj Hn Hl Hr Hj2 Hes. pose proof (perform_inv _ _ _ Hy Hp) as Hy1.
  split.
  - intros Hl2. rewrite <- Hn in *. rewrite (run_error es y1 y2 j x x2 Hy1 Hr Hj Hl Hj2 Hl2 Hes).
    cbn [perform] in Hp. rewrite Hi in Hp. cbn [mbind option_bind] in Hp. destruct (pc_ t) eqn:Ht; try done. injection Hp as <-.
    destruct (live_entry y i t Hy Hi) as (r & Hr0 & _); [by rewrite Ht|]. rewrite Hn. unfold GetError, SetError. cbn [mutexes_]. rewrite Hr0.
    by rewrite lookup_insert_eq.
  - intros Hall. assert (Hy2 : inv y2).
    { clear -Hy1 Hr. revert y1 Hy1 Hr. induction es as [|e es IH]; intros y1 Hy1; cbn [run]; [by intros [= <-]|].
      destruct (perform y1 e) as [y3|] eqn:E3; [|done]. cbn [mbind option_bind]. apply IH. by eapply perform_inv. }
    unfold GetError. pose proof (inv_count y2 Hy2 (name_ t)) as Hc. destruct (mutexes_ y2 !! name_ t) as [r|]; [|done]. destruct Hc as [_ Hc].
    exfalso. unfold users in Hc. rewrite filter_none in Hc; [done|]. intros z Hz. apply list_elem_of_lookup in Hz as [k Hk].
    unfold uses. destruct (bool_decide (name_ z = name_ t)) eqn:Ez; [|done]. apply bool_decide_eq_true in Ez. cbn [andb]. by apply (Hall k z).
Qed.
End invariant.

(** ** Runs *)

Definition two_threads : system nat :=
  mkSystem ∅ [NamedMutex_new (chars "tile") CancellationContext_new; NamedMutex_new (chars "tile") CancellationContext_new].

(** The first thread has the lock, and the second one waits for it. *)
Definition second_waits : list (event nat) :=
  [Run 0; Run 1; Run 0; Run 0; Run 0; Run 0; Run 1; Run 1; Run 1].

Definition system_of (es : list (event nat)) : system nat := match run es two_threads with Some y => y | None => two_threads end.

Lemma two_threads_initial : initial two_threads.
Proof. split; [reflexivity|]. split; [reflexivity|]. repeat constructor. Qed.

Lemma run_reached {E} es (y0 y y' : system E) : initial y0 -> rtc step y0 y -> run es y = Some y' -> reachable y'.
Proof.
  revert y. induction es as [|e es IH]; intros y H0 Hr; cbn [run]; [intros [= <-]; by exists y0|].
  destruct (perform y e) as [y1|] eqn:Ep; [|done]. cbn [mbind option_bind]. apply (IH y1 H0). eapply rtc_r; [exact Hr|by econstructor].
Qed.

Lemma second_waits_reachable : reachable (system_of second_waits).
Proof. apply (run_reached second_waits two_threads two_threads); [apply two_threads_initial|done|vm_compute; reflexivity]. Qed.

(** The second thread is cancelled while it waits, and enters without the lock. *)
Definition both_inside : list (event nat) := second_waits ++ [CancelBegin 1; CancelEnd 1; Run 1; Run 1].

Lemma NamedMutex_exclusion_witness : exists t t',
  threads (system_of both_inside) !! 0%nat = Some t /\ threads (system_of both_inside) !! 1%nat = Some t' /\
  pc_ t = Entered /\ pc_ t' = Entered /\ is_locked_ t = true /\ is_canceled_ t' = true /\ is_locked_ t' = false /\
  is_Some (mutexes_ (system_of both_inside) !! chars "tile").
Proof.
  assert (Hr : reachable (system_of both_inside)).
  { apply (run_reached both_inside two_threads two_threads); [apply two_threads_initial|done|vm_compute; reflexivity]. }
  destruct (NamedMutex_exclusion (system_of both_inside) Hr) as [Hex Hentry]. eexists _, _.
  split; [vm_compute; reflexivity|]. split; [vm_compute; reflexivity|]. split; [reflexivity|]. split; [reflexivity|]. split; [reflexivity|].
  apply and_assoc. split.
  - edestruct (Hex 0%nat 1%nat) as [[Hc _]|H]; [vm_compute; reflexivity..|discriminate|reflexivity|reflexivity|reflexivity|discriminate Hc|exact H].
  - apply Hentry. eexists 0%nat, _. split; [vm_compute; reflexivity|]. split; reflexivity.
Defined.

Lemma NamedMutex_progress_witness : exists j, perform (system_of second_waits) (Run j) <> None \/ perform (system_of second_waits) (CancelEnd j) <> None.
Proof.
  eapply (NamedMutex_progress (system_of second_waits) 1); [exact second_waits_reachable|vm_compute; reflexivity|vm_compute; discriminate].
Defined.

(** The download of the first thread fails; the second one enters and sees the error. *)
Definition thread_of (es : list (event nat)) (i : nat) : NamedMutex :=
  default (NamedMutex_new [] CancellationContext_new) (threads (system_of es) !! i).

Definition error_run : list (event nat) := [Run 0; Run 0; Run 0; Run 0; Run 1; Run 1].

Lemma error_shared_witness :
  GetError (mutexes_ (system_of (second_waits ++ Fail 0 404%nat :: error_run))) (name_ (thread_of second_waits 0)) = Some 404%nat.
Proof.
  refine (proj1 (error_shared (system_of second_waits) 0 (thread_of second_waits 0) 404%nat (system_of (second_waits ++ [Fail 0 404%nat])) error_run
    (system_of (second_waits ++ Fail 0 404%nat :: error_run)) 1 (thread_of (second_waits ++ [Fail 0 404%nat]) 1)
    (thread_of (second_waits ++ Fail 0 404%nat :: error_run) 1) second_waits_reachable _ _ _ _ _ _ _ _) _); try (vm_compute; reflexivity).
  vm_compute. tauto.
Defined.

(** A cancellation can be lost: between the call of [ExecuteOrCancelled] and the
    store to [is_canceled_] that follows it, the cancellation is stored and overwritten.
    The cancelled thread waits for the lock, and gets it when the other one is done. *)
Theorem cancellation_lost :
  let cancelled := [Run 0; Run 1; Run 0; Run 0; Run 0; Run 0; Run 1; CancelBegin 1; CancelEnd 1; Run 1; Run 1] in
  let of_second es := (fun t => (pc_ t, IsCancelled (context_ t), is_canceled_ t, is_locked_ t)) <$> threads (system_of es) !! 1%nat in
  of_second cancelled = Some (Waiting, true, false, false) /\
  of_second (cancelled ++ [Run 0; Run 0; Run 0; Run 1; Run 1]) = Some (Entered, true, false, true).
Proof. vm_compute. done. Qed.
