(* ===== verification/KeyValueCache.v ===== *)
(** * The interface of the cache

    Model of [olp::cache::KeyValueCache] (include/olp/core/cache/KeyValueCache.h): what
    the clients of a cache call, as a class of operations on a state, and what they rely
    on, as a class of laws.  A cache may forget at any time; it never gives a value that
    was not put into it under the key and the policy of its clients.  [DefaultCache] is
    an instance, through the interface class DefaultCache.h of it.

    The overloads of [Put] and [Get] for bytes, [Remove] and [RemoveKeysWithPrefix] are
    in every implementation what [Write], [Read], [Delete] and [DeleteByPrefix] do, with
    another result; they are defined from these. *)

From S2P Require Import Prelude LruCache InMemoryCache ProtectedKeyList DiskCache DefaultCache DefaultCacheInvariant DefaultCacheOperations.

(** The operations; the clock is an argument of those that look at it. *)
Class KeyValueCache (S A : Type) := mkKeyValueCache {
  kv_Put : Z -> key -> A -> bytes -> Z -> state S bool;
  kv_Get : Z -> key -> (bytes -> option (any (A := A))) -> state S (option (any (A := A)));
  kv_Contains : Z -> key -> state S bool;
  kv_Protect : list key -> state S bool;
  kv_Release : list key -> state S bool;
  kv_IsProtected : key -> state S bool;
  kv_Promote : key -> state S unit;
  kv_Read : Z -> key -> state S (Outcome bytes);
  kv_Write : Z -> key -> option bytes -> Z -> state S (Outcome unit);
  kv_Delete : key -> state S (Outcome unit);
  kv_DeleteByPrefix : key -> state S (Outcome unit) }.

Section derived.
Context {S A : Type} `{KeyValueCache S A}.

Definition kv_Get_bytes (now : Z) (k : key) : state S (option bytes) :=
  r ← kv_Read now k; mret (match r with inl v => Some v | inr _ => None end).
Definition kv_Put_bytes (now : Z) (k : key) (value : option bytes) (expiry : Z) : state S bool :=
  r ← kv_Write now k value expiry; mret (IsSuccessful r).
Definition kv_Remove (k : key) : state S bool := r ← kv_Delete k; mret (IsSuccessful r).
Definition kv_RemoveKeysWithPrefix (k : key) : state S bool := r ← kv_DeleteByPrefix k; mret (IsSuccessful r).
End derived.

(** A write that the cache can store. *)
Definition can_store (now : Z) (k : key) (value : bytes) (expiry : Z) : Prop :=
  ordinary k /\ slen value < 2^63 /\ expiry <= kDefaultExpiry /\ (IsExpiryValid expiry = true -> - 2^63 <= expiry + now < 2^63).

(** [holds P s]: every value in the cache is one of the policy [P].  [protection] is
    what [IsProtected] answers; only [Protect] and [Release] change it. *)
Class KeyValueCacheLaws (S A : Type) `{KeyValueCache S A} := mkKeyValueCacheLaws {
  holds : Policy A -> S -> Prop;
  protection : S -> key -> bool;

  law_mono (P P' : Policy A) s : holds P s ->
    (forall k x, in_memory (Policy := P) k x -> in_memory (Policy := P') k x) ->
    (forall k v, on_disk (Policy := P) k v -> on_disk (Policy := P') k v) -> holds P' s;
  law_Read (P : Policy A) now k s : holds P s -> bytes_key k ->
    runs (kv_Read now k) s (fun s' r => (holds P s' /\ protection s' = protection s) /\ forall v, r = inl v -> in_memory k (AnyBytes v));
  law_Get (P : Policy A) now k decoder s : holds P s -> decoded_key k decoder ->
    runs (kv_Get now k decoder) s (fun s' r => (holds P s' /\ protection s' = protection s) /\ forall x, r = Some x -> in_memory k x);
  law_Write (P : Policy A) now k v e s : holds P s -> in_memory k (AnyBytes v) -> on_disk k v -> can_store now k v e ->
    runs (kv_Write now k (Some v) e) s (fun s' r => (holds P s' /\ protection s' = protection s) /\
      (r = inl tt -> 0 < e -> holds (only_value k v) s'));
  law_Write_none (P : Policy A) now k e s : holds P s -> runs (kv_Write now k None e) s (fun s' r => holds P s');
  law_Put (P : Policy A) now k a v e s : holds P s -> in_memory k (AnyValue a) -> on_disk k v -> can_store now k v e ->
    runs (kv_Put now k a v e) s (fun s' _ => holds P s' /\ protection s' = protection s);
  law_Contains (P : Policy A) now k s : holds P s ->
    runs (kv_Contains now k) s (fun s' _ => holds P s' /\ protection s' = protection s);
  law_Promote (P : Policy A) k s : holds P s -> runs (kv_Promote k) s (fun s' _ => holds P s' /\ protection s' = protection s);
  law_Delete (P : Policy A) k s : holds P s -> runs (kv_Delete k) s (fun s' _ => holds P s' /\ protection s' = protection s);
  law_DeleteByPrefix (P : Policy A) k s : holds P s ->
    runs (kv_DeleteByPrefix k) s (fun s' _ => holds P s' /\ protection s' = protection s);
  law_IsProtected (P : Policy A) k s : holds P s -> runs (kv_IsProtected k) s (fun s' b => s' = s /\ b = protection s k);
  law_Protect (P : Policy A) ks s : holds P s -> Forall (fun k => k <> []) ks ->
    runs (kv_Protect ks) s (fun s' r => holds P s' /\
      (forall k, protection s' k = true -> protection s k = true \/ exists p, p ∈ ks /\ p `prefix_of` k) /\
      (r = true -> forall k, protection s k = true \/ (exists p, p ∈ ks /\ p `prefix_of` k) -> protection s' k = true));
  law_Release (P : Policy A) ks s : holds P s -> runs (kv_Release ks) s (fun s' _ => holds P s' /\
    forall k, protection s k = true -> (forall k', k' ∈ ks -> ~ k' `prefix_of` k) -> protection s' k = true) }.

(** ** The default cache *)

Section default_cache.
Context {DB : Type} `{LevelDBLaws DB} {A : Type}.
Abbreviation Cache := (DefaultCache (DB := DB) (A := A)).

#[export] Instance DefaultCache_KeyValueCache : KeyValueCache Cache A := {|
  kv_Put := Put_encoded; kv_Get := Get_decoded; kv_Contains := Contains; kv_Protect := Protect; kv_Release := Release;
  kv_IsProtected := IsProtected_; kv_Promote := Promote_; kv_Read := Read; kv_Write := Write; kv_Delete := Delete;
  kv_DeleteByPrefix := DeleteByPrefix |}.

(** Without a protected cache: its values would hide what is written. *)
Definition default_holds (P : Policy A) (s : Cache) : Prop := good s /\ protected_cache_ s = None.
Definition default_protection (s : Cache) : key -> bool := IsProtected (protected_keys_ s).

Lemma keeps_holds (P : Policy A) s s' : default_holds P s -> ok None s' -> keeps None s s' ->
  default_holds P s' /\ default_protection s' = default_protection s.
Proof.
  intros [Hg Hp] Hs' K. split.
  - split; [apply (ok_good _ _ Hs')|by rewrite (keeps_protected _ _ _ K)].
  - unfold default_protection, IsProtected. by rewrite (keeps_keys _ _ _ K).
Qed.

Lemma stays_holds (P : Policy A) s s' : default_holds P s -> ok None s' -> stays None s s' -> default_holds P s'.
Proof. intros [Hg Hp] Hs' K. split; [apply (ok_good _ _ Hs')|by rewrite (stays_cache _ _ _ K)]. Qed.

Lemma safe_law {B} (P : Policy A) (m : state Cache B) Q s : DefaultCacheInvariant.safe None m Q -> default_holds P s ->
  runs m s (fun s' r => (default_holds P s' /\ default_protection s' = default_protection s) /\ Q r).
Proof.
  intros Hm Hs. eapply runs_mono; [apply Hm, ok_none, Hs|]. intros s' r (Hs' & K & HQ). split; [by apply keeps_holds|done].
Qed.

Lemma safe_law_ {B} (P : Policy A) (m : state Cache B) Q s : DefaultCacheInvariant.safe None m Q -> default_holds P s ->
  runs m s (fun s' _ => default_holds P s' /\ default_protection s' = default_protection s).
Proof. intros Hm Hs. eapply runs_mono; [by apply (safe_law P m Q)|]. by intros s' r []. Qed.

Lemma can_store_write (P : Policy A) now k v e : can_store now k v e -> on_disk k v -> write_ok_ None now k v e.
Proof. intros ([Hx _] & Hv & _ & He) Hd. by split_and!. Qed.

#[export] Instance DefaultCache_laws : KeyValueCacheLaws Cache A.
Proof.
  refine (mkKeyValueCacheLaws Cache A _ default_holds default_protection _ _ _ _ _ _ _ _ _ _ _ _ _).
  - intros P P' s [Hg Hp] Hm Hd. split; [|done]. eapply (good_policy (P := P)); [done|done|auto|auto].
  - intros P now k s Hs Hk. by apply (safe_law P), Hs; apply safe_Read.
  - intros P now k dec s Hs Hk. by apply (safe_law P), Hs; apply safe_Get_decoded.
  - intros P now k v e s Hs Hx Hd Hc. pose proof (can_store_write P now k v e Hc Hd) as Hw. destruct Hc as (Ho & Hv & He & Hr).
    destruct (runs_Write None s now k v e (ok_none s (proj1 Hs)) Hx Hw He) as (s' & r & E & Hs' & K & _).
    exists s', r. split; [exact E|]. split; [by apply keeps_holds|]. intros -> Hpos.
    split; [|by rewrite (keeps_protected _ _ _ K), (proj2 Hs)]. eapply (Write_only s now k v e); try done; apply Hs.
  - intros P now k e s Hs. cbn. by rstep.
  - intros P now k a v e s Hs Hx Hd Hc. pose proof (can_store_write P now k v e Hc Hd) as Hw. destruct Hc as (Ho & Hv & He & Hr).
    by eapply (safe_law_ P), Hs; apply safe_Put_encoded.
  - intros P now k s Hs. by eapply (safe_law_ P), Hs; apply safe_Contains.
  - intros P k s Hs. by eapply (safe_law_ P), Hs; apply safe_Promote.
  - intros P k s Hs. by eapply (safe_law_ P), Hs; apply safe_Delete.
  - intros P k s Hs. by eapply (safe_law_ P), Hs; apply safe_DeleteByPrefix.
  - intros P k s Hs. unfold kv_IsProtected, DefaultCache_KeyValueCache, IsProtected_. by repeat rstep.
  - intros P ks s Hs Hne. eapply runs_mono; [apply (runs_Protect None); [apply ok_none, Hs|done]|].
    intros s' r (Hs' & K & Hp). split; [by eapply stays_holds|done].
  - intros P ks s Hs. eapply runs_mono; [apply (runs_Release None); [apply ok_none, Hs|by intros ?]|].
    intros s' r (Hs' & K & Hp). split; [by eapply stays_holds|]. unfold default_protection. exact Hp.
Defined.
End default_cache.

(** ** Concrete inputs *)

(** A cache on an empty database; it holds whatever the policy. *)
Section fresh.
Context {A : Type}.
Abbreviation FreshCache := (DefaultCache (DB := MemoryDB) (A := A)).

Definition empty_db : MemoryDB := mkMemoryDB false ∅.

Definition fresh_settings : CacheSettings := mkSettings (Some (chars "/cache")) None 1000000 1000000 false true.

Definition fresh : FreshCache :=
  match Open (sample_environment empty_db) (DefaultCache_new fresh_settings) with
  | Some (s, _) => s
  | None => DefaultCache_new fresh_settings
  end.

Lemma empty_entries (P : Policy A) : entries_ok (P := P) (contents empty_db).
Proof. pose proof (MemoryDB_contents empty_db) as E. cbn [records empty_db] in E. rewrite E. by split. Qed.

Lemma empty_keys : keys_stored (contents empty_db) [].
Proof. pose proof (MemoryDB_contents empty_db) as E. cbn [records empty_db] in E. rewrite E. by split; [constructor|]. Qed.

Lemma fresh_holds (P : Policy A) : default_holds P fresh.
Proof.
  split; [|by vm_compute].
  destruct (runs_Open (P := P) None (DefaultCache_new fresh_settings : FreshCache) (sample_environment empty_db) empty_db [])
    as (s & r & E & -> & [Hg _] & _);
    [by split; [eexists|..]|apply sample_opens|apply empty_entries|exact empty_keys|reflexivity|by intros ?|].
  revert E. unfold fresh. generalize (Open (sample_environment empty_db) (DefaultCache_new fresh_settings : FreshCache)).
  by intros o ->.
Qed.

(** The state after a computation. *)
Definition after_fresh {B} (s : FreshCache) (m : state FreshCache B) : FreshCache :=
  match m s with Some (s', _) => s' | None => s end.
End fresh.
