(* ===== verification/KeyGenerator.v ===== *)
(** * The keys of the cache

    Model of [olp::cache::KeyGenerator] (src/cache/KeyGenerator.cpp): the keys under
    which the repositories store what they download.  The theorems say when two keys are
    different, which is what keeps the entries of a cache apart. *)

From S2P Require Import Prelude TileKey ProtectedKeyList DefaultCache.

Definition kColons : list ascii := chars "::".
Definition kDataSuffix : list ascii := chars "Data".
Definition kPartitionSuffix : list ascii := chars "partition".

Definition CreateApiKey (hrn service version : key) : key :=
  hrn ++ chars "::" ++ service ++ chars "::" ++ version ++ chars "::api".

Definition CreateCatalogKey (hrn : key) : key := hrn ++ chars "::catalog".

Definition CreateLatestVersionKey (hrn : key) : key := hrn ++ chars "::latestVersion".

Definition CreatePartitionKey (hrn layer_id partition_id : key) (version : option Z) : key :=
  let version_str := match version with Some v => to_string_signed v ++ kColons | None => [] end in
  hrn ++ kColons ++ layer_id ++ kColons ++ partition_id ++ kColons ++ version_str ++ kPartitionSuffix.

Definition CreatePartitionsKey (hrn layer_id : key) (version : option Z) : key :=
  hrn ++ chars "::" ++ layer_id ++ chars "::" ++
  (match version with Some v => to_string_signed v ++ chars "::" | None => [] end) ++ chars "partitions".

Definition CreateLayerVersionsKey (hrn : key) (version : Z) : key :=
  hrn ++ chars "::" ++ to_string_signed version ++ chars "::layerVersions".

Definition CreateQuadTreeKey (hrn layer_id : key) (root : TileKey) (version : option Z) (depth : Z) : key :=
  hrn ++ chars "::" ++ layer_id ++ chars "::" ++ ToHereTile root ++ chars "::" ++
  (match version with Some v => to_string_signed v ++ chars "::" | None => [] end) ++
  to_string_signed depth ++ chars "::quadtree".

Definition CreateDataHandleKey (hrn layer_id data_handle : key) : key :=
  hrn ++ kColons ++ layer_id ++ kColons ++ data_handle ++ kColons ++ kDataSuffix.

(** ** Segments *)

Definition no_colon (s : list ascii) : Prop := Forall (fun c => negb (ord c =? 58) = true) s.

#[export] Instance no_colon_dec s : Decision (no_colon s).
Proof. apply Forall_dec. intros c. apply bool_eq_dec. Defined.

Lemma no_colon_digits s : Forall (fun c => is_digit c = true) s -> no_colon s.
Proof. intros Hs. eapply Forall_impl; [exact Hs|]. intros c. unfold is_digit. intros. blia. Qed.

Lemma no_colon_to_string n : 0 <= n -> no_colon (to_string n).
Proof. intros Hn. apply no_colon_digits. by destruct (to_string_spec n Hn) as (_ & ? & _). Qed.

Lemma no_colon_signed z : no_colon (to_string_signed z).
Proof.
  unfold to_string_signed. destruct (Z.ltb_spec z 0); [apply Forall_cons_2; [done|]|]; apply no_colon_to_string; lia.
Qed.

(** A text up to the first colon is determined. *)
Lemma colon_inj a b x y : no_colon a -> no_colon b -> a ++ ":"%char :: x = b ++ ":"%char :: y -> a = b /\ x = y.
Proof.
  intros Ha Hb E. assert (Ea : a = b).
  { rewrite <- (take_while_app (fun c => negb (ord c =? 58)) a (":"%char :: x)) by done. rewrite E. by apply take_while_app. }
  split; [done|]. subst b. apply app_inv_head in E. by injection E.
Qed.

Lemma colons_inj a b x y : no_colon a -> no_colon b -> a ++ chars "::" ++ x = b ++ chars "::" ++ y -> a = b /\ x = y.
Proof. intros Ha Hb E. destruct (colon_inj a b (":"%char :: x) (":"%char :: y) Ha Hb E) as [-> [= ->]]. done. Qed.

(** ** The kinds of keys *)

(** The kind of a key is the text behind its last colon. *)
Definition kind (k : key) : list ascii := reverse (take_while (fun c => negb (ord c =? 58)) (reverse k)).

Lemma kind_app k s : no_colon s -> kind ((k ++ chars "::") ++ s) = s.
Proof.
  intros Hs. unfold kind. rewrite !reverse_app, take_while_app; [by rewrite reverse_involutive|by apply Forall_reverse|done].
Qed.

Ltac kind_of_key := rewrite ?app_assoc; first [apply (kind_app _ _); by apply (bool_decide_unpack _)].

Lemma kind_api h s v : kind (CreateApiKey h s v) = chars "api".
Proof. unfold CreateApiKey. change (chars "::api") with (chars "::" ++ chars "api"). kind_of_key. Qed.

Lemma kind_catalog h : kind (CreateCatalogKey h) = chars "catalog".
Proof. unfold CreateCatalogKey. change (chars "::catalog") with (chars "::" ++ chars "catalog"). kind_of_key. Qed.

Lemma kind_latest h : kind (CreateLatestVersionKey h) = chars "latestVersion".
Proof. unfold CreateLatestVersionKey. change (chars "::latestVersion") with (chars "::" ++ chars "latestVersion"). kind_of_key. Qed.

Lemma kind_partition h l p v : kind (CreatePartitionKey h l p v) = chars "partition".
Proof. unfold CreatePartitionKey. destruct v; [|rewrite app_nil_l]; kind_of_key. Qed.

Lemma kind_partitions h l v : kind (CreatePartitionsKey h l v) = chars "partitions".
Proof. unfold CreatePartitionsKey. destruct v; [|rewrite app_nil_l]; kind_of_key. Qed.

Lemma kind_layer_versions h v : kind (CreateLayerVersionsKey h v) = chars "layerVersions".
Proof. unfold CreateLayerVersionsKey. change (chars "::layerVersions") with (chars "::" ++ chars "layerVersions"). kind_of_key. Qed.

Lemma kind_quadtree h l t v d : kind (CreateQuadTreeKey h l t v d) = chars "quadtree".
Proof. unfold CreateQuadTreeKey. change (chars "::quadtree") with (chars "::" ++ chars "quadtree"). destruct v; kind_of_key. Qed.

Lemma kind_data h l d : kind (CreateDataHandleKey h l d) = chars "Data".
Proof. unfold CreateDataHandleKey. kind_of_key. Qed.

#[export] Hint Rewrite kind_api kind_catalog kind_latest kind_partition kind_partitions kind_layer_versions kind_quadtree kind_data : code.

(** Two keys of different kinds are different. *)
Ltac other_kind := let E := fresh in intros E; apply (f_equal kind) in E; autorewrite with code in E; discriminate E.

Lemma own_kind : kind kProtectedKeys = chars "protected_data".
Proof. vm_compute. reflexivity. Qed.

Ltac not_own := let E := fresh in intros E; apply (f_equal kind) in E; rewrite own_kind in E; autorewrite with code in E; discriminate E.

(** ** Keys of one kind *)

Lemma to_string_inj a b : 0 <= a -> 0 <= b -> to_string a = to_string b -> a = b.
Proof.
  intros Ha Hb E. destruct (to_string_spec a Ha) as (_ & _ & <-). destruct (to_string_spec b Hb) as (_ & _ & <-). by rewrite E.
Qed.

Lemma to_string_signed_inj a b : to_string_signed a = to_string_signed b -> a = b.
Proof.
  assert (Hd : forall n m, 0 <= n -> chr 45 :: to_string m <> to_string n).
  { intros n m Hn E. destruct (to_string_spec n Hn) as (_ & Hd & _). rewrite <- E in Hd. by apply Forall_cons in Hd as [? _]. }
  unfold to_string_signed. destruct (Z.ltb_spec a 0), (Z.ltb_spec b 0); intros E.
  - injection E as E. apply to_string_inj in E; lia.
  - by apply Hd in E.
  - symmetry in E. by apply Hd in E.
  - by apply to_string_inj in E; try lia.
Qed.

(** The part of a key with the version. *)
Lemma version_inj v v' s :
  (match v with Some v => to_string_signed v ++ chars "::" | None => [] end) ++ s =
  (match v' with Some v => to_string_signed v ++ chars "::" | None => [] end) ++ s -> v = v'.
Proof.
  assert (Hn : forall a, (to_string_signed a ++ chars "::") ++ s <> s).
  { intros a E. apply (f_equal length) in E. rewrite !length_app in E. cbn in E. lia. }
  destruct v as [v|], v' as [v'|]; cbn [app]; [|by intros E; exfalso; apply (Hn v)|by intros E; exfalso; symmetry in E; apply Hn in E|done].
  rewrite <- !app_assoc. intros E. apply colons_inj in E as [E _]; [|apply no_colon_signed..]. by rewrite (to_string_signed_inj v v' E).
Qed.

(** Keys of partitions differ when the ids, without colons, or the versions do. *)
Lemma CreatePartitionKey_inj h l p p' v v' : no_colon p -> no_colon p' ->
  CreatePartitionKey h l p v = CreatePartitionKey h l p' v' -> p = p' /\ v = v'.
Proof.
  intros Hp Hp' E. unfold CreatePartitionKey in E. do 4 apply app_inv_head in E.
  apply colons_inj in E as [-> E]; [|done..]. split; [done|]. by apply version_inj in E.
Qed.

Lemma CreateDataHandleKey_inj h l d d' : CreateDataHandleKey h l d = CreateDataHandleKey h l d' -> d = d'.
Proof. unfold CreateDataHandleKey. intros E. do 4 apply app_inv_head in E. by apply app_inv_tail in E. Qed.

Lemma CreatePartitionsKey_inj h l v v' : CreatePartitionsKey h l v = CreatePartitionsKey h l v' -> v = v'.
Proof. unfold CreatePartitionsKey. intros E. do 4 apply app_inv_head in E. by apply version_inj in E. Qed.

Lemma CreateLayerVersionsKey_inj h v v' : CreateLayerVersionsKey h v = CreateLayerVersionsKey h v' -> v = v'.
Proof. unfold CreateLayerVersionsKey. intros E. do 2 apply app_inv_head in E. apply app_inv_tail in E. by apply to_string_signed_inj. Qed.

Lemma CreateQuadTreeKey_inj h l t t' v v' d : valid t -> valid t' ->
  CreateQuadTreeKey h l t v d = CreateQuadTreeKey h l t' v' d -> t = t' /\ v = v'.
Proof.
  intros Ht Ht' E. unfold CreateQuadTreeKey in E. do 4 apply app_inv_head in E. unfold ToHereTile in E.
  apply colons_inj in E as [E1 E]; [|apply no_colon_to_string, (proj1 (ToQuadKey64_range _))..].
  apply to_string_inj in E1; [|apply (proj1 (ToQuadKey64_range _))..]. split; [by apply quadkey_inj|by apply version_inj in E].
Qed.

(** ** Keys that extend each other

    A key without further separators in its names is no prefix of another. *)

Lemma CreateDataHandleKey_prefix h l d d' : no_colon d -> no_colon d' ->
  CreateDataHandleKey h l d `prefix_of` CreateDataHandleKey h l d' -> d = d'.
Proof.
  intros Hd Hd' [r E]. unfold CreateDataHandleKey in E. rewrite <- !app_assoc in E. do 4 apply app_inv_head in E.
  by apply colons_inj in E as [-> _].
Qed.

Lemma no_colon_here t : no_colon (ToHereTile t).
Proof. apply no_colon_to_string, (proj1 (ToQuadKey64_range _)). Qed.

Lemma CreateQuadTreeKey_prefix h l t t' v d : valid t -> valid t' ->
  CreateQuadTreeKey h l t v d `prefix_of` CreateQuadTreeKey h l t' v d -> t = t'.
Proof.
  intros Ht Ht' [r E]. unfold CreateQuadTreeKey in E. rewrite <- !app_assoc in E. do 4 apply app_inv_head in E.
  apply colons_inj in E as [E _]; [|apply no_colon_here..]. apply to_string_inj in E; [|apply (proj1 (ToQuadKey64_range _))..].
  symmetry. by apply quadkey_inj.
Qed.

Lemma quadtree_not_in_data h l t v d handle : no_colon handle ->
  ~ CreateQuadTreeKey h l t v d `prefix_of` CreateDataHandleKey h l handle.
Proof.
  intros Hh [r E]. unfold CreateQuadTreeKey, CreateDataHandleKey in E. rewrite <- !app_assoc in E. do 4 apply app_inv_head in E.
  apply colons_inj in E as [_ E]; [|done|apply no_colon_here].
  assert (Hn : no_colon kDataSuffix) by (by apply (bool_decide_unpack _)). rewrite E in Hn. unfold no_colon in Hn. rewrite !Forall_app in Hn.
  destruct Hn as (_ & _ & Hn & _). by apply Forall_cons in Hn as [? _].
Qed.

Lemma data_not_in_quadtree h l t v d handle : no_colon handle ->
  ~ CreateDataHandleKey h l handle `prefix_of` CreateQuadTreeKey h l t (Some v) d.
Proof.
  intros Hh [r E]. unfold CreateQuadTreeKey, CreateDataHandleKey in E. rewrite <- !app_assoc in E. do 4 apply app_inv_head in E.
  apply colons_inj in E as [_ E]; [|apply no_colon_here|done]. revert E.
  assert (Hd : forall n x y, 0 <= n -> to_string n ++ x <> kDataSuffix ++ y).
  { intros n x y Hn E. destruct (to_string_spec n Hn) as (Hne & Hd & _). destruct (to_string n) as [|c s]; [done|].
    apply Forall_cons in Hd as [Hd _]. by injection E as -> _. }
  unfold to_string_signed. destruct (Z.ltb_spec v 0); [done|by apply Hd].
Qed.

(** ** Keys that are not expiry keys

    The cache takes every key with the text of an expiry suffix in it for an expiry key.
    No suffix of the keys above ends it, so that only the names in a key matter. *)

Definition no_y (s : list ascii) : Prop := Forall (fun c => c <> "y"%char) s.

#[export] Instance no_y_dec s : Decision (no_y s).
Proof. unfold no_y. apply _. Defined.

Lemma no_y_signed z : no_y (to_string_signed z).
Proof.
  assert (Hd : forall n, 0 <= n -> no_y (to_string n)).
  { intros n Hn. destruct (to_string_spec n Hn) as (_ & Hd & _). eapply Forall_impl; [exact Hd|]. by intros c Hc ->. }
  unfold to_string_signed. destruct (Z.ltb_spec z 0); [apply Forall_cons_2; [done|]|]; apply Hd; lia.
Qed.

Lemma no_y_here t : no_y (ToHereTile t).
Proof.
  unfold ToHereTile. pose proof (proj1 (ToQuadKey64_range t)) as H. pose proof (no_y_signed (ToQuadKey64 t)) as Hy.
  unfold to_string_signed in Hy. by replace (ToQuadKey64 t <? 0) with false in Hy by blia.
Qed.

Lemma no_y_version v : no_y (match v with Some v => to_string_signed v ++ chars "::" | None => [] end).
Proof. destruct v; [apply Forall_app; split; [apply no_y_signed|by apply (bool_decide_unpack _)]|apply Forall_nil_2]. Qed.

Lemma expiry_in_front a b : no_y b -> kExpirySuffix `prefix_of` a ++ b -> kExpirySuffix `prefix_of` a.
Proof.
  intros Hb [r E]. destruct (app_eq_inv _ _ _ _ E) as [(z & -> & _)|(z & Ez & ->)]; [by exists z|].
  destruct z as [|c z _] using rev_ind; [rewrite app_nil_r in Ez; by rewrite Ez|].
  exfalso. rewrite app_assoc in Ez. assert (Hc : c = "y"%char).
  { apply (f_equal last) in Ez. rewrite last_snoc in Ez. by injection Ez. }
  unfold no_y in Hb. rewrite !Forall_app in Hb. destruct Hb as [[_ Hb] _]. by apply Forall_cons in Hb as [Hb _].
Qed.

Lemma IsExpiryKey_nil b : no_y b -> IsExpiryKey b = false.
Proof.
  intros Hb. assert (Hs : forall b, no_y b -> starts_with kExpirySuffix b = false).
  { intros b' Hb'. apply not_true_iff_false. intros Hp%starts_with_spec. apply (expiry_in_front [] b' Hb') in Hp.
    by apply prefix_nil_not in Hp. }
  induction b as [|c b IH]; [done|]. cbn [IsExpiryKey]. rewrite Hs by done. apply Forall_cons in Hb as [_ Hb]. by apply IH.
Qed.

Lemma IsExpiryKey_app a b : IsExpiryKey a = false -> no_y b -> IsExpiryKey (a ++ b) = false.
Proof.
  intros Ha Hb. induction a as [|c a IH]; [by apply IsExpiryKey_nil|]. cbn [app IsExpiryKey] in *.
  apply orb_false_iff in Ha as [H1 H2]. apply orb_false_iff. split; [|by apply IH].
  apply not_true_iff_false in H1. apply not_true_iff_false. intros Hp%starts_with_spec. apply H1, starts_with_spec.
  by apply (expiry_in_front (c :: a) b).
Qed.

Lemma plain_partition h l id v : IsExpiryKey (h ++ kColons ++ l ++ kColons ++ id) = false -> IsExpiryKey (CreatePartitionKey h l id v) = false.
Proof.
  intros Hp. unfold CreatePartitionKey. rewrite !(app_assoc h), !(app_assoc (h ++ _)), !(app_assoc ((h ++ _) ++ _)).
  rewrite !(app_assoc (((h ++ _) ++ _) ++ _)). apply IsExpiryKey_app; [by rewrite <- !app_assoc|].
  apply Forall_app. split; [by apply (bool_decide_unpack _)|]. apply Forall_app. split; [apply no_y_version|by apply (bool_decide_unpack _)].
Qed.

Lemma plain_quadtree h l t v d : IsExpiryKey (h ++ kColons ++ l) = false -> IsExpiryKey (CreateQuadTreeKey h l t v d) = false.
Proof.
  intros Hp. unfold CreateQuadTreeKey. rewrite (app_assoc _ l), (app_assoc h). apply IsExpiryKey_app; [done|].
  repeat (apply Forall_app; split); try apply no_y_here; try apply no_y_version; try apply no_y_signed; by apply (bool_decide_unpack _).
Qed.

Lemma plain_partitions h l v : IsExpiryKey (h ++ kColons ++ l) = false -> IsExpiryKey (CreatePartitionsKey h l v) = false.
Proof.
  intros Hp. unfold CreatePartitionsKey. rewrite (app_assoc _ l), (app_assoc h). apply IsExpiryKey_app; [done|].
  repeat (apply Forall_app; split); try apply no_y_version; by apply (bool_decide_unpack _).
Qed.

Lemma plain_data h l d : IsExpiryKey (h ++ kColons ++ l ++ kColons ++ d) = false -> IsExpiryKey (CreateDataHandleKey h l d) = false.
Proof.
  intros Hp. unfold CreateDataHandleKey. rewrite !(app_assoc h), !(app_assoc (h ++ _)), !(app_assoc ((h ++ _) ++ _)).
  rewrite !(app_assoc (((h ++ _) ++ _) ++ _)). apply IsExpiryKey_app; [by rewrite <- !app_assoc|].
  by apply (bool_decide_unpack _).
Qed.

(** Two plain parts with colons between them. *)
Lemma IsExpiryKey_colons a b : IsExpiryKey a = false -> IsExpiryKey (kColons ++ b) = false -> IsExpiryKey (a ++ kColons ++ b) = false.
Proof.
  intros Ha Hb. induction a as [|c a IH]; [done|]. cbn [app IsExpiryKey] in *.
  apply orb_false_iff in Ha as [H1 H2]. apply orb_false_iff. split; [|by apply IH].
  apply not_true_iff_false in H1. apply not_true_iff_false. intros Hp%starts_with_spec. apply H1, starts_with_spec.
  destruct Hp as [r E]. change (c :: a ++ kColons ++ b) with ((c :: a) ++ kColons ++ b) in E.
  destruct (app_eq_inv _ _ _ _ E) as [(z & Ea & _)|(z & Ez & Eb)]; [by exists z|].
  destruct z as [|d z]; [exists []; by rewrite app_nil_r in Ez |- *|]. exfalso. injection Eb as <- Eb.
  assert (Hin : ":"%char ∉ chars "expiry") by (by apply (bool_decide_unpack _)).
  destruct a as [|a1 [|a2 a]]; [injection Ez as _ Ez; subst z; discriminate Eb|by injection Ez|].
  injection Ez as _ _ _ Ez. apply Hin. unfold chars. cbn. rewrite Ez. right. apply elem_of_app. right. left.
Qed.

Lemma IsExpiryKey_app_r a b : IsExpiryKey (a ++ b) = false -> IsExpiryKey b = false.
Proof. induction a as [|c a IH]; [done|]. cbn [app IsExpiryKey]. by intros [_ ?%IH]%orb_false_iff. Qed.

Lemma IsExpiryKey_app_l a b : IsExpiryKey (a ++ b) = false -> IsExpiryKey a = false.
Proof.
  induction a as [|c a IH]; [by intros _; vm_compute|]. cbn [app IsExpiryKey]. intros [H1 H2%IH]%orb_false_iff.
  apply orb_false_iff. split; [|done]. apply not_true_iff_false in H1. apply not_true_iff_false. intros Hp%starts_with_spec.
  apply H1, starts_with_spec. change (c :: a ++ b) with ((c :: a) ++ b). by apply prefix_app_r.
Qed.

(** An id of a partition whose keys are no expiry keys, in a plain layer. *)
Definition plain_id (id : key) : Prop := IsExpiryKey (kColons ++ id) = false.

Lemma plain_id_partition h l id v : IsExpiryKey (h ++ kColons ++ l) = false -> plain_id id -> IsExpiryKey (CreatePartitionKey h l id v) = false.
Proof. intros Hl Hi. apply plain_partition. rewrite (app_assoc _ l), (app_assoc h). by apply IsExpiryKey_colons. Qed.

Lemma partition_plain_id h l id v : IsExpiryKey (CreatePartitionKey h l id v) = false -> plain_id id.
Proof.
  unfold CreatePartitionKey, plain_id. intros E%IsExpiryKey_app_r. do 2 apply IsExpiryKey_app_r in E.
  rewrite (app_assoc _ id) in E. by apply IsExpiryKey_app_l in E.
Qed.
