(* ===== verification/CacheRepositories.v ===== *)
(** * The cache repositories

    Model of the repositories of the reading library that keep what was downloaded in the
    cache (olp-cpp-sdk-dataservice-read, src/repositories/DataCacheRepository.cpp,
    ApiCacheRepository.cpp, CatalogCacheRepository.cpp, PartitionsCacheRepository.cpp),
    over the interface of the cache of KeyValueCache.v.

    A repository is a record of its members but the cache, which is the state.  What
    Boost.JSON writes and reads of the models of ReadModels.v is a parameter, and so are
    the bytes of a quad tree index, which the code takes from and gives to the index as
    they are in memory.  [None] of an operation is an exception of [any_cast] or of the
    cache, or the undefined behaviour of a parser on a text of another model. *)

From S2P Require Import Prelude TileKey QuadTreeIndex Hrn LruCache InMemoryCache ProtectedKeyList DiskCache DefaultCache.
From S2P Require Import DefaultCacheInvariant DefaultCacheOperations KeyValueCache KeyGenerator Json ReadModels.

Definition kTimetMax : Z := 2^63 - 1.
Definition kChronoSecondsMax : Z := 2^63 - 1.
Definition ConvertTime (time : Z) : Z := if time =? kChronoSecondsMax then kTimetMax else time.

Definition kLookupApiExpiryTime : Z := 3600.
Definition kMaxQuadTreeIndexDepth : Z := 4.

(** The members of the repositories of data and of partitions, and of the others. *)
Record DataCacheRepository := mkDataRepository { data_hrn_ : key; data_default_expiry_ : Z }.
Record PartitionsCacheRepository := mkPartitionsRepository { catalog_ : key; layer_id_ : key; default_expiry_ : Z }.
Record CatalogCacheRepository := mkCatalogRepository { hrn_ : HRN; catalog_default_expiry_ : Z }.

Definition DataCacheRepository_new (hrn : HRN) (default_expiry : Z) : DataCacheRepository :=
  mkDataRepository (ToCatalogHRNString hrn) (ConvertTime default_expiry).
Definition PartitionsCacheRepository_new (catalog : HRN) (layer_id : key) (default_expiry : Z) : PartitionsCacheRepository :=
  mkPartitionsRepository (ToCatalogHRNString catalog) layer_id (ConvertTime default_expiry).
Definition CatalogCacheRepository_new (hrn : HRN) (default_expiry : Z) : CatalogCacheRepository :=
  mkCatalogRepository hrn (ConvertTime default_expiry).

(** What turns models and quad trees into bytes and back. *)
Class Models := mkModels {
  models_text :: JsonText;
  GetRawData : QuadTreeIndex -> bytes; QuadTreeIndex_of : bytes -> QuadTreeIndex }.

Class ModelLaws `{Models} : Prop := mkModelLaws {
  models_text_laws :: JsonTextLaws;
  QuadTreeIndex_of_raw q : QuadTreeIndex_of (GetRawData q) = q }.

(** What is in an [any] of the cache, besides bytes. *)
Inductive Model :=
| MUrl (url : key)
| MCatalog (catalog : Catalog)
| MVersion (version : VersionResponse)
| MLayers (versions : LayerVersions).

Section repositories.
Context `{Models} {S : Type} `{KeyValueCache S Model}.

(** The outcome of an operation on the cache, whose value is dropped. *)
Definition outcome_of (r : Outcome unit) : Outcome unit := match r with inr e => inr e | inl _ => inl tt end.

(** ** Data *)

Definition Put_data (r : DataCacheRepository) (now : Z) (data : option bytes) (layer_id data_handle : key) : state S (Outcome unit) :=
  let k := CreateDataHandleKey (data_hrn_ r) layer_id data_handle in
  write_result ← kv_Write now k data (data_default_expiry_ r);
  mret (outcome_of write_result).

Definition Get_data (r : DataCacheRepository) (now : Z) (layer_id data_handle : key) : state S (option bytes) :=
  let k := CreateDataHandleKey (data_hrn_ r) layer_id data_handle in
  kv_Get_bytes now k.

Definition IsCached (r : DataCacheRepository) (now : Z) (layer_id data_handle : key) : state S bool :=
  kv_Contains now (CreateDataHandleKey (data_hrn_ r) layer_id data_handle).

Definition Clear_data (r : DataCacheRepository) (layer_id data_handle : key) : state S (Outcome unit) :=
  kv_DeleteByPrefix (CreateDataHandleKey (data_hrn_ r) layer_id data_handle).

Definition PromoteInCache (r : DataCacheRepository) (layer_id data_handle : key) : state S unit :=
  kv_Promote (CreateDataHandleKey (data_hrn_ r) layer_id data_handle).

(** ** URLs of services *)

Definition Put_api (hrn : HRN) (now : Z) (service version url : key) : state S bool :=
  let k := CreateApiKey (ToCatalogHRNString hrn) service version in
  kv_Put now k (MUrl url) url kLookupApiExpiryTime.

Definition Get_api (hrn : HRN) (now : Z) (service version : key) : state S (option key) :=
  let k := CreateApiKey (ToCatalogHRNString hrn) service version in
  url ← kv_Get now k (fun value => Some (AnyValue (MUrl value)));
  match url with
  | None => mret None
  | Some (AnyValue (MUrl url)) => mret (Some url)
  | Some _ => fails
  end.

(** ** Catalogs *)

Definition Put_catalog (r : CatalogCacheRepository) (now : Z) (catalog : Catalog) : state S bool :=
  let k := CreateCatalogKey (ToCatalogHRNString (hrn_ r)) in
  kv_Put now k (MCatalog catalog) (serialize_text catalog) (catalog_default_expiry_ r).

Definition Get_catalog (r : CatalogCacheRepository) (now : Z) : state S (option Catalog) :=
  let k := CreateCatalogKey (ToCatalogHRNString (hrn_ r)) in
  cached_catalog ← kv_Get now k (fun value => m ← parse_model (T := Catalog) value; Some (AnyValue (MCatalog m)));
  match cached_catalog with
  | None => mret None
  | Some (AnyValue (MCatalog c)) => mret (Some c)
  | Some _ => fails
  end.

Definition PutVersion (r : CatalogCacheRepository) (now : Z) (version : VersionResponse) : state S bool :=
  let k := CreateLatestVersionKey (ToCatalogHRNString (hrn_ r)) in
  kv_Put now k (MVersion version) (serialize_text version) (catalog_default_expiry_ r).

Definition GetVersion (r : CatalogCacheRepository) (now : Z) : state S (option VersionResponse) :=
  let k := CreateLatestVersionKey (ToCatalogHRNString (hrn_ r)) in
  cached_version ← kv_Get now k (fun value => m ← parse_model (T := VersionResponse) value; Some (AnyValue (MVersion m)));
  match cached_version with
  | None => mret None
  | Some (AnyValue (MVersion v)) => mret (Some v)
  | Some _ => fails
  end.

Definition Clear_catalog (r : CatalogCacheRepository) : state S bool :=
  kv_RemoveKeysWithPrefix (ToCatalogHRNString (hrn_ r)).

(** ** Partitions *)

(** The loop of [Put] over the partitions; the ids are those it collects. *)
Fixpoint put_partitions_loop (r : PartitionsCacheRepository) (now : Z) (partitions : list Partition) (version : option Z) (expiry : Z)
  (layer_metadata : bool) (partition_ids : list key) : state S (Outcome (list key)) :=
  match partitions with
  | [] => mret (inl partition_ids)
  | partition :: partitions =>
      let k := CreatePartitionKey (catalog_ r) (layer_id_ r) (Partition_partition partition) version in
      put_result ← kv_Write now k (Some (serialize_text partition)) expiry;
      match put_result with
      | inr e => mret (inr e)
      | inl _ => put_partitions_loop r now partitions version expiry layer_metadata
                   (if layer_metadata then partition_ids ++ [Partition_partition partition] else partition_ids)
      end
  end.

Definition Put_partitions (r : PartitionsCacheRepository) (now : Z) (partitions : list Partition) (version : option Z)
  (expiry : option Z) (layer_metadata : bool) : state S (Outcome unit) :=
  let expiry := default (default_expiry_ r) expiry in
  put_result ← put_partitions_loop r now partitions version expiry layer_metadata [];
  match put_result with
  | inr e => mret (inr e)
  | inl partition_ids =>
      if layer_metadata then
        let k := CreatePartitionsKey (catalog_ r) (layer_id_ r) version in
        put_result ← kv_Write now k (Some (serialize_text partition_ids)) expiry;
        mret (outcome_of put_result)
      else mret (inl tt)
  end.

(** [Get] of a list of ids: the partitions that are cached. *)
Fixpoint Get_partitions (r : PartitionsCacheRepository) (now : Z) (partition_ids : list key) (version : option Z) : state S (list Partition) :=
  match partition_ids with
  | [] => mret []
  | partition_id :: partition_ids =>
      let k := CreatePartitionKey (catalog_ r) (layer_id_ r) partition_id version in
      read_response ← kv_Read now k;
      match read_response with
      | inl value =>
          partition ← lift (parse_model (T := Partition) value);
          cached_partitions ← Get_partitions r now partition_ids version;
          mret (partition :: cached_partitions)
      | inr _ => Get_partitions r now partition_ids version
      end
  end.

(** [Get] of a request, whose ids are [partition_ids]. *)
Definition Get_request (r : PartitionsCacheRepository) (now : Z) (partition_ids : list key) (version : option Z) : state S (option (list Partition)) :=
  let k := CreatePartitionsKey (catalog_ r) (layer_id_ r) version in
  match partition_ids with
  | [] =>
      read_response ← kv_Read now k;
      match read_response with
      | inl value =>
          partition_ids ← lift (parse_model (T := list key) value);
          partitions ← Get_partitions r now partition_ids version;
          mret (Some partitions)
      | inr _ => mret None
      end
  | _ =>
      available_partitions ← Get_partitions r now partition_ids version;
      mret (if negb (length available_partitions =? length partition_ids)%nat then None else Some available_partitions)
  end.

Definition Put_layer_versions (r : PartitionsCacheRepository) (now catalog_version : Z) (layer_versions : LayerVersions) : state S bool :=
  let k := CreateLayerVersionsKey (catalog_ r) catalog_version in
  kv_Put now k (MLayers layer_versions) (serialize_text layer_versions) (default_expiry_ r).

Definition Get_layer_versions (r : PartitionsCacheRepository) (now catalog_version : Z) : state S (option LayerVersions) :=
  let k := CreateLayerVersionsKey (catalog_ r) catalog_version in
  cached_layer_versions ← kv_Get now k (fun value => m ← parse_model (T := LayerVersions) value; Some (AnyValue (MLayers m)));
  match cached_layer_versions with
  | None => mret None
  | Some (AnyValue (MLayers l)) => mret (Some l)
  | Some _ => fails
  end.

(** [Put] of a quad tree; a null tree is [None]. *)
Definition Put_tree (r : PartitionsCacheRepository) (now : Z) (tile_key : TileKey) (depth : Z) (quad_tree : option QuadTreeIndex)
  (version : option Z) : state S (Outcome unit) :=
  let k := CreateQuadTreeKey (catalog_ r) (layer_id_ r) tile_key version depth in
  match quad_tree with
  | None => mret (inl tt)
  | Some quad_tree =>
      write_response ← kv_Write now k (Some (GetRawData quad_tree)) (default_expiry_ r);
      mret (outcome_of write_response)
  end.

(** [Get] of a quad tree: [tree] when it returns true. *)
Definition Get_tree (r : PartitionsCacheRepository) (now : Z) (tile_key : TileKey) (depth : Z) (version : option Z) : state S (option QuadTreeIndex) :=
  let k := CreateQuadTreeKey (catalog_ r) (layer_id_ r) tile_key version depth in
  read_response ← kv_Read now k;
  mret (match read_response with inl value => Some (QuadTreeIndex_of value) | inr _ => None end).

Definition Clear_layer (r : PartitionsCacheRepository) : state S bool :=
  kv_RemoveKeysWithPrefix (catalog_ r ++ chars "::" ++ layer_id_ r ++ chars "::").

Fixpoint clear_partitions_loop (r : PartitionsCacheRepository) (cached_partitions : list Partition) (passed : bool) : state S bool :=
  match cached_partitions with
  | [] => mret passed
  | partition :: cached_partitions =>
      removed ← kv_RemoveKeysWithPrefix (catalog_ r ++ chars "::" ++ layer_id_ r ++ chars "::" ++ Partition_data_handle partition);
      let passed := removed && passed in
      removed ← kv_RemoveKeysWithPrefix (catalog_ r ++ chars "::" ++ layer_id_ r ++ chars "::" ++ Partition_partition partition);
      let passed := removed && passed in
      clear_partitions_loop r cached_partitions passed
  end.

Definition ClearPartitions (r : PartitionsCacheRepository) (now : Z) (partition_ids : list key) (version : option Z) : state S bool :=
  cached_partitions ← Get_partitions r now partition_ids version;
  clear_partitions_loop r cached_partitions true.

Definition ClearQuadTree (r : PartitionsCacheRepository) (tile_key : TileKey) (depth : Z) (version : option Z) : state S (Outcome unit) :=
  kv_DeleteByPrefix (CreateQuadTreeKey (catalog_ r) (layer_id_ r) tile_key version depth).

(** [ClearPartitionMetadata]: the result and [out_partition]. *)
Definition ClearPartitionMetadata (r : PartitionsCacheRepository) (now : Z) (partition_id : key) (catalog_version : option Z)
  : state S (Outcome unit * option Partition) :=
  let k := CreatePartitionKey (catalog_ r) (layer_id_ r) partition_id catalog_version in
  read_response ← kv_Read now k;
  match read_response with
  | inr NotFound => mret (inl tt, None)
  | inr e => mret (inr e, None)
  | inl value =>
      out_partition ← lift (parse_model (T := Partition) value);
      result ← kv_DeleteByPrefix k;
      mret (result, Some out_partition)
  end.

(** [GetPartitionHandle]: [data_handle] when it returns true. *)
Definition GetPartitionHandle (r : PartitionsCacheRepository) (now : Z) (partition_id : key) (catalog_version : option Z) : state S (option key) :=
  let k := CreatePartitionKey (catalog_ r) (layer_id_ r) partition_id catalog_version in
  read_response ← kv_Read now k;
  match read_response with
  | inl value => partition ← lift (parse_model (T := Partition) value); mret (Some (Partition_data_handle partition))
  | inr _ => mret None
  end.

(** The loop of [FindQuadTree], from the highest ancestor down to the tile. *)
Fixpoint find_quad_tree_loop (i : nat) (r : PartitionsCacheRepository) (now : Z) (k : TileKey) (version : option Z) : state S (option QuadTreeIndex) :=
  let root_tile_key := ChangedLevelBy k (- Z.of_nat i) in
  cached_tree ← Get_tree r now root_tile_key kMaxQuadTreeIndexDepth version;
  match cached_tree, i with
  | Some tree, _ => mret (Some tree)
  | None, O => mret None
  | None, Datatypes.S i => find_quad_tree_loop i r now k version
  end.

Definition FindQuadTree (r : PartitionsCacheRepository) (now : Z) (k : TileKey) (version : option Z) : state S (option QuadTreeIndex) :=
  let max_depth := Z.min (level_ k) kMaxQuadTreeIndexDepth in
  find_quad_tree_loop (Z.to_nat max_depth) r now k version.

Definition ContainsTree (r : PartitionsCacheRepository) (now : Z) (k : TileKey) (depth : Z) (version : option Z) : state S bool :=
  kv_Contains now (CreateQuadTreeKey (catalog_ r) (layer_id_ r) k version depth).

Definition CreatePartitionKeys (r : PartitionsCacheRepository) (now : Z) (partition_id : key) (version : option Z) : state S (list key) :=
  handle ← GetPartitionHandle r now partition_id version;
  mret (match handle with
        | Some handle => [CreatePartitionKey (catalog_ r) (layer_id_ r) partition_id version;
                          CreateDataHandleKey (catalog_ r) (layer_id_ r) handle]
        | None => []
        end).

Fixpoint partition_keys_loop (r : PartitionsCacheRepository) (now : Z) (partition_ids : list key) (version : option Z) : state S (list key) :=
  match partition_ids with
  | [] => mret []
  | partition_id :: partition_ids =>
      partition_keys ← CreatePartitionKeys r now partition_id version;
      keys ← partition_keys_loop r now partition_ids version;
      mret (partition_keys ++ keys)
  end.

Definition Protect_partitions (r : PartitionsCacheRepository) (now : Z) (partition_ids : list key) (version : option Z) : state S bool :=
  keys ← partition_keys_loop r now partition_ids version;
  match keys with [] => mret false | _ => kv_Protect keys end.

Definition Release_partitions (r : PartitionsCacheRepository) (now : Z) (partition_ids : list key) (version : option Z) : state S bool :=
  keys ← partition_keys_loop r now partition_ids version;
  match keys with [] => mret false | _ => kv_Release keys end.
End repositories.

(** ** What a cache may hold of the repositories

    Every key has the type of its kind: a sequence of operations of any repositories that
    share a cache meets no [any_cast] of another type and no undefined behaviour of the
    cache. *)

Section typed.
Context `{ModelLaws} {S : Type} `{KeyValueCacheLaws S Model}.

(** What a text on disk is parsed as, by the kind of its key. *)
Definition typed_text (k : key) (v : bytes) : Prop :=
  if decide (kind k = chars "catalog") then exists c : Catalog, parse_model v = Some c
  else if decide (kind k = chars "latestVersion") then exists r : VersionResponse, parse_model v = Some r
  else if decide (kind k = chars "layerVersions") then exists l : LayerVersions, parse_model v = Some l
  else if decide (kind k = chars "partition") then exists p : Partition, parse_model v = Some p
  else if decide (kind k = chars "partitions") then exists ids : list key, parse_model v = Some ids /\ Forall plain_id ids
  else True.

(** The type of a value in memory, by the kind of its key. *)
Definition typed_value (k : key) (x : any (A := Model)) : Prop :=
  if decide (kind k = chars "api") then exists u, x = AnyValue (MUrl u)
  else if decide (kind k = chars "catalog") then exists c, x = AnyValue (MCatalog c)
  else if decide (kind k = chars "latestVersion") then exists v, x = AnyValue (MVersion v)
  else if decide (kind k = chars "layerVersions") then exists l, x = AnyValue (MLayers l)
  else exists v, x = AnyBytes v /\ typed_text k v.

Definition typed : Policy Model := mkPolicy Model typed_value typed_text.

Definition value_kind (k : key) : Prop :=
  kind k = chars "api" \/ kind k = chars "catalog" \/ kind k = chars "latestVersion" \/ kind k = chars "layerVersions".

Lemma typed_bytes k x : ~ value_kind k -> typed_value k x <-> exists v, x = AnyBytes v /\ typed_text k v.
Proof. unfold value_kind, typed_value. intros Hk. by rewrite !decide_False by tauto. Qed.

Lemma typed_bytes_key k : ~ value_kind k -> k <> kProtectedKeys -> IsExpiryKey k = false \/ (forall v, typed_text k v) -> bytes_key (P := typed) k.
Proof.
  intros Hk Ho Ht. split; [done| |]; cbn [in_memory on_disk typed].
  - intros x (v & -> & _)%(typed_bytes k); eauto.
  - intros v Hv. apply (typed_bytes k); [done|]. exists v. split; [done|]. destruct Ht as [Ht|Ht]; [by apply Hv|apply Ht].
Qed.

Ltac key_of_kind := unfold value_kind; autorewrite with code; let H := fresh in intros H; repeat destruct H as [H|H]; discriminate H.

Lemma typed_partition h l p v : IsExpiryKey (CreatePartitionKey h l p v) = false -> bytes_key (P := typed) (CreatePartitionKey h l p v).
Proof. intros Hx. apply typed_bytes_key; [key_of_kind|not_own|by left]. Qed.
Lemma typed_partitions h l v : IsExpiryKey (CreatePartitionsKey h l v) = false -> bytes_key (P := typed) (CreatePartitionsKey h l v).
Proof. intros Hx. apply typed_bytes_key; [key_of_kind|not_own|by left]. Qed.

Ltac any_text := intros; unfold typed_text; autorewrite with code; cbn; done.
Lemma typed_quadtree h l t v d : bytes_key (P := typed) (CreateQuadTreeKey h l t v d).
Proof. apply typed_bytes_key; [key_of_kind|not_own|right; any_text]. Qed.
Lemma typed_data h l d : bytes_key (P := typed) (CreateDataHandleKey h l d).
Proof. apply typed_bytes_key; [key_of_kind|not_own|right; any_text]. Qed.

#[local] Hint Resolve typed_partition typed_partitions typed_quadtree typed_data : code.

Definition typed_run {B} (m : state S B) : Prop := forall s, holds typed s -> runs m s (fun s' _ => holds typed s').

Lemma typed_ret {B} (b : B) : typed_run (mret b).
Proof. intros s Hs. by rstep. Qed.

Lemma typed_bind {B C} (m : state S B) (f : B -> state S C) : typed_run m -> (forall b, typed_run (f b)) -> typed_run (m ≫= f).
Proof. intros Hm Hf s Hs. rstep. eapply runs_mono; [by apply Hm|]. intros s' b Hs'. by apply Hf. Qed.

Lemma typed_drop {B} (m : state S B) (Q : S -> B -> Prop) s : runs m s (fun s' r => (holds typed s' /\ protection s' = protection s) /\ Q s' r) ->
  runs m s (fun s' _ => holds typed s').
Proof. intros Hm. eapply runs_mono; [exact Hm|]. by intros s' r [[] _]. Qed.

Lemma typed_same {B} (m : state S B) s : runs m s (fun s' _ => holds typed s' /\ protection s' = protection s) ->
  runs m s (fun s' _ => holds typed s').
Proof. intros Hm. eapply runs_mono; [exact Hm|]. by intros s' r []. Qed.

(** A [Read], and what is done with the bytes. *)
Lemma typed_Read_then {B} now k (f : Outcome bytes -> state S B) : bytes_key (P := typed) k -> ~ value_kind k ->
  (forall v, typed_text k v -> typed_run (f (inl v))) -> (forall e, typed_run (f (inr e))) -> typed_run (r ← kv_Read now k; f r).
Proof.
  intros Hk Hv Hf Hn s Hs. rstep. eapply runs_mono; [by apply (law_Read typed)|].
  intros s' [v|e] [[Hs' _] Hr]; [|by apply Hn]. destruct (proj1 (typed_bytes k _ Hv) (Hr v eq_refl)) as (w & [= <-] & Hw). by apply Hf.
Qed.

Lemma typed_Read now k : bytes_key (P := typed) k -> typed_run (kv_Read now k).
Proof. intros Hk s Hs. by eapply typed_drop, (law_Read typed). Qed.

Lemma typed_Write now k v e : ~ value_kind k -> (forall w, v = Some w -> can_store now k w e /\ typed_text k w) -> typed_run (kv_Write now k v e).
Proof.
  intros Hk Hc s Hs. destruct v as [v|]; [|by apply (law_Write_none typed)]. destruct (Hc v eq_refl) as [Hw Ht].
  eapply typed_drop, (law_Write typed); [done| |exact Ht|done]. apply (typed_bytes k); eauto.
Qed.

Lemma typed_Put now k a v e : typed_value k (AnyValue a) -> typed_text k v -> can_store now k v e -> typed_run (kv_Put now k a v e).
Proof. intros Hk Ht Hc s Hs. by apply typed_same, (law_Put typed). Qed.

(** A [Get] with a decoder, and what is done with the value. *)
Lemma typed_Get {B} now k decoder (f : option (any (A := Model)) -> state S B) :
  ordinary k -> (forall v, typed_text k v -> exists x, decoder v = Some x /\ typed_value k x) ->
  (forall x, typed_value k x -> typed_run (f (Some x))) -> typed_run (f None) ->
  typed_run (x ← kv_Get now k decoder; f x).
Proof.
  intros Hk Hd Hf Hn s Hs. rstep. eapply runs_mono; [apply (law_Get typed); [done|split; [apply Hk|intros v Hv; by apply Hd, Hv]]|].
  intros s' [x|] [[Hs' _] Hx]; [by apply Hf; [apply Hx|]|by apply Hn].
Qed.

(** A parser on a text that it parses. *)
Lemma typed_lift {B C} (x : option B) (y : B) (f : B -> state S C) : x = Some y -> typed_run (f y) -> typed_run (b ← lift x; f b).
Proof. intros -> Hf s Hs. rstep. eapply runs_lift; [done|]. by apply Hf. Qed.

Lemma typed_DeleteByPrefix k : typed_run (kv_DeleteByPrefix k).
Proof. intros s Hs. by apply typed_same, (law_DeleteByPrefix typed). Qed.

Lemma typed_RemoveKeysWithPrefix k : typed_run (kv_RemoveKeysWithPrefix k).
Proof. apply typed_bind; [apply typed_DeleteByPrefix|intros; apply typed_ret]. Qed.

Lemma typed_Contains now k : typed_run (kv_Contains now k).
Proof. intros s Hs. by apply typed_same, (law_Contains typed). Qed.

Lemma typed_Promote k : typed_run (kv_Promote k).
Proof. intros s Hs. by apply typed_same, (law_Promote typed). Qed.

Lemma typed_Release ks : typed_run (kv_Release ks).
Proof. intros s Hs. eapply runs_mono; [by apply (law_Release typed)|]. by intros s' r []. Qed.

Lemma typed_Protect ks : Forall (fun k => k <> []) ks -> typed_run (kv_Protect ks).
Proof. intros Hk s Hs. eapply runs_mono; [by apply (law_Protect typed)|]. by intros s' r []. Qed.

#[local] Hint Resolve typed_ret typed_bind typed_Read typed_DeleteByPrefix typed_RemoveKeysWithPrefix typed_Contains
  typed_Promote typed_Release : code.

Ltac typed_step :=
  first
    [ apply typed_bind; [|intros ?] | apply typed_ret | apply typed_Contains | apply typed_Promote | apply typed_Release
    | apply typed_DeleteByPrefix | apply typed_RemoveKeysWithPrefix | apply typed_Read; by auto with code
    | match goal with |- typed_run (match ?x with _ => _ end) => destruct x end ].

(** *** The operations *)

(** A layer whose keys are no expiry keys. *)
Definition plain_layer (r : PartitionsCacheRepository) : Prop := IsExpiryKey (catalog_ r ++ kColons ++ layer_id_ r) = false.

Lemma typed_Read_partition {B} r now id v (f : Outcome bytes -> state S B) : plain_layer r -> plain_id id ->
  (forall b p, parse_model (T := Partition) b = Some p -> typed_run (f (inl b))) -> (forall e, typed_run (f (inr e))) ->
  typed_run (x ← kv_Read now (CreatePartitionKey (catalog_ r) (layer_id_ r) id v); f x).
Proof.
  intros Hr Hi Hf Hn. apply typed_Read_then; [by apply typed_partition, plain_id_partition|key_of_kind| |exact Hn].
  intros b. unfold typed_text. autorewrite with code. cbn. intros [p Hp]. by apply (Hf b p).
Qed.

Lemma typed_Get_partitions r now ids v : plain_layer r -> Forall plain_id ids -> typed_run (Get_partitions r now ids v).
Proof.
  intros Hr Hi. induction Hi as [|id ids Hid _ IH]; cbn [Get_partitions]; [apply typed_ret|].
  apply typed_Read_partition; [done..| |done]. intros b p Hp. apply (typed_lift _ p); [done|]. repeat (typed_step || apply IH).
Qed.

Lemma typed_GetPartitionHandle r now id v : plain_layer r -> plain_id id -> typed_run (GetPartitionHandle r now id v).
Proof.
  intros Hr Hi. unfold GetPartitionHandle. apply typed_Read_partition; [done..| |intros; apply typed_ret].
  intros b p Hp. apply (typed_lift _ p); [done|apply typed_ret].
Qed.

Lemma typed_Get_tree r now t d v : typed_run (Get_tree r now t d v).
Proof. unfold Get_tree. repeat typed_step. Qed.

Lemma typed_find i r now t v : typed_run (find_quad_tree_loop i r now t v).
Proof.
  induction i as [|i IH]; cbn [find_quad_tree_loop]; (apply typed_bind; [apply typed_Get_tree|intros [q|]; [apply typed_ret|]]);
    [apply typed_ret|apply IH].
Qed.

Lemma typed_FindQuadTree r now t v : typed_run (FindQuadTree r now t v).
Proof. apply typed_find. Qed.

Lemma kind_not_nil k s : kind k = s -> s <> [] -> k <> [].
Proof. by intros <- Hs ->. Qed.

Lemma typed_keys_loop r now ids v (f : list key -> state S bool) : plain_layer r -> Forall plain_id ids ->
  (forall ks, Forall (fun k => k <> []) ks -> typed_run (f ks)) ->
  typed_run (keys ← partition_keys_loop r now ids v; match keys with [] => mret false | _ => f keys end).
Proof.
  intros Hr Hi Hf s Hs. rstep. eapply (runs_mono _ _ (fun s' ks => holds typed s' /\ Forall (fun k => k <> []) ks)).
  - clear Hf. revert s Hs. induction Hi as [|id ids Hid _ IH]; intros s Hs; cbn [partition_keys_loop]; [rstep; by split; [|apply Forall_nil_2]|].
    unfold CreatePartitionKeys. rstep. rstep. eapply runs_mono; [by apply typed_GetPartitionHandle|].
    intros s1 resp Hs1. rstep. rstep. eapply runs_mono; [by apply IH|]. intros s2 ks [Hs2 Hks]. rstep. split; [done|].
    apply Forall_app. split; [|done]. destruct resp; [|apply Forall_nil_2].
    repeat (apply Forall_cons_2; [eapply kind_not_nil; [by autorewrite with code|done]|]). apply Forall_nil_2.
  - intros s' ks [Hs' Hks]. destruct ks as [|k ks]; [by rstep|by apply Hf].
Qed.

(** A partition that can be put. *)
Definition storable (r : PartitionsCacheRepository) now v e (p : Partition) : Prop :=
  json_ok p /\ can_store now (CreatePartitionKey (catalog_ r) (layer_id_ r) (Partition_partition p) v) (serialize_text p) e.

Lemma typed_put_loop r now ps v e m : Forall (storable r now v e) ps ->
  forall acc s, holds typed s -> runs (put_partitions_loop r now ps v e m acc) s (fun s' res =>
    holds typed s' /\ forall ids, res = inl ids -> ids = acc ++ (if m then Partition_partition <$> ps else [])).
Proof.
  induction 1 as [|p ps [Hp Hc] _ IH]; intros acc s Hs; cbn [put_partitions_loop].
  { rstep. split; [done|]. intros ids [= <-]. by destruct m; rewrite app_nil_r. }
  rstep. eapply runs_mono; [apply typed_Write; [key_of_kind| |exact Hs]; intros w [= <-]; split; [exact Hc|]|].
  { unfold typed_text. autorewrite with code. cbn. exists p. by apply parse_serialize_model. }
  intros s1 [[]|err] Hs1; [|by rstep]. eapply runs_mono; [by apply IH|].
  intros s2 res [Hs2 Hres]. split; [done|]. intros ids E. rewrite (Hres ids E). destruct m; [by rewrite <- app_assoc|done].
Qed.

(** *** Sequences of operations *)


Inductive repository_operation :=
| RPutData (r : DataCacheRepository) (now : Z) (data : option bytes) (layer handle : key)
| RGetData (r : DataCacheRepository) (now : Z) (layer handle : key)
| RIsCached (r : DataCacheRepository) (now : Z) (layer handle : key)
| RClearData (r : DataCacheRepository) (layer handle : key)
| RPromote (r : DataCacheRepository) (layer handle : key)
| RPutApi (hrn : HRN) (now : Z) (service version url : key)
| RGetApi (hrn : HRN) (now : Z) (service version : key)
| RPutCatalog (r : CatalogCacheRepository) (now : Z) (c : Catalog)
| RGetCatalog (r : CatalogCacheRepository) (now : Z)
| RPutVersion (r : CatalogCacheRepository) (now : Z) (v : VersionResponse)
| RGetVersion (r : CatalogCacheRepository) (now : Z)
| RClearCatalog (r : CatalogCacheRepository)
| RPutPartitions (r : PartitionsCacheRepository) (now : Z) (ps : list Partition) (v expiry : option Z) (metadata : bool)
| RGetPartitions (r : PartitionsCacheRepository) (now : Z) (ids : list key) (v : option Z)
| RGetRequest (r : PartitionsCacheRepository) (now : Z) (ids : list key) (v : option Z)
| RPutLayerVersions (r : PartitionsCacheRepository) (now v : Z) (l : LayerVersions)
| RGetLayerVersions (r : PartitionsCacheRepository) (now v : Z)
| RPutTree (r : PartitionsCacheRepository) (now : Z) (t : TileKey) (depth : Z) (q : option QuadTreeIndex) (v : option Z)
| RFindQuadTree (r : PartitionsCacheRepository) (now : Z) (t : TileKey) (v : option Z)
| RContainsTree (r : PartitionsCacheRepository) (now : Z) (t : TileKey) (depth : Z) (v : option Z)
| RClearLayer (r : PartitionsCacheRepository)
| RClearPartitions (r : PartitionsCacheRepository) (now : Z) (ids : list key) (v : option Z)
| RClearQuadTree (r : PartitionsCacheRepository) (t : TileKey) (depth : Z) (v : option Z)
| RClearMetadata (r : PartitionsCacheRepository) (now : Z) (id : key) (v : option Z)
| RGetHandle (r : PartitionsCacheRepository) (now : Z) (id : key) (v : option Z)
| RProtect (r : PartitionsCacheRepository) (now : Z) (ids : list key) (v : option Z)
| RRelease (r : PartitionsCacheRepository) (now : Z) (ids : list key) (v : option Z).

Definition perform_repository (o : repository_operation) : state S unit :=
  match o with
  | RPutData r now data layer handle => _ ← Put_data r now data layer handle; mret tt
  | RGetData r now layer handle => _ ← Get_data r now layer handle; mret tt
  | RIsCached r now layer handle => _ ← IsCached r now layer handle; mret tt
  | RClearData r layer handle => _ ← Clear_data r layer handle; mret tt
  | RPromote r layer handle => PromoteInCache r layer handle
  | RPutApi hrn now service version url => _ ← Put_api hrn now service version url; mret tt
  | RGetApi hrn now service version => _ ← Get_api hrn now service version; mret tt
  | RPutCatalog r now c => _ ← Put_catalog r now c; mret tt
  | RGetCatalog r now => _ ← Get_catalog r now; mret tt
  | RPutVersion r now v => _ ← PutVersion r now v; mret tt
  | RGetVersion r now => _ ← GetVersion r now; mret tt
  | RClearCatalog r => _ ← Clear_catalog r; mret tt
  | RPutPartitions r now ps v e m => _ ← Put_partitions r now ps v e m; mret tt
  | RGetPartitions r now ids v => _ ← Get_partitions r now ids v; mret tt
  | RGetRequest r now ids v => _ ← Get_request r now ids v; mret tt
  | RPutLayerVersions r now v l => _ ← Put_layer_versions r now v l; mret tt
  | RGetLayerVersions r now v => _ ← Get_layer_versions r now v; mret tt
  | RPutTree r now t d q v => _ ← Put_tree r now t d q v; mret tt
  | RFindQuadTree r now t v => _ ← FindQuadTree r now t v; mret tt
  | RContainsTree r now t d v => _ ← ContainsTree r now t d v; mret tt
  | RClearLayer r => _ ← Clear_layer r; mret tt
  | RClearPartitions r now ids v => _ ← ClearPartitions r now ids v; mret tt
  | RClearQuadTree r t d v => _ ← ClearQuadTree r t d v; mret tt
  | RClearMetadata r now id v => _ ← ClearPartitionMetadata r now id v; mret tt
  | RGetHandle r now id v => _ ← GetPartitionHandle r now id v; mret tt
  | RProtect r now ids v => _ ← Protect_partitions r now ids v; mret tt
  | RRelease r now ids v => _ ← Release_partitions r now ids v; mret tt
  end.

Fixpoint perform_repositories (os : list repository_operation) : state S unit :=
  match os with [] => mret tt | o :: os => perform_repository o;; perform_repositories os end.

(** What is asked of them: what they write can be stored, the numbers of the models have
    their width, and the keys of the texts that they parse are no expiry keys. *)
Definition can_perform (o : repository_operation) : Prop :=
  match o with
  | RPutData r now data layer handle =>
      forall b, data = Some b -> can_store now (CreateDataHandleKey (data_hrn_ r) layer handle) b (data_default_expiry_ r)
  | RPutApi hrn now service version url =>
      can_store now (CreateApiKey (ToCatalogHRNString hrn) service version) url kLookupApiExpiryTime
  | RGetApi hrn now service version => ordinary (CreateApiKey (ToCatalogHRNString hrn) service version)
  | RPutCatalog r now c => json_ok c /\
      can_store now (CreateCatalogKey (ToCatalogHRNString (hrn_ r))) (serialize_text c) (catalog_default_expiry_ r)
  | RGetCatalog r now => ordinary (CreateCatalogKey (ToCatalogHRNString (hrn_ r)))
  | RPutVersion r now v => json_ok v /\
      can_store now (CreateLatestVersionKey (ToCatalogHRNString (hrn_ r))) (serialize_text v) (catalog_default_expiry_ r)
  | RGetVersion r now => ordinary (CreateLatestVersionKey (ToCatalogHRNString (hrn_ r)))
  | RPutPartitions r now ps v e m =>
      let e := default (default_expiry_ r) e in
      Forall (storable r now v e) ps /\
      (m = true -> can_store now (CreatePartitionsKey (catalog_ r) (layer_id_ r) v) (serialize_text (Partition_partition <$> ps)) e)
  | RPutLayerVersions r now v l => json_ok l /\
      can_store now (CreateLayerVersionsKey (catalog_ r) v) (serialize_text l) (default_expiry_ r)
  | RGetLayerVersions r now v => ordinary (CreateLayerVersionsKey (catalog_ r) v)
  | RPutTree r now t d q v =>
      forall q', q = Some q' -> can_store now (CreateQuadTreeKey (catalog_ r) (layer_id_ r) t v d) (GetRawData q') (default_expiry_ r)
  | RGetPartitions r now ids v | RGetRequest r now ids v | RClearPartitions r now ids v | RProtect r now ids v | RRelease r now ids v =>
      plain_layer r /\ Forall plain_id ids
  | RClearMetadata r now id v | RGetHandle r now id v => plain_layer r /\ plain_id id
  | _ => True
  end.

Ltac typed_by_kind := unfold typed_value; autorewrite with code; cbn; by eexists.
Ltac text_by_kind := unfold typed_text; autorewrite with code; cbn; first [done|eexists; by apply parse_serialize_model].
(** A [Get] of a model. *)
Ltac typed_model :=
  apply typed_Get; [assumption|intros b; unfold typed_text, typed_value; autorewrite with code; cbn;
    let Hb := fresh in intros Hb; try (destruct Hb as [? ->]; cbn); eexists; (split; [done|by eexists])| |apply typed_ret];
  intros x; unfold typed_value; autorewrite with code; cbn; intros [u ->]; apply typed_ret.

Lemma partition_id_ok (p : Partition) : json_ok p -> json_ok (Partition_partition p).
Proof. intros Hp. hnf in Hp. by destruct_and?. Qed.

Lemma typed_Put_partitions r now ps v e m : can_perform (RPutPartitions r now ps v e m) -> typed_run (Put_partitions r now ps v e m).
Proof.
  intros [Hp Hm] s Hs. unfold Put_partitions. rstep.
  eapply runs_mono; [by apply typed_put_loop|]. intros s1 [ids|err] [Hs1 Hids]; [|by rstep].
  destruct m; [|by rstep]. rewrite (Hids ids eq_refl). rstep.
  eapply runs_mono; [apply typed_Write; [key_of_kind| |exact Hs1]; intros w [= <-]; split; [by apply Hm|]|by intros s2 res Hs2; rstep].
  unfold typed_text. autorewrite with code. cbn [app]. cbn. exists (Partition_partition <$> ps). split.
  - apply (parse_serialize_model (Partition_partition <$> ps)). apply Forall_fmap. eapply Forall_impl; [exact Hp|].
    intros p [Hx _]. by apply partition_id_ok.
  - apply Forall_fmap. eapply Forall_impl; [exact Hp|]. intros p [_ [[Hx _] _]]. by apply partition_plain_id in Hx.
Qed.

Lemma typed_Get_request r now ids v : plain_layer r -> Forall plain_id ids -> typed_run (Get_request r now ids v).
Proof.
  intros Hr Hi. unfold Get_request. destruct ids as [|id ids].
  - apply typed_Read_then; [by apply typed_partitions, plain_partitions|key_of_kind| |intros; apply typed_ret].
    intros b. unfold typed_text. autorewrite with code. cbn. intros (ids & Hp & Hids). apply (typed_lift _ ids); [done|].
    apply typed_bind; [by apply typed_Get_partitions|intros; apply typed_ret].
  - apply typed_bind; [by apply typed_Get_partitions|intros; apply typed_ret].
Qed.

Lemma perform_repository_typed o : can_perform o -> typed_run (perform_repository o).
Proof.
  destruct o; cbn [can_perform perform_repository]; intros Hc; try (apply typed_bind; [|intros ?; apply typed_ret]).
  - unfold Put_data. apply typed_bind; [apply typed_Write; [key_of_kind|]|intros; apply typed_ret].
    intros w E. split; [by apply Hc|any_text].
  - unfold Get_data, kv_Get_bytes. repeat typed_step.
  - unfold IsCached. typed_step.
  - unfold Clear_data. typed_step.
  - unfold PromoteInCache. typed_step.
  - unfold Put_api. apply typed_Put; [typed_by_kind|text_by_kind|done].
  - unfold Get_api. typed_model.
  - unfold Put_catalog. destruct Hc. apply typed_Put; [typed_by_kind|text_by_kind|done].
  - unfold Get_catalog. typed_model.
  - unfold PutVersion. destruct Hc. apply typed_Put; [typed_by_kind|text_by_kind|done].
  - unfold GetVersion. typed_model.
  - unfold Clear_catalog. apply typed_RemoveKeysWithPrefix.
  - by apply typed_Put_partitions.
  - by apply typed_Get_partitions; apply Hc.
  - by apply typed_Get_request; apply Hc.
  - unfold Put_layer_versions. destruct Hc. apply typed_Put; [typed_by_kind|text_by_kind|done].
  - unfold Get_layer_versions. typed_model.
  - unfold Put_tree. destruct q as [q|]; [|apply typed_ret].
    apply typed_bind; [apply typed_Write; [key_of_kind|]|intros; apply typed_ret]. intros w [= <-]. split; [by apply Hc|any_text].
  - apply typed_FindQuadTree.
  - unfold ContainsTree. typed_step.
  - unfold Clear_layer. apply typed_RemoveKeysWithPrefix.
  - unfold ClearPartitions. apply typed_bind; [by apply typed_Get_partitions; apply Hc|]. intros ps. generalize true.
    induction ps as [|p ps IH]; intros b; cbn [clear_partitions_loop]; [apply typed_ret|]. repeat (typed_step || apply IH).
  - unfold ClearQuadTree. typed_step.
  - unfold ClearPartitionMetadata. apply typed_Read_partition; [apply Hc..| |intros []; apply typed_ret].
    intros b p Hp. apply (typed_lift _ p); [done|]. repeat typed_step.
  - by apply typed_GetPartitionHandle; apply Hc.
  - by apply typed_keys_loop; [apply Hc..|]; apply typed_Protect.
  - by apply typed_keys_loop; [apply Hc..|]; intros; apply typed_Release.
Qed.

(** C24: any sequence of operations of any repositories on one cache, for any catalogs
    and layers, meets no [any_cast] of another type and no undefined behaviour, when what they
    write can be stored and their keys are no expiry keys. *)
Theorem repositories_safe s os : holds typed s -> Forall can_perform os ->
  exists s', perform_repositories os s = Some (s', tt) /\ holds typed s'.
Proof.
  intros Hs Hos. cut (runs (perform_repositories os) s (fun s' _ => holds typed s')); [intros (s' & [] & E & Hs'); eauto|].
  revert s Hs. induction Hos as [|o os Ho _ IH]; intros s Hs; cbn [perform_repositories]; [by rstep|].
  rstep. eapply runs_mono; [by apply perform_repository_typed|]. intros s1 [] Hs1. by apply IH.
Qed.
End typed.

(** ** The repositories of one layer

    What a cache may hold of a layer: for every key of it the values that were put under
    that key and not replaced; for the other keys what [l_other] says. *)

Section layer.
Context `{ModelLaws} {S : Type} `{KeyValueCacheLaws S Model}.
Context (h l : key).

Record layer := mkCachedLayer {
  l_partition : key -> option Z -> Partition -> Prop;
  l_data : key -> bytes -> Prop;
  l_tree : TileKey -> option Z -> QuadTreeIndex -> Prop;
  l_ids : option Z -> list key -> Prop;
  l_other : key -> any (A := Model) -> bytes -> Prop }.

(** The keys that are not of the layer; an id with a colon names no partition of it. *)
Record free_key (k : key) : Prop := {
  free_partition : forall id v, no_colon id -> k <> CreatePartitionKey h l id v;
  free_data : forall d, k <> CreateDataHandleKey h l d;
  free_tree : forall t v, valid t -> k <> CreateQuadTreeKey h l t v kMaxQuadTreeIndexDepth;
  free_ids : forall v, k <> CreatePartitionsKey h l v }.

Inductive entry_of (L : layer) : key -> any (A := Model) -> bytes -> Prop :=
| of_partition id v p : no_colon id -> json_ok p -> l_partition L id v p ->
    entry_of L (CreatePartitionKey h l id v) (AnyBytes (serialize_text p)) (serialize_text p)
| of_data d b : l_data L d b -> entry_of L (CreateDataHandleKey h l d) (AnyBytes b) b
| of_tree t v q : valid t -> l_tree L t v q ->
    entry_of L (CreateQuadTreeKey h l t v kMaxQuadTreeIndexDepth) (AnyBytes (GetRawData q)) (GetRawData q)
| of_ids v ids : l_ids L v ids -> entry_of L (CreatePartitionsKey h l v) (AnyBytes (serialize_text ids)) (serialize_text ids)
| of_free k x b : free_key k -> l_other L k x b -> entry_of L k x b.

Definition layer_policy (L : layer) : Policy Model :=
  mkPolicy Model (fun k x => exists b, entry_of L k x b) (fun k b => exists x, entry_of L k x b).

Lemma entry_partition L id v x b : no_colon id -> entry_of L (CreatePartitionKey h l id v) x b ->
  exists p, json_ok p /\ l_partition L id v p /\ x = AnyBytes (serialize_text p) /\ b = serialize_text p.
Proof.
  intros Hid E. remember (CreatePartitionKey h l id v) as k eqn:Ek. destruct E as [id' v' p Hid' Hj Hp|d b Hd|t v' q Ht Hq|v' ids Hi|k x b [Hf _ _ _] _].
  - apply CreatePartitionKey_inj in Ek as [-> ->]; [|done..]. eauto.
  - exfalso. revert Ek. other_kind.
  - exfalso. revert Ek. other_kind.
  - exfalso. revert Ek. other_kind.
  - by apply Hf in Ek.
Qed.

Lemma entry_data L d x b : entry_of L (CreateDataHandleKey h l d) x b -> l_data L d b /\ x = AnyBytes b.
Proof.
  intros E. remember (CreateDataHandleKey h l d) as k eqn:Ek. destruct E as [id' v' p Hid' Hj Hp|d' b Hd|t v' q Ht Hq|v' ids Hi|k x b [_ Hf _ _] _].
  - exfalso. revert Ek. other_kind.
  - by apply CreateDataHandleKey_inj in Ek as ->.
  - exfalso. revert Ek. other_kind.
  - exfalso. revert Ek. other_kind.
  - by apply Hf in Ek.
Qed.

Lemma entry_tree L t v x b : valid t -> entry_of L (CreateQuadTreeKey h l t v kMaxQuadTreeIndexDepth) x b ->
  exists q, l_tree L t v q /\ x = AnyBytes (GetRawData q) /\ b = GetRawData q.
Proof.
  intros Ht E. remember (CreateQuadTreeKey h l t v _) as k eqn:Ek. destruct E as [id' v' p Hid' Hj Hp|d' b Hd|t' v' q Ht' Hq|v' ids Hi|k x b [_ _ Hf _] _].
  - exfalso. revert Ek. other_kind.
  - exfalso. revert Ek. other_kind.
  - apply CreateQuadTreeKey_inj in Ek as [-> ->]; [|done..]. eauto.
  - exfalso. revert Ek. other_kind.
  - by apply Hf in Ek.
Qed.

Lemma entry_ids L v x b : entry_of L (CreatePartitionsKey h l v) x b ->
  exists ids, l_ids L v ids /\ x = AnyBytes (serialize_text ids) /\ b = serialize_text ids.
Proof.
  intros E. remember (CreatePartitionsKey h l v) as k eqn:Ek. destruct E as [id' v' p Hid' Hj Hp|d' b Hd|t' v' q Ht' Hq|v' ids Hi|k x b [_ _ _ Hf] _].
  - exfalso. revert Ek. other_kind.
  - exfalso. revert Ek. other_kind.
  - exfalso. revert Ek. other_kind.
  - apply CreatePartitionsKey_inj in Ek as ->. eauto.
  - by apply Hf in Ek.
Qed.

(** The values in memory are those on disk. *)
Lemma layer_bytes_key L k (Q : bytes -> Prop) : ordinary k ->
  (forall x b, entry_of L k x b -> x = AnyBytes b) -> bytes_key (P := layer_policy L) k.
Proof.
  intros Hk Hx. split; cbn [in_memory on_disk layer_policy].
  - apply Hk.
  - intros x [b E]. exists b. by apply (Hx x).
  - intros v Hv. destruct (Hv Hk) as [x E]. exists v. by rewrite <- (Hx x v E).
Qed.

(** Reading a key of the layer. *)
Lemma layer_Read L (Q : bytes -> Prop) now k s : holds (layer_policy L) s -> ordinary k ->
  (forall x b, entry_of L k x b -> x = AnyBytes b /\ Q b) ->
  runs (kv_Read now k) s (fun s' r => (holds (layer_policy L) s' /\ protection s' = protection s) /\ forall b, r = inl b -> Q b).
Proof.
  intros Hs Hk Hx. eapply runs_mono.
  - apply (law_Read (layer_policy L)); [done|]. apply (layer_bytes_key L k Q); [done|]. intros x b E. by apply (Hx x).
  - intros s' r [Hs' Hr]. split; [done|]. intros b Eb. destruct (Hr b Eb) as [b' E]. cbn in E.
    destruct (Hx _ _ E) as [[= ->] HQ]. done.
Qed.

(** *** More and fewer values *)

Record layer_le (L L' : layer) : Prop := {
  le_partition : forall id v p, l_partition L id v p -> l_partition L' id v p;
  le_data : forall d b, l_data L d b -> l_data L' d b;
  le_tree : forall t v q, l_tree L t v q -> l_tree L' t v q;
  le_ids : forall v ids, l_ids L v ids -> l_ids L' v ids;
  le_other : forall k x b, l_other L k x b -> l_other L' k x b }.

#[export] Instance layer_le_preorder : PreOrder layer_le.
Proof. split; [by split|]. intros L1 L2 L3 [] []. split; auto. Qed.

Lemma entry_of_mono L L' k x b : layer_le L L' -> entry_of L k x b -> entry_of L' k x b.
Proof. intros [] []; [apply of_partition|apply of_data|apply of_tree|apply of_ids|apply of_free]; auto. Qed.

Lemma holds_mono L L' s : layer_le L L' -> holds (layer_policy L) s -> holds (layer_policy L') s.
Proof.
  intros Hle Hs. eapply (law_mono (layer_policy L)); [done| |].
  - intros k x [b E]. exists b. by apply (entry_of_mono L).
  - intros k b [x E]. exists x. by apply (entry_of_mono L).
Qed.

(** Writing a key: while it may fail the cache holds what [Lp] says, and when it
    succeeds the other values of the key are gone. *)
Lemma layer_Write L Lp L1 now k b e s : holds (layer_policy L) s -> layer_le L Lp -> entry_of Lp k (AnyBytes b) b ->
  can_store now k b e -> 0 < e -> entry_of L1 k (AnyBytes b) b ->
  (forall k' x b', k' <> k -> entry_of Lp k' x b' -> entry_of L1 k' x b') ->
  runs (kv_Write now k (Some b) e) s (fun s' r => (holds (layer_policy Lp) s' /\ protection s' = protection s) /\
    (r = inl tt -> holds (layer_policy L1) s')).
Proof.
  intros Hs Hle Hk Hc He Ha1 Hother. eapply runs_mono.
  - apply (law_Write (layer_policy Lp)); [by apply (holds_mono L)|by exists b|by exists (AnyBytes b)|exact Hc].
  - intros s' r [Hs' Hr]. split; [done|]. intros ->. eapply law_mono; [by apply Hr| |]; cbn [in_memory on_disk only_value layer_policy].
    + intros k' x. destruct (decide (k' = k)) as [->|Hne]; [intros ->; by exists b|]. intros [b' E]. exists b'. by apply Hother.
    + intros k' b'. destruct (decide (k' = k)) as [->|Hne]; [intros ->; by exists (AnyBytes b)|]. intros [x E]. exists x. by apply Hother.
Qed.

(** *** Partitions *)

(** One value for a partition, and one more value. *)
Definition with_partition (L : layer) id v p : layer :=
  mkCachedLayer (fun id' v' p' => if decide (id' = id /\ v' = v) then p' = p else l_partition L id' v' p') (l_data L) (l_tree L) (l_ids L) (l_other L).

Definition plus_partitions (L : layer) v (ps : list Partition) : layer :=
  mkCachedLayer (fun id' v' p' => l_partition L id' v' p' \/ v' = v /\ p' ∈ ps /\ id' = Partition_partition p') (l_data L) (l_tree L) (l_ids L) (l_other L).

Definition put_partitions (L : layer) v (ps : list Partition) : layer := foldl (fun L p => with_partition L (Partition_partition p) v p) L ps.

Definition with_ids (L : layer) v ids : layer :=
  mkCachedLayer (l_partition L) (l_data L) (l_tree L) (fun v' ids' => if decide (v' = v) then ids' = ids else l_ids L v' ids') (l_other L).

Definition plus_ids (L : layer) v ids : layer :=
  mkCachedLayer (l_partition L) (l_data L) (l_tree L) (fun v' ids' => l_ids L v' ids' \/ v' = v /\ ids' = ids) (l_other L).

Lemma put_partitions_le L L' v ps : layer_le L L' -> Forall (fun p => l_partition L' (Partition_partition p) v p) ps ->
  layer_le (put_partitions L v ps) L'.
Proof.
  intros Hle Hps. revert L Hle. unfold put_partitions. induction Hps as [|p ps Hp _ IH]; intros L Hle; [done|]. apply IH.
  destruct Hle. split; cbn; auto. intros id v' p'. case_decide as Hd; [destruct Hd as [-> ->]; by intros ->|auto].
Qed.

Definition partition_key id v : key := CreatePartitionKey h l id v.

(** Partitions that can be put. *)
Definition can_put now v e (p : Partition) : Prop :=
  no_colon (Partition_partition p) /\ json_ok p /\ can_store now (partition_key (Partition_partition p) v) (serialize_text p) e.

Lemma Write_partition L now v e p s : holds (layer_policy L) s -> can_put now v e p -> 0 < e ->
  runs (kv_Write now (partition_key (Partition_partition p) v) (Some (serialize_text p)) e) s (fun s' r =>
    (holds (layer_policy (plus_partitions L v [p])) s' /\ protection s' = protection s) /\
    (r = inl tt -> holds (layer_policy (with_partition L (Partition_partition p) v p)) s')).
Proof.
  intros Hs (Hn & Hj & Hc) He. apply (layer_Write L); try done.
  - split; cbn; auto.
  - apply of_partition; [done..|]. right. split; [done|]. split; [left|done].
  - apply of_partition; [done..|]. cbn. by rewrite decide_True.
  - intros k' x b' Hne E. revert Hne. destruct E as [id' v' p' Hid' Hj' Hp|d b Hd|t v' q Ht Hq|v' ids Hi|k x b Hf]; intros Hne;
      [apply of_partition; [done..|]|by apply of_data|by apply of_tree|by apply of_ids|by apply of_free].
    cbn [l_partition with_partition plus_partitions] in Hp |- *. case_decide as Hd; [destruct Hd as [-> ->]; by destruct Hne|].
    destruct Hp as [Hp|(-> & ->%list_elem_of_singleton & ->)]; [done|]. by destruct Hd.
Qed.

Lemma put_loop_spec r now v e m ps : catalog_ r = h -> layer_id_ r = l -> 0 < e -> Forall (can_put now v e) ps ->
  forall L acc s, holds (layer_policy L) s ->
  runs (put_partitions_loop r now ps v e m acc) s (fun s' res => protection s' = protection s /\
    match res with
    | inl ids => ids = acc ++ (if m then Partition_partition <$> ps else []) /\ holds (layer_policy (put_partitions L v ps)) s'
    | inr _ => holds (layer_policy (plus_partitions L v ps)) s'
    end).
Proof.
  intros Eh El He Hps. induction Hps as [|p ps Hp Hps IH]; intros L acc s Hs; cbn [put_partitions_loop].
  { rstep. split; [done|]. split; [|done]. by destruct m; rewrite app_nil_r. }
  rewrite Eh, El. rstep. eapply runs_mono; [by apply (Write_partition L now v e p)|]. intros s1 res [[Hs1 Hp1] Hres].
  destruct res as [[]|err].
  - eapply runs_mono; [apply (IH (with_partition L (Partition_partition p) v p)); by apply Hres|]. intros s2 [ids|err] [E2 Ha2].
    + split; [congruence|]. destruct Ha2 as [-> Ha2]. split; [|exact Ha2]. destruct m; [by rewrite <- app_assoc|done].
    + split; [congruence|]. eapply holds_mono; [|exact Ha2]. split; cbn; try done. intros id' v' p'. rewrite elem_of_cons.
      case_decide as Hd; [destruct Hd as [-> ->]|tauto]. intros [->|(_ & ? & E)]; right; auto.
  - rstep. split; [done|]. eapply holds_mono; [|exact Hs1]. split; cbn; try done. intros id' v' p'.
    rewrite list_elem_of_singleton, elem_of_cons. tauto.
Qed.

(** What [Put] leaves when it succeeds, with and without the list of ids. *)
Definition put_all (L : layer) v (ps : list Partition) (metadata : bool) : layer :=
  let L := put_partitions L v ps in if metadata then with_ids L v (Partition_partition <$> ps) else L.

Lemma Put_partitions_spec r now v e m ps L s : catalog_ r = h -> layer_id_ r = l ->
  let e' := default (default_expiry_ r) e in
  0 < e' -> Forall (can_put now v e') ps ->
  (m = true -> can_store now (CreatePartitionsKey h l v) (serialize_text (Partition_partition <$> ps)) e') ->
  holds (layer_policy L) s ->
  runs (Put_partitions r now ps v e m) s (fun s' res => protection s' = protection s /\
    (res = inl tt -> holds (layer_policy (put_all L v ps m)) s')).
Proof.
  intros Eh El e' He Hps Hm Hs. unfold Put_partitions. rstep. eapply runs_mono; [by apply (put_loop_spec r now v e' m ps)|].
  intros s1 [ids|err] [E1 Ha1]; [|rstep; by split]. destruct Ha1 as [-> Ha1]. destruct m; [|by rstep].
  rewrite Eh, El. rstep. cbn [app]. set (L1 := put_partitions L v ps) in *. set (ids := Partition_partition <$> ps) in *.
  eapply runs_mono; [apply (layer_Write L1 (plus_ids L1 v ids) (with_ids L1 v ids)); [done| | |by apply Hm|done| |]|].
  - split; cbn; auto.
  - apply of_ids. cbn. auto.
  - apply of_ids. cbn. by rewrite decide_True.
  - intros k' x b' Hne E. revert Hne. destruct E as [id' v' p' Hid' Hj' Hp|d b Hd|t v' q Ht Hq|v' ids' Hi|k x b Hf]; intros Hne;
      [by apply of_partition|by apply of_data|by apply of_tree|apply of_ids|by apply of_free].
    cbn [l_ids with_ids plus_ids] in Hi |- *. case_decide as Hd; [subst; done|]. destruct Hi as [|[? _]]; done.
  - intros s2 res [[_ E2] Hr]. rstep. split; [congruence|]. unfold put_all. destruct res as [[]|]; [|done]. by auto.
Qed.

(** Reading partitions: those of a sublist of the ids, each with a value that the
    layer has for it. *)
Definition read_of (L : layer) v (ids : list key) (ps : list Partition) : Prop :=
  exists found, found `sublist_of` ids /\ Forall2 (fun id p => l_partition L id v p) found ps.

Definition readable_id v id : Prop := no_colon id /\ ordinary (partition_key id v).

Lemma Read_partition L now v id s : readable_id v id -> holds (layer_policy L) s ->
  runs (kv_Read now (CreatePartitionKey h l id v)) s (fun s' resp => (holds (layer_policy L) s' /\ protection s' = protection s) /\
    forall b, resp = inl b -> exists p, l_partition L id v p /\ parse_model b = Some p).
Proof.
  intros [Hn Ho] Hs. eapply runs_mono.
  - apply (layer_Read L (fun b => exists p, json_ok p /\ l_partition L id v p /\ b = serialize_text p)); [done|exact Ho|].
    intros x b (p & Hj & Hp & -> & ->)%entry_partition; [|done]. eauto.
  - intros s' resp [Hs' Hr]. split; [done|]. intros b Eb. destruct (Hr b Eb) as (p & Hj & Hp & ->). exists p.
    split; [done|by apply parse_serialize_model].
Qed.

Lemma Get_partitions_spec r now v ids L s : catalog_ r = h -> layer_id_ r = l -> Forall (readable_id v) ids -> holds (layer_policy L) s ->
  runs (Get_partitions r now ids v) s (fun s' ps => (holds (layer_policy L) s' /\ protection s' = protection s) /\ read_of L v ids ps).
Proof.
  intros Eh El Hids. revert s. induction Hids as [|id ids [Hn Ho] Hids IH]; intros s Hs; cbn [Get_partitions].
  { rstep. split; [done|]. exists []. by split. }
  rewrite Eh, El. rstep. eapply runs_mono.
  { by apply (Read_partition L). }
  intros s1 [b|err] [[Hs1 E1] Hresp].
  - destruct (Hresp b eq_refl) as (p & Hp & Eb). rstep. eapply runs_lift; [exact Eb|]. rstep.
    eapply runs_mono; [by apply IH|]. intros s2 ps [[Hs2 E2] (found & Hsub & Hf)]. rstep.
    split; [split; [done|congruence]|]. exists (id :: found). split; [by apply sublist_skip|by apply Forall2_cons].
  - eapply runs_mono; [by apply IH|]. intros s2 ps [[Hs2 E2] (found & Hsub & Hf)].
    split; [split; [done|congruence]|]. exists found. split; [by apply sublist_cons|done].
Qed.

(** Several calls of [Put], the first that fails ends them. *)
Fixpoint put_sequence (r : PartitionsCacheRepository) (now : Z) (puts : list (option Z * list Partition)) (expiry : option Z) : state S (Outcome unit) :=
  match puts with
  | [] => mret (inl tt)
  | (v, ps) :: puts =>
      result ← Put_partitions r now ps v expiry false;
      match result with inl _ => put_sequence r now puts expiry | inr e => mret (inr e) end
  end.

Definition put_sequence_spec (L : layer) (puts : list (option Z * list Partition)) : layer :=
  foldl (fun L '(v, ps) => put_partitions L v ps) L puts.

Lemma put_sequence_ok r now e puts : catalog_ r = h -> layer_id_ r = l ->
  let e' := default (default_expiry_ r) e in
  0 < e' -> Forall (fun '(v, ps) => Forall (can_put now v e') ps) puts -> forall L s, holds (layer_policy L) s ->
  runs (put_sequence r now puts e) s (fun s' res => res = inl tt -> holds (layer_policy (put_sequence_spec L puts)) s').
Proof.
  intros Eh El e' He Hputs. induction Hputs as [|[v ps] puts Hps _ IH]; intros L s Hs; cbn [put_sequence]; [by rstep|].
  rstep. eapply runs_mono; [by apply (Put_partitions_spec r now v e false ps L)|]. intros s1 [[]|err] [_ Hr]; [|by rstep].
  apply (IH (put_partitions L v ps)). by apply Hr.
Qed.

(** C23: the cached partitions of a layer are a map that may forget: after any successful
    calls of [Put], for whatever versions, [Get] gives for some of the ids, in their
    order, the partition that was put last under the id and the version; it never takes
    the entry of another id, version, quad tree or data handle for it.  This is for ids
    without colons, on both sides: with colons, two pairs of a version and an id can share
    a key (partition_key_collision).  What is put has the sizes and times that the cache
    can store, and the keys are none of the cache's own. *)
Theorem partitions_last_put r now now' e puts L s s1 ids v :
  catalog_ r = h -> layer_id_ r = l ->
  let e' := default (default_expiry_ r) e in
  0 < e' -> Forall (fun '(v, ps) => Forall (can_put now v e') ps) puts ->
  holds (layer_policy L) s -> put_sequence r now puts e s = Some (s1, inl tt) -> Forall (readable_id v) ids ->
  exists s2 out, Get_partitions r now' ids v s1 = Some (s2, out) /\ read_of (put_sequence_spec L puts) v ids out.
Proof.
  intros Eh El e' He Hputs Hs E Hids. destruct (put_sequence_ok r now e puts Eh El He Hputs L s Hs) as (s1' & res & E' & Hs1).
  rewrite E in E'. injection E' as <- <-.
  destruct (Get_partitions_spec r now' v ids (put_sequence_spec L puts) s1 Eh El Hids (Hs1 eq_refl)) as (s2 & out & E2 & _ & Hout).
  eauto.
Qed.

(** [Get] of a request for ids gives a partition for every one of them or nothing. *)
Lemma Get_request_complete r now v id ids L s : catalog_ r = h -> layer_id_ r = l -> Forall (readable_id v) (id :: ids) -> holds (layer_policy L) s ->
  runs (Get_request r now (id :: ids) v) s (fun s' res => holds (layer_policy L) s' /\
    forall ps, res = Some ps -> Forall2 (fun id p => l_partition L id v p) (id :: ids) ps).
Proof.
  intros Eh El Hids Hs. unfold Get_request. rstep. eapply runs_mono; [by apply (Get_partitions_spec r now v (id :: ids) L)|].
  intros s' ps [[Hs' _] (found & Hsub & Hf)]. rstep. split; [done|]. intros ps'. destruct (negb _) eqn:E; [done|].
  intros [= <-]. apply negb_false_iff, Nat.eqb_eq in E. pose proof (Forall2_length _ _ _ Hf) as El'.
  assert (found = id :: ids) as <-; [|done]. apply (sublist_full _ _ Hsub). lia.
Qed.

(** *** Quad trees *)

Hypothesis layer_plain : IsExpiryKey (h ++ kColons ++ l) = false.

Lemma Get_tree_spec r now t v L s : catalog_ r = h -> layer_id_ r = l -> valid t -> holds (layer_policy L) s ->
  runs (Get_tree r now t kMaxQuadTreeIndexDepth v) s (fun s' res => (holds (layer_policy L) s' /\ protection s' = protection s) /\
    forall q, res = Some q -> l_tree L t v q).
Proof.
  intros Eh El Ht Hs. unfold Get_tree. rewrite Eh, El. rstep. eapply runs_mono.
  - apply (layer_Read L (fun b => exists q, l_tree L t v q /\ b = GetRawData q)); [done|split; [by apply plain_quadtree|not_own]|].
    intros x b (q & Hq & -> & ->)%entry_tree; [|done]. eauto.
  - intros s' resp [Hs' Hresp]. rstep. split; [done|]. intros q. destruct resp as [b|]; [|done].
    destruct (Hresp b eq_refl) as (q' & Hq & ->). rewrite QuadTreeIndex_of_raw. by intros [= <-].
Qed.

Definition root_of (k root : TileKey) : Prop :=
  exists i, 0 <= i <= Z.min (level_ k) kMaxQuadTreeIndexDepth /\ root = ChangedLevelBy k (- i).

Lemma root_valid k root : valid k -> root_of k root -> valid root.
Proof. intros Hk (i & Hi & ->). pose proof Hk as (Hl & _). unfold LevelCount, kMaxQuadTreeIndexDepth in *.
  apply ChangedLevelBy_valid; [done|lia..]. Qed.

Lemma find_loop_spec r now k v L i : catalog_ r = h -> layer_id_ r = l -> valid k -> (Z.of_nat i <= Z.min (level_ k) kMaxQuadTreeIndexDepth) ->
  forall s, holds (layer_policy L) s ->
  runs (find_quad_tree_loop i r now k v) s (fun s' res => (holds (layer_policy L) s' /\ protection s' = protection s) /\
    forall q, res = Some q -> exists root, root_of k root /\ l_tree L root v q).
Proof.
  intros Eh El Hk. induction i as [|i IH]; intros Hi s Hs; cbn [find_quad_tree_loop]; set (root := ChangedLevelBy k _);
    (assert (Ha : root_of k root) by (eexists; split; [|done]; lia));
    pose proof (root_valid k root Hk Ha) as Hroot; rstep;
    (eapply runs_mono; [by apply (Get_tree_spec r now root v L)|]); intros s1 [q|] [[Hs1 E1] Hq].
  - rstep. split; [done|]. intros q' [= <-]. eauto.
  - by rstep.
  - rstep. split; [done|]. intros q' [= <-]. eauto.
  - eapply runs_mono; [apply IH; [lia|done]|]. intros s2 res [[Hs2 E2] Hres]. split; [split; [done|congruence]|done].
Qed.

Lemma FindQuadTree_spec r now k v L s : catalog_ r = h -> layer_id_ r = l -> valid k -> holds (layer_policy L) s ->
  runs (FindQuadTree r now k v) s (fun s' res => (holds (layer_policy L) s' /\ protection s' = protection s) /\
    forall q, res = Some q -> exists root, root_of k root /\ l_tree L root v q).
Proof.
  intros Eh El Hk Hs. apply find_loop_spec; try done. pose proof Hk as (Hl & _). unfold LevelCount, kMaxQuadTreeIndexDepth in *. lia.
Qed.
End layer.

Lemma root_of_below t root : valid t -> root_of t root -> below root 7 t.
Proof.
  intros Ht (i & Hi & ->). unfold kMaxQuadTreeIndexDepth in Hi. pose proof Ht as (Hl & _). unfold LevelCount in Hl. unfold below.
  split; [by apply ChangedLevelBy_valid; [|lia..]|]. split; [done|]. rewrite ChangedLevelBy_up by (done || lia).
  cbn [level_ row_ column_]. replace (level_ t - (level_ t - i)) with i by lia. split; [lia|done].
Qed.

(** ** Concrete inputs

    The texts of Json.v, with an encoding of quad trees as bytes, and a cache on an empty
    database. *)

Module layer_sample.
#[export] Instance SubEntry_eq_dec : EqDecision SubEntry.
Proof. solve_decision. Defined.
#[export] Instance SubEntry_countable : Countable SubEntry.
Proof.
  apply (inj_countable' (fun e => (sub_quadkey e, sub_tag_offset e)) (fun '(a, b) => mkSubEntry a b)). by intros [].
Defined.
#[export] Instance ParentEntry_eq_dec : EqDecision ParentEntry.
Proof. solve_decision. Defined.
#[export] Instance ParentEntry_countable : Countable ParentEntry.
Proof.
  apply (inj_countable' (fun e => (QuadTreeIndex.key e, tag_offset e)) (fun '(a, b) => mkParentEntry a b)). by intros [].
Defined.
#[export] Instance QuadTreeIndex_eq_dec : EqDecision QuadTreeIndex.
Proof. solve_decision. Defined.
#[export] Instance QuadTreeIndex_countable : Countable QuadTreeIndex.
Proof.
  apply (inj_countable'
    (fun q => (root_tilekey q, blob_version q, depth q, parent_count q, subkey_count q, sub_entries q, parent_entries q, raw_data q))
    (fun '(a, b, c, d, e, f, g, h) => mkQuadTreeIndex a b c d e f g h)). by intros [].
Defined.

#[export] Instance models : Models := {|
  models_text := json_sample.text;
  GetRawData := json_sample.to_bytes; QuadTreeIndex_of := json_sample.of_bytes (mkQuadTreeIndex 0 0 0 0 0 [] [] []) |}.

#[export] Instance model_laws : ModelLaws.
Proof. split; [exact json_sample.text_laws|]. intros. apply json_sample.of_to_bytes. Qed.

Abbreviation Cache := (DefaultCache (DB := MemoryDB) (A := Model)).

Definition hrn : HRN := FromString (chars "hrn:here:data::olp-here:c").
Definition repository : PartitionsCacheRepository := PartitionsCacheRepository_new hrn (chars "layer") kChronoSecondsMax.
Definition partition (id handle : string) : Partition := mkPartition None None (chars handle) None None (chars id) (Some 1).
Definition catalog : Catalog := initial.

(** What the samples write can be stored. *)
Ltac sample_store :=
  split; [split; [by vm_compute|by vm_compute]|]; split; [by vm_compute|]; split; [by vm_compute|by vm_compute].

(** Ids of a plain layer. *)
Ltac sample_ids := split; [by vm_compute|]; repeat first [apply Forall_cons_2|apply Forall_nil_2]; by vm_compute.

Definition operations : list repository_operation :=
  [RPutApi hrn 100 (chars "query") (chars "v1") (chars "http://query"); RGetApi hrn 100 (chars "query") (chars "v1");
   RPutCatalog (CatalogCacheRepository_new hrn 3600) 100 catalog; RGetCatalog (CatalogCacheRepository_new hrn 3600) 100;
   RPutPartitions repository 100 [partition "a" "ha"; partition "b" "hb"] (Some 1) None true;
   RGetRequest repository 100 [] (Some 1); RProtect repository 100 [chars "a"] (Some 1);
   RClearPartitions repository 100 [chars "a"; chars "b"] (Some 1); RGetPartitions repository 100 [chars "a"; chars "b"] (Some 1)].

Lemma operations_ok : Forall can_perform operations.
Proof.
  unfold operations. repeat apply Forall_cons_2; try apply Forall_nil_2; try exact I.
  - sample_store.
  - split; by vm_compute.
  - split; [sample_json|sample_store].
  - split; by vm_compute.
  - split; [|intros _; sample_store].
    repeat first [apply Forall_cons_2|apply Forall_nil_2]; (split; [sample_json|sample_store]).
  - split; [by vm_compute|apply Forall_nil_2].
  - sample_ids.
  - sample_ids.
  - sample_ids.
Qed.

Definition puts : list (option Z * list (Partition)) :=
  [(Some 1, [partition "a" "ha"; partition "b" "hb"]); (Some 2, [partition "a" "other"]); (Some 1, [partition "a" "new"])].

Definition written : Cache := after_fresh fresh (put_sequence repository 100 puts None).

Lemma written_puts : put_sequence repository 100 puts None (fresh : Cache) = Some (written, inl tt).
Proof.
  assert (E : snd <$> put_sequence repository 100 puts None (fresh : Cache) = Some (inl tt)) by (vm_compute; reflexivity).
  unfold written, after_fresh. revert E. generalize (put_sequence repository 100 puts None (fresh : Cache)).
  intros [[s r]|]; [|done]. cbn. by intros [= ->].
Qed.

Lemma puts_ok : Forall (fun '(v, ps) => Forall (can_put (catalog_ repository) (layer_id_ repository) 100 v kTimetMax) ps) puts.
Proof.
  unfold puts. repeat first [apply Forall_cons_2|apply Forall_nil_2]; cbv beta iota;
    (split; [by apply (bool_decide_unpack _)|sample_store]).
Qed.

(** A layer of which nothing is cached. *)
Definition no_layer : layer := mkCachedLayer (fun _ _ _ => False) (fun _ _ => False) (fun _ _ _ => False) (fun _ _ => False) (fun _ _ _ => True).
End layer_sample.

Import layer_sample.

Lemma repositories_safe_witness : exists s',
  perform_repositories layer_sample.operations (fresh : layer_sample.Cache) = Some (s', tt) /\ holds typed s'.
Proof. apply repositories_safe; [apply fresh_holds|apply layer_sample.operations_ok]. Defined.

Lemma partitions_last_put_witness : exists s2 out,
  Get_partitions layer_sample.repository 200 [chars "a"; chars "b"] (Some 1) layer_sample.written = Some (s2, out) /\
  read_of (put_sequence_spec layer_sample.no_layer layer_sample.puts) (Some 1) [chars "a"; chars "b"] out.
Proof.
  apply (partitions_last_put (catalog_ layer_sample.repository) (layer_id_ layer_sample.repository) layer_sample.repository
    100 200 None layer_sample.puts layer_sample.no_layer fresh).
  - reflexivity.
  - reflexivity.
  - by vm_compute.
  - exact layer_sample.puts_ok.
  - apply fresh_holds.
  - exact written_puts.
  - repeat first [apply Forall_cons_2|apply Forall_nil_2]; (split; [by apply (bool_decide_unpack _)|split; by vm_compute]).
Defined.

(** ** Keys that extend each other

    The keys are built from names with separators, and the repositories clear by prefix. *)

(** [ClearPartitions], which the repository calls when the service answers that a
    partition is forbidden, also removes the cached partitions whose id has the id of a
    cleared partition as a prefix. *)
Example ClearPartitions_removes_others :
  let put := Put_partitions layer_sample.repository 100 [layer_sample.partition "a" "ha"; layer_sample.partition "ab" "hb"] (Some 1) None false in
  let get := Get_partitions layer_sample.repository 100 [chars "ab"] (Some 1) in
  let clear := ClearPartitions layer_sample.repository 100 [chars "a"] (Some 1) in
  snd <$> (put ;; get) (fresh : layer_sample.Cache) = Some [layer_sample.partition "ab" "hb"] /\
  snd <$> (put ;; clear ;; get) (fresh : layer_sample.Cache) = Some [].
Proof. split; vm_compute; reflexivity. Qed.

(** [Clear] of a catalog removes what is cached of the catalogs whose name extends its name. *)
Example Clear_catalog_removes_others :
  let longer := CatalogCacheRepository_new (FromString (chars "hrn:here:data::olp-here:cat")) 3600 in
  let put := Put_catalog longer 100 layer_sample.catalog in
  let clear := Clear_catalog (CatalogCacheRepository_new layer_sample.hrn 3600) in
  snd <$> (put ;; Get_catalog longer 100) (fresh : layer_sample.Cache) = Some (Some layer_sample.catalog) /\
  snd <$> (put ;; clear ;; Get_catalog longer 100) (fresh : layer_sample.Cache) = Some None.
Proof. split; vm_compute; reflexivity. Qed.

(** A request without ids is answered with the partitions that are left of the list. *)
Example Get_request_partial :
  let put := Put_partitions layer_sample.repository 100 [layer_sample.partition "a" "ha"; layer_sample.partition "b" "hb"] (Some 1) None true in
  let remove := kv_Delete (CreatePartitionKey (catalog_ layer_sample.repository) (chars "layer") (chars "a") (Some 1)) in
  snd <$> (put ;; remove ;; Get_request layer_sample.repository 100 [] (Some 1)) (fresh : layer_sample.Cache) =
    Some (Some [layer_sample.partition "b" "hb"]).
Proof. vm_compute. reflexivity. Qed.

(** An id with a separator in a layer without versions is an id with a version. *)
Example partition_key_collision h l : CreatePartitionKey h l (chars "a::1") None = CreatePartitionKey h l (chars "a") (Some 1).
Proof. reflexivity. Qed.

(** A cache with the entries of a layer whose name begins with the word of the expiry
    keys cannot be opened with an eviction: the number of the expiry throws. *)
Example expiry_layer_throws :
  let k := CreatePartitionKey (catalog_ layer_sample.repository) (chars "expiry") (chars "a") (Some 1) in
  IsExpiryKey k = true /\
  snd <$> Write 100 k (Some (chars "value")) kDefaultExpiry (fresh : layer_sample.Cache) = Some (inl tt) /\
  Open (sample_environment (mkMemoryDB false {[k := chars "value"]})) (DefaultCache_new sample_settings : layer_sample.Cache) = None.
Proof. split_and!; vm_compute; reflexivity. Qed.
