(* ===== verification/LayerClient.v ===== *)
(** * The cache of a versioned layer

    Model of what [olp::dataservice::read::VersionedLayerClientImpl] does with the cache
    (olp-cpp-sdk-dataservice-read, src/VersionedLayerClientImpl.cpp): looking up, deleting,
    protecting and releasing partitions and tiles, with the two resolvers that find the
    keys of tiles (src/ProtectDependencyResolver.cpp, src/ReleaseDependencyResolver.cpp),
    over the repositories of CacheRepositories.v.

    The state is the cache; the members of a resolver are a record that is passed on.  The
    client's requests to the network are not part of the model. *)

From stdpp Require Import sorting.
From S2P Require Import Prelude TileKey QuadTreeIndex Hrn LruCache InMemoryCache ProtectedKeyList DiskCache DefaultCache.
From S2P Require Import DefaultCacheInvariant DefaultCacheOperations KeyValueCache KeyGenerator Json ReadModels CacheRepositories.

#[export] Instance TileKey_countable : Countable TileKey.
Proof.
  apply (inj_countable' (fun t => (row_ t, column_ t, level_ t)) (fun '(r, c, l) => mkTileKey r c l)). by intros [].
Defined.

Definition kQuadTreeDepth : Z := 4.

(** ** The keys of tiles to protect *)

Record ProtectDependencyResolver := mkProtectResolver {
  protect_catalog_ : key;
  protect_layer_id_ : key;
  protect_version_ : Z;
  protect_repository_ : PartitionsCacheRepository;
  quad_trees_ : gmap TileKey QuadTreeIndex;
  keys_to_protect_ : list key }.

Definition ProtectDependencyResolver_new (catalog : HRN) (layer_id : key) (version : Z) : ProtectDependencyResolver :=
  mkProtectResolver (ToCatalogHRNString catalog) layer_id version
    (PartitionsCacheRepository_new catalog layer_id kChronoSecondsMax) ∅ [].

Definition protect_key (k : key) (r : ProtectDependencyResolver) : ProtectDependencyResolver :=
  mkProtectResolver (protect_catalog_ r) (protect_layer_id_ r) (protect_version_ r) (protect_repository_ r) (quad_trees_ r)
    (keys_to_protect_ r ++ [k]).

Definition save_tree (root : TileKey) (q : QuadTreeIndex) (r : ProtectDependencyResolver) : ProtectDependencyResolver :=
  mkProtectResolver (protect_catalog_ r) (protect_layer_id_ r) (protect_version_ r) (protect_repository_ r) (<[root := q]> (quad_trees_ r))
    (keys_to_protect_ r).

(** The roots that the loops over [i] look at, the tile first. *)
Definition quad_roots (tile_key : TileKey) : list TileKey :=
  (fun i => ChangedLevelBy tile_key (- Z.of_nat i)) <$> seq 0 (S (Z.to_nat (Z.min (level_ tile_key) kQuadTreeDepth))).

Fixpoint first_tree (trees : gmap TileKey QuadTreeIndex) (roots : list TileKey) : option QuadTreeIndex :=
  match roots with
  | [] => None
  | root :: roots => match trees !! root with Some q => Some q | None => first_tree trees roots end
  end.

Definition FindQuad (r : ProtectDependencyResolver) (tile_key : TileKey) : option QuadTreeIndex :=
  first_tree (quad_trees_ r) (quad_roots tile_key).

(** [AddDataHandle]; [None] when the search of the index does not end. *)
Definition AddDataHandle (r : ProtectDependencyResolver) (tile : TileKey) (quad_tree : QuadTreeIndex) : option (ProtectDependencyResolver * bool) :=
  data ← QuadTreeIndex.Find quad_tree tile false;
  Some (match data with
        | Some data => (protect_key (CreateDataHandleKey (protect_catalog_ r) (protect_layer_id_ r) (data_handle data)) r, true)
        | None => (r, false)
        end).

Abbreviation TilesDataKeys := (gmap TileKey key).

Section resolvers.
Context `{Models} {Cache : Type} `{KeyValueCache Cache Model}.

Definition ProcessTileKeyInCache (r : ProtectDependencyResolver) (now : Z) (tile : TileKey) : state Cache (ProtectDependencyResolver * bool) :=
  cached_tree ← FindQuadTree (protect_repository_ r) now tile (Some (protect_version_ r));
  match cached_tree with
  | None => mret (r, false)
  | Some cached_tree =>
      '(r, added) ← lift (AddDataHandle r tile cached_tree);
      if negb added then mret (r, false)
      else
        let root_tile := GetRootTile cached_tree in
        let r := protect_key (CreateQuadTreeKey (protect_catalog_ r) (protect_layer_id_ r) root_tile (Some (protect_version_ r)) kQuadTreeDepth) r in
        mret (save_tree root_tile cached_tree r, true)
  end.

Fixpoint protect_loop (r : ProtectDependencyResolver) (now : Z) (tiles : list TileKey) : state Cache ProtectDependencyResolver :=
  match tiles with
  | [] => mret r
  | tile :: tiles =>
      match FindQuad r tile with
      | Some quad_tree => '(r, _) ← lift (AddDataHandle r tile quad_tree); protect_loop r now tiles
      | None => '(r, _) ← ProcessTileKeyInCache r now tile; protect_loop r now tiles
      end
  end.

(** The resolver afterwards; the keys are its [keys_to_protect_]. *)
Definition GetKeysToProtect (r : ProtectDependencyResolver) (now : Z) (tiles : list TileKey) : state Cache ProtectDependencyResolver :=
  let r := mkProtectResolver (protect_catalog_ r) (protect_layer_id_ r) (protect_version_ r) (protect_repository_ r) (quad_trees_ r) [] in
  protect_loop r now tiles.

(** ** The keys of tiles to release *)

Record ReleaseDependencyResolver := mkReleaseResolver {
  release_catalog_ : key;
  release_layer_id_ : key;
  release_version_ : Z;
  release_repository_ : PartitionsCacheRepository;
  quad_trees_with_protected_tiles_ : gmap TileKey TilesDataKeys;
  keys_to_release_ : list key;
  requested_tiles_ : list TileKey }.

Definition ReleaseDependencyResolver_new (catalog : HRN) (layer_id : key) (version : Z) : ReleaseDependencyResolver :=
  mkReleaseResolver (ToCatalogHRNString catalog) layer_id version
    (PartitionsCacheRepository_new catalog layer_id kChronoSecondsMax) ∅ [] [].

Definition release_key_ (k : key) (r : ReleaseDependencyResolver) : ReleaseDependencyResolver :=
  mkReleaseResolver (release_catalog_ r) (release_layer_id_ r) (release_version_ r) (release_repository_ r)
    (quad_trees_with_protected_tiles_ r) (keys_to_release_ r ++ [k]) (requested_tiles_ r).

Definition set_protected_tiles (root : TileKey) (m : TilesDataKeys) (r : ReleaseDependencyResolver) : ReleaseDependencyResolver :=
  mkReleaseResolver (release_catalog_ r) (release_layer_id_ r) (release_version_ r) (release_repository_ r)
    (<[root := m]> (quad_trees_with_protected_tiles_ r)) (keys_to_release_ r) (requested_tiles_ r).

Definition tree_key (r : ReleaseDependencyResolver) (root : TileKey) : key :=
  CreateQuadTreeKey (release_catalog_ r) (release_layer_id_ r) root (Some (release_version_ r)) kQuadTreeDepth.

(** [std::sort] and [std::unique]; [std::binary_search] in the result is membership. *)
Definition tile_le (a b : TileKey) : Prop := TileKey_ltb b a = false.

#[export] Instance tile_le_dec : RelDecision tile_le.
Proof. intros a b. apply bool_eq_dec. Defined.

Fixpoint unique (tiles : list TileKey) : list TileKey :=
  match tiles with
  | [] => []
  | t :: tiles => match tiles with
                  | t' :: _ => if decide (t = t') then unique tiles else t :: unique tiles
                  | [] => [t]
                  end
  end.

Definition sort_tiles (tiles : list TileKey) : list TileKey := unique (merge_sort tile_le tiles).

(** [process_tile] of [ProcessTileKey]: whether the root is known, and [add_key]. *)
Definition process_tile (r : ReleaseDependencyResolver) (quad_root tile : TileKey) (add_key : bool) : ReleaseDependencyResolver * bool * bool :=
  match quad_trees_with_protected_tiles_ r !! quad_root with
  | None => (r, add_key, false)
  | Some tiles =>
      match tiles !! tile with
      | None => (r, add_key, true)
      | Some data_key =>
          let r := if add_key then release_key_ data_key r else r in
          let tiles := delete tile tiles in
          let r := set_protected_tiles quad_root tiles r in
          let r := if decide (tiles = ∅) then release_key_ (tree_key r quad_root) r else r in
          (r, false, true)
      end
  end.

(** The loop of [CheckProtectedTilesInQuad] over the data of the index. *)
Fixpoint check_loop (index_data : list IndexData) (r : ReleaseDependencyResolver) (tile : TileKey) (add_data_handle_key : bool)
  (protected_keys : TilesDataKeys) : state Cache (ReleaseDependencyResolver * bool * TilesDataKeys) :=
  match index_data with
  | [] => mret (r, add_data_handle_key, protected_keys)
  | ind :: index_data =>
      let tile_data_key := CreateDataHandleKey (release_catalog_ r) (release_layer_id_ r) (data_handle ind) in
      is_protected ← kv_IsProtected tile_data_key;
      if (is_protected : bool) then
        if decide (tile_key ind = tile) then
          if add_data_handle_key then check_loop index_data (release_key_ tile_data_key r) tile false protected_keys
          else check_loop index_data r tile add_data_handle_key protected_keys
        else check_loop index_data r tile add_data_handle_key (<[tile_key ind := tile_data_key]> protected_keys)
      else check_loop index_data r tile add_data_handle_key protected_keys
  end.

Definition CheckProtectedTilesInQuad (r : ReleaseDependencyResolver) (cached_tree : QuadTreeIndex) (tile : TileKey) (add_data_handle_key : bool)
  : state Cache (ReleaseDependencyResolver * bool * TilesDataKeys) :=
  index_data ← lift (QuadTreeIndex.GetIndexData cached_tree DataHandle);
  check_loop index_data r tile add_data_handle_key ∅.

Definition ProcessQuadTreeCache (r : ReleaseDependencyResolver) (now : Z) (root_quad_key tile : TileKey) (add_data_handle_key : bool)
  : state Cache (ReleaseDependencyResolver * bool) :=
  cached_tree ← Get_tree (release_repository_ r) now root_quad_key kQuadTreeDepth (Some (release_version_ r));
  match cached_tree with
  | Some cached_tree =>
      '(r, add_data_handle_key, protected_keys) ← CheckProtectedTilesInQuad r cached_tree tile add_data_handle_key;
      let all_keys_requested := forallb (fun t => bool_decide (t ∈ requested_tiles_ r)) (map_to_list protected_keys).*1 in
      let r := if bool_decide (protected_keys = ∅) || all_keys_requested then release_key_ (tree_key r root_quad_key) r else r in
      mret (set_protected_tiles root_quad_key protected_keys r, add_data_handle_key)
  | None => mret (set_protected_tiles root_quad_key ∅ r, add_data_handle_key)
  end.

Fixpoint process_roots (r : ReleaseDependencyResolver) (now : Z) (tile_key : TileKey) (roots : list TileKey) (add_key : bool)
  : state Cache ReleaseDependencyResolver :=
  match roots with
  | [] => mret r
  | quad_root :: roots =>
      let '(r, add_key, known) := process_tile r quad_root tile_key add_key in
      if (known : bool) then process_roots r now tile_key roots add_key
      else
        '(r, add_key) ← ProcessQuadTreeCache r now quad_root tile_key add_key;
        process_roots r now tile_key roots add_key
  end.

Definition ProcessTileKey (r : ReleaseDependencyResolver) (now : Z) (tile_key : TileKey) : state Cache ReleaseDependencyResolver :=
  process_roots r now tile_key (quad_roots tile_key) true.

Fixpoint release_loop_ (r : ReleaseDependencyResolver) (now : Z) (tiles : list TileKey) : state Cache ReleaseDependencyResolver :=
  match tiles with
  | [] => mret r
  | tile :: tiles => r ← ProcessTileKey r now tile; release_loop_ r now tiles
  end.

(** The resolver afterwards; the keys are its [keys_to_release_]. *)
Definition GetKeysToRelease (r : ReleaseDependencyResolver) (now : Z) (tiles : list TileKey) : state Cache ReleaseDependencyResolver :=
  let r := mkReleaseResolver (release_catalog_ r) (release_layer_id_ r) (release_version_ r) (release_repository_ r)
             (quad_trees_with_protected_tiles_ r) [] (sort_tiles tiles) in
  release_loop_ r now (requested_tiles_ r).

(** ** The client *)

Definition kInvalidVersion : Z := -1.

Record VersionedLayerClientImpl := mkClient {
  client_catalog_ : HRN;
  client_layer_id_ : key;
  catalog_version_ : Z }.

Definition VersionedLayerClientImpl_new (catalog : HRN) (layer_id : key) (catalog_version : option Z) : VersionedLayerClientImpl :=
  mkClient catalog layer_id (default kInvalidVersion catalog_version).

Section client.
Context (c : VersionedLayerClientImpl) (now : Z).
Let partitions_repo : PartitionsCacheRepository := PartitionsCacheRepository_new (client_catalog_ c) (client_layer_id_ c) kChronoSecondsMax.
Let data_repo : DataCacheRepository := DataCacheRepository_new (client_catalog_ c) kChronoSecondsMax.

Definition DeleteFromCache_partition (partition_id : key) : state Cache (Outcome unit) :=
  let version := catalog_version_ c in
  if version =? kInvalidVersion then mret (inr PreconditionFailed)
  else
    '(clear_response, partition) ← ClearPartitionMetadata partitions_repo now partition_id (Some version);
    match clear_response with
    | inr e => mret (inr e)
    | inl _ =>
        match partition with
        | None => mret (inl tt)
        | Some partition => Clear_data data_repo (client_layer_id_ c) (Partition_data_handle partition)
        end
    end.

(** The loop that looks for another tile of the index in the cache. *)
Fixpoint other_cached (index_data : list IndexData) (tile : TileKey) : state Cache bool :=
  match index_data with
  | [] => mret false
  | ind :: index_data =>
      cached ← (if decide (tile_key ind <> tile) then IsCached data_repo now (client_layer_id_ c) (data_handle ind) else mret false);
      if (cached : bool) then mret true else other_cached index_data tile
  end.

Definition DeleteFromCache_tile (tile : TileKey) : state Cache (Outcome unit) :=
  let version := catalog_version_ c in
  if version =? kInvalidVersion then mret (inr PreconditionFailed)
  else
    cached_tree ← FindQuadTree partitions_repo now tile (Some version);
    match cached_tree with
    | None => mret (inl tt)
    | Some cached_tree =>
        data ← lift (QuadTreeIndex.Find cached_tree tile false);
        match data with
        | None => mret (inl tt)
        | Some data =>
            result ← Clear_data data_repo (client_layer_id_ c) (data_handle data);
            match result with
            | inr e => mret (inr e)
            | inl _ =>
                index_data ← lift (QuadTreeIndex.GetIndexData cached_tree DataHandle);
                other ← other_cached index_data tile;
                if (other : bool) then mret (inl tt)
                else ClearQuadTree partitions_repo (GetRootTile cached_tree) kQuadTreeDepth (Some version)
            end
        end
    end.

Definition RemoveFromCache_partition (partition_id : key) : state Cache bool :=
  r ← DeleteFromCache_partition partition_id; mret (IsSuccessful r).
Definition RemoveFromCache_tile (tile : TileKey) : state Cache bool :=
  r ← DeleteFromCache_tile tile; mret (IsSuccessful r).

Definition IsCached_partition (partition_id : key) : state Cache bool :=
  let version := catalog_version_ c in
  if version =? kInvalidVersion then mret false
  else
    handle ← GetPartitionHandle partitions_repo now partition_id (Some version);
    match handle with
    | None => mret false
    | Some handle => IsCached data_repo now (client_layer_id_ c) handle
    end.

Definition IsCached_tile (tile : TileKey) (aggregated : bool) : state Cache bool :=
  let version := catalog_version_ c in
  if version =? kInvalidVersion then mret false
  else
    cached_tree ← FindQuadTree partitions_repo now tile (Some version);
    match cached_tree with
    | None => mret false
    | Some cached_tree =>
        data ← lift (QuadTreeIndex.Find cached_tree tile aggregated);
        match data with
        | None => mret false
        | Some data => IsCached data_repo now (client_layer_id_ c) (data_handle data)
        end
    end.

Definition Protect_tiles (tiles : list TileKey) : state Cache bool :=
  let version := catalog_version_ c in
  if version =? kInvalidVersion then mret false
  else
    resolver ← GetKeysToProtect (ProtectDependencyResolver_new (client_catalog_ c) (client_layer_id_ c) version) now tiles;
    match keys_to_protect_ resolver with [] => mret false | keys => kv_Protect keys end.

Definition Release_tiles (tiles : list TileKey) : state Cache bool :=
  let version := catalog_version_ c in
  if version =? kInvalidVersion then mret false
  else
    resolver ← GetKeysToRelease (ReleaseDependencyResolver_new (client_catalog_ c) (client_layer_id_ c) version) now tiles;
    match keys_to_release_ resolver with [] => mret false | keys => kv_Release keys end.

Definition Protect_ids (partition_ids : list key) : state Cache bool :=
  let version := catalog_version_ c in
  if version =? kInvalidVersion then mret false else Protect_partitions partitions_repo now partition_ids (Some version).

Definition Release_ids (partition_ids : list key) : state Cache bool :=
  let version := catalog_version_ c in
  if version =? kInvalidVersion then mret false else Release_partitions partitions_repo now partition_ids (Some version).
End client.
End resolvers.

(** ** What is protected and released

    The layer has at most one tree under a root at a version, with the tiles of
    [contents]: each with the handle of its data. *)

Lemma elem_of_quad_roots t root : valid t -> root ∈ quad_roots t <-> root_of t root.
Proof.
  intros (Hl & _). unfold LevelCount, quad_roots, root_of, kQuadTreeDepth, kMaxQuadTreeIndexDepth in *. rewrite list_elem_of_fmap. split.
  - intros (i & -> & Hi%elem_of_seq). exists (Z.of_nat i). split; [lia|done].
  - intros (i & Hi & ->). exists (Z.to_nat i). split; [by rewrite Z2Nat.id by lia|]. apply elem_of_seq. lia.
Qed.

Lemma first_tree_elem trees roots q : first_tree trees roots = Some q -> exists root, root ∈ roots /\ trees !! root = Some q.
Proof.
  induction roots as [|root roots IH]; cbn [first_tree]; [done|]. destruct (trees !! root) as [q'|] eqn:E.
  - intros [= ->]. exists root. split; [left|done].
  - intros (root' & Hr & E')%IH. exists root'. split; [by right|done].
Qed.

Lemma elem_of_unique t tiles : t ∈ unique tiles <-> t ∈ tiles.
Proof.
  induction tiles as [|t1 tiles IH]; [done|]. destruct tiles as [|t2 tiles]; [done|].
  change (unique (t1 :: t2 :: tiles)) with (if decide (t1 = t2) then unique (t2 :: tiles) else t1 :: unique (t2 :: tiles)).
  rewrite (elem_of_cons (t2 :: tiles)), <- IH. case_decide as Hd; [subst t2|by rewrite elem_of_cons].
  rewrite IH, elem_of_cons. tauto.
Qed.

Lemma elem_of_sort_tiles t tiles : t ∈ sort_tiles tiles <-> t ∈ tiles.
Proof. unfold sort_tiles. by rewrite elem_of_unique, merge_sort_Permutation. Qed.

Section protection.
Context `{ModelLaws} {Cache : Type} `{KeyValueCacheLaws Cache Model}.
Context (catalog : HRN) (l : key) (version : Z) (L : layer) (contents : TileKey -> list (TileKey * key)).
Let h : key := ToCatalogHRNString catalog.
Hypothesis layer_plain : IsExpiryKey (h ++ kColons ++ l) = false.
Hypothesis one_tree : forall root q, l_tree L root (Some version) q ->
  exists data, index_of q root data /\ contents root = (fun d => (tile_key d, data_handle d)) <$> data.
Abbreviation P := (layer_policy h l L).

Definition root_key (root : TileKey) : key := CreateQuadTreeKey h l root (Some version) kQuadTreeDepth.
Definition handle_key (handle : key) : key := CreateDataHandleKey h l handle.

Lemma keys_not_empty root handle : root_key root <> [] /\ handle_key handle <> [].
Proof. split; (eapply kind_not_nil; [unfold root_key, handle_key; by autorewrite with code|done]). Qed.

(** The data of a tile in the tree of a root. *)
Lemma tree_Find root q t : l_tree L root (Some version) q -> valid t -> root_of t root ->
  exists r, QuadTreeIndex.Find q t false = Some r /\ GetRootTile q = root /\
    forall d, r = Some d -> (t, data_handle d) ∈ contents root.
Proof.
  intros Hq Ht Hr. destruct (one_tree root q Hq) as (data & Hi & ->).
  destruct (index_Find q root data t false Hi Ht) as (r & E & Ha); [intros _; by apply root_of_below|].
  exists r. split; [done|]. split; [by eapply index_root|]. intros d ->. cbn [answers] in Ha.
  destruct Ha as (Hd & [<-|[? _]]); [|done]. apply list_elem_of_fmap. eauto.
Qed.

(** *** Protecting *)

(** The keys are those of data of requested tiles and of the trees in which these
    tiles were found; the tree of every protected tile is protected. *)
Definition to_protect (tiles : list TileKey) (keys : list key) : Prop :=
  forall k, k ∈ keys -> exists t root handle, t ∈ tiles /\ root_of t root /\ (t, handle) ∈ contents root /\
    root_key root ∈ keys /\ (k = root_key root \/ k = handle_key handle).

Record protecting (tiles : list TileKey) (r : ProtectDependencyResolver) : Prop := {
  pr_catalog : protect_catalog_ r = h;
  pr_layer : protect_layer_id_ r = l;
  pr_version : protect_version_ r = version;
  pr_repository : protect_repository_ r = PartitionsCacheRepository_new catalog l kChronoSecondsMax;
  pr_trees : forall root q, quad_trees_ r !! root = Some q -> l_tree L root (Some version) q /\ root_key root ∈ keys_to_protect_ r;
  pr_keys : to_protect tiles (keys_to_protect_ r) }.

Lemma to_protect_app tiles keys keys' : to_protect tiles keys ->
  (forall k, k ∈ keys' -> exists t root handle, t ∈ tiles /\ root_of t root /\ (t, handle) ∈ contents root /\
    root_key root ∈ keys ++ keys' /\ (k = root_key root \/ k = handle_key handle)) -> to_protect tiles (keys ++ keys').
Proof.
  intros Hk Hk' k [Hin|Hin]%elem_of_app; [|by apply Hk'].
  destruct (Hk k Hin) as (t & root & handle & Ht & Hr & Hh & Hroot & Ek). exists t, root, handle. split_and!; try done.
  apply elem_of_app. by left.
Qed.

Lemma protect_known tiles r t q : protecting tiles r -> valid t -> t ∈ tiles -> FindQuad r t = Some q ->
  exists r' b, AddDataHandle r t q = Some (r', b) /\ protecting tiles r'.
Proof.
  intros [Ec El Ev Er Htrees Hkeys] Hv Ht (root & Hroot & Hq)%first_tree_elem. apply (elem_of_quad_roots t root Hv) in Hroot.
  destruct (Htrees root q Hq) as [Hl Hin]. destruct (tree_Find root q t Hl Hv Hroot) as ([d|] & E & _ & Hd);
    unfold AddDataHandle; rewrite E; cbn [mbind option_bind]; eexists _, _; (split; [done|]); [|by split].
  split; cbn [protect_key protect_catalog_ protect_layer_id_ protect_version_ protect_repository_ quad_trees_ keys_to_protect_]; try done.
  - intros root' q' Hq'. destruct (Htrees root' q' Hq'). split; [done|]. apply elem_of_app. by left.
  - rewrite Ec, El. apply to_protect_app; [done|]. intros k ->%list_elem_of_singleton.
    exists t, root, (data_handle d). split_and!; try done; [by apply Hd|apply elem_of_app; by left|by right].
Qed.

Lemma protect_new tiles r now t s : protecting tiles r -> valid t -> t ∈ tiles -> holds P s ->
  runs (ProcessTileKeyInCache r now t) s (fun s' res => (holds P s' /\ protection s' = protection s) /\ protecting tiles (fst res)).
Proof.
  intros Hr Hv Ht Hs. pose proof Hr as [Ec El Ev Er Htrees Hkeys]. unfold ProcessTileKeyInCache. rewrite Er, Ev. rstep.
  eapply runs_mono; [by apply (FindQuadTree_spec h l layer_plain _ now t (Some version) L)|].
  intros s1 [q|] [Hs1 Hq]; [|by rstep]. destruct (Hq q eq_refl) as (root & Hroot & Hl).
  destruct (tree_Find root q t Hl Hv Hroot) as (d & E & Eroot & Hd). rstep.
  eapply runs_lift; [unfold AddDataHandle; rewrite E; reflexivity|]. cbv beta iota.
  destruct d as [d|]; cbn [negb]; [|by rstep]. rstep. split; [done|]. cbn [fst]. rewrite Eroot.
  split; cbn [save_tree protect_key protect_catalog_ protect_layer_id_ protect_version_ protect_repository_ quad_trees_ keys_to_protect_]; try done.
  all: rewrite Ec, El, Ev; fold (root_key root); fold (handle_key (data_handle d)); rewrite <- app_assoc; cbn [app].
  - intros root' q'. rewrite lookup_insert. destruct (decide (root = root')) as [->|Hne].
    + intros [= <-]. split; [done|]. apply elem_of_app. right. right. left.
    + intros Hq'. destruct (Htrees root' q' Hq'). split; [done|]. apply elem_of_app. by left.
  - apply to_protect_app; [done|]. intros k Hk. exists t, root, (data_handle d). split_and!; try done; [by apply Hd| |].
    + apply elem_of_app. right. right. left.
    + rewrite !elem_of_cons in Hk. destruct Hk as [->|[->|[]%not_elem_of_nil]]; auto.
Qed.

Lemma protect_loop_spec tiles now ts : Forall valid ts -> (forall t, t ∈ ts -> t ∈ tiles) ->
  forall r s, protecting tiles r -> holds P s ->
  runs (protect_loop r now ts) s (fun s' r' => (holds P s' /\ protection s' = protection s) /\ protecting tiles r').
Proof.
  induction 1 as [|t ts Hv _ IH]; intros Hin r s Hr Hs; cbn [protect_loop]; [by rstep|].
  assert (Ht : t ∈ tiles) by (apply Hin; left). assert (Hts : forall t, t ∈ ts -> t ∈ tiles) by (intros; apply Hin; by right).
  destruct (FindQuad r t) as [q|] eqn:E.
  - destruct (protect_known tiles r t q Hr Hv Ht E) as (r' & b & E' & Hr'). rstep.
    eapply runs_lift; [exact E'|]. cbv beta iota. by apply IH.
  - rstep. eapply runs_mono; [by apply (protect_new tiles)|]. intros s1 [r' b] [[Hs1 E1] Hr']. cbv beta iota.
    eapply runs_mono; [by apply IH|]. intros s2 r2 [[Hs2 E2] Hr2]. split; [split; [done|congruence]|done].
Qed.

Lemma Protect_tiles_spec c now tiles s :
  client_catalog_ c = catalog -> client_layer_id_ c = l -> catalog_version_ c = version -> Forall valid tiles -> holds P s ->
  runs (Protect_tiles c now tiles) s (fun s' b => holds P s' /\ (b = true ->
    exists keys, keys <> [] /\ to_protect tiles keys /\
      forall k, protection s' k = true <-> protection s k = true \/ exists p, p ∈ keys /\ p `prefix_of` k)).
Proof.
  intros Ec El Ev Hv Hs. unfold Protect_tiles. rewrite Ec, El, Ev. destruct (_ =? _); [by rstep|]. rstep.
  eapply runs_mono; [apply (protect_loop_spec tiles now tiles Hv); [done|by split; [..|intros k []%not_elem_of_nil]|exact Hs]|].
  intros s1 r [[Hs1 E1] Hr]. rewrite <- E1. pose proof (pr_keys _ _ Hr) as Hk. destruct (keys_to_protect_ r) as [|k keys]; [by rstep|].
  eapply runs_mono; [apply (law_Protect P); [done|]|].
  - apply Forall_forall. intros k' Hk'. destruct (Hk k' Hk') as (t & root & handle & _ & _ & _ & _ & Ek).
    destruct (keys_not_empty root handle). by destruct Ek as [-> | ->].
  - intros s2 b (Hs2 & Hback & Hp). split; [done|]. intros ->. exists (k :: keys). split; [done|]. split; [done|]. intros k'. split; [apply Hback|by apply Hp].
Qed.

(** C27: when [Protect] of tiles succeeds, what is protected afterwards is what was
    protected before and what the keys that it protected stand for, themselves and the
    keys that they are a prefix of; nothing else.  Each of these keys is the one of data of
    a requested tile, or of the index of a tree in which a requested tile with data was
    found; and the index of that tree is always one of them, so that data is never
    protected without its index. *)
Theorem Protect_tiles_with_index c now tiles s s' :
  client_catalog_ c = catalog -> client_layer_id_ c = l -> catalog_version_ c = version ->
  Forall valid tiles -> holds P s -> Protect_tiles c now tiles s = Some (s', true) ->
  exists keys, keys <> [] /\ to_protect tiles keys /\
    forall k, protection s' k = true <-> protection s k = true \/ exists p, p ∈ keys /\ p `prefix_of` k.
Proof.
  intros Ec El Ev Hv Hs E. destruct (Protect_tiles_spec c now tiles s Ec El Ev Hv Hs) as (s1 & b & E1 & _ & HQ).
  rewrite E in E1. injection E1 as <- <-. by apply HQ.
Qed.

(** *** Releasing *)

Section releasing.
Context (prot : key -> bool) (tiles : list TileKey).

(** A key that is released: that of a tree without other protected tiles than the
    requested ones, or that of protected data of a requested tile. *)
Definition releasable (k : key) : Prop := exists t root, t ∈ tiles /\ root_of t root /\
  ((k = root_key root /\ forall t' handle, (t', handle) ∈ contents root -> prot (handle_key handle) = true -> t' ∈ tiles) \/
   exists handle, (t, handle) ∈ contents root /\ k = handle_key handle /\ prot k = true).

(** What is known of the tree of a root: the protected tiles that were not yet released. *)
Definition is_left (root : TileKey) (m : TilesDataKeys) : Prop :=
  (m = ∅ \/ forall t handle, (t, handle) ∈ contents root -> prot (handle_key handle) = true -> t ∈ tiles \/ is_Some (m !! t)) /\
  forall t k, m !! t = Some k -> exists handle, (t, handle) ∈ contents root /\ k = handle_key handle /\ prot k = true.

Record releasing (r : ReleaseDependencyResolver) : Prop := {
  rl_catalog : release_catalog_ r = h;
  rl_layer : release_layer_id_ r = l;
  rl_version : release_version_ r = version;
  rl_repository : release_repository_ r = PartitionsCacheRepository_new catalog l kChronoSecondsMax;
  rl_requested : forall t, t ∈ requested_tiles_ r <-> t ∈ tiles;
  rl_trees : forall root m, quad_trees_with_protected_tiles_ r !! root = Some m -> is_left root m;
  rl_keys : Forall releasable (keys_to_release_ r) }.

Lemma releasing_key r k : releasing r -> releasable k -> releasing (release_key_ k r).
Proof.
  intros [] Hk. split; try done. cbn [release_key_ keys_to_release_]. apply Forall_app. split; [done|by apply Forall_singleton].
Qed.

Lemma releasing_tiles r root m : releasing r -> is_left root m -> releasing (set_protected_tiles root m r).
Proof.
  intros [] Hm. split; try done. intros root' m'. cbn [set_protected_tiles quad_trees_with_protected_tiles_]. rewrite lookup_insert.
  destruct (decide (root = root')) as [->|Hne]; [by intros [= <-]|auto].
Qed.

Lemma tree_key_root r root : releasing r -> tree_key r root = root_key root.
Proof. intros []. unfold tree_key, root_key. congruence. Qed.

Lemma is_left_empty root : is_left root ∅.
Proof. split; [by left|]. intros t k. by rewrite lookup_empty. Qed.

Lemma process_tile_spec r root t add : releasing r -> t ∈ tiles -> root_of t root ->
  releasing (fst (fst (process_tile r root t add))).
Proof.
  intros Hr Ht Hroot. unfold process_tile. destruct (quad_trees_with_protected_tiles_ r !! root) as [m|] eqn:Em; [|done].
  destruct (m !! t) as [k|] eqn:Ek; [|done]. cbn [fst].
  destruct (rl_trees _ Hr root m Em) as [Hall Hkeys]. destruct (Hkeys t k Ek) as (handle & Hin & -> & Hp).
  assert (Hr1 : releasing (if add then release_key_ (handle_key handle) r else r)).
  { destruct add; [|done]. apply releasing_key; [done|]. exists t, root. split_and!; [done..|]. right. eauto. }
  set (r1 := if add then _ else r) in *.
  assert (Hm : m = ∅ -> False) by (intros ->; by rewrite lookup_empty in Ek).
  assert (Hall' : forall t' handle', (t', handle') ∈ contents root -> prot (handle_key handle') = true -> t' ∈ tiles \/ is_Some (delete t m !! t')).
  { destruct Hall as [?|Hall]; [done|]. intros t' handle' Hin' Hp'. destruct (Hall t' handle' Hin' Hp') as [?|[x Hx]]; [by left|].
    destruct (decide (t' = t)) as [->|Hne]; [by left|]. right. rewrite lookup_delete_ne by done. eauto. }
  assert (Hr2 : releasing (set_protected_tiles root (delete t m) r1)).
  { apply releasing_tiles; [done|]. split; [by right|]. intros t' k'. rewrite lookup_delete. case_decide; [done|apply Hkeys]. }
  destruct (decide (delete t m = ∅)) as [E|_]; [|done]. apply releasing_key; [done|]. rewrite tree_key_root by done.
  exists t, root. split_and!; [done..|]. left. split; [done|]. intros t' handle' Hin' Hp'.
  destruct (Hall' t' handle' Hin' Hp') as [?|[x Hx]]; [done|]. by rewrite E, lookup_empty in Hx.
Qed.

Lemma check_loop_spec s root t : holds P s -> protection s = prot -> t ∈ tiles -> root_of t root ->
  forall data r add m, releasing r -> (forall d, d ∈ data -> (tile_key d, data_handle d) ∈ contents root) ->
  (forall t k, m !! t = Some k -> exists handle, (t, handle) ∈ contents root /\ k = handle_key handle /\ prot k = true) ->
  runs (check_loop data r t add m) s (fun s' res => s' = s /\ releasing (fst (fst res)) /\
    (forall t k, snd res !! t = Some k -> exists handle, (t, handle) ∈ contents root /\ k = handle_key handle /\ prot k = true) /\
    (forall t', is_Some (m !! t') -> is_Some (snd res !! t')) /\
    forall d, d ∈ data -> prot (handle_key (data_handle d)) = true -> tile_key d = t \/ is_Some (snd res !! tile_key d)).
Proof.
  intros Hs Eprot Ht Hroot. induction data as [|d data IH]; intros r add m Hr Hdata Hm; cbn [check_loop].
  { rstep. split_and!; try done. intros d Hd. by apply not_elem_of_nil in Hd. }
  rewrite (rl_catalog _ Hr), (rl_layer _ Hr). fold h (handle_key (data_handle d)). rstep.
  eapply runs_mono; [by apply (law_IsProtected P)|]. intros s' b [-> ->]. rewrite Eprot.
  assert (Hd : (tile_key d, data_handle d) ∈ contents root) by (apply Hdata; left).
  assert (Htail : forall d, d ∈ data -> (tile_key d, data_handle d) ∈ contents root) by (intros; apply Hdata; by right).
  destruct (prot (handle_key (data_handle d))) eqn:Ep.
  - destruct (decide (tile_key d = t)) as [Ek|Hne].
    + assert (Hnext : forall r' add', releasing r' -> runs (check_loop data r' t add' m) s (fun s' res => s' = s /\ releasing (fst (fst res)) /\
        (forall t k, snd res !! t = Some k -> exists handle, (t, handle) ∈ contents root /\ k = handle_key handle /\ prot k = true) /\
        (forall t', is_Some (m !! t') -> is_Some (snd res !! t')) /\
        forall d', d' ∈ d :: data -> prot (handle_key (data_handle d')) = true -> tile_key d' = t \/ is_Some (snd res !! tile_key d'))).
      { intros r' add' Hr'. eapply runs_mono; [by apply IH|]. intros s' res (-> & G1 & G2 & G3 & G4). split_and!; try done.
        intros d' [->|Hd']%elem_of_cons Hp'; [by left|by apply G4]. }
      destruct add; [|by apply Hnext]. apply Hnext, releasing_key; [done|]. exists t, root. split_and!; [done..|]. right.
      exists (data_handle d). rewrite <- Ek. done.
    + eapply runs_mono; [apply (IH r add (<[tile_key d := handle_key (data_handle d)]> m) Hr Htail)|].
      * intros t' k'. rewrite lookup_insert. case_decide as Hk; [|apply Hm]. subst t'. intros [= <-]. eauto.
      * intros s' res (-> & G1 & G2 & G3 & G4). split_and!; try done.
        -- intros t' Ht'. apply G3. rewrite lookup_insert. case_decide; [by eexists|done].
        -- intros d' [->|Hd']%elem_of_cons Hp'; [right|by apply G4]. apply G3. rewrite lookup_insert_eq. by eexists.
  - eapply runs_mono; [by apply IH|]. intros s' res (-> & G1 & G2 & G3 & G4). split_and!; try done.
    intros d' [->|Hd']%elem_of_cons Hp'; [congruence|by apply G4].
Qed.

Lemma process_cache_spec r now s root t add : releasing r -> holds P s -> protection s = prot -> valid t -> t ∈ tiles -> root_of t root ->
  runs (ProcessQuadTreeCache r now root t add) s (fun s' res => (holds P s' /\ protection s' = prot) /\ releasing (fst res)).
Proof.
  intros Hr Hs Eprot Hv Ht Hroot. unfold ProcessQuadTreeCache. rewrite (rl_repository _ Hr), (rl_version _ Hr). rstep.
  eapply runs_mono; [apply (Get_tree_spec h l layer_plain _ now root (Some version) L); [done|done|by apply (root_valid t)|done]|].
  intros s1 [q|] [[Hs1 E1] Hq]; [|rstep; split; [by rewrite E1|by apply releasing_tiles, is_left_empty]].
  destruct (one_tree root q (Hq q eq_refl)) as (data & Hi & Ec). destruct (index_handles q root data Hi) as (li & Eli & Pli).
  rstep. unfold CheckProtectedTilesInQuad. rstep. eapply runs_lift; [exact Eli|]. cbv beta.
  assert (Hin : forall d, d ∈ li -> (tile_key d, data_handle d) ∈ contents root).
  { intros d Hd. rewrite Ec, <- Pli. apply list_elem_of_fmap. eauto. }
  assert (Hli : forall t' handle, (t', handle) ∈ contents root -> exists d, d ∈ li /\ tile_key d = t' /\ data_handle d = handle).
  { intros t' handle Hc. rewrite Ec, <- Pli in Hc. apply list_elem_of_fmap in Hc as (d & [= -> ->] & Hd). eauto. }
  eapply runs_mono; [apply (check_loop_spec s1 root t Hs1 ltac:(congruence) Ht Hroot li r add ∅ Hr Hin); intros t' k'; by rewrite lookup_empty|].
  intros s2 [[r1 add1] m] (-> & Hr1 & Hm & _ & Hleft). cbn [fst snd] in *. rstep. split; [split; [done|congruence]|]. cbn [fst].
  assert (Hall : forall t' handle, (t', handle) ∈ contents root -> prot (handle_key handle) = true -> t' ∈ tiles \/ is_Some (m !! t')).
  { intros t' handle Hc Hp. destruct (Hli t' handle Hc) as (d & Hd & <- & <-). destruct (Hleft d Hd Hp) as [-> |?]; auto. }
  apply releasing_tiles; [|by split; [right|]]. destruct (_ || _) eqn:E; [|done]. apply releasing_key; [done|].
  rewrite tree_key_root by done. exists t, root. split_and!; [done..|]. left. split; [done|]. intros t' handle Hc Hp.
  destruct (Hall t' handle Hc Hp) as [?|[k Hk]]; [done|]. apply orb_true_iff in E as [E%bool_decide_eq_true|E].
  - by rewrite E, lookup_empty in Hk.
  - rewrite forallb_forall in E. apply (rl_requested _ Hr1). specialize (E t'). rewrite bool_decide_eq_true in E. apply E.
    apply list_elem_of_In, list_elem_of_fmap. exists (t', k). split; [done|]. by apply elem_of_map_to_list.
Qed.

Lemma process_roots_spec now t roots : valid t -> t ∈ tiles -> (forall root, root ∈ roots -> root_of t root) ->
  forall r add s, releasing r -> holds P s -> protection s = prot ->
  runs (process_roots r now t roots add) s (fun s' r' => (holds P s' /\ protection s' = prot) /\ releasing r').
Proof.
  intros Hv Ht. induction roots as [|root roots IH]; intros Hroots r add s Hr Hs E; cbn [process_roots]; [by rstep|].
  assert (Hroot : root_of t root) by (apply Hroots; left). assert (Htail : forall root, root ∈ roots -> root_of t root) by (intros; apply Hroots; by right).
  pose proof (process_tile_spec r root t add Hr Ht Hroot) as Hr1. destruct (process_tile r root t add) as [[r1 add1] known]. cbn [fst] in Hr1.
  destruct known; [by apply IH|]. rstep. eapply runs_mono; [by apply process_cache_spec|]. intros s2 [r2 add2] [[Hs2 E2] Hr2]. cbv beta iota.
  by apply IH.
Qed.

Lemma releasing_loop_spec now ts : Forall valid ts -> (forall t, t ∈ ts -> t ∈ tiles) -> forall r s, releasing r -> holds P s -> protection s = prot ->
  runs (release_loop_ r now ts) s (fun s' r' => (holds P s' /\ protection s' = prot) /\ releasing r').
Proof.
  induction 1 as [|t ts Hv _ IH]; intros Hin r s Hr Hs E; cbn [release_loop_]; [by rstep|]. rstep.
  eapply runs_mono; [apply (process_roots_spec now t); try done; [apply Hin; left|intros root Hroot; by apply elem_of_quad_roots]|].
  intros s1 r1 [[Hs1 E1] Hr1]. apply IH; try done. intros t' Ht'. apply Hin. by right.
Qed.
End releasing.

Lemma GetKeysToRelease_spec now tiles s : Forall valid tiles -> holds P s ->
  runs (GetKeysToRelease (ReleaseDependencyResolver_new catalog l version) now tiles) s (fun s' r =>
    (holds P s' /\ protection s' = protection s) /\ Forall (releasable (protection s) tiles) (keys_to_release_ r)).
Proof.
  intros Hv Hs. unfold GetKeysToRelease. eapply runs_mono.
  - apply (releasing_loop_spec (protection s) tiles); try done; cbn [requested_tiles_].
    + apply Forall_forall. intros t Ht. rewrite elem_of_sort_tiles in Ht. rewrite Forall_forall in Hv. by apply Hv.
    + intros t. by rewrite elem_of_sort_tiles.
    + split; cbn; try done. intros t. by rewrite elem_of_sort_tiles.
  - intros s' r [Hs' Hr]. split; [done|apply Hr].
Qed.

(** C26: releasing tiles keeps what the other tiles need: the data of a protected tile that
    is not among the released ones stays protected, unless a released tile has the same
    data, and so does the index in which the tile is found. *)
Theorem Release_tiles_keeps_others c now tiles s t root handle :
  client_catalog_ c = catalog -> client_layer_id_ c = l -> catalog_version_ c = version ->
  Forall valid tiles -> holds P s -> (forall root t handle, (t, handle) ∈ contents root -> no_colon handle) -> valid root ->
  t ∉ tiles -> (t, handle) ∈ contents root -> protection s (handle_key handle) = true ->
  exists s' b, Release_tiles c now tiles s = Some (s', b) /\
    ((forall t' root', t' ∈ tiles -> (t', handle) ∉ contents root') -> protection s' (handle_key handle) = true) /\
    (protection s (root_key root) = true -> protection s' (root_key root) = true).
Proof.
  intros Ec El Ev Hv Hs Hcolon Hvr Ht Hin Hp. change (runs (Release_tiles c now tiles) s (fun s' _ =>
    ((forall t' root', t' ∈ tiles -> (t', handle) ∉ contents root') -> protection s' (handle_key handle) = true) /\
    (protection s (root_key root) = true -> protection s' (root_key root) = true))).
  unfold Release_tiles. rewrite Ec, El, Ev. destruct (_ =? _); [by rstep|]. rstep.
  eapply runs_mono; [by apply GetKeysToRelease_spec|]. intros s1 r [[Hs1 E1] Hk].
  destruct (keys_to_release_ r) as [|k keys]; [rstep; by rewrite E1|]. rewrite Forall_forall in Hk.
  eapply runs_mono; [by apply (law_Release P)|]. intros s2 _ [_ Hkeep]. rewrite E1 in Hkeep.
  unfold root_key, handle_key in *. split.
  - intros Hshared. apply Hkeep; [done|]. intros k' Hk'. destruct (Hk k' Hk') as (t' & root' & Ht' & Hr' & [[-> _]|(handle' & Hin' & -> & _)]).
    + exact (quadtree_not_in_data h l root' (Some version) kQuadTreeDepth handle (Hcolon _ _ _ Hin)).
    + intros E. apply (CreateDataHandleKey_prefix h l handle' handle (Hcolon _ _ _ Hin') (Hcolon _ _ _ Hin)) in E.
      subst handle'. by apply (Hshared t' root').
  - intros Hpr. apply Hkeep; [done|]. intros k' Hk'. destruct (Hk k' Hk') as (t' & root' & Ht' & Hr' & [[-> Hall]|(handle' & Hin' & -> & _)]).
    + intros E. rewrite Forall_forall in Hv.
      apply (CreateQuadTreeKey_prefix h l root' root _ _ (root_valid t' root' (Hv t' Ht') Hr') Hvr) in E. subst root'. by apply Ht, (Hall t handle).
    + exact (data_not_in_quadtree h l root version kQuadTreeDepth handle' (Hcolon _ _ _ Hin')).
Qed.
End protection.

(** ** Concrete inputs

    A layer with one tree: the root tile and one of its children. *)

Module tiles_sample.
Import layer_sample.

Definition tile (l r c : Z) (handle : string) : IndexData := mkIndexData (mkTileKey r c l) (chars handle) [] [] [] 7 100 50.
Definition root : TileKey := mkTileKey 1 1 1.
Definition child : TileKey := mkTileKey 3 2 2.
Definition subs : list IndexData := [tile 1 1 1 "hr"; tile 2 3 2 "hc"].

Lemma subs_ok : tree_ok root [] subs.
Proof.
  split.
  - vm_compute. intuition congruence.
  - repeat constructor; vm_compute; intuition congruence.
  - constructor.
  - repeat constructor; cbn; try lia; repeat constructor; vm_compute; intuition congruence.
  - apply (bool_decide_unpack _). vm_compute. done.
  - apply NoDup_nil_2.
  - done.
  - done.
  - done.
Qed.

Definition index : QuadTreeIndex := default (mkQuadTreeIndex 0 0 0 0 0 [] [] []) (CreateBlob root 4 [] subs).

Lemma index_ok : index_of index root subs.
Proof. exists 4, [], subs. split; [exact subs_ok|]. split; [vm_compute; reflexivity|done]. Qed.

Definition L : layer :=
  mkCachedLayer (fun _ _ _ => False) (fun _ _ => False) (fun t v q => t = root /\ v = Some 7 /\ q = index) (fun _ _ => False) (fun _ _ _ => True).
Definition contents (t : TileKey) : list (TileKey * key) :=
  if decide (t = root) then (fun d => (tile_key d, data_handle d)) <$> subs else [].

Lemma one_tree t q : l_tree L t (Some 7) q -> exists data, index_of q t data /\ contents t = (fun d => (tile_key d, data_handle d)) <$> data.
Proof. intros (-> & _ & ->). exists subs. split; [exact index_ok|]. unfold contents. by rewrite decide_True. Qed.

Definition client : VersionedLayerClientImpl := VersionedLayerClientImpl_new hrn (chars "layer") (Some 7).
Abbreviation P := (layer_policy (ToCatalogHRNString hrn) (chars "layer") L).

Lemma plain : IsExpiryKey (ToCatalogHRNString hrn ++ kColons ++ chars "layer") = false.
Proof. vm_compute. reflexivity. Qed.

(** The cache with the tree, and then with both tiles protected. *)
Definition with_tree : Cache := after_fresh fresh (Put_tree repository 100 root kQuadTreeDepth (Some index) (Some 7)).
Definition protected : Cache := after_fresh with_tree (Protect_tiles client 100 [root; child]).

Lemma after_runs {B} (s : Cache) (m : state Cache B) Q : runs m s Q -> exists r, m s = Some (after_fresh s m, r) /\ Q (after_fresh s m) r.
Proof. intros (s' & r & E & HQ). exists r. unfold after_fresh. by rewrite E. Qed.

Lemma with_tree_holds : holds P with_tree.
Proof.
  destruct (after_runs fresh (Put_tree repository 100 root kQuadTreeDepth (Some index) (Some 7)) (fun s _ => holds P s)) as (r & _ & HP); [|exact HP].
  assert (He : entry_of (ToCatalogHRNString hrn) (chars "layer") L (CreateQuadTreeKey (catalog_ repository) (layer_id_ repository) root (Some 7) kQuadTreeDepth)
    (AnyBytes (GetRawData index)) (GetRawData index)) by (apply of_tree; [vm_compute; intuition congruence|done]).
  unfold Put_tree. rstep. eapply runs_mono.
  - apply (law_Write P 100 _ (GetRawData index)); [apply fresh_holds|by eexists|by eexists|]. split; [split; by vm_compute|]. split; [by vm_compute|].
    split; by vm_compute.
  - intros s' r [[Hs' _] _]. by rstep.
Qed.

Lemma Protect_true : Protect_tiles client 100 [root; child] with_tree = Some (protected, true).
Proof.
  assert (E : snd <$> Protect_tiles client 100 [root; child] with_tree = Some true) by (vm_compute; reflexivity).
  unfold protected, after_fresh. revert E. generalize (Protect_tiles client 100 [root; child] with_tree).
  intros [[s r]|]; [|done]. cbn. by intros [= ->].
Qed.

Lemma tiles_valid : Forall valid [root; child].
Proof. repeat apply Forall_cons_2; try apply Forall_nil_2; vm_compute; intuition congruence. Qed.

Lemma protected_holds : holds P protected.
Proof.
  destruct (after_runs with_tree (Protect_tiles client 100 [root; child]) (fun s _ => holds P s)) as (r & _ & HP); [|exact HP].
  eapply runs_mono; [apply (Protect_tiles_spec hrn (chars "layer") 7 L contents plain one_tree client 100 [root; child])|by intros s b []].
  - reflexivity.
  - reflexivity.
  - reflexivity.
  - exact tiles_valid.
  - exact with_tree_holds.
Qed.

Lemma handles_plain t tile handle : (tile, handle) ∈ contents t -> no_colon handle.
Proof.
  unfold contents. case_decide; [|by intros ?%not_elem_of_nil]. cbn.
  intros [[= -> ->]|[[= -> ->]|[]%not_elem_of_nil]%elem_of_cons]%elem_of_cons; by apply (bool_decide_unpack _).
Qed.
End tiles_sample.


Import layer_sample tiles_sample.

Lemma Protect_tiles_with_index_witness : exists keys, keys <> [] /\
  to_protect layer_sample.hrn (chars "layer") 7 contents [root; child] keys /\
  forall k, protection protected k = true <-> protection with_tree k = true \/ exists p, p ∈ keys /\ p `prefix_of` k.
Proof.
  apply (Protect_tiles_with_index layer_sample.hrn (chars "layer") 7 L contents plain one_tree client 100 [root; child] with_tree protected).
  - reflexivity.
  - reflexivity.
  - reflexivity.
  - exact tiles_valid.
  - exact with_tree_holds.
  - exact Protect_true.
Defined.

Lemma Release_tiles_keeps_others_witness : exists s' b, Release_tiles client 100 [child] protected = Some (s', b) /\
  ((forall t' root', t' ∈ [child] -> (t', chars "hr") ∉ contents root') ->
    protection s' (handle_key layer_sample.hrn (chars "layer") (chars "hr")) = true) /\
  (protection protected (root_key layer_sample.hrn (chars "layer") 7 root) = true ->
    protection s' (root_key layer_sample.hrn (chars "layer") 7 root) = true).
Proof.
  apply (Release_tiles_keeps_others layer_sample.hrn (chars "layer") 7 L contents plain one_tree client 100 [child] protected root root (chars "hr")).
  - reflexivity.
  - reflexivity.
  - reflexivity.
  - exact (Forall_inv_tail tiles_valid).
  - exact protected_holds.
  - exact handles_plain.
  - exact (Forall_inv tiles_valid).
  - by apply (bool_decide_unpack _).
  - by apply (bool_decide_unpack _).
  - vm_compute. reflexivity.
Defined.
