(* ===== verification/World.v ===== *)
(** * What the repositories run in

    The repositories of the reading library are sequences of operations on the cache, on
    the clients of services and on named mutexes.  Their state is a [World]: the cache,
    the clients that the lookup of services keeps (ApiLookup.v), and what is outside of
    the process.

    [Online] is what they use of the outside: [call_api] and [call_api_stream] are
    [OlpClient::CallApi] and [CallApiStream] (OlpClient.v) with a cancellation context,
    [mutex_open] to [mutex_set_error] are [NamedMutex] (NamedMutex.v).  Each may change
    the world, since other threads run while the process waits. *)

From stdpp Require Import sorting.
From S2P Require Import Prelude ProtectedKeyList Json LruCache InMemoryCache DiskCache DefaultCache Http.
Import Network Response.

(** [read::FetchOptions] and [client::FetchOptions], which have the same values. *)
Inductive FetchOptions := OnlineIfNotFound | OnlineOnly | CacheOnly | CacheWithUpdate.

#[export] Instance FetchOptions_eq_dec : EqDecision FetchOptions.
Proof. solve_decision. Defined.

Definition fetch_option_value (o : FetchOptions) : Z :=
  match o with OnlineIfNotFound => 0 | OnlineOnly => 1 | CacheOnly => 2 | CacheWithUpdate => 3 end.

(** The options that look into the cache first, and those that write to it or lock. *)
Definition looks_up (o : FetchOptions) : bool := negb (bool_decide (o = OnlineOnly)) && negb (bool_decide (o = CacheWithUpdate)).
Definition locks (o : FetchOptions) : bool := negb (bool_decide (o = CacheOnly)) && negb (bool_decide (o = OnlineOnly)).

(** The arguments of [CallApi] but the cancellation context. *)
Record ApiCall := mkApiCall {
  call_path : str;
  call_method : str;
  query_params : list (str * str);
  header_params : list (str * str);
  post_body : option str;
  content_type : str }.

(** A [std::multimap], in the order of its keys; equal keys stay in the order of insertion. *)
Definition multimap (l : list (str * str)) : list (str * str) := merge_sort key_le l.

Definition kAcceptJson : list (str * str) := [(chars "Accept", chars "application/json")].
Definition GetCall (path : str) (query : list (str * str)) : ApiCall :=
  mkApiCall path (chars "GET") (multimap query) kAcceptJson None [].

(** [client::ApiResponse] with and without network statistics. *)
Definition ApiResponse (R : Type) : Type := R + ApiError.
Definition ExtendedResponse (R : Type) : Type := ApiResponse R * NetworkStatistics.

Definition without_statistics {R} (r : ApiResponse R) : ExtendedResponse R := (r, NetworkStatistics_new).

(** The errors of a cache, whose messages are not modelled. *)
Definition ApiError_of_cache (e : DiskCache.ErrorCode) : ApiError :=
  ApiError_of_code
    (match e with
     | DiskCache.Unknown => Unknown | DiskCache.NotFound => NotFound | DiskCache.InvalidArgument => InvalidArgument
     | DiskCache.PreconditionFailed => PreconditionFailed | DiskCache.CacheIO => CacheIO | DiskCache.BadRequest => BadRequest
     end) [] false.

Definition not_found (message : string) : ApiError := ApiError_of_code NotFound (chars message) false.
Definition kCacheOnlyError : ApiError := not_found "CacheOnly: resource not found in cache".

(** [parse_result] *)
Definition parse_result `{JsonText} `{FromJson T} (text : str) : option (ApiResponse T) :=
  '(obj, res) ← parse_text text;
  Some (if res : bool then inl obj else inr (ApiError_of_code Unknown (chars "Fail parsing response.") false)).

(** The cache, the clients with the time at which they expire, and the outside. *)
Record World {S N : Type} := mkWorld {
  w_cache : S;
  cached_clients_ : gmap key (key * Z);
  w_outside : N }.
Arguments World : clear implicits.
Arguments mkWorld {S N} _ _ _.

Section world.
Context {S N : Type}.
Abbreviation W := (World S N).

Definition set_cache (s : S) (w : W) : W := mkWorld s (cached_clients_ w) (w_outside w).
Definition set_clients (m : gmap key (key * Z)) (w : W) : W := mkWorld (w_cache w) m (w_outside w).

(** An operation on the cache. *)
Definition cached {A} (m : state S A) : state W A := fun w => '(s, a) ← m (w_cache w); Some (set_cache s w, a).
End world.

Class Online (S N : Type) := mkOnline {
  call_api : key -> ApiCall -> state (World S N) HttpResponse;
  (** The calls of the data callback, with the offset and the bytes. *)
  call_api_stream : key -> ApiCall -> state (World S N) (HttpResponse * list (Z * str));
  system_clock : state (World S N) Z;
  steady_clock : state (World S N) Z;
  mutex_open : key -> state (World S N) unit;
  mutex_close : key -> state (World S N) unit;
  mutex_lock : key -> state (World S N) unit;
  mutex_unlock : key -> state (World S N) unit;
  mutex_get_error : key -> state (World S N) (option ApiError);
  mutex_set_error : key -> ApiError -> state (World S N) unit }.

Section online.
Context {S N : Type} `{Online S N}.
Abbreviation W := (World S N).

(** An operation on the cache that looks at the clock. *)
Definition timed {A} (m : Z -> state S A) : state W A := now ← system_clock; cached (m now).

(** A scope with a [NamedMutex] and a [unique_lock] that is locked when [lock] says so. *)
Definition with_mutex {A} (name : key) (lock : bool) (body : state W A) : state W A :=
  mutex_open name;;
  (if lock then mutex_lock name else mret tt);;
  r ← body;
  (if lock then mutex_unlock name else mret tt);;
  mutex_close name;;
  mret r.
End online.

(** ** A concrete outside

    A server that answers a call in one way, for concrete inputs; no other threads. *)
Section simple.
Context {S : Type} (serve : key -> ApiCall -> HttpResponse) (stream : key -> ApiCall -> HttpResponse * list (Z * str)).

Definition simple_online : Online S unit := {|
  call_api base_url c := mret (serve base_url c);
  call_api_stream base_url c := mret (stream base_url c);
  system_clock := mret 100;
  steady_clock := mret 100;
  mutex_open _ := mret tt; mutex_close _ := mret tt; mutex_lock _ := mret tt; mutex_unlock _ := mret tt;
  mutex_get_error _ := mret None; mutex_set_error _ _ := mret tt |}.
End simple.

Definition response_of (code : Z) (body : str) : HttpResponse := mkHttpResponse code body [] (mkStatistics 0 (Z.of_nat (length body))).

(** ** Reasoning about what runs in a world

    [gives I m Q]: from a state with the invariant [I] the computation ends, keeps the
    invariant, and its result has [Q]. *)

Definition gives {W A} (I : W -> Prop) (m : state W A) (Q : A -> Prop) : Prop :=
  forall w, I w -> runs m w (fun w' a => I w' /\ Q a).

Lemma run_bind {W A B} (m : state W A) (f : A -> state W B) w w' a r : m w = Some (w', a) -> f a w' = r -> (m ≫= f) w = r.
Proof. intros E <-. unfold mbind, state_bind, mbind, option_bind. by rewrite E. Qed.

Section gives.
Context {W : Type} (I : W -> Prop).

Lemma gives_ret {A} (a : A) (Q : A -> Prop) : Q a -> gives I (mret a) Q.
Proof. intros Ha w Hw. by rstep. Qed.

Lemma gives_bind {A B} (m : state W A) (f : A -> state W B) (Q : A -> Prop) R :
  gives I m Q -> (forall a, Q a -> gives I (f a) R) -> gives I (m ≫= f) R.
Proof. intros Hm Hf w Hw. rstep. eapply runs_mono; [by apply Hm|]. intros w' a [Hw' Ha]. by apply Hf. Qed.

Lemma gives_mono {A} (m : state W A) (Q Q' : A -> Prop) : gives I m Q -> (forall a, Q a -> Q' a) -> gives I m Q'.
Proof. intros Hm HQ w Hw. eapply runs_mono; [by apply Hm|]. intros w' a []. auto. Qed.

Lemma gives_lift {A} (o : option A) (a : A) (Q : A -> Prop) : o = Some a -> Q a -> gives I (lift o) Q.
Proof. intros E Ha w Hw. by eapply runs_lift. Qed.

Lemma gives_gets {A} (f : W -> A) : gives I (gets f) (fun _ => True).
Proof. intros w Hw. by rstep. Qed.

(** A computation whose result does not matter. *)
Abbreviation keeps_to m := (gives I m (fun _ => True)).

Lemma gives_then {A B} (m : state W A) (f : A -> state W B) R : keeps_to m -> (forall a, gives I (f a) R) -> gives I (m ≫= f) R.
Proof. intros Hm Hf. by eapply gives_bind. Qed.

Lemma keeps_ret {A} (a : A) : keeps_to (mret a : state W A).
Proof. by apply gives_ret. Qed.

Lemma keeps_modify (f : W -> W) : (forall w, I w -> I (f w)) -> keeps_to (modify f).
Proof. intros Hf w Hw. rstep. auto. Qed.

Lemma keeps_any {A} (m : state W A) Q : gives I m Q -> keeps_to m.
Proof. intros Hm. by eapply gives_mono. Qed.
End gives.

Abbreviation keeps_to I m := (gives I m (fun _ => True)).

Section mutex.
Context {S N : Type} `{Online S N} (I : World S N -> Prop).

(** The mutexes keep the invariant: other threads run while one waits. *)
Record mutexes_keep : Prop := {
  keep_open name : keeps_to I (mutex_open name);
  keep_close name : keeps_to I (mutex_close name);
  keep_lock name : keeps_to I (mutex_lock name);
  keep_unlock name : keeps_to I (mutex_unlock name);
  keep_get_error name : keeps_to I (mutex_get_error name);
  keep_set_error name e : keeps_to I (mutex_set_error name e) }.

Lemma gives_mutex {A} name lock (body : state (World S N) A) Q : mutexes_keep -> gives I body Q -> gives I (with_mutex name lock body) Q.
Proof.
  intros Hm Hb. unfold with_mutex. apply gives_then; [apply Hm|intros _].
  apply gives_then; [destruct lock; [apply Hm|apply keeps_ret]|intros _]. eapply gives_bind; [exact Hb|intros a Ha].
  apply gives_then; [destruct lock; [apply Hm|apply keeps_ret]|intros _].
  apply gives_then; [apply Hm|intros _]. by apply gives_ret.
Qed.
End mutex.

Section cache.
Context {S N A : Type} `{Online S N}.
Abbreviation W := (World S N).
Context (P : S -> Prop).

(** The worlds whose cache has [P]. *)
Definition cache_has (w : W) : Prop := P (w_cache w).

Lemma gives_cached {B} (m : state S B) Q : gives P m Q -> gives cache_has (cached m) Q.
Proof.
  intros Hm w Hw. destruct (Hm _ Hw) as (s & a & E & Hs & Ha). exists (set_cache s w), a. split; [|by split].
  unfold cached, mbind, option_bind. by rewrite E.
Qed.

Lemma gives_timed {B} (m : Z -> state S B) (T : Z -> Prop) Q :
  gives cache_has system_clock T -> (forall now, T now -> gives P (m now) Q) -> gives cache_has (timed m) Q.
Proof. intros Ht Hm. unfold timed. eapply gives_bind; [exact Ht|]. intros now Hn. by apply gives_cached, Hm. Qed.
End cache.
