(* ===== verification/RecordedCache.v ===== *)
(** * A cache that records its answers

    What the other files state of a cache is about the values in it.  A cache may forget
    at any time, so that the state in the end does not tell what it had, or was given,
    during a run.  Here a cache is wrapped so that it records its answers: every cache
    that keeps the laws of KeyValueCache.v keeps them with its record, and what was
    recorded stays.  The theorem of the prefetch is about such a cache. *)

From S2P Require Import Prelude LruCache InMemoryCache ProtectedKeyList DiskCache DefaultCache DefaultCacheInvariant DefaultCacheOperations KeyValueCache World.

(** What two specifications say of one run. *)
Lemma runs_and {S A} (m : state S A) s Q R : runs m s Q -> runs m s R -> runs m s (fun s' a => Q s' a /\ R s' a).
Proof. intros (s1 & a1 & E1 & HQ) (s2 & a2 & E2 & HR). rewrite E1 in E2. injection E2 as <- <-. by exists s1, a1. Qed.

(** A positive answer of [Contains], [Read] and [Write]. *)
Inductive cache_answer :=
| Contained (k : key)
| Gave (k : key) (v : bytes)
| Stored (k : key) (v : bytes).

#[export] Instance cache_answer_eq_dec : EqDecision cache_answer.
Proof. solve_decision. Defined.

Record Recorded (S : Type) := mkRecorded { answers_ : list cache_answer; cache_ : S }.
#[global] Arguments mkRecorded {S} _ _.
#[global] Arguments answers_ {S} _.
#[global] Arguments cache_ {S} _.

Section recorded.
Context {S A : Type} `{KeyValueCacheLaws S A}.

Definition recording {B} (m : state S B) (answers : B -> list cache_answer) : state (Recorded S) B :=
  fun s => '(c, b) ← m (cache_ s); Some (mkRecorded (answers_ s ++ answers b) c, b).
Definition silently {B} (m : state S B) : state (Recorded S) B := recording m (fun _ => []).

#[local] Instance Recorded_cache : KeyValueCache (Recorded S) A := {|
  kv_Put now k a v e := silently (kv_Put now k a v e);
  kv_Get now k decoder := silently (kv_Get now k decoder);
  kv_Contains now k := recording (kv_Contains now k) (fun b => if b : bool then [Contained k] else []);
  kv_Protect ks := silently (kv_Protect ks);
  kv_Release ks := silently (kv_Release ks);
  kv_IsProtected k := silently (kv_IsProtected k);
  kv_Promote k := silently (kv_Promote k);
  kv_Read now k := recording (kv_Read now k) (fun r => match r with inl v => [Gave k v] | inr _ => [] end);
  kv_Write now k v e := recording (kv_Write now k v e) (fun r => match v, r with Some v, inl _ => [Stored k v] | _, _ => [] end);
  kv_Delete k := silently (kv_Delete k);
  kv_DeleteByPrefix k := silently (kv_DeleteByPrefix k) |}.

Lemma runs_recording {B} (m : state S B) answers s Q :
  runs m (cache_ s) (fun c b => Q (mkRecorded (answers_ s ++ answers b) c) b) -> runs (recording m answers) s Q.
Proof. intros (c & b & E & HQ). exists (mkRecorded (answers_ s ++ answers b) c), b. split; [|done]. unfold recording, mbind, option_bind. by rewrite E. Qed.

(** The cache holds its values, and the answers [past] were recorded. *)
Definition recorded_holds (past : list cache_answer) (P : Policy A) (s : Recorded S) : Prop :=
  holds P (cache_ s) /\ forall x, x ∈ past -> x ∈ answers_ s.

Lemma recorded_more past P c l l' : holds P c -> (forall x, x ∈ past -> x ∈ l) -> recorded_holds past P (mkRecorded (l ++ l') c).
Proof. intros Hc Hp. split; [done|]. intros x Hx. apply elem_of_app. left. by apply Hp. Qed.

(** The laws hold whatever was recorded. *)
Definition Recorded_laws (past : list cache_answer) : KeyValueCacheLaws (Recorded S) A.
Proof.
  refine (mkKeyValueCacheLaws (Recorded S) A _ (recorded_holds past) (fun s => protection (cache_ s)) _ _ _ _ _ _ _ _ _ _ _ _ _).
  - intros P P' s [Hs Hp] Hm Hd. split; [by apply (law_mono P)|done].
  - intros P now k s [Hs Hp] Hk. apply runs_recording. eapply runs_mono; [by apply (law_Read P)|]. intros c r [[Hc E] Hr].
    split; [|done]. split; [by apply recorded_more|done].
  - intros P now k decoder s [Hs Hp] Hk. apply runs_recording. eapply runs_mono; [by apply (law_Get P)|]. intros c r [[Hc E] Hr].
    split; [|done]. split; [by apply recorded_more|done].
  - intros P now k v e s [Hs Hp] Hm Hd Hc. apply runs_recording. eapply runs_mono; [by apply (law_Write P)|]. intros c r [[Hs' E] Hr].
    split; [split; [by apply recorded_more|done]|]. intros Er He. by apply recorded_more; [apply Hr|].
  - intros P now k e s [Hs Hp]. apply runs_recording. eapply runs_mono; [by apply (law_Write_none P)|]. intros c r Hc. by apply recorded_more.
  - intros P now k a v e s [Hs Hp] Hm Hd Hc. apply runs_recording. eapply runs_mono; [by apply (law_Put P)|]. intros c r [Hs' E].
    split; [by apply recorded_more|done].
  - intros P now k s [Hs Hp]. apply runs_recording. eapply runs_mono; [by apply (law_Contains P)|]. intros c r [Hs' E].
    split; [by apply recorded_more|done].
  - intros P k s [Hs Hp]. apply runs_recording. eapply runs_mono; [by apply (law_Promote P)|]. intros c r [Hs' E].
    split; [by apply recorded_more|done].
  - intros P k s [Hs Hp]. apply runs_recording. eapply runs_mono; [by apply (law_Delete P)|]. intros c r [Hs' E].
    split; [by apply recorded_more|done].
  - intros P k s [Hs Hp]. apply runs_recording. eapply runs_mono; [by apply (law_DeleteByPrefix P)|]. intros c r [Hs' E].
    split; [by apply recorded_more|done].
  - intros P k s [Hs Hp]. apply runs_recording. eapply runs_mono; [by apply (law_IsProtected P)|]. intros c r [-> E].
    split; [|done]. rewrite app_nil_r. by destruct s.
  - intros P ks s [Hs Hp] Hne. apply runs_recording. eapply runs_mono; [by apply (law_Protect P)|]. intros c r (Hs' & H1 & H2).
    split_and!; [by apply recorded_more|done|done].
  - intros P ks s [Hs Hp]. apply runs_recording. eapply runs_mono; [by apply (law_Release P)|]. intros c r [Hs' Hr].
    split; [by apply recorded_more|done].
Defined.

(** *** What an operation adds to the record *)

Lemma recorded_Contains past (P : Policy A) now k s : recorded_holds past P s ->
  runs (kv_Contains now k) s (fun s' b => exists news, (b = true -> Contained k ∈ news) /\ recorded_holds (past ++ news) P s').
Proof.
  intros [Hs Hp]. apply runs_recording. eapply runs_mono; [by apply (law_Contains P)|]. intros c b [Hc _].
  exists (if b : bool then [Contained k] else []). split; [intros ->; left|]. split; [done|]. cbn. set_solver.
Qed.

Lemma recorded_Read past (P : Policy A) now k s : recorded_holds past P s -> bytes_key k ->
  runs (kv_Read now k) s (fun s' r => exists news, (forall v, r = inl v -> Gave k v ∈ news) /\ recorded_holds (past ++ news) P s').
Proof.
  intros [Hs Hp] Hk. apply runs_recording. eapply runs_mono; [by apply (law_Read P)|]. intros c r [[Hc _] _].
  exists (match r with inl v => [Gave k v] | inr _ => [] end). split; [intros v ->; left|]. split; [done|]. cbn. set_solver.
Qed.

Lemma recorded_Write past (P : Policy A) now k v e s : recorded_holds past P s -> in_memory k (AnyBytes v) -> on_disk k v -> can_store now k v e ->
  runs (kv_Write now k (Some v) e) s (fun s' r => exists news, (r = inl tt -> Stored k v ∈ news) /\ recorded_holds (past ++ news) P s').
Proof.
  intros [Hs Hp] Hm Hd Hc. apply runs_recording. eapply runs_mono; [by apply (law_Write P)|]. intros c r [[Hs' _] _].
  exists (match r with inl _ => [Stored k v] | inr _ => [] end). split; [intros ->; left|]. split; [done|]. cbn. set_solver.
Qed.
End recorded.

(** ** Computations that add to the record *)

Section told.
Context {W : Type} (I : list cache_answer -> W -> Prop).

(** From a state with the answers [past] the computation ends, and [Q] holds of its result
    and of answers that were recorded meanwhile. *)
Definition told {A} (past : list cache_answer) (m : state W A) (Q : A -> list cache_answer -> Prop) : Prop :=
  forall w, I past w -> runs m w (fun w' a => exists news, Q a news /\ I (past ++ news) w').

Lemma told_gives {A} past (m : state W A) Q (R : A -> list cache_answer -> Prop) : gives (I past) m Q -> (forall a, Q a -> R a []) -> told past m R.
Proof. intros Hm HR w Hw. eapply runs_mono; [by apply Hm|]. intros w' a [Hw' Ha]. exists []. rewrite app_nil_r. split; [by apply HR|done]. Qed.

Lemma told_bind {A B} past (m : state W A) (f : A -> state W B) Q R :
  told past m Q -> (forall a news, Q a news -> told (past ++ news) (f a) (fun b news' => R b (news ++ news'))) -> told past (m ≫= f) R.
Proof.
  intros Hm Hf w Hw. rstep. eapply runs_mono; [by apply Hm|]. intros w1 a (news & Ha & Hw1).
  eapply runs_mono; [by apply (Hf a news)|]. intros w2 b (news' & Hb & Hw2). exists (news ++ news'). by rewrite app_assoc.
Qed.

Lemma told_mono {A} past (m : state W A) (Q Q' : A -> list cache_answer -> Prop) : told past m Q -> (forall a news, Q a news -> Q' a news) -> told past m Q'.
Proof. intros Hm HQ w Hw. eapply runs_mono; [by apply Hm|]. intros w' a (news & Ha & Hw'). eauto. Qed.

Lemma told_ret {A} past (a : A) (Q : A -> list cache_answer -> Prop) : Q a [] -> told past (mret a) Q.
Proof. intros Ha. eapply told_gives; [by apply (gives_ret _ a (fun b => b = a))|]. by intros ? ->. Qed.

(** First a computation that records nothing of interest. *)
Lemma told_after {A B} past (m : state W A) (f : A -> state W B) (Q : A -> Prop) R :
  gives (I past) m Q -> (forall a, Q a -> told past (f a) R) -> told past (m ≫= f) R.
Proof.
  intros Hm Hf. eapply (told_bind past m f (fun a news => Q a /\ news = [])).
  - eapply told_gives; [exact Hm|]. by intros a Ha.
  - intros a news [Ha ->]. rewrite app_nil_r. by apply Hf.
Qed.
End told.

Section told_mutex.
Context {S N : Type} `{Online S N} (I : list cache_answer -> World S N -> Prop).

Lemma told_mutex {A} past name lock (body : state (World S N) A) Q : (forall past, mutexes_keep (I past)) ->
  (forall a news news', Q a news -> Q a (news ++ news')) -> told I past body Q -> told I past (with_mutex name lock body) Q.
Proof.
  intros Hm HQ Hb. unfold with_mutex. eapply told_after; [apply Hm|]. intros _ _.
  eapply (told_after _ _ _ _ (fun _ => True)); [destruct lock; [apply Hm|apply keeps_ret]|]. intros _ _.
  eapply told_bind; [exact Hb|]. intros a news Ha.
  eapply (told_after _ _ _ _ (fun _ => True)); [destruct lock; [apply Hm|apply keeps_ret]|]. intros _ _.
  eapply told_after; [apply Hm|]. intros _ _. apply told_ret. by apply HQ.
Qed.
End told_mutex.
