(* ===== verification/ApiLookup.v ===== *)
(** * The lookup of services

    Model of [olp::client::ApiLookupClientImpl] (src/client/ApiLookupClientImpl.cpp), of
    the requests for services (src/client/api/PlatformApi.cpp, ResourcesApi.cpp), of the
    repository of their URLs (src/client/repository/ApiCacheRepository.cpp) and of
    [DefaultLookupEndpointProvider].

    An [OlpClient] that is kept in [cached_clients_] shares its base URL with the copies
    that were handed out, so such a client is the key of its entry; the others have a URL
    of their own.  [None] is an exception of [std::stoi] or [any_cast], or the undefined
    behaviour of a parser.  The class [Api] of the core library is that of ReadModels.v. *)

From S2P Require Import Prelude Hrn ProtectedKeyList Json ReadModels LruCache InMemoryCache DiskCache DefaultCache.
From S2P Require Import KeyValueCache KeyGenerator CacheRepositories Http World.
Import Network Response.

(** ** Texts without case (include/olp/core/http/NetworkUtils.h) *)

Definition SimpleToUpper (c : ascii) : ascii := if (97 <=? ord c) && (ord c <=? 122) then chr (ord c - 97 + 65) else c.

Fixpoint CaseInsensitiveStartsWith (str1 str2 : str) : bool :=
  match str2, str1 with
  | [], _ => true
  | _, [] => false
  | c2 :: str2, c1 :: str1 => bool_decide (SimpleToUpper c1 = SimpleToUpper c2) && CaseInsensitiveStartsWith str1 str2
  end.

Definition CaseInsensitiveCompare (str1 str2 : str) : bool :=
  (length str1 =? length str2)%nat && CaseInsensitiveStartsWith str1 str2.

Fixpoint find_loop (str1 str2 : str) : option nat :=
  if CaseInsensitiveStartsWith str1 str2 then Some 0%nat
  else match str1 with [] => None | _ :: str1 => Datatypes.S <$> find_loop str1 str2 end.

(** [None] is [npos]. *)
Definition CaseInsensitiveFind (str1 str2 : str) : option nat := match str2 with [] => None | _ => find_loop str1 str2 end.

(** [std::stoi]: a number of 32 bits. *)
Definition stoi (s : str) : option Z :=
  n ← stoll s; if (- 2^31 <=? n) && (n <? 2^31) then Some n else None.

(** [GetExpiry] of the headers; [None] is an exception. *)
Definition GetExpiry (headers : Headers) : option (option Z) :=
  match list_find (fun h => CaseInsensitiveCompare h.1 (chars "cache-control") = true) headers with
  | None => Some None
  | Some (_, (_, expiry_str)) =>
      match CaseInsensitiveFind expiry_str (chars "max-age=") with
      | None => Some None
      | Some index => expiry ← stoi (drop (index + 8) expiry_str); Some (Some expiry)
      end
  end.

Definition DefaultLookupEndpointProvider (partition : str) : str :=
  if bool_decide (partition = chars "here") then chars "https://api-lookup.data.api.platform.here.com/lookup/v1"
  else if bool_decide (partition = chars "here-dev") then chars "https://api-lookup.data.api.platform.sit.here.com/lookup/v1"
  else if bool_decide (partition = chars "here-cn") then chars "https://api-lookup.data.api.platform.hereolp.cn/lookup/v1"
  else if bool_decide (partition = chars "here-cn-dev") then chars "https://api-lookup.data.api.platform.in.hereolp.cn/lookup/v1"
  else if bool_decide (partition = chars "local") then chars "http://localhost:31005/lookup/v1"
  else [].

(** [OlpClientSettings::api_lookup_settings] *)
Record ApiLookupSettings := mkLookupSettings {
  lookup_endpoint_provider : str -> str;
  catalog_endpoint_provider : option (HRN -> str) }.

Record ApiLookupClientImpl := mkLookup {
  catalog_ : HRN;
  lookup_settings_ : ApiLookupSettings;
  lookup_client_ : str }.

Definition ApiLookupClientImpl_new (catalog : HRN) (settings : ApiLookupSettings) : ApiLookupClientImpl :=
  mkLookup catalog settings (lookup_endpoint_provider settings (partition_ catalog)).

Inductive OlpClient := OwnClient (base_url : key) | SharedClient (cache_key : key).

Definition kLookupApiDefaultExpiryTime : Z := 3600.
Definition kLookupApiShortExpiryTime : Z := 300.

Definition FindApi (apis : list Api) (service version : str) : str :=
  match list_find (fun obj => Api_api obj = service /\ Api_version obj = version) apis with
  | None => []
  | Some (_, it) => Api_base_url it
  end.

(** [GetStaticUrl]: the URL of the client that it creates. *)
Definition GetStaticUrl (catalog : HRN) (settings : ApiLookupSettings) (service : str) : str :=
  match catalog_endpoint_provider settings with
  | None => []
  | Some provider =>
      let url := provider catalog in
      if bool_decide (url = []) then []
      else
        let url :=
          if bool_decide (service = []) then url
          else if bool_decide (service = chars "blob") then url ++ chars "/blobstore"
          else url ++ chars "/" ++ service in
        url ++ chars "/catalogs/" ++ ToCatalogHRNString catalog
  end.

Definition ServiceNotAvailable : ApiError :=
  ApiError_of_code ServiceUnavailable (chars "Service/Version not available for given HRN") false.

Definition ClientCacheKey (service service_version : str) : key := service ++ service_version.

Section lookup.
Context `{Models} {S N : Type} `{KeyValueCache S Model} `{Online S N}.
Abbreviation W := (World S N).

Definition GetBaseUrl (client : OlpClient) : state W key :=
  match client with
  | OwnClient base_url => mret base_url
  | SharedClient k => clients ← gets cached_clients_; mret (match clients !! k with Some (base_url, _) => base_url | None => [] end)
  end.

(** [OlpClient::CallApi] of a client. *)
Definition CallApi (client : OlpClient) (c : ApiCall) : state W HttpResponse := base_url ← GetBaseUrl client; call_api base_url c.
Definition CallApiStream (client : OlpClient) (c : ApiCall) : state W (HttpResponse * list (Z * str)) :=
  base_url ← GetBaseUrl client; call_api_stream base_url c.

(** *** The requests *)

(** What both requests do with the response. *)
Definition apis_of_response (response : HttpResponse) : state W (ApiResponse (list Api * option Z)) :=
  if negb (status response =? 200) then mret (inr (ApiError_of_status (status response) (Response.response response)))
  else
    expiry ← lift (GetExpiry (headers response));
    apis ← lift (parse_result (T := list Api) (Response.response response));
    mret (match apis with inl apis => inl (apis, expiry) | inr e => inr e end).

Definition PlatformApi_GetApis (client : OlpClient) : state W (ApiResponse (list Api * option Z)) :=
  response ← CallApi client (GetCall (chars "/platform/apis") []);
  apis_of_response response.

Definition ResourcesApi_GetApis (client : OlpClient) (hrn : str) : state W (ApiResponse (list Api * option Z)) :=
  response ← CallApi client (GetCall (chars "/resources/" ++ hrn ++ chars "/apis") []);
  apis_of_response response.

(** *** The URLs in the cache *)

Definition Put_url (hrn : HRN) (now : Z) (service version url : str) (expiry : option Z) : state S bool :=
  let k := CreateApiKey (ToCatalogHRNString hrn) service version in
  kv_Put now k (MUrl url) url (default kLookupApiExpiryTime expiry).

(** [Get] of this repository is that of the reading library, [Get_api]. *)

Fixpoint PutToDiskCache (catalog : HRN) (services : list Api) (expiry : option Z) : state W unit :=
  match services with
  | [] => mret tt
  | service_api :: services =>
      _ ← timed (fun now => Put_url catalog now (Api_api service_api) (Api_version service_api) (Api_base_url service_api) expiry);
      PutToDiskCache catalog services expiry
  end.

(** *** Clients *)

Definition CreateAndCacheClient (base_url : str) (cache_key : key) (expiration : option Z) : state W OlpClient :=
  now ← steady_clock;
  let new_expiration := now + default kLookupApiDefaultExpiryTime expiration in
  modify (fun w => set_clients (<[cache_key := (base_url, new_expiration)]> (cached_clients_ w)) w);;
  mret (SharedClient cache_key).

Definition GetCachedClient (c : ApiLookupClientImpl) (service service_version : str) : state W (option OlpClient) :=
  let k := ClientCacheKey service service_version in
  clients ← gets cached_clients_;
  now ← steady_clock;
  if (match clients !! k with Some (_, expire_at) => now <? expire_at | None => false end) then mret (Some (SharedClient k))
  else
    base_url ← timed (fun now => Get_api (catalog_ c) now service service_version);
    match base_url with
    | None => mret None
    | Some base_url => client ← CreateAndCacheClient base_url k (Some kLookupApiShortExpiryTime); mret (Some client)
    end.

(** What [LookupApi] does without a static URL and without a cached client. *)
Definition lookup_online (c : ApiLookupClientImpl) (service service_version : str) (options : FetchOptions) : state W (ApiResponse OlpClient) :=
  api_response ← (if bool_decide (service = chars "config") then PlatformApi_GetApis (OwnClient (lookup_client_ c))
                  else ResourcesApi_GetApis (OwnClient (lookup_client_ c)) (ToString (catalog_ c)));
  match api_response with
  | inr e => mret (inr e)
  | inl (apis, expiration) =>
      (if looks_up options then PutToDiskCache (catalog_ c) apis expiration else mret tt);;
      let url := FindApi apis service service_version in
      if bool_decide (url = []) then mret (inr ServiceNotAvailable)
      else client ← CreateAndCacheClient url (ClientCacheKey service service_version) expiration; mret (inl client)
  end.

Definition LookupApi (c : ApiLookupClientImpl) (service service_version : str) (options : FetchOptions) : state W (ApiResponse OlpClient) :=
  let url := GetStaticUrl (catalog_ c) (lookup_settings_ c) service in
  if negb (bool_decide (url = [])) then mret (inl (OwnClient url))
  else if looks_up options then
    client ← GetCachedClient c service service_version;
    match client with
    | Some client => mret (inl client)
    | None => if bool_decide (options = CacheOnly) then mret (inr kCacheOnlyError) else lookup_online c service service_version options
    end
  else lookup_online c service service_version options.
End lookup.
