(* ===== verification/ReadApis.v ===== *)
(** * The requests of the reading library

    Model of src/generated/api of olp-cpp-sdk-dataservice-read: [ConfigApi], [MetadataApi],
    [QueryApi], [BlobApi] and [VolatileBlobApi].  A request is a call of a client with a
    path and parameters; its response is parsed, or an error of its status.  [None] is the
    undefined behaviour of a parser on a text of another model. *)

From S2P Require Import Prelude Hrn ProtectedKeyList Json ReadModels LruCache InMemoryCache DiskCache DefaultCache.
From S2P Require Import KeyValueCache KeyGenerator CacheRepositories Http World ApiLookup.
Import Network Response.

(** [ConcatStringArray] *)
Fixpoint concatStringArray (strings : list str) (delimiter : str) : str :=
  match strings with
  | [] => []
  | [s] => s
  | s :: strings => s ++ delimiter ++ concatStringArray strings delimiter
  end.

Definition billing_params (billing_tag : option str) : list (str * str) :=
  match billing_tag with Some tag => [(chars "billingTag", tag)] | None => [] end.
Definition fields_params (additional_fields : list str) : list (str * str) :=
  match additional_fields with [] => [] | _ => [(chars "additionalFields", concatStringArray additional_fields (chars ","))] end.
Definition version_params (version : option Z) : list (str * str) :=
  match version with Some v => [(chars "version", to_string_signed v)] | None => [] end.

Definition with_range (range : option str) (c : ApiCall) : ApiCall :=
  match range with
  | Some range => mkApiCall (call_path c) (call_method c) (query_params c) (header_params c ++ [(chars "Range", range)]) (post_body c) (content_type c)
  | None => c
  end.

(** *** The calls *)

Definition catalog_call (catalog_hrn : str) (billing_tag : option str) : ApiCall :=
  GetCall (match catalog_hrn with [] => [] | _ => chars "/catalogs/" ++ catalog_hrn end) (billing_params billing_tag).
Definition layer_versions_call (version : Z) (billing_tag : option str) : ApiCall :=
  GetCall (chars "/layerVersions") ((chars "version", to_string_signed version) :: billing_params billing_tag).
Definition partitions_call (layer_id : str) (version : option Z) (additional_fields : list str) (range billing_tag : option str) : ApiCall :=
  with_range range
    (GetCall (chars "/layers/" ++ layer_id ++ chars "/partitions")
       (fields_params additional_fields ++ billing_params billing_tag ++ version_params version)).
Definition latest_version_call (start_version : Z) (billing_tag : option str) : ApiCall :=
  GetCall (chars "/versions/latest") ((chars "startVersion", to_string_signed start_version) :: billing_params billing_tag).
Definition versions_call (start_version end_version : Z) (billing_tag : option str) : ApiCall :=
  GetCall (chars "/versions") ((chars "startVersion", to_string_signed start_version) :: (chars "endVersion", to_string_signed end_version) :: billing_params billing_tag).
Definition compatible_versions_call `{JsonText} (dependencies : list CatalogVersion) (limit : Z) : ApiCall :=
  mkApiCall (chars "/versions/compatibles") (chars "POST") [(chars "limit", to_string_signed limit)] kAcceptJson
    (Some (json_serialize (CatalogVersions_to_json dependencies))) (chars "application/json").
Definition partitions_by_id_call (layer_id : str) (partitions : list str) (version : option Z) (additional_fields : list str) (billing_tag : option str) : ApiCall :=
  GetCall (chars "/layers/" ++ layer_id ++ chars "/partitions")
    (((fun p => (chars "partition", p)) <$> partitions) ++ fields_params additional_fields ++ billing_params billing_tag ++ version_params version).
Definition quad_tree_call (layer_id quad_key : str) (version : option Z) (depth : Z) (additional_fields : list str) (billing_tag : option str) : ApiCall :=
  GetCall (chars "/layers/" ++ layer_id ++ (match version with Some v => chars "/versions/" ++ to_string_signed v | None => [] end) ++
           chars "/quadkeys/" ++ quad_key ++ chars "/depths/" ++ to_string_signed depth)
    (fields_params additional_fields ++ billing_params billing_tag).
Definition data_call (layer_id data_handle : str) (billing_tag range : option str) : ApiCall :=
  with_range range (GetCall (chars "/layers/" ++ layer_id ++ chars "/data/" ++ data_handle) (billing_params billing_tag)).

(** [model::Data], a pointer that may be null. *)
Abbreviation DataResult := (option str).

Section apis.
Context `{Models} {S N : Type} `{Online S N}.
Abbreviation W := (World S N).

Definition status_error (response : HttpResponse) : ApiError := ApiError_of_status (status response) (Response.response response).

(** The model of a response with status 200, or its error. *)
Definition model_of_response {T} `{FromJson T} (response : HttpResponse) : state W (ApiResponse T) :=
  if negb (status response =? 200) then mret (inr (status_error response))
  else lift (parse_result (Response.response response)).

Definition with_statistics {R} (response : HttpResponse) (r : ApiResponse R) : ExtendedResponse R := (r, network_statistics response).

Definition GetCatalog (client : OlpClient) (catalog_hrn : str) (billing_tag : option str) : state W (ApiResponse Catalog) :=
  response ← CallApi client (catalog_call catalog_hrn billing_tag);
  model_of_response response.

Definition GetLayerVersions (client : OlpClient) (version : Z) (billing_tag : option str) : state W (ApiResponse LayerVersions) :=
  response ← CallApi client (layer_versions_call version billing_tag);
  model_of_response response.

Definition GetPartitions (client : OlpClient) (layer_id : str) (version : option Z) (additional_fields : list str) (range billing_tag : option str)
  : state W (ExtendedResponse Partitions) :=
  response ← CallApi client (partitions_call layer_id version additional_fields range billing_tag);
  partitions_response ← model_of_response response;
  mret (with_statistics response partitions_response).

Definition GetPartitionsStream (client : OlpClient) (layer_id : str) (version : option Z) (additional_fields : list str) (range billing_tag : option str)
  : state W (HttpResponse * list (Z * str)) :=
  CallApiStream client (partitions_call layer_id version additional_fields range billing_tag).

Definition GetLatestCatalogVersion (client : OlpClient) (startVersion : Z) (billing_tag : option str) : state W (ApiResponse VersionResponse) :=
  response ← CallApi client (latest_version_call startVersion billing_tag);
  model_of_response response.

Definition ListVersions (client : OlpClient) (start_version end_version : Z) (billing_tag : option str) : state W (ApiResponse VersionInfos) :=
  response ← CallApi client (versions_call start_version end_version billing_tag);
  model_of_response response.

Definition GetCompatibleVersions (client : OlpClient) (dependencies : list CatalogVersion) (limit : Z) : state W (ApiResponse VersionsResponse) :=
  response ← CallApi client (compatible_versions_call dependencies limit);
  model_of_response response.

Definition GetPartitionsbyId (client : OlpClient) (layer_id : str) (partitions : list str) (version : option Z) (additional_fields : list str)
  (billing_tag : option str) : state W (ExtendedResponse Partitions) :=
  response ← CallApi client (partitions_by_id_call layer_id partitions version additional_fields billing_tag);
  partitions_response ← model_of_response response;
  mret (with_statistics response partitions_response).

Definition QuadTreeIndex_request (client : OlpClient) (layer_id quad_key : str) (version : option Z) (depth : Z) (additional_fields : list str)
  (billing_tag : option str) : state W HttpResponse :=
  CallApi client (quad_tree_call layer_id quad_key version depth additional_fields billing_tag).

Definition QuadTreeIndexVolatile (client : OlpClient) (layer_id quad_key : str) (depth : Z) (additional_fields : option (list str))
  (billing_tag : option str) : state W (ApiResponse Index) :=
  response ← CallApi client
    (GetCall (chars "/layers/" ++ layer_id ++ chars "/quadkeys/" ++ quad_key ++ chars "/depths/" ++ to_string_signed depth)
       ((match additional_fields with Some fields => [(chars "additionalFields", concatStringArray fields (chars ","))] | None => [] end) ++
        billing_params billing_tag));
  model_of_response response.

(** The data callback of [GetBlob], over its calls. *)
Definition blob_callback (buffer : str) (chunk : Z * str) : str :=
  let buffer := if chunk.1 =? 0 then [] else buffer in buffer ++ chunk.2.

Definition GetBlob (client : OlpClient) (layer_id : str) (partition : Partition) (billing_tag range : option str) : state W (ExtendedResponse DataResult) :=
  '(api_response, chunks) ← CallApiStream client (data_call layer_id (Partition_data_handle partition) billing_tag range);
  let buffer := foldl blob_callback [] chunks in
  mret (with_statistics api_response
          (if negb (status api_response =? 200) then inr (ApiError_of_status (status api_response) []) else inl (Some buffer))).

Definition GetVolatileBlob (client : OlpClient) (layer_id data_handle : str) (billing_tag : option str) : state W (ExtendedResponse DataResult) :=
  api_response ← CallApi client (data_call layer_id data_handle billing_tag None);
  mret (with_statistics api_response
          (if negb (status api_response =? 200) then inr (status_error api_response) else inl (Some (Response.response api_response)))).
End apis.

(** ** The data of a blob

    A download may be tried several times; every try calls the data callback with the
    bytes that it received so far as the offset. *)

(** The calls of one try that receives [parts]. *)
Fixpoint calls_from (offset : Z) (parts : list str) : list (Z * str) :=
  match parts with [] => [] | p :: parts => (offset, p) :: calls_from (offset + slen p) parts end.
Definition calls_of (parts : list str) : list (Z * str) := calls_from 0 parts.

Lemma blob_from offset parts buffer : 0 < offset -> Forall (fun p => p <> []) parts ->
  foldl blob_callback buffer (calls_from offset parts) = buffer ++ mjoin parts.
Proof.
  intros Ho Hp. revert offset buffer Ho. induction Hp as [|p parts Hp _ IH]; intros offset buffer Ho; cbn; [by rewrite app_nil_r|].
  unfold blob_callback at 2. cbn. replace (offset =? 0) with false by lia.
  rewrite IH by (unfold slen; lia). by rewrite <- app_assoc.
Qed.

Lemma blob_of_calls parts buffer : parts <> [] -> Forall (fun p => p <> []) parts ->
  foldl blob_callback buffer (calls_of parts) = mjoin parts.
Proof.
  intros Hne Hp. destruct Hp as [|p parts Hp0 Hp]; [done|]. cbn. rewrite blob_from; [done| |done].
  destruct p; [done|]. unfold slen. cbn. lia.
Qed.

Section blob.
Context `{Models} {S N : Type} `{Online S N}.

(** The data of a blob is what the last try received, whatever earlier tries left,
    when the last try received data. *)
Theorem GetBlob_last_try (client : OlpClient) layer partition tag range (w w' : World S N) response tries parts :
  CallApiStream client (data_call layer (Partition_data_handle partition) tag range) w =
    Some (w', (response, mjoin (calls_of <$> tries) ++ calls_of parts)) ->
  status response = 200 -> parts <> [] -> Forall (fun p => p <> []) parts ->
  GetBlob client layer partition tag range w = Some (w', (inl (Some (mjoin parts)), network_statistics response)).
Proof.
  intros E Hs Hne Hp. unfold GetBlob, mbind, state_bind. cbn. unfold mbind in E |- *. rewrite E. cbn.
  rewrite Hs, foldl_app, blob_of_calls by done. done.
Qed.
End blob.

Lemma GetBlob_last_try_witness :
  let online := simple_online (S := unit) (fun _ _ => response_of 200 [])
    (fun _ _ => (response_of 200 [], [(0, chars "wro"); (3, chars "ng"); (0, chars "da"); (2, chars "ta")])) in
  GetBlob (H0 := online) (OwnClient []) (chars "layer") initial None None (mkWorld tt ∅ tt) =
    Some (mkWorld tt ∅ tt, (inl (Some (chars "data")), mkStatistics 0 0)).
Proof.
  cbv zeta. refine (GetBlob_last_try (H0 := simple_online _ _) (OwnClient []) (chars "layer") initial None None _ _
    (response_of 200 []) [[chars "wro"; chars "ng"]] [chars "da"; chars "ta"] _ _ _ _).
  - reflexivity.
  - reflexivity.
  - discriminate.
  - by repeat constructor.
Defined.

(** A try that succeeds without data leaves what a failed one received. *)
Example GetBlob_keeps_failed_try :
  let online := simple_online (S := unit) (fun _ _ => response_of 200 []) (fun _ _ => (response_of 200 [], [(0, chars "part")])) in
  fst <$> (snd <$> GetBlob (H0 := online) (OwnClient []) (chars "layer") initial None None (mkWorld tt ∅ tt)) =
    Some (inl (Some (chars "part"))) /\
  mjoin (calls_of <$> [[chars "part"]]) ++ calls_of [] = [(0, chars "part")].
Proof. by split. Qed.
