(* ===== verification/Repositories.v ===== *)
(** * The repositories of the reading library

    Model of src/repositories/CatalogRepository.cpp, PartitionsRepository.cpp and
    DataRepository.cpp of olp-cpp-sdk-dataservice-read: each operation looks into the
    cache, asks a service and keeps the answer, as the fetch option of its request says.

    [None] is the undefined behaviour of a parser or of a read of an index, or an
    exception of the cache.  The hash of a list of partitions, which [boost::hash_combine]
    computes, is a parameter; only a name of a mutex depends on it. *)

From S2P Require Import Prelude TileKey Hrn ProtectedKeyList Json ReadModels LruCache InMemoryCache DiskCache DefaultCache.
From S2P Require Import QuadTreeIndex QuadTreeJson KeyValueCache KeyGenerator CacheRepositories Http World ApiLookup ReadApis.
Import Network Response.

(** ** Requests (include/olp/dataservice/read) *)

Record CatalogRequest := mkCatalogRequest {
  catalog_billing_tag : option str;
  catalog_fetch_option : FetchOptions }.

Record CatalogVersionRequest := mkCatalogVersionRequest {
  start_version_ : Z;
  version_billing_tag : option str;
  version_fetch_option : FetchOptions }.

Record VersionsRequest := mkVersionsRequest {
  versions_start : Z;
  versions_end : Z;
  versions_billing_tag : option str }.

Record CompatibleVersionsRequest := mkCompatibleVersionsRequest {
  dependencies_ : list CatalogVersion;
  limit_ : Z }.

Record PartitionsRequest := mkPartitionsRequest {
  partition_ids_ : list str;
  additional_fields_ : list str;
  partitions_billing_tag : option str;
  partitions_fetch_option : FetchOptions }.

Record DataRequest := mkDataRequest {
  partition_id_ : option str;
  data_handle_ : option str;
  data_billing_tag : option str;
  data_fetch_option : FetchOptions }.

Record TileRequest := mkTileRequest {
  tile_key_ : TileKey;
  tile_billing_tag : option str;
  tile_fetch_option : FetchOptions }.

Definition WithTileKey (t : TileKey) (r : TileRequest) : TileRequest := mkTileRequest t (tile_billing_tag r) (tile_fetch_option r).

(** [DataRequest::CreateKey] *)
Definition CreateKey (r : DataRequest) (layer_id : str) (version : option Z) : str :=
  layer_id ++ chars "[" ++ (match partition_id_ r, data_handle_ r with Some p, _ => p | None, Some h => h | None, None => [] end) ++ chars "]" ++
  (match version with Some v => chars "@" ++ to_string_signed v | None => [] end) ++
  (match data_billing_tag r with Some tag => chars "$" ++ tag | None => [] end) ++
  chars "^" ++ to_string (fetch_option_value (data_fetch_option r)).

Definition kDataSize : str := chars "dataSize".
Definition kChecksum : str := chars "checksum".
Definition kCompressedDataSize : str := chars "compressedDataSize".
Definition kCrc : str := chars "crc".

(** [OlpClientSettings] as far as the repositories use them. *)
Record ReadSettings := mkReadSettings {
  default_cache_expiration : Z;
  propagate_all_cache_errors : bool }.

(** What a repository is made of; the cache and the storage of mutexes are the world's. *)
Record RepositoryClient := mkRepositoryClient {
  client_catalog_ : HRN;
  settings_ : ReadSettings;
  lookup_client : ApiLookupClientImpl }.

Class Hashes := { hash_combine : Z -> str -> Z }.

(** ** Helpers of [PartitionsRepository] *)

Definition kAggregateQuadTreeDepth : Z := 4.
Definition kQueryRequestLimit : nat := 100.

Definition TtlForLayer (layers : list Layer) (layer_id : str) : ApiResponse (option Z) :=
  match list_find (fun layer => Layer_id layer = layer_id) layers with
  | None => inr (not_found "Layer specified doesn't exist")
  | Some (_, layer) => inl ((fun ttl => Z.quot ttl 1000) <$> Layer_ttl layer)
  end.

(** A member that is set when it is not the default of the index. *)
Definition nonempty (s : str) : option str := match s with [] => None | _ => Some s end.
Definition known_size (z : Z) : option Z := if z =? -1 then None else Some z.

Definition partition_of_index (index_data : IndexData) : Partition :=
  mkPartition (nonempty (checksum index_data)) (known_size (compressed_data_size index_data)) (data_handle index_data)
    (known_size (data_size index_data)) (nonempty (crc index_data)) (ToHereTile (tile_key index_data)) None.

Definition FindPartition (quad_tree : QuadTreeIndex) (request : TileRequest) (aggregated : bool) : option (option Partition) :=
  match QuadTreeIndex.Find quad_tree (tile_key_ request) aggregated with
  | Some found_index_data => Some (partition_of_index <$> found_index_data)
  | None => None
  end.

Definition HashPartitions `{Hashes} (partitions : list str) : str := to_string (foldl hash_combine 0 partitions).

Definition CheckAdditionalFields (additional_fields : list str) (cached_tree : QuadTreeIndex) : option bool :=
  let find_field field := bool_decide (field ∈ additional_fields) in
  index ← GetIndexData cached_tree All;
  Some (forallb (fun index_data =>
    negb (find_field kChecksum && bool_decide (checksum index_data = [])) &&
    negb (find_field kCrc && bool_decide (crc index_data = [])) &&
    negb (find_field kDataSize && (data_size index_data =? -1)) &&
    negb (find_field kCompressedDataSize && (compressed_data_size index_data =? -1))) index).

Definition empty_partition (handle id : str) : Partition := mkPartition None None handle None None id None.
Definition CreateNoContentPartitions (partition_ids : list str) : list Partition := empty_partition [] <$> partition_ids.

Definition is_none {A} (o : option A) : bool := match o with None => true | Some _ => false end.

Definition HasNoContent (p : Partition) : bool :=
  bool_decide (Partition_data_handle p = []) && is_none (Partition_data_size p) && is_none (Partition_compressed_data_size p) &&
  is_none (Partition_checksum p) && is_none (Partition_crc p) && is_none (Partition_version p).

Definition with_content (ps : list Partition) : list Partition := List.filter (fun p => negb (HasNoContent p)) ps.

Section repositories.
Context `{Models} {S N : Type} `{KeyValueCache S Model} `{Online S N} `{Hashes}.
Abbreviation W := (World S N).
Implicit Types (c : RepositoryClient).

Definition catalog_cache c : CatalogCacheRepository := CatalogCacheRepository_new (client_catalog_ c) (default_cache_expiration (settings_ c)).
Definition partitions_cache c (layer : str) : PartitionsCacheRepository :=
  PartitionsCacheRepository_new (client_catalog_ c) layer (default_cache_expiration (settings_ c)).
Definition data_cache c : DataCacheRepository := DataCacheRepository_new (client_catalog_ c) (default_cache_expiration (settings_ c)).

Definition is_forbidden (e : ApiError) : bool := http_status_code e =? 403.

(** ** [CatalogRepository] *)

(** What [GetCatalog] does when it has not answered from the cache. *)
Definition get_catalog_online c (request : CatalogRequest) : state W (ApiResponse Catalog) :=
  let fetch_options := catalog_fetch_option request in
  let catalog_str :=
    match catalog_endpoint_provider (lookup_settings_ (lookup_client c)) with Some _ => [] | None => ToCatalogHRNString (client_catalog_ c) end in
  config_api ← LookupApi (lookup_client c) (chars "config") (chars "v1") fetch_options;
  match config_api with
  | inr e => mret (inr e)
  | inl config_client =>
      catalog_response ← ReadApis.GetCatalog config_client catalog_str (catalog_billing_tag request);
      match catalog_response with
      | inl catalog =>
          (if negb (bool_decide (fetch_options = OnlineOnly)) then _ ← timed (fun now => Put_catalog (catalog_cache c) now catalog); mret tt
           else mret tt);;
          mret (inl catalog)
      | inr error =>
          (if is_forbidden error then _ ← cached (Clear_catalog (catalog_cache c)); mret tt else mret tt);;
          mret (inr error)
      end
  end.

Definition GetCatalog c (request : CatalogRequest) : state W (ApiResponse Catalog) :=
  let fetch_options := catalog_fetch_option request in
  if looks_up fetch_options then
    cached_catalog ← timed (fun now => Get_catalog (catalog_cache c) now);
    match cached_catalog with
    | Some catalog => mret (inl catalog)
    | None => if bool_decide (fetch_options = CacheOnly) then mret (inr kCacheOnlyError) else get_catalog_online c request
    end
  else get_catalog_online c request.

Definition GetLatestVersionOnline c (billing_tag : option str) : state W (ApiResponse VersionResponse) :=
  metadata_api ← LookupApi (lookup_client c) (chars "metadata") (chars "v1") OnlineIfNotFound;
  match metadata_api with
  | inr e => mret (inr e)
  | inl metadata_client => GetLatestCatalogVersion metadata_client (-1) billing_tag
  end.

(** The part of [GetLatestVersion] that uses the cached version. *)
Definition latest_version_with_cache c (request : CatalogVersionRequest) (version_response : ApiResponse VersionResponse)
  : state W (ApiResponse VersionResponse) :=
  let fetch_option := version_fetch_option request in
  cached_version ← timed (fun now => GetVersion (catalog_cache c) now);
  let user_set_version := start_version_ request in
  let version_response :=
    if bool_decide (fetch_option = CacheOnly) && (user_set_version >=? 0) &&
       match cached_version with Some v => user_set_version >? VersionResponse_version v | None => true end
    then inl (mkVersionResponse user_set_version) else version_response in
  match version_response with
  | inl new_version =>
      (if match cached_version with Some v => VersionResponse_version v <? VersionResponse_version new_version | None => true end
       then _ ← timed (fun now => PutVersion (catalog_cache c) now new_version); mret tt
       else mret tt);;
      mret version_response
  | inr _ => mret (match cached_version with Some v => inl v | None => version_response end)
  end.

Definition GetLatestVersion c (request : CatalogVersionRequest) : state W (ApiResponse VersionResponse) :=
  let fetch_option := version_fetch_option request in
  if bool_decide (fetch_option = CacheOnly) then latest_version_with_cache c request (inr (not_found "Failed to find version."))
  else
    version_response ← GetLatestVersionOnline c (version_billing_tag request);
    if bool_decide (fetch_option = OnlineOnly) then mret version_response
    else
      match version_response with
      | inr error =>
          if is_forbidden error then _ ← cached (Clear_catalog (catalog_cache c)); mret version_response
          else latest_version_with_cache c request version_response
      | inl _ => latest_version_with_cache c request version_response
      end.

Definition GetVersionsList c (request : VersionsRequest) : state W (ApiResponse VersionInfos) :=
  metadata_api ← LookupApi (lookup_client c) (chars "metadata") (chars "v1") OnlineOnly;
  match metadata_api with
  | inr e => mret (inr e)
  | inl metadata_client => ListVersions metadata_client (versions_start request) (versions_end request) (versions_billing_tag request)
  end.

Definition GetCompatibleVersions c (request : CompatibleVersionsRequest) : state W (ApiResponse VersionsResponse) :=
  metadata_api ← LookupApi (lookup_client c) (chars "metadata") (chars "v1") OnlineOnly;
  match metadata_api with
  | inr e => mret (inr e)
  | inl metadata_client => ReadApis.GetCompatibleVersions metadata_client (dependencies_ request) (limit_ request)
  end.
(** ** [PartitionsRepository] *)

Definition forbidden_clears (error : ApiError) (clear : state S bool) : state W unit :=
  if is_forbidden error then _ ← cached clear; mret tt else mret tt.

(** The loop of [QueryPartitionsInBatches]; [fuel] is the number of the ids left. *)
Fixpoint batches_loop (fuel : nat) (client : OlpClient) (layer : str) (partition_ids : list str) (version : option Z) (additional_fields : list str)
  (billing_tag : option str) (aggregated_partitions : list Partition) (statistics : NetworkStatistics) : state W (ExtendedResponse Partitions) :=
  match partition_ids, fuel with
  | [], _ => mret (inl (mkPartitions aggregated_partitions), statistics)
  | _, O => fails
  | _, Datatypes.S fuel =>
      let batch := take kQueryRequestLimit partition_ids in
      query_response ← GetPartitionsbyId client layer batch version additional_fields billing_tag;
      match query_response with
      | (inr e, _) => mret (without_statistics (inr e))
      | (inl partitions, payload) =>
          batches_loop fuel client layer (drop kQueryRequestLimit partition_ids) version additional_fields billing_tag
            (aggregated_partitions ++ Partitions_partitions partitions) (add_statistics statistics payload)
      end
  end.

Definition QueryPartitionsInBatches (client : OlpClient) (layer : str) (partition_ids : list str) (version : option Z) (additional_fields : list str)
  (billing_tag : option str) : state W (ExtendedResponse Partitions) :=
  batches_loop (length partition_ids) client layer partition_ids version additional_fields billing_tag [] NetworkStatistics_new.

(** What [GetPartitionsExtendedResponse] does when it has not answered from the cache. *)
Definition get_partitions_online c (layer : str) (request : PartitionsRequest) (version : option Z) (expiry : option Z) (fail_on_cache_error : bool)
  : state W (ExtendedResponse Partitions) :=
  let partition_ids := partition_ids_ request in
  let fetch_option := partitions_fetch_option request in
  let service := match partition_ids with [] => chars "metadata" | _ => chars "query" end in
  api ← LookupApi (lookup_client c) service (chars "v1") fetch_option;
  match api with
  | inr e => mret (without_statistics (inr e))
  | inl client =>
      response ←
        (match partition_ids with
         | [] => GetPartitions client layer version (additional_fields_ request) None (partitions_billing_tag request)
         | _ =>
             if (length partition_ids <=? kQueryRequestLimit)%nat then
               GetPartitionsbyId client layer partition_ids version (additional_fields_ request) (partitions_billing_tag request)
             else QueryPartitionsInBatches client layer partition_ids version (additional_fields_ request) (partitions_billing_tag request)
         end);
      match response with
      | (inl result, _) =>
          if bool_decide (fetch_option = OnlineOnly) then mret response
          else
            let partitions := match Partitions_partitions result with [] => CreateNoContentPartitions partition_ids | ps => ps end in
            put_result ← timed (fun now => Put_partitions (partitions_cache c layer) now partitions version expiry
                                             (match partition_ids with [] => true | _ => false end));
            mret (match put_result with
                  | inr e => if fail_on_cache_error then without_statistics (inr (ApiError_of_cache e)) else response
                  | inl _ => response
                  end)
      | (inr error, _) => forbidden_clears error (Clear_layer (partitions_cache c layer));; mret response
      end
  end.

Definition GetPartitionsExtendedResponse c (layer : str) (request : PartitionsRequest) (version : option Z) (expiry : option Z)
  (fail_on_cache_error : bool) : state W (ExtendedResponse Partitions) :=
  let fetch_option := partitions_fetch_option request in
  let partition_ids := partition_ids_ request in
  let detail := match partition_ids with [] => [] | _ => HashPartitions partition_ids end in
  let version_str := match version with Some v => to_string_signed v | None => [] end in
  with_mutex (ToCatalogHRNString (client_catalog_ c) ++ layer ++ version_str ++ detail) (locks fetch_option)
    (if looks_up fetch_option then
       cached_partitions ← timed (fun now => Get_request (partitions_cache c layer) now partition_ids version);
       match cached_partitions with
       | Some ps => mret (without_statistics (inl (mkPartitions (with_content ps))))
       | None =>
           if bool_decide (fetch_option = CacheOnly) then mret (without_statistics (inr kCacheOnlyError))
           else get_partitions_online c layer request version expiry fail_on_cache_error
       end
     else get_partitions_online c layer request version expiry fail_on_cache_error).

Definition GetVersionedPartitionsExtendedResponse c (layer : str) (request : PartitionsRequest) (version : Z) (fail_on_cache_error : bool)
  : state W (ExtendedResponse Partitions) :=
  GetPartitionsExtendedResponse c layer request (Some version) None fail_on_cache_error.

Definition GetVolatilePartitions c (layer : str) (request : PartitionsRequest) : state W (ExtendedResponse Partitions) :=
  catalog_response ← GetCatalog c (mkCatalogRequest (partitions_billing_tag request) (partitions_fetch_option request));
  match catalog_response with
  | inr e => mret (without_statistics (inr e))
  | inl catalog =>
      match TtlForLayer (Catalog_layers catalog) layer with
      | inr e => mret (without_statistics (inr e))
      | inl expiry => GetPartitionsExtendedResponse c layer request None expiry false
      end
  end.

(** What [GetPartitionById] does when it has not answered from the cache. *)
Definition get_partition_online c (layer partition_id : str) (request : DataRequest) (version : option Z) : state W (ExtendedResponse Partitions) :=
  let fetch_option := data_fetch_option request in
  query_api ← LookupApi (lookup_client c) (chars "query") (chars "v1") fetch_option;
  match query_api with
  | inr e => mret (without_statistics (inr e))
  | inl client =>
      query_response ← GetPartitionsbyId client layer [partition_id] version [] (data_billing_tag request);
      match query_response with
      | (inl result, _) =>
          (if bool_decide (fetch_option = OnlineOnly) then mret tt
           else
             let partitions := match Partitions_partitions result with [] => CreateNoContentPartitions [partition_id] | ps => ps end in
             _ ← timed (fun now => Put_partitions (partitions_cache c layer) now partitions version None false); mret tt);;
          mret query_response
      | (inr error, _) =>
          (if is_forbidden error then _ ← timed (fun now => ClearPartitions (partitions_cache c layer) now [partition_id] version); mret tt
           else mret tt);;
          mret query_response
      end
  end.

Definition GetPartitionById c (layer : str) (request : DataRequest) (version : option Z) : state W (ExtendedResponse Partitions) :=
  match partition_id_ request with
  | None => mret (without_statistics (inr (ApiError_of_code PreconditionFailed (chars "Partition Id is missing") false)))
  | Some partition_id =>
      let fetch_option := data_fetch_option request in
      with_mutex (ToString (client_catalog_ c) ++ CreateKey request layer version) (locks fetch_option)
        (if looks_up fetch_option then
           cached_partitions ← timed (fun now => Get_partitions (partitions_cache c layer) now [partition_id] version);
           if (length cached_partitions =? 1)%nat then mret (without_statistics (inl (mkPartitions (with_content cached_partitions))))
           else if bool_decide (fetch_option = CacheOnly) then mret (without_statistics (inr kCacheOnlyError))
           else get_partition_online c layer partition_id request version
         else get_partition_online c layer partition_id request version)
  end.

Definition PartitionFromSubQuad (sub_quad : SubQuad) (partition : str) : Partition :=
  mkPartition (SubQuad_checksum sub_quad) (SubQuad_compressed_data_size sub_quad) (SubQuad_data_handle sub_quad) (SubQuad_data_size sub_quad)
    None partition (Some (SubQuad_version sub_quad)).

(** *** Quad trees *)

Definition default_additional_fields : list str := [kChecksum; kCrc; kDataSize; kCompressedDataSize].

(** The request for the tree of a root. *)
Definition get_quad_tree_online c (layer : str) (root_tile_key : TileKey) (request : TileRequest) (version : option Z) : state W (ExtendedResponse QuadTreeIndex) :=
  let fetch_option := tile_fetch_option request in
  query_api ← LookupApi (lookup_client c) (chars "query") (chars "v1") fetch_option;
  match query_api with
  | inr e => mret (without_statistics (inr e))
  | inl client =>
      quadtree_response ← QuadTreeIndex_request client layer (ToHereTile root_tile_key) version kAggregateQuadTreeDepth default_additional_fields
                            (tile_billing_tag request);
      if negb (status quadtree_response =? 200) then mret (with_statistics quadtree_response (inr (status_error quadtree_response)))
      else
        tree ← lift (QuadTreeIndex_parse root_tile_key kAggregateQuadTreeDepth (Response.response quadtree_response));
        match tree with
        | None =>
            mret (with_statistics quadtree_response (inr (ApiError_of_code Unknown (chars "Failed to parse quad tree response") false)))
        | Some tree =>
            (if bool_decide (fetch_option = OnlineOnly) then mret tt
             else _ ← timed (fun now => Put_tree (partitions_cache c layer) now root_tile_key kAggregateQuadTreeDepth (Some tree) version); mret tt);;
            mret (with_statistics quadtree_response (inl tree))
        end
  end.

Definition GetQuadTreeIndexForTile c (layer : str) (request : TileRequest) (version : option Z) (required_fields : list str)
  : state W (ExtendedResponse QuadTreeIndex) :=
  let fetch_option := tile_fetch_option request in
  let root_tile_key := ChangedLevelBy (tile_key_ request) (- kAggregateQuadTreeDepth) in
  let quad_cache_key :=
    CreateQuadTreeKey (ToCatalogHRNString (client_catalog_ c)) layer root_tile_key version kAggregateQuadTreeDepth in
  let online := get_quad_tree_online c layer root_tile_key request version in
  with_mutex quad_cache_key (locks fetch_option)
    (if looks_up fetch_option then
       cached_tree ← timed (fun now => FindQuadTree (partitions_cache c layer) now (tile_key_ request) version);
       match cached_tree with
       | Some cached_tree =>
           complete ← lift (CheckAdditionalFields required_fields cached_tree);
           if complete : bool then mret (without_statistics (inl cached_tree)) else online
       | None => if bool_decide (fetch_option = CacheOnly) then mret (without_statistics (inr kCacheOnlyError)) else online
       end
     else online).

Definition kTileNotFound : ApiError := not_found "Tile or its closest ancestors not found".

(** The result of [GetTile] and of [GetAggregatedTile]: the tile of [request] in the tree. *)
Definition tile_of_tree (tree : QuadTreeIndex) (payload : NetworkStatistics) (request : TileRequest) (aggregated : bool) : state W (ExtendedResponse Partition) :=
  partition ← lift (FindPartition tree request aggregated);
  mret (match partition with Some partition => inl partition | None => inr kTileNotFound end, payload).

(** The loop of [GetAggregatedTile] up to the tree of the found tile, with the request it
    leaves; 32 levels are enough. *)
Fixpoint aggregated_loop (fuel : nat) c (layer : str) (version : option Z) (root aggregated_tile_key : TileKey) (request : TileRequest)
  : state W TileRequest :=
  if level_ root >? level_ aggregated_tile_key then
    match fuel with
    | O => fails
    | Datatypes.S fuel =>
        let parent := Parent root in
        let request := WithTileKey parent request in
        _ ← GetQuadTreeIndexForTile c layer request version [];
        aggregated_loop fuel c layer version (ChangedLevelBy parent (- kAggregateQuadTreeDepth)) aggregated_tile_key request
    end
  else mret request.

Definition GetAggregatedTile c (layer : str) (request : TileRequest) (version : option Z) : state W (ExtendedResponse Partition) :=
  quad_tree_response ← GetQuadTreeIndexForTile c layer request version [];
  match quad_tree_response with
  | (inr e, payload) => mret (inr e, payload)
  | (inl result, payload) =>
      request ←
        (if bool_decide (tile_fetch_option request = CacheOnly) then mret request
         else
           index_data ← lift (QuadTreeIndex.Find result (tile_key_ request) true);
           match index_data with
           | Some index_data => aggregated_loop 32 c layer version (GetRootTile result) (tile_key index_data) request
           | None => mret request
           end);
      tile_of_tree result payload request true
  end.

Definition GetTile c (layer : str) (request : TileRequest) (version : option Z) (required_fields : list str) : state W (ExtendedResponse Partition) :=
  quad_tree_response ← GetQuadTreeIndexForTile c layer request version required_fields;
  match quad_tree_response with
  | (inr e, payload) => mret (inr e, payload)
  | (inl result, payload) => tile_of_tree result payload request false
  end.

(** ** [DataRepository] *)

Definition kBlobService : str := chars "blob".
Definition kVolatileBlobService : str := chars "volatile-blob".

(** What [GetBlobData] does under the lock when it has not answered from the cache. *)
Definition get_blob_online c (layer service : str) (partition : Partition) (fetch_option : FetchOptions) (billing_tag : option str)
  (fail_on_cache_error : bool) (mutex : str) : state W (ExtendedResponse DataResult) :=
  let data_handle := Partition_data_handle partition in
  optional_error ← mutex_get_error mutex;
  match optional_error with
  | Some e => mret (without_statistics (inr e))
  | None =>
      storage_api_lookup ← LookupApi (lookup_client c) service (chars "v1") fetch_option;
      match storage_api_lookup with
      | inr e => mutex_set_error mutex e;; mret (without_statistics (inr e))
      | inl client =>
          storage_response ←
            (if bool_decide (service = kBlobService) then GetBlob client layer partition billing_tag None
             else
               (* the result of a response is moved out of it whether it is a success or not *)
               volatile_blob ← GetVolatileBlob client layer data_handle billing_tag;
               mret (without_statistics (inl (match fst volatile_blob with inl data => data | inr _ => None end))));
          match storage_response with
          | (inl data, _) =>
              if bool_decide (fetch_option = OnlineOnly) then mret storage_response
              else
                put_result ← timed (fun now => Put_data (data_cache c) now data layer data_handle);
                mret (match put_result with
                      | inr e => if fail_on_cache_error then without_statistics (inr (ApiError_of_cache e)) else storage_response
                      | inl _ => storage_response
                      end)
          | (inr error, _) =>
              (if is_forbidden error then _ ← cached (Clear_data (data_cache c) layer data_handle); mret tt else mret tt);;
              mutex_set_error mutex error;;
              mret storage_response
          end
      end
  end.

Definition GetBlobData c (layer service : str) (partition : Partition) (fetch_option : FetchOptions) (billing_tag : option str)
  (fail_on_cache_error : bool) : state W (ExtendedResponse DataResult) :=
  let data_handle := Partition_data_handle partition in
  match data_handle with
  | [] => mret (without_statistics (inr (ApiError_of_code PreconditionFailed (chars "Data handle is missing") false)))
  | _ =>
      let mutex := ToString (client_catalog_ c) ++ layer ++ data_handle in
      let online := get_blob_online c layer service partition fetch_option billing_tag fail_on_cache_error mutex in
      with_mutex mutex (locks fetch_option)
        (if looks_up fetch_option then
           cached_data ← timed (fun now => Get_data (data_cache c) now layer data_handle);
           match cached_data with
           | Some data => mret (without_statistics (inl (Some data)))
           | None => if bool_decide (fetch_option = CacheOnly) then mret (without_statistics (inr kCacheOnlyError)) else online
           end
         else online)
  end.

Definition add_payload {R} (statistics : NetworkStatistics) (r : ExtendedResponse R) : ExtendedResponse R :=
  (fst r, add_statistics statistics (snd r)).

Definition GetVersionedTile c (layer : str) (request : TileRequest) (version : Z) : state W (ExtendedResponse DataResult) :=
  response ← GetTile c layer request (Some version) [];
  match response with
  | (inr e, network_statistics) => mret (inr e, network_statistics)
  | (inl partition, network_statistics) =>
      data_response ← GetBlobData c layer kBlobService partition (tile_fetch_option request) (tile_billing_tag request)
                        (propagate_all_cache_errors (settings_ c));
      mret (add_payload network_statistics data_response)
  end.

Definition kBothSpecified : ApiError := ApiError_of_code PreconditionFailed (chars "Both data handle and partition id specified") false.
Definition kPartitionIsEmpty : ApiError := ApiError_of_code NoContent (chars "Partition is empty") false.

Definition GetVersionedData c (layer : str) (request : DataRequest) (version : Z) (fail_on_cache_error : bool) : state W (ExtendedResponse DataResult) :=
  let get_data partition network_statistics :=
    data_response ← GetBlobData c layer kBlobService partition (data_fetch_option request) (data_billing_tag request) fail_on_cache_error;
    mret (add_payload network_statistics data_response) in
  match data_handle_ request, partition_id_ request with
  | Some _, Some _ => mret (without_statistics (inr kBothSpecified))
  | Some handle, None => get_data (empty_partition handle []) NetworkStatistics_new
  | None, _ =>
      partitions_response ← GetPartitionById c layer request (Some version);
      match partitions_response with
      | (inr e, network_statistics) => mret (inr e, network_statistics)
      | (inl result, network_statistics) =>
          match Partitions_partitions result with
          | [] => mret (inr kPartitionIsEmpty, network_statistics)
          | partition :: _ => get_data partition network_statistics
          end
      end
  end.

Definition GetVolatileData c (layer : str) (request : DataRequest) (fail_on_cache_error : bool) : state W (ExtendedResponse DataResult) :=
  let get_data partition :=
    GetBlobData c layer kVolatileBlobService partition (data_fetch_option request) (data_billing_tag request) fail_on_cache_error in
  match data_handle_ request, partition_id_ request with
  | Some _, Some _ => mret (without_statistics (inr kBothSpecified))
  | Some handle, None => get_data (empty_partition handle [])
  | None, _ =>
      partitions_response ← GetPartitionById c layer request None;
      match partitions_response with
      | (inr e, _) => mret (without_statistics (inr e))
      | (inl result, _) =>
          match Partitions_partitions result with
          | [] => mret (without_statistics (inr kPartitionIsEmpty))
          | partition :: _ => get_data partition
          end
      end
  end.
End repositories.
