(* ===== verification/RepositoryProperties.v ===== *)
(** * What the repositories promise

    Theorems about Repositories.v: what the fetch options mean, how lists of partitions
    are queried, the tile that an aggregated request finds, and the failures of volatile
    layers. *)

From S2P Require Import Prelude TileKey QuadTreeIndex QuadTreeJson Hrn Json ReadModels LruCache InMemoryCache ProtectedKeyList DiskCache DefaultCache.
From S2P Require Import DefaultCacheOperations KeyValueCache KeyGenerator CacheRepositories Http World ApiLookup ReadApis Repositories.
Import Network Response.

(** ** The option to stay offline *)

Section offline.
Context `{Models} {S N : Type} `{KeyValueCache S Model} `{Hashes}.

(** Two outsides with the same clock and the same storage of mutexes. *)
Record agree (O1 O2 : Online S N) : Prop := {
  agree_clock : same (system_clock (Online := O1)) (system_clock (Online := O2));
  agree_steady : same (steady_clock (Online := O1)) (steady_clock (Online := O2));
  agree_open name : same (mutex_open (Online := O1) name) (mutex_open (Online := O2) name);
  agree_close name : same (mutex_close (Online := O1) name) (mutex_close (Online := O2) name) }.

Context (O1 O2 : Online S N) (Hagree : agree O1 O2).

Lemma same_timed {A} (m : Z -> state S A) : same (timed (H := O1) m) (timed (H := O2) m).
Proof. apply same_bind_l; [apply Hagree|done]. Qed.

Lemma same_mutex {A} name (m1 m2 : state (World S N) A) : same m1 m2 ->
  same (with_mutex (H := O1) name false m1) (with_mutex (H := O2) name false m2).
Proof.
  intros Hm. unfold with_mutex. apply same_bind_l; [apply Hagree|intros _]. apply same_bind_l; [done|intros _].
  apply same_bind_l; [done|intros a]. apply same_bind_l; [done|intros _]. apply same_bind_l; [apply Hagree|done].
Qed.

Ltac same_step :=
  first
    [ apply same_mutex | apply same_timed
    | apply same_bind_l; [|intros ?]
    | match goal with |- same (match ?x with _ => _ end) _ => destruct x end
    | reflexivity ].

Ltac cache_only E :=
  rewrite ?E; change (looks_up CacheOnly) with true; change (locks CacheOnly) with false;
  change (bool_decide (CacheOnly = CacheOnly)) with true; change (bool_decide (CacheOnly = OnlineOnly)) with false; cbv iota.

Lemma same_GetCatalog c request : catalog_fetch_option request = CacheOnly -> same (GetCatalog (H1 := O1) c request) (GetCatalog (H1 := O2) c request).
Proof. intros E. unfold GetCatalog. cache_only E. repeat same_step. Qed.

Lemma same_GetLatestVersion c request : version_fetch_option request = CacheOnly ->
  same (GetLatestVersion (H1 := O1) c request) (GetLatestVersion (H1 := O2) c request).
Proof. intros E. unfold GetLatestVersion, latest_version_with_cache. cache_only E. repeat same_step. Qed.

Lemma same_GetPartitions c layer request version expiry fail : partitions_fetch_option request = CacheOnly ->
  same (GetPartitionsExtendedResponse (H1 := O1) c layer request version expiry fail)
    (GetPartitionsExtendedResponse (H1 := O2) c layer request version expiry fail).
Proof. intros E. unfold GetPartitionsExtendedResponse. cache_only E. repeat same_step. Qed.

Lemma same_GetPartitionById c layer request version : data_fetch_option request = CacheOnly ->
  same (GetPartitionById (H1 := O1) c layer request version) (GetPartitionById (H1 := O2) c layer request version).
Proof. intros E. unfold GetPartitionById. cache_only E. repeat same_step. Qed.

Lemma same_GetQuadTree c layer request version : tile_fetch_option request = CacheOnly ->
  same (GetQuadTreeIndexForTile (H1 := O1) c layer request version []) (GetQuadTreeIndexForTile (H1 := O2) c layer request version []).
Proof.
  intros E. unfold GetQuadTreeIndexForTile. cache_only E. apply same_mutex, same_bind_l; [apply same_timed|intros [q|]; [|done]].
  unfold CheckAdditionalFields. intros w. unfold mbind, state_bind, lift, mbind, option_bind.
  destruct (GetIndexData q All) as [l|]; [|done]. replace (forallb _ l) with true; [done|]. symmetry. apply forallb_forall.
  intros d _. cbn. by rewrite !bool_decide_eq_false_2 by apply not_elem_of_nil.
Qed.

Lemma same_GetTile c layer request version : tile_fetch_option request = CacheOnly ->
  same (GetTile (H1 := O1) c layer request version []) (GetTile (H1 := O2) c layer request version []).
Proof. intros E. unfold GetTile. apply same_bind_l; [by apply same_GetQuadTree|]. intros [[] ?]; reflexivity. Qed.

Lemma same_GetAggregatedTile c layer request version : tile_fetch_option request = CacheOnly ->
  same (GetAggregatedTile (H1 := O1) c layer request version) (GetAggregatedTile (H1 := O2) c layer request version).
Proof.
  intros E. unfold GetAggregatedTile. apply same_bind_l; [by apply same_GetQuadTree|]. intros [[] ?]; [|done]. cache_only E.
  repeat same_step.
Qed.

Lemma same_GetBlobData c layer service partition option tag fail : option = CacheOnly ->
  same (GetBlobData (H1 := O1) c layer service partition option tag fail) (GetBlobData (H1 := O2) c layer service partition option tag fail).
Proof. intros E. unfold GetBlobData. destruct (Partition_data_handle partition); [done|]. cache_only E. repeat same_step. Qed.

(** C16: a request with the option to use the cache only never asks a service, nor locks
    a mutex: what it answers and what it leaves is the same whatever the outside is, for
    catalogs, versions, partitions and data of versioned and volatile layers, for the data
    of a tile and for an aggregated tile.  Not so for the index of a tile with fields that
    the cached tree may lack, which the client asks for in QuadTreeIndex (checksum, crc and
    data size): the tree is then requested all the same (CacheOnly_goes_online). *)
Theorem CacheOnly_stays_offline c layer :
  (forall r, catalog_fetch_option r = CacheOnly -> same (GetCatalog (H1 := O1) c r) (GetCatalog (H1 := O2) c r)) /\
  (forall r, version_fetch_option r = CacheOnly -> same (GetLatestVersion (H1 := O1) c r) (GetLatestVersion (H1 := O2) c r)) /\
  (forall r v e f, partitions_fetch_option r = CacheOnly ->
     same (GetPartitionsExtendedResponse (H1 := O1) c layer r v e f) (GetPartitionsExtendedResponse (H1 := O2) c layer r v e f)) /\
  (forall r, partitions_fetch_option r = CacheOnly -> same (GetVolatilePartitions (H1 := O1) c layer r) (GetVolatilePartitions (H1 := O2) c layer r)) /\
  (forall r v, tile_fetch_option r = CacheOnly -> same (GetAggregatedTile (H1 := O1) c layer r v) (GetAggregatedTile (H1 := O2) c layer r v)) /\
  (forall r v, tile_fetch_option r = CacheOnly -> same (GetVersionedTile (H1 := O1) c layer r v) (GetVersionedTile (H1 := O2) c layer r v)) /\
  (forall r v f, data_fetch_option r = CacheOnly ->
     same (GetVersionedData (H1 := O1) c layer r v f) (GetVersionedData (H1 := O2) c layer r v f)) /\
  (forall r f, data_fetch_option r = CacheOnly -> same (GetVolatileData (H1 := O1) c layer r f) (GetVolatileData (H1 := O2) c layer r f)).
Proof.
  split_and!; intros.
  - by apply same_GetCatalog.
  - by apply same_GetLatestVersion.
  - by apply same_GetPartitions.
  - unfold GetVolatilePartitions. apply same_bind_l; [by apply same_GetCatalog|]. intros [catalog|e]; [|done].
    destruct (TtlForLayer _ _); [by apply same_GetPartitions|done].
  - by apply same_GetAggregatedTile.
  - unfold GetVersionedTile. apply same_bind_l; [by apply same_GetTile|]. intros [[p|e] st]; [|done].
    apply same_bind_l; [by apply same_GetBlobData|done].
  - unfold GetVersionedData. destruct (data_handle_ r), (partition_id_ r); try done;
      try (apply same_bind_l; [by apply same_GetBlobData|done]);
      (apply same_bind_l; [by apply same_GetPartitionById|]; intros [[ps|e] st]; [|done]; destruct (Partitions_partitions ps); [done|];
       apply same_bind_l; [by apply same_GetBlobData|done]).
  - unfold GetVolatileData. destruct (data_handle_ r), (partition_id_ r); try done; try (by apply same_GetBlobData);
      (apply same_bind_l; [by apply same_GetPartitionById|]; intros [[ps|e] st]; [|done]; destruct (Partitions_partitions ps); [done|];
       by apply same_GetBlobData).
Qed.
End offline.

(** ** Volatile data that could not be downloaded *)

Section volatile.
Context `{Models} {S : Type} `{KeyValueCache S Model} `{Hashes}.
Context (serve : key -> ApiCall -> HttpResponse) (stream : key -> ApiCall -> HttpResponse * list (Z * str)).
#[local] Instance served : Online S unit := simple_online serve stream.

Lemma call_served url call (w : World S unit) : CallApi (OwnClient url) call w = Some (w, serve url call).
Proof. done. Qed.

Lemma refused_blob url layer d tag w : status (serve url (data_call layer d tag None)) <> 200 ->
  exists e st, GetVolatileBlob (OwnClient url) layer d tag w = Some (w, (inr e, st)).
Proof.
  intros Hs. unfold GetVolatileBlob. eexists _, _. eapply run_bind; [apply call_served|].
  apply Z.eqb_neq in Hs. rewrite Hs. reflexivity.
Qed.

(** C40: a volatile layer answers a request for data that the service refused with a
    success without data: the result is moved out of the response of [GetVolatileBlob]
    whether it is one or not, so that the error, its status and the statistics of the
    call are lost. *)
Theorem volatile_failure_lost (c : RepositoryClient) layer d tag fail (w : World S unit) :
  let url := GetStaticUrl (catalog_ (lookup_client c)) (lookup_settings_ (lookup_client c)) kVolatileBlobService in
  url <> [] -> d <> [] -> status (serve url (data_call layer d tag None)) <> 200 ->
  GetVolatileData c layer (mkDataRequest None (Some d) tag OnlineOnly) fail w = Some (w, (inl None, NetworkStatistics_new)).
Proof.
  intros url Hu Hd Hs. unfold GetVolatileData. cbn [data_handle_ partition_id_ data_fetch_option data_billing_tag]. unfold GetBlobData.
  cbn [Partition_data_handle empty_partition]. destruct d as [|a d]; [done|].
  destruct (refused_blob url layer (a :: d) tag w Hs) as (e & st & E).
  assert (Eo : forall mutex, get_blob_online c layer kVolatileBlobService (empty_partition (a :: d) []) OnlineOnly tag fail mutex w =
    Some (w, (inl None, NetworkStatistics_new))).
  { intros mutex. unfold get_blob_online. eapply run_bind; [reflexivity|]. cbv iota. eapply run_bind.
    { unfold LookupApi. fold url. rewrite bool_decide_eq_false_2 by done. reflexivity. }
    cbv iota. eapply run_bind; [eapply run_bind; [exact E|reflexivity]|]. reflexivity. }
  unfold with_mutex. eapply run_bind; [reflexivity|]. eapply run_bind; [reflexivity|].
  eapply run_bind; [apply Eo|]. reflexivity.
Qed.
End volatile.

(** ** Long lists of partitions *)

Section batches.
Context `{Models} {S N : Type} `{KeyValueCache S Model} `{Online S N}.
Context (I : World S N -> Prop) (client : OlpClient) (layer : str) (version : option Z) (fields : list str) (tag : option str).
Context (content : str -> option Partition).

(** The answer of the service for the ids, or an error. *)
Definition batch_answer (ids : list str) (r : ExtendedResponse Partitions) : Prop :=
  match r.1 with inl ps => Partitions_partitions ps = omap content ids | inr _ => True end.

Lemma gives_batches_loop fuel : (forall batch, batch <> [] -> (length batch <= kQueryRequestLimit)%nat ->
    gives I (GetPartitionsbyId client layer batch version fields tag) (batch_answer batch)) ->
  forall ids acc st, (length ids <= fuel)%nat ->
  gives I (batches_loop fuel client layer ids version fields tag acc st)
    (fun r => match r.1 with inl ps => Partitions_partitions ps = acc ++ omap content ids | inr _ => True end).
Proof.
  intros Hb. induction fuel as [|fuel IH]; intros ids acc st Hf; destruct ids as [|id ids]; cbn [batches_loop];
    try (apply gives_ret; cbn; by rewrite app_nil_r); [cbn in Hf; lia|].
  assert (Hlen : (0 < length (id :: ids))%nat) by (cbn; lia).
  remember (id :: ids) as all eqn:Eall. eapply gives_bind; [apply Hb|].
  - intros E%(f_equal length). rewrite length_take in E. unfold kQueryRequestLimit in E. cbn [length] in E. lia.
  - rewrite length_take. lia.
  - intros [[ps|e] st'] Hr; [|by apply gives_ret]. eapply gives_mono; [apply IH|].
    + rewrite length_drop. unfold kQueryRequestLimit. lia.
    + intros [[ps'|e] st''] Hr'; [|done]. cbn in Hr, Hr' |- *. unfold batch_answer in Hr. cbn in Hr.
      rewrite Hr', Hr, <- app_assoc, <- omap_app. by rewrite take_drop.
Qed.

(** a list of partitions of whatever length is queried in batches of at most a
    hundred ids, and the answer is the one that the service would give for the whole list,
    in its order, or an error; the loop ends. *)
Theorem batches_transparent ids (w : World S N) :
  (forall batch, batch <> [] -> (length batch <= kQueryRequestLimit)%nat ->
    gives I (GetPartitionsbyId client layer batch version fields tag) (batch_answer batch)) -> I w ->
  exists w' r st, QueryPartitionsInBatches client layer ids version fields tag w = Some (w', (r, st)) /\ I w' /\
    match r with inl ps => Partitions_partitions ps = omap content ids | inr _ => True end.
Proof.
  intros Hb Hw. destruct (gives_batches_loop (length ids) Hb ids [] NetworkStatistics_new (le_n _) w Hw) as (w' & [r st] & E & Hw' & Hr).
  by exists w', r, st.
Qed.
End batches.

(** ** Concrete inputs *)

Module repositories_sample.
Import layer_sample.

Definition settings : ApiLookupSettings := mkLookupSettings DefaultLookupEndpointProvider (Some (fun _ => chars "https://data.here.com")).
Definition client : RepositoryClient := mkRepositoryClient hrn (mkReadSettings 3600 false) (ApiLookupClientImpl_new hrn settings).

Definition answers (code : Z) (body : string) : Online Cache unit :=
  simple_online (fun _ _ => response_of code (chars body)) (fun _ _ => (response_of code [], [])).

#[export] Instance hashes : Hashes := {| hash_combine seed s := seed + slen s |}.

Lemma answers_agree c1 b1 c2 b2 : agree (answers c1 b1) (answers c2 b2).
Proof. by split. Qed.
End repositories_sample.

Import layer_sample repositories_sample.

Lemma CacheOnly_stays_offline_witness :
  let request := mkDataRequest (Some (chars "a")) None None CacheOnly in
  same
    (GetVersionedData (H1 := answers 200 "{}") client (chars "layer") request 7 false)
    (GetVersionedData (H1 := answers 500 "") client (chars "layer") request 7 false).
Proof.
  cbv zeta.
  apply (CacheOnly_stays_offline (answers 200 "{}") (answers 500 "")
    (answers_agree 200 "{}" 500 "") client (chars "layer")).
  reflexivity.
Defined.

Lemma volatile_failure_lost_witness :
  let request := mkDataRequest None (Some (chars "handle")) None OnlineOnly in
  GetVolatileData (H1 := answers 503 "unavailable") client (chars "layer") request false (mkWorld fresh ∅ tt) =
    Some (mkWorld fresh ∅ tt, (inl None, NetworkStatistics_new)).
Proof.
  cbv zeta. apply (volatile_failure_lost (fun _ _ => response_of 503 (chars "unavailable")) (fun _ _ => (response_of 503 [], [])) client).
  - vm_compute. congruence.
  - discriminate.
  - discriminate.
Defined.

(** A service that has no partitions. *)
Lemma batches_transparent_witness :
  let empty := serialize_text (mkPartitions []) in
  let ids := replicate 150 (chars "id") in
  exists w' r st, QueryPartitionsInBatches (H1 := simple_online (fun _ _ => response_of 200 empty) (fun _ _ => (response_of 200 [], [])))
      (OwnClient []) (chars "layer") ids None [] None (mkWorld fresh ∅ tt : World Cache unit) = Some (w', (r, st)) /\ True /\
    match r with inl ps => Partitions_partitions ps = omap (fun _ => None) ids | inr _ => True end.
Proof.
  cbv zeta. refine (batches_transparent (H1 := simple_online _ _) (fun _ => True) (OwnClient []) (chars "layer") None [] None (fun _ => None)
    (replicate 150 (chars "id")) (mkWorld fresh ∅ tt) _ I).
  intros batch _ _ w _. exists w, (inl (mkPartitions []), mkStatistics 0 (Z.of_nat (length (serialize_text (mkPartitions []))))).
  split; [|split; [done|]].
  - unfold GetPartitionsbyId. eapply run_bind; [reflexivity|]. eapply run_bind; [|reflexivity]. unfold model_of_response. cbn [status response_of].
    cbn [negb Z.eqb Pos.eqb]. unfold parse_result. cbn [Response.response response_of]. rewrite (parse_serialize_text (mkPartitions [])); [reflexivity|].
    sample_json.
  - unfold batch_answer. cbn. induction batch; done.
Defined.
