(* ===== verification/ReadIntegrity.v ===== *)
(** * The data of a partition

    What a versioned layer client answers for a partition is data of that partition: for
    a cache that holds whatever earlier requests and other threads left, any clients of
    services that are kept, any fetch option and any URL of the services, as long as the
    services are honest about the layer. *)

From stdpp Require Import sorting.
From S2P Require Import Prelude TileKey QuadTreeIndex QuadTreeJson Hrn Json ReadModels LruCache InMemoryCache ProtectedKeyList DiskCache DefaultCache.
From S2P Require Import DefaultCacheInvariant DefaultCacheOperations KeyValueCache KeyGenerator CacheRepositories.
From S2P Require Import Http World ApiLookup ReadApis Repositories.
Import Network Response.

(** ** The numbers of the lookup *)

Lemma stoi_range s z : stoi s = Some z -> - 2^31 <= z < 2^31.
Proof.
  unfold stoi. destruct (stoll s) as [n|]; [|done]. cbn.
  destruct (Z.leb_spec (- 2^31) n), (Z.ltb_spec n (2^31)); cbn; try done. intros [= <-]. lia.
Qed.

Lemma GetExpiry_range h e : GetExpiry h = Some (Some e) -> - 2^31 <= e < 2^31.
Proof.
  unfold GetExpiry. destruct (list_find _ h) as [[i [k v]]|]; [|done]. destruct (CaseInsensitiveFind _ _); [|done]. cbn.
  destruct (stoi _) as [z|] eqn:E; [|done]. intros [= <-]. by eapply stoi_range.
Qed.

(** ** The nearest tile of a tree *)

(** Searching for a tile between the tile and what was found for it finds the same. *)
Lemma answers_between data t t' x r : Forall (fun d => valid (tile_key d)) data -> NoDup (tile_key <$> data) ->
  answers data t true (Some x) -> above (tile_key x) t' -> above t' t -> answers data t' true r -> r = Some x.
Proof.
  intros Hv Hnd (Hx & Hxt) Hxt' Ht't Hr. rewrite Forall_forall in Hv. pose proof Hxt' as (Hvx & Hvt' & _). pose proof Ht't as (_ & Hvt & _).
  assert (Hsame : forall y, y ∈ data -> tile_key y = tile_key x -> y = x).
  { intros y Hy E. apply list_elem_of_lookup in Hy as [i Hi]. apply list_elem_of_lookup in Hx as [j Hj].
    assert (i = j) as ->; [|congruence]. apply (NoDup_lookup _ _ _ (tile_key x) Hnd); rewrite list_lookup_fmap.
    - rewrite Hi. cbn. by rewrite E.
    - by rewrite Hj. }
  (* what is found for [t] is not above anything of the tree that is above [t] *)
  assert (Hmax : forall y, y ∈ data -> above (tile_key y) t -> level_ (tile_key y) <= level_ (tile_key x)).
  { intros y Hy Hyt. destruct Hxt as [->|(_ & Hno & _ & Hmax)]; [by apply above_level|].
    apply Hmax; [done|]. apply IsChildOf_above; [done|by apply Hv|]. split; [done|]. pose proof (above_level _ _ Hyt).
    destruct (Z.eq_dec (level_ (tile_key y)) (level_ t)) as [El|]; [|lia]. exfalso. apply (Hno y Hy).
    apply (above_eq _ t t); [done| |done]. by split_and!. }
  destruct r as [x'|].
  - destruct Hr as (Hx' & Hr). f_equal. apply Hsame; [done|].
    assert (Hx't' : above (tile_key x') t').
    { destruct Hr as [->|(_ & _ & Hc & _)]; [by split_and!|]. by apply (IsChildOf_above t' (tile_key x') Hvt' (Hv x' Hx')) in Hc as [? _]. }
    apply (above_eq _ _ t'); [done..|]. pose proof (Hmax x' Hx' (above_trans _ _ _ Hx't' Ht't)).
    destruct Hr as [E|(_ & Hno & _ & Hm)]; [rewrite E in *; pose proof (above_level _ _ Hxt'); lia|].
    destruct (decide (tile_key x = t')) as [E|Hne]; [by destruct (Hno x Hx)|].
    assert (level_ (tile_key x) <= level_ (tile_key x')); [|lia]. apply Hm; [done|]. apply IsChildOf_above; [done..|]. split; [done|].
    pose proof (above_level _ _ Hxt'). destruct (Z.eq_dec (level_ (tile_key x)) (level_ t')) as [El|]; [|lia].
    destruct Hne. apply (above_eq _ _ t'); [done| |done]. by split_and!.
  - destruct Hr as [Hno Hno']. exfalso. destruct (decide (tile_key x = t')) as [E|Hne]; [by apply (Hno x Hx)|].
    specialize (Hno' eq_refl x Hx). pose proof (above_level _ _ Hxt').
    assert (level_ (tile_key x) <> level_ t') by (intros El; destruct Hne; apply (above_eq _ _ t'); [done| |done]; by split_and!).
    rewrite (proj2 (IsChildOf_above t' (tile_key x) Hvt' Hvx)) in Hno'; [done|]. split; [done|lia].
Qed.

Lemma index_valid q root data : index_of q root data -> Forall (fun d => valid (tile_key d)) data /\ NoDup (tile_key <$> data).
Proof.
  intros (d & parents & subs & Hok & _ & ->). destruct Hok as [Hroot Hs Hp _ Hsn Hpn _ _ _]. split.
  - apply Forall_app. split; [by eapply Forall_impl; [exact Hp|intros x []]|]. eapply Forall_impl; [exact Hs|]. by intros x (_ & ? & _).
  - rewrite fmap_app. apply NoDup_app. split; [done|]. split; [|done]. intros k (x & -> & Hx)%list_elem_of_fmap (y & E & Hy)%list_elem_of_fmap.
    rewrite Forall_forall in Hs, Hp. destruct (Hp x Hx) as [_ Hlt]. destruct (Hs y Hy) as (_ & _ & Hd & _). rewrite E in Hlt. lia.
Qed.

(** What the catalog has: the ids, the partitions of a version, the data of a handle and
    the trees of a version, each with the data of ancestors and of tiles below its root. *)
Record Contents := mkContents {
  is_id : str -> Prop;
  has_partition : option Z -> str -> Partition -> Prop;
  has_data : str -> bytes -> Prop;
  tree_parts : option Z -> TileKey -> list IndexData -> list IndexData -> Prop }.

Section integrity.
Context `{ModelLaws} {S N : Type} `{KeyValueCacheLaws S Model} `{Online S N} `{Hashes}.
Context (c : RepositoryClient) (layer : str) (C : Contents).

Abbreviation hrn := (ToCatalogHRNString (client_catalog_ c)).
Abbreviation lookup_hrn := (ToCatalogHRNString (catalog_ (lookup_client c))).
Abbreviation expiry := (ConvertTime (default_cache_expiration (Repositories.settings_ c))).

(** The cache has partitions of the catalog and marks of ids without one. *)
Definition kept_partition (id : str) (v : option Z) (p : Partition) : Prop := has_partition C v id p \/ p = empty_partition [] id.

(** A tree is the index of the data that the catalog has for the root. *)
Definition has_tree (v : option Z) (root : TileKey) (q : QuadTreeIndex) : Prop :=
  exists parents subs, tree_parts C v root parents subs /\ tree_ok root parents subs /\ CreateBlob root kAggregateQuadTreeDepth parents subs = Some q.
Definition tree_data (v : option Z) (root : TileKey) (data : list IndexData) : Prop :=
  exists parents subs, tree_parts C v root parents subs /\ data = parents ++ subs.

Lemma has_tree_index v root q : has_tree v root q -> exists data, tree_data v root data /\ index_of q root data.
Proof. intros (parents & subs & Hp & Hok & E). exists (parents ++ subs). split; [by exists parents, subs|]. by exists kAggregateQuadTreeDepth, parents, subs. Qed.

(** The URLs of services are the other values that are read. *)
Definition url_entry (k : key) (x : any (A := Model)) (b : bytes) : Prop := kind k = chars "api" -> x = AnyValue (MUrl b).

Definition kept : CacheRepositories.layer :=
  mkCachedLayer kept_partition (has_data C) (fun t v q => has_tree v t q) (fun _ _ => True) url_entry.

Abbreviation P := (layer_policy hrn layer kept).
Abbreviation inv := (cache_has (S := S) (N := N) (holds P)).

Definition clock_ok (now : Z) : Prop := 0 <= now < 2^62.

(** What the cache can store of the layer. *)
Record storable_layer : Prop := {
  stores_partition now id v p : clock_ok now -> is_id C id -> kept_partition id v p -> Partition_partition p = id -> can_put hrn layer now v expiry p;
  stores_data now d b : clock_ok now -> has_data C d b -> can_store now (CreateDataHandleKey hrn layer d) b expiry;
  stores_tree now root v q : clock_ok now -> valid root -> has_tree v root q ->
    can_store now (CreateQuadTreeKey hrn layer root v kAggregateQuadTreeDepth) (GetRawData q) expiry;
  plain_catalog_layer : IsExpiryKey (hrn ++ kColons ++ layer) = false;
  positive_expiry : 0 < expiry;
  ordinary_id id v : is_id C id -> readable_id hrn layer v id;
  ordinary_data id v p : has_partition C v id p -> ordinary (CreateDataHandleKey hrn layer (Partition_data_handle p));
  ordinary_tile v root data x : tree_data v root data -> x ∈ data -> ordinary (CreateDataHandleKey hrn layer (data_handle x));
  ordinary_api service : service = chars "query" \/ service = chars "blob" -> ordinary (CreateApiKey lookup_hrn service (chars "v1")) }.

(** An honest response; the parts that no request of here asks for are free. *)
Record honest_response (call : ApiCall) (r : HttpResponse) : Prop := {
  honest_expiry : exists e, GetExpiry (headers r) = Some e;
  honest_apis : call = GetCall (chars "/resources/" ++ ToString (catalog_ (lookup_client c)) ++ chars "/apis") [] -> status r = 200 ->
    exists apis, parse_result (T := list Api) (Response.response r) = Some apis /\
      forall l, apis = inl l -> Forall (fun a => ordinary (CreateApiKey lookup_hrn (Api_api a) (Api_version a)) /\ slen (Api_base_url a) < 2^63) l;
  honest_partitions id v tag : call = partitions_by_id_call layer [id] v [] tag -> status r = 200 ->
    exists ps, parse_result (T := Partitions) (Response.response r) = Some ps /\
      forall l, ps = inl l -> Forall (fun p => Partition_partition p = id /\ has_partition C v id p) (Partitions_partitions l);
  honest_tree root v tag : valid root ->
    call = quad_tree_call layer (ToHereTile root) v kAggregateQuadTreeDepth default_additional_fields tag -> status r = 200 ->
    exists tree, QuadTreeIndex_parse root kAggregateQuadTreeDepth (Response.response r) = Some tree /\ forall q, tree = Some q -> has_tree v root q }.

(** The last try of a download receives data of the handle. *)
Definition honest_download (call : ApiCall) (r : HttpResponse * list (Z * str)) : Prop :=
  forall handle tag, call = data_call layer handle tag None -> status r.1 = 200 ->
    exists tries parts, r.2 = mjoin (calls_of <$> tries) ++ calls_of parts /\ parts <> [] /\ Forall (fun p => p <> []) parts /\
      has_data C handle (mjoin parts).

Class Honest : Prop := mkHonest {
  honest_clock : gives inv system_clock clock_ok;
  honest_steady : keeps_to inv steady_clock;
  honest_mutexes : mutexes_keep inv;
  honest_call url call : gives inv (call_api url call) (honest_response call);
  honest_stream url call : gives inv (call_api_stream url call) (honest_download call) }.

Context `{Honest} (Hstore : storable_layer).

(** *** Operations on the cache *)

Lemma keep_Delete k : keeps_to (holds P) (kv_DeleteByPrefix k).
Proof. intros s Hs. eapply runs_mono; [by apply (law_DeleteByPrefix P)|]. by intros s' r []. Qed.

Lemma keep_Remove k : keeps_to (holds P) (kv_RemoveKeysWithPrefix k).
Proof. unfold kv_RemoveKeysWithPrefix. eapply gives_bind; [apply keep_Delete|]. intros. by apply gives_ret. Qed.

Lemma api_free service version : free_key hrn layer (CreateApiKey lookup_hrn service version).
Proof. split; intros; other_kind. Qed.

Lemma keep_Get_api now service version : ordinary (CreateApiKey lookup_hrn service version) ->
  keeps_to (holds P) (Get_api (catalog_ (lookup_client c)) now service version).
Proof.
  intros Ho s Hs. unfold Get_api. rstep. eapply runs_mono.
  - apply (law_Get P); [done|]. split; [apply Ho|]. intros v Hv. eexists. split; [done|]. destruct (Hv Ho) as [x E].
    exists v. apply of_free; [apply api_free|]. by intros _.
  - intros s' x [[Hs' _] Hx]. destruct x as [x|]; [|by rstep]. destruct (Hx x eq_refl) as [b E].
    assert (x = AnyValue (MUrl b)) as ->; [|by rstep]. remember (CreateApiKey lookup_hrn service version) as k eqn:Ek.
    destruct E as [id' v' p Hid' Hj' Hp|d b Hd|t v' q Ht Hq|v' ids Hi|k x b Hf Hx']; subst; try (exfalso; revert Ek; other_kind).
    apply Hx', kind_api.
Qed.

Lemma keep_Put_url now service version url e : clock_ok now -> (forall e', e = Some e' -> - 2^31 <= e' < 2^31) ->
  ordinary (CreateApiKey lookup_hrn service version) -> slen url < 2^63 ->
  keeps_to (holds P) (Put_url (catalog_ (lookup_client c)) now service version url e).
Proof.
  intros Hn He Ho Hu s Hs. unfold Put_url. unfold clock_ok in Hn. set (e' := default _ e).
  assert (Hr : - 2^31 <= e' < 2^31) by (subst e'; destruct e; [by apply He|done]).
  assert (Hf : entry_of hrn layer kept (CreateApiKey lookup_hrn service version) (AnyValue (MUrl url)) url) by (apply of_free; [apply api_free|by intros _]).
  eapply runs_mono; [apply (law_Put P); [done|by exists url|by eexists|]|by intros s' r []].
  split; [done|]. split; [done|]. unfold kDefaultExpiry. split; [lia|]. intros _. lia.
Qed.

Abbreviation partitions := (partitions_cache c layer).

Lemma keep_Get_partitions now id v : is_id C id ->
  gives (holds P) (Get_partitions partitions now [id] v) (Forall (kept_partition id v)).
Proof.
  intros Hid s Hs. eapply runs_mono.
  - apply (Get_partitions_spec hrn layer partitions now v [id] kept); try done. apply Forall_singleton. by apply Hstore.
  - intros s' ps [[Hs' _] (found & Hsub & Hf)]. split; [done|]. apply Forall_forall. intros p Hp.
    apply list_elem_of_lookup in Hp as [i Hi]. destruct (Forall2_lookup_r _ _ _ _ _ Hf Hi) as (id' & Hid' & Hp).
    apply list_elem_of_lookup_2 in Hid'. apply (elem_of_sublist _ _ _ Hid'), list_elem_of_singleton in Hsub as ->. exact Hp.
Qed.

Lemma keep_Clear_partitions now id v : is_id C id -> keeps_to (holds P) (ClearPartitions partitions now [id] v).
Proof.
  intros Hid. unfold ClearPartitions. eapply gives_bind; [by apply keep_Get_partitions|]. intros ps _. generalize true.
  induction ps as [|p ps IH]; intros b; cbn [clear_partitions_loop]; [by apply gives_ret|].
  eapply gives_bind; [apply keep_Remove|]. intros b1 _. eapply gives_bind; [apply keep_Remove|]. intros b2 _. apply IH.
Qed.

Lemma keep_Put_partitions now id v ps : clock_ok now -> is_id C id -> Forall (fun p => Partition_partition p = id /\ kept_partition id v p) ps ->
  keeps_to (holds P) (Put_partitions partitions now ps v None false).
Proof.
  intros Hn Hid Hps s Hs. unfold Put_partitions. rstep. eapply runs_mono.
  - apply (put_loop_spec hrn layer partitions now v expiry false ps eq_refl eq_refl (positive_expiry Hstore)) with (L := kept); [|done].
    eapply Forall_impl; [exact Hps|]. intros p [Ep Hp]. by apply (stores_partition Hstore now id).
  - assert (Hin : forall p, p ∈ ps -> kept_partition (Partition_partition p) v p).
    { intros p Hp. rewrite Forall_forall in Hps. by destruct (Hps p Hp) as [-> ?]. }
    intros s' [ids|e] [_ Hr]; [destruct Hr as [_ Hr]|]; rstep; (split; [|done]); (eapply holds_mono; [|exact Hr]).
    + apply put_partitions_le; [done|]. by apply Forall_forall.
    + split; cbn; try done. intros id' v' p' [Hp|(-> & Hp & ->)]; [done|by apply Hin].
Qed.

Lemma keep_data now d : ordinary (CreateDataHandleKey hrn layer d) ->
  gives (holds P) (Get_data (data_cache c) now layer d) (fun r => forall b, r = Some b -> has_data C d b).
Proof.
  intros Hk s Hs. unfold Get_data, kv_Get_bytes. rstep. eapply runs_mono.
  - apply (layer_Read hrn layer kept (has_data C d)); [done|done|]. intros x b E. by apply entry_data in E as [Hb ->].
  - intros s' r [[Hs' _] Hr]. rstep. split; [done|]. intros b. destruct r as [b'|]; [|done]. intros [= ->]. by apply Hr.
Qed.

Lemma keep_Put_data now d b : clock_ok now -> has_data C d b -> keeps_to (holds P) (Put_data (data_cache c) now (Some b) layer d).
Proof.
  intros Hn Hb s Hs. unfold Put_data. rstep. pose proof (of_data hrn layer kept d b Hb) as E. eapply runs_mono.
  - apply (law_Write P); [done|by exists b|by eexists|by apply Hstore].
  - intros s' r [[Hs' _] _]. by rstep.
Qed.

Lemma keep_Clear_data d : keeps_to (holds P) (Clear_data (data_cache c) layer d).
Proof. apply keep_Delete. Qed.

(** *** The lookup of a service *)

Abbreviation W := (World S N).

Lemma gives_clock {B} (m : Z -> state S B) Q : (forall now, clock_ok now -> gives (holds P) (m now) Q) -> gives inv (timed m) Q.
Proof. apply gives_timed, honest_clock. Qed.

Lemma gives_url client : keeps_to inv (GetBaseUrl client).
Proof. destruct client; [by apply gives_ret|]. eapply gives_bind; [apply gives_gets|]. intros. by apply gives_ret. Qed.

Lemma gives_call client call : gives inv (CallApi client call) (honest_response call).
Proof. unfold CallApi. eapply gives_bind; [apply gives_url|]. intros url _. apply honest_call. Qed.

Lemma gives_stream client call : gives inv (CallApiStream client call) (honest_download call).
Proof. unfold CallApiStream. eapply gives_bind; [apply gives_url|]. intros url _. apply honest_stream. Qed.

Definition api_ok (a : Api) : Prop := ordinary (CreateApiKey lookup_hrn (Api_api a) (Api_version a)) /\ slen (Api_base_url a) < 2^63.

Lemma gives_apis client : gives inv (ResourcesApi_GetApis client (ToString (catalog_ (lookup_client c))))
  (fun r => forall apis e, r = inl (apis, e) -> Forall api_ok apis /\ forall e', e = Some e' -> - 2^31 <= e' < 2^31).
Proof.
  unfold ResourcesApi_GetApis. eapply gives_bind; [apply gives_call|]. intros r [[e He] Ha _ _]. unfold apis_of_response.
  destruct (Z.eqb_spec (status r) 200) as [Es|]; cbn [negb]; [|by apply gives_ret].
  destruct (Ha eq_refl Es) as (apis & Ep & Hapis).
  eapply gives_bind; [apply (gives_lift _ _ e (fun e => forall e', e = Some e' -> - 2^31 <= e' < 2^31)); [done|]|].
  { intros e' ->. by eapply GetExpiry_range. }
  intros e1 He1. eapply gives_bind; [apply (gives_lift _ _ apis (fun a => forall l, a = inl l -> Forall api_ok l)); [done|exact Hapis]|].
  intros a Hl. apply gives_ret. destruct a as [l|]; [|done]. intros l' e' [= -> ->]. split; [by apply Hl|done].
Qed.

Lemma keep_PutToDiskCache apis e : Forall api_ok apis -> (forall e', e = Some e' -> - 2^31 <= e' < 2^31) ->
  keeps_to inv (PutToDiskCache (catalog_ (lookup_client c)) apis e).
Proof.
  intros Ha He. induction Ha as [|a apis [Ho Hu] _ IH]; cbn [PutToDiskCache]; [by apply gives_ret|].
  apply gives_then; [|intros _; exact IH]. apply gives_clock. intros now Hn. by apply keep_Put_url.
Qed.

Lemma keep_CreateAndCacheClient url k e : keeps_to inv (CreateAndCacheClient url k e).
Proof.
  unfold CreateAndCacheClient. eapply gives_bind; [apply honest_steady|]. intros now _.
  apply gives_then; [by apply keeps_modify|]. intros _. by apply gives_ret.
Qed.

(** The services that versioned data needs. *)
Definition data_service (service : str) : Prop := service = chars "query" \/ service = chars "blob".

Lemma keep_GetCachedClient service : data_service service -> keeps_to inv (GetCachedClient (lookup_client c) service (chars "v1")).
Proof.
  intros Hs. unfold GetCachedClient. apply gives_then; [apply gives_gets|]. intros clients.
  apply gives_then; [apply honest_steady|]. intros now. destruct (match clients !! _ with Some (_, e) => now <? e | None => false end); [by apply gives_ret|].
  apply gives_then; [apply gives_clock; intros; by apply keep_Get_api, Hstore|]. intros [url|]; [|by apply gives_ret].
  apply gives_then; [apply keep_CreateAndCacheClient|]. intros. by apply gives_ret.
Qed.

Lemma keep_lookup_online service version options : data_service service ->
  keeps_to inv (lookup_online (lookup_client c) service version options).
Proof.
  intros Hs. unfold lookup_online. rewrite bool_decide_eq_false_2 by (destruct Hs as [-> | ->]; vm_compute; congruence).
  eapply gives_bind; [apply gives_apis|]. intros [[apis e]|err] Hr; [|by apply gives_ret]. destruct (Hr apis e eq_refl) as [Ha He].
  apply gives_then; [destruct (looks_up options); [by apply keep_PutToDiskCache|apply keeps_ret]|]. intros _.
  case_bool_decide; [by apply gives_ret|]. apply gives_then; [apply keep_CreateAndCacheClient|]. intros. by apply gives_ret.
Qed.

Lemma keep_LookupApi service options : data_service service -> keeps_to inv (LookupApi (lookup_client c) service (chars "v1") options).
Proof.
  intros Hs. unfold LookupApi. destruct (negb _); [by apply gives_ret|]. destruct (looks_up options); [|by apply keep_lookup_online].
  apply gives_then; [by apply keep_GetCachedClient|]. intros [client|]; [by apply gives_ret|].
  destruct (bool_decide _); [by apply gives_ret|by apply keep_lookup_online].
Qed.

(** *** Data and partitions *)

Definition data_answer (d : str) (r : ExtendedResponse DataResult) : Prop :=
  match r.1 with inl (Some b) => has_data C d b | inl None => False | inr _ => True end.

Lemma gives_GetBlob client p tag : gives inv (GetBlob client layer p tag None) (data_answer (Partition_data_handle p)).
Proof.
  unfold GetBlob. eapply gives_bind; [apply gives_stream|]. intros [r chunks] Hr. apply gives_ret. unfold data_answer. cbn.
  destruct (Z.eqb_spec (status r) 200) as [Es|]; cbn [negb]; [|done].
  destruct (Hr _ _ eq_refl Es) as (tries & parts & E & Hne & Hp & Hd). cbn in E. by rewrite E, foldl_app, blob_of_calls.
Qed.

Lemma gives_get_blob_online p option tag fail mutex :
  gives inv (get_blob_online c layer kBlobService p option tag fail mutex) (data_answer (Partition_data_handle p)).
Proof.
  unfold get_blob_online. apply gives_then; [apply honest_mutexes|]. intros [e|]; [by apply gives_ret|].
  apply gives_then; [by apply keep_LookupApi; right|]. intros [client|e].
  - change (bool_decide (kBlobService = kBlobService)) with true. cbv iota. eapply gives_bind; [apply gives_GetBlob|]. intros [[[b|]|e] st] Hr; [| |].
    + destruct (bool_decide _); [by apply gives_ret|]. apply gives_then; [by apply gives_clock; intros; apply keep_Put_data|].
      intros [?|?]; apply gives_ret; [done|by destruct fail].
    + done.
    + apply gives_then; [destruct (is_forbidden e); [|apply keeps_ret];
        apply gives_then; [apply gives_cached, keep_Clear_data|intros; apply keeps_ret]|]. intros _.
      apply gives_then; [apply honest_mutexes|]. intros _. by apply gives_ret.
  - apply gives_then; [apply honest_mutexes|]. intros _. by apply gives_ret.
Qed.

Lemma gives_GetBlobData p option tag fail : ordinary (CreateDataHandleKey hrn layer (Partition_data_handle p)) ->
  gives inv (GetBlobData c layer kBlobService p option tag fail) (data_answer (Partition_data_handle p)).
Proof.
  intros Hk. unfold GetBlobData. destruct (Partition_data_handle p) as [|a d] eqn:Ed; [by apply gives_ret|]. rewrite <- Ed in Hk |- *. clear Ed a d.
  set (online := get_blob_online _ _ _ _ _ _ _ _). assert (Ho : gives inv online (data_answer (Partition_data_handle p))) by apply gives_get_blob_online.
  apply gives_mutex; [apply honest_mutexes|]. destruct (looks_up option); [|exact Ho].
  eapply gives_bind; [by apply gives_clock; intros; apply keep_data|]. intros [b|] Hb; [apply gives_ret; by apply Hb|].
  destruct (bool_decide _); [by apply gives_ret|exact Ho].
Qed.

Definition partition_answer (id : str) (v : option Z) (r : ExtendedResponse Partitions) : Prop :=
  match r.1 with inl ps => Forall (has_partition C v id) (Partitions_partitions ps) | inr _ => True end.

Lemma with_content_kept id v ps : Forall (kept_partition id v) ps -> Forall (has_partition C v id) (with_content ps).
Proof.
  intros Hps. unfold with_content. apply Forall_forall. intros p Hp. apply list_elem_of_In, filter_In in Hp as [Hp%list_elem_of_In Hc].
  rewrite Forall_forall in Hps. by destruct (Hps p Hp) as [?| ->].
Qed.

(** The answer of the service, which is about the partition that was asked for. *)
Definition service_answer id v (r : ApiResponse Partitions) : Prop :=
  forall l, r = inl l -> Forall (fun p => Partition_partition p = id /\ has_partition C v id p) (Partitions_partitions l).

Lemma gives_GetPartitionsbyId client id v tag :
  gives inv (GetPartitionsbyId client layer [id] v [] tag) (fun r => service_answer id v r.1).
Proof.
  unfold GetPartitionsbyId. eapply gives_bind; [apply gives_call|]. intros r [_ _ Hr _].
  apply (gives_bind _ _ _ (service_answer id v)); [|intros ps Hps; by apply gives_ret].
  unfold model_of_response. destruct (Z.eqb_spec (status r) 200) as [Es|]; cbn [negb]; [|by apply gives_ret].
  destruct (Hr id v _ eq_refl Es) as (ps & Ep & Hps). by apply (gives_lift _ _ ps).
Qed.

Lemma gives_get_partition_online id request v : is_id C id ->
  gives inv (get_partition_online c layer id request v) (partition_answer id v).
Proof.
  intros Hid. unfold get_partition_online. apply gives_then; [by apply keep_LookupApi; left|]. intros [client|e]; [|by apply gives_ret].
  eapply gives_bind; [apply gives_GetPartitionsbyId|]. intros [[result|e] st] Hr.
  - assert (Hps : Forall (has_partition C v id) (Partitions_partitions result)) by (eapply Forall_impl; [exact (Hr result eq_refl)|]; cbn; by intros p []).
    apply gives_then; [|intros _; by apply gives_ret]. destruct (bool_decide _); [apply keeps_ret|].
    apply gives_then; [|intros; apply keeps_ret]. apply gives_clock. intros now Hn. apply (keep_Put_partitions now id); [done..|].
    destruct (Partitions_partitions result) as [|p ps] eqn:E; [apply Forall_singleton; split; [done|by right]|].
    rewrite <- E. eapply Forall_impl; [apply Hr; reflexivity|]. intros p' [? ?]. split; [done|by left].
  - apply gives_then; [|intros _; by apply gives_ret]. destruct (is_forbidden e); [|apply keeps_ret].
    apply gives_then; [|intros; apply keeps_ret]. apply gives_clock. intros now Hn. by apply keep_Clear_partitions.
Qed.

Lemma gives_GetPartitionById request id v : partition_id_ request = Some id -> is_id C id ->
  gives inv (GetPartitionById c layer request v) (partition_answer id v).
Proof.
  intros Er Hid. unfold GetPartitionById. rewrite Er. pose proof (gives_get_partition_online id request v Hid) as Ho.
  apply gives_mutex; [apply honest_mutexes|]. destruct (looks_up _); [|exact Ho].
  eapply gives_bind; [by apply gives_clock; intros; apply keep_Get_partitions|]. intros ps Hps.
  destruct (_ =? 1)%nat; [apply gives_ret; by apply with_content_kept|]. destruct (bool_decide _); [by apply gives_ret|exact Ho].
Qed.

(** C7: whatever the cache and the kept clients have been left with, a request for the
    data of a partition of a version, with any fetch option, ends and answers with an
    error or with the data of the handle that the catalog has for this partition in this
    version, never with nothing or with the data of another partition or version; and the
    cache stays one of this kind, so that later requests do the same. *)
Theorem versioned_data_integrity request id version fail w :
  partition_id_ request = Some id -> data_handle_ request = None -> is_id C id -> inv w ->
  exists w' r st, GetVersionedData c layer request version fail w = Some (w', (r, st)) /\ inv w' /\
    match r with
    | inl data => exists p b, data = Some b /\ has_partition C (Some version) id p /\ has_data C (Partition_data_handle p) b
    | inr _ => True
    end.
Proof.
  intros Er Eh Hid Hw.
  assert (Hm : gives inv (GetVersionedData c layer request version fail) (fun r => match r.1 with
    | inl data => exists p b, data = Some b /\ has_partition C (Some version) id p /\ has_data C (Partition_data_handle p) b
    | inr _ => True end)).
  { unfold GetVersionedData. rewrite Eh. eapply gives_bind; [by apply gives_GetPartitionById|].
    intros [[result|e] st] Hr; [|by apply gives_ret]. unfold partition_answer in Hr. cbn in Hr.
    destruct (Partitions_partitions result) as [|p ps]; [by apply gives_ret|]. apply Forall_cons in Hr as [Hp _].
    eapply gives_bind; [by eapply gives_GetBlobData, ordinary_data|]. intros [[[b|]|e] st'] Hb; apply gives_ret; [|done|done]. cbn. eauto. }
  destruct (Hm w Hw) as (w' & [r st] & E & Hw' & Hr). by exists w', r, st.
Qed.

(** *** Tiles *)

Definition tree_answer (t : TileKey) (v : option Z) (r : ExtendedResponse QuadTreeIndex) : Prop :=
  forall q, r.1 = inl q -> exists root, root_of t root /\ has_tree v root q.

Lemma keep_FindQuadTree now t v : valid t ->
  gives (holds P) (FindQuadTree partitions now t v) (fun r => forall q, r = Some q -> exists root, root_of t root /\ has_tree v root q).
Proof.
  intros Ht s Hs. eapply runs_mono; [by apply (FindQuadTree_spec hrn layer (plain_catalog_layer Hstore) partitions now t v kept)|].
  intros s' r [[Hs' _] Hr]. split; [done|exact Hr].
Qed.

Lemma keep_Put_tree now root v q : clock_ok now -> valid root -> has_tree v root q ->
  keeps_to (holds P) (Put_tree partitions now root kAggregateQuadTreeDepth (Some q) v).
Proof.
  intros Hn Hroot Hq s Hs. unfold Put_tree. rstep. pose proof (of_tree hrn layer kept root v q Hroot Hq) as E. eapply runs_mono.
  - apply (law_Write P); [done|by exists (GetRawData q)|by eexists|by apply Hstore].
  - intros s' r [[Hs' _] _]. by rstep.
Qed.

Lemma root_of_up t : valid t -> root_of t (ChangedLevelBy t (- kAggregateQuadTreeDepth)).
Proof.
  intros Ht. pose proof Ht as (Hl & _). unfold LevelCount in Hl. unfold root_of, kAggregateQuadTreeDepth, kMaxQuadTreeIndexDepth.
  destruct (Z.leb_spec 4 (level_ t)); [exists 4; split; [lia|done]|]. exists (level_ t). split; [lia|].
  rewrite ChangedLevelBy_above by (done || lia). rewrite ChangedLevelBy_up by (done || lia). destruct Ht as (_ & Hr & Hc).
  by rewrite Z.sub_diag, !Z.div_small.
Qed.

Lemma gives_get_quad_tree_online request v : valid (tile_key_ request) ->
  gives inv (get_quad_tree_online c layer (ChangedLevelBy (tile_key_ request) (- kAggregateQuadTreeDepth)) request v)
    (tree_answer (tile_key_ request) v).
Proof.
  intros Ht. pose proof (root_of_up _ Ht) as Hroot. set (root := ChangedLevelBy _ _) in *. pose proof (root_valid _ _ Ht Hroot) as Hv.
  unfold get_quad_tree_online. apply gives_then; [by apply keep_LookupApi; left|]. intros [client|e]; [|by apply gives_ret].
  eapply gives_bind; [apply gives_call|]. intros r [_ _ _ Hr]. destruct (Z.eqb_spec (status r) 200) as [Es|]; cbn [negb]; [|by apply gives_ret].
  destruct (Hr root v _ Hv eq_refl Es) as (tree & Et & Htree).
  eapply gives_bind; [by apply (gives_lift _ _ tree (fun tree => forall q, tree = Some q -> has_tree v root q))|].
  intros [q|] Hq; [|by apply gives_ret]. specialize (Hq q eq_refl). apply gives_then.
  - destruct (bool_decide _); [apply keeps_ret|]. apply gives_then; [|intros; apply keeps_ret].
    apply gives_clock. intros now Hn. by apply keep_Put_tree.
  - intros _. apply gives_ret. intros q' [= <-]. eauto.
Qed.

Lemma tree_fields q v root required : has_tree v root q -> exists b, CheckAdditionalFields required q = Some b.
Proof.
  intros (data & _ & (ps & ss & Hb & _)%index_of_blob)%has_tree_index. unfold CheckAdditionalFields. rewrite (GetIndexData_spec q root ps ss All Hb).
  cbn. by eexists.
Qed.

Lemma gives_GetQuadTree request v required : valid (tile_key_ request) ->
  gives inv (GetQuadTreeIndexForTile c layer request v required) (tree_answer (tile_key_ request) v).
Proof.
  intros Ht. unfold GetQuadTreeIndexForTile. pose proof (gives_get_quad_tree_online request v Ht) as Ho.
  apply gives_mutex; [apply honest_mutexes|]. destruct (looks_up _); [|exact Ho].
  eapply gives_bind; [apply gives_clock; intros now Hn; by apply keep_FindQuadTree|]. intros [q|] Hq.
  - destruct (Hq q eq_refl) as (root & Hr & Hq'). destruct (tree_fields q v root required Hq') as [b Eb].
    eapply gives_bind; [by apply (gives_lift _ _ b (fun _ => True))|]. intros [] _; [|exact Ho].
    apply gives_ret. intros q' [= <-]. eauto.
  - destruct (bool_decide _); [by apply gives_ret|exact Ho].
Qed.

(** The partition of the data that the catalog has for a tile or its nearest ancestor. *)
Definition tile_answer (t : TileKey) (v : option Z) (aggregated : bool) (r : ExtendedResponse Partition) : Prop :=
  forall p, r.1 = inl p -> exists root data x, root_of t root /\ tree_data v root data /\
    answers data t aggregated (Some x) /\ p = partition_of_index x.

Lemma find_partition q root data request agg : index_of q root data -> valid (tile_key_ request) ->
  (level_ root <= level_ (tile_key_ request) -> below root 7 (tile_key_ request)) ->
  exists r, QuadTreeIndex.Find q (tile_key_ request) agg = Some r /\ answers data (tile_key_ request) agg r /\
    FindPartition q request agg = Some (partition_of_index <$> r).
Proof.
  intros Hi Ht Hb. destruct (index_Find q root data (tile_key_ request) agg Hi Ht Hb) as (r & E & Ha).
  exists r. split_and!; [done..|]. unfold FindPartition. by rewrite E.
Qed.

Lemma gives_GetTile request v required : valid (tile_key_ request) ->
  gives inv (GetTile c layer request v required) (tile_answer (tile_key_ request) v false).
Proof.
  intros Ht. unfold GetTile. eapply gives_bind; [by apply gives_GetQuadTree|]. intros [[q|e] st] Hq; [|by apply gives_ret].
  destruct (Hq q eq_refl) as (root & Hr & (data & Hd & Hi)%has_tree_index).
  destruct (find_partition q root data request false Hi Ht) as (r & _ & Ha & E); [intros _; by apply root_of_below|].
  unfold tile_of_tree. eapply gives_bind; [by apply (gives_lift _ _ (partition_of_index <$> r) (fun a => a = partition_of_index <$> r))|].
  intros ? ->. apply gives_ret. intros p. destruct r as [x|]; [|done]. cbn. intros [= <-]. by exists root, data, x.
Qed.

(** The loop of an aggregated request ends with a tile between the found and the
    requested one; [fuel] levels are enough. *)
Lemma gives_aggregated_loop v t target start fuel : above target t ->
  forall root request, above root t -> level_ root <= start -> level_ root - level_ target <= Z.of_nat fuel ->
  above (tile_key_ request) t -> above target (tile_key_ request) ->
  (tile_key_ request = t \/ level_ (tile_key_ request) < start) ->
  gives inv (aggregated_loop fuel c layer v root target request) (fun request' =>
    above (tile_key_ request') t /\ above target (tile_key_ request') /\ (tile_key_ request' = t \/ level_ (tile_key_ request') < start)).
Proof.
  intros Htt. induction fuel as [|fuel IH]; intros root request Hrt Hst Hf Hq Htq Hor; cbn [aggregated_loop];
    rewrite Z.gtb_ltb; destruct (Z.ltb_spec (level_ target) (level_ root)) as [Hlt|]; try (by apply gives_ret).
  { lia. }
  pose proof Hrt as (Hroot & _). pose proof Htt as ((Hl & _) & _).
  rewrite Parent_ChangedLevelBy by (done || lia). set (parent := ChangedLevelBy root _).
  assert (Hpr : above parent root) by (by apply (above_up root 1)).
  assert (Hlp : level_ parent = level_ root - 1).
  { unfold parent. by rewrite ChangedLevelBy_up by (done || lia). }
  pose proof (above_trans _ _ _ Hpr Hrt) as Hpt. pose proof Hpr as (Hvp & _).
  pose proof (above_up parent kAggregateQuadTreeDepth Hvp ltac:(done)) as Hup. pose proof (above_level _ _ Hup).
  apply gives_then; [by eapply keeps_any, gives_GetQuadTree|]. intros _. apply IH; cbn [tile_key_ WithTileKey]; try lia.
  - by apply (above_trans _ parent).
  - done.
  - apply (above_total _ _ t); [done..|lia].
Qed.

Lemma root_above t root : valid t -> root_of t root -> above root t /\ level_ root <= 31.
Proof.
  intros Ht (i & Hi & ->). unfold kMaxQuadTreeIndexDepth in Hi. pose proof Ht as (Hl & _). unfold LevelCount in Hl.
  split; [apply above_up; [done|lia]|]. rewrite ChangedLevelBy_up by (done || lia). cbn. lia.
Qed.

Lemma gives_GetAggregatedTile request v : valid (tile_key_ request) ->
  gives inv (GetAggregatedTile c layer request v) (tile_answer (tile_key_ request) v true).
Proof.
  intros Ht. unfold GetAggregatedTile. eapply gives_bind; [by apply gives_GetQuadTree|]. intros [[q|e] st] Hq; [|by apply gives_ret].
  destruct (Hq q eq_refl) as (root & Hr & (data & Hd & Hi)%has_tree_index). destruct (root_above _ _ Ht Hr) as [Hrt Hl31].
  destruct (find_partition q root data request true Hi Ht) as (r & Er & Ha & _); [intros _; by apply root_of_below|].
  destruct (index_valid q root data Hi) as [Hv Hnd].
  (* what is found for the request that the loop leaves *)
  eapply (gives_bind _ _ _ (fun request' => exists r', FindPartition q request' true = Some (partition_of_index <$> r') /\
    forall x, r' = Some x -> answers data (tile_key_ request) true (Some x))).
  - assert (Hsame : exists r', FindPartition q request true = Some (partition_of_index <$> r') /\
      forall x, r' = Some x -> answers data (tile_key_ request) true (Some x)).
    { exists r. unfold FindPartition. rewrite Er. split; [done|]. by intros x ->. }
    destruct (bool_decide _); [by apply gives_ret|].
    eapply gives_bind; [by apply (gives_lift _ _ r (fun r' => r' = r))|]. intros ? ->. destruct r as [x|]; [|by apply gives_ret].
    rewrite (index_root q root data Hi). set (t := tile_key_ request) in *.
    assert (Hx : x ∈ data) by apply Ha. assert (Hvx : valid (tile_key x)) by (rewrite Forall_forall in Hv; by apply Hv).
    assert (Hxt : above (tile_key x) t).
    { destruct Ha as (_ & [->|(_ & _ & Hc & _)]); [by split_and!|]. by apply (IsChildOf_above t (tile_key x) Ht Hvx) in Hc as [? _]. }
    eapply gives_mono; [apply (gives_aggregated_loop v t (tile_key x) (level_ root) 32 Hxt); try done|].
    + destruct Hvx as ((? & _) & _). lia.
    + by left.
    + intros request' (Hat & Hxa & Hor). pose proof Hat as (Hvt' & _).
      destruct (find_partition q root data request' true Hi Hvt') as (r' & _ & Ha' & E').
      * intros Hle. destruct Hor as [->|]; [by apply root_of_below|lia].
      * exists r'. split; [exact E'|]. intros x' ->.
        pose proof (answers_between data t _ x (Some x') Hv Hnd Ha Hxa Hat Ha') as [= ->]. exact Ha.
  - intros request' (r' & E' & Hr'). unfold tile_of_tree. rewrite E'.
    eapply gives_bind; [by apply (gives_lift _ _ (partition_of_index <$> r') (fun a => a = partition_of_index <$> r'))|].
    intros ? ->. apply gives_ret. intros p. destruct r' as [x|]; [|done]. cbn. intros [= <-]. exists root, data, x.
    split; [done|]. split; [done|]. split; [by apply Hr'|done].
Qed.

(** C15: an aggregated request for a tile ends, however many trees of parents it loads
    before it answers and although it replaces the requested tile on the way; a success is
    the partition of the requested tile when the catalog has it and of its nearest
    ancestor in the tree otherwise. *)
Theorem aggregated_tile_nearest request v w : valid (tile_key_ request) -> inv w ->
  exists w' r st, GetAggregatedTile c layer request v w = Some (w', (r, st)) /\ inv w' /\
    forall p, r = inl p -> exists root data x, root_of (tile_key_ request) root /\ tree_data v root data /\
      answers data (tile_key_ request) true (Some x) /\ p = partition_of_index x.
Proof.
  intros Ht Hw. destruct (gives_GetAggregatedTile request v Ht w Hw) as (w' & [r st] & E & Hw' & Hr). exists w', r, st. by split_and!.
Qed.

(** C8: a request for a tile of a version ends and answers with an error or with the data
    of the handle that a tree of this version has for this very tile. *)
Theorem versioned_tile_integrity request version w : valid (tile_key_ request) -> inv w ->
  exists w' r st, GetVersionedTile c layer request version w = Some (w', (r, st)) /\ inv w' /\
    match r with
    | inl data => exists root entries x b, data = Some b /\ root_of (tile_key_ request) root /\ tree_data (Some version) root entries /\
        x ∈ entries /\ tile_key x = tile_key_ request /\ has_data C (data_handle x) b
    | inr _ => True
    end.
Proof.
  intros Ht Hw. set (good (r : ExtendedResponse DataResult) := match r.1 with
    | inl data => exists root entries x b, data = Some b /\ root_of (tile_key_ request) root /\ tree_data (Some version) root entries /\
        x ∈ entries /\ tile_key x = tile_key_ request /\ has_data C (data_handle x) b
    | inr _ => True end).
  assert (Hm : gives inv (GetVersionedTile c layer request version) good).
  { unfold GetVersionedTile. eapply gives_bind; [by apply gives_GetTile|]. intros [[p|e] st] Hp; [|by apply gives_ret].
    destruct (Hp p eq_refl) as (root & data & x & Hr & Hd & (Hx & Hxt) & ->).
    destruct Hxt as [Hxt|[? _]]; [|done]. cbn [tile_answer fst].
    eapply gives_bind; [apply gives_GetBlobData; by eapply (ordinary_tile Hstore)|].
    intros [[[b|]|e] st'] Hb; apply gives_ret; [|done|done]. cbn. by exists root, data, x, b. }
  destruct (Hm w Hw) as (w' & [r st] & E & Hw' & Hr). by exists w', r, st.
Qed.
End integrity.

(** ** Concrete inputs: a service that knows one partition of version 7 *)

Module service_sample.
Import layer_sample.

Definition layer : str := chars "layer".
Definition found : Partition := partition "a" "ha".
Definition data : str := chars "data".

Definition contents : Contents := mkContents
  (fun id => id = chars "a") (fun v id p => v = Some 7 /\ id = chars "a" /\ p = found) (fun d b => d = chars "ha" /\ b = data)
  (fun _ _ _ _ => False).

Definition endpoint (_ : HRN) : str := chars "https://data.here.com".
Definition client : RepositoryClient :=
  mkRepositoryClient hrn (mkReadSettings 3600 false) (ApiLookupClientImpl_new hrn (mkLookupSettings DefaultLookupEndpointProvider (Some endpoint))).

Definition wanted : ApiCall := partitions_by_id_call layer [chars "a"] (Some 7) [] None.
Definition wanted_data : ApiCall := data_call layer (chars "ha") None None.

Definition serve (_ : key) (call : ApiCall) : HttpResponse :=
  if decide (call_path call = call_path wanted /\ query_params call = query_params wanted)
  then response_of 200 (serialize_text (mkPartitions [found])) else response_of 404 [].
Definition stream (_ : key) (call : ApiCall) : HttpResponse * list (Z * str) :=
  if decide (call_path call = call_path wanted_data) then (response_of 200 [], [(0, chars "da"); (2, chars "ta")]) else (response_of 404 [], []).

#[export] Instance online : Online Cache unit := simple_online serve stream.
#[export] Instance hashes : Hashes := {| hash_combine seed s := seed + slen s |}.

Lemma parse_found : parse_result (T := Partitions) (serialize_text (mkPartitions [found])) = Some (inl (mkPartitions [found])).
Proof. unfold parse_result. rewrite (parse_serialize_text (mkPartitions [found])); [done|]. sample_json. Qed.

Lemma wanted_only id v tag : query_params (partitions_by_id_call layer [id] v [] tag) = query_params wanted -> id = chars "a" /\ v = Some 7.
Proof.
  set (l := [(chars "partition", id)] ++ billing_params tag ++ version_params v). intros E.
  assert (Hl : l ≡ₚ [(chars "partition", chars "a"); (chars "version", chars "7")]).
  { etransitivity; [symmetry; apply (merge_sort_Permutation key_le)|]. change (multimap l = query_params wanted) in E.
    change (merge_sort key_le l) with (multimap l). rewrite E. by apply merge_sort_Permutation. }
  split.
  - assert (Hid : (chars "partition", id) ∈ l) by (left). rewrite Hl in Hid.
    apply elem_of_cons in Hid as [[= E1]|Hid]; [exact E1|]. apply list_elem_of_singleton in Hid. discriminate Hid.
  - assert (Hv : (chars "version", chars "7") ∈ l) by (rewrite Hl; right; left).
    subst l. cbn [app] in Hv. apply elem_of_cons in Hv as [Hv|Hv]; [discriminate Hv|]. apply elem_of_app in Hv as [Hv|Hv].
    + destruct tag; [|by apply elem_of_nil in Hv]. apply list_elem_of_singleton in Hv. discriminate Hv.
    + destruct v as [v|]; [|by apply elem_of_nil in Hv]. apply list_elem_of_singleton in Hv. injection Hv as Hv.
      f_equal. apply to_string_signed_inj. by rewrite <- Hv.
Qed.

Lemma wanted_handle d tag : call_path (data_call layer d tag None) = call_path wanted_data -> d = chars "ha".
Proof. cbn [call_path data_call with_range GetCall wanted_data]. intros E. by do 3 apply app_inv_head in E. Qed.

#[export] Instance honest : Honest client layer contents.
Proof.
  split.
  - by apply (gives_ret _ 100).
  - apply (keeps_ret _ 100).
  - split; intros; apply (keeps_ret _ tt) || apply (keeps_ret _ None).
  - intros url call. apply (gives_ret _ (serve url call)). unfold serve. case_decide as Hd; split; try (by exists None); try done. (* the response is no tree *)
    + intros ->. destruct Hd as [E _]. discriminate E.
    + intros id v tag -> _. destruct Hd as [_ [-> ->]%wanted_only]. eexists. split; [exact parse_found|]. intros l [= <-].
      apply Forall_singleton. by split.
  - intros url call. apply (gives_ret _ (stream url call)). unfold stream. case_decide as Hd; [|done]. intros d tag -> _.
    apply wanted_handle in Hd as ->. exists [], [chars "da"; chars "ta"]. split; [reflexivity|]. split; [done|].
    split; [by repeat constructor|]. by split.
Qed.

Lemma storable : storable_layer client layer contents.
Proof.
  assert (Hid : forall v, ordinary (CreatePartitionKey (ToCatalogHRNString hrn) layer (chars "a") v)).
  { intros v. split; [apply plain_id_partition; by vm_compute|not_own]. }
  assert (Hnow : forall now, clock_ok now -> 3600 <= kDefaultExpiry /\ (IsExpiryValid 3600 = true -> - 2^63 <= 3600 + now < 2^63)).
  { intros now Hn. unfold clock_ok in Hn. split; [by vm_compute|lia]. }
  split.
  - intros now id v p Hn -> Hp _. destruct Hp as [(-> & _ & ->)| ->].
    + split; [by apply (bool_decide_unpack _)|]. split; [sample_json|]. split; [apply Hid|]. split; [by vm_compute|by apply Hnow].
    + split; [by apply (bool_decide_unpack _)|]. split; [sample_json|]. split; [apply Hid|]. split; [by vm_compute|by apply Hnow].
  - intros now d b Hn [-> ->]. split; [split; [by vm_compute|not_own]|]. split; [by vm_compute|by apply Hnow].
  - by intros now root v q _ _ (? & ? & [] & _).
  - by vm_compute.
  - by vm_compute.
  - intros id v ->. split; [by apply (bool_decide_unpack _)|apply Hid].
  - intros id v p (_ & _ & ->). split; [by vm_compute|not_own].
  - by intros v root data x (? & ? & [] & _).
  - intros service [-> | ->]; (split; [by vm_compute|not_own]).
Qed.

Definition request : DataRequest := mkDataRequest (Some (chars "a")) None None OnlineIfNotFound.
Definition start : World Cache unit := mkWorld fresh ∅ tt.
End service_sample.

Import layer_sample service_sample.

Lemma versioned_data_integrity_witness : exists w' r st, GetVersionedData client layer request 7 false start = Some (w', (r, st)) /\
  cache_has (holds (layer_policy (ToCatalogHRNString hrn) layer (kept contents))) w' /\
  match r with
  | inl data => exists p b, data = Some b /\ has_partition contents (Some 7) (chars "a") p /\ has_data contents (Partition_data_handle p) b
  | inr _ => True
  end.
Proof.
  apply (versioned_data_integrity client layer contents storable request (chars "a") 7 false start).
  - reflexivity.
  - reflexivity.
  - reflexivity.
  - apply fresh_holds.
Defined.

(** The request gets the data. *)
Example sample_answer : fst <$> (snd <$> GetVersionedData client layer request 7 false start) = Some (inl (Some data)).
Proof. vm_compute. reflexivity. Qed.

(** ** Concrete inputs: a service that knows the tree of one root in version 7 *)

Module tiles_sample.
Import layer_sample.

Definition layer : str := chars "layer".
Definition R : TileKey := mkTileKey 1 1 1.
Definition leaf : TileKey := mkTileKey 29 17 5.
Definition entry (t : TileKey) (handle : string) : IndexData := mkIndexData t (chars handle) [] [] [] 7 100 50.
Definition parents : list IndexData := [entry (mkTileKey 0 0 0) "hw"].
Definition subs : list IndexData := [entry leaf "ht"].
Definition data : str := chars "data".

Definition index : QuadTreeIndex := default (mkQuadTreeIndex 0 0 0 0 0 [] [] []) (CreateBlob R kAggregateQuadTreeDepth parents subs).

Lemma tree_is_ok : tree_ok R parents subs.
Proof.
  split.
  - vm_compute. intuition congruence.
  - repeat constructor; vm_compute; intuition congruence.
  - repeat constructor; vm_compute; intuition congruence.
  - repeat constructor; cbn; try lia; repeat constructor; vm_compute; intuition congruence.
  - apply (bool_decide_unpack _). vm_compute. done.
  - apply (bool_decide_unpack _). vm_compute. done.
  - done.
  - done.
  - done.
Qed.

Definition contents : Contents := mkContents (fun _ => False) (fun _ _ _ => False) (fun d b => d = chars "ht" /\ b = data)
  (fun v root ps ss => v = Some 7 /\ root = R /\ ps = parents /\ ss = subs).

Definition endpoint (_ : HRN) : str := chars "https://data.here.com".
Definition client : RepositoryClient :=
  mkRepositoryClient hrn (mkReadSettings 3600 false) (ApiLookupClientImpl_new hrn (mkLookupSettings DefaultLookupEndpointProvider (Some endpoint))).

Definition quad (name key handle : string) : json :=
  JObject [(chars name, JString (chars key)); (chars "dataHandle", JString (chars handle)); (chars "version", JInt64 7);
           (chars "dataSize", JInt64 100); (chars "compressedDataSize", JInt64 50)].
Definition response_tree : json :=
  JObject [(chars "subQuads", JArray [quad "subQuadKey" "419" "ht"]); (chars "parentQuads", JArray [quad "partition" "1" "hw"])].

Definition wanted : str := call_path (quad_tree_call layer (ToHereTile R) (Some 7) kAggregateQuadTreeDepth default_additional_fields None).
Definition wanted_data : str := call_path (data_call layer (chars "ht") None None).

Definition serve (_ : key) (call : ApiCall) : HttpResponse :=
  if decide (call_path call = wanted) then response_of 200 (json_serialize response_tree) else response_of 404 [].
Definition stream (_ : key) (call : ApiCall) : HttpResponse * list (Z * str) :=
  if decide (call_path call = wanted_data) then (response_of 200 [], [(0, data)]) else (response_of 404 [], []).

#[export] Instance online : Online Cache unit := simple_online serve stream.
#[export] Instance hashes : Hashes := {| hash_combine seed s := seed + slen s |}.

Lemma parse_tree : exists q, QuadTreeIndex_parse R kAggregateQuadTreeDepth (json_serialize response_tree) = Some (Some q) /\
  CreateBlob R kAggregateQuadTreeDepth parents subs = Some q.
Proof.
  unfold QuadTreeIndex_parse. rewrite json_parse_serialize; [eexists; split; [vm_compute; reflexivity|vm_compute; reflexivity]|].
  repeat first [split | apply NoDup_cons_2 | apply NoDup_nil_2 | (apply (bool_decide_unpack _); by vm_compute) | hnf].
Qed.

Definition no_slash (s : str) : Prop := Forall (fun c => negb (ord c =? 47) = true) s.

Lemma no_slash_number n : 0 <= n -> no_slash (to_string n).
Proof.
  intros Hn. destruct (to_string_spec n Hn) as (_ & Hd & _). eapply Forall_impl; [exact Hd|]. intros a. unfold is_digit. intros. blia.
Qed.

Lemma slash_inj a b x y : no_slash a -> no_slash b -> a ++ "/"%char :: x = b ++ "/"%char :: y -> a = b /\ x = y.
Proof.
  intros Ha Hb E. assert (Ea : a = b).
  { rewrite <- (take_while_app (fun c => negb (ord c =? 47)) a ("/"%char :: x)) by done. rewrite E. by apply take_while_app. }
  split; [done|]. subst b. apply app_inv_head in E. by injection E.
Qed.

Lemma tree_only root v tag : valid root ->
  call_path (quad_tree_call layer (ToHereTile root) v kAggregateQuadTreeDepth default_additional_fields tag) = wanted -> root = R /\ v = Some 7.
Proof.
  intros Hroot. unfold wanted. cbn [call_path quad_tree_call GetCall]. intros E. do 2 apply app_inv_head in E.
  destruct v as [v|]; [|discriminate E]. rewrite <- !app_assoc in E. apply app_inv_head in E.
  assert (Hs : forall z, no_slash (to_string_signed z)).
  { intros z. unfold to_string_signed. destruct (Z.ltb_spec z 0); [apply Forall_cons_2; [done|]|]; apply no_slash_number; lia. }
  apply slash_inj in E as [Ev E]; [|apply Hs..]. apply to_string_signed_inj in Ev as ->.
  change (chars "quadkeys/" ++ ToHereTile root ++ chars "/depths/4" = chars "quadkeys/" ++ ToHereTile R ++ chars "/depths/4") in E.
  apply app_inv_head, slash_inj in E as [E _]; [|apply no_slash_number, (proj1 (ToQuadKey64_range _))..].
  split; [|done]. apply to_string_inj in E; [|apply (proj1 (ToQuadKey64_range _))..].
  by apply quadkey_inj in E.
Qed.

Lemma tree_handle d tag : call_path (data_call layer d tag None) = wanted_data -> d = chars "ht".
Proof. unfold wanted_data. cbn [call_path data_call with_range GetCall]. intros E. by do 3 apply app_inv_head in E. Qed.

(** The service is honest for any cache. *)
Lemma honest_service {S} `{Hcache : KeyValueCache S Model} `{Hlaws : !KeyValueCacheLaws S Model} :
  Honest (H1 := Hcache) (H2 := Hlaws) (H3 := simple_online serve stream) client layer contents.
Proof.
  split.
  - by apply (gives_ret _ 100).
  - apply (keeps_ret _ 100).
  - split; intros; apply (keeps_ret _ tt) || apply (keeps_ret _ None).
  - intros url call. apply (gives_ret _ (serve url call)). unfold serve. case_decide as Hd; [|split; [exists None; reflexivity|intros; discriminate..]].
    split; [exists None; reflexivity|intros ->; discriminate Hd|intros id v tag ->; discriminate Hd|].
    intros root v tag Hroot -> _. destruct (tree_only root v tag Hroot Hd) as [-> ->]. destruct parse_tree as (q & Ep & Eq).
    exists (Some q). split; [exact Ep|]. intros q' [= <-]. exists parents, subs. split; [repeat split|].
    split; [exact tree_is_ok|exact Eq].
  - intros url call. apply (gives_ret _ (stream url call)). unfold stream. case_decide as Hd; [|done]. intros d tag -> _.
    apply tree_handle in Hd as ->. exists [], [data]. split; [reflexivity|]. split; [done|].
    split; [by repeat constructor|]. by split.
Qed.

#[export] Instance honest : Honest client layer contents := honest_service.

Lemma tree_storable : storable_layer client layer contents.
Proof.
  assert (Hnow : forall now, clock_ok now -> 3600 <= kDefaultExpiry /\ (IsExpiryValid 3600 = true -> - 2^63 <= 3600 + now < 2^63)).
  { intros now Hn. unfold clock_ok in Hn. split; [by vm_compute|lia]. }
  split.
  - by intros now id v p _ [].
  - intros now d b Hn [-> ->]. split; [split; [by vm_compute|not_own]|]. split; [by vm_compute|by apply Hnow].
  - intros now root v q Hn Hroot (ps & ss & (-> & -> & -> & ->) & _ & E). split; [split; [by vm_compute|not_own]|].
    assert (Eq : q = index) by (unfold index; by rewrite E). rewrite Eq. split; [by vm_compute|by apply Hnow].
  - by vm_compute.
  - by vm_compute.
  - by intros id v [].
  - by intros id v p [].
  - intros v root entries x (ps & ss & (-> & -> & -> & ->) & ->) Hx. apply elem_of_cons in Hx as [-> | ->%list_elem_of_singleton];
      (split; [by vm_compute|not_own]).
  - intros service [-> | ->]; (split; [by vm_compute|not_own]).
Qed.

Definition start : World Cache unit := mkWorld fresh ∅ tt.
End tiles_sample.

Import tiles_sample.

Lemma aggregated_tile_nearest_witness :
  let request := mkTileRequest (mkTileKey 28 16 5) None OnlineIfNotFound in
  exists w' r st, GetAggregatedTile client layer request (Some 7) start = Some (w', (r, st)) /\
    cache_has (holds (layer_policy (ToCatalogHRNString hrn) layer (kept contents))) w' /\
    forall p, r = inl p -> exists root data x, root_of (mkTileKey 28 16 5) root /\ tree_data contents (Some 7) root data /\
      answers data (mkTileKey 28 16 5) true (Some x) /\ p = partition_of_index x.
Proof.
  apply (aggregated_tile_nearest client layer contents tree_storable
    (mkTileRequest (mkTileKey 28 16 5) None OnlineIfNotFound) (Some 7) start).
  - vm_compute. intuition congruence.
  - apply fresh_holds.
Defined.

Lemma versioned_tile_integrity_witness :
  let request := mkTileRequest leaf None OnlineIfNotFound in
  exists w' r st, GetVersionedTile client layer request 7 start = Some (w', (r, st)) /\
    cache_has (holds (layer_policy (ToCatalogHRNString hrn) layer (kept contents))) w' /\
    match r with
    | inl data => exists root entries x b, data = Some b /\ root_of leaf root /\ tree_data contents (Some 7) root entries /\
        x ∈ entries /\ tile_key x = leaf /\ has_data contents (data_handle x) b
    | inr _ => True
    end.
Proof.
  apply (versioned_tile_integrity client layer contents tree_storable
    (mkTileRequest leaf None OnlineIfNotFound) 7 start).
  - vm_compute. intuition congruence.
  - apply fresh_holds.
Defined.

(** The world tile is found for a tile without data, and the data of one that has it. *)
Example sample_tiles :
  (fun r => match r with (_, (inl p, _)) => Partition_data_handle p | _ => [] end) <$>
    GetAggregatedTile client layer
      (mkTileRequest (mkTileKey 28 16 5) None OnlineIfNotFound) (Some 7) start = Some (chars "hw") /\
  fst <$> (snd <$> GetVersionedTile client layer
      (mkTileRequest leaf None OnlineIfNotFound) 7 start) = Some (inl (Some data)).
Proof. split; vm_compute; reflexivity. Qed.

(** A request for a tile that may use the cache only, for fields that the cached tree does
    not have, asks the service: here it answers 503. *)
Definition refusing : Online Cache unit := simple_online (fun _ _ => response_of 503 []) (fun _ _ => (response_of 503 [], [])).

Example CacheOnly_goes_online :
  (fun r => match r with (_, (inr e, _)) => http_status_code e | _ => 0 end) <$>
    (_ ← GetTile client layer (mkTileRequest leaf None OnlineIfNotFound) (Some 7) [];
     GetTile (H1 := refusing) client layer (mkTileRequest leaf None CacheOnly) (Some 7) [kChecksum]) start = Some 503.
Proof. vm_compute. reflexivity. Qed.
