(* ===== verification/PartitionsSaxHandler.v ===== *)
(** * The handler of streamed partitions

    Model of [PartitionsSaxHandler] (dataservice-read,
    src/repositories/PartitionsSaxHandler.cpp and .h), which gets the events of a parser
    and calls a callback with each partition of a response while it is downloaded
    (PartitionStream.v).

    The parser [boost::json::basic_parser] is not part of the repository; the handler is
    what it does with each event.  What a [std::string] holds after it was moved from is
    not specified by the language: it is the parameter [moved_from]. *)

From S2P Require Import Prelude Json ReadModels.

(** The byte as a [char], which has a sign on the platforms of the SDK. *)
Definition signed_char (c : ascii) : Z := let n := Z.of_N (N_of_ascii c) in if n <? 128 then n else n - 256.

(** [HashStringToInt], of a string without the terminator: [unsigned long long] wraps. *)
Fixpoint HashStringToInt (str : list ascii) : Z :=
  match str with
  | [] => 0
  | c :: rest => if bool_decide (c = Ascii.zero) then 0 else u64 (101 * HashStringToInt rest + signed_char c)
  end.

Inductive State :=
| WaitForRootObject | WaitForRootPartitions | WaitPartitionsArray | WaitForNextPartition | WaitForRootObjectEnd
| ProcessingAttribute
| ParsingVersion | ParsingPartitionName | ParsingDataHandle | ParsingChecksum | ParsingDataSize
| ParsingCompressedDataSize | ParsingCrc | ParsingIgnoreAttribute
| ParsingComplete.

#[export] Instance State_eq_dec : EqDecision State.
Proof. solve_decision. Defined.

(** [delivered] is not a member: the partitions that the callback was called with. *)
Record Handler := mkHandler {
  state_ : State;
  partition_ : Partition;
  key_ : list ascii;
  value_ : list ascii;
  continue_parsing_ : bool;
  delivered : list Partition }.

Definition Handler_new : Handler := mkHandler WaitForRootObject initial [] [] true [].

Definition set_state (st : State) (h : Handler) : Handler :=
  mkHandler st (partition_ h) (key_ h) (value_ h) (continue_parsing_ h) (delivered h).
Definition set_partition (p : Partition) (h : Handler) : Handler :=
  mkHandler (state_ h) p (key_ h) (value_ h) (continue_parsing_ h) (delivered h).
Definition set_key (s : list ascii) (h : Handler) : Handler :=
  mkHandler (state_ h) (partition_ h) s (value_ h) (continue_parsing_ h) (delivered h).
Definition set_value (s : list ascii) (h : Handler) : Handler :=
  mkHandler (state_ h) (partition_ h) (key_ h) s (continue_parsing_ h) (delivered h).

(** [Abort] *)
Definition Abort (h : Handler) : Handler :=
  mkHandler (state_ h) (partition_ h) (key_ h) (value_ h) false (delivered h).

(** What a function of the handler returns: [true]; [false] with the error [extra_data];
    [false] without an error. *)
Inductive reply := Continue | ExtraData | Refused.

#[export] Instance reply_eq_dec : EqDecision reply.
Proof. solve_decision. Defined.

Definition CanContinue (h : Handler) : reply := if continue_parsing_ h then Continue else ExtraData.

(** The setters of [model::Partition]. *)
Definition SetChecksum (s : option (list ascii)) (p : Partition) : Partition :=
  mkPartition s (Partition_compressed_data_size p) (Partition_data_handle p) (Partition_data_size p) (Partition_crc p) (Partition_partition p) (Partition_version p).
Definition SetCompressedDataSize (z : option Z) (p : Partition) : Partition :=
  mkPartition (Partition_checksum p) z (Partition_data_handle p) (Partition_data_size p) (Partition_crc p) (Partition_partition p) (Partition_version p).
Definition SetDataHandle (s : list ascii) (p : Partition) : Partition :=
  mkPartition (Partition_checksum p) (Partition_compressed_data_size p) s (Partition_data_size p) (Partition_crc p) (Partition_partition p) (Partition_version p).
Definition SetDataSize (z : option Z) (p : Partition) : Partition :=
  mkPartition (Partition_checksum p) (Partition_compressed_data_size p) (Partition_data_handle p) z (Partition_crc p) (Partition_partition p) (Partition_version p).
Definition SetCrc (s : option (list ascii)) (p : Partition) : Partition :=
  mkPartition (Partition_checksum p) (Partition_compressed_data_size p) (Partition_data_handle p) (Partition_data_size p) s (Partition_partition p) (Partition_version p).
Definition SetPartition (s : list ascii) (p : Partition) : Partition :=
  mkPartition (Partition_checksum p) (Partition_compressed_data_size p) (Partition_data_handle p) (Partition_data_size p) (Partition_crc p) s (Partition_version p).
Definition SetVersion (z : option Z) (p : Partition) : Partition :=
  mkPartition (Partition_checksum p) (Partition_compressed_data_size p) (Partition_data_handle p) (Partition_data_size p) (Partition_crc p) (Partition_partition p) z.

(** A [switch] over hashes. *)
Definition hashes_to (name : list ascii) (label : string) : bool := HashStringToInt name =? HashStringToInt (chars label).

Definition ProcessNextAttribute (name : list ascii) : State :=
  if hashes_to name "dataHandle" then ParsingDataHandle
  else if hashes_to name "partition" then ParsingPartitionName
  else if hashes_to name "checksum" then ParsingChecksum
  else if hashes_to name "dataSize" then ParsingDataSize
  else if hashes_to name "compressedDataSize" then ParsingCompressedDataSize
  else if hashes_to name "version" then ParsingVersion
  else if hashes_to name "crc" then ParsingCrc
  else ParsingIgnoreAttribute.

Definition is_empty (s : list ascii) : bool := match s with [] => true | _ => false end.

Section handler.
Context (moved_from : list ascii -> list ascii).

(** What is left in a partition that was moved from: the optional attributes stay there. *)
Definition Partition_moved (p : Partition) : Partition :=
  mkPartition (moved_from <$> Partition_checksum p) (Partition_compressed_data_size p) (moved_from (Partition_data_handle p))
    (Partition_data_size p) (moved_from <$> Partition_crc p) (moved_from (Partition_partition p)) (Partition_version p).

(** [partition_callback_(std::move(partition_))] *)
Definition deliver (h : Handler) : Handler :=
  mkHandler (state_ h) (Partition_moved (partition_ h)) (key_ h) (value_ h) (continue_parsing_ h) (delivered h ++ [partition_ h]).

(** [String], of a key and of a value. *)
Definition String_ (str : list ascii) (h : Handler) : Handler * reply :=
  let set p := let h := set_state ProcessingAttribute (set_partition p h) in (h, CanContinue h) in
  match state_ h with
  | ProcessingAttribute => let h := set_state (ProcessNextAttribute str) h in (h, CanContinue h)
  | WaitForRootPartitions =>
      if HashStringToInt (chars "partitions") =? HashStringToInt str
      then let h := set_state WaitPartitionsArray h in (h, CanContinue h)
      else (h, ExtraData)
  | ParsingPartitionName => set (SetPartition str (partition_ h))
  | ParsingDataHandle => set (SetDataHandle str (partition_ h))
  | ParsingChecksum => set (SetChecksum (Some str) (partition_ h))
  | ParsingCrc => set (SetCrc (Some str) (partition_ h))
  | ParsingIgnoreAttribute => set (partition_ h)
  | _ => (h, Refused)
  end.

Definition on_int64_ (value : Z) (h : Handler) : Handler * reply :=
  let set p := let h := set_state ProcessingAttribute (set_partition p h) in (h, CanContinue h) in
  match state_ h with
  | ParsingVersion => set (SetVersion (Some value) (partition_ h))
  | ParsingDataSize => set (SetDataSize (Some value) (partition_ h))
  | ParsingCompressedDataSize => set (SetCompressedDataSize (Some value) (partition_ h))
  | _ => (h, ExtraData)
  end.

Definition on_object_begin_ (h : Handler) : Handler * reply :=
  match state_ h with
  | WaitForRootObject => let h := set_state WaitForRootPartitions h in (h, CanContinue h)
  | WaitForNextPartition => let h := set_state ProcessingAttribute h in (h, CanContinue h)
  | _ => (h, ExtraData)
  end.

Definition on_object_end_ (h : Handler) : Handler * reply :=
  match state_ h with
  | WaitForRootObjectEnd => let h := set_state ParsingComplete h in (h, CanContinue h)
  | ProcessingAttribute =>
      if is_empty (Partition_data_handle (partition_ h)) || is_empty (Partition_partition (partition_ h)) then (h, ExtraData)
      else let h := set_state WaitForNextPartition (deliver h) in (h, CanContinue h)
  | _ => (h, ExtraData)
  end.

Definition on_array_begin_ (h : Handler) : Handler * reply :=
  match state_ h with
  | WaitPartitionsArray => let h := set_state WaitForNextPartition h in (h, CanContinue h)
  | _ => (h, ExtraData)
  end.

Definition on_array_end_ (h : Handler) : Handler * reply :=
  match state_ h with
  | WaitForNextPartition => let h := set_state WaitForRootObjectEnd h in (h, CanContinue h)
  | _ => (h, ExtraData)
  end.

(** The calls of the parser.  A text comes in parts, with the size of what came so far. *)
Inductive event :=
| on_document_begin | on_document_end | on_array_begin | on_array_end | on_object_begin | on_object_end
| on_string_part (str : list ascii) (size : Z) | on_string (str : list ascii) (size : Z)
| on_key_part (str : list ascii) (size : Z) | on_key (str : list ascii) (size : Z)
| on_number_part | on_uint64 (value : Z) | on_int64 (value : Z) | on_double | on_bool | on_null
| on_comment_part | on_comment.

(** [str.length() == size ? buffer = str : buffer += str] *)
Definition add_part (buffer str : list ascii) (size : Z) : list ascii := if Z.of_nat (length str) =? size then str else buffer ++ str.

Definition handle (e : event) (h : Handler) : Handler * reply :=
  match e with
  | on_document_begin | on_document_end => (h, if continue_parsing_ h then Continue else Refused)
  | on_array_begin => on_array_begin_ h
  | on_array_end => on_array_end_ h
  | on_object_begin => on_object_begin_ h
  | on_object_end => on_object_end_ h
  | on_string_part str size => let h := set_value (add_part (value_ h) str size) h in (h, CanContinue h)
  | on_string str size => let h := set_value (add_part (value_ h) str size) h in String_ (value_ h) h
  | on_key_part str size => let h := set_key (add_part (key_ h) str size) h in (h, CanContinue h)
  | on_key str size => let h := set_key (add_part (key_ h) str size) h in String_ (key_ h) h
  | on_uint64 value => on_int64_ (s64 value) h
  | on_int64 value => on_int64_ value h
  | on_double | on_bool | on_null => (h, ExtraData)
  | on_number_part | on_comment_part | on_comment => (h, CanContinue h)
  end.

(** The events up to the first that the handler does not accept. *)
Fixpoint handle_all (es : list event) (h : Handler) : Handler * reply :=
  match es with
  | [] => (h, Continue)
  | e :: es =>
      match handle e h with
      | (h, Continue) => handle_all es h
      | r => r
      end
  end.
End handler.

(** ** The events of a document

    A text comes in any number of parts, which may cut it anywhere. *)

Fixpoint text_events (part whole : list ascii -> Z -> event) (size : Z) (pieces : list (list ascii)) : list event :=
  match pieces with
  | [] => []
  | [s] => [whole s (size + Z.of_nat (length s))]
  | s :: pieces => part s (size + Z.of_nat (length s)) :: text_events part whole (size + Z.of_nat (length s)) pieces
  end.

Inductive value_events : json -> list event -> Prop :=
| string_events pieces : pieces <> [] -> value_events (JString (concat pieces)) (text_events on_string_part on_string 0 pieces)
| int64_events z parts : value_events (JInt64 z) (replicate parts on_number_part ++ [on_int64 z])
| uint64_events z parts : value_events (JUint64 z) (replicate parts on_number_part ++ [on_uint64 z]).

Inductive member_events : list ascii * json -> list event -> Prop :=
| events_of_member pieces v es : pieces <> [] -> value_events v es ->
    member_events (concat pieces, v) (text_events on_key_part on_key 0 pieces ++ es).

Inductive object_events : object -> list event -> Prop :=
| events_of_object o ess : Forall2 member_events o ess -> object_events o (on_object_begin :: concat ess ++ [on_object_end]).

Inductive document_events : list object -> list event -> Prop :=
| events_of_document objs pieces ess : pieces <> [] -> concat pieces = chars "partitions" -> Forall2 object_events objs ess ->
    document_events objs
      (on_document_begin :: on_object_begin :: text_events on_key_part on_key 0 pieces ++ on_array_begin :: concat ess ++
       [on_array_end; on_object_end; on_document_end]).

(** The document itself. *)
Definition document (objs : list object) : json := JObject [(chars "partitions", JArray (JObject <$> objs))].

Definition text_attributes : list (list ascii) := chars <$> ["dataHandle"; "partition"; "checksum"; "crc"]%string.
Definition number_attributes : list (list ascii) := chars <$> ["version"; "dataSize"; "compressedDataSize"]%string.
Definition optional_attributes : list (list ascii) := chars <$> ["checksum"; "crc"; "version"; "dataSize"; "compressedDataSize"]%string.

(** The members that the handler can read: an attribute with a value of its type, or
    another one with a text. *)
Inductive readable : list ascii * json -> Prop :=
| readable_text name s : name ∈ text_attributes -> readable (name, JString s)
| readable_int64 name z : name ∈ number_attributes -> readable (name, JInt64 z)
| readable_uint64 name z : name ∈ number_attributes -> 0 <= z < 2^63 -> readable (name, JUint64 z)
| readable_other name s : name ∉ text_attributes -> name ∉ number_attributes ->
    ProcessNextAttribute name = ParsingIgnoreAttribute -> readable (name, JString s).

(** An object of a partition: each name once, and a partition and a data handle. *)
Record partition_object (o : object) : Prop := {
  object_names : NoDup o.*1;
  object_members : Forall readable o;
  object_handle : exists c s, find (chars "dataHandle") o = Some (JString (c :: s));
  object_partition : exists c s, find (chars "partition") o = Some (JString (c :: s)) }.

(** What a member is read as, and a whole object: over a partition that is there. *)
Definition set_member (m : list ascii * json) (p : Partition) : Partition :=
  match ProcessNextAttribute m.1, m.2 with
  | ParsingDataHandle, JString s => SetDataHandle s p
  | ParsingPartitionName, JString s => SetPartition s p
  | ParsingChecksum, JString s => SetChecksum (Some s) p
  | ParsingCrc, JString s => SetCrc (Some s) p
  | ParsingVersion, (JInt64 z | JUint64 z) => SetVersion (Some z) p
  | ParsingDataSize, (JInt64 z | JUint64 z) => SetDataSize (Some z) p
  | ParsingCompressedDataSize, (JInt64 z | JUint64 z) => SetCompressedDataSize (Some z) p
  | _, _ => p
  end.

Definition read_over (p : Partition) (o : object) : Partition := foldl (fun p m => set_member m p) p o.

(** ** Proofs *)

(** A text in parts is the text: [size] is the length of [whole], which came before. *)
Lemma add_part_grows buffer whole s size : size = Z.of_nat (length whole) -> whole = [] \/ buffer = whole ->
  add_part buffer s (size + Z.of_nat (length s)) = whole ++ s.
Proof.
  intros -> H. unfold add_part. destruct (Z.eqb_spec (Z.of_nat (length s)) (Z.of_nat (length whole) + Z.of_nat (length s))).
  - by assert (whole = []) as -> by (destruct whole; [done|cbn in *; lia]).
  - destruct H as [->| ->]; [cbn in *; lia|done].
Qed.

Lemma size_grows (whole s : list ascii) size : size = Z.of_nat (length whole) -> size + Z.of_nat (length s) = Z.of_nat (length (whole ++ s)).
Proof. intros ->. rewrite length_app. lia. Qed.

Lemma text_events_cons part whole size s s' pieces : text_events part whole size (s :: s' :: pieces) =
  part s (size + Z.of_nat (length s)) :: text_events part whole (size + Z.of_nat (length s)) (s' :: pieces).
Proof. done. Qed.

Section proofs.
Context (moved_from : list ascii -> list ascii).
Abbreviation handle := (handle moved_from).
Abbreviation handle_all := (handle_all moved_from).

Lemma handle_all_app es es' h : handle_all (es ++ es') h =
  match handle_all es h with (h, Continue) => handle_all es' h | r => r end.
Proof.
  revert h. induction es as [|e es IH]; intros h; [done|]. cbn [PartitionsSaxHandler.handle_all app].
  destruct (handle e h) as [h' []]; auto.
Qed.

Lemma handle_all_through es es' h h' : handle_all es h = (h', Continue) -> handle_all (es ++ es') h = handle_all es' h'.
Proof. intros E. by rewrite handle_all_app, E. Qed.

Lemma handle_all_cons e es h h' : handle e h = (h', Continue) -> handle_all (e :: es) h = handle_all es h'.
Proof. intros E. cbn [PartitionsSaxHandler.handle_all]. by rewrite E. Qed.

Lemma CanContinue_true h : continue_parsing_ h = true -> CanContinue h = Continue.
Proof. unfold CanContinue. by intros ->. Qed.

(** What the handler does with a whole text. *)
Lemma handle_one e h : handle_all [e] h = handle e h.
Proof. cbn [PartitionsSaxHandler.handle_all]. by destruct (handle e h) as [? []]. Qed.

Section text.
Context (part last : list ascii -> Z -> event) (get : Handler -> list ascii) (set : list ascii -> Handler -> Handler).
Hypothesis handle_part : forall s n h, continue_parsing_ h = true -> handle (part s n) h = (set (add_part (get h) s n) h, Continue).
Hypothesis handle_last : forall s n h, handle (last s n) h = String_ (add_part (get h) s n) (set (add_part (get h) s n) h).
Hypothesis get_set : forall s h, get (set s h) = s.
Hypothesis set_set : forall s s' h, set s (set s' h) = set s h.
Hypothesis continue_set : forall s h, continue_parsing_ (set s h) = continue_parsing_ h.

Lemma handle_text_from pieces : forall size whole h, pieces <> [] -> continue_parsing_ h = true ->
  size = Z.of_nat (length whole) -> whole = [] \/ get h = whole ->
  handle_all (text_events part last size pieces) h = String_ (whole ++ concat pieces) (set (whole ++ concat pieces) h).
Proof.
  induction pieces as [|s [|s' pieces] IH]; intros size whole h Hp Hc Hs H; [done|..].
  - cbn [text_events concat]. rewrite handle_one, app_nil_r, handle_last. by rewrite (add_part_grows _ whole).
  - rewrite text_events_cons. erewrite handle_all_cons by (by apply handle_part). rewrite (add_part_grows _ whole) by done.
    rewrite (IH _ (whole ++ s)); [|done|by rewrite continue_set|by apply size_grows|right; apply get_set].
    change (concat (s :: s' :: pieces)) with (s ++ concat (s' :: pieces)). by rewrite (app_assoc whole), set_set.
Qed.
End text.

Lemma handle_key pieces h : pieces <> [] -> continue_parsing_ h = true ->
  handle_all (text_events on_key_part on_key 0 pieces) h = String_ (concat pieces) (set_key (concat pieces) h).
Proof.
  intros Hp Hc. apply (handle_text_from on_key_part on_key key_ set_key) with (whole := []); auto.
  intros s n h' H. cbn [PartitionsSaxHandler.handle]. by rewrite CanContinue_true.
Qed.

Lemma handle_string pieces h : pieces <> [] -> continue_parsing_ h = true ->
  handle_all (text_events on_string_part on_string 0 pieces) h = String_ (concat pieces) (set_value (concat pieces) h).
Proof.
  intros Hp Hc. apply (handle_text_from on_string_part on_string value_ set_value) with (whole := []); auto.
  intros s n h' H. cbn [PartitionsSaxHandler.handle]. by rewrite CanContinue_true.
Qed.

Lemma handle_number_parts n h : continue_parsing_ h = true -> handle_all (replicate n on_number_part) h = (h, Continue).
Proof. intros Hc. induction n as [|n IH]; [done|]. cbn [replicate]. erewrite handle_all_cons; [exact IH|]. cbn. by rewrite CanContinue_true. Qed.

Lemma handle_value v es h : value_events v es -> continue_parsing_ h = true ->
  handle_all es h = match v with
                    | JString s => String_ s (set_value s h)
                    | JInt64 z => on_int64_ z h
                    | JUint64 z => on_int64_ (s64 z) h
                    | _ => (h, Continue)
                    end.
Proof.
  intros Hv Hc. destruct Hv as [pieces Hp|z n|z n]; [by apply handle_string|..];
    by rewrite (handle_all_through _ _ _ _ (handle_number_parts _ _ Hc)), handle_one.
Qed.

(** A handler that goes on, in a state, with a partition and what it delivered. *)
Definition goes_on_at (st : State) (p : Partition) (ds : list Partition) (h : Handler) : Prop :=
  state_ h = st /\ partition_ h = p /\ delivered h = ds /\ continue_parsing_ h = true.

Lemma s64_small z : 0 <= z < 2^63 -> s64 z = z.
Proof. intros Hz. unfold s64. rewrite u64_small by (unfold is_u64; lia). cbv zeta. destruct (Z.ltb_spec z (2^63)); lia. Qed.

Lemma text_attribute_state name : name ∈ text_attributes ->
  (name = chars "dataHandle" /\ ProcessNextAttribute name = ParsingDataHandle) \/
  (name = chars "partition" /\ ProcessNextAttribute name = ParsingPartitionName) \/
  (name = chars "checksum" /\ ProcessNextAttribute name = ParsingChecksum) \/
  (name = chars "crc" /\ ProcessNextAttribute name = ParsingCrc).
Proof.
  unfold text_attributes. rewrite list_elem_of_fmap. intros (label & -> & Hl).
  repeat (apply elem_of_cons in Hl as [->|Hl]; [vm_compute; tauto|]). by apply elem_of_nil in Hl.
Qed.

Lemma number_attribute_state name : name ∈ number_attributes ->
  (name = chars "version" /\ ProcessNextAttribute name = ParsingVersion) \/
  (name = chars "dataSize" /\ ProcessNextAttribute name = ParsingDataSize) \/
  (name = chars "compressedDataSize" /\ ProcessNextAttribute name = ParsingCompressedDataSize).
Proof.
  unfold number_attributes. rewrite list_elem_of_fmap. intros (label & -> & Hl).
  repeat (apply elem_of_cons in Hl as [->|Hl]; [vm_compute; tauto|]). by apply elem_of_nil in Hl.
Qed.

Lemma readable_inv name v : readable (name, v) ->
  (exists s, name ∈ text_attributes /\ v = JString s) \/
  (exists z, name ∈ number_attributes /\ (v = JInt64 z \/ v = JUint64 z /\ 0 <= z < 2^63)) \/
  (exists s, name ∉ text_attributes /\ name ∉ number_attributes /\ ProcessNextAttribute name = ParsingIgnoreAttribute /\ v = JString s).
Proof.
  intros H. remember (name, v) as m eqn:E. destruct H as [n s Hn|n z Hn|n z Hn Hz|n s H1 H2 Hn]; injection E as <- <-.
  - left. by exists s.
  - right; left. exists z. auto.
  - right; left. exists z. auto.
  - right; right. by exists s.
Qed.

Lemma handle_member m es p ds h : readable m -> member_events m es -> goes_on_at ProcessingAttribute p ds h ->
  exists h', handle_all es h = (h', Continue) /\ goes_on_at ProcessingAttribute (set_member m p) ds h'.
Proof.
  intros Hr Hm (Hst & <- & <- & Hc). revert Hr. destruct Hm as [pieces v es' Hp Hv]. intros Hr. rewrite handle_all_app, handle_key by done.
  unfold String_ at 1. change (state_ (set_key (concat pieces) h)) with (state_ h). rewrite Hst. cbv zeta. rewrite CanContinue_true by exact Hc.
  rewrite (handle_value v) by done. unfold set_member. cbn [fst snd].
  set (name := concat pieces) in *. clearbody name.
  destruct (readable_inv _ _ Hr) as [(s & Hn & ->)|[(z & Hn & [->|[-> Hz]])|(s & _ & _ & Hn & ->)]].
  1: apply text_attribute_state in Hn as [[_ Hn]|[[_ Hn]|[[_ Hn]|[_ Hn]]]].
  5,6: apply number_attribute_state in Hn as [[_ Hn]|[[_ Hn]|[_ Hn]]].
  all: rewrite Hn; try rewrite s64_small by done; unfold String_, on_int64_; cbn [state_ set_state set_value]; cbv zeta.
  all: rewrite CanContinue_true by exact Hc; eexists; split; [reflexivity|by repeat split].
Qed.

Lemma handle_members o ess p ds h : Forall readable o -> Forall2 member_events o ess -> goes_on_at ProcessingAttribute p ds h ->
  exists h', handle_all (concat ess) h = (h', Continue) /\ goes_on_at ProcessingAttribute (read_over p o) ds h'.
Proof.
  intros Hr H. revert p h. induction H as [|m es o ess Hm _ IH]; intros p h Hh; [by exists h|].
  apply Forall_cons in Hr as [Hr1 Hr]. destruct (handle_member _ _ _ _ _ Hr1 Hm Hh) as (h1 & E & H1). cbn [concat].
  rewrite (handle_all_through _ _ _ _ E). by apply (IH Hr (set_member m p)).
Qed.

(** *** What was read *)

Lemma find_none name (o : object) : name ∉ o.*1 -> find name o = None.
Proof.
  induction o as [|[k v] o IH]; [done|]. cbn [find]. intros [H1 H2]%not_elem_of_cons. rewrite decide_False by done. auto.
Qed.

Lemma find_in name (o : object) v : find name o = Some v -> (name, v) ∈ o.
Proof.
  induction o as [|[k w] o IH]; [done|]. cbn [find]. case_decide as E; [intros [= ->]; subst; by apply elem_of_cons; left|].
  intros H. apply elem_of_cons. auto.
Qed.

(** A field that only the member of a label sets. *)
Lemma read_field {X} (f : Partition -> X) (label : list ascii) (val : json -> X) :
  (forall v p, readable (label, v) -> f (set_member (label, v) p) = val v) ->
  (forall n v p, readable (n, v) -> n <> label -> f (set_member (n, v) p) = f p) ->
  forall o p, NoDup o.*1 -> Forall readable o ->
  f (read_over p o) = match find label o with Some v => val v | None => f p end.
Proof.
  intros Hset Hother o. induction o as [|[n v] o IH]; intros p Hn Hr; [done|].
  apply NoDup_cons in Hn as [Hn1 Hn]. apply Forall_cons in Hr as [Hr1 Hr].
  change (read_over p ((n, v) :: o)) with (read_over (set_member (n, v) p) o).
  rewrite IH by done. cbn [find]. destruct (decide (n = label)) as [->|Hne].
  - rewrite find_none by done. by apply Hset.
  - destruct (find label o); [done|]. by apply Hother.
Qed.

(** The text or the number of a member. *)
Definition text_of (v : json) : list ascii := match v with JString s => s | _ => [] end.
Definition number_of (v : json) : Z := match v with JInt64 z | JUint64 z => z | _ => 0 end.

Definition partition_over (p : Partition) (o : object) : Partition :=
  mkPartition
    (match find (chars "checksum") o with Some v => Some (text_of v) | None => Partition_checksum p end)
    (match find (chars "compressedDataSize") o with Some v => Some (number_of v) | None => Partition_compressed_data_size p end)
    (match find (chars "dataHandle") o with Some v => text_of v | None => Partition_data_handle p end)
    (match find (chars "dataSize") o with Some v => Some (number_of v) | None => Partition_data_size p end)
    (match find (chars "crc") o with Some v => Some (text_of v) | None => Partition_crc p end)
    (match find (chars "partition") o with Some v => text_of v | None => Partition_partition p end)
    (match find (chars "version") o with Some v => Some (number_of v) | None => Partition_version p end).

(** The cases of a member that is readable. *)
Ltac member_cases H :=
  let Hn := fresh in let E := fresh in
  apply readable_inv in H as [(? & Hn & ->)|[(? & Hn & E)|(? & ? & ? & Hn & ->)]];
  [apply text_attribute_state in Hn as [[-> Hn]|[[-> Hn]|[[-> Hn]|[-> Hn]]]]
  |apply number_attribute_state in Hn as [[-> Hn]|[[-> Hn]|[-> Hn]]]; destruct E as [->|[-> ?]]
  |]; unfold set_member; cbn [fst snd]; rewrite Hn.

Lemma set_member_other n v p : readable (n, v) ->
  (n <> chars "checksum" -> Partition_checksum (set_member (n, v) p) = Partition_checksum p) /\
  (n <> chars "compressedDataSize" -> Partition_compressed_data_size (set_member (n, v) p) = Partition_compressed_data_size p) /\
  (n <> chars "dataHandle" -> Partition_data_handle (set_member (n, v) p) = Partition_data_handle p) /\
  (n <> chars "dataSize" -> Partition_data_size (set_member (n, v) p) = Partition_data_size p) /\
  (n <> chars "crc" -> Partition_crc (set_member (n, v) p) = Partition_crc p) /\
  (n <> chars "partition" -> Partition_partition (set_member (n, v) p) = Partition_partition p) /\
  (n <> chars "version" -> Partition_version (set_member (n, v) p) = Partition_version p).
Proof. intros H. member_cases H; split_and!; intros Hne; first [reflexivity|by destruct Hne]. Qed.

Lemma readable_text_of label v : readable (label, v) -> label ∈ text_attributes -> v = JString (text_of v).
Proof.
  intros [(s & _ & ->)|[(z & Hn & _)|(s & _ & _ & _ & ->)]]%readable_inv Hl; [done| |done]. exfalso.
  by apply number_attribute_state in Hn as [[-> _]|[[-> _]|[-> _]]]; apply text_attribute_state in Hl as [[? _]|[[? _]|[[? _]|[? _]]]].
Qed.

Lemma readable_number_of label v : readable (label, v) -> label ∈ number_attributes -> to_number_int64 v = Some (number_of v).
Proof.
  intros [(s & Hn & ->)|[(z & Hn & [->|[-> Hz]])|(s & _ & H & _ & ->)]]%readable_inv Hl; [|done| |done].
  - exfalso. by apply text_attribute_state in Hn as [[-> _]|[[-> _]|[[-> _]|[-> _]]]]; apply number_attribute_state in Hl as [[? _]|[[? _]|[? _]]].
  - cbn [to_number_int64 number_of]. unfold in_int64. by btrue (- 2^63 <=? z); btrue (z <? 2^63).
Qed.


Lemma set_member_set n v p : readable (n, v) ->
  (n = chars "checksum" -> Partition_checksum (set_member (n, v) p) = Some (text_of v)) /\
  (n = chars "compressedDataSize" -> Partition_compressed_data_size (set_member (n, v) p) = Some (number_of v)) /\
  (n = chars "dataHandle" -> Partition_data_handle (set_member (n, v) p) = text_of v) /\
  (n = chars "dataSize" -> Partition_data_size (set_member (n, v) p) = Some (number_of v)) /\
  (n = chars "crc" -> Partition_crc (set_member (n, v) p) = Some (text_of v)) /\
  (n = chars "partition" -> Partition_partition (set_member (n, v) p) = text_of v) /\
  (n = chars "version" -> Partition_version (set_member (n, v) p) = Some (number_of v)).
Proof.
  intros H. member_cases H; split_and!; intros Heq; try reflexivity; try discriminate Heq.
  all: exfalso; subst n; match goal with E : ProcessNextAttribute _ = ParsingIgnoreAttribute |- _ => vm_compute in E; discriminate E end.
Qed.

Ltac destruct_set H := destruct (set_member_set _ _ ltac:(assumption) H) as (S1 & S2 & S3 & S4 & S5 & S6 & S7).
Ltac destruct_other H := destruct (set_member_other _ _ ltac:(assumption) H) as (O1 & O2 & O3 & O4 & O5 & O6 & O7).

Lemma read_over_spec p o : NoDup o.*1 -> Forall readable o -> read_over p o = partition_over p o.
Proof.
  intros Hn Hr. assert (E : forall q : Partition, q = mkPartition (Partition_checksum q) (Partition_compressed_data_size q) (Partition_data_handle q)
    (Partition_data_size q) (Partition_crc q) (Partition_partition q) (Partition_version q)) by by intros [].
  rewrite (E (read_over p o)). unfold partition_over.
  f_equal.
  - apply read_field with (val := fun v => Some (text_of v)); [intros v q H; destruct_set H; exact (S1 eq_refl)|intros n v q H Hne; destruct_other H; exact (O1 Hne)|exact Hn|exact Hr].
  - apply read_field with (val := fun v => Some (number_of v)); [intros v q H; destruct_set H; exact (S2 eq_refl)|intros n v q H Hne; destruct_other H; exact (O2 Hne)|exact Hn|exact Hr].
  - apply read_field with (val := text_of); [intros v q H; destruct_set H; exact (S3 eq_refl)|intros n v q H Hne; destruct_other H; exact (O3 Hne)|exact Hn|exact Hr].
  - apply read_field with (val := fun v => Some (number_of v)); [intros v q H; destruct_set H; exact (S4 eq_refl)|intros n v q H Hne; destruct_other H; exact (O4 Hne)|exact Hn|exact Hr].
  - apply read_field with (val := fun v => Some (text_of v)); [intros v q H; destruct_set H; exact (S5 eq_refl)|intros n v q H Hne; destruct_other H; exact (O5 Hne)|exact Hn|exact Hr].
  - apply read_field with (val := text_of); [intros v q H; destruct_set H; exact (S6 eq_refl)|intros n v q H Hne; destruct_other H; exact (O6 Hne)|exact Hn|exact Hr].
  - apply read_field with (val := fun v => Some (number_of v)); [intros v q H; destruct_set H; exact (S7 eq_refl)|intros n v q H Hne; destruct_other H; exact (O7 Hne)|exact Hn|exact Hr].
Qed.

(** What the parser of the document reads. *)
Lemma parse_text label (o : object) : Forall readable o -> label ∈ text_attributes ->
  parse (T := list ascii) (JObject o) label = Some (match find label o with Some v => text_of v | None => [] end) /\
  parse (T := option (list ascii)) (JObject o) label = Some (match find label o with Some v => Some (text_of v) | None => None end).
Proof.
  intros Hr Hl. unfold parse. destruct (find label o) as [v|] eqn:E; [|done].
  rewrite (readable_text_of label v); [done| |done]. rewrite Forall_forall in Hr. by apply Hr, find_in.
Qed.

Lemma parse_number label (o : object) : Forall readable o -> label ∈ number_attributes ->
  parse (T := option Z) (JObject o) label = Some (match find label o with Some v => Some (number_of v) | None => None end).
Proof.
  intros Hr Hl. unfold parse. destruct (find label o) as [v|] eqn:E; [|done].
  cbn [from_json optional_from_json int64_from_json]. rewrite (readable_number_of label v); [done| |done].
  rewrite Forall_forall in Hr. by apply Hr, find_in.
Qed.

Ltac attribute := unfold text_attributes, number_attributes; cbn [fmap list_fmap]; repeat first [apply list_elem_of_here | apply list_elem_of_further].

Lemma from_json_partition o : NoDup o.*1 -> Forall readable o -> from_json (T := Partition) (JObject o) = Some (read_over initial o).
Proof.
  intros Hn Hr. rewrite read_over_spec by done. cbn [from_json Partition_from_json].
  rewrite (proj2 (parse_text (chars "checksum") o Hr ltac:(attribute))), (parse_number (chars "compressedDataSize") o Hr ltac:(attribute)),
    (proj1 (parse_text (chars "dataHandle") o Hr ltac:(attribute))), (parse_number (chars "dataSize") o Hr ltac:(attribute)),
    (proj2 (parse_text (chars "crc") o Hr ltac:(attribute))), (proj1 (parse_text (chars "partition") o Hr ltac:(attribute))),
    (parse_number (chars "version") o Hr ltac:(attribute)). reflexivity.
Qed.

(** *** Whole documents *)

(** The partitions that are delivered: each is read over what the one before left. *)
Fixpoint read_stream (p : Partition) (objs : list object) : list Partition :=
  match objs with
  | [] => []
  | o :: objs => let q := read_over p o in q :: read_stream (Partition_moved moved_from q) objs
  end.

Lemma handle_object o es p ds h : partition_object o -> object_events o es -> goes_on_at WaitForNextPartition p ds h ->
  exists h', handle_all es h = (h', Continue) /\
    goes_on_at WaitForNextPartition (Partition_moved moved_from (read_over p o)) (ds ++ [read_over p o]) h'.
Proof.
  intros [Hn Hr (c & s & Hh) (c' & s' & Hp)] He. destruct He as [o ess He]. intros (Hst & <- & <- & Hc).
  erewrite handle_all_cons by (cbn [PartitionsSaxHandler.handle]; unfold on_object_begin_; rewrite Hst; cbv zeta; by rewrite CanContinue_true by exact Hc).
  destruct (handle_members o ess (partition_ h) (delivered h) (set_state ProcessingAttribute h) Hr He) as (h1 & E & Hst1 & Hp1 & Hd1 & Hc1);
    [by repeat split|].
  rewrite (handle_all_through _ _ _ _ E), handle_one. cbn [PartitionsSaxHandler.handle]. unfold on_object_end_. rewrite Hst1, Hp1.
  assert (Eh : Partition_data_handle (read_over (partition_ h) o) = c :: s) by (rewrite read_over_spec by done; cbn [partition_over Partition_data_handle]; by rewrite Hh).
  assert (Ep : Partition_partition (read_over (partition_ h) o) = c' :: s') by (rewrite read_over_spec by done; cbn [partition_over Partition_partition]; by rewrite Hp).
  rewrite Eh, Ep. cbn [is_empty orb]. cbv zeta. rewrite CanContinue_true by exact Hc1. eexists. split; [reflexivity|].
  unfold goes_on_at, deliver. cbn [state_ set_state partition_ delivered continue_parsing_]. by rewrite Hp1, Hd1.
Qed.

Lemma handle_objects objs ess p ds h : Forall partition_object objs -> Forall2 object_events objs ess -> goes_on_at WaitForNextPartition p ds h ->
  exists h' p', handle_all (concat ess) h = (h', Continue) /\ goes_on_at WaitForNextPartition p' (ds ++ read_stream p objs) h'.
Proof.
  intros Ho H. revert p ds h. induction H as [|o es objs ess He _ IH]; intros p ds h Hh.
  { exists h, p. cbn [read_stream]. by rewrite app_nil_r. }
  apply Forall_cons in Ho as [Ho1 Ho]. destruct (handle_object _ _ _ _ _ Ho1 He Hh) as (h1 & E & H1). cbn [concat read_stream].
  rewrite (handle_all_through _ _ _ _ E). destruct (IH Ho _ _ _ H1) as (h' & p' & E' & H'). exists h', p'. split; [exact E'|].
  by rewrite <- app_assoc in H'.
Qed.

(** Whatever document of partitions is parsed, the handler takes it to its end. *)
Lemma handle_document objs es : Forall partition_object objs -> document_events objs es ->
  exists h, handle_all es Handler_new = (h, Continue) /\ state_ h = ParsingComplete /\ delivered h = read_stream initial objs.
Proof.
  intros Ho He. destruct He as [objs pieces ess Hp Ep He].
  do 2 (erewrite handle_all_cons by reflexivity). rewrite handle_all_app, handle_key, Ep by done.
  match goal with |- context [String_ ?s ?h] => let r := eval vm_compute in (String_ s h) in change (String_ s h) with r end. cbv iota.
  erewrite handle_all_cons by reflexivity. match goal with |- context [handle_all (concat ess ++ _) ?h] => set (h0 := h) end.
  destruct (handle_objects objs ess initial [] h0 Ho He) as (h1 & p' & E & Hst & _ & Hd & Hc); [by repeat split|].
  rewrite (handle_all_through _ _ _ _ E). clearbody h0. clear E. destruct h1 as [st p k v cont ds]. cbn in Hst, Hd, Hc. subst.
  eexists. split; [reflexivity|done].
Qed.

(** The partitions have the same optional attributes. *)
Definition same_attributes (objs : list object) : Prop :=
  forall o o' label, o ∈ objs -> o' ∈ objs -> label ∈ optional_attributes -> find label o = None -> find label o' = None.

(** An optional attribute that an object lacks is not in the partition either. *)
Record lacks (p : Partition) (o : object) : Prop := {
  lacks_checksum : find (chars "checksum") o = None -> Partition_checksum p = None;
  lacks_crc : find (chars "crc") o = None -> Partition_crc p = None;
  lacks_version : find (chars "version") o = None -> Partition_version p = None;
  lacks_data_size : find (chars "dataSize") o = None -> Partition_data_size p = None;
  lacks_compressed_data_size : find (chars "compressedDataSize") o = None -> Partition_compressed_data_size p = None }.

Lemma read_over_initial p o : partition_object o -> lacks p o -> read_over p o = read_over initial o.
Proof.
  intros [Hn Hr (c & s & Hh) (c' & s' & Hp)] [H1 H2 H3 H4 H5]. rewrite !read_over_spec by done. unfold partition_over.
  rewrite Hh, Hp. f_equal; match goal with |- match find ?l o with _ => _ end = _ => destruct (find l o); [reflexivity|auto] end.
Qed.

Lemma lacks_after o o' : partition_object o ->
  (forall label, label ∈ optional_attributes -> find label o' = None -> find label o = None) ->
  lacks (Partition_moved moved_from (read_over initial o)) o'.
Proof.
  intros [Hn Hr _ _] Hs. rewrite read_over_spec by done. split; intros E; apply Hs in E; try (unfold optional_attributes; attribute);
    unfold Partition_moved, partition_over; cbn [Partition_checksum Partition_crc Partition_version Partition_data_size Partition_compressed_data_size]; by rewrite E.
Qed.

Lemma read_stream_same objs : Forall partition_object objs -> same_attributes objs -> forall p, Forall (lacks p) objs ->
  read_stream p objs = read_over initial <$> objs.
Proof.
  induction objs as [|o objs IH]; intros Ho Hs p Hp; [done|]. apply Forall_cons in Ho as [Ho1 Ho]. apply Forall_cons in Hp as [Hp1 Hp].
  cbn [read_stream fmap list_fmap]. rewrite read_over_initial by done. f_equal. apply IH; [done| |].
  - intros a b label Ha Hb. apply Hs; by apply elem_of_cons; right.
  - apply Forall_forall. intros o' Ho'. apply lacks_after; [done|]. intros label Hl.
    apply Hs; [by apply elem_of_cons; right|by apply elem_of_cons; left|done].
Qed.

Lemma from_json_document objs : Forall partition_object objs ->
  from_json (T := Partitions) (document objs) = Some (mkPartitions (read_over initial <$> objs)).
Proof.
  intros Ho. cbn [from_json Partitions_from_json]. unfold parse, document. cbn [find]. rewrite decide_True by done.
  cbn [from_json vector_from_json]. assert (mapM from_json (JObject <$> objs) = Some (read_over initial <$> objs)) as ->; [|done].
  induction Ho as [|o objs [Hn Hr _ _] _ IH]; [done|]. cbn [fmap list_fmap mapM]. rewrite from_json_partition by done. by rewrite IH.
Qed.

(** The handler takes a document of partitions of any length to its end, in whatever
    parts the parser hands over its texts, and calls the callback with the partitions
    that the parser of whole documents reads, in their order, when all of them have the
    same optional attributes. *)
Lemma stream_as_document objs es : Forall partition_object objs -> same_attributes objs -> document_events objs es ->
  exists h ps, handle_all es Handler_new = (h, Continue) /\ state_ h = ParsingComplete /\
    from_json (T := Partitions) (document objs) = Some (mkPartitions ps) /\ delivered h = ps.
Proof.
  intros Ho Hs He. destruct (handle_document objs es Ho He) as (h & E & Hst & Hd). exists h, (read_over initial <$> objs).
  split_and!; [done|done|by apply from_json_document|]. rewrite Hd. apply read_stream_same; [done|done|].
  apply Forall_forall. intros o _. by split.
Qed.

(** When a partition has no version of its own, the callback gets it with the version of
    the partition before it, as it gets the other optional attributes: the member
    [partition_] is moved from but not reset, and a moved-from optional keeps its value. *)
Theorem attributes_leak o o' z es : partition_object o -> partition_object o' -> document_events [o; o'] es ->
  find (chars "version") o = Some (JInt64 z) -> find (chars "version") o' = None ->
  exists h p p' q q', handle_all es Handler_new = (h, Continue) /\ delivered h = [p; p'] /\ Partition_version p' = Some z /\
    from_json (T := Partitions) (document [o; o']) = Some (mkPartitions [q; q']) /\ Partition_version q' = None.
Proof.
  intros Ho Ho' He Hv Hv'. assert (Ha : Forall partition_object [o; o']) by exact (Forall_cons_2 _ _ _ Ho (Forall_cons_2 _ _ _ Ho' (Forall_nil_2 _))).
  destruct (handle_document _ es Ha He) as (h & E & _ & Hd). exists h. do 2 eexists. exists (read_over initial o), (read_over initial o').
  split_and!; [exact E|exact Hd| |exact (from_json_document _ Ha)|].
  - destruct Ho as [Hn Hr _ _], Ho' as [Hn' Hr' _ _]. rewrite !read_over_spec by done.
    cbn [partition_over Partition_moved Partition_version]. by rewrite Hv', Hv.
  - destruct Ho' as [Hn' Hr' _ _]. rewrite read_over_spec by done. cbn [partition_over Partition_version]. by rewrite Hv'.
Qed.
End proofs.

(** ** Concrete documents

    The events of a parser that hands over every text as a whole. *)

Definition whole (f : list ascii -> Z -> event) (s : list ascii) : event := f s (Z.of_nat (length s)).
Definition whole_value (v : json) : list event :=
  match v with JString s => [whole on_string s] | JInt64 z => [on_int64 z] | JUint64 z => [on_uint64 z] | _ => [] end.
Definition whole_member (m : list ascii * json) : list event := whole on_key m.1 :: whole_value m.2.
Definition whole_object (o : object) : list event := on_object_begin :: concat (whole_member <$> o) ++ [on_object_end].
Definition whole_document (objs : list object) : list event :=
  on_document_begin :: on_object_begin :: whole on_key (chars "partitions") :: on_array_begin :: concat (whole_object <$> objs) ++
  [on_array_end; on_object_end; on_document_end].

Lemma whole_text part f s : text_events part f 0 [s] = [whole f s].
Proof. done. Qed.

Lemma whole_member_events m : readable m -> member_events m (whole_member m).
Proof.
  intros Hr. assert (Hv : value_events m.2 (whole_value m.2)).
  { destruct m as [n v]. destruct (readable_inv _ _ Hr) as [(s & _ & ->)|[(z & _ & [->|[-> _]])|(s & _ & _ & _ & ->)]]; cbn [snd whole_value].
    - rewrite <- (whole_text on_string_part on_string s). pose proof (string_events [s] ltac:(done)) as H. cbn [concat] in H. by rewrite app_nil_r in H.
    - exact (int64_events z 0).
    - exact (uint64_events z 0).
    - rewrite <- (whole_text on_string_part on_string s). pose proof (string_events [s] ltac:(done)) as H. cbn [concat] in H. by rewrite app_nil_r in H. }
  pose proof (events_of_member [m.1] m.2 _ ltac:(done) Hv) as H. cbn [concat] in H. rewrite app_nil_r, <- surjective_pairing in H. exact H.
Qed.

Lemma whole_document_events objs : Forall partition_object objs -> document_events objs (whole_document objs).
Proof.
  intros Ho. pose proof (events_of_document objs [chars "partitions"] (whole_object <$> objs) ltac:(done) eq_refl) as H. apply H. clear H.
  induction Ho as [|o objs [_ Hr _ _] _ IH]; [constructor|]. constructor; [|exact IH]. constructor. clear IH.
  induction Hr as [|m o Hm _ IH]; constructor; [by apply whole_member_events|exact IH].
Qed.

Lemma find_none_names name (o : object) : find name o = None -> name ∉ o.*1.
Proof.
  induction o as [|[k v] o IH]; cbn [find]; [intros _; apply not_elem_of_nil|]. case_decide as E; [done|]. intros H. apply not_elem_of_cons.
  split; [by intros ->|by apply IH].
Qed.

Lemma same_names_attributes (o : object) objs : Forall (fun o' : object => o'.*1 = o.*1) objs -> same_attributes objs.
Proof.
  intros H a b label Ha Hb _ Hn. rewrite Forall_forall in H. apply find_none. rewrite (H _ Hb), <- (H _ Ha). by apply find_none_names.
Qed.

(** A check of the conditions on a partition. *)
Definition is_readable (m : list ascii * json) : bool :=
  match m.2 with
  | JString _ => bool_decide (m.1 ∈ text_attributes) ||
      bool_decide (m.1 ∉ number_attributes) && bool_decide (ProcessNextAttribute m.1 = ParsingIgnoreAttribute)
  | JInt64 _ => bool_decide (m.1 ∈ number_attributes)
  | JUint64 z => bool_decide (m.1 ∈ number_attributes) && (0 <=? z) && (z <? 2^63)
  | _ => false
  end.
Definition has_text (label : string) (o : object) : bool := match find (chars label) o with Some (JString (_ :: _)) => true | _ => false end.
Definition is_partition_object (o : object) : bool :=
  bool_decide (NoDup o.*1) && forallb is_readable o && has_text "dataHandle" o && has_text "partition" o.

Lemma is_readable_true m : is_readable m = true -> readable m.
Proof.
  destruct m as [n v]. unfold is_readable. cbn [fst snd]. destruct v as [| |z|z| |s| |]; try done.
  - intros H. apply readable_int64. by apply bool_decide_eq_true_1 in H.
  - intros [[H1%bool_decide_eq_true_1 H2]%andb_true_iff H3]%andb_true_iff. apply readable_uint64; [done|lia].
  - destruct (bool_decide_reflect (n ∈ text_attributes)) as [Ht|Ht]; [intros _; by apply readable_text|].
    intros [H1%bool_decide_eq_true_1 H2%bool_decide_eq_true_1]%andb_true_iff. by apply readable_other.
Qed.

Lemma has_text_true label o : has_text label o = true -> exists c s, find (chars label) o = Some (JString (c :: s)).
Proof. unfold has_text. destruct (find _ o) as [[]|]; try done. destruct s as [|c s]; [done|]. by exists c, s. Qed.

Lemma is_partition_object_true o : is_partition_object o = true -> partition_object o.
Proof.
  intros [[[H1%bool_decide_eq_true_1 H2]%andb_true_iff H3]%andb_true_iff H4]%andb_true_iff. split; [done| |by apply has_text_true..].
  apply Forall_forall. intros m Hm. apply is_readable_true. rewrite forallb_forall in H2. by apply H2, list_elem_of_In.
Qed.

(** Two partitions, of which only the first one has a version. *)
Definition sample_partition (members : object) (handle name : string) : object :=
  members ++ [(chars "partition", JString (chars name)); (chars "dataHandle", JString (chars handle))].
Definition sample_with_version : object := sample_partition [(chars "version", JInt64 4)] "4eed6ed1" "269".
Definition sample_without_version : object := sample_partition [(chars "layer", JString (chars "roads"))] "3c3c50f2" "270".

Lemma attributes_leak_witness :
  let es := whole_document [sample_with_version; sample_without_version] in
  document_events [sample_with_version; sample_without_version] es /\
  exists h p p' q q', handle_all (fun _ => []) es Handler_new = (h, Continue) /\ delivered h = [p; p'] /\ Partition_version p' = Some 4 /\
    from_json (T := Partitions) (document [sample_with_version; sample_without_version]) = Some (mkPartitions [q; q']) /\ Partition_version q' = None.
Proof.
  assert (H1 : partition_object sample_with_version) by (by apply is_partition_object_true).
  assert (H2 : partition_object sample_without_version) by (by apply is_partition_object_true).
  assert (He : document_events [sample_with_version; sample_without_version] (whole_document [sample_with_version; sample_without_version])).
  { apply whole_document_events. constructor; [exact H1|constructor; [exact H2|constructor]]. }
  intros es. split; [exact He|].
  exact (attributes_leak (fun _ => []) sample_with_version sample_without_version 4 es H1 H2 He eq_refl eq_refl).
Defined.

(** The texts are compared by a hash: another attribute of the same hash is taken for the one
    of the library. *)
Example hash_collision : ProcessNextAttribute [ "c"; "013"; "d" ]%char = ParsingCrc.
Proof. reflexivity. Qed.
