(* ===== verification/PartitionStream.v ===== *)
(** * Streamed partitions

    Model of [JsonByteStream] and [AsyncJsonStream] (dataservice-read,
    src/repositories/AsyncJsonStream.cpp and .h), and of [ParsePartitionsStream] and
    [StreamPartitions] (PartitionsRepository.cpp): one thread downloads the partitions of
    a layer and writes the bytes to a stream, another one parses them and hands over the
    partitions (PartitionsSaxHandler.v); any thread may cancel the parsing.

    A step is what is done under one lock, or what only the parsing thread can see; a
    piece of text is parsed in one step.  [boost::json::basic_parser] is not part of the
    repository: it is the parameter [write_some], and [incomplete] is the value of its
    error of that name. *)

From S2P Require Import Prelude Json ReadModels LruCache InMemoryCache DiskCache DefaultCache KeyValueCache.
From S2P Require Import KeyGenerator CacheRepositories TaskContext Http World ApiLookup ReadApis PartitionsSaxHandler.
Import Network Response.

(** ** The stream between the thread that downloads and the one that parses *)

(** The two buffers of [JsonByteStream]. *)
Record JsonByteStream := mkByteStream {
  read_buffer_ : list ascii;
  write_buffer_ : list ascii;
  full_count_ : nat;
  count_ : nat }.

Definition JsonByteStream_new : JsonByteStream := mkByteStream [] [] 0 0.

Definition ReadEmpty (b : JsonByteStream) : bool := bool_decide (count_ b = length (read_buffer_ b)).
Definition WriteEmpty (b : JsonByteStream) : bool := bool_decide (write_buffer_ b = []).

Definition append_bytes (content : list ascii) (b : JsonByteStream) : JsonByteStream :=
  mkByteStream (read_buffer_ b) (write_buffer_ b ++ content) (full_count_ b) (count_ b).

(** [None]: the thread waits until something is appended. *)
Definition SwapBuffers (b : JsonByteStream) : option JsonByteStream :=
  if WriteEmpty b then None else Some (mkByteStream (write_buffer_ b) [] (full_count_ b) 0).

Definition refill (b : JsonByteStream) : option JsonByteStream := if ReadEmpty b then SwapBuffers b else Some b.

(** [read_buffer_\[count_\]] *)
Definition Peek (b : JsonByteStream) : option (JsonByteStream * ascii) :=
  b ← refill b; c ← read_buffer_ b !! count_ b; Some (b, c).

Definition Take (b : JsonByteStream) : option (JsonByteStream * ascii) :=
  b ← refill b; c ← read_buffer_ b !! count_ b;
  Some (mkByteStream (read_buffer_ b) (write_buffer_ b) (S (full_count_ b)) (S (count_ b)), c).

Definition Tell (b : JsonByteStream) : nat := full_count_ b.

(** [std::find(begin, end, '\0')] *)
Fixpoint before_terminator (l : list ascii) : list ascii :=
  match l with
  | [] => []
  | c :: l => if bool_decide (c = Ascii.zero) then [] else c :: before_terminator l
  end.

Definition ReadView (b : JsonByteStream) : option (JsonByteStream * list ascii) :=
  b ← refill b;
  let view := before_terminator (drop (count_ b) (read_buffer_ b)) in
  Some (mkByteStream (read_buffer_ b) (write_buffer_ b) (full_count_ b + length view) (count_ b + length view), view).

(** [AsyncJsonStream]; every stream that it has made is in [streams_], since the other
    thread may still hold one, and [current_stream_] is the place of the current one. *)
Record AsyncJsonStream := mkAsyncStream {
  streams_ : list JsonByteStream;
  current_stream_ : nat;
  error_ : option ApiError;
  closed_ : bool }.

Definition AsyncJsonStream_new : AsyncJsonStream := mkAsyncStream [JsonByteStream_new] 0 None false.

Definition update_stream (i : nat) (f : JsonByteStream -> JsonByteStream) (a : AsyncJsonStream) : AsyncJsonStream :=
  mkAsyncStream (alter f i (streams_ a)) (current_stream_ a) (error_ a) (closed_ a).

Definition GetCurrentStream (a : AsyncJsonStream) : nat := current_stream_ a.

Definition AppendContent (content : list ascii) (a : AsyncJsonStream) : AsyncJsonStream :=
  if closed_ a then a else update_stream (current_stream_ a) (append_bytes content) a.

Definition ResetStream (content : list ascii) (a : AsyncJsonStream) : AsyncJsonStream :=
  if closed_ a then a
  else
    let a := update_stream (current_stream_ a) (append_bytes [Ascii.zero]) a in
    let a := mkAsyncStream (streams_ a ++ [JsonByteStream_new]) (length (streams_ a)) (error_ a) (closed_ a) in
    update_stream (current_stream_ a) (append_bytes content) a.

Definition CloseStream (error : option ApiError) (a : AsyncJsonStream) : AsyncJsonStream :=
  if closed_ a then a
  else
    let a := update_stream (current_stream_ a) (append_bytes [Ascii.zero]) a in
    mkAsyncStream (streams_ a) (current_stream_ a) error true.

Definition GetError (a : AsyncJsonStream) : option ApiError := error_ a.

(** The stream at a place; every place that is used is there. *)
Definition stream_at (i : nat) (a : AsyncJsonStream) : JsonByteStream := default JsonByteStream_new (streams_ a !! i).

Definition IsClosed (a : AsyncJsonStream) : bool :=
  closed_ a && (bool_decide (is_Some (error_ a)) || WriteEmpty (stream_at (current_stream_ a) a)).

(** ** The thread that parses

    [P] is the state of [basic_parser] but the handler; [write_some] gives the new state,
    the number of characters that it has parsed and the error; [None] is no error. *)
Section parse.
Context {P : Type} (parser_new : P) (write_some : P * Handler -> list ascii -> (P * Handler) * nat * option Z) (incomplete : Z).

(** The points of [ParsePartitionsStream] between two accesses to what the threads share. *)
Inductive pc :=
| ParseStart | ParseGetStream | ParsePeek (json_stream : nat) | ParseView (json_stream : nat) | ParseIsClosed | ParseGetError
| ParseDone (error : option ApiError).

(** [fed] and [taken] are no variables of the code: the pieces that the parser of the
    attempt got, and how many streams can have been looked at. *)
Record parsing := mkParsing {
  async_stream : AsyncJsonStream;
  parser : P * Handler;
  parse_result : option Z;
  context : CancellationContext.CancellationContextImpl unit;
  point : pc;
  fed : list (list ascii);
  taken : nat }.

Definition start : parsing :=
  mkParsing AsyncJsonStream_new (parser_new, Handler_new) (Some incomplete) CancellationContext.CancellationContext_new ParseStart [] 0.

Definition move (p : pc) (s : parsing) : parsing :=
  mkParsing (async_stream s) (parser s) (parse_result s) (context s) p (fed s) (taken s).
Definition set_stream (a : AsyncJsonStream) (s : parsing) : parsing :=
  mkParsing a (parser s) (parse_result s) (context s) (point s) (fed s) (taken s).

(** One step of [ParsePartitionsStream]; [None] when the thread waits, or is through. *)
Definition parse_step (s : parsing) : option parsing :=
  let a := async_stream s in
  match point s with
  | ParseStart =>
      let '(ctx, execute) := CancellationContext.ExecuteOrCancelled (context s) (Some (Some tt)) in
      if execute then Some (mkParsing a (parser_new, Handler_new) (parse_result s) ctx ParseGetStream [] (taken s))
      else Some (move (ParseDone (Some (ApiError_of_code Cancelled (chars "Cancelled") false))) s)
  | ParseGetStream =>
      let json_stream := GetCurrentStream a in
      Some (mkParsing a (parser s) (parse_result s) (context s) (ParsePeek json_stream) (fed s) (S json_stream))
  | ParsePeek json_stream =>
      '(b, c) ← Peek (stream_at json_stream a);
      Some (move (if bool_decide (c = Ascii.zero) then ParseIsClosed else ParseView json_stream)
        (set_stream (update_stream json_stream (fun _ => b) a) s))
  | ParseView json_stream =>
      '(b, view) ← ReadView (stream_at json_stream a);
      let '(parser, parsed, result) := write_some (parser s) view in
      let result := if (0 <? Z.of_nat parsed) then None else result in
      Some (mkParsing (update_stream json_stream (fun _ => b) a) parser result (context s) (ParsePeek json_stream) (fed s ++ [view]) (taken s))
  | ParseIsClosed => Some (move (if IsClosed a then ParseGetError else ParseStart) s)
  | ParseGetError =>
      let error :=
        match GetError a, parse_result s with
        | Some error, _ => Some error
        | None, Some value => Some (ApiError_of_status value (chars "Parsing error"))
        | None, None => None
        end in
      Some (move (ParseDone error) s)
  | ParseDone _ => None
  end.

(** The cancel function that [ParsePartitionsStream] registers. *)
Definition cancel_parsing (s : parsing) : parsing :=
  let '(ctx, called) := CancellationContext.CancelOperation (context s) in
  let s := mkParsing (async_stream s) (parser s) (parse_result s) ctx (point s) (fed s) (taken s) in
  match called with
  | Some _ =>
      mkParsing (CloseStream (Some (ApiError_of_code Cancelled (chars "Cancelled") false)) (async_stream s))
        (fst (parser s), Abort (snd (parser s))) (parse_result s) (context s) (point s) (fed s) (taken s)
  | None => s
  end.

(** What the threads do: the parsing one goes on, the downloading one writes, and any
    other one cancels. *)
Inductive action := Parse | Append (content : list ascii) | Reset (content : list ascii) | Close (error : option ApiError) | CancelParsing.

Definition act (x : action) (s : parsing) : option parsing :=
  match x with
  | Parse => parse_step s
  | Append content => Some (set_stream (AppendContent content (async_stream s)) s)
  | Reset content => Some (set_stream (ResetStream content (async_stream s)) s)
  | Close error => Some (set_stream (CloseStream error (async_stream s)) s)
  | CancelParsing => Some (cancel_parsing s)
  end.

Fixpoint acts (xs : list action) (s : parsing) : option parsing :=
  match xs with
  | [] => Some s
  | x :: xs => s ← act x s; acts xs s
  end.
End parse.
#[global] Arguments parsing : clear implicits.

(** [StreamPartitions]: what it writes to the stream. *)
Definition data_callback (chunk : Z * list ascii) : action := if chunk.1 =? 0 then Reset chunk.2 else Append chunk.2.

Section download.
Context `{Models} {S N : Type} `{KeyValueCache S Model} `{Online S N}.
Abbreviation W := (World S N).

Definition StreamPartitions (lookup_client : ApiLookupClientImpl) (layer_id : str) (version : Z) (additional_fields : list str)
  (billing_tag : option str) : state W (list action) :=
  metadata_api ← LookupApi lookup_client (chars "metadata") (chars "v1") OnlineIfNotFound;
  match metadata_api with
  | inr error => mret [Close (Some error)]
  | inl client =>
      '(http_response, chunks) ← GetPartitionsStream client layer_id (Some version) additional_fields None billing_tag;
      let error := if negb (status http_response =? 200) then Some (ApiError_of_status (status http_response) []) else None in
      mret ((data_callback <$> chunks) ++ [Close error])
  end.
End download.

(** ** Proofs about the streams *)

(** What the downloading thread writes: the text since the last reset and how the stream
    is closed; nothing is written to a closed stream. *)
Abbreviation writing := (list ascii * option (option ApiError))%type.

Definition write_one (w : writing) (x : action) : writing :=
  match w.2, x with
  | None, Append content => (w.1 ++ content, None)
  | None, Reset content => (content, None)
  | None, Close error => (w.1, Some error)
  | _, _ => w
  end.
Definition written (xs : list action) : writing := foldl write_one ([], None) xs.

(** What is written has no terminator. *)
Definition clean (x : action) : Prop :=
  match x with Append content | Reset content => Ascii.zero ∉ content | _ => True end.

Lemma before_terminator_app l l' : Ascii.zero ∉ l -> before_terminator (l ++ Ascii.zero :: l') = l.
Proof.
  induction l as [|c l IH]; [done|]. intros [H1 H2]%not_elem_of_cons. cbn [before_terminator app].
  rewrite bool_decide_eq_false_2 by done. by rewrite IH.
Qed.

Lemma before_terminator_clean l : Ascii.zero ∉ l -> before_terminator l = l.
Proof.
  induction l as [|c l IH]; [done|]. intros [H1 H2]%not_elem_of_cons. cbn [before_terminator].
  rewrite bool_decide_eq_false_2 by done. by rewrite IH.
Qed.

(** The bytes that are left to read. *)
Definition rest (b : JsonByteStream) : list ascii := drop (count_ b) (read_buffer_ b).
Definition remaining (b : JsonByteStream) : nat := length (rest b) + length (write_buffer_ b).
Definition unread (b : JsonByteStream) : list ascii := rest b ++ write_buffer_ b.

Lemma refill_unread b b' : (count_ b <= length (read_buffer_ b))%nat -> refill b = Some b' ->
  unread b' = unread b /\ rest b' <> [] /\ (count_ b' < length (read_buffer_ b'))%nat /\ remaining b' = remaining b.
Proof.
  intros Hc. unfold refill, SwapBuffers, ReadEmpty, WriteEmpty. case_bool_decide as E1; [case_bool_decide as E2; [done|]|].
  - intros [= <-]. unfold unread, remaining, rest. cbn [count_ read_buffer_ write_buffer_ drop]. rewrite drop_0, E1, drop_all, app_nil_r. cbn [app length].
    destruct (write_buffer_ b); [done|]. cbn [length]. split_and!; [done|done|lia|lia].
  - intros [= <-]. split_and!; [done| |lia|done]. unfold rest. intros E. apply (f_equal length) in E. rewrite length_drop in E. cbn in E. lia.
Qed.

Lemma refill_ready b : unread b <> [] -> (count_ b <= length (read_buffer_ b))%nat -> is_Some (refill b).
Proof.
  intros Hu Hc. unfold refill, SwapBuffers, ReadEmpty, WriteEmpty. case_bool_decide as E1; [|done]. case_bool_decide as E2; [|done].
  destruct Hu. unfold unread, rest. by rewrite E1, drop_all, E2.
Qed.

Section stream.
Context {P : Type} (parser_new : P) (write_some : P * Handler -> list ascii -> (P * Handler) * nat * option Z) (incomplete : Z).
Abbreviation state := (parsing P).
Abbreviation act := (act parser_new write_some).
Abbreviation acts := (acts parser_new write_some).
Abbreviation start := (start parser_new incomplete).
Abbreviation parse_step := (parse_step parser_new write_some).

(** What the parser makes of the pieces, and the result that is kept. *)
Definition feed (p : (P * Handler) * option Z) (view : list ascii) : (P * Handler) * option Z :=
  let '(parser, parsed, result) := write_some p.1 view in
  (parser, if (0 <? Z.of_nat parsed) then None else result).

Definition cancelled (s : state) : bool := CancellationContext.is_cancelled_ (context s).

(** All that was written to a stream: the current one, and those before it. *)
Definition content (w : writing) (current i : nat) (b : list ascii) : Prop :=
  ((i < current)%nat /\ exists t, Ascii.zero ∉ t /\ b = t ++ [Ascii.zero]) \/
  (i = current /\ b = w.1 ++ match w.2 with Some _ => [Ascii.zero] | None => [] end).

(** The stream that the thread reads: what the parser got and what is left. *)
Definition reads (w : writing) (s : state) (j : nat) : Prop :=
  exists b, streams_ (async_stream s) !! j = Some b /\ (count_ b <= length (read_buffer_ b))%nat /\
    content w (current_stream_ (async_stream s)) j (concat (fed s) ++ unread b) /\ Ascii.zero ∉ concat (fed s).

(** The whole of what was written was parsed, when the stream was closed without an error. *)
Definition parsed_all (w : writing) (s : state) : Prop := w.2 = Some None -> concat (fed s) = w.1.

Definition at_point (w : writing) (s : state) : Prop :=
  let current := current_stream_ (async_stream s) in
  match point s with
  | ParseStart => (taken s <= current)%nat
  | ParseGetStream => (taken s <= current)%nat /\ fed s = []
  | ParsePeek j => taken s = S j /\ reads w s j
  | ParseView j => taken s = S j /\ reads w s j /\
      exists c l, rest (stream_at j (async_stream s)) = c :: l /\ c <> Ascii.zero
  | ParseIsClosed => exists j, taken s = S j /\ (j <= current)%nat /\ ((j < current)%nat \/ is_Some w.2) /\
      (j = current -> concat (fed s) = w.1 /\ write_buffer_ (stream_at j (async_stream s)) = [])
  | ParseGetError => is_Some w.2 /\ parsed_all w s
  | ParseDone e => cancelled s = true \/ is_Some w.2 /\ parsed_all w s /\
      e = match mjoin w.2, parse_result s with
          | Some error, _ => Some error
          | None, Some value => Some (ApiError_of_status value (chars "Parsing error"))
          | None, None => None
          end
  end.

Record inv (w : writing) (s : state) : Prop := {
  inv_length : length (streams_ (async_stream s)) = S (current_stream_ (async_stream s));
  inv_closed : closed_ (async_stream s) = bool_decide (is_Some w.2);
  inv_error : error_ (async_stream s) = mjoin w.2;
  inv_clean : Ascii.zero ∉ w.1;
  inv_taken : (taken s <= S (current_stream_ (async_stream s)))%nat;
  inv_fresh i : (taken s <= i <= current_stream_ (async_stream s))%nat ->
    exists b, streams_ (async_stream s) !! i = Some (mkByteStream [] b 0 0) /\ content w (current_stream_ (async_stream s)) i b;
  inv_parser : cancelled s = false -> exists r, (parser s, parse_result s) = foldl feed ((parser_new, Handler_new), r) (fed s);
  inv_point : at_point w s }.

Lemma inv_start : inv ([], None) start.
Proof.
  split; try done; cbn; [by apply not_elem_of_nil|lia| |by exists (Some incomplete)|lia].
  intros i Hi. assert (i = 0%nat) as -> by lia. exists []. split; [done|]. right. done.
Qed.

(** *** The thread that downloads *)

Lemma unread_append bytes b : unread (append_bytes bytes b) = unread b ++ bytes.
Proof. unfold unread, rest. cbn. by rewrite app_assoc. Qed.

Lemma append_rest bytes b : rest (append_bytes bytes b) = rest b.
Proof. done. Qed.

Lemma stream_at_lookup i (a : AsyncJsonStream) b : streams_ a !! i = Some b -> stream_at i a = b.
Proof. unfold stream_at. by intros ->. Qed.

(** Bytes are added to streams, and streams are added. *)
Record extends (w w' : writing) (a a' : AsyncJsonStream) : Prop := {
  extends_open : w.2 = None;
  extends_length : length (streams_ a') = S (current_stream_ a');
  extends_closed : closed_ a' = bool_decide (is_Some w'.2);
  extends_error : error_ a' = mjoin w'.2;
  extends_clean : Ascii.zero ∉ w'.1;
  extends_current : (current_stream_ a <= current_stream_ a')%nat;
  extends_old i b : streams_ a !! i = Some b -> exists more, streams_ a' !! i = Some (append_bytes more b) /\
    forall bytes, content w (current_stream_ a) i bytes -> content w' (current_stream_ a') i (bytes ++ more);
  extends_new i : (current_stream_ a < i <= current_stream_ a')%nat ->
    exists b, streams_ a' !! i = Some (mkByteStream [] b 0 0) /\ content w' (current_stream_ a') i b }.

Lemma extends_reads w w' s a' j : extends w w' (async_stream s) a' -> reads w s j -> reads w' (set_stream a' s) j.
Proof.
  intros He (b & E & Hb & Hc & Hn). destruct (extends_old _ _ _ _ He _ _ E) as (more & E' & Hm). exists (append_bytes more b).
  split_and!; [done|done| |done]. cbn [async_stream set_stream fed]. rewrite unread_append, app_assoc. by apply Hm.
Qed.

Lemma extends_inv w w' s a' : extends w w' (async_stream s) a' -> inv w s -> inv w' (set_stream a' s).
Proof.
  intros He [Hl Hc Hr Hw Ht Hf Hp Hpt]. pose proof (extends_current _ _ _ _ He) as Hcur.
  split; cbn [async_stream set_stream taken parser parse_result fed context]; [apply He|apply He|apply He|apply He|lia| |exact Hp|].
  - intros i Hi. destruct (decide (i <= current_stream_ (async_stream s))%nat) as [Hle|Hgt]; [|apply (extends_new _ _ _ _ He); lia].
    destruct (Hf i ltac:(lia)) as (b & E & Hb). destruct (extends_old _ _ _ _ He _ _ E) as (more & E' & Hm).
    exists (b ++ more). split; [exact E'|by apply Hm].
  - unfold at_point in *. cbn [point set_stream async_stream fed taken]. destruct (point s) as [| |j|j| | |e].
    + lia.
    + destruct Hpt. split; [lia|done].
    + destruct Hpt as [Htk Hrd]. split; [done|]. by eapply extends_reads.
    + destruct Hpt as (Htk & Hrd & c & l & El & Hcz). split_and!; [done|by eapply extends_reads|]. exists c, l. split; [|done].
      destruct Hrd as (b & E & _). destruct (extends_old _ _ _ _ He _ _ E) as (more & E' & _).
      rewrite (stream_at_lookup _ _ _ E'). rewrite (stream_at_lookup _ _ _ E) in El. exact El.
    + destruct Hpt as (j & Htk & Hj & Hor & Hw'). rewrite (extends_open _ _ _ _ He) in Hor. destruct Hor as [Hlt|[? ?]]; [|done].
      exists j. split_and!; [done|lia|left; lia|]. intros ->. lia.
    + destruct Hpt as [[? Hs] _]. by rewrite (extends_open _ _ _ _ He) in Hs.
    + destruct Hpt as [Hcan|[[? Hs] _]]; [by left|]. by rewrite (extends_open _ _ _ _ He) in Hs.
Qed.

Lemma lookup_alter_append (streams : list JsonByteStream) i k bytes b : streams !! i = Some b ->
  alter (append_bytes bytes) k streams !! i = Some (append_bytes (if decide (i = k) then bytes else []) b).
Proof.
  intros E. destruct (decide (i = k)) as [->|Hne].
  - by rewrite list_lookup_alter_eq, E.
  - rewrite list_lookup_alter_ne, E by done. unfold append_bytes. rewrite app_nil_r. by destruct b.
Qed.

Section writes.
Context (w : writing) (a : AsyncJsonStream) (Hw : w.2 = None) (Hl : length (streams_ a) = S (current_stream_ a))
  (Hc : closed_ a = bool_decide (is_Some w.2)) (He : error_ a = mjoin w.2) (Hz : Ascii.zero ∉ w.1).

Lemma extends_append bytes : Ascii.zero ∉ bytes -> extends w (w.1 ++ bytes, None) a (AppendContent bytes a).
Proof.
  intros Hb. unfold AppendContent. rewrite Hc, Hw, bool_decide_eq_false_2 by (by intros [? ?]).
  split; cbn [streams_ update_stream current_stream_ closed_ error_ fst snd]; [done|by rewrite length_alter|by rewrite Hc, Hw|by rewrite He, Hw| |lia| |lia].
  - rewrite elem_of_app. tauto.
  - intros i b E. eexists. split; [by apply lookup_alter_append|]. intros bytes' [[Hi Ht]|[-> ->]].
    + left. split; [done|]. rewrite decide_False, app_nil_r by lia. exact Ht.
    + right. split; [done|]. rewrite decide_True, Hw, !app_nil_r by done. done.
Qed.

Lemma extends_close error : extends w (w.1, Some error) a (CloseStream error a).
Proof.
  unfold CloseStream. rewrite Hc, Hw, bool_decide_eq_false_2 by (by intros [? ?]).
  split; cbn [streams_ update_stream current_stream_ closed_ error_ fst snd]; [done|by rewrite length_alter|done|done|done|lia| |lia].
  intros i b E. eexists. split; [by apply lookup_alter_append|]. intros bytes' [[Hi Ht]|[-> ->]].
  - left. split; [done|]. rewrite decide_False, app_nil_r by lia. exact Ht.
  - right. split; [done|]. rewrite decide_True, Hw, app_nil_r by done. done.
Qed.

Lemma extends_reset bytes : Ascii.zero ∉ bytes -> extends w (bytes, None) a (ResetStream bytes a).
Proof.
  intros Hb. unfold ResetStream. rewrite Hc, Hw, bool_decide_eq_false_2 by (by intros [? ?]).
  split; cbn [streams_ update_stream current_stream_ closed_ error_ fst snd]; rewrite ?length_alter; [done| |by rewrite Hc, Hw|by rewrite He, Hw|done|lia|..].
  - rewrite ?length_alter, length_app, ?length_alter. cbn [length]. lia.
  - intros i b E. assert (Hi : (i < S (current_stream_ a))%nat) by (rewrite <- Hl; by eapply lookup_lt_Some).
    exists (if decide (i = current_stream_ a) then [Ascii.zero] else []). split.
    + rewrite list_lookup_alter_ne by lia. rewrite lookup_app_l by (rewrite ?length_alter; lia). by apply lookup_alter_append.
    + intros bytes' [[Hlt Ht]|[-> ->]]; left; (split; [lia|]).
      * by rewrite decide_False, app_nil_r by lia.
      * exists w.1. by rewrite decide_True, Hw, app_nil_r by done.
  - intros i Hi. assert (i = length (streams_ a)) as -> by lia. rewrite list_lookup_alter_eq, lookup_app_r by (rewrite ?length_alter; lia).
    rewrite ?length_alter, Nat.sub_diag. exists bytes. split; [done|]. right. by rewrite app_nil_r.
Qed.
End writes.

(** Nothing happens to a closed stream. *)
Lemma inv_open_or w s : inv w s -> w.2 = None \/
  (is_Some w.2 /\ (forall c, AppendContent c (async_stream s) = async_stream s) /\ (forall c, ResetStream c (async_stream s) = async_stream s) /\
   (forall e, CloseStream e (async_stream s) = async_stream s)).
Proof.
  intros Hi. destruct (w.2) as [e|] eqn:E; [right|by left]. pose proof (inv_closed _ _ Hi) as Hc. rewrite E in Hc. cbn in Hc.
  unfold AppendContent, ResetStream, CloseStream. split_and!; [by eexists|intros ?; by rewrite Hc..].
Qed.

Lemma set_stream_same (s : state) : set_stream (async_stream s) s = s.
Proof. by destruct s. Qed.

Lemma inv_write w s x s' : inv w s -> clean x -> match x with Append _ | Reset _ | Close _ => True | _ => False end ->
  act x s = Some s' -> inv (write_one w x) s'.
Proof.
  intros Hi Hx Hk. destruct (inv_open_or _ _ Hi) as [Hw|([e Hw] & H1 & H2 & H3)].
  - pose proof Hi as [Hl Hc Hr Hz _ _ _ _]. unfold write_one. rewrite Hw. destruct x as [|c|c|e|]; try done; intros [= <-]; apply extends_inv with w; try done.
    + by apply extends_append.
    + by apply extends_reset.
    + by apply extends_close.
  - assert (write_one w x = w) as -> by (unfold write_one; by rewrite Hw). destruct x as [|c|c|e'|]; try done; cbn [PartitionStream.act]; intros [= <-].
    + by rewrite H1, set_stream_same.
    + by rewrite H2, set_stream_same.
    + by rewrite H3, set_stream_same.
Qed.

(** *** Cancelling *)

Lemma inv_cancelled w s p ctx : inv w s -> CancellationContext.is_cancelled_ ctx = true ->
  inv w (mkParsing (async_stream s) p (parse_result s) ctx (point s) (fed s) (taken s)).
Proof.
  intros [Hl Hc Hr Hz Ht Hf Hp Hpt] Hctx. split; try done.
  - unfold cancelled. cbn [context]. by rewrite Hctx.
  - unfold at_point in *. cbn [point async_stream fed taken]. destruct (point s); try done. by left.
Qed.

Lemma inv_cancel w s : inv w s -> exists w', inv w' (cancel_parsing s).
Proof.
  intros Hi. unfold cancel_parsing, CancellationContext.CancelOperation. destruct (CancellationContext.is_cancelled_ (context s)) eqn:E.
  { exists w. by apply inv_cancelled. }
  destruct (CancellationContext.sub_operation_cancel_token_ (context s)) as [u|]; [|exists w; by apply inv_cancelled].
  set (e := Some (ApiError_of_code Cancelled (chars "Cancelled") false)).
  exists (write_one w (Close e)).
  apply (inv_cancelled (write_one w (Close e)) (set_stream (CloseStream e (async_stream s)) s)); [by apply inv_write with s|done].
Qed.

(** *** The thread that parses *)

Lemma inv_reading w s j b' p r pt fed' : inv w s -> taken s = S j -> (j <= current_stream_ (async_stream s))%nat ->
  let s' := mkParsing (update_stream j (fun _ => b') (async_stream s)) p r (context s) pt fed' (taken s) in
  (cancelled s = false -> exists r0, (p, r) = foldl feed ((parser_new, Handler_new), r0) fed') -> at_point w s' -> inv w s'.
Proof.
  intros [Hl Hc Hr Hz Ht Hf Hp Hpt] Htk Hj s' Hp' Hpt'. split; try done; cbn [async_stream s' streams_ update_stream current_stream_ taken].
  - by rewrite length_alter.
  - intros i Hi. rewrite list_lookup_alter_ne by lia. by apply Hf.
Qed.

Lemma reads_current w s j : inv w s -> taken s = S j -> reads w s j -> (j <= current_stream_ (async_stream s))%nat.
Proof. intros Hi Htk _. pose proof (inv_taken _ _ Hi). lia. Qed.

Lemma one_terminator (x y t : list ascii) : Ascii.zero ∉ x -> Ascii.zero ∉ t -> x ++ Ascii.zero :: y = t ++ [Ascii.zero] -> x = t /\ y = [].
Proof.
  revert t. induction x as [|c x IH]; intros [|d t] Hx Ht E; rewrite ?not_elem_of_cons in *; cbn [app] in E.
  - split; [done|]. by apply (f_equal (@tl _)) in E.
  - pose proof (f_equal head E) as [= E1]. tauto.
  - pose proof (f_equal head E) as [= E1]. symmetry in E1. tauto.
  - pose proof (f_equal head E) as [= <-]. apply (f_equal (@tl _)) in E. destruct (IH t ltac:(tauto) ltac:(tauto) E) as [-> ->]. done.
Qed.

(** A terminator ends what was written to the stream. *)
Lemma content_terminator w current i x y : Ascii.zero ∉ w.1 -> Ascii.zero ∉ x -> content w current i (x ++ Ascii.zero :: y) ->
  y = [] /\ ((i < current)%nat \/ i = current /\ is_Some w.2 /\ x = w.1).
Proof.
  intros Hw Hx [[Hi (t & Ht & E)]|[-> E]].
  - destruct (one_terminator _ _ _ Hx Ht E) as [_ ->]. auto.
  - destruct (w.2) as [e|].
    + destruct (one_terminator _ _ _ Hx Hw E) as [-> ->]. split; [done|]. right. by repeat split.
    + exfalso. rewrite app_nil_r in E. apply Hw. rewrite <- E. apply elem_of_app. right. apply elem_of_cons. by left.
Qed.

Lemma Peek_spec b b' c : (count_ b <= length (read_buffer_ b))%nat -> Peek b = Some (b', c) ->
  unread b' = unread b /\ (count_ b' <= length (read_buffer_ b'))%nat /\ remaining b' = remaining b /\ exists l, rest b' = c :: l.
Proof.
  intros Hb. unfold Peek. cbn. destruct (refill b) as [b1|] eqn:E; [|done]. cbn. destruct (read_buffer_ b1 !! count_ b1) as [c'|] eqn:Ec; [|done].
  cbn. intros [= -> ->]. destruct (refill_unread _ _ Hb E) as (H1 & H2 & H3 & H4). split_and!; [done|lia|done|].
  exists (drop (S (count_ b')) (read_buffer_ b')). unfold rest. by apply drop_S.
Qed.

Lemma inv_peek w s s' j : inv w s -> point s = ParsePeek j -> parse_step s = Some s' -> inv w s'.
Proof.
  intros Hi Hpt. pose proof (inv_point _ _ Hi) as Hp. unfold at_point in Hp. rewrite Hpt in Hp. destruct Hp as [Htk Hrd].
  pose proof (reads_current _ _ _ Hi Htk Hrd) as Hj. destruct Hrd as (b & E & Hb & Hc & Hn).
  unfold PartitionStream.parse_step. rewrite Hpt, (stream_at_lookup _ _ _ E). destruct (Peek b) as [[b' c]|] eqn:Epk; [|done]. cbn. intros [= <-].
  destruct (Peek_spec _ _ _ Hb Epk) as (Hu & Hb' & _ & l & El).
  apply (inv_reading w s j b' (parser s) (parse_result s) _ (fed s)); [done|done|done|apply (inv_parser _ _ Hi)|].
  assert (E' : streams_ (update_stream j (fun _ => b') (async_stream s)) !! j = Some b') by (cbn; by rewrite list_lookup_alter_eq, E).
  unfold at_point. cbn [point move]. case_bool_decide as Ez.
  - subst c. cbn [async_stream set_stream move taken fed]. rewrite <- Hu in Hc. unfold unread in Hc. rewrite El in Hc.
    destruct (content_terminator _ _ _ _ _ (inv_clean _ _ Hi) Hn Hc) as [Hl [Hlt|(-> & Hw & Ex)]].
    + exists j. split_and!; [done|done|by left|]. cbn. lia.
    + exists (current_stream_ (async_stream s)). split_and!; [done|done|by right|]. intros _. split; [done|].
      rewrite (stream_at_lookup _ _ _ E'). by apply app_nil in Hl as [_ ?].
  - cbn [async_stream set_stream move taken fed]. split_and!; [done| |].
    + exists b'. split_and!; [exact E'|done| |done]. by rewrite Hu.
    + exists c, l. split; [|done]. by rewrite (stream_at_lookup _ _ _ E').
Qed.

Lemma before_terminator_prefix l : l = before_terminator l ++ drop (length (before_terminator l)) l /\ Ascii.zero ∉ before_terminator l.
Proof.
  induction l as [|c l [IH1 IH2]]; cbn [before_terminator]; [split; [done|apply not_elem_of_nil]|].
  case_bool_decide as E; [split; [done|apply not_elem_of_nil]|]. cbn [length app drop]. split; [by f_equal|].
  apply not_elem_of_cons. split; [congruence|done].
Qed.

(** The view is a part of the text that is left, and not empty. *)
Lemma ReadView_spec b b' view c l : (count_ b <= length (read_buffer_ b))%nat -> rest b = c :: l -> c <> Ascii.zero -> ReadView b = Some (b', view) ->
  unread b = view ++ unread b' /\ (count_ b' <= length (read_buffer_ b'))%nat /\ view <> [] /\ Ascii.zero ∉ view /\
  remaining b = (length view + remaining b')%nat.
Proof.
  intros Hb El Hc. assert (Er : refill b = Some b).
  { unfold refill, ReadEmpty. rewrite bool_decide_eq_false_2; [done|]. intros Eq. unfold rest in El. by rewrite Eq, drop_all in El. }
  unfold ReadView. cbn. rewrite Er. cbn. fold (rest b). intros [= <- <-].
  destruct (before_terminator_prefix (rest b)) as [Hp Hz]. unfold unread, remaining.
  assert (Ed : rest (mkByteStream (read_buffer_ b) (write_buffer_ b) (full_count_ b + length (before_terminator (rest b)))
    (count_ b + length (before_terminator (rest b)))) = drop (length (before_terminator (rest b))) (rest b)).
  { unfold rest at 1. cbn [count_ read_buffer_]. unfold rest at 3. by rewrite drop_drop. }
  rewrite Ed. split_and!; [by rewrite app_assoc, <- Hp| | |done|].
  - cbn [count_ read_buffer_]. pose proof (f_equal length Hp) as Hlen. rewrite length_app in Hlen. unfold rest in Hlen at 1. rewrite length_drop in Hlen. lia.
  - rewrite El. cbn [before_terminator]. by rewrite bool_decide_eq_false_2.
  - cbn [write_buffer_]. pose proof (f_equal length Hp) as Hlen. rewrite length_app in Hlen. lia.
Qed.

Lemma inv_view w s s' j : inv w s -> point s = ParseView j -> parse_step s = Some s' -> inv w s'.
Proof.
  intros Hi Hpt. pose proof (inv_point _ _ Hi) as Hp. unfold at_point in Hp. rewrite Hpt in Hp. destruct Hp as (Htk & Hrd & c & l & El & Hcz).
  pose proof (reads_current _ _ _ Hi Htk Hrd) as Hj. destruct Hrd as (b & E & Hb & Hc & Hn).
  unfold PartitionStream.parse_step. rewrite Hpt. rewrite (stream_at_lookup _ _ _ E) in El |- *.
  destruct (ReadView b) as [[b' view]|] eqn:Er; [|done]. cbn. destruct (write_some (parser s) view) as [[p n] r] eqn:Ew. intros [= <-].
  destruct (ReadView_spec _ _ _ _ _ Hb El Hcz Er) as (Hu & Hb' & _ & Hz & _).
  apply (inv_reading w s j b' p _ _ (fed s ++ [view])); [done|done|done|..].
  - intros Hcan. destruct (inv_parser _ _ Hi Hcan) as [r0 Er0]. exists r0. rewrite foldl_app, <- Er0. cbn [foldl]. unfold feed. cbn [fst].
    by rewrite Ew.
  - unfold at_point. cbn [point async_stream taken]. split; [done|]. exists b'. cbn [async_stream fed]. rewrite concat_app. cbn [concat]. rewrite app_nil_r, <- app_assoc, <- Hu.
    split_and!; [cbn; by rewrite list_lookup_alter_eq, E|done|done|]. rewrite elem_of_app. tauto.
Qed.

Lemma inv_is_closed w s s' : inv w s -> point s = ParseIsClosed -> parse_step s = Some s' -> inv w s'.
Proof.
  intros Hi Hpt. pose proof (inv_point _ _ Hi) as Hp. unfold at_point in Hp. rewrite Hpt in Hp. destruct Hp as (j & Htk & Hj & Hor & Hcur).
  unfold PartitionStream.parse_step. rewrite Hpt. intros [= <-]. destruct Hi as [Hl Hc Hr Hz Ht Hf Hpa _].
  split; try done. unfold at_point. cbn [point move async_stream taken]. unfold IsClosed. rewrite Hc, Hr.
  destruct (decide (j = current_stream_ (async_stream s))) as [->|Hne].
  - destruct Hor as [?|Hw]; [lia|]. destruct (Hcur eq_refl) as [Hfed Hwe]. unfold WriteEmpty. rewrite Hwe.
    rewrite (bool_decide_eq_true_2 ([] = [])) by done. rewrite orb_true_r, (bool_decide_eq_true_2 (is_Some w.2)) by exact Hw. cbn [andb].
    split; [exact Hw|]. by intros _.
  - case_bool_decide as Hw; cbn [andb]; [|lia]. case_bool_decide as He; cbn [orb].
    { split; [done|]. intros E. rewrite E in He. by destruct He. }
    destruct (Hf (current_stream_ (async_stream s)) ltac:(lia)) as (b & E & [[? _]|[_ ->]]); [lia|]. unfold WriteEmpty.
    rewrite (stream_at_lookup _ _ _ E). cbn [write_buffer_]. destruct Hw as [e Ew]. rewrite Ew.
    rewrite bool_decide_eq_false_2; [lia|]. by destruct (w.1).
Qed.

Lemma inv_parse w s s' : inv w s -> parse_step s = Some s' -> inv w s'.
Proof.
  intros Hi Hs. destruct (point s) as [| |j|j| | |e] eqn:Hpt; [| |by eapply inv_peek|by eapply inv_view|by eapply inv_is_closed|..];
    pose proof (inv_point _ _ Hi) as Hp; unfold at_point in Hp; rewrite Hpt in Hp; unfold PartitionStream.parse_step in Hs; rewrite Hpt in Hs;
    destruct Hi as [Hl Hc Hr Hz Ht Hf Hpa _].
  - unfold CancellationContext.ExecuteOrCancelled in Hs. destruct (CancellationContext.is_cancelled_ (context s)) eqn:Ec; injection Hs as <-; split; try done.
    + unfold at_point. cbn [point move]. by left.
    + intros _. by exists (parse_result s).
  - injection Hs as <-. destruct Hp as [Htk Hfed]. split; try done; cbn [async_stream taken]; unfold GetCurrentStream; [intros i Hi; lia|].
    unfold at_point. cbn [point async_stream taken]. split; [done|]. destruct (Hf (current_stream_ (async_stream s)) ltac:(lia)) as (b & E & Hb).
    exists (mkByteStream [] b 0 0). split_and!; [done|cbn; lia|by rewrite Hfed|rewrite Hfed; apply not_elem_of_nil].
  - injection Hs as <-. split; try done. unfold at_point. cbn [point move]. right. destruct Hp as [Hw Hall]. split_and!; [done|done|].
    unfold GetError. by rewrite Hr.
  - done.
Qed.

Lemma inv_act w s x s' : inv w s -> clean x -> act x s = Some s' -> exists w', inv w' s' /\ (x <> CancelParsing -> w' = write_one w x).
Proof.
  intros Hi Hx Ha. destruct x as [|c|c|e|].
  - exists w. split; [by eapply inv_parse|]. intros _. unfold write_one. by destruct (w.2), w.
  - exists (write_one w (Append c)). split; [by eapply inv_write|done].
  - exists (write_one w (Reset c)). split; [by eapply inv_write|done].
  - exists (write_one w (Close e)). split; [by eapply inv_write|done].
  - injection Ha as <-. destruct (inv_cancel _ _ Hi) as [w' Hw']. by exists w'.
Qed.

Lemma inv_acts xs w s s' : inv w s -> Forall clean xs -> acts xs s = Some s' ->
  exists w', inv w' s' /\ (CancelParsing ∉ xs -> w' = foldl write_one w xs).
Proof.
  revert w s. induction xs as [|x xs IH]; intros w s Hi Hx; cbn [PartitionStream.acts]; [intros [= <-]; by exists w|].
  apply Forall_cons in Hx as [Hx1 Hx]. destruct (act x s) as [s1|] eqn:Ea; [|done]. cbn. intros Hs.
  destruct (inv_act _ _ _ _ Hi Hx1 Ea) as (w1 & Hi1 & Hw1). destruct (IH _ _ Hi1 Hx Hs) as (w' & Hi' & Hw').
  exists w'. split; [done|]. intros [H1 H2]%not_elem_of_cons. rewrite Hw', Hw1 by done. done.
Qed.

Lemma cancelled_acts xs s s' : CancelParsing ∉ xs -> cancelled s = false -> acts xs s = Some s' -> cancelled s' = false.
Proof.
  revert s. induction xs as [|x xs IH]; intros s Hx Hs; cbn [PartitionStream.acts]; [by intros [= <-]|].
  apply not_elem_of_cons in Hx as [H1 H2]. destruct (act x s) as [s1|] eqn:Ea; [|done]. cbn. intros Hs'. apply (IH s1 H2); [|done].
  destruct x as [|c|c|e|]; try (injection Ea as <-; done). cbn [PartitionStream.act] in Ea. unfold PartitionStream.parse_step in Ea.
  destruct (point s) as [| |j|j| | |e].
  - unfold CancellationContext.ExecuteOrCancelled in Ea. unfold cancelled in Hs. rewrite Hs in Ea. injection Ea as <-. unfold cancelled. cbn [context]. done.
  - by injection Ea as <-.
  - destruct (Peek _) as [[? ?]|]; [|done]. cbn in Ea. by injection Ea as <-.
  - destruct (ReadView _) as [[? ?]|]; [|done]. cbn in Ea. destruct (write_some _ _) as [[? ?] ?]. by injection Ea as <-.
  - by injection Ea as <-.
  - by injection Ea as <-.
  - done.
Qed.

(** *** The steps of the parsing thread *)

#[local] Open Scope nat_scope.

Definition stream_cost (b : JsonByteStream) : nat := 4 + 2 * length (write_buffer_ b).
Definition fresh_cost (l : list JsonByteStream) : nat := sum_list (stream_cost <$> l).

(** The steps that are left for what is written so far, when nothing blocks. *)
Definition left_of (a : AsyncJsonStream) (p : pc) (taken : nat) : nat :=
  let fresh := fresh_cost (drop taken (streams_ a)) in
  match p with
  | ParseStart => fresh + 1
  | ParseGetStream => fresh
  | ParsePeek j => 2 * remaining (stream_at j a) + 3 + fresh
  | ParseView j => 2 * remaining (stream_at j a) + 2 + fresh
  | ParseIsClosed => 2 + fresh
  | ParseGetError => 1
  | ParseDone _ => 0
  end.
Definition left (s : state) : nat := left_of (async_stream s) (point s) (taken s).

Definition cost (x : action) : nat :=
  match x with Parse => 0 | Append c => 2 * length c | Reset c => 6 + 2 * length c | Close _ | CancelParsing => 2 end.
Definition parses (x : action) : nat := match x with Parse => 1 | _ => 0 end.

Lemma fresh_cons b l : fresh_cost (b :: l) = stream_cost b + fresh_cost l.
Proof. done. Qed.

Lemma stream_cost_append c b : stream_cost (append_bytes c b) = stream_cost b + 2 * length c.
Proof. unfold stream_cost. cbn [write_buffer_ append_bytes]. rewrite length_app. lia. Qed.

Lemma fresh_alter n k c l : fresh_cost (drop n (alter (append_bytes c) k l)) <= fresh_cost (drop n l) + 2 * length c.
Proof.
  revert n k. induction l as [|b l IH]; intros n k; [destruct n, k; cbn; lia|]. destruct k as [|k].
  - change (alter (append_bytes c) 0 (b :: l)) with (append_bytes c b :: l). destruct n as [|n]; [|cbn [drop]; lia].
    rewrite !drop_0, !fresh_cons, stream_cost_append. lia.
  - change (alter (append_bytes c) (S k) (b :: l)) with (b :: alter (append_bytes c) k l). destruct n as [|n]; [|apply (IH n k)].
    specialize (IH 0 k). rewrite !drop_0 in *. rewrite !fresh_cons. lia.
Qed.

Lemma drop_alter {A} (f : A -> A) n k l : k < n -> drop n (alter f k l) = drop n l.
Proof. revert n k. induction l as [|x l IH]; intros [|n] [|k] Hk; try lia; try done. apply (IH n k). lia. Qed.

Lemma fresh_snoc n l : fresh_cost (drop n (l ++ [JsonByteStream_new])) <= fresh_cost (drop n l) + 4.
Proof.
  revert n. induction l as [|b l IH]; intros [|n]; [cbn; lia|cbn; destruct n; cbn; lia| |apply (IH n)].
  specialize (IH 0). rewrite !drop_0 in *. cbn [app]. rewrite !fresh_cons. lia.
Qed.

Lemma remaining_append c b : remaining (append_bytes c b) = remaining b + length c.
Proof. unfold remaining. rewrite append_rest. cbn [write_buffer_ append_bytes]. rewrite length_app. lia. Qed.

Lemma stream_at_append i k c a : remaining (stream_at i (update_stream k (append_bytes c) a)) <= remaining (stream_at i a) + (if decide (i = k) then length c else 0).
Proof.
  unfold stream_at. cbn [streams_ update_stream]. destruct (streams_ a !! i) as [b|] eqn:E.
  - rewrite (lookup_alter_append _ _ _ _ _ E). cbn [from_option]; unfold id. rewrite remaining_append. case_decide; cbn [length]; lia.
  - destruct (decide (i = k)) as [->|Hne]; [rewrite list_lookup_alter_eq, E|rewrite list_lookup_alter_ne, E by done]; cbn; lia.
Qed.

Lemma left_append k c a p tk : (forall j, p = ParsePeek j \/ p = ParseView j -> tk = S j) ->
  left_of (update_stream k (append_bytes c) a) p tk <= left_of a p tk + 2 * length c.
Proof.
  intros Hp. pose proof (fresh_alter tk k c (streams_ a)) as Hf. unfold left_of. cbn [streams_ update_stream].
  destruct p as [| |j|j| | |e]; try lia;
    specialize (Hp j ltac:(auto)) as ->; pose proof (stream_at_append j k c a) as Ha; (destruct (decide (j = k)) as [<-|Hne]; [rewrite drop_alter by lia|]); lia.
Qed.

Lemma left_snoc a a' p tk : streams_ a' = streams_ a ++ [JsonByteStream_new] -> left_of a' p tk <= left_of a p tk + 4.
Proof.
  intros E. pose proof (fresh_snoc tk (streams_ a)) as Hf. rewrite <- E in Hf.
  assert (Ha : forall j, stream_at j a' = stream_at j a).
  { intros j. unfold stream_at. rewrite E. destruct (decide (j < length (streams_ a))); [by rewrite lookup_app_l|].
    rewrite lookup_app_r, (lookup_ge_None_2 (streams_ a)) by lia. destruct (j - length (streams_ a)) as [|[|m]]; done. }
  unfold left_of. destruct p; rewrite ?Ha; lia.
Qed.

Lemma left_write w s x s' : inv w s -> match x with Append _ | Reset _ | Close _ => True | _ => False end -> act x s = Some s' -> left s' <= left s + cost x.
Proof.
  intros Hi Hk Ha.
  assert (Hp : forall j, point s = ParsePeek j \/ point s = ParseView j -> taken s = S j).
  { intros j Hj. pose proof (inv_point _ _ Hi) as Hpt. unfold at_point in Hpt. by destruct Hj as [Hj|Hj]; rewrite Hj in Hpt; destruct Hpt. }
  destruct x as [|c|c|e|]; try done; injection Ha as <-; unfold left; cbn [async_stream set_stream point taken cost]; unfold AppendContent, ResetStream, CloseStream;
    (destruct (closed_ (async_stream s)); [lia|]).
  - by apply left_append.
  - set (a1 := update_stream _ _ (async_stream s)). pose proof (left_append (current_stream_ (async_stream s)) [Ascii.zero] (async_stream s) (point s) (taken s) Hp) as H1.
    fold a1 in H1. set (a2 := mkAsyncStream _ _ _ _). pose proof (left_snoc a1 a2 (point s) (taken s) eq_refl) as H2.
    pose proof (left_append (current_stream_ a2) c a2 (point s) (taken s) Hp) as H3. cbn [length] in H1. lia.
  - pose proof (left_append (current_stream_ (async_stream s)) [Ascii.zero] (async_stream s) (point s) (taken s) Hp) as H1. cbn [length] in H1. exact H1.
Qed.

Lemma fresh_drop n m l : n <= m -> fresh_cost (drop m l) <= fresh_cost (drop n l).
Proof.
  revert n m. induction l as [|b l IH]; intros [|n] [|m] Hm; try lia; cbn [drop]; try lia.
  - rewrite fresh_cons. specialize (IH 0 m ltac:(lia)). rewrite drop_0 in IH. lia.
  - apply IH. lia.
Qed.

Lemma stream_at_update j b a : is_Some (streams_ a !! j) -> stream_at j (update_stream j (fun _ => b) a) = b.
Proof. intros [x E]. unfold stream_at. cbn [streams_ update_stream]. by rewrite list_lookup_alter_eq, E. Qed.

Lemma left_parse w s s' : inv w s -> parse_step s = Some s' -> left s' < left s.
Proof.
  intros Hi Hs. pose proof (inv_point _ _ Hi) as Hp. unfold at_point in Hp. unfold PartitionStream.parse_step in Hs. unfold left.
  destruct (point s) as [| |j|j| | |e] eqn:Hpt.
  - unfold CancellationContext.ExecuteOrCancelled in Hs. destruct (CancellationContext.is_cancelled_ (context s)); injection Hs as <-; cbn [async_stream point taken move left_of]; lia.
  - injection Hs as <-. destruct Hp as [Htk _]. unfold GetCurrentStream. cbn [async_stream point taken left_of].
    destruct (inv_fresh _ _ Hi (current_stream_ (async_stream s)) ltac:(lia)) as (b & E & _).
    pose proof (fresh_drop _ _ (streams_ (async_stream s)) Htk) as Hf. rewrite (drop_S _ _ _ E), fresh_cons in Hf.
    rewrite (stream_at_lookup _ _ _ E). unfold stream_cost in Hf. unfold remaining, rest. cbn in Hf |- *. lia.
  - destruct Hp as [Htk (b & E & Hb & _)]. cbn [left_of]. rewrite (stream_at_lookup _ _ _ E) in Hs |- *. destruct (Peek b) as [[b' c]|] eqn:Epk; [|done].
    cbn in Hs. injection Hs as <-. destruct (Peek_spec _ _ _ Hb Epk) as (_ & _ & Hr & l & El). cbn [async_stream move set_stream point taken].
    assert (Hrm : 1 <= remaining b') by (unfold remaining; rewrite El; cbn [length]; lia).
    case_bool_decide; cbn [left_of streams_ update_stream]; rewrite drop_alter by lia; rewrite ?stream_at_update by done; lia.
  - destruct Hp as (Htk & (b & E & Hb & _) & c & l & El & Hc). cbn [left_of]. rewrite (stream_at_lookup _ _ _ E) in Hs, El |- *.
    destruct (ReadView b) as [[b' view]|] eqn:Er; [|done]. cbn in Hs. destruct (write_some _ _) as [[p n] r]. injection Hs as <-.
    destruct (ReadView_spec _ _ _ _ _ Hb El Hc Er) as (_ & _ & Hv & _ & Hr). assert (1 <= length view) by (destruct view; [done|cbn; lia]).
    cbn [async_stream point taken left_of streams_ update_stream]. rewrite drop_alter by lia. rewrite stream_at_update by done. lia.
  - injection Hs as <-. cbn [async_stream move point taken]. destruct (IsClosed _); cbn [left_of]; lia.
  - injection Hs as <-. cbn [async_stream point taken move left_of]. lia.
  - done.
Qed.

Lemma left_cancel w s : inv w s -> left (cancel_parsing s) <= left s + 2.
Proof.
  intros Hi. unfold cancel_parsing, CancellationContext.CancelOperation. destruct (CancellationContext.is_cancelled_ (context s)); [unfold left; cbn; lia|].
  destruct (CancellationContext.sub_operation_cancel_token_ (context s)); [|unfold left; cbn; lia].
  exact (left_write w s (Close (Some (ApiError_of_code Cancelled (chars "Cancelled") false))) _ Hi I eq_refl).
Qed.

Lemma left_act w s x s' : inv w s -> act x s = Some s' -> parses x + left s' <= left s + cost x.
Proof.
  intros Hi Ha. destruct x as [|c|c|e|]; cbn [parses].
  - pose proof (left_parse _ _ _ Hi Ha). cbn [cost]. lia.
  - by apply (left_write w).
  - by apply (left_write w).
  - by apply (left_write w).
  - injection Ha as <-. by apply (left_cancel w).
Qed.

Lemma left_acts xs w s s' : inv w s -> Forall clean xs -> acts xs s = Some s' ->
  sum_list (parses <$> xs) + left s' <= left s + sum_list (cost <$> xs).
Proof.
  revert w s. induction xs as [|x xs IH]; intros w s Hi Hx; cbn [PartitionStream.acts]; [intros [= <-]; cbn; lia|].
  apply Forall_cons in Hx as [Hx1 Hx]. destruct (act x s) as [s1|] eqn:Ea; [|done]. cbn [mbind option_bind]. intros Hs.
  destruct (inv_act _ _ _ _ Hi Hx1 Ea) as (w1 & Hi1 & _). pose proof (left_act _ _ _ _ Hi Ea). specialize (IH _ _ Hi1 Hx Hs).
  cbn. cbn in IH. lia.
Qed.

(** *** The parsing thread is woken up *)

Definition token_ok (s : state) : Prop :=
  if cancelled s then closed_ (async_stream s) = true \/ point s = ParseStart \/ exists e, point s = ParseDone e
  else point s = ParseStart \/ is_Some (CancellationContext.sub_operation_cancel_token_ (context s)).

Lemma token_write s a' : (closed_ (async_stream s) = true -> closed_ a' = true) -> token_ok s -> token_ok (set_stream a' s).
Proof. unfold token_ok. change (cancelled (set_stream a' s)) with (cancelled s). destruct (cancelled s); [|done]. intros Hc [H|H]; [left; by apply Hc|by right]. Qed.

Lemma closed_stays a : closed_ a = true ->
  (forall c, closed_ (AppendContent c a) = true) /\ (forall c, closed_ (ResetStream c a) = true) /\ (forall e, closed_ (CloseStream e a) = true).
Proof. intros H. unfold AppendContent, ResetStream, CloseStream. rewrite H. auto. Qed.

(** A step from another point than the first and the last one. *)
Ltac token_goes_on Ht :=
  let H := fresh in
  destruct (CancellationContext.is_cancelled_ _); [destruct Ht as [H|[H|[? H]]]; [by left|done..]|destruct Ht; [done|by right]].

Lemma token_parse s s' : parse_step s = Some s' -> token_ok s -> token_ok s'.
Proof.
  unfold token_ok, cancelled, PartitionStream.parse_step. intros Hs Ht. destruct (point s) as [| |j|j| | |e] eqn:Hpt.
  - unfold CancellationContext.ExecuteOrCancelled in Hs. destruct (CancellationContext.is_cancelled_ (context s)) eqn:E; injection Hs as <-; cbn.
    + rewrite E. right; right. by eexists.
    + right. by eexists.
  - injection Hs as <-. cbn. by token_goes_on Ht.
  - destruct (Peek _) as [[b c]|]; [|done]. cbn in Hs. injection Hs as <-. cbn.
    by token_goes_on Ht.
  - destruct (ReadView _) as [[b view]|]; [|done]. cbn in Hs. destruct (write_some _ _) as [[? ?] ?]. injection Hs as <-. cbn.
    by token_goes_on Ht.
  - injection Hs as <-. cbn. by token_goes_on Ht.
  - injection Hs as <-. cbn. by token_goes_on Ht.
  - done.
Qed.

Lemma token_cancel s : token_ok s -> token_ok (cancel_parsing s).
Proof.
  unfold token_ok, cancelled, cancel_parsing, CancellationContext.CancelOperation. destruct (CancellationContext.is_cancelled_ (context s)) eqn:E; intros Ht.
  - cbn. by rewrite E.
  - destruct (CancellationContext.sub_operation_cancel_token_ (context s)) as [u|] eqn:Eu; cbn.
    + left. unfold CloseStream. destruct (closed_ (async_stream s)) eqn:Ec; [exact Ec|done].
    + destruct Ht as [H|[? H]]; [auto|done].
Qed.

Lemma token_act x s s' : act x s = Some s' -> token_ok s -> token_ok s'.
Proof.
  destruct x as [|c|c|e|]; cbn [PartitionStream.act]; [by apply token_parse|..]; intros [= <-] Ht; [apply token_write; [|done]; intros H; by apply closed_stays..|].
  by apply token_cancel.
Qed.

Lemma token_acts xs s s' : acts xs s = Some s' -> token_ok s -> token_ok s'.
Proof.
  revert s. induction xs as [|x xs IH]; intros s; cbn [PartitionStream.acts]; [by intros [= <-]|].
  destruct (act x s) as [s1|] eqn:Ea; [|done]. cbn [mbind option_bind]. intros Hs Ht. apply (IH s1); [done|]. by eapply token_act.
Qed.

(** A closed stream always has something to read. *)
Lemma closed_goes_on w s : inv w s -> is_Some w.2 -> (exists e, point s = ParseDone e) \/ is_Some (parse_step s).
Proof.
  intros Hi Hw. pose proof (inv_point _ _ Hi) as Hp. unfold at_point in Hp. unfold PartitionStream.parse_step.
  destruct (point s) as [| |j|j| | |e]; [right..|left; by eexists].
  - by destruct (CancellationContext.ExecuteOrCancelled _ _) as [? []].
  - done.
  - destruct Hp as [Htk (b & E & Hb & Hc & Hn)]. rewrite (stream_at_lookup _ _ _ E).
    assert (Hu : unread b <> []).
    { intros Eu. rewrite Eu, app_nil_r in Hc. apply Hn. destruct Hc as [[_ (t' & _ & Et)]|[_ Et]]; rewrite Et; apply elem_of_app; right;
        [|destruct Hw as [e ->]]; by apply list_elem_of_singleton. }
    destruct (refill_ready b Hu Hb) as [b' Er]. destruct (refill_unread _ _ Hb Er) as (_ & _ & Hlt & _).
    apply lookup_lt_is_Some in Hlt as [c Ec]. unfold Peek. rewrite Er. cbn. rewrite Ec. cbn. by eexists.
  - destruct Hp as (_ & (b & E & Hb & _) & c & l & El & Hc). rewrite (stream_at_lookup _ _ _ E) in El |- *.
    assert (Er : is_Some (refill b)) by (apply refill_ready; [unfold unread; by rewrite El|done]).
    destruct Er as [b' Er]. unfold ReadView. rewrite Er. cbn. destruct (write_some _ _) as [[? ?] ?]. by eexists.
  - done.
  - done.
Qed.

(** ** What the threads promise *)

(** However the thread that downloads, with any number of restarts, and the thread that
    parses interleave, the parsing ends with the error that the stream was closed with,
    or, when it was closed without one, with what the parser says of exactly the text of
    the last download, in some pieces. *)
Lemma streamed_text xs s e : Forall clean xs -> CancelParsing ∉ xs -> acts xs start = Some s -> point s = ParseDone e ->
  match (written xs).2 with
  | None => False
  | Some (Some error) => e = Some error
  | Some None => exists pieces r0 r, concat pieces = (written xs).1 /\ foldl feed ((parser_new, Handler_new), r0) pieces = (parser s, r) /\
      e = match r with Some value => Some (ApiError_of_status value (chars "Parsing error")) | None => None end
  end.
Proof.
  intros Hx Hn Hs He. destruct (inv_acts xs _ _ _ inv_start Hx Hs) as (w & Hi & Hw). rewrite (Hw Hn) in Hi. fold (written xs) in Hi.
  assert (Hcan : cancelled s = false) by by apply (cancelled_acts xs start). pose proof (inv_point _ _ Hi) as Hp. unfold at_point in Hp. rewrite He in Hp.
  destruct Hp as [Hp|([c Hc] & Hall & Hv)]; [by rewrite Hp in Hcan|]. rewrite Hc in *. cbn in Hv. destruct c as [error|]; cbn in Hv; [exact Hv|].
  destruct (inv_parser _ _ Hi Hcan) as [r0 Er]. exists (fed s), r0, (parse_result s). split_and!; [by apply Hall|done|done].
Qed.

(** C6: the parsing of a response without NUL characters ends: however the threads
    interleave and whether it is cancelled or not, it takes at most six steps for every
    restart and two for every byte, and once the stream is closed or the parsing is
    cancelled, the parsing thread is through or can go on, so it does not wait for ever.
    A response with a NUL character, which the stream takes for its end while the parser
    waits for more, is parsed for ever (terminator_never_ends). *)
Theorem parsing_ends xs s : Forall clean xs -> acts xs start = Some s ->
  sum_list (parses <$> xs) <= 5 + sum_list (cost <$> xs) /\
  (closed_ (async_stream s) = true \/ cancelled s = true -> (exists e, point s = ParseDone e) \/ is_Some (parse_step s)).
Proof.
  intros Hx Hs. split.
  - pose proof (left_acts _ _ _ _ inv_start Hx Hs) as H. change (left start) with 5 in H. lia.
  - intros Hc. destruct (inv_acts xs _ _ _ inv_start Hx Hs) as (w & Hi & _).
    assert (Hcl : closed_ (async_stream s) = true -> is_Some w.2) by (rewrite (inv_closed _ _ Hi); apply bool_decide_eq_true_1).
    destruct Hc as [Hc|Hc]; [by apply (closed_goes_on w); [|apply Hcl]|].
    pose proof (token_acts _ _ _ Hs (or_introl eq_refl : token_ok start)) as Ht. unfold token_ok in Ht. rewrite Hc in Ht.
    destruct Ht as [Ht|[Ht|Ht]]; [by apply (closed_goes_on w); [|apply Hcl]| |by left].
    right. unfold PartitionStream.parse_step. rewrite Ht. by destruct (CancellationContext.ExecuteOrCancelled _ _) as [? []].
Qed.

(** C39: An error of the parser is lost when the parser has parsed a character of the same
    piece: a response that comes in one piece is a success although it is not parsed. *)
Theorem parse_error_lost text p n value : Ascii.zero ∉ text -> text <> [] ->
  write_some (parser_new, Handler_new) text = (p, S n, Some value) ->
  exists xs s, acts xs start = Some s /\ written xs = (text, Some None) /\ parser s = p /\ point s = ParseDone None.
Proof.
  intros Hz Ht Hw. exists [Reset text; Close None; Parse; Parse; Parse; Parse; Parse; Parse; Parse].
  set (whole := text ++ [Ascii.zero]).
  assert (Hv : before_terminator whole = text) by by apply before_terminator_app.
  assert (H1 : Peek (append_bytes [Ascii.zero] (append_bytes text JsonByteStream_new)) = Some (mkByteStream whole [] 0 0, default Ascii.zero (head text))).
  { subst whole. by destruct text. }
  assert (Hb : bool_decide (default Ascii.zero (head text) = Ascii.zero) = false).
  { destruct text as [|c text]; [done|]. apply not_elem_of_cons in Hz as [Hc _]. apply bool_decide_eq_false_2. intros E. by apply Hc. }
  assert (H2 : ReadView (mkByteStream whole [] 0 0) = Some (mkByteStream whole [] (length text) (length text), text)).
  { assert (Hr : refill (mkByteStream whole [] 0 0) = Some (mkByteStream whole [] 0 0)) by (subst whole; by destruct text).
    unfold ReadView. rewrite Hr. cbn. by rewrite drop_0, Hv. }
  assert (H3 : Peek (mkByteStream whole [] (length text) (length text)) = Some (mkByteStream whole [] (length text) (length text), Ascii.zero)).
  { assert (Hl : whole !! length text = Some Ascii.zero) by (subst whole; by rewrite lookup_app_r, Nat.sub_diag).
    assert (Hr : refill (mkByteStream whole [] (length text) (length text)) = Some (mkByteStream whole [] (length text) (length text))).
    { unfold refill, ReadEmpty. rewrite bool_decide_eq_false_2; [done|]. subst whole. cbn. rewrite length_app. cbn. lia. }
    unfold Peek. rewrite Hr. cbn. by rewrite Hl. }
  clearbody whole. eexists. split_and!.
  - cbn [PartitionStream.acts]. unfold PartitionStream.act, PartitionStream.parse_step. cbn -[Peek ReadView append_bytes before_terminator].
    rewrite H1. cbn -[Peek ReadView]. rewrite Hb. cbn -[Peek ReadView]. rewrite H2. cbn -[Peek ReadView]. rewrite Hw. cbn -[Peek ReadView].
    rewrite H3. cbn -[Peek ReadView]. reflexivity.
  - done.
  - done.
  - done.
Qed.

(** The parsing thread at a terminator that does not end the stream. *)
Definition stuck (s : state) : Prop :=
  async_stream s = mkAsyncStream [mkByteStream [Ascii.zero] [Ascii.zero] 0 0] 0 None true /\ cancelled s = false /\
  (point s = ParseStart \/ point s = ParseGetStream \/ point s = ParsePeek 0 \/ point s = ParseIsClosed).

Lemma stuck_act x s s' : stuck s -> x <> CancelParsing -> act x s = Some s' -> stuck s'.
Proof.
  intros (Ha & Hc & Hp) Hx. unfold stuck, cancelled in *. destruct x as [|c|c|e|]; [|intros [= <-]; cbn; rewrite Ha; by split_and!..|done].
  cbn [PartitionStream.act]. unfold PartitionStream.parse_step, CancellationContext.ExecuteOrCancelled. rewrite Ha, Hc.
  destruct Hp as [Hp|[Hp|[Hp|Hp]]]; rewrite Hp; intros [= <-]; cbn; auto 10.
Qed.

Lemma stuck_acts ys s s' : stuck s -> CancelParsing ∉ ys -> acts ys s = Some s' -> stuck s'.
Proof.
  revert s. induction ys as [|y ys IH]; intros s Hs Hy; cbn [PartitionStream.acts]; [by intros [= <-]|].
  apply not_elem_of_cons in Hy as [H1 H2]. destruct (act y s) as [s1|] eqn:Ea; [|done]. cbn [mbind option_bind]. intros Hs'.
  apply (IH s1); [|done|done]. by apply (stuck_act y s).
Qed.

(** A terminator in the text makes the parsing thread take steps for ever: once it has
    come to it, and the rest was written and the stream closed, no further steps of the
    threads bring it to an end unless somebody cancels it. *)
Theorem terminator_never_ends : exists xs s, acts xs start = Some s /\ closed_ (async_stream s) = true /\
  forall ys s', CancelParsing ∉ ys -> acts ys s = Some s' -> (forall e, point s' <> ParseDone e) /\ is_Some (parse_step s').
Proof.
  exists [Append [Ascii.zero]; Parse; Parse; Parse; Close None]. eexists. split; [reflexivity|]. split; [done|].
  intros ys s' Hy Hs. assert (Hst : stuck s') by (eapply stuck_acts; [|exact Hy|exact Hs]; split_and!; auto).
  destruct Hst as (Ha & Hc & Hp). unfold PartitionStream.parse_step. split; [intros e E; rewrite E in Hp; naive_solver|].
  destruct Hp as [Hp|[Hp|[Hp|Hp]]]; rewrite Hp; [|done| |done].
  - by destruct (CancellationContext.ExecuteOrCancelled _ _) as [? []].
  - by rewrite Ha.
Qed.

(** *** Streams of documents *)

Section documents.
Context (moved_from : list ascii -> list ascii) (text : list ascii) (objs : list object).

(** What [basic_parser] does with the text of a document: whatever the pieces are, it calls
    the handler with the events of the document and reports no error. *)
Hypothesis parses_text : forall pieces r0, concat pieces = text ->
  exists p es, document_events objs es /\ foldl feed ((parser_new, Handler_new), r0) pieces = ((p, (handle_all moved_from es Handler_new).1), None).

(** C5: However the threads interleave, and however often the download starts again, when
    the last one has written a document of partitions, the parsing is a success and its
    handler has called the callback with exactly the partitions of the document, in their
    order (if the partitions have the same optional attributes). *)
Theorem streamed_partitions xs s e : Forall partition_object objs -> same_attributes objs ->
  Forall clean xs -> CancelParsing ∉ xs -> acts xs start = Some s -> point s = ParseDone e -> written xs = (text, Some None) ->
  e = None /\ exists ps, from_json (T := Partitions) (document objs) = Some (mkPartitions ps) /\ delivered (snd (parser s)) = ps.
Proof.
  intros Ho Hsame Hx Hn Hs He Hw. pose proof (streamed_text xs s e Hx Hn Hs He) as Ht. rewrite Hw in Ht.
  destruct Ht as (pieces & r0 & r & Hc & Hf & ->). destruct (parses_text pieces r0 Hc) as (p & es & Hes & Hf'). rewrite Hf in Hf'. injection Hf' as Hp ->.
  split; [done|]. destruct (stream_as_document moved_from objs es Ho Hsame Hes) as (h & ps & Eh & _ & Hps & Hd). exists ps. split; [done|].
  rewrite Hp, Eh. exact Hd.
Qed.
End documents.
End stream.

(** ** What the downloading thread writes *)

Section download.
Context `{Models} {S N : Type} `{KeyValueCache S Model} `{Online S N}.

Lemma written_from offset parts text : 0 < offset -> Forall (fun p => p <> []) parts ->
  foldl write_one (text, None) (data_callback <$> calls_from offset parts) = (text ++ mjoin parts, None).
Proof.
  intros Ho Hp. revert offset text Ho. induction Hp as [|p parts Hp _ IH]; intros offset text Ho; cbn; [by rewrite app_nil_r|].
  unfold data_callback at 1. cbn [fst snd]. replace (offset =? 0) with false by lia. cbn [write_one fst snd].
  rewrite IH by (unfold slen; lia). by rewrite <- app_assoc.
Qed.

(** A try starts the text anew. *)
Lemma written_try parts text : parts <> [] -> Forall (fun p => p <> []) parts ->
  foldl write_one (text, None) (data_callback <$> calls_of parts) = (mjoin parts, None).
Proof.
  intros Hne Hp. destruct Hp as [|p parts Hp0 Hp]; [done|]. cbn. apply written_from; [|done]. destruct p; [done|]. unfold slen. cbn. lia.
Qed.

Lemma written_tries tries text : Forall (fun parts => Forall (fun p => p <> []) parts) tries ->
  exists text', foldl write_one (text, None) (data_callback <$> mjoin (calls_of <$> tries)) = (text', None).
Proof.
  intros Ht. revert text. induction Ht as [|parts tries Hp _ IH]; intros text; [by exists text|].
  cbn [fmap list_fmap mjoin list_join]. rewrite fmap_app, foldl_app. destruct parts as [|p parts]; [apply IH|].
  rewrite written_try by done. apply IH.
Qed.

(** The stream is closed with the text that the last try received, whatever the tries
    before it left, when the service answered. *)
Lemma StreamPartitions_writes lookup_client layer_id version fields tag (w w1 w2 : World S N) client response tries parts :
  LookupApi lookup_client (chars "metadata") (chars "v1") OnlineIfNotFound w = Some (w1, inl client) ->
  CallApiStream client (partitions_call layer_id (Some version) fields None tag) w1 = Some (w2, (response, mjoin (calls_of <$> tries) ++ calls_of parts)) ->
  status response = 200 -> Forall (fun parts => Forall (fun p => p <> []) parts) tries -> parts <> [] -> Forall (fun p => p <> []) parts ->
  exists xs, StreamPartitions lookup_client layer_id version fields tag w = Some (w2, xs) /\ written xs = (mjoin parts, Some None).
Proof.
  intros E1 E2 Hs Ht Hne Hp. exists ((data_callback <$> (mjoin (calls_of <$> tries) ++ calls_of parts)) ++ [Close None]). split.
  - unfold StreamPartitions. eapply run_bind; [exact E1|]. cbv beta iota. unfold GetPartitionsStream. eapply run_bind; [exact E2|].
    cbv beta iota zeta. by rewrite Hs.
  - unfold written. rewrite fmap_app, !foldl_app. destruct (written_tries tries [] Ht) as [text' ->]. by rewrite written_try by done.
Qed.
End download.

(** ** A concrete parser

    It waits for the whole text of one document, and then calls the handler. *)

Section whole_parser.
Context (text : list ascii) (finish : Handler -> Handler).

Definition whole_write_some (p : list ascii * Handler) (view : list ascii) : (list ascii * Handler) * nat * option Z :=
  let text' := p.1 ++ view in
  ((text', if bool_decide (text' = text /\ view <> []) then finish p.2 else p.2), length view, None).

Lemma whole_write_some_from pieces acc h r : acc ++ concat pieces = text ->
  (acc = text /\ h = finish Handler_new /\ r = None) \/ (acc <> text /\ h = Handler_new) ->
  foldl (feed whole_write_some) ((acc, h), r) pieces = ((text, finish Handler_new), None).
Proof.
  revert acc h r. induction pieces as [|v pieces IH]; intros acc h r E H; cbn [concat foldl] in *.
  { rewrite app_nil_r in E. destruct H as [(-> & -> & ->)|[Hne _]]; [done|by destruct Hne]. }
  unfold feed at 2. cbn [fst]. unfold whole_write_some at 2. cbn [fst snd]. apply IH; [by rewrite <- app_assoc|].
  destruct H as [(-> & -> & ->)|[Hne ->]].
  - left. assert (v = []) as ->.
    { destruct v as [|c v]; [done|]. apply (f_equal length) in E. rewrite length_app in E. cbn [length app] in E. lia. }
    rewrite app_nil_r. split_and!; [done| |done]. rewrite bool_decide_eq_false_2; [done|]. by intros [_ ?].
  - case_bool_decide as Eb.
    + left. destruct Eb as [Eb Hv]. split_and!; [done|done|]. destruct v; [done|]. cbn [length]. destruct (Z.ltb_spec 0 (Z.of_nat (S (length v)))); [done|lia].
    + right. split; [|done]. intros Ea. apply Eb. split; [done|]. intros ->. rewrite app_nil_r in Ea. done.
Qed.
End whole_parser.

Module stream_sample.

Definition text : list ascii := chars "{'partitions':[{'partition':'269','dataHandle':'4eed6ed1'},{'partition':'270','dataHandle':'3c3c50f2'}]}".
Definition objs : list object := [sample_partition [] "4eed6ed1" "269"; sample_partition [] "3c3c50f2" "270"].
Definition whole_parser : list ascii * Handler -> list ascii -> (list ascii * Handler) * nat * option Z :=
  whole_write_some text (fun h => (handle_all (fun _ => []) (whole_document objs) h).1).

Lemma objs_partitions : Forall partition_object objs.
Proof. repeat (constructor; [by apply is_partition_object_true|]). constructor. Qed.

Lemma parses_sample pieces r0 : concat pieces = text ->
  exists p es, document_events objs es /\ foldl (feed whole_parser) (([], Handler_new), r0) pieces = ((p, (handle_all (fun _ => []) es Handler_new).1), None).
Proof.
  intros E. exists text, (whole_document objs). split; [apply whole_document_events, objs_partitions|].
  refine (whole_write_some_from text _ pieces [] Handler_new r0 E (or_intror (conj _ eq_refl))). discriminate.
Qed.

(** The download starts again after a part of the text. *)
Definition actions : list action :=
  [Parse; Reset (firstn 30 text); Parse; Parse; Parse; Reset (firstn 50 text); Parse; Parse; Parse; Parse; Parse; Append (skipn 50 text);
   Parse; Parse; Parse; Close None; Parse; Parse; Parse].
Definition final : parsing (list ascii) := default (start [] 5) (acts [] whole_parser actions (start [] 5)).

Lemma actions_clean : Forall clean actions.
Proof. repeat (constructor; [by (exact I || (apply (bool_decide_eq_true_1 _); vm_compute; reflexivity))|]). constructor. Qed.

Lemma actions_final : acts [] whole_parser actions (start [] 5) = Some final.
Proof. vm_compute. reflexivity. Qed.
End stream_sample.
Import stream_sample.

Lemma streamed_partitions_witness :
  acts [] whole_parser actions (start [] 5) = Some final /\
  exists ps, from_json (T := Partitions) (document objs) = Some (mkPartitions ps) /\ delivered (snd (parser final)) = ps /\ length ps = 2%nat.
Proof.
  assert (Hn : CancelParsing ∉ actions) by (unfold actions; rewrite !not_elem_of_cons; split_and!; try discriminate; apply not_elem_of_nil).
  assert (Ha : same_attributes objs).
  { apply (same_names_attributes (sample_partition [] "4eed6ed1" "269")). repeat constructor. }
  split; [exact actions_final|].
  destruct (streamed_partitions [] whole_parser 5 (fun _ => []) text objs parses_sample actions final None objs_partitions Ha actions_clean Hn actions_final
    ltac:(vm_compute; reflexivity) ltac:(vm_compute; reflexivity)) as (_ & ps & H1 & H2).
  exists ps. split; [exact H1|]. split; [exact H2|]. rewrite <- H2. vm_compute. reflexivity.
Defined.

Lemma parsing_ends_witness : acts [] whole_parser actions (start [] 5) = Some final /\
  (sum_list (parses <$> actions) <= 5 + sum_list (cost <$> actions))%nat.
Proof.
  split; [exact actions_final|]. exact (proj1 (parsing_ends [] whole_parser 5 actions final actions_clean actions_final)).
Defined.

Lemma parse_error_lost_witness : exists xs s,
  acts tt (fun p view => (p, 1%nat, Some 5)) xs (start tt 5) = Some s /\ written xs = (chars "{]", Some None) /\
  parser s = (tt, Handler_new) /\ point s = ParseDone None.
Proof.
  apply (parse_error_lost tt (fun p view => (p, 1%nat, Some 5)) 5 (chars "{]") (tt, Handler_new) 0 5);
    [apply (bool_decide_eq_true_1 _); vm_compute; reflexivity|discriminate|reflexivity].
Defined.
