(* ===== verification/PrefetchTiles.v ===== *)
(** * The tiles of a prefetch

    Model of src/repositories/PrefetchTilesRepository.cpp of olp-cpp-sdk-dataservice-read:
    the roots of the quad trees that cover the tiles of a request on the requested levels,
    the data of a tree, the trees of the ancestors that aggregated tiles need, and the
    filters that leave the tiles of the request.

    A [std::map] by tiles is a finite map; where the code walks through it, the walk is
    in the order of [TileKey::operator<].  [None] is undefined behaviour: a shift by the
    width of the type, an element of an empty list, or what Repositories.v says. *)

From stdpp Require Import sorting.
From S2P Require Import Prelude TileKey QuadTreeIndex QuadTreeJson Hrn Json ReadModels LruCache InMemoryCache ProtectedKeyList DiskCache DefaultCache.
From S2P Require Import DefaultCacheInvariant DefaultCacheOperations KeyValueCache KeyGenerator CacheRepositories LayerClient.
From S2P Require Import Http World ApiLookup ReadApis Repositories ReadIntegrity.
Import Network Response.

(** [PrefetchTilesRequest] without its priority. *)
Record PrefetchTilesRequest := mkPrefetchTilesRequest {
  prefetch_tile_keys : list TileKey;
  min_level_ : Z;
  max_level_ : Z;
  prefetch_tiles_billing_tag : option str;
  data_aggregation_enabled_ : bool }.

(** Roots with the depth of their trees, and tiles with the handle of their data. *)
Abbreviation RootTilesForRequest := (gmap TileKey Z).
Abbreviation SubQuadsResult := (gmap TileKey str).

(** The keys of a map in the order of the map. *)
Definition keys_in_order {A} (m : gmap TileKey A) : list TileKey := merge_sort tile_le (map_to_list m).*1.

(** ** The roots *)

(** A tile of the loop of [SplitSubtree]: [insert] does nothing for a key that is there. *)
Definition add_child (tile_key : TileKey) (min : Z) (root_tiles_depth : RootTilesForRequest) (child : TileKey) : RootTilesForRequest :=
  if (negb (IsParentOf tile_key child) && negb (IsParentOf child tile_key) && negb (bool_decide (child = tile_key)))
     || (u32 (level_ child + kMaxQuadTreeIndexDepth) <? min)
  then root_tiles_depth
  else match root_tiles_depth !! child with
       | Some _ => root_tiles_depth
       | None => <[child := kMaxQuadTreeIndexDepth]> root_tiles_depth
       end.

(** The tiles from [FromQuadKey64(begin)] to [FromQuadKey64(end - 1)]. *)
Definition tiles_between (beginTileKey endTileKey : Z) : list TileKey := FromQuadKey64 <$> seqZ beginTileKey (endTileKey - beginTileKey).

Fixpoint split_loop (fuel : nat) (root_tiles_depth : RootTilesForRequest) (tileKey tile_key : TileKey) (depth min : Z) : option (RootTilesForRequest * Z) :=
  if depth >? kMaxQuadTreeIndexDepth then
    match fuel with
    | O => None
    | S fuel =>
        let level := depth - kMaxQuadTreeIndexDepth in
        if 16 <=? level then None (* the shift of [ChildrenAtLevel] *)
        else
          let firstChild := ChangedLevelTo tileKey (level_ tileKey + level) in
          let beginTileKey := ToQuadKey64 firstChild in
          let endTileKey := u64 (beginTileKey + ChildrenAtLevel level) in
          split_loop fuel (foldl (add_child tile_key min) root_tiles_depth (tiles_between beginTileKey endTileKey)) tileKey tile_key
            (depth - (kMaxQuadTreeIndexDepth + 1)) min
    end
  else Some (root_tiles_depth, depth).

(** [SplitSubtree] of the element with the key [tileKey] and the depth [depth]. *)
Definition SplitSubtree (root_tiles_depth : RootTilesForRequest) (tileKey : TileKey) (depth : Z) (tile_key : TileKey) (min : Z) : option RootTilesForRequest :=
  if depth <=? kMaxQuadTreeIndexDepth then Some root_tiles_depth
  else
    '(root_tiles_depth, depth) ← split_loop (Z.to_nat depth) root_tiles_depth tileKey tile_key depth min;
    Some (if u32 (level_ tileKey + depth) <? min then delete tileKey root_tiles_depth else <[tileKey := depth]> root_tiles_depth).

(** The levels that the trees of a tile cover. *)
Definition adjusted_levels (tile_key : TileKey) (min max : Z) : Z * Z :=
  let min_level := if level_ tile_key <? min then level_ tile_key else min in
  let max_level := if max =? LevelCount then min_level else Z.max max min_level in
  let extra_levels := u32 (max_level + 1 - min_level) mod (kMaxQuadTreeIndexDepth + 1) in
  if extra_levels =? 0 then (min_level, max_level)
  else
    let levels_up := kMaxQuadTreeIndexDepth + 1 - extra_levels in
    ((if min_level >? levels_up then min_level - levels_up else 0), max_level).

Definition slice_tile (min max : Z) (root_tiles_depth : RootTilesForRequest) (tile_key : TileKey) : option RootTilesForRequest :=
  let '(min_level, max_level) := adjusted_levels tile_key min max in
  let root_tile := ChangedLevelTo tile_key min_level in
  let depth := match root_tiles_depth !! root_tile with
               | Some depth => Z.max depth (u32 (max_level - min_level))
               | None => u32 (max_level - min_level)
               end in
  let root_tiles_depth := <[root_tile := depth]> root_tiles_depth in
  if depth >? kMaxQuadTreeIndexDepth then SplitSubtree root_tiles_depth root_tile depth tile_key min else Some root_tiles_depth.

Fixpoint slice_tiles (tile_keys : list TileKey) (min max : Z) (root_tiles_depth : RootTilesForRequest) : option RootTilesForRequest :=
  match tile_keys with
  | [] => Some root_tiles_depth
  | tile_key :: tile_keys => m ← slice_tile min max root_tiles_depth tile_key; slice_tiles tile_keys min max m
  end.

Definition GetSlicedTiles (tile_keys : list TileKey) (min max : Z) : option RootTilesForRequest := slice_tiles tile_keys min max ∅.

(** ** The filters *)

Definition skip_tile (request : PrefetchTilesRequest) (tile_key : TileKey) : bool :=
  (level_ tile_key <? min_level_ request) || (level_ tile_key >? max_level_ request) ||
  negb (existsb (fun root_key => bool_decide (root_key = tile_key) || IsParentOf root_key tile_key || IsParentOf tile_key root_key)
          (prefetch_tile_keys request)).

Definition FilterTilesByLevel (request : PrefetchTilesRequest) (tiles : SubQuadsResult) : SubQuadsResult :=
  filter (fun kv => skip_tile request kv.1 = false) tiles.

Definition FilterTileKeysByLevel (request : PrefetchTilesRequest) (tiles : SubQuadsResult) : list TileKey :=
  List.filter (fun t => negb (skip_tile request t)) (keys_in_order tiles).

(** The loop [while (IsValid() && !append_tile(...))] of the aggregated filters: the tile at
    which it stops; the parent of a tile on level 0 is not valid. *)
Fixpoint climb (fuel : nat) (stops : TileKey -> bool) (tile : TileKey) : TileKey :=
  match fuel with
  | O => tile
  | S fuel => if IsValid tile && negb (stops tile) then climb fuel stops (Parent tile) else tile
  end.

Definition climb_levels : nat := 33.

(** A tile of the request in [FilterTilesByList]: without aggregation, from [tiles] and
    [result]; with it, from [result], since what is moved out of [tiles] is in [result]. *)
Definition take_tile (p : SubQuadsResult * SubQuadsResult) (tile : TileKey) : SubQuadsResult * SubQuadsResult :=
  let '(tiles, result) := p in
  match tiles !! tile with
  | Some handle => (delete tile tiles, <[tile := handle]> result)
  | None => (tiles, match result !! tile with Some _ => result | None => <[tile := []]> result end)
  end.

Definition append_tile (tiles : SubQuadsResult) (result : SubQuadsResult) (tile : TileKey) : SubQuadsResult :=
  let aggregated_tile := climb climb_levels (fun key => bool_decide (is_Some (tiles !! key)) || bool_decide (is_Some (result !! key))) tile in
  if IsValid aggregated_tile then
    match result !! aggregated_tile, tiles !! aggregated_tile with
    | None, Some handle => <[aggregated_tile := handle]> result
    | _, _ => result
    end
  else <[tile := []]> result.

Definition FilterTilesByList (request : PrefetchTilesRequest) (tiles : SubQuadsResult) : SubQuadsResult :=
  if data_aggregation_enabled_ request then foldl (append_tile tiles) ∅ (prefetch_tile_keys request)
  else (foldl take_tile (tiles, ∅) (prefetch_tile_keys request)).2.

Definition append_key (tiles : SubQuadsResult) (result : list TileKey) (tile : TileKey) : list TileKey :=
  let aggregated_tile := climb climb_levels (fun key => bool_decide (is_Some (tiles !! key)) || bool_decide (key ∈ result)) tile in
  if IsValid aggregated_tile then
    match tiles !! aggregated_tile with Some _ => result ++ [aggregated_tile] | None => result end
  else result ++ [tile].

Definition FilterTileKeysByList (request : PrefetchTilesRequest) (tiles : SubQuadsResult) : list TileKey :=
  if data_aggregation_enabled_ request then foldl (append_key tiles) [] (prefetch_tile_keys request) else prefetch_tile_keys request.

(** [FlattenTree]: of several data of a tile the first one stays. *)
Definition FlattenTree (tree : QuadTreeIndex) : option SubQuadsResult :=
  index_data ← GetIndexData tree DataHandle;
  Some (foldl (fun result data => match result !! tile_key data with
                                  | Some _ => result
                                  | None => <[tile_key data := data_handle data]> result
                                  end) ∅ index_data).

(** [std::min_element]: the first of the smallest; [None] is the end of an empty list. *)
Definition min_element (tiles : list TileKey) : option TileKey :=
  match tiles with
  | [] => None
  | t :: tiles => Some (foldl (fun smallest t => if TileKey_ltb t smallest then t else smallest) t tiles)
  end.

(** ** The operations *)

Section operations.
Context `{Models} {S N : Type} `{KeyValueCache S Model} `{Online S N} `{Hashes}.
Abbreviation W := (World S N).
Context (c : RepositoryClient) (layer : str) (billing_tag : option str).

Definition tree_mutex (tile : TileKey) (version : Z) : key :=
  CreateQuadTreeKey (ToString (client_catalog_ c)) layer tile (Some version) kMaxQuadTreeIndexDepth.

Definition DownloadVersionedQuadTree (tile : TileKey) (depth version : Z) : state W (ExtendedResponse QuadTreeIndex) :=
  query_api ← LookupApi (lookup_client c) (chars "query") (chars "v1") OnlineIfNotFound;
  match query_api with
  | inr e => mret (without_statistics (inr e))
  | inl client =>
      quad_tree ← QuadTreeIndex_request client layer (ToHereTile tile) (Some version) depth default_additional_fields billing_tag;
      if negb (status quad_tree =? 200) then mret (with_statistics quad_tree (inr (status_error quad_tree)))
      else
        tree ← lift (QuadTreeIndex_parse tile depth (Response.response quad_tree));
        match tree with
        | None => mret (with_statistics quad_tree (inr (ApiError_of_code Unknown (chars "Failed to parse quad tree response") false)))
        | Some tree =>
            put_result ← timed (fun now => Put_tree (partitions_cache c layer) now tile depth (Some tree) (Some version));
            mret (with_statistics quad_tree (match put_result with inr e => inr (ApiError_of_cache e) | inl _ => inl tree end))
        end
  end.

(** The loop of [LoadAggregatedSubQuads] up to the root above the tile that was found. *)
Fixpoint load_loop (fuel : nat) (root aggregated_tile_key : TileKey) (version : Z) (network_stats : NetworkStatistics) : state W NetworkStatistics :=
  if level_ root >? level_ aggregated_tile_key then
    match fuel with
    | O => fails
    | Datatypes.S fuel =>
        let root := ChangedLevelBy root (- kMaxQuadTreeIndexDepth - 1) in
        network_stats ← with_mutex (tree_mutex root version) true
          (contained ← timed (fun now => ContainsTree (partitions_cache c layer) now root kMaxQuadTreeIndexDepth (Some version));
           if contained : bool then mret network_stats
           else
             response ← DownloadVersionedQuadTree root kMaxQuadTreeIndexDepth version;
             mret (add_statistics network_stats response.2));
        load_loop fuel root aggregated_tile_key version network_stats
    end
  else mret network_stats.

Definition LoadAggregatedSubQuads (root : TileKey) (tiles : list TileKey) (version : Z) : state W NetworkStatistics :=
  quad_tree ← timed (fun now => Get_tree (partitions_cache c layer) now root kMaxQuadTreeIndexDepth (Some version));
  match quad_tree with
  | None => mret NetworkStatistics_new
  | Some quad_tree =>
      highest_tile ← lift (min_element tiles);
      root_index ← lift (QuadTreeIndex.Find quad_tree highest_tile true);
      match root_index with
      | None => mret NetworkStatistics_new
      | Some root_index => load_loop 8 root (tile_key root_index) version NetworkStatistics_new
      end
  end.

Definition GetVersionedSubQuads (tile : TileKey) (depth version : Z) : state W (ExtendedResponse SubQuadsResult) :=
  with_mutex (tree_mutex tile version) true
    (quad_tree ← timed (fun now => Get_tree (partitions_cache c layer) now tile depth (Some version));
     response ← (match quad_tree with
                 | Some quad_tree => mret (without_statistics (inl quad_tree))
                 | None => DownloadVersionedQuadTree tile depth version
                 end);
     match response with
     | (inr e, network_stats) => mret (inr e, network_stats)
     | (inl quad_tree, network_stats) => tiles ← lift (FlattenTree quad_tree); mret (inl tiles, network_stats)
     end).

(** A sub quad in the loop of [GetVolatileSubQuads]; [emplace] keeps the first of a tile. *)
Definition add_subquad (tile : TileKey) (p : SubQuadsResult * list Partition) (subquad : SubQuad) : SubQuadsResult * list Partition :=
  let subtile := AddedSubHereTile tile (SubQuad_sub_quad_key subquad) in
  (match p.1 !! subtile with Some _ => p.1 | None => <[subtile := SubQuad_data_handle subquad]> p.1 end,
   p.2 ++ [PartitionFromSubQuad subquad (ToHereTile subtile)]).

Definition GetVolatileSubQuads (tile : TileKey) (depth : Z) : state W (ExtendedResponse SubQuadsResult) :=
  query_api ← LookupApi (lookup_client c) (chars "query") (chars "v1") OnlineIfNotFound;
  match query_api with
  | inr e => mret (without_statistics (inr e))
  | inl client =>
      quad_tree ← QuadTreeIndexVolatile client layer (ToHereTile tile) depth None billing_tag;
      match quad_tree with
      | inr e => mret (without_statistics (inr e))
      | inl index =>
          let '(result, partitions) := foldl (add_subquad tile) (∅, []) (Index_sub_quads index) in
          _ ← timed (fun now => Put_partitions (partitions_cache c layer) now partitions None None false);
          mret (without_statistics (inl result))
      end
  end.
End operations.

Lemma elem_of_keys {A} (m : gmap TileKey A) t : t ∈ keys_in_order m <-> is_Some (m !! t).
Proof.
  unfold keys_in_order. rewrite (merge_sort_Permutation tile_le), list_elem_of_fmap. split.
  - intros ([k x] & -> & Hk%elem_of_map_to_list). by eexists.
  - intros [x E]. exists (t, x). split; [done|by apply elem_of_map_to_list].
Qed.

(** ** The tiles below a root *)

Lemma quadkey_ancestor x n : valid x -> 0 <= n <= level_ x ->
  exists low, ToQuadKey64 x = ToQuadKey64 (ChangedLevelBy x (- n)) * 4 ^ n + low /\ 0 <= low < 4 ^ n.
Proof.
  intros Hx Hn. rewrite ChangedLevelBy_up by done. rewrite (ToQuadKey64_morton x) by done.
  rewrite ToQuadKey64_morton by (by apply ancestor_valid). cbn [row_ column_ level_].
  replace (Z.to_nat (level_ x)) with (Z.to_nat n + Z.to_nat (level_ x - n))%nat by lia.
  rewrite (morton_low (Z.to_nat n) (Z.to_nat (level_ x - n))), Z2Nat.id by lia. eexists. split; [reflexivity|].
  pose proof (morton_low_range (Z.to_nat n) (row_ x mod 2 ^ n) (column_ x mod 2 ^ n)) as Hlow. by rewrite Z2Nat.id in Hlow by lia.
Qed.

Lemma above_ancestor a t : above a t <-> valid a /\ valid t /\ level_ a <= level_ t /\ ChangedLevelBy t (- (level_ t - level_ a)) = a.
Proof.
  split.
  - intros Ha. pose proof (above_level _ _ Ha) as Hl. pose proof Ha as (Hva & Hvt & _). split_and!; [done..|].
    pose proof Hvt as (Hlt & _). unfold LevelCount in Hlt. assert (Hla : 0 <= level_ a) by (destruct Hva as (? & _); lia).
    eapply (above_eq _ _ t); [apply above_up; [done|lia]|done|]. rewrite ChangedLevelBy_up by (done || lia). cbn. lia.
  - intros (Ha & Ht & Hl & <-). pose proof Ht as (Hlt & _). unfold LevelCount in Hlt. destruct Ha as (Hla & _). apply above_up; [done|lia].
Qed.

Lemma ancestor_at t l : valid t -> 0 <= l <= level_ t -> above (ChangedLevelTo t l) t /\ level_ (ChangedLevelTo t l) = l.
Proof.
  intros Ht Hl. pose proof Ht as (Hlt & _). unfold LevelCount in Hlt. rewrite ChangedLevelTo_spec by (done || lia).
  replace (l - level_ t) with (- (level_ t - l)) by lia. split; [apply above_up; [done|lia]|].
  rewrite ChangedLevelBy_up by (done || lia). cbn. lia.
Qed.

Lemma ChildrenAtLevel_pow n : 0 <= n < 16 -> ChildrenAtLevel n = 4 ^ n.
Proof.
  intros Hn. unfold ChildrenAtLevel. rewrite Z.shiftl_mul_pow2 by lia. rewrite shl_1u_pow by lia. rewrite pow4 by lia. f_equal. lia.
Qed.

Lemma first_child_key t n : valid t -> 0 <= n -> level_ t + n < 32 ->
  valid (ChangedLevelTo t (level_ t + n)) /\ ToQuadKey64 (ChangedLevelTo t (level_ t + n)) = ToQuadKey64 t * 4 ^ n.
Proof.
  intros Ht Hn Hl. pose proof Ht as (Hlt & Hr & Hc). unfold LevelCount in Hlt. rewrite ChangedLevelTo_spec by (done || lia).
  replace (level_ t + n - level_ t) with n by lia.
  assert (Hv : valid (ChangedLevelBy t n)) by (apply ChangedLevelBy_valid; [done|lia..]). split; [exact Hv|].
  rewrite ToQuadKey64_morton by done. rewrite (ToQuadKey64_morton t) by done. rewrite ChangedLevelBy_down by (done || lia). cbn [row_ column_ level_].
  pose proof (morton_split (Z.to_nat n) (Z.to_nat (level_ t)) (row_ t) (column_ t) 0 0) as E. rewrite Z2Nat.id in E by lia.
  rewrite !Z.add_0_r in E. replace (Z.to_nat (level_ t + n)) with (Z.to_nat n + Z.to_nat (level_ t))%nat by lia.
  rewrite E by (split; [done|apply pow2_pos; lia]). enough (Hz : forall m, morton m 0 0 = 4 ^ Z.of_nat m) by (rewrite Hz, Z2Nat.id by lia; lia).
  induction m as [|m IH]; [done|]. cbn [morton]. rewrite Nat2Z.inj_succ, Z.pow_succ_r by lia. change (0 / 2) with 0. rewrite IH.
  change (0 mod 2) with 0. lia.
Qed.

Lemma tiles_between_below t n x : valid t -> 0 <= n < 16 -> level_ t + n < 32 ->
  let beginTileKey := ToQuadKey64 (ChangedLevelTo t (level_ t + n)) in
  x ∈ tiles_between beginTileKey (u64 (beginTileKey + ChildrenAtLevel n)) <-> above t x /\ level_ x = level_ t + n.
Proof.
  intros Ht Hn Hl b. destruct (first_child_key t n) as [Hvf Eb]; [done|lia|done|]. fold b in Eb.
  pose proof Ht as (Hlt & _). unfold LevelCount in Hlt. rewrite ChildrenAtLevel_pow by done.
  pose proof (morton_range (Z.to_nat (level_ t)) (row_ t) (column_ t)) as Hk. rewrite <- ToQuadKey64_morton, Z2Nat.id in Hk by (done || lia).
  assert (H4 : 0 < 4 ^ n) by (apply Z.pow_pos_nonneg; lia).
  assert (Hb : 4 ^ (level_ t + n) <= b /\ b + 4 ^ n <= 2 * 4 ^ (level_ t + n)).
  { rewrite Eb, (Z.pow_add_r 4) by lia. rewrite <- pow4 in Hk by lia. rewrite Z.pow_add_r, <- pow4 in Hk by lia. change (2 ^ 1) with 2 in Hk. nia. }
  assert (Hu : u64 (b + 4 ^ n) = b + 4 ^ n).
  { apply u64_small. pose proof (pow4_mono (level_ t + n) 31) as Hm. change (4 ^ 31) with (2 ^ 62) in Hm. unfold is_u64. lia. }
  rewrite Hu. unfold tiles_between. rewrite list_elem_of_fmap. split.
  - intros (k & -> & Hki%elem_of_seqZ). destruct (tile_of_quadkey64 (level_ t + n) k) as (Hv & Hlk & Ek & _); [lia..|].
    split; [|done]. apply above_ancestor. split_and!; [done..|lia|]. rewrite Hlk. replace (level_ t + n - level_ t) with n by lia.
    apply quadkey_inj; [apply ChangedLevelBy_valid; [done|lia..]|done|].
    destruct (quadkey_ancestor (FromQuadKey64 k) n) as (low & E & Hlow); [done|lia|]. rewrite Ek in E. nia.
  - intros [Ha Hlx]. pose proof Ha as (_ & Hvx & _). exists (ToQuadKey64 x). split; [by rewrite FromQuadKey64_ToQuadKey64|].
    apply above_ancestor in Ha as (_ & _ & _ & Ea). replace (level_ x - level_ t) with n in Ea by lia.
    destruct (quadkey_ancestor x n) as (low & E & Hlow); [done|lia|]. rewrite Ea in E. apply elem_of_seqZ. lia.
Qed.

(** ** Splitting a tree *)

(** One of the tiles is above the other, or they are the same. *)
Definition related (a b : TileKey) : Prop := above a b \/ above b a.

Lemma above_refl t : valid t -> above t t.
Proof. done. Qed.

Lemma above_antisym a b : above a b -> level_ b <= level_ a -> a = b.
Proof. intros Ha Hl. pose proof (above_level _ _ Ha). apply (above_eq a b b); [done|apply above_refl; apply Ha|lia]. Qed.

Lemma unrelated_skip tile child : valid tile -> valid child ->
  negb (IsParentOf tile child) && negb (IsParentOf child tile) && negb (bool_decide (child = tile)) = false <-> related child tile.
Proof.
  intros Ht Hc. rewrite !andb_false_iff, !negb_false_iff, bool_decide_eq_true. unfold IsParentOf. rewrite !IsChildOf_above by done. unfold related. split.
  - intros [[[]|[]]| ->]; eauto. left. by apply above_refl.
  - intros [Ha|Ha]; pose proof (above_level _ _ Ha); destruct (Z.eq_dec (level_ child) (level_ tile)).
    + right. by apply above_antisym; [|lia].
    + left. right. split; [done|lia].
    + right. symmetry. by apply above_antisym; [|lia].
    + left. left. split; [done|lia].
Qed.

Section children.
Context (tile : TileKey) (min : Z) (Ht : valid tile).

(** The tiles that [SplitSubtree] keeps. *)
Definition wanted_child (child : TileKey) : Prop := valid child /\ related child tile /\ min <= level_ child + 4.

Lemma add_child_wanted m child : valid child ->
  add_child tile min m child = m \/ wanted_child child /\ m !! child = None /\ add_child tile min m child = <[child := 4]> m.
Proof.
  intros Hc. unfold add_child. pose proof (unrelated_skip tile child Ht Hc) as Hs. destruct (_ && negb (bool_decide _)); [by left|].
  cbn [orb]. unfold kMaxQuadTreeIndexDepth. pose proof Hc as (Hl & _). unfold LevelCount in Hl.
  destruct (Z.ltb_spec (u32 (level_ child + 4)) min) as [|Hm]; [by left|]. rewrite u32_small in Hm by (unfold is_u32; lia).
  destruct (m !! child) eqn:E; [by left|]. right. split; [|done]. split; [done|]. split; [by apply Hs|done].
Qed.

Lemma add_child_has m child : wanted_child child -> is_Some (add_child tile min m child !! child).
Proof.
  intros (Hc & Hr & Hm). pose proof Hc as (Hl & _). unfold LevelCount in Hl. unfold add_child, kMaxQuadTreeIndexDepth.
  rewrite (proj2 (unrelated_skip tile child Ht Hc) Hr). cbn [orb]. rewrite u32_small by (unfold is_u32; lia).
  destruct (Z.ltb_spec (level_ child + 4) min); [lia|]. destruct (m !! child) as [z|] eqn:E; [exists z; exact E|cbv iota; rewrite lookup_insert_eq; by eexists].
Qed.

Lemma add_child_keeps m child k d : m !! k = Some d -> add_child tile min m child !! k = Some d.
Proof.
  intros E. unfold add_child. destruct (_ || _); [done|]. destruct (m !! child) eqn:Ec; [done|]. rewrite lookup_insert_ne; [done|congruence].
Qed.

Lemma add_children_keeps l m k d : m !! k = Some d -> foldl (add_child tile min) m l !! k = Some d.
Proof. revert m. induction l as [|x l IH]; intros m E; [done|]. cbn. by apply IH, add_child_keeps. Qed.

Lemma add_children_has l m x : x ∈ l -> wanted_child x -> is_Some (foldl (add_child tile min) m l !! x).
Proof.
  intros Hx Hw. revert m. induction Hx as [x l|x y l Hx IH]; intros m; cbn; [|by apply IH].
  destruct (add_child_has m x Hw) as [d E]. exists d. by apply add_children_keeps.
Qed.

Lemma add_children_new l m k d : (forall x, x ∈ l -> valid x) -> foldl (add_child tile min) m l !! k = Some d ->
  m !! k = Some d \/ d = 4 /\ wanted_child k /\ k ∈ l.
Proof.
  revert m. induction l as [|x l IH]; intros m Hl E; cbn in E; [by left|].
  destruct (IH _ (fun y Hy => Hl y (list_elem_of_further _ _ _ Hy)) E) as [E'|(-> & Hw & Hk)]; [|right; split_and!; [done..|by right]].
  destruct (add_child_wanted m x (Hl x ltac:(left))) as [Em|(Hw & _ & Em)]; rewrite Em in E'; [by left|].
  destruct (decide (x = k)) as [->|Hne]; [rewrite lookup_insert_eq in E'; injection E' as <-; right; split_and!; [done..|left]|].
  rewrite lookup_insert_ne in E' by done. by left.
Qed.
End children.

(** The loop goes down from [depth] in steps of five levels; the tiles of a step have
    depth 4. *)
Lemma split_loop_spec tile min root fuel m depth : valid tile -> valid root -> 0 <= depth < 20 -> level_ root + depth < 32 ->
  (Z.to_nat depth <= fuel)%nat ->
  exists m', split_loop fuel m root tile depth min = Some (m', depth mod 5) /\
    (forall k d, m !! k = Some d -> m' !! k = Some d) /\
    (forall k d, m' !! k = Some d -> m !! k = Some d \/ d = 4 /\ wanted_child tile min k /\ level_ root < level_ k) /\
    (forall x d, wanted_child tile min x -> above root x -> level_ x = level_ root + d - 4 -> 4 < d <= depth -> (depth - d) mod 5 = 0 -> is_Some (m' !! x)).
Proof.
  intros Ht Hr. revert m depth. induction fuel as [|fuel IH]; intros m depth Hd Hl Hf.
  - assert (depth = 0) as -> by lia. exists m. cbn. split_and!; [done|done|by left|lia].
  - cbn [split_loop]. unfold kMaxQuadTreeIndexDepth. destruct (Z.gtb_spec depth 4) as [Hgt|Hle].
    + destruct (Z.leb_spec 16 (depth - 4)); [lia|].
      set (l := tiles_between _ _). assert (Hin : forall x, x ∈ l <-> above root x /\ level_ x = level_ root + (depth - 4)) by (intros x; apply tiles_between_below; (done || lia)).
      destruct (IH (foldl (add_child tile min) m l) (depth - (4 + 1))) as (m' & E & Hk & Hn & Hc); [lia..|].
      exists m'. split_and!.
      * rewrite E. do 2 f_equal. replace (depth - (4 + 1)) with (depth + (-1) * 5) by lia. apply Z_mod_plus_full.
      * intros k d Ek. by apply Hk, add_children_keeps.
      * intros k d Ek. destruct (Hn k d Ek) as [Ek'|?]; [|by right].
        apply add_children_new in Ek' as [?|(-> & Hw & Hkl)]; [by left| |done|intros x Hx; apply Hin in Hx as [(_ & ? & _) _]; done].
        right. apply Hin in Hkl as [_ ?]. split_and!; [done..|lia].
      * intros x d Hw Hax Hlx Hdd Hmod. destruct (Z.eq_dec d depth) as [->|Hne].
        -- destruct (add_children_has tile min Ht l m x) as [d' Ed]; [apply Hin; split; [done|lia]|done|]. exists d'. by apply Hk.
        -- apply (Hc x d Hw Hax Hlx); [|replace (depth - (4 + 1) - d) with (depth - d + (-1) * 5) by lia; by rewrite Z_mod_plus_full].
           pose proof (Z.div_mod (depth - d) 5). nia.
    + exists m. rewrite Z.mod_small by lia. split_and!; [done|done|by left|lia].
Qed.

(** ** The roots of a request *)

Lemma mod5_step a b : (a - b) mod 5 = 0 -> a mod 5 = b mod 5.
Proof. intros H. pose proof (Z.div_mod (a - b) 5). replace a with (b + (a - b) / 5 * 5) by lia. by apply Z_mod_plus_full. Qed.

(** The levels of a tile: from a level above the tile and above [min], in groups of five
    levels up to [max], or from level 0. *)
Lemma adjusted_levels_spec t min max : valid t -> 0 <= min <= max -> max < LevelCount ->
  exists lo, adjusted_levels t min max = (lo, max) /\ 0 <= lo <= min /\ lo <= level_ t /\ (lo = 0 \/ (max - lo) mod 5 = 4) /\
    (max - Z.min min (level_ t) < 20 -> max - lo < 20).
Proof.
  intros (Hl & _) Hm Hx. unfold LevelCount in *. unfold adjusted_levels, LevelCount, kMaxQuadTreeIndexDepth.
  set (lo := if level_ t <? min then level_ t else min).
  assert (Elo : lo = Z.min min (level_ t)) by (unfold lo; destruct (Z.ltb_spec (level_ t) min); lia).
  destruct (Z.eqb_spec max 32); [lia|]. rewrite Z.max_l by lia. rewrite u32_small by (unfold is_u32; lia). change (4 + 1) with 5.
  pose proof (Z.mod_pos_bound (max + 1 - lo) 5 ltac:(lia)) as He. pose proof (Z.div_mod (max + 1 - lo) 5 ltac:(lia)) as Ed.
  set (e := (max + 1 - lo) mod 5) in *. set (g := (max + 1 - lo) / 5) in *.
  destruct (Z.eqb_spec e 0) as [E0|E0].
  - exists lo. split_and!; [done|lia..| |lia]. right. replace (max - lo) with (4 + (g - 1) * 5) by lia. by rewrite Z_mod_plus_full.
  - destruct (Z.gtb_spec lo (5 - e)).
    + exists (lo - (5 - e)). split_and!; [done|lia..| |lia]. right. replace (max - (lo - (5 - e))) with (4 + g * 5) by lia. by rewrite Z_mod_plus_full.
    + exists 0. split_and!; [done|lia..|by left|lia].
Qed.

Section roots.
Context (min max : Z) (Hmin : 0 <= min <= max) (Hmax : max < LevelCount).

(** A root whose tree has a tile of a level, in the group of five levels of the root. *)
Definition serves (m : RootTilesForRequest) (q : TileKey) : Prop :=
  exists r, is_Some (m !! r) /\ above r q /\ level_ q <= level_ r + (max - level_ r) mod 5.

Definition roots_ok (tiles : list TileKey) (m : RootTilesForRequest) : Prop :=
  forall r d, m !! r = Some d -> valid r /\ 0 <= d <= 4 /\ exists t, t ∈ tiles /\ related r t.

Definition covered (t : TileKey) (m : RootTilesForRequest) : Prop :=
  forall q, related q t -> min <= level_ q <= max -> serves m q.

(** A tile of a level that is left to the children of the root. *)
Lemma served_by_child t root depth (m : RootTilesForRequest) : above root t -> level_ root + depth = max ->
  (forall x d, wanted_child t min x -> above root x -> level_ x = level_ root + d - 4 -> 4 < d <= depth -> (depth - d) mod 5 = 0 -> is_Some (m !! x)) ->
  forall q, related q t -> above root q -> min <= level_ q <= max -> level_ root + depth mod 5 < level_ q -> serves m q.
Proof.
  intros Hrt Hd Hc q Hq Hrq Hl Hlow. set (k := (depth - (level_ q - level_ root)) / 5).
  assert (Hroot : 0 <= level_ root) by (destruct Hrt as ((? & _) & _); lia).
  pose proof (Z.div_mod (depth - (level_ q - level_ root)) 5 ltac:(lia)) as Ek. fold k in Ek.
  pose proof (Z.mod_pos_bound (depth - (level_ q - level_ root)) 5 ltac:(lia)) as Hk.
  pose proof (Z.div_mod depth 5 ltac:(lia)) as Ed. pose proof (Z.mod_pos_bound depth 5 ltac:(lia)) as Hd5.
  set (d := depth - 5 * k). assert (Hd4 : 4 < d <= depth) by (unfold d; lia).
  assert (Hmod : (depth - d) mod 5 = 0) by (unfold d; replace (depth - (depth - 5 * k)) with (k * 5) by lia; by apply Z_mod_mult).
  set (x := ChangedLevelTo q (level_ root + d - 4)).
  destruct (ancestor_at q (level_ root + d - 4)) as [Hxq Hlx]; [apply Hrq|unfold d; lia|]. fold x in Hxq, Hlx.
  assert (Hrx : above root x) by (apply (above_total _ _ q); [done..|lia]).
  exists x. split; [|split; [done|]].
  - apply (Hc x d); [|done..|lia|done|done]. split; [apply Hxq|]. split; [|unfold d in *; lia].
    destruct Hq as [Hq|Hq]; [left; by eapply above_trans|].
    destruct (Z.le_ge_cases (level_ x) (level_ t)); [left|right]; by apply (above_total _ _ q).
  - replace (max - level_ x) with (4 + k * 5) by (unfold d in *; lia). rewrite Z_mod_plus_full. change (4 mod 5) with 4. unfold d in *. lia.
Qed.

(** The split of a root whose tree ends on the last level. *)
Lemma SplitSubtree_spec t root depth (m : RootTilesForRequest) : above root t -> level_ root + depth = max -> 4 < depth < 20 -> is_Some (m !! root) ->
  exists m', SplitSubtree m root depth t min = Some m' /\
    (forall r d, m' !! r = Some d -> r = root /\ d = depth mod 5 \/ r <> root /\ m !! r = Some d \/ d = 4 /\ wanted_child t min r) /\
    (forall r, is_Some (m !! r) -> (r = root -> min <= level_ root + depth mod 5) -> is_Some (m' !! r)) /\
    (forall x d, wanted_child t min x -> above root x -> level_ x = level_ root + d - 4 -> 4 < d <= depth -> (depth - d) mod 5 = 0 -> is_Some (m' !! x)).
Proof.
  intros Hrt Hmx Hd Hroot. pose proof Hrt as ((Hl & _) & Ht & _). unfold LevelCount in *. unfold SplitSubtree, kMaxQuadTreeIndexDepth.
  destruct (Z.leb_spec depth 4); [lia|].
  destruct (split_loop_spec t min root (Z.to_nat depth) m depth) as (m' & -> & Hkeep & Hnew & Hc); [done|apply Hrt|lia..|].
  change ((Some (m', depth mod 5)) ≫= ?f) with (f (m', depth mod 5)). cbv beta iota.
  pose proof (Z.mod_pos_bound depth 5 ltac:(lia)) as H5. rewrite u32_small by (unfold is_u32; lia).
  set (m2 := if level_ root + depth mod 5 <? min then delete root m' else <[root := depth mod 5]> m').
  assert (Hm2 : forall r, is_Some (m' !! r) -> (r = root -> min <= level_ root + depth mod 5) -> is_Some (m2 !! r)).
  { intros r Hr Hne. unfold m2. destruct (Z.ltb_spec (level_ root + depth mod 5) min).
    - rewrite lookup_delete_ne; [done|]. intros <-. specialize (Hne eq_refl). lia.
    - apply lookup_insert_is_Some'. by right. }
  exists m2. split; [done|]. split_and!.
  - intros r d Er. assert (Hr : r = root /\ d = depth mod 5 \/ r <> root /\ m' !! r = Some d).
    { unfold m2 in Er. destruct (_ <? min); [apply lookup_delete_Some in Er as [? ?]; right; by split|].
      apply lookup_insert_Some in Er as [[-> <-]|[? ?]]; [by left|right; by split]. }
    destruct Hr as [?|[Hne Er']]; [by left|]. right. destruct (Hnew r d Er') as [?|(? & ? & _)]; [by left|by right].
  - intros r [d Er] Hne. apply Hm2; [exists d; by apply Hkeep|done].
  - intros x d Hwx Hrx Hlx Hdd Hmod. apply Hm2; [by eapply Hc|]. intros ->. lia.
Qed.

Lemma slice_tile_spec tiles m t : valid t -> max - Z.min min (level_ t) < 20 -> roots_ok tiles m ->
  exists m', slice_tile min max m t = Some m' /\ roots_ok (t :: tiles) m' /\
    (forall q, min <= level_ q -> serves m q -> serves m' q) /\ covered t m'.
Proof.
  intros Ht Hw Hm. destruct (adjusted_levels_spec t min max) as (lo & E & Hlo & Hlt & Hgroup & Hw'); [done..|]. specialize (Hw' Hw).
  unfold LevelCount in Hmax. destruct (ancestor_at t lo) as [Hroot Elo]; [done|lia|]. set (root := ChangedLevelTo t lo) in *.
  unfold slice_tile. rewrite E. fold root. rewrite u32_small by (unfold is_u32; lia).
  set (depth := match m !! root with Some depth => Z.max depth (max - lo) | None => max - lo end).
  assert (Hdepth : 0 <= depth < 20 /\ (4 < depth -> depth = max - lo) /\ (depth <= 4 -> max - lo <= 4)).
  { unfold depth. destruct (m !! root) as [d|] eqn:Ed; [|lia]. destruct (Hm _ _ Ed) as (_ & ? & _). lia. }
  assert (Hrel : exists t', t' ∈ t :: tiles /\ related root t') by (exists t; split; [left|by left]).
  assert (Hold : forall r d, m !! r = Some d -> valid r /\ 0 <= d <= 4 /\ exists t', t' ∈ t :: tiles /\ related r t').
  { intros r d Er. destruct (Hm r d Er) as (? & ? & t' & ? & ?). split_and!; [done|lia|lia|]. exists t'. split; [by right|done]. }
  assert (Habove : forall q, related q t -> min <= level_ q -> above root q).
  { intros q [Hq|Hq] Hlq; [apply (above_total _ _ t); [done..|lia]|by eapply above_trans]. }
  unfold kMaxQuadTreeIndexDepth. destruct (Z.gtb_spec depth 4) as [Hgt|Hle].
  - assert (depth = max - lo) as Ed by lia.
    destruct (SplitSubtree_spec t root depth (<[root := depth]> m)) as (m' & -> & Hnew & Hkeep & Hc); [done|lia|lia|apply lookup_insert_is_Some'; by left|].
    exists m'. split; [done|]. pose proof (Z.mod_pos_bound depth 5 ltac:(lia)) as H5. split_and!.
    + intros r d [[-> ->]|[[Hne Er]|(-> & Hv & Hr & _)]]%Hnew; [split_and!; [apply Hroot|lia|lia|done]| |split_and!; [done|lia|lia|exists t; split; [left|done]]].
      rewrite lookup_insert_ne in Er by done. by eapply Hold.
    + intros q Hlq (r & Hr & Hrq & Hl). exists r. split; [|done]. apply Hkeep; [apply lookup_insert_is_Some'; by right|].
      intros ->. rewrite Ed. rewrite Elo in *. lia.
    + intros q Hq Hlq. pose proof (Habove q Hq ltac:(lia)) as Hrq. destruct (Z.le_gt_cases (level_ q) (level_ root + depth mod 5)) as [Hl|Hl].
      * exists root. split; [apply Hkeep; [apply lookup_insert_is_Some'; by left|lia]|]. split; [done|]. by rewrite Elo, <- Ed, <- Elo.
      * eapply (served_by_child t root depth); [done|lia|exact Hc|done|done|lia|lia].
  - exists (<[root := depth]> m). split; [done|]. split_and!.
    + intros r d [[<- <-]|[_ ?]]%lookup_insert_Some; [split_and!; [apply Hroot|lia|lia|done]|by eapply Hold].
    + intros q _ (r & Hr & Hrq). exists r. split; [apply lookup_insert_is_Some'; by right|done].
    + intros q Hq Hlq. exists root. split; [apply lookup_insert_is_Some'; by left|]. split; [apply Habove; [done|lia]|].
      rewrite Elo, Z.mod_small by lia. lia.
Qed.

Lemma slice_tiles_spec tiles done m : Forall (fun t => valid t /\ max - Z.min min (level_ t) < 20) tiles -> roots_ok done m ->
  exists m', slice_tiles tiles min max m = Some m' /\ roots_ok (tiles ++ done) m' /\
    (forall q, min <= level_ q -> serves m q -> serves m' q) /\ forall t, t ∈ tiles -> covered t m'.
Proof.
  intros Ht. revert done m. induction Ht as [|t tiles [Hv Hw] _ IH]; intros done m Hm.
  - exists m. split_and!; [done|done|done|]. by intros t ?%elem_of_nil.
  - destruct (slice_tile_spec done m t) as (m1 & E1 & Hm1 & Hs1 & Hc1); [done..|].
    destruct (IH (t :: done) m1 Hm1) as (m' & E & Hm' & Hs & Hc). exists m'. split_and!.
    + cbn. by rewrite E1.
    + intros r d Er. destruct (Hm' r d Er) as (? & ? & t' & Ht' & ?). split_and!; [done|lia|lia|]. exists t'. split; [|done].
      revert Ht'. rewrite !elem_of_app, !elem_of_cons. tauto.
    + auto.
    + intros t' [->|?]%elem_of_cons; [|auto]. intros q Hq Hl. apply Hs; [lia|]. by apply Hc1.
Qed.
End roots.

Lemma sliced_roots tile_keys min max : 0 <= min <= max -> max < LevelCount ->
  Forall (fun t => valid t /\ max - Z.min min (level_ t) < 20) tile_keys ->
  exists roots, GetSlicedTiles tile_keys min max = Some roots /\
    (forall r d, roots !! r = Some d -> valid r /\ 0 <= d <= kMaxQuadTreeIndexDepth /\ exists t, t ∈ tile_keys /\ related r t) /\
    forall t q, t ∈ tile_keys -> related q t -> min <= level_ q <= max ->
      exists r, r ∈ keys_in_order roots /\ above r q /\ level_ q <= level_ r + kMaxQuadTreeIndexDepth.
Proof.
  intros Hm Hx Ht. destruct (slice_tiles_spec min max Hm Hx tile_keys [] ∅) as (roots & E & Hok & _ & Hc); [done|by intros r d ?%lookup_empty_Some|].
  exists roots. split; [done|]. rewrite app_nil_r in Hok. split; [done|]. intros t q Hin Hq Hl.
  destruct (Hc t Hin q Hq Hl) as (r & Hr & Hrq & Hlr). exists r. split; [by apply elem_of_keys|]. split; [done|].
  pose proof (Z.mod_pos_bound (max - level_ r) 5). unfold kMaxQuadTreeIndexDepth. lia.
Qed.

(** C9: the trees of the roots that a prefetch asks for have all the tiles it is about:
    for a request of valid tiles and of at most twenty levels, every tile above or below
    a tile of the request, on a level from [min] to [max], is below a root, at most four
    levels, which is the depth that is asked for.  No root has a depth above four, and
    each one is above or below a tile of the request. *)
Theorem GetSlicedTiles_covers tile_keys min max : 0 <= min <= max -> max < LevelCount ->
  Forall (fun t => valid t /\ max - Z.min min (level_ t) < 20) tile_keys ->
  exists roots, GetSlicedTiles tile_keys min max = Some roots /\
    (forall r d, roots !! r = Some d -> valid r /\ 0 <= d <= kMaxQuadTreeIndexDepth /\ exists t, t ∈ tile_keys /\ related r t) /\
    forall t q, t ∈ tile_keys -> related q t -> min <= level_ q <= max ->
      exists r, r ∈ keys_in_order roots /\ above r q /\ level_ q <= level_ r + kMaxQuadTreeIndexDepth.
Proof. apply sliced_roots. Qed.

Lemma GetSlicedTiles_covers_witness : exists roots, GetSlicedTiles [mkTileKey 5 9 4; mkTileKey 1 0 1] 3 12 = Some roots /\
    (forall r d, roots !! r = Some d -> valid r /\ 0 <= d <= kMaxQuadTreeIndexDepth /\ exists t, t ∈ [mkTileKey 5 9 4; mkTileKey 1 0 1] /\ related r t) /\
    forall t q, t ∈ [mkTileKey 5 9 4; mkTileKey 1 0 1] -> related q t -> 3 <= level_ q <= 12 ->
      exists r, r ∈ keys_in_order roots /\ above r q /\ level_ q <= level_ r + kMaxQuadTreeIndexDepth.
Proof.
  apply (GetSlicedTiles_covers [mkTileKey 5 9 4; mkTileKey 1 0 1] 3 12); [lia|done|].
  repeat constructor; cbn; lia.
Defined.

(** A request of more than twenty levels shifts by the width of the type: the number of
    children on a level that is sixteen below a root does not fit into 32 bits. *)
Theorem GetSlicedTiles_deep t tile_keys min max : valid t -> 0 <= min <= max -> max < LevelCount -> 20 <= max - Z.min min (level_ t) ->
  GetSlicedTiles (t :: tile_keys) min max = None.
Proof.
  intros Ht Hm Hx Hd. destruct (adjusted_levels_spec t min max) as (lo & E & Hlo & Hlt & _ & _); [done..|].
  unfold GetSlicedTiles. cbn [slice_tiles]. unfold slice_tile. rewrite E. unfold LevelCount in Hx.
  rewrite u32_small by (unfold is_u32; lia). rewrite lookup_empty. unfold SplitSubtree, kMaxQuadTreeIndexDepth.
  destruct (Z.gtb_spec (max - lo) 4); [|lia]. destruct (Z.leb_spec (max - lo) 4); [lia|].
  destruct (Z.to_nat (max - lo)) as [|fuel] eqn:Ef; [lia|]. cbn [split_loop]. unfold kMaxQuadTreeIndexDepth.
  destruct (Z.gtb_spec (max - lo) 4); [|lia]. by destruct (Z.leb_spec 16 (max - lo - 4)); [|lia].
Qed.

Lemma GetSlicedTiles_deep_witness : GetSlicedTiles [mkTileKey 0 0 0] 0 20 = None.
Proof. apply (GetSlicedTiles_deep (mkTileKey 0 0 0) [] 0 20); [by vm_compute; intuition congruence|lia|done|done]. Defined.

(** *** Requests without levels *)

Lemma slice_input_tile m t : valid t -> (forall r d, m !! r = Some d -> 0 <= d <= 4) ->
  exists r d, slice_tile LevelCount LevelCount m t = Some (<[r := d]> m) /\ 0 <= d <= 4 /\ above r t /\ level_ t <= level_ r + 4.
Proof.
  intros Ht Hm. pose proof Ht as (Hl & _). unfold LevelCount in Hl. unfold slice_tile, adjusted_levels, LevelCount, kMaxQuadTreeIndexDepth.
  destruct (Z.ltb_spec (level_ t) 32); [|lia]. change (32 =? 32) with true. cbv iota. change (4 + 1) with 5.
  replace (level_ t + 1 - level_ t) with 1 by lia. change (u32 1 mod 5) with 1. change (1 =? 0) with false. cbv iota. change (5 - 1) with 4.
  set (lo := if level_ t >? 4 then level_ t - 4 else 0). assert (Hlo : 0 <= lo <= level_ t /\ level_ t - lo <= 4) by (unfold lo; destruct (Z.gtb_spec (level_ t) 4); lia).
  destruct (ancestor_at t lo) as [Hr Er]; [done|lia|]. set (root := ChangedLevelTo t lo) in *. rewrite u32_small by (unfold is_u32; lia).
  set (d := match m !! root with Some depth => Z.max depth (level_ t - lo) | None => level_ t - lo end).
  assert (Hd : 0 <= d <= 4) by (unfold d; destruct (m !! root) as [d'|] eqn:E; [pose proof (Hm _ _ E)|]; lia).
  exists root, d. destruct (Z.gtb_spec d 4); [lia|]. split_and!; [done|lia|lia|done|lia].
Qed.

(** a request without levels asks for the trees that have its tiles: for any tiles,
    there is a root at most four levels above each of them, and no other root. *)
Theorem GetSlicedTiles_input_tiles tile_keys : Forall valid tile_keys ->
  exists roots, GetSlicedTiles tile_keys LevelCount LevelCount = Some roots /\
    (forall r d, roots !! r = Some d -> 0 <= d <= kMaxQuadTreeIndexDepth /\ exists t, t ∈ tile_keys /\ above r t) /\
    forall t, t ∈ tile_keys -> exists r, r ∈ keys_in_order roots /\ above r t /\ level_ t <= level_ r + kMaxQuadTreeIndexDepth.
Proof.
  intros Ht. unfold GetSlicedTiles.
  assert (Hg : forall m, (forall r d, m !! r = Some d -> 0 <= d <= 4) ->
    exists m', slice_tiles tile_keys LevelCount LevelCount m = Some m' /\ (forall r, is_Some (m !! r) -> is_Some (m' !! r)) /\
      (forall r d, m' !! r = Some d -> 0 <= d <= 4 /\ (is_Some (m !! r) \/ exists t, t ∈ tile_keys /\ above r t)) /\
      forall t, t ∈ tile_keys -> exists r, is_Some (m' !! r) /\ above r t /\ level_ t <= level_ r + 4).
  { induction Ht as [|t tile_keys Hv _ IH]; intros m Hm.
    - exists m. split_and!; [done|done|intros r d E; split; [by eapply Hm|left; by eexists]|]. by intros t ?%elem_of_nil.
    - destruct (slice_input_tile m t Hv Hm) as (root & depth & E & Hd & Hr & Hl).
      destruct (IH (<[root := depth]> m)) as (m' & E' & Hkeep & Hnew & Hc).
      { intros r d [[<- <-]|[_ Er]]%lookup_insert_Some; [done|by eapply Hm]. }
      exists m'. split_and!.
      + cbn [slice_tiles]. by rewrite E.
      + intros r Hr'. apply Hkeep, lookup_insert_is_Some'. by right.
      + intros r d Er. destruct (Hnew r d Er) as (Hd' & [Hin|(t' & ? & ?)]); (split; [done|]); [|right; exists t'; split; [by right|done]].
        apply lookup_insert_is_Some' in Hin as [->|?]; [right; exists t; split; [left|done]|by left].
      + intros t' [->|?]%elem_of_cons; [|by apply Hc]. exists root. split; [|done]. apply Hkeep, lookup_insert_is_Some'. by left. }
  destruct (Hg ∅) as (roots & E & _ & Hn & Hc); [by intros r d ?%lookup_empty_Some|]. exists roots. split_and!; [done| |].
  - intros r d Er. destruct (Hn r d Er) as (? & [[? ?%lookup_empty_Some]|?]); [done|by split].
  - intros t Hin. destruct (Hc t Hin) as (r & ? & ? & ?). exists r. split; [by apply elem_of_keys|done].
Qed.

Lemma GetSlicedTiles_input_tiles_witness : exists roots, GetSlicedTiles [mkTileKey 5 9 4; mkTileKey 37 12 6] LevelCount LevelCount = Some roots /\
    (forall r d, roots !! r = Some d -> 0 <= d <= kMaxQuadTreeIndexDepth /\ exists t, t ∈ [mkTileKey 5 9 4; mkTileKey 37 12 6] /\ above r t) /\
    forall t, t ∈ [mkTileKey 5 9 4; mkTileKey 37 12 6] -> exists r, r ∈ keys_in_order roots /\ above r t /\ level_ t <= level_ r + kMaxQuadTreeIndexDepth.
Proof. apply (GetSlicedTiles_input_tiles [mkTileKey 5 9 4; mkTileKey 37 12 6]). repeat constructor; cbn; lia. Defined.

(** ** The filters *)

Lemma Parent_spec t : valid t ->
  (level_ t = 0 /\ IsValid (Parent t) = false) \/
  (0 < level_ t /\ above (Parent t) t /\ level_ (Parent t) = level_ t - 1 /\ forall b, above b t -> level_ b < level_ t -> above b (Parent t)).
Proof.
  intros Ht. pose proof Ht as (Hl & _). unfold LevelCount in Hl. destruct (Z.eq_dec (level_ t) 0) as [E|].
  - left. split; [done|]. unfold Parent. by rewrite E.
  - right. rewrite Parent_ChangedLevelBy by (done || lia). pose proof (above_up t 1 Ht ltac:(done)) as Hp.
    assert (El : level_ (ChangedLevelBy t (- (1))) = level_ t - 1) by (by rewrite ChangedLevelBy_up by (done || lia)).
    split_and!; [lia|done|done|]. intros b Hb Hlt. apply (above_total _ _ t); [done..|]. change (- (1)) with (Z.opp 1) in *. lia.
Qed.

(** The loop stops at the nearest tile at which it may, or at no tile. *)
Lemma climb_spec stops fuel t : valid t -> level_ t < Z.of_nat fuel ->
  let a := climb fuel stops t in
  (IsValid a = true /\ above a t /\ stops a = true /\ forall b, above b t -> stops b = true -> above b a) \/
  (IsValid a = false /\ forall b, above b t -> stops b = false).
Proof.
  revert t. induction fuel as [|fuel IH]; intros t Ht Hf; [destruct Ht as (? & _); lia|]. cbn [climb].
  rewrite (valid_IsValid t Ht). cbn [andb]. destruct (stops t) eqn:Es; cbn [negb].
  - left. split_and!; [by apply valid_IsValid|by apply above_refl|done|done].
  - assert (Hself : forall b, above b t -> level_ t <= level_ b -> stops b = false) by (intros b Hb Hl; by rewrite (above_antisym b t)).
    destruct (Parent_spec t Ht) as [[E Ev]|(Hl & Hp & El & Hb)].
    + right. replace (climb fuel stops (Parent t)) with (Parent t) by (destruct fuel; cbn; by rewrite ?Ev).
      split; [done|]. intros b Hb. apply Hself; [done|]. destruct Hb as ((? & _) & _). lia.
    + pose proof Hp as (Hvp & _). destruct (IH (Parent t) Hvp ltac:(lia)) as [(Hv & Ha & Hs & Hn)|(Hv & Hn)].
      * left. split_and!; [done|by eapply above_trans|done|]. intros b Hbt Hsb. apply Hn; [|done]. apply Hb; [done|].
        destruct (Z.lt_ge_cases (level_ b) (level_ t)) as [|Hge]; [done|]. rewrite (Hself b Hbt Hge) in Hsb. done.
      * right. split; [done|]. intros b Hbt. destruct (Z.lt_ge_cases (level_ b) (level_ t)); [apply Hn; by apply Hb|by apply Hself].
Qed.

Section aggregated.
Context (tiles : SubQuadsResult).

(** The nearest tile with data, and a tile without. *)
Definition nearest (t a : TileKey) : Prop := above a t /\ is_Some (tiles !! a) /\ forall b, above b t -> is_Some (tiles !! b) -> above b a.
Definition nowhere (t : TileKey) : Prop := forall b, above b t -> tiles !! b = None.

(** What the filter has made of the tiles [done] of the request. *)
Record filtered (done : list TileKey) (result : SubQuadsResult) : Prop := {
  filtered_only k h : result !! k = Some h -> valid k /\ ((exists t, t ∈ done /\ nearest t k) /\ tiles !! k = Some h \/ k ∈ done /\ nowhere k /\ h = []);
  filtered_found t a : t ∈ done -> nearest t a -> is_Some (result !! a);
  filtered_missing t : t ∈ done -> nowhere t -> exists p, above p t /\ p ∈ done /\ nowhere p /\ is_Some (result !! p) }.

Lemma nowhere_up b t : above b t -> nowhere t -> nowhere b.
Proof. intros Hb Hn a Ha. apply Hn. by eapply above_trans. Qed.

Lemma nearest_unique t a b : nearest t a -> nearest t b -> a = b.
Proof.
  intros (Ha & Hsa & Hna) (Hb & Hsb & Hnb). pose proof (Hna b Hb Hsb) as H1. pose proof (Hnb a Ha Hsa) as H2.
  pose proof (above_level _ _ H1). pose proof (above_level _ _ H2). apply (above_eq _ _ t); [done..|lia].
Qed.

(** The next tile [t], for which the loop climbs while neither the map [tiles] nor the
    [known] tiles have the tile. *)
Lemma climb_filtered done result (known : TileKey -> Prop) `{!forall k, Decision (known k)} t : valid t -> filtered done result ->
  (forall k, known k <-> is_Some (result !! k)) ->
  let a := climb climb_levels (fun key => bool_decide (is_Some (tiles !! key)) || bool_decide (known key)) t in
  (IsValid a = true /\ nearest t a) \/ (IsValid a = true /\ nowhere t /\ tiles !! a = None /\ known a /\ above a t /\ a ∈ done /\ nowhere a) \/
  (IsValid a = false /\ nowhere t /\ ~ known t).
Proof.
  intros Ht Hf Hk a. pose proof Ht as (Hl & _). unfold LevelCount in Hl.
  destruct (climb_spec (fun key => bool_decide (is_Some (tiles !! key)) || bool_decide (known key)) climb_levels t Ht) as [(Hv & Ha & Hs & Hn)|(Hv & Hn)].
  - unfold climb_levels. lia.
  - fold a in Hv, Ha, Hs, Hn. destruct (tiles !! a) as [h|] eqn:E.
    + left. split; [done|]. split_and!; [done|by eexists|]. intros b Hb Hsb. apply Hn; [done|]. by rewrite bool_decide_eq_true_2.
    + right. left. rewrite bool_decide_eq_false_2 in Hs by (by intros [? ?]). apply bool_decide_eq_true in Hs as Hka.
      apply Hk in Hka as Hra. destruct Hra as [h Eh]. destruct (filtered_only _ _ Hf a h Eh) as (_ & [(_ & E')|(Hd & Hna & _)]); [congruence|].
      split_and!; try done. intros b Hb. destruct (tiles !! b) as [h'|] eqn:Eb; [|done]. rewrite <- Eb. apply Hna, Hn; [done|].
      rewrite bool_decide_eq_true_2; [done|by eexists].
  - right. right. fold a in Hv, Hn. split; [done|]. split.
    + intros b Hb. pose proof (Hn b Hb) as E. apply orb_false_iff in E as [E%bool_decide_eq_false _]. by apply eq_None_not_Some.
    + pose proof (Hn t (above_refl t Ht)) as E. apply orb_false_iff in E as [_ E%bool_decide_eq_false]. done.
Qed.

Lemma filtered_insert done result t k h : valid t -> filtered done result ->
  (nearest t k /\ tiles !! k = Some h \/ k = t /\ nowhere t /\ h = []) -> (result !! k = None \/ result !! k = Some h) ->
  filtered (t :: done) (<[k := h]> result).
Proof.
  intros Ht [Ho Hf Hm] Hk Hold. split.
  - intros k' h' [[<- <-]|[_ E]]%lookup_insert_Some.
    + destruct Hk as [[Hn E]|(-> & Hn & ->)]; [pose proof Hn as ((Hvk & _) & _); split; [exact Hvk|]; left; split; [exists t; split; [left|done]|done]|].
      split; [done|]. right. split; [left|done].
    + destruct (Ho k' h' E) as (? & [((t' & ? & ?) & ?)|(? & ?)]); (split; [done|]); [left; split; [exists t'; split; [by right|done]|done]|right; split; [by right|done]].
  - intros t' a [->|Ht']%elem_of_cons Ha; apply lookup_insert_is_Some'; [|right; by eapply Hf].
    left. destruct Hk as [[Hn _]|(_ & Hn & _)]; [by eapply nearest_unique|]. exfalso. destruct Ha as (Ha & [x Ea] & _). by rewrite (Hn a Ha) in Ea.
  - intros t' [->|Ht']%elem_of_cons Ha.
    + exists t. split_and!; [by apply above_refl|left|done|]. apply lookup_insert_is_Some'. destruct Hk as [[(Hkt & [x Ex] & _) _]|(-> & _)]; [|by left].
      by rewrite (Ha k Hkt) in Ex.
    + destruct (Hm t' Ht' Ha) as (p & ? & ? & ? & ?). exists p. split_and!; [done|by right|done|]. apply lookup_insert_is_Some'. by right.
Qed.

Lemma filtered_same done result t p : valid t -> filtered done result -> above p t -> p ∈ done -> nowhere p -> nowhere t -> is_Some (result !! p) ->
  filtered (t :: done) result.
Proof.
  intros Ht [Ho Hf Hm] Hp Hd Hn Hnt Hr. split.
  - intros k' h' E. destruct (Ho k' h' E) as (? & [((t' & ? & ?) & ?)|(? & ?)]); (split; [done|]);
      [left; split; [exists t'; split; [by right|done]|done]|right; split; [by right|done]].
  - intros t' a [->|Ht']%elem_of_cons Ha; [|by eapply Hf]. exfalso. destruct Ha as (Ha & [x Ea] & _). by rewrite (Hnt a Ha) in Ea.
  - intros t' [->|Ht']%elem_of_cons Ha; [exists p; split_and!; [done|by right|done..]|].
    destruct (Hm t' Ht' Ha) as (q & ? & ? & ? & ?). exists q. split_and!; [done|by right|done..].
Qed.
End aggregated.

Lemma climb_ext f g fuel t : (forall k, f k = g k) -> climb fuel f t = climb fuel g t.
Proof. intros E. revert t. induction fuel as [|fuel IH]; intros t; [done|]. cbn [climb]. by rewrite E, IH. Qed.

Lemma append_tile_filtered tiles visited result t : valid t -> filtered tiles visited result -> filtered tiles (t :: visited) (append_tile tiles result t).
Proof.
  intros Ht Hf. unfold append_tile.
  destruct (climb_filtered tiles visited result (fun k => is_Some (result !! k)) t Ht Hf ltac:(done)) as [(-> & Hn)|[(-> & Hnt & E & Hk & Ha & Hd & Hna)|(-> & Hn & Hk)]].
  - set (a := climb _ _ _) in *. pose proof Hn as ((Hva & _) & [h E] & _). rewrite E.
    assert (Hor : result !! a = None \/ result !! a = Some h).
    { destruct (result !! a) as [h'|] eqn:Er; [right|by left]. destruct (filtered_only _ _ _ Hf a h' Er) as (_ & [(_ & E')|(_ & Hna & _)]); [congruence|].
      by rewrite (Hna a (above_refl a Hva)) in E. }
    assert (Hi : filtered tiles (t :: visited) (<[a := h]> result)) by (apply filtered_insert; [done|done|by left|done]).
    destruct Hor as [-> |Er]; [exact Hi|]. rewrite Er. by rewrite insert_id in Hi.
  - set (a := climb _ _ _) in *. destruct Hk as [h Er]. rewrite Er. by eapply filtered_same.
  - apply filtered_insert; [done..|by right|left]. by apply eq_None_not_Some.
Qed.

Lemma append_filtered tiles ts visited result : Forall valid ts -> filtered tiles visited result ->
  filtered tiles (reverse ts ++ visited) (foldl (append_tile tiles) result ts).
Proof.
  intros Ht. revert visited result. induction Ht as [|t ts Hv _ IH]; intros visited result Hf; [done|].
  rewrite reverse_cons, <- app_assoc. cbn. by apply IH, append_tile_filtered.
Qed.

Lemma filtered_elem tiles visited visited' result : (forall t, t ∈ visited <-> t ∈ visited') -> filtered tiles visited result -> filtered tiles visited' result.
Proof.
  intros E [Ho Hf Hm]. split.
  - intros k h Ek. destruct (Ho k h Ek) as (? & [((t & ? & ?) & ?)|(? & ?)]); (split; [done|]);
      [left; split; [exists t; split; [by apply E|done]|done]|right; split; [by apply E|done]].
  - intros t a Ht%E. by apply Hf.
  - intros t Ht%E Hn. destruct (Hm t Ht Hn) as (p & ? & ? & ?). exists p. split_and!; [done|by apply E|apply H1..].
Qed.

(** The list of keys and the map of the filter have the same tiles. *)
Lemma append_key_same (tiles result : SubQuadsResult) keys t : (forall k, k ∈ keys <-> is_Some (result !! k)) ->
  forall k, k ∈ append_key tiles keys t <-> is_Some (append_tile tiles result t !! k).
Proof.
  intros Hs k. unfold append_key, append_tile.
  rewrite (climb_ext _ (fun key => bool_decide (is_Some (tiles !! key)) || bool_decide (is_Some (result !! key)))).
  2: { intros k'. f_equal. by apply bool_decide_ext. }
  set (a := climb _ _ _). destruct (IsValid a).
  - destruct (tiles !! a) as [h|].
    + rewrite elem_of_app, list_elem_of_singleton, Hs. destruct (result !! a) as [h'|] eqn:E.
      * split; [intros [?| ->]; [done|by eexists]|by left].
      * rewrite lookup_insert_is_Some'. intuition.
    + destruct (result !! a); apply Hs.
  - rewrite elem_of_app, list_elem_of_singleton, Hs, lookup_insert_is_Some'. intuition.
Qed.

Lemma append_keys_same (tiles result : SubQuadsResult) ts keys : (forall k, k ∈ keys <-> is_Some (result !! k)) ->
  forall k, k ∈ foldl (append_key tiles) keys ts <-> is_Some (foldl (append_tile tiles) result ts !! k).
Proof. revert keys result. induction ts as [|t ts IH]; intros keys result Hs k; [apply Hs|]. cbn. by apply IH, append_key_same. Qed.

(** Without aggregation the map has the tiles of the request, those that it has visited
    with their data or with an empty handle. *)
Lemma take_tiles_spec ts (tiles tiles' result : SubQuadsResult) visited :
  (forall k, is_Some (result !! k) <-> k ∈ visited) -> (forall k, k ∈ visited -> result !! k = Some (default [] (tiles !! k))) ->
  (forall k, k ∉ visited -> tiles' !! k = tiles !! k) -> (forall k, k ∈ visited -> tiles' !! k = None) ->
  forall k, (foldl take_tile (tiles', result) ts).2 !! k = if decide (k ∈ ts ++ visited) then Some (default [] (tiles !! k)) else None.
Proof.
  revert tiles' result visited. induction ts as [|t ts IH]; intros tiles' result visited Hd Hr Hn Hv k; cbn [foldl].
  - cbn. destruct (decide (k ∈ visited)) as [Hk|Hk]; [by apply Hr|]. by rewrite <- Hd, <- eq_None_not_Some in Hk.
  - unfold take_tile at 2. destruct (decide (t ∈ visited)) as [Ht|Ht].
    + rewrite (Hv t Ht), (Hr t Ht). rewrite (IH tiles' result visited) by done.
      assert (Hiff : k ∈ ts ++ visited <-> k ∈ (t :: ts) ++ visited) by (rewrite !elem_of_app, elem_of_cons; split; [tauto|intros [[->|?]|?]; auto]).
      by rewrite (decide_ext _ _ _ _ Hiff).
    + assert (Er : result !! t = None) by (by rewrite <- Hd, <- eq_None_not_Some in Ht).
      assert (Hiff : k ∈ ts ++ t :: visited <-> k ∈ (t :: ts) ++ visited) by (rewrite !elem_of_app, !elem_of_cons; tauto).
      rewrite (Hn t Ht). destruct (tiles !! t) as [h|] eqn:E; rewrite ?Er; (rewrite (IH _ _ (t :: visited)); [by rewrite (decide_ext _ _ _ _ Hiff)|..]).
      * intros k'. rewrite lookup_insert_is_Some', elem_of_cons, Hd. intuition.
      * intros k' [->|Hk']%elem_of_cons; [by rewrite lookup_insert_eq, E|]. rewrite lookup_insert_ne by (intros ->; done). by apply Hr.
      * intros k' Hk'. rewrite lookup_delete_ne; [apply Hn|]; rewrite elem_of_cons in Hk'; intuition.
      * intros k' [->|Hk']%elem_of_cons; [apply lookup_delete_eq|]. rewrite lookup_delete_ne by (intros ->; done). by apply Hv.
      * intros k'. rewrite lookup_insert_is_Some', elem_of_cons, Hd. intuition.
      * intros k' [->|Hk']%elem_of_cons; [by rewrite lookup_insert_eq, E|]. rewrite lookup_insert_ne by (intros ->; done). by apply Hr.
      * intros k' Hk'. apply Hn. rewrite elem_of_cons in Hk'. intuition.
      * intros k' [->|Hk']%elem_of_cons; [by rewrite (Hn t Ht)|by apply Hv].
Qed.

(** C14: what a request without levels downloads.  With aggregation, the tiles that are
    left of those that the trees have are exactly the nearest tiles with data above the
    tiles of the request, with their data, and tiles without any data above them, with an
    empty handle that makes the download fail; each tile of the request has one.  Without
    aggregation they are the tiles of the request, with their data or an empty handle.  The
    list of keys, by which the trees of ancestors are loaded, has the same tiles. *)
Theorem FilterTilesByList_spec request (tiles : SubQuadsResult) : Forall valid (prefetch_tile_keys request) ->
  let result := FilterTilesByList request tiles in
  (if data_aggregation_enabled_ request then filtered tiles (prefetch_tile_keys request) result
   else forall k, result !! k = if decide (k ∈ prefetch_tile_keys request) then Some (default [] (tiles !! k)) else None) /\
  forall k, k ∈ FilterTileKeysByList request tiles <-> is_Some (result !! k).
Proof.
  intros Ht. unfold FilterTilesByList, FilterTileKeysByList. destruct (data_aggregation_enabled_ request).
  - split.
    + eapply filtered_elem; [|apply (append_filtered tiles _ [] ∅ Ht)].
      * intros t. rewrite elem_of_app, elem_of_reverse, elem_of_nil. tauto.
      * split; [by intros k h ?%lookup_empty_Some|by intros t a ?%elem_of_nil|by intros t ?%elem_of_nil].
    + apply append_keys_same. intros k. rewrite elem_of_nil, lookup_empty. split; [done|by intros [? ?]].
  - assert (E : forall k, (foldl take_tile (tiles, ∅) (prefetch_tile_keys request)).2 !! k =
      if decide (k ∈ prefetch_tile_keys request) then Some (default [] (tiles !! k)) else None).
    { intros k. rewrite (take_tiles_spec _ tiles tiles ∅ []), app_nil_r; try done.
      - intros k'. rewrite lookup_empty, elem_of_nil. split; [by intros [? ?]|done].
      - by intros k' ?%elem_of_nil.
      - by intros k' ?%elem_of_nil. }
    split; [exact E|]. intros k. rewrite E. case_decide; split; [by eexists|done|done|by intros [? ?]].
Qed.

Definition sample_request : PrefetchTilesRequest := mkPrefetchTilesRequest [mkTileKey 5 9 4; mkTileKey 4 9 4; mkTileKey 15 15 4] 33 33 None true.
Definition sample_tiles : SubQuadsResult := <[mkTileKey 1 2 2 := chars "h"]> (<[mkTileKey 4 9 4 := chars "g"]> ∅).

Lemma FilterTilesByList_spec_witness :
  filtered sample_tiles (prefetch_tile_keys sample_request) (FilterTilesByList sample_request sample_tiles) /\
  forall k, k ∈ FilterTileKeysByList sample_request sample_tiles <-> is_Some (FilterTilesByList sample_request sample_tiles !! k).
Proof. apply (FilterTilesByList_spec sample_request sample_tiles). repeat constructor; cbn; lia. Defined.

Example sample_filtered :
  map_to_list (FilterTilesByList sample_request sample_tiles) ≡ₚ
    [(mkTileKey 1 2 2, chars "h"); (mkTileKey 4 9 4, chars "g"); (mkTileKey 15 15 4, [])].
Proof. apply (bool_decide_unpack _). vm_compute. exact I. Qed.

(** Of two tiles without data, one above the other, the lower one has no result when the
    upper one is first in the request. *)
Example missing_below_missing :
  FilterTilesByList (mkPrefetchTilesRequest [mkTileKey 0 0 1; mkTileKey 0 0 2] 33 33 None true) ∅ = {[mkTileKey 0 0 1 := []]} /\
  FilterTilesByList (mkPrefetchTilesRequest [mkTileKey 0 0 2; mkTileKey 0 0 1] 33 33 None true) ∅ =
    {[mkTileKey 0 0 1 := []; mkTileKey 0 0 2 := []]}.
Proof. split; vm_compute; reflexivity. Qed.

(** ** The data of a tree *)

Lemma flatten_spec {A} (key : A -> TileKey) (value : A -> str) (l : list A) (m : SubQuadsResult) : NoDup (key <$> l) -> (forall x, x ∈ l -> m !! key x = None) ->
  forall t h, foldl (fun result x => match result !! key x with Some _ => result | None => <[key x := value x]> result end) m l !! t = Some h <->
    m !! t = Some h \/ exists x, x ∈ l /\ key x = t /\ value x = h.
Proof.
  revert m. induction l as [|x l IH]; intros m Hnd Hm t h.
  - cbn. split; [by left|]. intros [?|(x & ?%elem_of_nil & _)]; done.
  - cbn [foldl]. rewrite (Hm x ltac:(left)). rewrite fmap_cons in Hnd. apply NoDup_cons in Hnd as [Hn Hnd]. rewrite IH.
    + rewrite lookup_insert_Some. split.
      * intros [[[<- <-]|[_ ?]]|(y & ? & <- & <-)]; [right; exists x; split_and!; [left|done..]|by left|right; exists y; split_and!; [by right|done..]].
      * intros [E|(y & [->|Hy]%elem_of_cons & <- & <-)]; [|by left; left|right; by exists y].
        left. right. split; [|done]. intros E'. rewrite <- E', (Hm x ltac:(left)) in E. done.
    + done.
    + intros y Hy. rewrite lookup_insert_ne; [apply Hm; by right|]. intros E. apply Hn. rewrite E. by apply list_elem_of_fmap_2.
Qed.

Lemma FlattenTree_spec q root data : index_of q root data -> exists m, FlattenTree q = Some m /\
  forall t h, m !! t = Some h <-> exists x, x ∈ data /\ tile_key x = t /\ data_handle x = h.
Proof.
  intros Hi. destruct (index_handles q root data Hi) as (l & El & P). unfold FlattenTree. rewrite El.
  set (f := fun result data => _). exists (foldl f ∅ l). split; [done|]. intros t h. unfold f. rewrite flatten_spec.
  - rewrite lookup_empty. assert (Hin : (t, h) ∈ (fun d => (tile_key d, data_handle d)) <$> l <-> (t, h) ∈ (fun d => (tile_key d, data_handle d)) <$> data) by (by rewrite P).
    rewrite !list_elem_of_fmap in Hin. split.
    + intros [?|(x & Hx & <- & <-)]; [done|]. destruct (proj1 Hin) as (y & [= -> ->] & Hy); [by exists x|by exists y].
    + intros (x & Hx & <- & <-). right. destruct (proj2 Hin) as (y & [= -> ->] & Hy); [by exists x|by exists y].
  - destruct (index_valid q root data Hi) as [_ Hnd]. revert Hnd. assert (E : tile_key <$> l ≡ₚ tile_key <$> data); [|by rewrite E].
    apply (fmap_Permutation fst) in P. by rewrite <- !list_fmap_compose in P.
  - intros x _. apply lookup_empty.
Qed.

(** A search for any tile ends, and what it finds is a tile. *)
Lemma Find_ends q root data t : index_of q root data -> valid t ->
  exists r, QuadTreeIndex.Find q t true = Some r /\ forall x, r = Some x -> valid (tile_key x).
Proof.
  intros (ps & ss & Hb & _)%index_of_blob Ht. unfold QuadTreeIndex.Find. rewrite (FindNearestParent_spec q root ps ss t Hb), (blob_root _ _ _ _ Hb).
  set (near := last_ancestor _ _). assert (Hnear : forall x, near = Some x -> valid (tile_key x)).
  { intros x E. destruct Hb as [_ _ _ Hss Hps _ _]. rewrite Forall_forall in Hss, Hps. unfold near, last_ancestor in E.
    apply last_Some in E as [l E]. assert (Hx : x ∈ filter (fun d => IsChildOf t (tile_key d) = true) (if level_ t >=? level_ root then ps ++ ss else ps))
      by (rewrite E; apply elem_of_app; right; left).
    apply list_elem_of_filter in Hx as [_ Hx]. destruct (_ >=? _); [apply elem_of_app in Hx as [Hx|Hx]|];
      [by destruct (Hps x Hx)|destruct (Hss x Hx) as ((_ & ? & _) & _); done|by destruct (Hps x Hx)]. }
  assert (Hfound : forall (o : option IndexData) x, with_tile_key t <$> o = Some x -> valid (tile_key x)) by (by intros [o|] x; intros [= <-]).
  destruct (_ >=? _); destruct (drop_while _ _) as [|entry next]; try (by exists near); (destruct (negb _); [by exists near|]);
    eexists; (split; [reflexivity|]); apply Hfound.
Qed.

(** The search does not ask whether the tile is below the root: here a tile that the tree
    does not have gets the data of the one with the same sub key. *)
Example Find_outside_of_the_tree :
  let root := mkTileKey 1 1 1 in
  let tree := CreateBlob root 4 [] [mkIndexData (mkTileKey 2 3 2) (chars "h") [] [] [] 7 100 50] in
  IsParentOf root (mkTileKey 0 1 2) = false /\
  (q ← tree; QuadTreeIndex.Find q (mkTileKey 0 1 2) true) = Some (Some (mkIndexData (mkTileKey 0 1 2) (chars "h") [] [] [] 7 100 50)).
Proof. split; vm_compute; reflexivity. Qed.

(** ** The queries of a prefetch *)

Section queries.
Context `{Hlaws : ModelLaws} {S N : Type} `{Hcache : KeyValueCacheLaws S Model} `{Honline : Online S N} `{Hhashes : Hashes}.
Context (c : RepositoryClient) (layer : str) (C : Contents) `{Hhonest : !Honest c layer C} (Hstore : storable_layer c layer C).
Context (billing_tag : option str) (version : Z).

Abbreviation hrn := (ToCatalogHRNString (client_catalog_ c)).
Abbreviation P := (layer_policy hrn layer (kept C)).
Abbreviation inv := (cache_has (S := S) (N := N) (holds P)).
Abbreviation partitions := (partitions_cache c layer).

Lemma keep_Get_tree now t : valid t ->
  gives (holds P) (Get_tree partitions now t kMaxQuadTreeIndexDepth (Some version)) (fun r => forall q, r = Some q -> has_tree C (Some version) t q).
Proof.
  intros Ht s Hs. eapply runs_mono; [by apply (Get_tree_spec hrn layer (plain_catalog_layer _ _ _ Hstore) partitions now t (Some version) (kept C))|].
  intros s' r [[Hs' _] Hr]. by split.
Qed.

Lemma gives_Get_tree t : valid t ->
  gives inv (timed (fun now => Get_tree partitions now t kMaxQuadTreeIndexDepth (Some version))) (fun r => forall q, r = Some q -> has_tree C (Some version) t q).
Proof. intros Ht. eapply gives_clock; [done|]. intros now _. by apply keep_Get_tree. Qed.

Lemma gives_ContainsTree t : keeps_to inv (timed (fun now => ContainsTree partitions now t kMaxQuadTreeIndexDepth (Some version))).
Proof.
  eapply gives_clock; [done|]. intros now _ s Hs. eapply runs_mono; [by apply (law_Contains P)|]. by intros s' r [].
Qed.

Lemma gives_Download t : valid t ->
  gives inv (DownloadVersionedQuadTree c layer billing_tag t kMaxQuadTreeIndexDepth version) (fun r => forall q, r.1 = inl q -> has_tree C (Some version) t q).
Proof.
  intros Ht. unfold DownloadVersionedQuadTree. apply gives_then; [by eapply keep_LookupApi; [done..|left]|]. intros [client|e]; [|by apply gives_ret].
  eapply gives_bind; [by eapply gives_call|]. intros r [_ _ _ Hr]. destruct (Z.eqb_spec (status r) 200) as [Es|]; cbn [negb]; [|by apply gives_ret].
  destruct (Hr t (Some version) _ Ht eq_refl Es) as (tree & Et & Htree).
  eapply gives_bind; [by apply (gives_lift _ _ tree (fun tree => forall q, tree = Some q -> has_tree C (Some version) t q))|].
  intros [q|] Hq; [|by apply gives_ret]. specialize (Hq q eq_refl). apply gives_then.
  - eapply gives_clock; [done|]. intros now Hn. by eapply keep_Put_tree.
  - intros [?|?]; apply gives_ret; [by intros q' [= <-]|done].
Qed.

(** The loop goes five levels up in each round. *)
Lemma gives_load_loop fuel root target statistics : valid root -> 0 <= level_ target -> level_ root <= 5 * (Z.of_nat fuel - 1) ->
  keeps_to inv (load_loop c layer billing_tag fuel root target version statistics).
Proof.
  revert root statistics. induction fuel as [|fuel IH]; intros root statistics Hr Ht Hf; cbn [load_loop];
    rewrite Z.gtb_ltb; destruct (Z.ltb_spec (level_ target) (level_ root)); try by apply gives_ret.
  { lia. }
  pose proof Hr as (Hl & _). unfold LevelCount in Hl. unfold kMaxQuadTreeIndexDepth. change (- (4) - 1) with (- (5)).
  pose proof (above_up root 5 Hr ltac:(done)) as Hp. pose proof Hp as (Hv & _).
  assert (Hup : level_ (ChangedLevelBy root (- (5))) = Z.max 0 (level_ root - 5)).
  { destruct (Z.leb_spec 5 (level_ root)); [rewrite ChangedLevelBy_up by (done || lia)|rewrite ChangedLevelBy_above by (done || lia)]; cbn; lia. }
  apply gives_then.
  - apply gives_mutex; [by eapply honest_mutexes|]. apply gives_then; [apply gives_ContainsTree|]. intros []; [by apply gives_ret|].
    apply gives_then; [by eapply keeps_any, gives_Download|]. intros r. by apply gives_ret.
  - intros statistics'. apply IH; [done|done|]. lia.
Qed.

Lemma min_element_in tiles t : min_element tiles = Some t -> t ∈ tiles.
Proof.
  destruct tiles as [|x tiles]; [done|]. cbn. intros [= <-]. set (f := fun smallest t => _).
  assert (Hf : forall l y, foldl f y l = y \/ foldl f y l ∈ l).
  { induction l as [|z l IH]; intros y; [by left|]. cbn. destruct (IH (f y z)) as [-> |?]; [|right; by right].
    unfold f. destruct (TileKey_ltb z y); [right; left|by left]. }
  destruct (Hf tiles x) as [-> |?]; [left|by right].
Qed.

Lemma gives_LoadAggregated root tiles : valid root -> tiles <> [] -> Forall valid tiles ->
  keeps_to inv (LoadAggregatedSubQuads c layer billing_tag root tiles version).
Proof.
  intros Hr Hne Hv. unfold LoadAggregatedSubQuads. eapply gives_bind; [by apply gives_Get_tree|]. intros [q|] Hq; [|by apply gives_ret].
  destruct (has_tree_index _ _ _ _ (Hq q eq_refl)) as (data & _ & Hi). assert (exists t, min_element tiles = Some t) as [t Et] by (destruct tiles; [done|by eexists]).
  assert (Ht : valid t) by (rewrite Forall_forall in Hv; by apply Hv, min_element_in).
  destruct (Find_ends q root data t Hi Ht) as (r & Er & Hfound).
  eapply gives_bind; [by apply (gives_lift _ _ t (fun t' => t' = t))|]. intros ? ->.
  eapply gives_bind; [by apply (gives_lift _ _ r (fun r' => r' = r))|]. intros ? ->.
  destruct r as [x|]; [|by apply gives_ret]. destruct (Hfound x eq_refl) as (Hx & _). destruct Hr as (Hl & Hr). unfold LevelCount in Hl.
  apply gives_load_loop; [by split|lia|lia].
Qed.

Definition tree_tiles (root : TileKey) (tiles : SubQuadsResult) : Prop :=
  exists data, tree_data C (Some version) root data /\ Forall (fun x => valid (tile_key x)) data /\
    forall t h, tiles !! t = Some h <-> exists x, x ∈ data /\ tile_key x = t /\ data_handle x = h.

Lemma gives_GetVersionedSubQuads root : valid root ->
  gives inv (GetVersionedSubQuads c layer billing_tag root kMaxQuadTreeIndexDepth version) (fun r => forall tiles, r.1 = inl tiles -> tree_tiles root tiles).
Proof.
  intros Hr. unfold GetVersionedSubQuads. apply gives_mutex; [by eapply honest_mutexes|].
  eapply gives_bind; [by apply gives_Get_tree|]. intros found Hfound.
  apply (gives_bind _ _ _ (fun r : ExtendedResponse QuadTreeIndex => forall q, r.1 = inl q -> has_tree C (Some version) root q)).
  - destruct found as [q|]; [|by apply gives_Download]. apply gives_ret. intros q' [= <-]. by apply Hfound.
  - intros [[q|e] st] Hq; [|by apply gives_ret]. destruct (has_tree_index _ _ _ _ (Hq q eq_refl)) as (data & Hd & Hi).
    destruct (FlattenTree_spec q root data Hi) as (m & Em & Hm).
    eapply gives_bind; [by apply (gives_lift _ _ m (fun m' => m' = m))|]. intros ? ->. apply gives_ret. intros tiles [= <-]. exists data.
    by destruct (index_valid q root data Hi) as [? _].
Qed.

(** C13: a query of a prefetch, whatever the cache holds and other threads do: for any
    root it ends with an error or with exactly the tiles and the handles that the catalog
    has in the tree of this root in this version, and so does the loading of the trees of
    ancestors for any tiles of the tree, however far the found tile is above the root.  The
    cache keeps trees of the catalog only. *)
Theorem prefetch_query root tiles w : valid root -> tiles <> [] -> Forall valid tiles -> inv w ->
  (exists w' r st, GetVersionedSubQuads c layer billing_tag root kMaxQuadTreeIndexDepth version w = Some (w', (r, st)) /\ inv w' /\
     match r with
     | inl found => exists data, tree_data C (Some version) root data /\
         forall t h, found !! t = Some h <-> exists x, x ∈ data /\ tile_key x = t /\ data_handle x = h
     | inr _ => True
     end) /\
  exists w' st, LoadAggregatedSubQuads c layer billing_tag root tiles version w = Some (w', st) /\ inv w'.
Proof.
  intros Hr Hne Hv Hw. split.
  - destruct (gives_GetVersionedSubQuads root Hr w Hw) as (w' & [r st] & E & Hw' & Hq). exists w', r, st. split_and!; [done..|].
    destruct r as [found|]; [|done]. destruct (Hq found eq_refl) as (data & ? & _ & ?). by exists data.
  - destruct (gives_LoadAggregated root tiles Hr Hne Hv w Hw) as (w' & st & E & Hw' & _). by exists w', st.
Qed.
End queries.

(** The trees of ancestors are loaded for the highest of the tiles, also when there is
    none: a tree without a tile of the request ends in the read of the end of a list. *)
Theorem LoadAggregatedSubQuads_empty `{Models} {S N : Type} `{KeyValueCache S Model} `{Online S N} c layer billing_tag root version (w : World S N) q :
  snd <$> timed (fun now => Get_tree (partitions_cache c layer) now root kMaxQuadTreeIndexDepth (Some version)) w = Some (Some q) ->
  LoadAggregatedSubQuads c layer billing_tag root [] version w = None.
Proof.
  intros E. destruct (timed _ w) as [[w' r]|] eqn:Et; [|done]. injection E as ->. unfold LoadAggregatedSubQuads. by eapply run_bind.
Qed.

(** *** Concrete inputs: the service of ReadIntegrity.v *)

Module prefetch_sample.
Import layer_sample ReadIntegrity.tiles_sample.

(** The world after the query of the root. *)
Definition loaded : World Cache unit :=
  match GetVersionedSubQuads client layer None R kMaxQuadTreeIndexDepth 7 start with Some (w, _) => w | None => start end.
End prefetch_sample.

Import layer_sample ReadIntegrity.tiles_sample prefetch_sample.

Lemma prefetch_query_witness :
  (exists w' r st, GetVersionedSubQuads client layer None R kMaxQuadTreeIndexDepth 7 start = Some (w', (r, st)) /\
     cache_has (holds (layer_policy (ToCatalogHRNString hrn) layer (kept contents))) w' /\
     match r with
     | inl found => exists data, tree_data contents (Some 7) R data /\
         forall t h, found !! t = Some h <-> exists x, x ∈ data /\ tile_key x = t /\ data_handle x = h
     | inr _ => True
     end) /\
  exists w' st, LoadAggregatedSubQuads client layer None R [leaf] 7 start = Some (w', st) /\
     cache_has (holds (layer_policy (ToCatalogHRNString hrn) layer (kept contents))) w'.
Proof.
  apply (prefetch_query client layer contents tree_storable None 7 R [leaf] start).
  - vm_compute. intuition congruence.
  - discriminate.
  - constructor; [|constructor]. vm_compute. intuition congruence.
  - apply fresh_holds.
Defined.

Lemma LoadAggregatedSubQuads_empty_witness : LoadAggregatedSubQuads client layer None R [] 7 loaded = None.
Proof. apply (LoadAggregatedSubQuads_empty client layer None R 7 loaded index). vm_compute. reflexivity. Defined.

(** A tile below the root without data leaves nothing of the tree on its levels. *)
Example nothing_left :
  (fun r => match r.2.1 with
            | inl tiles => FilterTileKeysByLevel (mkPrefetchTilesRequest [mkTileKey 31 31 5] 4 5 None true) tiles
            | inr _ => [R]
            end) <$> GetVersionedSubQuads client layer None R kMaxQuadTreeIndexDepth 7 start = Some [].
Proof. vm_compute. reflexivity. Qed.
