(* ===== verification/PrefetchJobs.v ===== *)
(** * The jobs of a prefetch

    Model of src/QueryMetadataJob.h, QueryPartitionsJob.h, DownloadItemsJob.h,
    PrefetchTilesHelper.h, PrefetchPartitionsHelper.cpp and TaskSink.cpp of
    olp-cpp-sdk-dataservice-read.

    A prefetch adds a task for each query to the task sink; the task that completes last
    starts a task for each item to download, and the download that completes last calls
    the user's callback.  Each of these completions may run on any thread, while tasks are
    still added, on the thread that adds them (a sink without a scheduler executes tasks
    where they are added), or after the sink was closed.  A [run] is a state of all of
    this; an [action] is one step: a completion, which the mutex of its job makes atomic, a
    task that is added, or what a user does.  That a task completes once, with the response
    [Cancelled] when it is cancelled, is shown in TaskContext.v; here the response of a
    completion is any.

    The sizes of lists are below 2^64, so that the counters, which are [size_t], are
    integers.  A call of the callback that was moved away throws [std::bad_function_call]. *)

From S2P Require Import Prelude TileKey QuadTreeIndex QuadTreeJson Hrn Json ReadModels LruCache InMemoryCache ProtectedKeyList DiskCache DefaultCache.
From S2P Require Import DefaultCacheOperations KeyValueCache KeyGenerator CacheRepositories LayerClient.
From S2P Require Import Http World ApiLookup ReadApis Repositories PrefetchTiles.
Import Network Response.

(** [TaskSink::AddTaskImpl]: whether the task was taken. *)
Record TaskSink := mkTaskSink { task_scheduler_ : bool; closed_ : bool }.

Definition ScheduleTask (sink : TaskSink) : bool := negb (closed_ sink).
Definition AddTaskImpl (sink : TaskSink) : bool := if task_scheduler_ sink then ScheduleTask sink else true.
(** The destructor, before it waits for the tasks. *)
Definition close_sink (sink : TaskSink) : TaskSink := mkTaskSink (task_scheduler_ sink) true.

Definition Canceled : ApiError := ApiError_of_code Cancelled (chars "Cancelled") false.

Definition is_cancelled (error : ApiError) : bool := match api_error_code error with Cancelled => true | _ => false end.

(** [PrefetchStatus] and [PrefetchPartitionsStatus]. *)
Record PrefetchStatus := mkPrefetchStatus { prefetched : Z; total_to_prefetch : Z; bytes_transferred : Z }.

Definition GetAccumulatedBytes (statistics : NetworkStatistics) : Z := u64 (downloaded statistics + uploaded statistics).

(** ** The two jobs *)

Section jobs.
Context {Item Items PrefetchResult : Type}.
(** The functions that the jobs are made of, and the operations on the results of queries:
    the insertion of a result into the one before, and the walk through a result. *)
Context (append_result : ExtendedResponse DataResult -> Item -> PrefetchResult -> PrefetchResult) (no_result : PrefetchResult).
Context (no_items : Items) (insert_items : Items -> Items -> Items) (items_of : Items -> list (Item * str)).
Context (filter_ : option (Items -> Items)) (CheckIfFail : list ApiError -> Z -> bool).

Record DownloadItemsJob := mkDownloadJob {
  user_callback_ : bool;
  download_task_count_ : Z;
  total_download_task_count_ : Z;
  requests_succeeded_ : Z;
  requests_failed_ : Z;
  download_statistics_ : NetworkStatistics;
  prefetch_result_ : PrefetchResult }.

Definition DownloadItemsJob_new : DownloadItemsJob := mkDownloadJob true 0 0 0 0 NetworkStatistics_new no_result.

Definition Initialize_downloads (items_count : Z) (statistics : NetworkStatistics) (j : DownloadItemsJob) : DownloadItemsJob :=
  mkDownloadJob (user_callback_ j) items_count items_count (requests_succeeded_ j) (requests_failed_ j) statistics (prefetch_result_ j).

(** [OnPrefetchCompleted]: [None] when the callback was called before. *)
Definition OnPrefetchCompleted (j : DownloadItemsJob) : option DownloadItemsJob :=
  if user_callback_ j then
    Some (mkDownloadJob false (download_task_count_ j) (total_download_task_count_ j) (requests_succeeded_ j) (requests_failed_ j)
            (download_statistics_ j) (prefetch_result_ j))
  else None.

Definition is_success {R} (r : ExtendedResponse R) : bool := match r.1 with inl _ => true | inr _ => false end.

(** [CompleteItem] up to the call of [OnPrefetchCompleted]: the status, and the result
    with which it is called. *)
Definition CompleteItem (item : Item) (response : ExtendedResponse DataResult) (j : DownloadItemsJob)
  : DownloadItemsJob * PrefetchStatus * option PrefetchResult :=
  let statistics := add_statistics (download_statistics_ j) response.2 in
  let succeeded := if is_success response then requests_succeeded_ j + 1 else requests_succeeded_ j in
  let failed := if is_success response then requests_failed_ j else requests_failed_ j + 1 in
  let result := append_result response item (prefetch_result_ j) in
  let status := mkPrefetchStatus (succeeded + failed) (total_download_task_count_ j) (GetAccumulatedBytes statistics) in
  let count := download_task_count_ j - 1 in
  if count =? 0
  then (mkDownloadJob (user_callback_ j) count (total_download_task_count_ j) succeeded failed statistics no_result, status, Some result)
  else (mkDownloadJob (user_callback_ j) count (total_download_task_count_ j) succeeded failed statistics result, status, None).

Record QueryMetadataJob := mkQueryJob {
  query_count_ : Z;
  query_size_ : Z;
  canceled_ : bool;
  query_result_ : Items;
  accumulated_statistics_ : NetworkStatistics;
  query_errors_ : list ApiError }.

Definition QueryMetadataJob_new (query_count : Z) : QueryMetadataJob := mkQueryJob query_count query_count false no_items NetworkStatistics_new [].

(** What [CompleteQuery] goes on with. *)
Inductive after_query := Waits | Ends (r : ApiResponse PrefetchResult) | Starts (items : list (Item * str)).

(** The part of [CompleteQuery] that keeps the response. *)
Definition keep_response (response : ExtendedResponse Items) (j : QueryMetadataJob) : QueryMetadataJob :=
  let statistics := add_statistics (accumulated_statistics_ j) response.2 in
  match response.1 with
  | inl items =>
      mkQueryJob (query_count_ j) (query_size_ j) (canceled_ j)
        (match items_of (query_result_ j) with [] => items | _ => insert_items (query_result_ j) items end) statistics (query_errors_ j)
  | inr error =>
      if is_cancelled error
      then mkQueryJob (query_count_ j) (query_size_ j) true (query_result_ j) statistics (query_errors_ j)
      else mkQueryJob (query_count_ j) (query_size_ j) (canceled_ j) (query_result_ j) statistics (query_errors_ j ++ [error])
  end.

Definition with_result (items : Items) (j : QueryMetadataJob) : QueryMetadataJob :=
  mkQueryJob (query_count_ j) (query_size_ j) (canceled_ j) items (accumulated_statistics_ j) (query_errors_ j).

(** [None] is [front()] of an empty list of errors. *)
Definition CompleteQuery (response : ExtendedResponse Items) (j : QueryMetadataJob) : option (QueryMetadataJob * after_query) :=
  let j := keep_response response j in
  let j := mkQueryJob (query_count_ j - 1) (query_size_ j) (canceled_ j) (query_result_ j) (accumulated_statistics_ j) (query_errors_ j) in
  if query_count_ j =? 0 then
    if CheckIfFail (query_errors_ j) (query_size_ j) then error ← head (query_errors_ j); Some (j, Ends (inr error))
    else if canceled_ j then Some (j, Ends (inr Canceled))
    else
      let j := with_result (match filter_ with Some filter => filter (query_result_ j) | None => query_result_ j end) j in
      match items_of (query_result_ j) with
      | [] => Some (j, Ends (inl no_result))
      | items => Some (j, Starts items)
      end
  else Some (j, Waits).

(** ** A prefetch *)

(** Whether [CompleteQuery] is adding the downloads, and all were taken by the sink. *)
Inductive starting := NotStarting | Starting (items : list (Item * str)) (all_download_tasks_triggered : bool).

(** The queries that [Prefetch] has still to add are counted, as their tasks that did not
    complete; of the downloads the item is known.  [answers] and [completions] are the
    completions so far, in their order; they are not part of the code. *)
Record run := mkRun {
  sink : TaskSink;
  cancelled : bool;
  to_add : nat;
  queries : nat;
  query_job : QueryMetadataJob;
  adding : starting;
  downloads : list Item;
  download_job : DownloadItemsJob;
  calls : list (ApiResponse PrefetchResult);
  statuses : list PrefetchStatus;
  thrown : bool;
  answers : list (ExtendedResponse Items);
  completions : list (Item * ExtendedResponse DataResult) }.

Definition user_call (r : ApiResponse PrefetchResult) (s : run) : run :=
  match OnPrefetchCompleted (download_job s) with
  | Some j => mkRun (sink s) (cancelled s) (to_add s) (queries s) (query_job s) (adding s) (downloads s) j (calls s ++ [r]) (statuses s) (thrown s)
                (answers s) (completions s)
  | None => mkRun (sink s) (cancelled s) (to_add s) (queries s) (query_job s) (adding s) (downloads s) (download_job s) (calls s) (statuses s) true
              (answers s) (completions s)
  end.

(** A query completes; the downloads are not added when the prefetch was cancelled. *)
Definition complete_query (response : ExtendedResponse Items) (s : run) : option run :=
  '(j, next) ← CompleteQuery response (query_job s);
  let s1 := mkRun (sink s) (cancelled s) (to_add s) (queries s) j (adding s) (downloads s) (download_job s) (calls s) (statuses s) (thrown s)
              (answers s ++ [response]) (completions s) in
  Some (match next with
        | Waits => s1
        | Ends r => user_call r s1
        | Starts items =>
            let d := Initialize_downloads (Z.of_nat (length items)) (accumulated_statistics_ j) (download_job s1) in
            let s2 := mkRun (sink s1) (cancelled s1) (to_add s1) (queries s1) j (if cancelled s1 then NotStarting else Starting items true) (downloads s1) d
                        (calls s1) (statuses s1) (thrown s1) (answers s1) (completions s1) in
            if cancelled s1 then user_call (inr Canceled) s2 else s2
        end).

Definition set_queries (a q : nat) (s : run) : run :=
  mkRun (sink s) (cancelled s) a q (query_job s) (adding s) (downloads s) (download_job s) (calls s) (statuses s) (thrown s) (answers s) (completions s).
Definition set_adding (x : starting) (ds : list Item) (s : run) : run :=
  mkRun (sink s) (cancelled s) (to_add s) (queries s) (query_job s) x ds (download_job s) (calls s) (statuses s) (thrown s) (answers s) (completions s).
Definition set_control (k : TaskSink) (b : bool) (s : run) : run :=
  mkRun k b (to_add s) (queries s) (query_job s) (adding s) (downloads s) (download_job s) (calls s) (statuses s) (thrown s) (answers s) (completions s).

Inductive action :=
| AddQuery
| QueryCompletes (response : ExtendedResponse Items)
| AddDownload
| DownloadsAdded
| DownloadCompletes (index : nat) (response : ExtendedResponse DataResult)
| CancelPrefetch
| CloseSink.

(** [None]: the action is not possible. *)
Definition act (a : action) (s : run) : option run :=
  match a with
  | AddQuery =>
      match to_add s with
      | O => None
      | S n => if AddTaskImpl (sink s) then Some (set_queries n (S (queries s)) s)
               else complete_query (without_statistics (inr Canceled)) (set_queries n (queries s) s)
      end
  | QueryCompletes response =>
      match queries s with O => None | S n => complete_query response (set_queries (to_add s) n s) end
  | AddDownload =>
      match adding s with
      | Starting ((item, _) :: items) triggered =>
          Some (if AddTaskImpl (sink s) then set_adding (Starting items triggered) (downloads s ++ [item]) s
                else set_adding (Starting items false) (downloads s) s)
      | _ => None
      end
  | DownloadsAdded =>
      match adding s with
      | Starting [] triggered =>
          let s := set_adding NotStarting (downloads s) s in
          Some (if triggered then s else user_call (inr Canceled) (set_control (sink s) true s))
      | _ => None
      end
  | DownloadCompletes index response =>
      item ← downloads s !! index;
      let '(j, status, result) := CompleteItem item response (download_job s) in
      let s := mkRun (sink s) (cancelled s) (to_add s) (queries s) (query_job s) (adding s) (delete index (downloads s)) j (calls s)
                 (statuses s ++ [status]) (thrown s) (answers s) (completions s ++ [(item, response)]) in
      Some (match result with Some r => user_call (inl r) s | None => s end)
  | CancelPrefetch => Some (set_control (sink s) true s)
  | CloseSink => Some (set_control (close_sink (sink s)) (cancelled s) s)
  end.

Fixpoint acts (l : list action) (s : run) : option run :=
  match l with
  | [] => Some s
  | a :: l => s ← act a s; acts l s
  end.

(** [Prefetch] with [n] queries. *)
Definition Prefetch (k : TaskSink) (b : bool) (n : nat) : run :=
  let s := mkRun k b (if b then O else n) 0 (QueryMetadataJob_new (Z.of_nat n)) NotStarting [] DownloadItemsJob_new [] [] false [] [] in
  if b then user_call (inr Canceled) s else s.

(** Nothing is left to be done. *)
Definition finished (s : run) : Prop := to_add s = O /\ queries s = O /\ adding s = NotStarting /\ downloads s = [].

(** ** What a prefetch keeps *)

(** What the responses of the queries leave in the job. *)
Definition collected (n : nat) (rs : list (ExtendedResponse Items)) : QueryMetadataJob :=
  foldl (fun j r => keep_response r j) (QueryMetadataJob_new (Z.of_nat n)) rs.

Definition apply_filter (items : Items) : Items := match filter_ with Some filter => filter items | None => items end.

(** The items to download: no failure, and the filtered result of the queries. *)
Definition chosen (n : nat) (rs : list (ExtendedResponse Items)) (items : list (Item * str)) : Prop :=
  let j := collected n rs in
  CheckIfFail (query_errors_ j) (Z.of_nat n) = false /\ canceled_ j = false /\ items = items_of (apply_filter (query_result_ j)).

Definition results (cs : list (Item * ExtendedResponse DataResult)) : PrefetchResult :=
  foldl (fun r c => append_result c.2 c.1 r) no_result cs.

(** The downloads that completed were counted and reported. *)
Record started (n : nat) (rs : list (ExtendedResponse Items)) (d : DownloadItemsJob) (cs : list (Item * ExtendedResponse DataResult))
  (sts : list PrefetchStatus) (items : list (Item * str)) : Prop := {
  started_chosen : chosen n rs items;
  started_total : total_download_task_count_ d = Z.of_nat (length items);
  started_counted : requests_succeeded_ d + requests_failed_ d = Z.of_nat (length cs);
  started_statuses : (fun st => (prefetched st, total_to_prefetch st)) <$> sts = (fun i => (i, Z.of_nat (length items))) <$> seqZ 1 (Z.of_nat (length cs)) }.

(** The query job has what the responses left, but for the number of queries. *)
Definition same_queries (n : nat) (j : QueryMetadataJob) (rs : list (ExtendedResponse Items)) : Prop :=
  j = mkQueryJob (query_count_ j) (Z.of_nat n) (canceled_ (collected n rs)) (query_result_ (collected n rs)) (accumulated_statistics_ (collected n rs))
        (query_errors_ (collected n rs)).

Inductive ok (n : nat) (s : run) : Prop :=
| ok_querying : (0 < to_add s + queries s)%nat -> query_count_ (query_job s) = Z.of_nat (to_add s + queries s) ->
    same_queries n (query_job s) (answers s) -> (length (answers s) + (to_add s + queries s) = n)%nat ->
    download_job s = DownloadItemsJob_new -> adding s = NotStarting -> downloads s = [] -> completions s = [] -> statuses s = [] ->
    calls s = [] -> thrown s = false -> ok n s
| ok_adding items l triggered : to_add s = O -> queries s = O -> adding s = Starting l triggered -> l `suffix_of` items -> user_callback_ (download_job s) = true ->
    started n (answers s) (download_job s) (completions s) (statuses s) items -> prefetch_result_ (download_job s) = results (completions s) ->
    (if triggered then download_task_count_ (download_job s) = Z.of_nat (length l + length (downloads s)) /\ (0 < length l + length (downloads s))%nat /\
       (completions s).*1 ++ downloads s ++ l.*1 ≡ₚ items.*1
     else Z.of_nat (length l + length (downloads s)) < download_task_count_ (download_job s)) ->
    calls s = [] -> thrown s = false -> ok n s
| ok_downloading items : to_add s = O -> queries s = O -> adding s = NotStarting -> user_callback_ (download_job s) = true ->
    started n (answers s) (download_job s) (completions s) (statuses s) items -> prefetch_result_ (download_job s) = results (completions s) ->
    download_task_count_ (download_job s) = Z.of_nat (length (downloads s)) -> downloads s <> [] ->
    (completions s).*1 ++ downloads s ≡ₚ items.*1 -> calls s = [] -> thrown s = false -> ok n s
| ok_success items : to_add s = O -> queries s = O -> adding s = NotStarting \/ adding s = Starting [] true -> user_callback_ (download_job s) = false ->
    started n (answers s) (download_job s) (completions s) (statuses s) items -> downloads s = [] -> (completions s).*1 ≡ₚ items.*1 ->
    calls s = [inl (results (completions s))] -> thrown s = false -> ok n s
| ok_empty : to_add s = O -> queries s = O -> adding s = NotStarting -> user_callback_ (download_job s) = false ->
    chosen n (answers s) [] -> downloads s = [] -> completions s = [] -> statuses s = [] -> calls s = [inl no_result] -> thrown s = false -> ok n s
| ok_failed e : to_add s = O -> queries s = O -> adding s = NotStarting -> user_callback_ (download_job s) = false ->
    downloads s = [] \/ Z.of_nat (length (downloads s)) < download_task_count_ (download_job s) -> calls s = [inr e] -> thrown s = false -> ok n s.

(** A failure of all has an error. *)
Context (Hfail : forall es n, 0 < n -> CheckIfFail es n = true -> es <> []).

Lemma user_call_once r s : user_callback_ (download_job s) = true ->
  exists j, user_callback_ j = false /\ download_task_count_ j = download_task_count_ (download_job s) /\
    total_download_task_count_ j = total_download_task_count_ (download_job s) /\
    requests_succeeded_ j = requests_succeeded_ (download_job s) /\ requests_failed_ j = requests_failed_ (download_job s) /\
    user_call r s = mkRun (sink s) (cancelled s) (to_add s) (queries s) (query_job s) (adding s) (downloads s) j (calls s ++ [r]) (statuses s) (thrown s)
                      (answers s) (completions s).
Proof. intros E. unfold user_call, OnPrefetchCompleted. rewrite E. eexists. split_and!; [..|reflexivity]; done. Qed.

Lemma collected_snoc n rs r : collected n (rs ++ [r]) = keep_response r (collected n rs).
Proof. unfold collected. by rewrite foldl_app. Qed.

Lemma keep_response_same n j rs r : same_queries n j rs ->
  keep_response r j = mkQueryJob (query_count_ j) (Z.of_nat n) (canceled_ (collected n (rs ++ [r]))) (query_result_ (collected n (rs ++ [r])))
    (accumulated_statistics_ (collected n (rs ++ [r]))) (query_errors_ (collected n (rs ++ [r]))).
Proof.
  intros E. rewrite collected_snoc. destruct j. unfold same_queries in E. cbn in E. injection E as -> -> -> -> ->. unfold keep_response. cbn.
  destruct r.1 as [items|e]; [done|]. destruct (is_cancelled e); done.
Qed.

Lemma call_failed n s e : to_add s = O -> queries s = O -> adding s = NotStarting -> user_callback_ (download_job s) = true ->
  downloads s = [] \/ Z.of_nat (length (downloads s)) < download_task_count_ (download_job s) -> calls s = [] -> thrown s = false ->
  ok n (user_call (inr e) s).
Proof.
  intros Ha Hq Hs Hu Hd Hc Ht. destruct (user_call_once (inr e) s Hu) as (j & Hj & Hcount & _ & _ & _ & ->).
  apply (ok_failed _ _ e); cbn; try done; [by rewrite Hcount|by rewrite Hc].
Qed.

(** The last of the queries completes, and leaves [j]. *)
Lemma last_query_ok n s (j : QueryMetadataJob) r : (0 < n)%nat -> to_add s = O -> queries s = O -> adding s = NotStarting -> downloads s = [] ->
  download_job s = DownloadItemsJob_new -> completions s = [] -> statuses s = [] -> calls s = [] -> thrown s = false ->
  same_queries n j (answers s ++ [r]) -> CompleteQuery r (query_job s) =
    (if CheckIfFail (query_errors_ j) (Z.of_nat n) then error ← head (query_errors_ j); Some (j, Ends (inr error))
     else if canceled_ j then Some (j, Ends (inr Canceled))
     else match items_of (apply_filter (query_result_ j)) with
          | [] => Some (with_result (apply_filter (query_result_ j)) j, Ends (inl no_result))
          | items => Some (with_result (apply_filter (query_result_ j)) j, Starts items)
          end) ->
  exists s', complete_query r s = Some s' /\ ok n s'.
Proof.
  intros Hn Ha Hq Hs Hds Hd Hcs Hst Hca Ht Hsame E. unfold complete_query. rewrite E.
  assert (Hu : user_callback_ (download_job s) = true) by (by rewrite Hd).
  assert (Hch : forall items, CheckIfFail (query_errors_ j) (Z.of_nat n) = false -> canceled_ j = false -> items_of (apply_filter (query_result_ j)) = items ->
    chosen n (answers s ++ [r]) items) by (rewrite Hsame; cbn; intros items ? ? <-; done).
  destruct (CheckIfFail _ _) eqn:Ef.
  { pose proof (fun Hz => Hfail _ _ Hz Ef) as Hne; specialize (Hne ltac:(lia)). destruct (query_errors_ j) as [|e es]; [done|]. eexists. split; [done|]. by apply call_failed; [..|left| |]. }
  destruct (canceled_ j) eqn:Ec.
  { eexists. split; [done|]. by apply call_failed; [..|left| |]. }
  destruct (items_of _) as [|item items] eqn:Ei.
  - eexists. split; [done|]. match goal with |- ok n (user_call ?r ?x) => destruct (user_call_once r x) as (d & Hd1 & _ & _ & _ & _ & ->) end; [done|].
    apply ok_empty; cbn; try done; [by apply Hch|by rewrite Hca].
  - destruct (cancelled s) eqn:Eca.
    + eexists. split; [done|]. by apply call_failed; [..|left| |].
    + eexists. split; [done|]. apply (ok_adding _ _ (item :: items) (item :: items) true); cbn; try done.
      * split; cbn; [by apply Hch|done|by rewrite Hd, Hcs|by rewrite Hst, Hcs].
      * by rewrite Hd, Hcs.
      * rewrite Hds, Hcs. cbn. split_and!; [lia|lia|done].
Qed.

(** A query completes while [m] others are left. *)
Lemma complete_query_ok n m s r : query_count_ (query_job s) = Z.of_nat (S m) -> (to_add s + queries s = m)%nat ->
  same_queries n (query_job s) (answers s) -> (length (answers s) + S m = n)%nat ->
  download_job s = DownloadItemsJob_new -> adding s = NotStarting -> downloads s = [] -> completions s = [] -> statuses s = [] ->
  calls s = [] -> thrown s = false -> exists s', complete_query r s = Some s' /\ ok n s'.
Proof.
  intros Hc Hm Hs Hn Hd Ha Hds Hcs Hst Hca Ht. pose proof (keep_response_same n _ _ r Hs) as Ek. destruct m as [|m].
  - apply (last_query_ok n s (mkQueryJob 0 (Z.of_nat n) (canceled_ (collected n (answers s ++ [r]))) (query_result_ (collected n (answers s ++ [r])))
      (accumulated_statistics_ (collected n (answers s ++ [r]))) (query_errors_ (collected n (answers s ++ [r])))) r); try done; try lia.
    unfold CompleteQuery. rewrite Ek, Hc. reflexivity.
  - unfold complete_query, CompleteQuery. rewrite Ek, Hc. cbn [query_count_]. destruct (Z.eqb_spec (Z.of_nat (S (S m)) - 1) 0); [lia|]. cbn.
    eexists. split; [done|]. apply ok_querying; cbn; try done; try lia. rewrite length_app. cbn. lia.
Qed.

(** A download that completes is counted and reported. *)
Lemma CompleteItem_started n rs d cs sts items item r j status res : started n rs d cs sts items -> CompleteItem item r d = (j, status, res) ->
  started n rs j (cs ++ [(item, r)]) (sts ++ [status]) items.
Proof.
  intros [Hch Ht Hc Hst] E. unfold CompleteItem in E.
  assert (Hnext : (if is_success r then requests_succeeded_ d + 1 else requests_succeeded_ d) +
      (if is_success r then requests_failed_ d else requests_failed_ d + 1) = Z.of_nat (length cs) + 1)
    by (destruct (is_success r); lia).
  assert (Hl : Z.of_nat (length (cs ++ [(item, r)])) = Z.of_nat (length cs) + 1) by (rewrite length_app; cbn; lia).
  assert (Hj : total_download_task_count_ j = Z.of_nat (length items) /\ requests_succeeded_ j + requests_failed_ j = Z.of_nat (length cs) + 1 /\
      prefetched status = Z.of_nat (length cs) + 1 /\ total_to_prefetch status = Z.of_nat (length items)).
  { destruct (_ =? 0); injection E as <- <- _; cbn; by rewrite Ht, Hnext. }
  destruct Hj as (Hj1 & Hj2 & Hs1 & Hs2). split; cbn; [done|done|by rewrite Hj2, Hl|].
  rewrite fmap_app, Hst, Hl. cbn. rewrite Hs1, Hs2. rewrite Z.add_1_r, <- Nat2Z.inj_succ, seqZ_S, fmap_app. cbn. by rewrite Nat2Z.inj_succ, Z.add_1_l.
Qed.

Lemma results_snoc cs item r : results (cs ++ [(item, r)]) = append_result r item (results cs).
Proof. unfold results. by rewrite foldl_app. Qed.

Lemma delete_perm {A} (l : list A) i x : l !! i = Some x -> x :: delete i l ≡ₚ l.
Proof. intros E. symmetry. by apply delete_Permutation. Qed.

Lemma move_perm {A} (cs l rest : list A) i x : l !! i = Some x -> (cs ++ [x]) ++ delete i l ++ rest ≡ₚ cs ++ l ++ rest.
Proof.
  intros E. rewrite <- app_assoc. apply Permutation_app_head. change ([x] ++ delete i l ++ rest) with ((x :: delete i l) ++ rest).
  apply Permutation_app_tail, delete_perm, E.
Qed.

(** What is left of a run when a download has completed that was not the last one. *)
Lemma CompleteItem_spec item r (j j' : DownloadItemsJob) status res : CompleteItem item r j = (j', status, res) ->
  user_callback_ j' = user_callback_ j /\ download_task_count_ j' = download_task_count_ j - 1 /\
  (if download_task_count_ j =? 1 then res = Some (append_result r item (prefetch_result_ j)) else res = None /\ prefetch_result_ j' = append_result r item (prefetch_result_ j)).
Proof.
  unfold CompleteItem. intros E. destruct (Z.eqb_spec (download_task_count_ j - 1) 0), (Z.eqb_spec (download_task_count_ j) 1); try lia;
    injection E as <- _ <-; by cbn.
Qed.

Lemma set_control_ok n s k b : ok n s -> ok n (set_control k b s).
Proof.
  destruct 1; [apply ok_querying|eapply ok_adding|eapply ok_downloading|eapply ok_success|apply ok_empty|eapply ok_failed]; cbn; eauto.
Qed.

Lemma add_query_ok n s s' : ok n s -> act AddQuery s = Some s' -> ok n s'.
Proof.
  intros Ho E. cbn in E. destruct (to_add s) as [|m] eqn:Ea; [done|]. destruct Ho; try congruence.
  destruct (AddTaskImpl (sink s)).
  - injection E as <-. apply ok_querying; cbn; try done; lia.
  - destruct (complete_query_ok n (m + queries s) (set_queries m (queries s) s) (without_statistics (inr Canceled))) as (s1 & E1 & Hs1); cbn; try done; [lia|lia|].
    rewrite E1 in E. by injection E as <-.
Qed.

Lemma query_completes_ok n s r s' : ok n s -> act (QueryCompletes r) s = Some s' -> ok n s'.
Proof.
  intros Ho E. cbn in E. destruct (queries s) as [|m] eqn:Eq; [done|]. destruct Ho; try congruence.
  destruct (complete_query_ok n (to_add s + m) (set_queries (to_add s) m s) r) as (s1 & E1 & Hs1); cbn; try done; [lia|lia|].
  rewrite E1 in E. by injection E as <-.
Qed.

Lemma add_download_ok n s s' : ok n s -> act AddDownload s = Some s' -> ok n s'.
Proof.
  intros Ho E. cbn in E. destruct (adding s) as [|[|[item h] l] triggered] eqn:Ea; try done.
  destruct Ho as [|items l' triggered' Hta Hq Ea' Hsuf Hu Hst Hp Hcount Hca Ht| |? ? ? [?|?]| |]; try congruence.
  rewrite Ea in Ea'. injection Ea' as <- <-. injection E as <-. destruct (AddTaskImpl (sink s)).
  - apply (ok_adding _ _ items l triggered); cbn; try done; [by eapply suffix_cons_l|]. destruct triggered.
    + cbn in Hcount. rewrite length_app. cbn. destruct Hcount as (Hc & Hlt & Hperm). split_and!; [rewrite Hc; lia|lia|].
      rewrite <- Hperm. cbn. by rewrite <- !app_assoc.
    + cbn in Hcount. rewrite length_app. cbn. lia.
  - apply (ok_adding _ _ items l false); cbn; try done; [by eapply suffix_cons_l|]. destruct triggered; cbn in Hcount; lia.
Qed.

Lemma downloads_added_ok n s s' : ok n s -> act DownloadsAdded s = Some s' -> ok n s'.
Proof.
  intros Ho E. cbn in E. destruct (adding s) as [|[|] triggered] eqn:Ea; try done. injection E as <-.
  destruct Ho as [|items l' triggered' Hta Hq Ea' Hsuf Hu Hst Hp Hcount Hca Ht| |items Hta Hq [?|Ea'] Hu Hst Hd Hp Hca Ht| |]; try congruence.
  - rewrite Ea in Ea'. injection Ea' as <- <-. destruct triggered; cbn in Hcount.
    + destruct Hcount as (Hc & Hlt & Hperm). apply (ok_downloading _ _ items); cbn; try done; [intros Ed; rewrite Ed in Hlt; cbn in Hlt; lia|].
      by rewrite app_nil_r in Hperm.
    + apply call_failed; cbn; try done. right. lia.
  - rewrite Ea in Ea'. injection Ea' as ->. apply (ok_success _ _ items); cbn; try done. by left.
Qed.

(** The last download completes. *)
Lemma last_download_ok n s items item r j status : to_add s = O -> queries s = O -> adding s = NotStarting \/ adding s = Starting [] true ->
  user_callback_ (download_job s) = true -> started n (answers s) (download_job s) (completions s) (statuses s) items -> prefetch_result_ (download_job s) = results (completions s) ->
  calls s = [] -> thrown s = false -> downloads s = [item] -> (completions s).*1 ++ [item] ≡ₚ items.*1 ->
  CompleteItem item r (download_job s) = (j, status, Some (append_result r item (prefetch_result_ (download_job s)))) ->
  ok n (user_call (inl (append_result r item (prefetch_result_ (download_job s))))
    (mkRun (sink s) (cancelled s) (to_add s) (queries s) (query_job s) (adding s) [] j (calls s) (statuses s ++ [status]) (thrown s)
       (answers s) (completions s ++ [(item, r)]))).
Proof.
  intros Hta Hq Ha Hu Hst Hp Hca Ht Hd Hperm E. destruct (CompleteItem_spec _ _ _ _ _ _ E) as (Hj & _ & _).
  pose proof (CompleteItem_started _ _ _ _ _ _ _ _ _ _ _ Hst E) as Hst'.
  match goal with |- ok n (user_call ?r ?x) => destruct (user_call_once r x) as (d & Hd1 & _ & Hd3 & Hd4 & Hd5 & ->) end; [cbn; congruence|].
  apply (ok_success _ _ items); cbn in *; try done.
  - destruct Hst' as [H1 H2 H3 H4]. split; cbn in *; [done|congruence|by rewrite Hd4, Hd5|done].
  - by rewrite fmap_app.
  - by rewrite results_snoc, <- Hp, Hca.
Qed.

Lemma download_completes_ok n s i r s' : ok n s -> act (DownloadCompletes i r) s = Some s' -> ok n s'.
Proof.
  intros Ho E. cbn in E. destruct (downloads s !! i) as [item|] eqn:Ei; [|done]. cbn in E.
  destruct (CompleteItem item r (download_job s)) as [[j status] res] eqn:Ec. destruct (CompleteItem_spec _ _ _ _ _ _ Ec) as (Hj & Hcj & Hres).
  pose proof (delete_perm _ _ _ Ei) as Hdel. pose proof (Permutation_length Hdel) as Hlen. cbn in Hlen.
  destruct Ho as [|items l triggered Hta Hq Ea Hsuf Hu Hst Hp Hcount Hca Ht|items Hta Hq Ea Hu Hst Hp Hcount Hne Hperm Hca Ht|items Hta Hq Ea Hu Hst Hd|? ? ? ? ? Hd|e Hta Hq Ea Hu Hd Hca Ht];
    try (rewrite Hd in Ei; done); try (match goal with H : downloads s = [] |- _ => rewrite H in Ei; done end).
  - destruct triggered.
    + destruct Hcount as (Hc & Hlt & Hperm). destruct (Z.eqb_spec (download_task_count_ (download_job s)) 1) as [E1|E1].
      * subst res. injection E as <-. assert (l = [] /\ delete i (downloads s) = []) as [-> Ed].
        { split; [destruct l; [done|cbn in Hc; lia]|]. apply nil_length_inv. lia. }
        rewrite Ed in Hdel |- *. apply Permutation_singleton_l in Hdel.
        eapply (last_download_ok n s items); try done; [by right|]. rewrite <- Hdel, app_nil_r in Hperm. done.
      * destruct Hres as [-> Hr]. injection E as <-. pose proof (CompleteItem_started _ _ _ _ _ _ _ _ _ _ _ Hst Ec) as Hst'.
        apply (ok_adding _ _ items l true); cbn; try done; [congruence|by rewrite results_snoc, Hr, Hp|]. split_and!; [lia|lia|].
        rewrite fmap_app, <- Hperm. by apply move_perm.
    + destruct (Z.eqb_spec (download_task_count_ (download_job s)) 1) as [E1|E1]; [lia|]. destruct Hres as [-> Hr]. injection E as <-.
      pose proof (CompleteItem_started _ _ _ _ _ _ _ _ _ _ _ Hst Ec) as Hst'.
      apply (ok_adding _ _ items l false); cbn; try done; [congruence|by rewrite results_snoc, Hr, Hp|lia].
  - destruct (Z.eqb_spec (download_task_count_ (download_job s)) 1) as [E1|E1].
    + subst res. injection E as <-. assert (delete i (downloads s) = []) as Ed by (apply nil_length_inv; lia).
      rewrite Ed in Hdel |- *. apply Permutation_singleton_l in Hdel. eapply (last_download_ok n s items); try done; [by left|].
      by rewrite <- Hdel in Hperm.
    + destruct Hres as [-> Hr]. injection E as <-. pose proof (CompleteItem_started _ _ _ _ _ _ _ _ _ _ _ Hst Ec) as Hst'.
      apply (ok_downloading _ _ items); cbn; try done; [congruence|by rewrite results_snoc, Hr, Hp|lia| |].
      * intros Ed. rewrite Ed in Hlen. cbn in Hlen. lia.
      * rewrite fmap_app, <- Hperm. pose proof (move_perm (completions s).*1 (downloads s) [] i item Ei) as Hmv. by rewrite !app_nil_r in Hmv.
  - destruct Hd as [Hd|Hd]; [by rewrite Hd in Ei|]. destruct (Z.eqb_spec (download_task_count_ (download_job s)) 1) as [E1|E1]; [lia|].
    destruct Hres as [-> Hr]. injection E as <-. apply (ok_failed _ _ e); cbn; try done; [congruence|right; lia].
Qed.

Lemma act_ok n s a s' : ok n s -> act a s = Some s' -> ok n s'.
Proof.
  intros Ho E. destruct a.
  - by eapply add_query_ok.
  - by eapply query_completes_ok.
  - by eapply add_download_ok.
  - by eapply downloads_added_ok.
  - by eapply download_completes_ok.
  - injection E as <-. by apply set_control_ok.
  - injection E as <-. by apply set_control_ok.
Qed.

Lemma acts_ok n l s s' : ok n s -> acts l s = Some s' -> ok n s'.
Proof.
  revert s. induction l as [|a l IH]; intros s Ho E; [by injection E as <-|]. cbn in E. destruct (act a s) as [s1|] eqn:Ea; [|done].
  eapply IH; [|exact E]. by eapply act_ok.
Qed.

Lemma Prefetch_ok k b n : (0 < n)%nat -> ok n (Prefetch k b n).
Proof.
  intros Hn. unfold Prefetch. destruct b.
  - apply call_failed; try done. by left.
  - apply ok_querying; cbn; try done; lia.
Qed.

(** *** Progress and termination *)

(** The actions that the prefetch itself does. *)
Definition works (a : action) : Prop := match a with CancelPrefetch | CloseSink => False | _ => True end.

Lemma query_completes_some n s m r : ok n s -> queries s = S m -> is_Some (act (QueryCompletes r) s).
Proof.
  intros Ho Eq. cbn [act]. rewrite Eq. destruct Ho; try congruence.
  destruct (complete_query_ok n (to_add s + m) (set_queries (to_add s) m s) r) as (s1 & -> & _); cbn; try done; try lia; by eexists.
Qed.

Lemma works_on n s : ok n s -> ~ finished s -> exists a, works a /\ is_Some (act a s).
Proof.
  intros Ho Hf. destruct (to_add s) as [|m] eqn:Ea.
  - destruct (queries s) as [|q] eqn:Eq.
    + destruct (adding s) as [|[|[item h] l] triggered] eqn:Es.
      * destruct (downloads s) as [|item ds] eqn:Ed; [by destruct Hf|]. exists (DownloadCompletes 0 (without_statistics (inr Canceled))). split; [done|].
        cbn [act]. rewrite Ed. cbn. destruct (CompleteItem _ _ _) as [[] ?]. by eexists.
      * exists DownloadsAdded. split; [done|]. cbn. rewrite Es. by eexists.
      * exists AddDownload. split; [done|]. cbn. rewrite Es. by eexists.
    + exists (QueryCompletes (without_statistics (inr Canceled))). split; [done|]. by eapply query_completes_some.
  - exists AddQuery. split; [done|]. cbn [act]. rewrite Ea. destruct (AddTaskImpl (sink s)); [by eexists|]. destruct Ho; try congruence.
    destruct (complete_query_ok n (m + queries s) (set_queries m (queries s) s) (without_statistics (inr Canceled))) as (s1 & -> & _); cbn; try done; try lia; by eexists.
Qed.

(** The queries that are left, and what is left of the downloads. *)
Definition query_work (s : run) : nat := 2 * to_add s + queries s.
Definition download_work (s : run) : nat := match adding s with Starting l _ => S (2 * length l) | NotStarting => 0 end + length (downloads s).

Lemma user_call_queries r s : to_add (user_call r s) = to_add s /\ queries (user_call r s) = queries s /\ adding (user_call r s) = adding s /\
  downloads (user_call r s) = downloads s.
Proof. unfold user_call. by destruct (OnPrefetchCompleted _). Qed.

Lemma complete_query_work r s s' : complete_query r s = Some s' -> query_work s' = query_work s.
Proof.
  unfold complete_query. destruct (CompleteQuery r (query_job s)) as [[j next]|]; [|done]. cbn. intros [= <-]. unfold query_work.
  destruct next as [|x|items]; [done| |].
  - match goal with |- context [user_call ?r ?x] => destruct (user_call_queries r x) as (-> & -> & _) end. done.
  - destruct (cancelled s); [|done]. match goal with |- context [user_call ?r ?x] => destruct (user_call_queries r x) as (-> & -> & _) end. done.
Qed.

Lemma work_decreases a s s' : works a -> act a s = Some s' ->
  (query_work s' < query_work s)%nat \/ query_work s' = query_work s /\ (download_work s' < download_work s)%nat.
Proof.
  intros Hw E. destruct a as [|r| | |i r| |]; try done; cbn in E.
  - left. destruct (to_add s) as [|m] eqn:Ea; [done|]. destruct (AddTaskImpl (sink s)).
    + injection E as <-. unfold query_work. cbn. lia.
    + rewrite (complete_query_work _ _ _ E). unfold query_work. cbn. lia.
  - left. destruct (queries s) as [|m] eqn:Eq; [done|]. rewrite (complete_query_work _ _ _ E). unfold query_work. cbn. lia.
  - right. destruct (adding s) as [|[|[item h] l] triggered] eqn:Es; try done. injection E as <-.
    destruct (AddTaskImpl (sink s)); (split; [done|]); unfold download_work; rewrite Es; cbn; rewrite ?length_app; cbn; lia.
  - right. destruct (adding s) as [|[|] triggered] eqn:Es; try done. injection E as <-. destruct triggered.
    + split; [done|]. unfold download_work. rewrite Es. cbn. lia.
    + unfold query_work, download_work. match goal with |- context [user_call ?r ?x] => destruct (user_call_queries r x) as (-> & -> & -> & ->) end.
      rewrite Es. cbn. lia.
  - right. destruct (downloads s !! i) as [item|] eqn:Ei; [|done]. cbn in E. destruct (CompleteItem _ _ _) as [[j status] res]. injection E as <-.
    pose proof (Permutation_length (delete_perm _ _ _ Ei)) as Hl. cbn in Hl. unfold query_work, download_work.
    destruct res; [match goal with |- context [user_call ?r ?x] => destruct (user_call_queries r x) as (-> & -> & -> & ->) end|]; cbn; lia.
Qed.

(** C2: a prefetch calls the user's callback exactly once, whatever the queries and the
    downloads answer, in whatever order and on whatever threads they complete, and also
    when it is cancelled or the sink is closed at any time: it never calls it a second
    time, which would throw; as long as it has not come to its end something is left that
    goes on; and at its end the callback was called. *)
Theorem prefetch_called_once k b n l s : (0 < n)%nat -> acts l (Prefetch k b n) = Some s ->
  thrown s = false /\ (length (calls s) <= 1)%nat /\ (finished s -> length (calls s) = 1%nat) /\
  (~ finished s -> exists a, works a /\ is_Some (act a s)).
Proof.
  intros Hn E. pose proof (acts_ok n l _ _ (Prefetch_ok k b n Hn) E) as Ho. split_and!; [by destruct Ho| | |by apply (works_on n)].
  - destruct Ho; match goal with H : calls s = _ |- _ => rewrite H end; cbn; lia.
  - intros (Ha & Hq & Hs & Hd). destruct Ho; try congruence; try lia; match goal with H : calls s = _ |- _ => by rewrite H end.
Qed.

(** C4: a prefetch ends: there is no infinite sequence of its steps, however they are
    interleaved. *)
Theorem prefetch_ends : well_founded (fun s' s => exists a, works a /\ act a s = Some s').
Proof.
  assert (H : forall q d s, (query_work s <= q)%nat -> (query_work s = q -> download_work s <= d)%nat -> Acc (fun s' s => exists a, works a /\ act a s = Some s') s).
  { induction q as [q IHq] using lt_wf_ind. induction d as [d IHd] using lt_wf_ind. intros s Hq Hd. constructor. intros s' (a & Hw & E).
    destruct (work_decreases a s s' Hw E) as [Hlt|[Heq Hlt]].
    - apply (IHq (query_work s') ltac:(lia) (download_work s')); lia.
    - destruct (decide (query_work s = q)) as [Es|Es].
      + apply (IHd (download_work s')); lia.
      + apply (IHq (query_work s') ltac:(lia) (download_work s')); lia. }
  intros s. by apply (H (query_work s) (download_work s)).
Qed.

(** C3: what a successful prefetch reports, and what it reports on the way: each of the
    items that the queries together found and the filter left was downloaded exactly once,
    the result is made of the responses of these downloads in the order in which they
    completed, and the statuses count the completed downloads from one up to the number of
    the items, one after the other. *)
Theorem prefetch_result k b n l s r : (0 < n)%nat -> acts l (Prefetch k b n) = Some s -> calls s = [inl r] ->
  exists items, chosen n (answers s) items /\ (completions s).*1 ≡ₚ items.*1 /\ r = results (completions s) /\
    (fun st => (prefetched st, total_to_prefetch st)) <$> statuses s = (fun i => (i, Z.of_nat (length items))) <$> seqZ 1 (Z.of_nat (length items)).
Proof.
  intros Hn E Ec. pose proof (acts_ok n l _ _ (Prefetch_ok k b n Hn) E) as Ho.
  destruct Ho as [| | |items Hta Hq Ha Hu Hst Hd Hp Hca Ht|Hta Hq Ha Hu Hch Hd Hcs Hsts Hca Ht|]; try congruence.
  - exists items. destruct Hst as [Hch Htot Hc Hst]. split_and!; [done|done|congruence|].
    rewrite Hst. do 3 f_equal. pose proof (Permutation_length Hp) as Hl. by rewrite !length_fmap in Hl.
  - exists []. rewrite Hcs, Hsts. rewrite Hca in Ec. injection Ec as <-. by split_and!.
Qed.
End jobs.

#[global] Arguments action : clear implicits.
#[global] Arguments run : clear implicits.

(** ** The prefetch of tiles *)

(** [PrefetchTileResult]: the tile and the error of its download. *)
Abbreviation PrefetchTilesResult := (list (TileKey * option ApiError)).

Definition append_tile_result (response : ExtendedResponse DataResult) (item : TileKey) (prefetch_result : PrefetchTilesResult) : PrefetchTilesResult :=
  prefetch_result ++ [(item, match response.1 with inl _ => None | inr e => Some e end)].

(** [std::inserter] into a map keeps what the map has. *)
Definition insert_tiles (tiles items : SubQuadsResult) : SubQuadsResult := tiles ∪ items.
Definition tiles_of (tiles : SubQuadsResult) : list (TileKey * str) := (fun t => (t, default [] (tiles !! t))) <$> keys_in_order tiles.

(** [QueryMetadataJob::CheckIfFail]: one failed query fails the prefetch. *)
Definition CheckIfFail_tiles (query_errors : list ApiError) (query_size : Z) : bool := match query_errors with [] => false | _ => true end.

Definition PrefetchTiles_act (filter : SubQuadsResult -> SubQuadsResult) := act append_tile_result [] insert_tiles tiles_of (Some filter) CheckIfFail_tiles.

(** ** The prefetch of partitions *)

Abbreviation PrefetchPartitionsResult := (list str).
Abbreviation PartitionDataHandleResult := (list (str * str)).

Definition append_partition_result (response : ExtendedResponse DataResult) (item : str) (prefetch_result : PrefetchPartitionsResult)
  : PrefetchPartitionsResult := if is_success response then prefetch_result ++ [item] else prefetch_result.

(** [std::inserter] at the begin of a vector. *)
Definition insert_partitions (partitions items : PartitionDataHandleResult) : PartitionDataHandleResult := items ++ partitions.

(** [QueryPartitionsJob::CheckIfFail]: the prefetch fails when all queries do. *)
Definition CheckIfFail_partitions (query_errors : list ApiError) (query_size : Z) : bool := Z.of_nat (length query_errors) =? query_size.

Definition PrefetchPartitions_act :=
  act append_partition_result [] insert_partitions (fun items => items) None CheckIfFail_partitions.

(** [call_user_callback] of the client. *)
Definition call_user_callback (result : ApiResponse PrefetchPartitionsResult) : ApiResponse PrefetchPartitionsResult :=
  match result with
  | inl [] => inr (ApiError_of_code Unknown (chars "No partitions were prefetched.") false)
  | _ => result
  end.

Definition kQueryPartitionsMaxSize : nat := 100.

(** The number of the queries, and their partitions; [fuel] is the number of partitions. *)
Definition query_size (partitions : list str) : nat :=
  length partitions / kQueryPartitionsMaxSize + (if (0 <? length partitions mod kQueryPartitionsMaxSize)%nat then 1 else 0).
Fixpoint batches (fuel : nat) (partitions : list str) : list (list str) :=
  match partitions, fuel with
  | [], _ => []
  | _, O => []
  | _, S fuel => take kQueryPartitionsMaxSize partitions :: batches fuel (drop kQueryPartitionsMaxSize partitions)
  end.

Lemma batches_count fuel partitions : (length partitions <= fuel)%nat -> length (batches fuel partitions) = query_size partitions.
Proof.
  revert partitions. induction fuel as [|fuel IH]; intros [|p ps] Hf; try done; [cbn in Hf; lia|].
  cbn [batches length]. set (l := p :: ps) in *. assert (Hl : (0 < length l)%nat) by (cbn; lia).
  rewrite IH by (rewrite length_drop; unfold kQueryPartitionsMaxSize; lia). unfold query_size. rewrite length_drop. unfold kQueryPartitionsMaxSize.
  destruct (decide (100 <= length l)%nat) as [Hge|Hlt].
  - replace (length l) with (length l - 100 + 1 * 100)%nat at 3 4 by lia. rewrite Nat.div_add, Nat.Div0.mod_add by lia. lia.
  - rewrite (Nat.div_small (length l)), (Nat.mod_small (length l)) by lia. replace (length l - 100)%nat with 0%nat by lia. cbn.
    by destruct (length l).
Qed.

(** The batches are the partitions, each one is not empty and has at most a hundred. *)
Lemma batches_spec fuel partitions : (length partitions <= fuel)%nat ->
  mjoin (batches fuel partitions) = partitions /\ Forall (fun b => (0 < length b <= kQueryPartitionsMaxSize)%nat) (batches fuel partitions).
Proof.
  revert partitions. induction fuel as [|fuel IH]; intros [|p ps] Hf; try done; [cbn in Hf; lia|].
  cbn [batches]. set (l := p :: ps) in *. assert (Hl : (0 < length l)%nat) by (cbn; lia).
  destruct (IH (drop kQueryPartitionsMaxSize l)) as [Ej Hb]; [rewrite length_drop; unfold kQueryPartitionsMaxSize; lia|].
  split; [transitivity (take kQueryPartitionsMaxSize l ++ mjoin (batches fuel (drop kQueryPartitionsMaxSize l))); [done|rewrite Ej; apply take_drop]|]. constructor; [|done]. rewrite length_take. unfold kQueryPartitionsMaxSize. lia.
Qed.

(** the queries of a prefetch of partitions: the partitions of the request, in their
    order, in as many lists as the job is told to wait for, none of them empty or longer
    than the service takes. *)
Theorem partitions_in_batches partitions :
  let queries := batches (length partitions) partitions in
  mjoin queries = partitions /\ length queries = query_size partitions /\ Forall (fun b => (0 < length b <= kQueryPartitionsMaxSize)%nat) queries.
Proof. intros queries. destruct (batches_spec (length partitions) partitions) as [? ?]; [done|]. split_and!; [done|by apply batches_count|done]. Qed.

Lemma tiles_fail es n : 0 < n -> CheckIfFail_tiles es n = true -> es <> [].
Proof. by destruct es. Qed.

Lemma partitions_fail es n : 0 < n -> CheckIfFail_partitions es n = true -> es <> [].
Proof. intros Hn Hf ->. apply Z.eqb_eq in Hf. cbn in Hf. lia. Qed.

(** ** Concrete inputs: two roots, of which one is found twice, three tiles *)

Module jobs_sample.
Definition tile (l r c : Z) : TileKey := mkTileKey r c l.
Definition found (l : list (TileKey * str)) : ExtendedResponse SubQuadsResult := without_statistics (inl (list_to_map l)).
Definition loaded : ExtendedResponse DataResult := (inl None, mkStatistics 1 10).
Definition failed : ExtendedResponse DataResult := (inr (not_found "no data"), mkStatistics 1 1).
Definition actions : list (action SubQuadsResult) :=
  [AddQuery; AddQuery; QueryCompletes (found [(tile 1 0 0, chars "a"); (tile 1 0 1, chars "b")]);
   QueryCompletes (found [(tile 1 0 1, chars "c"); (tile 2 0 0, chars "d"); (tile 9 0 0, chars "e")]);
   AddDownload; AddDownload; DownloadCompletes 1 loaded; AddDownload; DownloadCompletes 1 failed; DownloadsAdded; DownloadCompletes 0 loaded].
Definition filter (tiles : SubQuadsResult) : SubQuadsResult := delete (tile 9 0 0) tiles.
Definition start : run TileKey SubQuadsResult PrefetchTilesResult := Prefetch [] ∅ (mkTaskSink true false) false 2.
Definition tile_acts := acts append_tile_result [] insert_tiles tiles_of (Some filter) CheckIfFail_tiles.
Definition final : run TileKey SubQuadsResult PrefetchTilesResult := default start (tile_acts actions start).
End jobs_sample.
Import jobs_sample.

Example sample_result : calls final = [inl [(tile 1 0 1, None); (tile 2 0 0, Some (not_found "no data")); (tile 1 0 0, None)]] /\
  (fun st => (prefetched st, total_to_prefetch st, bytes_transferred st)) <$> statuses final = [(1, 3, 11); (2, 3, 13); (3, 3, 24)].
Proof. split; vm_compute; reflexivity. Qed.

Lemma prefetch_called_once_witness : thrown final = false /\ (length (calls final) <= 1)%nat /\ (finished final -> length (calls final) = 1%nat) /\
  (~ finished final -> exists a, works a /\ is_Some (PrefetchTiles_act filter a final)).
Proof.
  apply (prefetch_called_once append_tile_result [] ∅ insert_tiles tiles_of (Some filter) CheckIfFail_tiles tiles_fail (mkTaskSink true false) false 2 actions final).
  - lia.
  - vm_compute. reflexivity.
Defined.

Lemma prefetch_result_witness : exists items,
  chosen ∅ insert_tiles tiles_of (Some filter) CheckIfFail_tiles 2 (answers final) items /\ (completions final).*1 ≡ₚ items.*1 /\
  [(tile 1 0 1, None); (tile 2 0 0, Some (not_found "no data")); (tile 1 0 0, None)] = results append_tile_result [] (completions final) /\
  (fun st => (prefetched st, total_to_prefetch st)) <$> statuses final = (fun i => (i, Z.of_nat (length items))) <$> seqZ 1 (Z.of_nat (length items)).
Proof.
  apply (prefetch_result append_tile_result [] ∅ insert_tiles tiles_of (Some filter) CheckIfFail_tiles tiles_fail (mkTaskSink true false) false 2 actions final).
  - lia.
  - vm_compute. reflexivity.
  - vm_compute. reflexivity.
Defined.
