(* ===== verification/LayerTasks.v ===== *)
(** * The tasks of the versioned layer client

    Model of the asynchronous operations of src/VersionedLayerClientImpl.cpp of
    olp-cpp-sdk-dataservice-read: what each of their tasks does with the repositories, and
    the prefetch of tiles and of partitions, which puts the queries and downloads into the
    jobs of PrefetchJobs.v.

    [catalog_version_] is an atomic that other threads may set at any time; it is part of
    the outside of the world, and the class [ClientVersion] has its two operations.  The
    task that runs an operation and calls its callback is TaskContext.v.  The cache of the
    settings is never null, since the constructor makes one.  A prefetch is run here as
    without a task scheduler, where each task is executed where it is added; the
    interleavings with a scheduler are those of PrefetchJobs.v. *)

From stdpp Require Import sorting.
From S2P Require Import Prelude TileKey QuadTreeIndex QuadTreeJson Hrn Json ReadModels LruCache InMemoryCache ProtectedKeyList DiskCache DefaultCache.
From S2P Require Import DefaultCacheInvariant DefaultCacheOperations KeyValueCache KeyGenerator CacheRepositories LayerClient.
From S2P Require Import Http World RecordedCache ApiLookup ReadApis Repositories ReadIntegrity PrefetchTiles PrefetchJobs.
Import Network Response.

(** [std::atomic<int64_t>]: [load], and [compare_exchange_weak] of the expected and the
    desired value with what it leaves in the expected one. *)
Class ClientVersion (S N : Type) := mkClientVersion {
  version_load : state (World S N) Z;
  version_compare_exchange_weak : Z -> Z -> state (World S N) (bool * Z) }.

Definition InvalidArgumentError (message : string) : ApiError := ApiError_of_code InvalidArgument (chars message) false.
Definition kCacheWithUpdateError : ApiError := InvalidArgumentError "CacheWithUpdate option can not be used for versioned layer".
Definition kTileKeyError : ApiError := InvalidArgumentError "Tile key is invalid".

Record AggregatedDataResult := mkAggregatedDataResult { aggregated_tile : TileKey; aggregated_data : DataResult }.

Record PrefetchPartitionsRequest := mkPrefetchPartitionsRequest {
  prefetch_partition_ids : list str;
  prefetch_partitions_billing_tag : option str }.

Section tasks.
Context `{Models} {S N : Type} `{KeyValueCache S Model} `{Online S N} `{Hashes} `{ClientVersion S N}.
Abbreviation W := (World S N).
Context (c : RepositoryClient) (layer : str).

Definition GetVersion (billing_tag : option str) (fetch_options : FetchOptions) : state W (ApiResponse VersionResponse) :=
  version ← version_load;
  if negb (version =? kInvalidVersion) then mret (inl (mkVersionResponse version))
  else
    response ← GetLatestVersion c (mkCatalogVersionRequest (-1) billing_tag fetch_options);
    match response with
    | inr _ => mret response
    | inl result =>
        '(exchanged, version) ← version_compare_exchange_weak version (VersionResponse_version result);
        mret (if exchanged : bool then response else inl (mkVersionResponse version))
    end.

(** What a task goes on with when it has a version. *)
Definition with_version {R} (billing_tag : option str) (fetch_option : FetchOptions) (go_on : Z -> state W (ExtendedResponse R))
  : state W (ExtendedResponse R) :=
  version_response ← GetVersion billing_tag fetch_option;
  match version_response with
  | inr e => mret (without_statistics (inr e))
  | inl version => go_on (VersionResponse_version version)
  end.

(** The task of [GetPartitions]. *)
Definition partitions_task (request : PartitionsRequest) : state W (ExtendedResponse Partitions) :=
  let fetch_option := partitions_fetch_option request in
  if bool_decide (fetch_option = CacheWithUpdate) then mret (without_statistics (inr kCacheWithUpdateError))
  else with_version (partitions_billing_tag request) fetch_option (fun version => GetVersionedPartitionsExtendedResponse c layer request version false).

(** The task of [GetData] of a partition. *)
Definition data_task (request : DataRequest) : state W (ExtendedResponse DataResult) :=
  let get version := GetVersionedData c layer request version (propagate_all_cache_errors (Repositories.settings_ c)) in
  if bool_decide (data_fetch_option request = CacheWithUpdate) then mret (without_statistics (inr kCacheWithUpdateError))
  else match data_handle_ request with
       | None => with_version (data_billing_tag request) (data_fetch_option request) get
       | Some _ => get (-1)
       end.

(** The task of [QuadTreeIndex]. *)
Definition quad_tree_task (tile_request : TileRequest) : state W (ExtendedResponse Partitions) :=
  if negb (IsValid (tile_key_ tile_request)) then mret (without_statistics (inr kTileKeyError))
  else if bool_decide (tile_fetch_option tile_request = CacheWithUpdate) then mret (without_statistics (inr kCacheWithUpdateError))
  else with_version (tile_billing_tag tile_request) (tile_fetch_option tile_request) (fun version =>
    partition_response ← GetTile c layer tile_request (Some version) [kChecksum; kCrc; kDataSize];
    mret (match partition_response with
          | (inr e, payload) => (inr e, payload)
          | (inl partition, payload) => (inl (mkPartitions [partition]), payload)
          end)).

(** The task of [GetData] of a tile. *)
Definition tile_data_task (request : TileRequest) : state W (ExtendedResponse DataResult) :=
  if bool_decide (tile_fetch_option request = CacheWithUpdate) then mret (without_statistics (inr kCacheWithUpdateError))
  else if negb (IsValid (tile_key_ request)) then mret (without_statistics (inr kTileKeyError))
  else with_version (tile_billing_tag request) (tile_fetch_option request) (fun version => GetVersionedTile c layer request version).

(** The task of [GetAggregatedData]. *)
Definition aggregated_data_task (request : TileRequest) : state W (ExtendedResponse AggregatedDataResult) :=
  if bool_decide (tile_fetch_option request = CacheWithUpdate) then mret (without_statistics (inr kCacheWithUpdateError))
  else if negb (IsValid (tile_key_ request)) then mret (without_statistics (inr kTileKeyError))
  else with_version (tile_billing_tag request) (tile_fetch_option request) (fun version =>
    partition_response ← GetAggregatedTile c layer request (Some version);
    match partition_response with
    | (inr e, payload) => mret (inr e, payload)
    | (inl partition, payload) =>
        data_response ← GetBlobData c layer kBlobService partition (tile_fetch_option request) (tile_billing_tag request)
                          (propagate_all_cache_errors (Repositories.settings_ c));
        let aggregated_network_statistics := add_statistics payload data_response.2 in
        mret (match data_response.1 with
              | inr e => (inr e, aggregated_network_statistics)
              | inl data => (inl (mkAggregatedDataResult (FromHereTile (Partition_partition partition)) data), aggregated_network_statistics)
              end)
    end).

(** ** Prefetch *)

(** [download] of both prefetches; what is cached is moved to the front of the cache. *)
Definition download (billing_tag : option str) (version : Z) (data_handle : str) : state W (ExtendedResponse DataResult) :=
  match data_handle with
  | [] => mret (without_statistics (inr kPartitionIsEmpty))
  | _ =>
      is_cached ← timed (fun now => IsCached (data_cache c) now layer data_handle);
      if is_cached : bool then cached (PromoteInCache (data_cache c) layer data_handle);; mret (without_statistics (inl None))
      else GetVersionedData c layer (mkDataRequest None (Some data_handle) billing_tag OnlineIfNotFound) version true
  end.

(** A prefetch without a scheduler: a query completes where it is added, and so do the
    downloads that the last of them adds. *)
Section inline.
Context {Root Item Items PrefetchResult : Type}.
Context (step : action Items -> run Item Items PrefetchResult -> option (run Item Items PrefetchResult)).
Context (query : Root -> state W (ExtendedResponse Items)) (download_item : str -> state W (ExtendedResponse DataResult)).

Fixpoint inline_queries (roots : list Root) (s : run Item Items PrefetchResult) : state W (run Item Items PrefetchResult) :=
  match roots with
  | [] => mret s
  | root :: roots =>
      s ← lift (step AddQuery s);
      response ← query root;
      s ← lift (step (QueryCompletes response) s);
      inline_queries roots s
  end.

Fixpoint inline_downloads (items : list (Item * str)) (s : run Item Items PrefetchResult) : state W (run Item Items PrefetchResult) :=
  match items with
  | [] => lift (step DownloadsAdded s)
  | (_, data_handle) :: items =>
      s ← lift (step AddDownload s);
      response ← download_item data_handle;
      s ← lift (step (DownloadCompletes 0 response) s);
      inline_downloads items s
  end.

Definition inline_prefetch (roots : list Root) (s : run Item Items PrefetchResult) : state W (run Item Items PrefetchResult) :=
  s ← inline_queries roots s;
  match adding s with
  | Starting items _ => inline_downloads items s
  | NotStarting => mret s
  end.
End inline.

Definition inline_sink : TaskSink := mkTaskSink false false.

(** What the callbacks of a prefetch are called with. *)
Abbreviation Outcomes R := (list (ApiResponse R) * list PrefetchStatus)%type.

Definition outcomes {Item Items R} (s : run Item Items R) : Outcomes R := (calls s, statuses s).

(** *** Tiles *)

(** [request_only_input_tiles] *)
Definition request_only_input_tiles (request : PrefetchTilesRequest) : bool :=
  negb ((min_level_ request <=? max_level_ request) && (max_level_ request <? LevelCount) && (min_level_ request <? LevelCount)).

Definition prefetch_filter (request : PrefetchTilesRequest) : SubQuadsResult -> SubQuadsResult :=
  if request_only_input_tiles request then FilterTilesByList request else FilterTilesByLevel request.
Definition prefetch_filter_keys (request : PrefetchTilesRequest) : SubQuadsResult -> list TileKey :=
  if request_only_input_tiles request then FilterTileKeysByList request else FilterTileKeysByLevel request.

(** [query] of [PrefetchTiles]. *)
Definition query_tiles (request : PrefetchTilesRequest) (version : Z) (root : TileKey) : state W (ExtendedResponse SubQuadsResult) :=
  let billing_tag := prefetch_tiles_billing_tag request in
  response ← GetVersionedSubQuads c layer billing_tag root kQuadTreeDepth version;
  match response with
  | (inl tiles, statistics) =>
      if data_aggregation_enabled_ request then
        network_stats ← LoadAggregatedSubQuads c layer billing_tag root (prefetch_filter_keys request tiles) version;
        mret (inl tiles, add_statistics network_stats statistics)
      else mret response
  | _ => mret response
  end.

(** [PrefetchTiles]; [cancelled] is [context.IsCancelled()]. *)
Definition PrefetchTiles (request : PrefetchTilesRequest) (cancelled : bool) : state W (Outcomes PrefetchTilesResult) :=
  let fails_with error : Outcomes PrefetchTilesResult := ([inr error], []) in
  if cancelled then mret (fails_with Canceled)
  else match prefetch_tile_keys request with
  | [] => mret (fails_with (InvalidArgumentError "Empty tile key list"))
  | _ =>
      response ← GetVersion (prefetch_tiles_billing_tag request) OnlineIfNotFound;
      match response with
      | inr e => mret (fails_with e)
      | inl version_response =>
          let version := VersionResponse_version version_response in
          let only_input := request_only_input_tiles request in
          sliced_tiles ← lift (GetSlicedTiles (prefetch_tile_keys request) (if only_input then LevelCount else min_level_ request)
                                 (if only_input then LevelCount else max_level_ request));
          match keys_in_order sliced_tiles with
          | [] => mret (fails_with (InvalidArgumentError "TileKeys/levels mismatch"))
          | roots =>
              s ← inline_prefetch (PrefetchTiles_act (prefetch_filter request)) (query_tiles request version)
                    (download (prefetch_tiles_billing_tag request) version) roots (Prefetch [] ∅ inline_sink false (length roots));
              mret (outcomes s)
          end
      end
  end.

(** *** Partitions *)

(** [query] of [PrefetchPartitions]. *)
Definition query_partitions (request : PrefetchPartitionsRequest) (version : Z) (partitions : list str) : state W (ExtendedResponse PartitionDataHandleResult) :=
  let partitions_request := mkPartitionsRequest partitions [] (prefetch_partitions_billing_tag request) OnlineIfNotFound in
  response ← GetVersionedPartitionsExtendedResponse c layer partitions_request version true;
  mret (match response with
        | (inr e, payload) => (inr e, payload)
        | (inl result, payload) => (inl ((fun p => (Partition_partition p, Partition_data_handle p)) <$> Partitions_partitions result), payload)
        end).

Definition PrefetchPartitions (request : PrefetchPartitionsRequest) (cancelled : bool) : state W (Outcomes PrefetchPartitionsResult) :=
  let fails_with error : Outcomes PrefetchPartitionsResult := ([inr error], []) in
  if cancelled then mret (fails_with Canceled)
  else match prefetch_partition_ids request with
  | [] => mret (fails_with (InvalidArgumentError "Empty partitions list"))
  | partitions =>
      response ← GetVersion (prefetch_partitions_billing_tag request) OnlineIfNotFound;
      match response with
      | inr e => mret (fails_with e)
      | inl version_response =>
          let version := VersionResponse_version version_response in
          let queries := batches (length partitions) partitions in
          s ← inline_prefetch PrefetchPartitions_act (query_partitions request version)
                (download (prefetch_partitions_billing_tag request) version) queries (Prefetch [] [] inline_sink false (length queries));
          mret (call_user_callback <$> calls s, statuses s)
      end
  end.
End tasks.

(** ** The version of a client *)

Section version.
Context `{Models} {S N : Type} `{KeyValueCache S Model} `{Online S N} `{ClientVersion S N} (c : RepositoryClient).
Abbreviation W := (World S N).

(** [std::atomic] as far as this class uses it: other threads only set an invalid value,
    and a failed exchange leaves the value in the expected one. *)
Record atomic_version (version_of : W -> Z) : Prop := {
  load_reads w w' v : version_load w = Some (w', v) -> v = version_of w' /\ (version_of w <> kInvalidVersion -> version_of w' = version_of w);
  exchange_sets w w' desired exchanged expected : version_compare_exchange_weak kInvalidVersion desired w = Some (w', (exchanged, expected)) ->
    version_of w' = (if exchanged : bool then desired else expected) }.

(** C25: the version that an operation of a client works with is the version of the client,
    also when other threads set it in between; and a client that has a version keeps it,
    without asking the catalog, whatever the options of a request are. *)
Theorem GetVersion_consistent version_of billing_tag fetch_options w w' r : atomic_version version_of ->
  GetVersion c billing_tag fetch_options w = Some (w', inl r) ->
  VersionResponse_version r = version_of w' /\ (version_of w <> kInvalidVersion -> VersionResponse_version r = version_of w).
Proof.
  intros [Hload Hexchange] E. unfold GetVersion in E. apply bind_Some in E as ([w1 v] & Ev & E). cbn in E. destruct (Hload _ _ _ Ev) as [Hv Hkeep].
  destruct (Z.eqb_spec v kInvalidVersion) as [->|Hne]; cbn [negb] in E.
  - apply bind_Some in E as ([w2 latest] & _ & E). cbn in E. destruct latest as [latest|]; [|by injection E].
    apply bind_Some in E as ([w3 [exchanged version]] & Ex & E). injection E as <- E. apply Hexchange in Ex. split.
    + destruct exchanged; injection E as <-; cbn; by rewrite Ex.
    + intros Hw. exfalso. apply Hw. rewrite <- (Hkeep Hw). congruence.
  - injection E as <- <-. cbn. split; [done|]. intros Hw. rewrite Hv. by apply Hkeep.
Qed.

(** the exchange may fail although the client has no version, since it is the weak
    one outside of a loop: the task then goes on with the invalid version, as if the
    catalog had given it. *)
Theorem GetVersion_spurious billing_tag fetch_options w w1 w2 w3 latest :
  version_load w = Some (w1, kInvalidVersion) ->
  GetLatestVersion c (mkCatalogVersionRequest (-1) billing_tag fetch_options) w1 = Some (w2, inl latest) ->
  version_compare_exchange_weak kInvalidVersion (VersionResponse_version latest) w2 = Some (w3, (false, kInvalidVersion)) ->
  GetVersion c billing_tag fetch_options w = Some (w3, inl (mkVersionResponse kInvalidVersion)).
Proof.
  intros E1 E2 E3. unfold GetVersion. eapply run_bind; [exact E1|]. cbn. eapply run_bind; [exact E2|]. cbn. by eapply run_bind.
Qed.
End version.

(** ** Queries and downloads that complete where they are added *)

Section schedule.
Context {Item Items PrefetchResult : Type}.
Context (append_result : ExtendedResponse DataResult -> Item -> PrefetchResult -> PrefetchResult) (no_result : PrefetchResult).
Context (no_items : Items) (insert_items : Items -> Items -> Items) (items_of : Items -> list (Item * str)).
Context (filter_ : option (Items -> Items)) (CheckIfFail : list ApiError -> Z -> bool).
Context (Hfail : forall es n, 0 < n -> CheckIfFail es n = true -> es <> []).

Abbreviation step := (act append_result no_result insert_items items_of filter_ CheckIfFail).
Abbreviation job_ok := (ok append_result no_result no_items insert_items items_of filter_ CheckIfFail).
Abbreviation state_of := (run Item Items PrefetchResult).

Lemma user_call_keeps r (s : state_of) : sink (user_call r s) = sink s /\ answers (user_call r s) = answers s /\ completions (user_call r s) = completions s.
Proof. unfold user_call. by destruct (OnPrefetchCompleted _). Qed.

(** A run with [k] queries to add, after the completions of [rs]. *)
Record querying (n k : nat) (rs : list (ExtendedResponse Items)) (s : state_of) : Prop := {
  querying_ok : job_ok n s;
  querying_sink : sink s = inline_sink;
  querying_left : to_add s = k /\ queries s = O;
  querying_answers : answers s = rs;
  querying_fresh : downloads s = [] /\ completions s = [];
  querying_triggered l triggered : adding s = Starting l triggered -> triggered = true }.

Lemma complete_query_fields r (s s' : state_of) : complete_query no_result insert_items items_of filter_ CheckIfFail r s = Some s' ->
  sink s' = sink s /\ to_add s' = to_add s /\ queries s' = queries s /\ answers s' = answers s ++ [r] /\ downloads s' = downloads s /\ completions s' = completions s /\
  (adding s' = adding s \/ adding s' = NotStarting \/ exists items, adding s' = Starting items true).
Proof.
  unfold complete_query. destruct (CompleteQuery _ _ _ _ _ r (query_job s)) as [[j next]|]; [|done]. cbn. intros [= <-].
  assert (Hcall : forall x (u : state_of), sink (user_call x u) = sink u /\ to_add (user_call x u) = to_add u /\ queries (user_call x u) = queries u /\
    answers (user_call x u) = answers u /\ downloads (user_call x u) = downloads u /\ completions (user_call x u) = completions u /\ adding (user_call x u) = adding u).
  { intros x u. destruct (user_call_queries x u) as (? & ? & ? & ?). destruct (user_call_keeps x u) as (? & ? & ?). by split_and!. }
  destruct next as [|x|items]; [cbn; by split_and!; [..|left]| |destruct (cancelled s)].
  - match goal with |- context [user_call x ?u] => destruct (Hcall x u) as (-> & -> & -> & -> & -> & -> & ->) end. cbn. by split_and!; [..|left].
  - match goal with |- context [user_call ?x ?u] => destruct (Hcall x u) as (-> & -> & -> & -> & -> & -> & ->) end. cbn. by split_and!; [..|right; left].
  - cbn. split_and!; [done..|]. right. right. by eexists.
Qed.

Lemma inline_query n k rs s r : querying n (S k) rs s -> exists s1 s2, step AddQuery s = Some s1 /\ step (QueryCompletes r) s1 = Some s2 /\ querying n k (rs ++ [r]) s2.
Proof.
  intros [Ho Hs [Ha Hq] Hr [Hd Hc] Ht]. exists (set_queries k 1 s). assert (E1 : step AddQuery s = Some (set_queries k 1 s)).
  { unfold act. rewrite Ha, Hs. cbn. by rewrite Hq. }
  pose proof (act_ok _ _ _ _ _ _ _ Hfail n s AddQuery _ Ho E1) as Ho1.
  destruct (query_completes_some _ _ _ _ _ _ _ Hfail n (set_queries k 1 s) 0 r Ho1 eq_refl) as [s2 E2]. exists s2. split_and!; [done..|].
  pose proof (act_ok _ _ _ _ _ _ _ Hfail n _ _ _ Ho1 E2) as Ho2. destruct (complete_query_fields r _ s2 E2) as (F1 & F2 & F3 & F4 & F5 & F6 & F7).
  cbn in F1, F2, F3, F4, F5, F6, F7. split; [done|congruence|by split|congruence|split; congruence|].
  intros l triggered El. destruct F7 as [F7|[F7|[items F7]]]; [apply (Ht l); congruence|congruence|congruence].
Qed.

(** A run that adds the downloads [l]. *)
Record loading (n : nat) (rs : list (ExtendedResponse Items)) (l : list (Item * str)) (cs : list (Item * ExtendedResponse DataResult)) (s : state_of) : Prop := {
  loading_ok : job_ok n s;
  loading_sink : sink s = inline_sink;
  loading_left : to_add s = O /\ queries s = O /\ downloads s = [];
  loading_adding : adding s = Starting l true;
  loading_answers : answers s = rs;
  loading_completions : completions s = cs }.

Lemma inline_download n rs item h l cs s r : loading n rs ((item, h) :: l) cs s ->
  exists s1 s2, step AddDownload s = Some s1 /\ step (DownloadCompletes 0 r) s1 = Some s2 /\ loading n rs l (cs ++ [(item, r)]) s2.
Proof.
  intros [Ho Hs (Hta & Hq & Hd) Ha Hr Hc]. exists (set_adding (Starting l true) [item] s).
  assert (E1 : step AddDownload s = Some (set_adding (Starting l true) [item] s)) by (unfold act; by rewrite Ha, Hs, Hd).
  pose proof (act_ok _ _ _ _ _ _ _ Hfail n _ _ _ Ho E1) as Ho1.
  destruct (act append_result no_result insert_items items_of filter_ CheckIfFail (DownloadCompletes 0 r) (set_adding (Starting l true) [item] s)) as [s2|] eqn:E2.
  2: { cbn in E2. by destruct (CompleteItem _ _ _ _ _) as [[] ?]. }
  exists s2. split_and!; [done..|]. pose proof (act_ok _ _ _ _ _ _ _ Hfail n _ _ _ Ho1 E2) as Ho2.
  cbn in E2. destruct (CompleteItem _ _ _ _ _) as [[j status] res]. injection E2 as E2. destruct res as [x|].
  - match type of E2 with user_call ?x ?u = _ => destruct (user_call_queries x u) as (F1 & F2 & F3 & F4); destruct (user_call_keeps x u) as (F5 & F6 & F7) end.
    rewrite E2 in *. cbn in *. split; [done|congruence|split_and!; congruence|congruence|congruence|congruence].
  - subst s2. split; cbn; [done|done|done|done|done|by rewrite Hc].
Qed.

Lemma inline_added n rs cs s : loading n rs [] cs s -> exists s1, step DownloadsAdded s = Some s1 /\ job_ok n s1 /\ finished s1 /\ answers s1 = rs /\ completions s1 = cs.
Proof.
  intros [Ho Hs (Hta & Hq & Hd) Ha Hr Hc]. assert (E1 : step DownloadsAdded s = Some (set_adding NotStarting [] s)) by (unfold act; by rewrite Ha, Hd).
  eexists. split; [exact E1|]. split; [by eapply act_ok|]. by split_and!.
Qed.

(** *** The same in a world *)

Section worlds.
Context {S N Root : Type} (I : list cache_answer -> World S N -> Prop).
Context (query : Root -> state (World S N) (ExtendedResponse Items)) (download_item : str -> state (World S N) (ExtendedResponse DataResult)).
Context (good : Root -> ExtendedResponse Items -> Prop).

Lemma gives_inline_queries past n visited roots rs s : querying n (length roots) rs s -> Forall2 good visited rs ->
  (forall root, root ∈ roots -> gives (I past) (query root) (good root)) ->
  gives (I past) (inline_queries step query roots s) (fun s' => exists rs', querying n 0 rs' s' /\ Forall2 good (visited ++ roots) rs').
Proof.
  intros Hq Hg Hroots. revert visited rs s Hq Hg. induction roots as [|root roots IH]; intros visited rs s Hq Hg; cbn [inline_queries].
  - apply gives_ret. exists rs. by rewrite app_nil_r.
  - assert (Hsteps : forall r, exists s1 s2, step AddQuery s = Some s1 /\ step (QueryCompletes r) s1 = Some s2 /\ querying n (length roots) (rs ++ [r]) s2)
      by (intros r; by apply inline_query).
    destruct (Hsteps (without_statistics (inr Canceled))) as (s1 & _ & E1 & _).
    eapply gives_bind; [by apply (gives_lift _ _ s1 (fun x => x = s1))|]. intros ? ->.
    eapply gives_bind; [apply Hroots; left|]. intros r Hr. destruct (Hsteps r) as (s1' & s2 & E1' & E2 & Hq2). assert (s1' = s1) as -> by congruence.
    eapply gives_bind; [by apply (gives_lift _ _ s2 (fun x => x = s2))|]. intros ? ->. replace (visited ++ root :: roots) with ((visited ++ [root]) ++ roots) by (by rewrite <- app_assoc).
    apply (IH (fun x Hx => Hroots x (list_elem_of_further _ _ _ Hx)) (visited ++ [root]) (rs ++ [r])); [done|]. by apply Forall2_app; [|apply Forall2_cons].
Qed.

(** What holds of a download because of what the cache answered meanwhile. *)
Context (P : list cache_answer -> Item * ExtendedResponse DataResult -> Prop).
Hypothesis P_more : forall l l' cr, P l cr -> P (l ++ l') cr.

Lemma told_inline_downloads n rs l past cs s : loading n rs l cs s -> Forall (P past) cs ->
  (forall past i h, (i, h) ∈ l -> told I past (download_item h) (fun r news => P (past ++ news) (i, r))) ->
  told I past (inline_downloads step download_item l s)
    (fun s' news => job_ok n s' /\ finished s' /\ answers s' = rs /\ Forall (P (past ++ news)) (completions s')).
Proof.
  intros Hl Hc Hd. revert past cs s Hl Hc. induction l as [|[i h] l IH]; intros past cs s Hl Hc; cbn [inline_downloads].
  - destruct (inline_added _ _ _ _ Hl) as (s1 & E1 & Ho & Hf & Ha & Hcs).
    eapply (told_gives _ _ _ (fun x => x = s1)); [by apply (gives_lift _ _ s1)|]. intros ? ->. rewrite app_nil_r. split_and!; [done..|by rewrite Hcs].
  - assert (Hsteps : forall r, exists s1 s2, step AddDownload s = Some s1 /\ step (DownloadCompletes 0 r) s1 = Some s2 /\ loading n rs l (cs ++ [(i, r)]) s2)
      by (intros r; by eapply inline_download).
    destruct (Hsteps (without_statistics (inr Canceled))) as (s1 & _ & E1 & _).
    eapply (told_after _ _ _ _ (fun x => x = s1)); [by apply (gives_lift _ _ s1)|]. intros ? ->.
    eapply told_bind; [apply (Hd past i h); left|]. intros r news Hr. destruct (Hsteps r) as (s1' & s2 & E1' & E2 & Hl2). assert (s1' = s1) as -> by congruence.
    eapply (told_after _ _ _ _ (fun x => x = s2)); [by apply (gives_lift _ _ s2)|]. intros ? ->.
    eapply told_mono; [apply (IH (fun past x y Hx => Hd past x y (list_elem_of_further _ _ _ Hx)) (past ++ news) (cs ++ [(i, r)])); [done|]|].
    + apply Forall_app. split; [eapply Forall_impl; [exact Hc|auto]|by apply Forall_singleton].
    + intros s' news' (? & ? & ? & ?). split_and!; [done..|by rewrite app_assoc].
Qed.

(** After the queries the downloads are added, or the prefetch has come to its end. *)
Lemma queried n rs s : querying n 0 rs s ->
  (finished s /\ completions s = []) \/
  exists items, adding s = Starting items true /\ loading n rs items [] s /\ (items = [] \/ chosen no_items insert_items items_of filter_ CheckIfFail n rs items).
Proof.
  intros [Ho Hs [Ha Hq] Hr [Hd Hc] Ht]. destruct (adding s) as [|l triggered] eqn:El; [by left|]. right.
  assert (triggered = true) as -> by (by eapply Ht). exists l. split; [done|]. split; [by split|].
  destruct Ho as [|items l' triggered' _ _ Ea Hsuf _ Hst _ Hcount _ _| |? ? ? [?|Ea]| |]; try congruence; [right|left; congruence].
  rewrite El in Ea. injection Ea as <- <-. destruct Hcount as (_ & _ & Hperm). rewrite Hc, Hd in Hperm. cbn in Hperm.
  apply Permutation_length in Hperm. rewrite !length_fmap in Hperm. destruct Hsuf as [pre ->]. rewrite length_app in Hperm.
  destruct pre; [|cbn in Hperm; lia]. destruct Hst as [Hch _ _ _]. by rewrite Hr in Hch.
Qed.

(** A prefetch ends, with the completions of queries of its roots and of the downloads of
    the items that they choose. *)
Lemma told_inline_prefetch past roots : roots <> [] ->
  (forall root, root ∈ roots -> gives (I past) (query root) (good root)) ->
  (forall past rs items i h, Forall2 good roots rs -> chosen no_items insert_items items_of filter_ CheckIfFail (length roots) rs items -> (i, h) ∈ items ->
     told I past (download_item h) (fun r news => P (past ++ news) (i, r))) ->
  told I past (inline_prefetch step query download_item roots (Prefetch no_result no_items inline_sink false (length roots)))
    (fun s news => job_ok (length roots) s /\ finished s /\ Forall2 good roots (answers s) /\ Forall (P (past ++ news)) (completions s)).
Proof.
  intros Hne Hroots Hdl. unfold inline_prefetch. eapply told_after.
  - apply (gives_inline_queries past (length roots) [] roots []); [|by constructor|exact Hroots]. split; try done.
    apply Prefetch_ok. destruct roots; [done|cbn; lia].
  - cbn [app]. intros s (rs & Hq & Hrs). destruct (queried _ _ _ Hq) as [[Hf Hc]|(items & Ea & Hl & Hch)].
    + rewrite (proj1 (proj2 (proj2 Hf))). apply told_ret. destruct Hq as [Ho _ _ Hr _ _]. rewrite Hr, Hc. by split_and!; [..|constructor].
    + rewrite Ea. eapply told_mono; [apply (told_inline_downloads (length roots) rs items past [] s Hl); [done|]|].
      * intros past' i h Hi. destruct Hch as [->|Hch]; [by apply elem_of_nil in Hi|]. by eapply Hdl.
      * intros s' news (? & ? & -> & ?). by split_and!.
Qed.
End worlds.
End schedule.

(** ** The tiles that a prefetch reports *)

(** The results of the queries put together; a tile keeps the first data found. *)
Definition merged (rs : list (ExtendedResponse SubQuadsResult)) : SubQuadsResult :=
  foldl (fun m r => match r.1 with inl tiles => m ∪ tiles | inr _ => m end) ∅ rs.

Lemma tiles_of_elem (m : SubQuadsResult) t h : (t, h) ∈ tiles_of m <-> m !! t = Some h.
Proof.
  unfold tiles_of. rewrite list_elem_of_fmap. split.
  - intros (t' & [= <- ->] & [h' E]%elem_of_keys). by rewrite E.
  - intros E. exists t. rewrite E. split; [done|]. apply elem_of_keys. by eexists.
Qed.

Lemma tiles_of_keys (m : SubQuadsResult) : (tiles_of m).*1 = keys_in_order m.
Proof. unfold tiles_of. rewrite <- list_fmap_compose. apply list_fmap_id. Qed.

Lemma keys_in_order_nodup {A} (m : gmap TileKey A) : NoDup (keys_in_order m).
Proof. unfold keys_in_order. rewrite (merge_sort_Permutation tile_le). apply NoDup_fst_map_to_list. Qed.

Lemma tiles_of_nil (m : SubQuadsResult) : tiles_of m = [] -> m = ∅.
Proof. intros E. apply map_empty. intros t. destruct (m !! t) as [h|] eqn:Eh; [|done]. apply tiles_of_elem in Eh. rewrite E in Eh. by apply elem_of_nil in Eh. Qed.

Lemma collected_tiles n rs : query_result_ (collected ∅ insert_tiles tiles_of n rs) = merged rs /\
  (query_errors_ (collected ∅ insert_tiles tiles_of n rs) = [] -> canceled_ (collected ∅ insert_tiles tiles_of n rs) = false ->
   Forall (fun r => is_success r = true) rs).
Proof.
  induction rs as [|r rs [Em Hs]] using rev_ind; [done|]. rewrite collected_snoc. unfold merged. rewrite foldl_app. fold (merged rs). cbn [foldl].
  set (j := collected _ _ _ _ rs) in *. unfold keep_response, is_success. destruct r as [[tiles|e] st]; cbn.
  - split.
    + rewrite Em. destruct (tiles_of (merged rs)) eqn:E; [|done]. apply tiles_of_nil in E. rewrite E. by rewrite (left_id_L ∅ (∪)).
    + intros He Hc. apply Forall_app. split; [by apply Hs|]. by constructor.
  - destruct (is_cancelled e); cbn; (split; [done|]); intros He Hc; [done|]. by apply app_eq_nil in He as [_ ?].
Qed.

Lemma merged_elem rs t h : merged rs !! t = Some h -> exists tiles st, (inl tiles, st) ∈ rs /\ tiles !! t = Some h.
Proof.
  revert h. induction rs as [|[[tiles|e] st] rs IH] using rev_ind; intros h; [done| |]; unfold merged; rewrite foldl_app; fold (merged rs); cbn.
  - intros [E|[_ E]]%lookup_union_Some_raw; [|exists tiles, st; split; [apply elem_of_app; right; by left|done]].
    destruct (IH h E) as (tiles' & st' & ? & ?). exists tiles', st'. split; [apply elem_of_app; by left|done].
  - intros E. destruct (IH h E) as (tiles' & st' & ? & ?). exists tiles', st'. split; [apply elem_of_app; by left|done].
Qed.

Lemma merged_has rs tiles st t h : (inl tiles, st) ∈ rs -> tiles !! t = Some h -> is_Some (merged rs !! t).
Proof.
  induction rs as [|r rs IH] using rev_ind; [by intros ?%elem_of_nil|]. unfold merged. rewrite foldl_app. fold (merged rs). cbn.
  intros [Hin|Hin%list_elem_of_singleton]%elem_of_app E.
  - destruct (IH Hin E) as [h' E']. destruct r as [[tiles'|e] st']; cbn; [|by eexists]. exists h'. by apply lookup_union_Some_l.
  - subst r. cbn. apply lookup_union_is_Some. right. by eexists.
Qed.

(** A tile passes the filter when it is on a level of the request and above or below one
    of its tiles. *)
Lemma skip_tile_false request t : valid t -> Forall valid (prefetch_tile_keys request) ->
  skip_tile request t = false <-> min_level_ request <= level_ t <= max_level_ request /\ exists k, k ∈ prefetch_tile_keys request /\ related t k.
Proof.
  intros Ht Hv. unfold skip_tile. rewrite !orb_false_iff, Z.ltb_ge, Z.gtb_ltb, Z.ltb_ge, negb_false_iff, existsb_exists. rewrite Forall_forall in Hv.
  assert (Hone : forall k, k ∈ prefetch_tile_keys request -> bool_decide (k = t) || IsParentOf k t || IsParentOf t k = true <-> related t k).
  { intros k Hk. rewrite <- (unrelated_skip k t (Hv k Hk) Ht), !andb_false_iff, !negb_false_iff, !orb_true_iff, !bool_decide_eq_true.
    split; [intros [[->|?]|?]; auto|intros [[?|?]| ->]; auto]. }
  split.
  - intros [[? ?] (k & Hk%list_elem_of_In & E)]. split; [lia|]. exists k. split; [done|by apply Hone].
  - intros [[? ?] (k & Hk & E)]. split_and!; [lia|lia|]. exists k. split; [by apply list_elem_of_In|by apply Hone].
Qed.

(** The tiles of the completions are those of the result, each with its success. *)
Lemma results_tiles cs : results append_tile_result [] cs = (fun c => (c.1, match c.2.1 with inl _ => None | inr e => Some e end)) <$> cs.
Proof.
  induction cs as [|[t r] cs IH] using rev_ind; [done|]. rewrite fmap_app. cbn. unfold results. rewrite foldl_app. fold (results append_tile_result [] cs).
  by rewrite IH.
Qed.

Section tiles.
Context `{Hlaws : ModelLaws} {S N : Type} `{Hcache : KeyValueCacheLaws S Model} `{Honline : Online S N} `{Hhashes : Hashes} `{Hversion : ClientVersion S N}.
Context (c : RepositoryClient) (layer : str) (C : Contents) `{Hhonest : !Honest c layer C} (Hstore : storable_layer c layer C).

Abbreviation hrn := (ToCatalogHRNString (Repositories.client_catalog_ c)).
Abbreviation P := (layer_policy hrn layer (kept C)).
Abbreviation inv := (cache_has (S := S) (N := N) (holds P)).

Lemma gives_query_tiles request version root : data_aggregation_enabled_ request = false -> valid root ->
  gives inv (query_tiles c layer request version root) (fun r => forall tiles, r.1 = inl tiles -> tree_tiles C version root tiles).
Proof.
  intros Ha Hr. unfold query_tiles. rewrite Ha. eapply gives_bind; [by eapply gives_GetVersionedSubQuads|].
  intros [[tiles|e] st] Ht; by apply gives_ret.
Qed.

(** The catalog has a tile when each tree that could have it does. *)
Definition catalog_tile (version : Z) (q : TileKey) : Prop :=
  forall root data, above root q -> level_ q <= level_ root + kMaxQuadTreeIndexDepth -> tree_data C (Some version) root data -> exists x, x ∈ data /\ tile_key x = q.

(** The data of a handle was in the cache, or was put into it: it was found there by
    [Contains] or [Read], or written to it. *)
Definition obtained (log : list cache_answer) (handle : str) : Prop :=
  let k := CreateDataHandleKey hrn layer handle in
  Contained k ∈ log \/ exists b, has_data C handle b /\ (Gave k b ∈ log \/ Stored k b ∈ log).

(** The tiles of the result of a prefetch, with the answers of the cache to it. *)
Definition reported (log : list cache_answer) (request : PrefetchTilesRequest) (version : Z) (result : PrefetchTilesResult) : Prop :=
  NoDup result.*1 /\
  (forall t e, (t, e) ∈ result -> min_level_ request <= level_ t <= max_level_ request /\ (exists k, k ∈ prefetch_tile_keys request /\ related t k) /\
     exists root data x, tree_data C (Some version) root data /\ x ∈ data /\ tile_key x = t /\
       (e = None -> data_handle x <> [] /\ obtained log (data_handle x))) /\
  (forall k q, k ∈ prefetch_tile_keys request -> related q k -> min_level_ request <= level_ q <= max_level_ request -> catalog_tile version q -> q ∈ result.*1).

Section request.
Context (request : PrefetchTilesRequest) (version : Z) (roots : RootTilesForRequest).
Context (Hkeys : Forall valid (prefetch_tile_keys request)).
Context (Hroots : forall k q, k ∈ prefetch_tile_keys request -> related q k -> min_level_ request <= level_ q <= max_level_ request ->
  exists r, r ∈ keys_in_order roots /\ above r q /\ level_ q <= level_ r + kMaxQuadTreeIndexDepth).

Abbreviation good := (fun root (r : ExtendedResponse SubQuadsResult) => forall tiles, r.1 = inl tiles -> tree_tiles C version root tiles).
Abbreviation chosen_tiles n rs items := (chosen ∅ insert_tiles tiles_of (Some (FilterTilesByLevel request)) CheckIfFail_tiles n rs items).

(** What is downloaded: tiles of the trees that the request is about. *)
Lemma chosen_sound n rs items t h : Forall2 good (keys_in_order roots) rs -> chosen_tiles n rs items -> (t, h) ∈ items ->
  skip_tile request t = false /\ valid t /\ exists root data x, tree_data C (Some version) root data /\ x ∈ data /\ tile_key x = t /\ data_handle x = h.
Proof.
  intros Hrs (_ & _ & ->) Hin. apply tiles_of_elem in Hin. cbn in Hin. rewrite (proj1 (collected_tiles n rs)) in Hin.
  apply map_lookup_filter_Some in Hin as [Hm Hskip]. split; [exact Hskip|]. apply merged_elem in Hm as (tiles & st & Hr & Et).
  apply list_elem_of_lookup in Hr as [i Hi]. destruct (Forall2_lookup_r _ _ _ _ _ Hrs Hi) as (root & _ & Hg).
  destruct (Hg tiles eq_refl) as (data & Hd & Hv & Ht). apply Ht in Et as (x & Hx & <- & <-). split; [rewrite Forall_forall in Hv; by apply Hv|].
  by exists root, data, x.
Qed.

(** Every tile of the catalog that the request is about is downloaded. *)
Lemma chosen_complete n rs items k q : Forall2 good (keys_in_order roots) rs -> chosen_tiles n rs items -> k ∈ prefetch_tile_keys request ->
  related q k -> min_level_ request <= level_ q <= max_level_ request -> catalog_tile version q -> q ∈ items.*1.
Proof.
  intros Hrs (He & Hc & ->) Hk Hq Hl Hcat. destruct (collected_tiles n rs) as [Em Hs]. cbn in *. rewrite Em.
  assert (Hall : Forall (fun r => is_success r = true) rs) by (apply Hs; [by destruct (query_errors_ _)|done]).
  destruct (Hroots k q Hk Hq Hl) as (root & Hroot & Hrq & Hd). apply list_elem_of_lookup in Hroot as [i Hi].
  destruct (Forall2_lookup_l _ _ _ _ _ Hrs Hi) as (r & Hr & Hg). assert (Hin : r ∈ rs) by (by eapply list_elem_of_lookup_2).
  rewrite Forall_forall in Hall. specialize (Hall r Hin). destruct r as [[tiles|e] st]; [|done].
  destruct (Hg tiles eq_refl) as (data & Htree & _ & Ht). destruct (Hcat root data Hrq Hd Htree) as (x & Hx & Ex).
  assert (Et : tiles !! q = Some (data_handle x)) by (apply Ht; by exists x).
  destruct (merged_has rs tiles st q _ Hin Et) as [h Eh]. apply list_elem_of_fmap. exists (q, h). split; [done|].
  apply tiles_of_elem, map_lookup_filter_Some. split; [done|]. cbn.
  apply skip_tile_false; [by destruct Hq as [(? & _)|(_ & ? & _)]|done|]. split; [done|by exists k].
Qed.

Lemma finished_reported log n s : (0 < n)%nat ->
  ok append_tile_result [] ∅ insert_tiles tiles_of (Some (FilterTilesByLevel request)) CheckIfFail_tiles n s -> finished s ->
  Forall2 good (keys_in_order roots) (answers s) ->
  Forall (fun cr : TileKey * ExtendedResponse DataResult => exists root data x, tree_data C (Some version) root data /\ x ∈ data /\ tile_key x = cr.1 /\
    (is_success cr.2 = true -> data_handle x <> [] /\ obtained log (data_handle x))) (completions s) ->
  exists r, calls s = [r] /\ match r with inl result => reported log request version result | inr _ => True end.
Proof.
  intros Hn Ho (Hta & Hq & Ha & Hd) Hrs Hcs.
  assert (Hin : forall items, chosen_tiles n (answers s) items -> (completions s).*1 ≡ₚ items.*1 -> reported log request version (results append_tile_result [] (completions s))).
  { intros items Hch Hp. rewrite results_tiles. unfold reported. rewrite <- list_fmap_compose. change (compose fst _) with (fst : TileKey * ExtendedResponse DataResult -> TileKey).
    split_and!.
    - rewrite Hp. destruct Hch as (_ & _ & ->). rewrite tiles_of_keys. apply keys_in_order_nodup.
    - intros t e ([t' [r st]] & [= <- ->] & Hc)%list_elem_of_fmap.
      assert (Hti : t ∈ items.*1) by (rewrite <- Hp; apply (list_elem_of_fmap_2 fst _ _ Hc)).
      apply list_elem_of_fmap in Hti as ([t'' h] & [= <-] & Hti). destruct (chosen_sound n _ _ _ _ Hrs Hch Hti) as (Hskip & Hv & _).
      apply skip_tile_false in Hskip as [? ?]; [|done|done]. split_and!; [lia|lia|done|]. rewrite Forall_forall in Hcs.
      destruct (Hcs _ Hc) as (root & data & x & ? & ? & ? & Hx). exists root, data, x. split_and!; [done..|]. intros He. apply Hx. by destruct r.
    - intros k q Hk Hqk Hl Hcat. rewrite Hp. by eapply chosen_complete. }
  destruct Ho as [| | |items _ _ _ _ Hst _ Hp Hca _|_ _ _ _ Hch _ Hc _ Hca _|e _ _ _ _ _ Hca _]; try congruence; try lia.
  - eexists. split; [exact Hca|]. destruct Hst. by eapply Hin.
  - eexists. split; [exact Hca|]. change (@nil (TileKey * option ApiError)) with (results append_tile_result [] []). rewrite <- Hc. eapply Hin; [exact Hch|]. by rewrite Hc.
  - by eexists.
Qed.
End request.

(** The client has the version [version]. *)
Definition client_has (version : Z) : Prop := version <> kInvalidVersion /\ gives inv version_load (fun v => v = version).

Lemma gives_GetVersion version billing_tag fetch_options : client_has version ->
  gives inv (GetVersion c billing_tag fetch_options) (fun r => r = inl (mkVersionResponse version)).
Proof.
  intros [Hne Hv]. unfold GetVersion. eapply gives_bind; [exact Hv|]. intros v ->. apply Z.eqb_neq in Hne. rewrite Hne. by apply gives_ret.
Qed.

End tiles.

(** ** What a prefetch has put into the cache

    The cache is one that records its answers (RecordedCache.v), so that the theorem can
    say what was in the cache during the run: in the end it may have forgotten it again. *)

Section recorded_tiles.
#[local] Existing Instance Recorded_cache.
Context `{Hlaws : ModelLaws} {S N : Type} `{Hcache : KeyValueCacheLaws S Model} `{Honline : Online (Recorded S) N} `{Hhashes : Hashes}
  `{Hversion : ClientVersion (Recorded S) N}.
Context (c : RepositoryClient) (layer : str) (C : Contents).

Abbreviation hrn := (ToCatalogHRNString (Repositories.client_catalog_ c)).
Abbreviation P := (layer_policy hrn layer (kept C)).

(** The worlds whose cache has what is of the layer, and has recorded the answers [past]. *)
Definition recorded_world (past : list cache_answer) : World (Recorded S) N -> Prop := cache_has (recorded_holds past P).

(** The services are honest, and other threads do not take back what was recorded. *)
Context {Hhonest : forall past, Honest (H2 := Recorded_laws past) c layer C} (Hstore : storable_layer c layer C).

Lemma told_timed {A} past (m : Z -> state (Recorded S) A) Q :
  (forall now s, clock_ok now -> recorded_holds past P s -> runs (m now) s (fun s' a => exists news, Q a news /\ recorded_holds (past ++ news) P s')) ->
  told recorded_world past (timed m) Q.
Proof.
  intros Hm. unfold timed. eapply (told_after _ _ _ _ clock_ok); [apply (honest_clock (H2 := Recorded_laws past) c layer C)|]. intros now Hn w Hw.
  destruct (Hm now (w_cache w) Hn Hw) as (s' & a & E & news & Ha & Hs'). exists (set_cache s' w), a. split; [|by exists news].
  unfold cached, mbind, option_bind. by rewrite E.
Qed.

(** A download that succeeds has obtained the data. *)
Abbreviation obtains handle := (fun (r : ExtendedResponse DataResult) news => is_success r = true -> handle <> [] /\ obtained c layer C news handle).

Lemma told_get_blob_online billing_tag handle mutex past : handle <> [] ->
  told recorded_world past (get_blob_online c layer kBlobService (empty_partition handle []) OnlineIfNotFound billing_tag true mutex) (obtains handle).
Proof.
  intros Hne. unfold get_blob_online. cbn [Partition_data_handle empty_partition].
  eapply told_after; [apply (honest_mutexes (H2 := Recorded_laws past) c layer C)|]. intros [e|] _; [by apply told_ret|].
  eapply told_after; [by apply (keep_LookupApi (H2 := Recorded_laws past) c layer C Hstore); right|]. intros [client|e] _.
  - change (bool_decide (kBlobService = kBlobService)) with true. cbv iota.
    eapply told_after; [apply (gives_GetBlob (H2 := Recorded_laws past) c layer C)|]. intros [[[b|]|e] st] Hb; [|done|].
    + cbv beta iota. cbn [Partition_data_handle empty_partition data_answer fst] in Hb.
      rewrite bool_decide_eq_false_2 by done. eapply (told_bind _ _ _ _ (fun r news => r = inl tt -> Stored (CreateDataHandleKey hrn layer handle) b ∈ news)).
      { apply told_timed. intros now s Hn Hs. unfold Put_data. rstep. pose proof (of_data hrn layer (kept C) handle b Hb) as E.
        eapply runs_mono; [apply (recorded_Write past P now _ b _ s Hs); [by exists b|by eexists|by apply (stores_data c layer C Hstore)]|].
        intros s' r (news & Hr & Hs'). rstep. exists news. split; [|done]. intros Eo. apply Hr. destruct r as [[]|]; [done|discriminate Eo]. }
      intros [[]|e] news Hr; apply told_ret; [|done]. intros _. rewrite app_nil_r. split; [done|]. right. exists b. auto.
    + eapply (told_after _ _ _ _ (fun _ => True)).
      { destruct (is_forbidden e); [|apply keeps_ret]. apply gives_then; [apply gives_cached, (keep_Clear_data (H2 := Recorded_laws past) c layer C)|intros; apply keeps_ret]. }
      intros _ _. eapply told_after; [apply (honest_mutexes (H2 := Recorded_laws past) c layer C)|]. intros _ _. by apply told_ret.
  - eapply told_after; [apply (honest_mutexes (H2 := Recorded_laws past) c layer C)|]. intros _ _. by apply told_ret.
Qed.

Lemma obtained_incl handle l l' : (forall x, x ∈ l -> x ∈ l') -> obtained c layer C l handle -> obtained c layer C l' handle.
Proof. intros Hl [Ho|(b & Hb & [Ho|Ho])]; [left; exact (Hl _ Ho)|right; exists b; split; [exact Hb|left; exact (Hl _ Ho)]|right; exists b; split; [exact Hb|right; exact (Hl _ Ho)]]. Qed.

Lemma obtained_more handle l l' : obtained c layer C l handle -> obtained c layer C (l ++ l') handle.
Proof. apply obtained_incl. intros x Hx. apply elem_of_app. by left. Qed.

Lemma obtained_later handle l l' : obtained c layer C l' handle -> obtained c layer C (l ++ l') handle.
Proof. apply obtained_incl. intros x Hx. apply elem_of_app. by right. Qed.

Lemma reported_incl request version l l' result : (forall x, x ∈ l -> x ∈ l') ->
  reported c layer C l request version result -> reported c layer C l' request version result.
Proof.
  intros Hl (H1 & H2 & H3). split; [exact H1|]. split; [|exact H3]. intros t e Hte. destruct (H2 t e Hte) as (Hlv & Hk & root & data & x & Hd & Hx & Et & He).
  split; [exact Hlv|]. split; [exact Hk|]. exists root, data, x. split; [exact Hd|]. split; [exact Hx|]. split; [exact Et|].
  intros Hn. destruct (He Hn) as [Hh Ho]. split; [exact Hh|exact (obtained_incl _ l l' Hl Ho)].
Qed.

Lemma told_GetBlobData billing_tag handle past : handle <> [] -> ordinary (CreateDataHandleKey hrn layer handle) ->
  told recorded_world past (GetBlobData c layer kBlobService (empty_partition handle []) OnlineIfNotFound billing_tag true) (obtains handle).
Proof.
  intros Hne Hk. unfold GetBlobData. cbn [Partition_data_handle empty_partition]. destruct handle as [|a d] eqn:Ed; [done|]. rewrite <- Ed in *. clear Ed a d.
  apply told_mutex.
  { intros past'. apply (honest_mutexes (H2 := Recorded_laws past') c layer C). }
  { intros r news news' Hr Hs. destruct (Hr Hs) as [_ Ho]. split; [done|]. by apply obtained_more. }
  change (looks_up OnlineIfNotFound) with true. cbv iota.
  eapply (told_bind _ _ _ _ (fun r news => forall b, r = Some b -> has_data C handle b /\ Gave (CreateDataHandleKey hrn layer handle) b ∈ news)).
  { apply told_timed. intros now s _ Hs. eapply runs_mono.
    - apply (runs_and _ _ (fun s' r => recorded_holds past P s' /\ forall b, r = Some b -> has_data C handle b) (fun s' r => exists news, (forall b, r = Some b -> Gave (CreateDataHandleKey hrn layer handle) b ∈ news) /\ recorded_holds (past ++ news) P s'));
        [exact (keep_data (H2 := Recorded_laws past) c layer C now handle Hk s Hs)|]. unfold Get_data, kv_Get_bytes. rstep.
      eapply runs_mono; [apply (recorded_Read past P now _ s Hs)|].
      + apply (layer_bytes_key hrn layer (kept C) _ (has_data C handle)); [done|]. intros x b E. by apply entry_data in E as [Hb ->].
      + intros s' r (news & Hr & Hs'). rstep. exists news.
        split; [|done]. intros b. destruct r; [|done]. intros [= ->]. by apply Hr.
    - cbv beta. intros s' r [[_ Hb] (news & Hr & Hs')]. exists news. split; [|done]. intros b Eb. split; [by apply Hb|by apply Hr]. }
  intros [b|] news Hr.
  - apply told_ret. intros _. destruct (Hr b eq_refl) as [Hb Hg]. split; [done|]. right. exists b. split; [done|]. left. by rewrite app_nil_r.
  - cbv beta iota. rewrite bool_decide_eq_false_2 by done. eapply told_mono; [by apply told_get_blob_online|].
    intros r news' Ho Hs. destruct (Ho Hs) as [_ Ho']. split; [done|]. by apply obtained_later.
Qed.

Lemma told_download billing_tag version handle past : (handle <> [] -> ordinary (CreateDataHandleKey hrn layer handle)) ->
  told recorded_world past (download c layer billing_tag version handle) (obtains handle).
Proof.
  intros Ho. unfold download. destruct handle as [|a h]; [by apply told_ret|]. set (handle := a :: h) in *.
  eapply (told_bind _ _ _ _ (fun b news => b = true -> Contained (CreateDataHandleKey hrn layer handle) ∈ news)).
  { apply told_timed. intros now s _ Hs. by apply (recorded_Contains past P). }
  intros [] news Hc.
  - eapply (told_after _ _ _ _ (fun _ => True)).
    { apply gives_cached. intros s Hs. eapply runs_mono; [by apply (law_Promote (KeyValueCacheLaws := Recorded_laws (past ++ news)) P)|]. by intros s' r []. }
    intros _ _. apply told_ret. intros _. rewrite app_nil_r. split; [done|]. left. by apply Hc.
  - unfold GetVersionedData. cbn [data_handle_ partition_id_ data_fetch_option data_billing_tag].
    eapply told_bind; [apply told_GetBlobData; [done|by apply Ho]|]. intros r news' Hr. apply told_ret. rewrite app_nil_r. intros Hs.
    assert (Hs' : is_success r = true) by (by destruct r as [[] ?]). destruct (Hr Hs') as [_ Hob]. split; [done|].
    by apply obtained_later.
Qed.

Lemma told_PrefetchTiles request version : prefetch_tile_keys request <> [] ->
  0 <= min_level_ request <= max_level_ request -> max_level_ request < LevelCount ->
  Forall (fun t => valid t /\ max_level_ request - Z.min (min_level_ request) (level_ t) < 20) (prefetch_tile_keys request) ->
  data_aggregation_enabled_ request = false -> client_has (Hcache := Recorded_laws []) c layer C version ->
  told recorded_world [] (PrefetchTiles c layer request false) (fun o news =>
    exists r, o.1 = [r] /\ match r with inl result => reported c layer C news request version result | inr _ => True end).
Proof.
  intros Hne Hlevels Hmax Hkeys Ha Hclient.
  assert (Hvalid : Forall valid (prefetch_tile_keys request)) by (eapply Forall_impl; [exact Hkeys|]; by intros t []).
  unfold PrefetchTiles. destruct (prefetch_tile_keys request) as [|k ks] eqn:Ek; [done|]. rewrite <- Ek in *. clear Ek k ks.
  eapply told_after; [by apply (gives_GetVersion (Hcache := Recorded_laws []))|]. intros ? ->. cbn [VersionResponse_version].
  assert (E : request_only_input_tiles request = false) by (unfold request_only_input_tiles; btrue (min_level_ request <=? max_level_ request);
    btrue (max_level_ request <? LevelCount); btrue (min_level_ request <? LevelCount); done).
  rewrite E. destruct (sliced_roots (prefetch_tile_keys request) (min_level_ request) (max_level_ request)) as (roots & Er & Hok & Hcover); [done..|].
  eapply (told_after _ _ _ _ (fun x => x = roots)); [by apply (gives_lift _ _ roots)|]. intros ? ->.
  destruct (keys_in_order roots) as [|root rest] eqn:Ekeys; [apply told_ret; by eexists|]. rewrite <- Ekeys in *.
  assert (Hnil : keys_in_order roots <> []) by (by rewrite Ekeys). clear Ekeys root rest. unfold prefetch_filter. rewrite E.
  set (good := fun root (r : ExtendedResponse SubQuadsResult) => forall tiles, r.1 = inl tiles -> tree_tiles C version root tiles).
  eapply told_bind; [eapply (told_inline_prefetch append_tile_result [] ∅ insert_tiles tiles_of (Some (FilterTilesByLevel request)) CheckIfFail_tiles tiles_fail recorded_world
    _ _ good (fun log cr => exists root data x, tree_data C (Some version) root data /\ x ∈ data /\ tile_key x = cr.1 /\
      (is_success cr.2 = true -> data_handle x <> [] /\ obtained c layer C log (data_handle x)))); [|exact Hnil| |]|].
  - intros l l' cr (root & data & x & ? & ? & ? & Hx). exists root, data, x. split_and!; [done..|]. intros Hs. destruct (Hx Hs). split; [done|by apply obtained_more].
  - intros root [d Ed]%elem_of_keys. apply (gives_query_tiles (Hcache := Recorded_laws [])); [done..|]. by apply (Hok root d).
  - intros past rs items t h Hrs Hch Hi. destruct (chosen_sound C request version roots _ rs items t h Hrs Hch Hi) as (_ & _ & root & data & x & Hd & Hx & Et & Eh).
    eapply told_mono; [apply told_download; intros _; rewrite <- Eh; by eapply (ordinary_tile c layer C Hstore)|].
    intros r news Hr. exists root, data, x. split_and!; [done..|]. rewrite Eh. intros Hs. destruct (Hr Hs) as [? Ho]. split; [done|].
    by apply obtained_later.
  - intros s news (Ho & Hf & Hg & Hc). apply told_ret. rewrite app_nil_r. unfold outcomes. cbn.
    eapply (finished_reported c layer C request version roots Hvalid Hcover news (length (keys_in_order roots))); [|done..].
    destruct (keys_in_order roots); [done|cbn; lia].
Qed.

(** C1: a prefetch of tiles, from the request to the callback: without a task scheduler,
    where each task runs where it is added, and not cancelled; for a client that has the
    version (an atomic that stays as it is: client_has); with honest services, a cache
    that keeps its laws and records its answers, and whatever this cache and the kept
    clients have been left with.  It ends and calls the callback once.  When it succeeds,
    its result has every tile of the catalog that is on a level of the request and above
    or below one of the tiles of the request, and no other one, each once; for a tile
    without an error, data of its handle was in the cache during the prefetch: the cache
    answered that it contains it, gave it, or stored the data that was downloaded.
    Requests are of at most twenty levels, without aggregation. *)
Theorem PrefetchTiles_reports request version w : prefetch_tile_keys request <> [] ->
  0 <= min_level_ request <= max_level_ request -> max_level_ request < LevelCount ->
  Forall (fun t => valid t /\ max_level_ request - Z.min (min_level_ request) (level_ t) < 20) (prefetch_tile_keys request) ->
  data_aggregation_enabled_ request = false -> client_has (Hcache := Recorded_laws []) c layer C version ->
  recorded_world [] w -> answers_ (w_cache w) = [] ->
  exists w' r statuses, PrefetchTiles c layer request false w = Some (w', ([r], statuses)) /\ recorded_world [] w' /\
    match r with
    | inl result => reported c layer C (answers_ (w_cache w')) request version result
    | inr _ => True
    end.
Proof.
  intros Hne Hlevels Hmax Hkeys Ha Hclient Hw _.
  destruct (told_PrefetchTiles request version Hne Hlevels Hmax Hkeys Ha Hclient w Hw) as (w' & [cs sts] & E & news & (r & Er & Hr) & Hw').
  cbn in Er. subst cs. exists w', r, sts. split; [done|].
  destruct Hw' as [Hw' Hlog]. split; [by split; [|intros x ?%elem_of_nil]|]. destruct r as [result|]; [|done].
  by apply (reported_incl request version news).
Qed.
End recorded_tiles.

(** ** Concrete inputs: the service of ReadIntegrity.v *)

Module client_sample.
Import layer_sample ReadIntegrity.tiles_sample.

(** A client that was made for version 7, and one whose exchange fails. *)
#[export] Instance version_7 {S} : ClientVersion S unit := {| version_load := mret 7; version_compare_exchange_weak _ _ := mret (false, 7) |}.
Definition spurious : ClientVersion Cache unit :=
  {| version_load := mret kInvalidVersion; version_compare_exchange_weak expected _ := mret (false, expected) |}.

Definition request : PrefetchTilesRequest := mkPrefetchTilesRequest [ChangedLevelBy leaf (-1)] 4 5 None false.
Definition latest : Online Cache unit := simple_online (fun _ _ => response_of 200 (json_serialize (JObject [(chars "version", JInt64 7)]))) (fun _ _ => (response_of 404 [], [])).
End client_sample.

Import layer_sample ReadIntegrity.tiles_sample client_sample.

(** The service of ReadIntegrity.v with a cache that records its answers. *)
#[local] Instance recorded_sample : KeyValueCache (Recorded Cache) Model := Recorded_cache.
#[export] Instance recorded_online : Online (Recorded Cache) unit := simple_online serve stream.
Definition recorded_start : World (Recorded Cache) unit := mkWorld (mkRecorded [] fresh) ∅ tt.

Lemma version_7_client : client_has (Hcache := Recorded_laws []) client layer contents 7.
Proof. split; [done|]. apply (gives_ret _ 7). reflexivity. Qed.

Lemma PrefetchTiles_reports_witness :
  exists w' r statuses, PrefetchTiles client layer request false recorded_start = Some (w', ([r], statuses)) /\
    recorded_world client layer contents [] w' /\
    match r with
    | inl result => reported client layer contents (answers_ (w_cache w')) request 7 result
    | inr _ => True
    end.
Proof.
  apply (PrefetchTiles_reports (Hhonest := fun past => honest_service) client layer contents tree_storable request 7 recorded_start).
  - discriminate.
  - vm_compute. intuition congruence.
  - vm_compute. reflexivity.
  - constructor; [|constructor]. split; [vm_compute; intuition congruence|vm_compute; reflexivity].
  - reflexivity.
  - apply version_7_client.
  - split; [apply fresh_holds|]. intros x Hx. by apply elem_of_nil in Hx.
  - reflexivity.
Defined.

(** The only tile of the catalog on these levels is downloaded, and its data stored. *)
Example sample_prefetch :
  (fun o => (o.2.1, filter (fun x => x = Stored (CreateDataHandleKey (ToCatalogHRNString hrn) layer (chars "ht")) data) (answers_ (w_cache o.1)))) <$>
    PrefetchTiles client layer request false recorded_start =
  Some ([inl [(leaf, None)]], [Stored (CreateDataHandleKey (ToCatalogHRNString hrn) layer (chars "ht")) data]).
Proof. vm_compute. reflexivity. Qed.

Lemma version_7_atomic : atomic_version (fun _ : World Cache unit => 7).
Proof. split; [by intros w w' v [= <- <-]|]. intros w w' d b e [= <- <- <-]. reflexivity. Qed.

Lemma GetVersion_consistent_witness :
  VersionResponse_version (mkVersionResponse 7) = 7 /\ (7 <> kInvalidVersion -> VersionResponse_version (mkVersionResponse 7) = 7).
Proof. apply (GetVersion_consistent client (fun _ : World Cache unit => 7) None OnlineIfNotFound start start (mkVersionResponse 7) version_7_atomic). reflexivity. Defined.

Lemma GetVersion_spurious_witness : GetVersion (H1 := latest) (H3 := spurious) client None OnlineOnly start = Some (start, inl (mkVersionResponse kInvalidVersion)).
Proof.
  apply (GetVersion_spurious (H1 := latest) (H2 := spurious) client None OnlineOnly start start start start (mkVersionResponse 7)).
  - reflexivity.
  - vm_compute. reflexivity.
  - reflexivity.
Defined.
