(* ===== verification/StreamLayer.v ===== *)
(** * The stream layer client

    Model of src/StreamLayerClientImpl.cpp and src/generated/api/StreamApi.cpp of
    olp-cpp-sdk-dataservice-read: the requests of the service, and what the task of each
    operation does with the subscription of the client.

    [client_context_] is guarded by a mutex which the tasks do not hold while they wait for
    a response, so that other tasks of the client may set it in between.  It is part of the
    outside of the world; the class [StreamContext] has the two things that a task does
    with it while it holds the mutex. *)

From Stdlib Require Import Sorted.
From stdpp Require Import sorting.
From S2P Require Import Prelude Hrn ProtectedKeyList Json ReadModels LruCache InMemoryCache DiskCache DefaultCache.
From S2P Require Import KeyValueCache KeyGenerator CacheRepositories Http World ApiLookup ReadApis.
Import Network Response.

(** [StreamLayerClientContext]; the client is one of its own base URL. *)
Record StreamLayerClientContext := mkContext {
  subscription_id : str;
  subscription_mode : str;
  x_correlation_id : str;
  context_client : OlpClient }.

Inductive SubscriptionMode := kSerial | kParallel.

Definition GetSubscriptionMode (mode : SubscriptionMode) : str :=
  match mode with kSerial => chars "serial" | kParallel => chars "parallel" end.

Record SubscribeRequest := mkSubscribeRequest {
  request_mode : SubscriptionMode;
  request_subscription_id : option str;
  request_consumer_id : option str;
  request_consumer_properties : option ConsumerProperties }.

Class StreamContext (S N : Type) := mkStreamContext {
  context_get : state (World S N) (option StreamLayerClientContext);
  context_set : option StreamLayerClientContext -> state (World S N) unit }.

(** [HandleCorrelationId]: the header with exactly this name. *)
Definition HandleCorrelationId (headers : Headers) (correlation_id : str) : str :=
  match list_find (fun h => h.1 = chars "X-Correlation-Id") headers with
  | Some (_, (_, value)) => value
  | None => correlation_id
  end.

Definition correlated (correlation_id : str) : list (str * str) := multimap (kAcceptJson ++ [(chars "X-Correlation-Id", correlation_id)]).

Definition param (name : string) (value : option str) : list (str * str) := match value with Some v => [(chars name, v)] | None => [] end.

(** *** The calls *)

Definition subscribe_call `{JsonText} (layer_id : str) (subscription_id mode consumer_id : option str) (properties : option ConsumerProperties) : ApiCall :=
  mkApiCall (chars "/layers/" ++ layer_id ++ chars "/subscribe") (chars "POST")
    (multimap (param "subscriptionId" subscription_id ++ param "mode" mode ++ param "consumerId" consumer_id)) kAcceptJson
    (serialize_text <$> properties) (chars "application/json").

Definition consume_call (layer_id : str) (subscription_id mode : option str) (correlation_id : str) : ApiCall :=
  mkApiCall (chars "/layers/" ++ layer_id ++ chars "/partitions") (chars "GET")
    (multimap (param "subscriptionId" subscription_id ++ param "mode" mode)) (correlated correlation_id) None [].

Definition offsets_call `{JsonText} (endpoint layer_id : str) (offsets : StreamOffsets) (subscription_id mode : option str) (correlation_id : str) : ApiCall :=
  mkApiCall (chars "/layers/" ++ layer_id ++ chars "/" ++ endpoint) (chars "PUT")
    (multimap (param "subscriptionId" subscription_id ++ param "mode" mode)) (correlated correlation_id)
    (Some (serialize_text offsets)) (chars "application/json").

Definition unsubscribe_call (layer_id subscription_id mode correlation_id : str) : ApiCall :=
  mkApiCall (chars "/layers/" ++ layer_id ++ chars "/subscribe") (chars "DELETE")
    (multimap [(chars "subscriptionId", subscription_id); (chars "mode", mode)]) (correlated correlation_id) None [].

Section api.
Context `{Models} {S N : Type} `{Online S N}.
Abbreviation W := (World S N).

(** A response and the correlation id that the call leaves. *)
Definition StreamApi_Subscribe (client : OlpClient) (layer_id : str) (subscription_id mode consumer_id : option str)
  (properties : option ConsumerProperties) (correlation_id : str) : state W (ApiResponse SubscribeResponse * str) :=
  http_response ← CallApi client (subscribe_call layer_id subscription_id mode consumer_id properties);
  if negb (status http_response =? 201) then mret (inr (status_error http_response), correlation_id)
  else
    response ← lift (parse_result (Response.response http_response));
    mret (response, HandleCorrelationId (headers http_response) correlation_id).

Definition ConsumeData (client : OlpClient) (layer_id : str) (subscription_id mode : option str) (correlation_id : str)
  : state W (ApiResponse Messages * str) :=
  http_response ← CallApi client (consume_call layer_id subscription_id mode correlation_id);
  if negb (status http_response =? 200) then mret (inr (status_error http_response), correlation_id)
  else
    response ← lift (parse_result (Response.response http_response));
    mret (response, HandleCorrelationId (headers http_response) correlation_id).

Definition HandleOffsets (client : OlpClient) (layer_id : str) (offsets : StreamOffsets) (subscription_id mode : option str) (endpoint : str)
  (correlation_id : str) : state W (ApiResponse Z * str) :=
  http_response ← CallApi client (offsets_call endpoint layer_id offsets subscription_id mode correlation_id);
  mret (if negb (status http_response =? 200) then (inr (status_error http_response), correlation_id)
        else (inl (status http_response), HandleCorrelationId (headers http_response) correlation_id)).

Definition CommitOffsets (client : OlpClient) (layer_id : str) (offsets : StreamOffsets) (subscription_id mode : option str) (correlation_id : str) :=
  HandleOffsets client layer_id offsets subscription_id mode (chars "offsets") correlation_id.
Definition SeekToOffset (client : OlpClient) (layer_id : str) (offsets : StreamOffsets) (subscription_id mode : option str) (correlation_id : str) :=
  HandleOffsets client layer_id offsets subscription_id mode (chars "seek") correlation_id.

Definition DeleteSubscription (client : OlpClient) (layer_id subscription_id mode correlation_id : str) : state W (ApiResponse Z) :=
  http_response ← CallApi client (unsubscribe_call layer_id subscription_id mode correlation_id);
  mret (if negb (status http_response =? 200) then inr (status_error http_response) else inl (status http_response)).
End api.

(** ** The tasks *)

Definition kAlreadySubscribed : ApiError := ApiError_of_code InvalidArgument (chars "Already subscribed") false.
Definition kSubscriptionMissing : ApiError := ApiError_of_code PreconditionFailed (chars "Subscription missing") false.
Definition kOffsetsMissing : ApiError := ApiError_of_code PreconditionFailed (chars "Stream offsets missing") false.
Definition kHandleMissing : ApiError := ApiError_of_code InvalidArgument
  (chars "Data handle is missing in the message metadata. Please use embedded message data directly.") false.

(** An insertion into [stream_offsets], which is ordered by partitions. *)
Fixpoint insert_offset (x : StreamOffset) (l : list StreamOffset) : list StreamOffset :=
  match l with
  | [] => [x]
  | y :: l =>
      if StreamOffset_partition x <? StreamOffset_partition y then x :: y :: l
      else if StreamOffset_partition y <? StreamOffset_partition x then y :: insert_offset x l
      else y :: l
  end.

(** The offsets that [Poll] commits: the messages from the last to the first. *)
Definition offsets_of (messages : list Message) : StreamOffsets :=
  mkStreamOffsets (foldl (fun l message => insert_offset (Message_offset message) l) [] (reverse messages)).

Section tasks.
Context `{Models} {S N : Type} `{KeyValueCache S Model} `{Online S N} `{StreamContext S N}.
Abbreviation W := (World S N).
Context (lookup : ApiLookupClientImpl) (layer_id : str).

Definition Subscribe (request : SubscribeRequest) : state W (ApiResponse str) :=
  context ← context_get;
  match context with
  | Some _ => mret (inr kAlreadySubscribed)
  | None =>
      let mode := GetSubscriptionMode (request_mode request) in
      stream_api ← LookupApi lookup (chars "stream") (chars "v2") OnlineIfNotFound;
      match stream_api with
      | inr e => mret (inr e)
      | inl client =>
          '(subscription, correlation_id) ← StreamApi_Subscribe client layer_id (request_subscription_id request) (Some mode)
                                              (request_consumer_id request) (request_consumer_properties request) [];
          match subscription with
          | inr e => mret (inr e)
          | inl subscription =>
              context_set (Some (mkContext (SubscribeResponse_subscription_id subscription) mode correlation_id
                                   (OwnClient (SubscribeResponse_node_base_url subscription))));;
              mret (inl (SubscribeResponse_subscription_id subscription))
          end
      end
  end.

(** What the other operations begin with. *)
Definition subscribed {R} (body : StreamLayerClientContext -> state W (ApiResponse R)) : state W (ApiResponse R) :=
  context ← context_get;
  match context with None => mret (inr kSubscriptionMissing) | Some context => body context end.

Definition Unsubscribe : state W (ApiResponse str) :=
  subscribed (fun context =>
    response ← DeleteSubscription (context_client context) layer_id (subscription_id context) (subscription_mode context) (x_correlation_id context);
    match response with
    | inr e => mret (inr e)
    | inl _ => context_set None;; mret (inl (subscription_id context))
    end).

Definition Poll : state W (ApiResponse Messages) :=
  subscribed (fun context =>
    let id := Some (subscription_id context) in
    let mode := Some (subscription_mode context) in
    '(data, correlation_id) ← ConsumeData (context_client context) layer_id id mode (x_correlation_id context);
    match data with
    | inr e => mret (inr e)
    | inl res =>
        match Messages_messages res with
        | [] => mret (inl res)
        | messages =>
            '(commit_res, _) ← CommitOffsets (context_client context) layer_id (offsets_of messages) id mode correlation_id;
            mret (match commit_res with inr e => inr e | inl _ => inl res end)
        end
    end).

Definition Seek (offsets : StreamOffsets) : state W (ApiResponse Z) :=
  subscribed (fun context =>
    match StreamOffsets_offsets offsets with
    | [] => mret (inr kOffsetsMissing)
    | _ =>
        '(res, _) ← SeekToOffset (context_client context) layer_id offsets (Some (subscription_id context)) (Some (subscription_mode context))
                      (x_correlation_id context);
        mret res
    end).

(** [GetData] of a message. *)
Definition GetData (message : Message) : state W (ExtendedResponse DataResult) :=
  let metadata := Message_meta_data message in
  match Metadata_data_handle metadata with
  | None => mret (without_statistics (inr kHandleMissing))
  | Some data_handle =>
      blob_api ← LookupApi lookup (chars "blob") (chars "v1") OnlineIfNotFound;
      match blob_api with
      | inr e => mret (without_statistics (inr e))
      | inl client =>
          GetBlob client layer_id (mkPartition None None data_handle (Metadata_data_size metadata) None [] None) None None
      end
  end.
End tasks.

(** ** What [Poll] acknowledges *)

Abbreviation offset_below := (fun a b => StreamOffset_partition a < StreamOffset_partition b).

(** The offsets of the last message of each partition, ordered by partitions. *)
Definition last_offset (messages : list Message) (x : StreamOffset) : Prop :=
  exists before message after, messages = before ++ message :: after /\ Message_offset message = x /\
    forall m, m ∈ after -> StreamOffset_partition (Message_offset m) <> StreamOffset_partition x.
Definition acknowledges (offsets : list StreamOffset) (messages : list Message) : Prop :=
  StronglySorted offset_below offsets /\ forall x, x ∈ offsets <-> last_offset messages x.

Lemma insert_offset_elem x l y : StronglySorted offset_below l ->
  y ∈ insert_offset x l <-> y ∈ l \/ y = x /\ forall z, z ∈ l -> StreamOffset_partition z <> StreamOffset_partition x.
Proof.
  intros Hs. induction Hs as [|z l Hs IH Hz]; cbn.
  - rewrite list_elem_of_singleton. split; [intros ->; right; split; [done|by intros ? ?%elem_of_nil]|]. by intros [?%elem_of_nil|[]].
  - destruct (Z.ltb_spec (StreamOffset_partition x) (StreamOffset_partition z)) as [Hlt|Hge].
    { rewrite (elem_of_cons (z :: l)). split; [intros [->|Hy]; [right|by left]|intros [Hy|[-> _]]; [by right|by left]].
      split; [done|]. intros t [->|Ht]%elem_of_cons; [lia|]. rewrite Forall_forall in Hz. specialize (Hz t Ht). cbn in Hz. lia. }
    destruct (Z.ltb_spec (StreamOffset_partition z) (StreamOffset_partition x)) as [Hlt|Hge'].
    + rewrite !elem_of_cons, IH. split.
      * intros [->|[Hy|[-> Hall]]]; [by left; left|by left; right|]. right. split; [done|]. intros t [->|Ht]%elem_of_cons; [lia|by apply Hall].
      * intros [[->|Hy]|[-> Hall]]; [by left|by right; left|]. right. right. split; [done|]. intros t Ht. apply Hall. by right.
    + split; [by left|]. intros [Hy|[_ Hall]]; [done|]. exfalso. apply (Hall z ltac:(left)). lia.
Qed.

Lemma insert_offset_sorted x l : StronglySorted offset_below l -> StronglySorted offset_below (insert_offset x l).
Proof.
  intros Hs. induction Hs as [|z l Hs IH Hz]; cbn; [repeat constructor|].
  destruct (Z.ltb_spec (StreamOffset_partition x) (StreamOffset_partition z)) as [Hlt|Hge].
  { constructor; [by constructor|]. constructor; [done|]. eapply Forall_impl; [exact Hz|]. intros t Ht. cbn in Ht |- *. lia. }
  destruct (Z.ltb_spec (StreamOffset_partition z) (StreamOffset_partition x)) as [Hlt|Hge']; [|by constructor].
  constructor; [done|]. apply Forall_forall. intros t Ht. apply insert_offset_elem in Ht as [Ht|[-> _]]; [|done|done].
  rewrite Forall_forall in Hz. by apply Hz.
Qed.

Abbreviation partition_of := (fun m => StreamOffset_partition (Message_offset m)).

Lemma last_offset_later m messages x : last_offset messages x -> last_offset (m :: messages) x.
Proof. intros (before & message & after & -> & Ho & Ha). by exists (m :: before), message, after. Qed.

(** A partition that has messages has a last one. *)
Lemma last_offset_exists messages m : m ∈ messages -> exists y, last_offset messages y /\ StreamOffset_partition y = partition_of m.
Proof.
  revert m. induction messages as [|t l IH]; intros m Hm; [by apply elem_of_nil in Hm|].
  destruct (decide (Exists (fun t' => partition_of t' = partition_of m) l)) as [(t' & Ht' & Et')%Exists_exists|Hno].
  - destruct (IH t' Ht') as (y & Hy & Ey). exists y. split; [by apply last_offset_later|congruence].
  - apply elem_of_cons in Hm as [->|Hm]; [|exfalso; apply Hno, Exists_exists; by exists m]. exists (Message_offset t). split; [|done].
    exists [], t, l. split_and!; [done..|]. intros t' Ht' Et'. apply Hno, Exists_exists. by exists t'.
Qed.

Lemma last_offset_cons m messages x : last_offset (m :: messages) x <->
  last_offset messages x \/ x = Message_offset m /\ forall y, last_offset messages y -> StreamOffset_partition y <> StreamOffset_partition x.
Proof.
  split.
  - intros (before & message & after & E & Ho & Ha). destruct before as [|b before]; injection E as -> E; [|left; by exists before, message, after].
    right. subst messages. split; [done|]. intros y (b' & m' & a' & -> & <- & _). apply Ha. apply elem_of_app. right. left.
  - intros [Hl|[-> Hall]]; [by apply last_offset_later|]. exists [], m, messages. split_and!; [done..|]. intros m' Hm' Em'.
    destruct (last_offset_exists _ _ Hm') as (y & Hy & Ey). apply (Hall y Hy). congruence.
Qed.

Lemma offsets_of_acknowledges messages : acknowledges (StreamOffsets_offsets (offsets_of messages)) messages.
Proof.
  unfold offsets_of. cbn [StreamOffsets_offsets]. induction messages as [|m messages [Hs He]].
  - split; [constructor|]. intros x. split; [by intros ?%elem_of_nil|]. intros (before & message & after & E & _). by destruct before.
  - rewrite reverse_cons, foldl_app. cbn. split; [by apply insert_offset_sorted|]. intros x.
    rewrite insert_offset_elem, last_offset_cons by done. split; (intros [Hx|[-> Hall]]; [left; by apply He|right; split; [done|]; intros z Hz; apply Hall; by apply He]).
Qed.

Section poll.
Context `{Models} {S N : Type} `{KeyValueCache S Model} `{Online S N} `{StreamContext S N}.
Context (lookup : ApiLookupClientImpl) (layer_id : str).

(** C12: a poll of a subscribed client consumes the messages of its subscription with its
    correlation id.  If the service fails or what it sends cannot be parsed, the poll fails
    and commits nothing.  If there are no messages it hands over the empty batch and
    commits nothing.  Otherwise it commits, with the correlation id that the service gave,
    for each partition of the messages the offset of its last message, and no other
    offset; it hands the messages over when the service has accepted the commit, and fails
    with the error of the service when it has not. *)
Theorem Poll_acknowledges (w w1 w' : World S N) context r :
  context_get w = Some (w1, Some context) -> Poll layer_id w = Some (w', r) ->
  let client := context_client context in
  let id := Some (subscription_id context) in
  let mode := Some (subscription_mode context) in
  exists w2 consumed, CallApi client (consume_call layer_id id mode (x_correlation_id context)) w1 = Some (w2, consumed) /\
    let correlation_id := HandleCorrelationId (headers consumed) (x_correlation_id context) in
    match (if status consumed =? 200 then parse_result (Response.response consumed) else None) with
    | Some (inl res) =>
        match Messages_messages res with
        | [] => w' = w2 /\ r = inl res
        | messages => exists offsets committed, acknowledges offsets messages /\
            CallApi client (offsets_call (chars "offsets") layer_id (mkStreamOffsets offsets) id mode correlation_id) w2 = Some (w', committed) /\
            r = (if status committed =? 200 then inl res else inr (status_error committed))
        end
    | _ => w' = w2 /\ exists e, r = inr e
    end.
Proof.
  intros Ec E. cbv zeta. unfold Poll, subscribed in E. apply bind_Some in E as ([w0 c0] & E0 & E). rewrite Ec in E0. injection E0 as <- <-. cbn in E.
  apply bind_Some in E as ([w2 [data correlation_id]] & Ed & E). unfold ConsumeData in Ed. apply bind_Some in Ed as ([w3 consumed] & Ecall & Ed).
  cbn in Ed. exists w3, consumed. split; [exact Ecall|]. destruct (Z.eqb_spec (status consumed) 200) as [Hst|Hst]; cbn [negb] in Ed.
  2:{ injection Ed as <- <- <-. cbn in E. injection E as <- <-. split; [done|by eexists]. }
  apply bind_Some in Ed as ([w4 response] & El & Ed). unfold lift in El. destruct (parse_result _) as [parsed|] eqn:Ep; [|done]. injection El as <- <-.
  cbn in Ed. injection Ed as <- <- <-. cbn in E. destruct parsed as [res|e]; [|injection E as <- <-; split; [done|by eexists]].
  destruct (Messages_messages res) as [|m ms] eqn:Em; [by injection E as <- <-|].
  apply bind_Some in E as ([w5 [commit_res correlation_id']] & Ecm & E). injection E as <- <-. unfold CommitOffsets, HandleOffsets in Ecm.
  apply bind_Some in Ecm as ([w6 committed] & Ecc & Ecm). cbn in Ecm. exists (StreamOffsets_offsets (offsets_of (m :: ms))), committed.
  destruct (status committed =? 200); cbn [negb] in Ecm; injection Ecm as <- <- <-; (split; [apply offsets_of_acknowledges|done]).
Qed.
End poll.

(** ** Concrete inputs: a service with given responses, and what other tasks of the client
    set while a response is waited for *)

Module stream_sample.
Import layer_sample.
Record Outside := mkOutside {
  shared_context : option StreamLayerClientContext;
  sent : list (key * ApiCall);
  to_come : list (HttpResponse * option (option StreamLayerClientContext)) }.
Abbreviation W := (World Cache Outside).
Definition set_outside (o : Outside) (w : W) : W := mkWorld (w_cache w) (cached_clients_ w) o.

#[export] Instance service : Online Cache Outside := {|
  call_api base_url c := fun w =>
    let o := w_outside w in
    match to_come o with
    | [] => None
    | (response, meanwhile) :: to_come =>
        Some (set_outside (mkOutside (default (shared_context o) meanwhile) (sent o ++ [(base_url, c)]) to_come) w, response)
    end;
  call_api_stream base_url c := mret (response_of 404 [], []);
  system_clock := mret 100;
  steady_clock := mret 100;
  mutex_open _ := mret tt; mutex_close _ := mret tt; mutex_lock _ := mret tt; mutex_unlock _ := mret tt;
  mutex_get_error _ := mret None; mutex_set_error _ _ := mret tt |}.
#[export] Instance context : StreamContext Cache Outside := {|
  context_get := gets (fun w => shared_context (w_outside w));
  context_set c := modify (fun w => set_outside (mkOutside c (sent (w_outside w)) (to_come (w_outside w))) w) |}.

Definition message_json (partition offset : Z) : json := JObject
  [(chars "metaData", JObject [(chars "partition", JString (chars "p"))]);
   (chars "offset", JObject [(chars "partition", JInt64 partition); (chars "offset", JInt64 offset)])].
Definition consumed (id : str) (l : list (Z * Z)) : HttpResponse :=
  mkHttpResponse 200 (json_serialize (JObject [(chars "messages", JArray ((fun x => message_json x.1 x.2) <$> l))]))
    [(chars "X-Correlation-Id", id)] NetworkStatistics_new.
Definition subscription (id : str) : HttpResponse := response_of 201 (json_serialize
  (JObject [(chars "nodeBaseURL", JString (chars "http://node")); (chars "subscriptionId", JString id)])).
Definition lookup : ApiLookupClientImpl :=
  ApiLookupClientImpl_new hrn (mkLookupSettings (fun _ => []) (Some (fun _ => chars "http://static"))).
Definition subscribed_to (id correlation_id : str) : StreamLayerClientContext := mkContext id (chars "serial") correlation_id (OwnClient (chars "http://node")).
Definition start (c : option StreamLayerClientContext) (responses : list (HttpResponse * option (option StreamLayerClientContext))) : W :=
  mkWorld fresh ∅ (mkOutside c [] responses).
Definition request : SubscribeRequest := mkSubscribeRequest kSerial None None None.
Definition messages : list (Z * Z) := [(2, 10); (1, 7); (2, 11); (1, 8)].
End stream_sample.
Import layer_sample stream_sample.

(** What a computation leaves outside, and its result. *)
Definition outcome {R} (m : state W R) (w : W) : option (Outside * R) := (fun wr => (w_outside wr.1, wr.2)) <$> m w.

Definition polling : W := start (Some (subscribed_to (chars "s") (chars "c0")))
  [(consumed (chars "c1") messages, None); (response_of 200 [], None); (consumed (chars "c2") [], None)].

(** Two polls: the first one commits the last offset of each partition with the correlation
    id that the service gave it; the second one starts from the id of the subscription again. *)
Example sample_polls :
  let o := (Poll (chars "l");; Poll (chars "l")) polling in
  (fun wr => (fun c => (call_path c.2, list_find (fun h => h.1 = chars "X-Correlation-Id") (header_params c.2), post_body c.2)) <$> sent (w_outside wr.1)) <$> o =
  Some [(chars "/layers/l/partitions", Some (1%nat, (chars "X-Correlation-Id", chars "c0")), None);
        (chars "/layers/l/offsets", Some (1%nat, (chars "X-Correlation-Id", chars "c1")),
          Some (serialize_text (mkStreamOffsets [mkStreamOffset 1 8; mkStreamOffset 2 11])));
        (chars "/layers/l/partitions", Some (1%nat, (chars "X-Correlation-Id", chars "c0")), None)].
Proof. vm_compute. reflexivity. Qed.

Lemma Poll_acknowledges_witness :
  let context := subscribed_to (chars "s") (chars "c0") in
  let client := OwnClient (chars "http://node") in
  let id := Some (chars "s") in
  let mode := Some (chars "serial") in
  exists w' res w2 answer, Poll (chars "l") polling = Some (w', inl res) /\
    CallApi client (consume_call (chars "l") id mode (chars "c0")) polling = Some (w2, answer) /\
    exists offsets committed, acknowledges offsets (Messages_messages res) /\
      CallApi client (offsets_call (chars "offsets") (chars "l") (mkStreamOffsets offsets) id mode (chars "c1")) w2 = Some (w', committed) /\
      status committed = 200.
Proof.
  cbv zeta. destruct (Poll (chars "l") polling) as [[w' [r|e]]|] eqn:E; [|exfalso; revert E; vm_compute; done..].
  assert (Ec : context_get polling = Some (polling, Some (subscribed_to (chars "s") (chars "c0")))) by reflexivity.
  destruct (Poll_acknowledges (chars "l") polling polling w' (subscribed_to (chars "s") (chars "c0")) (inl r) Ec E) as (w2 & answer & Ecall & H).
  exists w', r, w2, answer. split; [done|]. split; [exact Ecall|].
  destruct (if status answer =? 200 then _ else _) as [[res|e]|]; [|by destruct H as (_ & e' & H)..].
  destruct (Messages_messages res) as [|m ms] eqn:Em.
  { (* two calls were made *) destruct H as [-> _]. exfalso. assert (Hl : length (sent (w_outside w2)) = 1%nat) by (vm_compute in Ecall; by injection Ecall as <- _).
    vm_compute in E. injection E as <- _. done. }
  destruct H as (offsets & committed & Ha & Hc & Hr). destruct (Z.eqb_spec (status committed) 200) as [Hs|]; [|done]. injection Hr as <-. rewrite Em.
  exists offsets, committed. split; [exact Ha|]. split; [|exact Hs]. revert Hc. vm_compute in Ecall. injection Ecall as _ <-. intros Hc. exact Hc.
Defined.

(** A task that subscribes while the response to another one is on its way: both succeed,
    and the subscription of the first is lost, with nobody who could end it. *)
Example subscribe_overwrites :
  (fun x => (shared_context x.1, x.2)) <$>
    outcome (Subscribe lookup (chars "l") request) (start None [(subscription (chars "mine"), Some (Some (subscribed_to (chars "other") [])))]) =
  Some (Some (subscribed_to (chars "mine") []), inl (chars "mine")).
Proof. vm_compute. reflexivity. Qed.

(** A client that polls without a subscription makes no request. *)
Example poll_unsubscribed : outcome (Poll (chars "l")) (start None []) = Some (mkOutside None [] [], inr kSubscriptionMissing).
Proof. vm_compute. reflexivity. Qed.
